(* ===== verification/_CoqProject ===== *)
-Q . S2P
Prelude.v
Core.v
Crc32c.v
Record.v
SegmentHeader.v
Segment.v
File.v
SegmentFile.v
SegmentFileSpec.v
SegmentFileTotal.v
Routing.v
Probing.v
SwissTable.v
SwissTableSpec.v
Index.v
SegmentManager.v
Worker.v
WorkerSpec.v
WorkerVerify.v
Vacuum.v
VacuumSpec.v
QuiesceGate.v
Manifest.v
Protocol.v
Compaction.v
CompactionIntent.v
Namespace.v
NamespaceSpec.v
Directory.v
DirectorySpec.v
DirectoryHistory.v
Recovery.v
RecoverySpec.v
RecoveryState.v
Atomic.v
SpscQueue.v
MpscQueue.v
SlotPool.v
GenerationPool.v
Lifecycle.v
