(* ===== verification/Prelude.v ===== *)
(** * GlifiStore: shared prelude *)

From Stdlib Require Export ZArith Lia.
From stdpp Require Export base numbers strings gmap option list.

#[global] Open Scope Z_scope.

(** ** Errors and results *)

(** [enum class ErrorCode] of core/error.hpp. *)
Inductive ErrorCode :=
  | invalid_argument
  | arithmetic_overflow
  | record_too_large
  | segment_full
  | segment_sealed
  | invalid_record
  | checksum_mismatch
  | invalid_reference
  | sequence_conflict
  | corrupted_data
  | not_found
  | resource_exhausted
  | storage_exhausted
  | file_too_large
  | descriptor_exhausted
  | read_only_filesystem
  | internal_error
  | unavailable
  | io_error.

#[export] Instance ErrorCode_eq_dec : EqDecision ErrorCode.
Proof. solve_decision. Defined.

(** What the C++ program must never do: read or write outside a buffer or through
    a dangling pointer or divide by zero (undefined behaviour), let an exception
    escape that only a broken invariant throws, or, in a fuelled definition, loop
    longer than the fuel allows. *)
Inductive Fault := out_of_bounds | out_of_fuel | uncaught_exception | division_by_zero | self_deadlock.

(** [Result<T>] of core/error.hpp: a value or an error.  The third constructor
    is not a value of the C++ type, it marks an execution that has left the
    defined behaviour of the program. *)
Inductive Result (A : Type) :=
  | Ok (a : A)
  | Err (e : ErrorCode)
  | Stuck (f : Fault).
Arguments Ok {A} a.
Arguments Err {A} e.
Arguments Stuck {A} f.

(** [using Status = Result<void>]. *)
Abbreviation Status := (Result unit).

Definition bindR {A B} (r : Result A) (k : A -> Result B) : Result B :=
  match r with
  | Ok a => k a
  | Err e => Err e
  | Stuck f => Stuck f
  end.

Declare Scope result_scope.
Delimit Scope result_scope with res.
#[global] Open Scope result_scope.

Notation "'let?' x := r 'in' k" := (bindR r (fun x => k))
  (at level 10, x binder, r at level 200, k at level 200,
   format "'[v' 'let?'  x  :=  r  'in' '/' k ']'") : result_scope.
Notation "r ';;?' k" := (bindR r (fun _ => k))
  (at level 100, right associativity, format "'[v' r ';;?' '/' k ']'") : result_scope.

(** C++ evaluates [a || b] left to right and stops at the first true operand:
    a read in [b] happens only when [a] is false. *)
Definition orR (a b : Result bool) : Result bool :=
  let? x := a in if x then Ok true else b.
Definition neR (r : Result Z) (v : Z) : Result bool :=
  let? x := r in Ok (negb (x =? v)).
Notation "a '||?' b" := (orR a b) (at level 50, left associativity) : result_scope.
Notation "r '<>?' v" := (neR r v) (at level 40, no associativity) : result_scope.

(** [if (!r) return fail(code)]: the error of [r] replaced by another one. *)
Definition or_fail {A} (r : Result A) (e : ErrorCode) : Result A :=
  match r with Err _ => Err e | _ => r end.

Definition is_Ok {A} (r : Result A) : bool :=
  match r with Ok _ => true | _ => false end.
Definition defined {A} (r : Result A) : Prop :=
  match r with Stuck _ => False | _ => True end.

Section result_lemmas.
Context {A B : Type}.

Lemma bindR_Ok (r : Result A) (k : A -> Result B) b :
  bindR r k = Ok b <-> exists a, r = Ok a /\ k a = Ok b.
Proof. destruct r; simpl; naive_solver. Qed.

Lemma Ok_inj (x y : A) : Ok x = Ok y -> x = y.
Proof. congruence. Qed.

Lemma bindR_Err (r : Result A) (k : A -> Result B) e :
  bindR r k = Err e <-> r = Err e \/ exists a, r = Ok a /\ k a = Err e.
Proof. destruct r; simpl; naive_solver. Qed.

Lemma bindR_Stuck (r : Result A) (k : A -> Result B) f :
  bindR r k = Stuck f <-> r = Stuck f \/ exists a, r = Ok a /\ k a = Stuck f.
Proof. destruct r; simpl; naive_solver. Qed.

Lemma bindR_assoc {C} (r : Result A) (k : A -> Result B) (h : B -> Result C) :
  bindR (bindR r k) h = bindR r (fun a => bindR (k a) h).
Proof. by destruct r. Qed.

Lemma defined_bindR (r : Result A) (k : A -> Result B) :
  defined r -> (forall a, r = Ok a -> defined (k a)) -> defined (bindR r k).
Proof. destruct r; simpl; naive_solver. Qed.
End result_lemmas.

(** The outermost test of a result under analysis. *)
Ltac head_if E :=
  match goal with
  | |- match (if ?b then _ else _) with Ok _ => _ | Err _ => _ | Stuck _ => _ end => destruct b eqn:E
  | |- defined (if ?b then _ else _) => destruct b eqn:E
  | |- (if ?b then _ else _) = _ => destruct b eqn:E
  end.

Lemma orR_Ok a b : orR (Ok a) (Ok b) = Ok (a || b).
Proof. by destruct a. Qed.
Lemma neR_Ok x v : neR (Ok x) v = Ok (negb (x =? v)).
Proof. done. Qed.

(** Peel a successful computation: every [bindR] in [H] gives a name to its
    intermediate value, every failed branch disappears. *)
Ltac peel H :=
  repeat
      match type of H with
      | bindR _ _ = Ok _ =>
          let a := fresh "v" in let H1 := fresh "Hv" in
          apply bindR_Ok in H; destruct H as (a & H1 & H)
      | (if ?b then Err _ else _) = Ok _ => let E := fresh "E" in destruct b eqn:E; [discriminate H|]
      | (if ?b then _ else Err _) = Ok _ => let E := fresh "E" in destruct b eqn:E; [|discriminate H]
      | (match ?b with Some _ => _ | None => Err _ end) = Ok _ =>
          let E := fresh "E" in destruct b eqn:E; [|discriminate H]
      end.

(** ** Machine integers *)

(** Unsigned w-bit arithmetic wraps around. *)
Definition wrap (w z : Z) : Z := z mod 2 ^ w.
Abbreviation u8 := (wrap 8).
Abbreviation u16 := (wrap 16).
Abbreviation u32 := (wrap 32).
Abbreviation u64 := (wrap 64).

(** [std::numeric_limits<uintw_t>::max()]; [std::size_t] has 64 bits on every
    platform the build supports. *)
Definition umax (w : Z) : Z := 2 ^ w - 1.
Definition size_max : Z := umax 64.

Definition is_uint (w z : Z) : Prop := 0 <= z < 2 ^ w.
Abbreviation is_u8 := (is_uint 8).
Abbreviation is_u16 := (is_uint 16).
Abbreviation is_u32 := (is_uint 32).
Abbreviation is_u64 := (is_uint 64).

Lemma wrap_small w z : is_uint w z -> wrap w z = z.
Proof. apply Z.mod_small. Qed.

Lemma wrap_range w z : 0 <= w -> is_uint w (wrap w z).
Proof. intros. apply Z.mod_pos_bound. by apply Z.pow_pos_nonneg. Qed.

Lemma is_uint_mono w w' z : 0 <= w <= w' -> is_uint w z -> is_uint w' z.
Proof.
  intros Hw Hz. unfold is_uint in *. pose proof (Z.pow_le_mono_r 2 w w').
  lia.
Qed.

(** Evaluate the powers of two, so that [lia] sees numbers. *)
Ltac width :=
  unfold size_max, is_uint, umax in *;
  change (2 ^ 8) with 256 in *; change (2 ^ 16) with 65536 in *;
  change (2 ^ 32) with 4294967296 in *; change (2 ^ 64) with 18446744073709551616 in *.

(** [lia] with division and remainder by constants. *)
Ltac divlia := Z.to_euclidean_division_equations; lia.

(** Boolean tests of the code, turned into propositions. *)
Ltac b2p :=
  repeat match goal with
  | H : orb _ _ = false |- _ => apply orb_false_iff in H as [? ?]
  | H : andb _ _ = true |- _ => apply andb_true_iff in H as [? ?]
  | H : negb _ = true |- _ => apply negb_true_iff in H
  | H : negb _ = false |- _ => apply negb_false_iff in H
  | H : (_ =? _) = true |- _ => apply Z.eqb_eq in H
  | H : (_ =? _) = false |- _ => apply Z.eqb_neq in H
  | H : (_ <? _) = true |- _ => apply Z.ltb_lt in H
  | H : (_ <? _) = false |- _ => apply Z.ltb_ge in H
  | H : (_ <=? _) = true |- _ => apply Z.leb_le in H
  | H : (_ <=? _) = false |- _ => apply Z.leb_gt in H
  | H : bool_decide _ = true |- _ => apply bool_decide_eq_true in H
  | H : bool_decide _ = false |- _ => apply bool_decide_eq_false in H
  end.

Lemma testbit_above w z i : 0 <= w -> is_uint w z -> w <= i -> Z.testbit z i = false.
Proof.
  intros Hw Hz Hi. rewrite <- (Z.mod_small z (2 ^ w)) by exact Hz.
  by rewrite Z.mod_pow2_bits_high by lia.
Qed.

Lemma lxor_range w a b : 0 <= w -> is_uint w a -> is_uint w b -> is_uint w (Z.lxor a b).
Proof.
  intros Hw Ha Hb. unfold is_uint.
  assert (0 <= Z.lxor a b) by (apply Z.lxor_nonneg; unfold is_uint in *; lia).
  apply Z.bounded_iff_bits_nonneg'; [done..|]. intros i Hi.
  by rewrite Z.lxor_spec, !(testbit_above w) by done.
Qed.

(** Two numbers without a common bit. *)
Lemma lor_shiftl_add a b k :
  0 <= k -> 0 <= a < 2 ^ k -> Z.lor a (Z.shiftl b k) = a + b * 2 ^ k.
Proof.
  intros Hk Ha. rewrite <- Z.shiftl_mul_pow2 by done. symmetry.
  apply Z.add_nocarry_lor. apply Z.bits_inj'; intros i Hi.
  rewrite Z.land_spec, Z.bits_0. destruct (decide (i < k)).
  - rewrite (Z.shiftl_spec_low b) by lia. apply andb_false_r.
  - by rewrite (testbit_above k a) by (done || lia).
Qed.

(** ** Buffers *)

(** A [std::span] or [std::vector] of bytes is the list of its elements, each a
    number below 256; sizes and offsets are [size_t] values. *)
Definition byte_ok (b : Z) : Prop := 0 <= b < 256.
Abbreviation bytes_ok := (Forall byte_ok).
Definition zlen {A} (l : list A) : Z := Z.of_nat (length l).

Definition zeros (n : Z) : list Z := replicate (Z.to_nat n) 0.
Definition ztake {A} (n : Z) (l : list A) : list A := take (Z.to_nat n) l.
Definition zdrop {A} (n : Z) (l : list A) : list A := drop (Z.to_nat n) l.
(** The [n] elements of [l] from offset [at_] on. *)
Definition slice {A} (at_ n : Z) (l : list A) : list A := ztake n (zdrop at_ l).

(** [in[at]] *)
Definition get_byte (inp : list Z) (at_ : Z) : Result Z :=
  if at_ <? 0 then Stuck out_of_bounds
  else match inp !! Z.to_nat at_ with
       | Some b => Ok b
       | None => Stuck out_of_bounds
       end.

(** [out[at] = b] *)
Definition set_byte (out : list Z) (at_ b : Z) : Result (list Z) :=
  if (0 <=? at_) && (at_ <? zlen out) then Ok (<[Z.to_nat at_ := b]> out)
  else Stuck out_of_bounds.

(** [bytes.subspan(at, n)]; undefined outside the span. *)
Definition subspan (bs : list Z) (at_ n : Z) : Result (list Z) :=
  if (0 <=? at_) && (0 <=? n) && (at_ + n <=? zlen bs) then Ok (slice at_ n bs)
  else Stuck out_of_bounds.
(** [bytes.subspan(at)] *)
Definition subspan_from (bs : list Z) (at_ : Z) : Result (list Z) :=
  subspan bs at_ (zlen bs - at_).
(** [bytes.first(n)] *)
Definition first (bs : list Z) (n : Z) : Result (list Z) := subspan bs 0 n.

(** [std::memcpy(out.data() + at, src.data(), src.size())] *)
Definition memcpy (out : list Z) (at_ : Z) (src : list Z) : Result (list Z) :=
  if (0 <=? at_) && (at_ + zlen src <=? zlen out)
  then Ok (ztake at_ out ++ src ++ zdrop (at_ + zlen src) out)
  else Stuck out_of_bounds.

Definition all_zero (bs : list Z) : bool := forallb (fun b => b =? 0) bs.

Section buffers.
Context {A : Type}.
Implicit Types (l k : list A).

Lemma zlen_nonneg l : 0 <= zlen l.
Proof. unfold zlen. lia. Qed.
Lemma zlen_nil : zlen (@nil A) = 0.
Proof. done. Qed.
Lemma zlen_cons x l : zlen (x :: l) = 1 + zlen l.
Proof. unfold zlen. simpl. lia. Qed.
Lemma zlen_app l k : zlen (l ++ k) = zlen l + zlen k.
Proof. unfold zlen. rewrite length_app. lia. Qed.
Lemma zlen_ztake n l : 0 <= n <= zlen l -> zlen (ztake n l) = n.
Proof. unfold zlen, ztake. rewrite length_take. lia. Qed.
Lemma zlen_zdrop n l : 0 <= n <= zlen l -> zlen (zdrop n l) = zlen l - n.
Proof. unfold zlen, zdrop. rewrite length_drop. lia. Qed.
Lemma zlen_slice at_ n l :
  0 <= at_ -> 0 <= n -> at_ + n <= zlen l -> zlen (slice at_ n l) = n.
Proof. intros. unfold slice. rewrite zlen_ztake; [done|]. rewrite zlen_zdrop; lia. Qed.

Lemma ztake_zdrop n l : ztake n l ++ zdrop n l = l.
Proof. apply take_drop. Qed.
Lemma ztake_all n l : zlen l <= n -> ztake n l = l.
Proof. unfold zlen. intros. apply take_ge. lia. Qed.
Lemma zdrop_0 l : zdrop 0 l = l.
Proof. done. Qed.
Lemma ztake_0 l : ztake 0 l = [].
Proof. done. Qed.
Lemma zdrop_all n l : zlen l <= n -> zdrop n l = [].
Proof. unfold zlen. intros. apply drop_ge. lia. Qed.
Lemma ztake_app_le n l k : n <= zlen l -> ztake n (l ++ k) = ztake n l.
Proof. unfold zlen, ztake. intros. apply take_app_le. lia. Qed.
Lemma ztake_app_ge n l k : zlen l <= n -> ztake n (l ++ k) = l ++ ztake (n - zlen l) k.
Proof.
  unfold zlen, ztake. intros. rewrite take_app_ge by lia. do 2 f_equal. lia.
Qed.
Lemma zdrop_app_le n l k : n <= zlen l -> zdrop n (l ++ k) = zdrop n l ++ k.
Proof. unfold zlen, zdrop. intros. apply drop_app_le. lia. Qed.
Lemma zdrop_app_ge n l k : zlen l <= n -> zdrop n (l ++ k) = zdrop (n - zlen l) k.
Proof.
  unfold zlen, zdrop. intros. rewrite drop_app_ge by lia. f_equal. lia.
Qed.
Lemma zdrop_zdrop n m l : 0 <= n -> 0 <= m -> zdrop n (zdrop m l) = zdrop (m + n) l.
Proof. intros. unfold zdrop. rewrite drop_drop. f_equal. lia. Qed.

(** Offsets inside an appended buffer. *)
Lemma slice_app_l at_ n l k :
  0 <= at_ -> at_ + n <= zlen l -> slice at_ n (l ++ k) = slice at_ n l.
Proof.
  intros. unfold slice. destruct (decide (0 <= n)).
  - rewrite zdrop_app_le by lia. apply ztake_app_le. rewrite zlen_zdrop; lia.
  - unfold ztake. by replace (Z.to_nat n) with 0%nat by lia.
Qed.
Lemma slice_app_r at_ n l k :
  zlen l <= at_ -> slice at_ n (l ++ k) = slice (at_ - zlen l) n k.
Proof. intros. unfold slice. by rewrite zdrop_app_ge. Qed.
Lemma slice_whole n l : n = zlen l -> slice 0 n l = l.
Proof. intros ->. unfold slice. rewrite zdrop_0. apply ztake_all. lia. Qed.
Lemma slice_slice a n b m l :
  0 <= a -> 0 <= b -> 0 <= m -> b + m <= n ->
  slice b m (slice a n l) = slice (a + b) m l.
Proof.
  intros. unfold slice, ztake, zdrop.
  rewrite skipn_firstn_comm, take_take, drop_drop. f_equal; [lia|]. f_equal. lia.
Qed.
Lemma slice_split at_ n m l :
  0 <= at_ -> 0 <= n -> 0 <= m ->
  slice at_ (n + m) l = slice at_ n l ++ slice (at_ + n) m l.
Proof.
  intros. unfold slice, ztake, zdrop.
  replace (Z.to_nat (n + m)) with (Z.to_nat n + Z.to_nat m)%nat by lia.
  replace (Z.to_nat (at_ + n)) with (Z.to_nat at_ + Z.to_nat n)%nat by lia.
  rewrite <- drop_drop. symmetry. apply take_take_drop.
Qed.
Lemma slice_ztake a n t l : 0 <= a -> 0 <= n -> a + n <= t -> slice a n (ztake t l) = slice a n l.
Proof. intros. change (ztake t l) with (slice 0 t l). by rewrite slice_slice by lia. Qed.
Lemma slice_0 at_ l : slice at_ 0 l = [].
Proof. done. Qed.
Lemma slice_rest at_ n l : zlen l <= at_ + n -> 0 <= at_ -> slice at_ n l = zdrop at_ l.
Proof.
  unfold zlen, slice, ztake, zdrop. intros. apply take_ge. rewrite length_drop. lia.
Qed.
End buffers.

Lemma zlen_zeros n : 0 <= n -> zlen (zeros n) = n.
Proof. intros. unfold zlen, zeros. rewrite length_replicate. lia. Qed.
Lemma zeros_app n m : 0 <= n -> 0 <= m -> zeros n ++ zeros m = zeros (n + m).
Proof. intros. unfold zeros. rewrite <- replicate_add. f_equal. lia. Qed.
Lemma zdrop_zeros n m : 0 <= n <= m -> zdrop n (zeros m) = zeros (m - n).
Proof. intros. unfold zdrop, zeros. rewrite drop_replicate. f_equal. lia. Qed.
Lemma ztake_zeros n m : 0 <= n <= m -> ztake n (zeros m) = zeros n.
Proof. intros. unfold ztake, zeros. rewrite take_replicate. f_equal. lia. Qed.
Lemma slice_zeros a n m : 0 <= a -> 0 <= n -> a + n <= m -> slice a n (zeros m) = zeros n.
Proof. intros. unfold slice. rewrite zdrop_zeros, ztake_zeros by lia. done. Qed.
Lemma bytes_ok_zeros n : bytes_ok (zeros n).
Proof. apply Forall_replicate. unfold byte_ok. lia. Qed.

Lemma all_zero_true bs : all_zero bs = true <-> bs = zeros (zlen bs).
Proof.
  unfold all_zero, zeros, zlen. rewrite Nat2Z.id. induction bs as [|b bs IH]; [done|].
  simpl. rewrite andb_true_iff, Z.eqb_eq, IH.
  split; [intros [? ?]|intros H; injection H]; intros; split_and?; congruence.
Qed.
Lemma all_zero_zeros n : all_zero (zeros n) = true.
Proof. unfold all_zero, zeros. by induction (Z.to_nat n). Qed.

(** Concrete buffers are checked by evaluation. *)
Definition bytes_okb (bs : list Z) : bool := forallb (fun b => (0 <=? b) && (b <? 256)) bs.
Lemma bytes_okb_true bs : bytes_okb bs = true -> bytes_ok bs.
Proof.
  unfold bytes_okb. induction bs as [|b bs IH]; simpl; intros H; [constructor|].
  b2p. constructor; [unfold byte_ok; lia|auto].
Qed.
Ltac bytes_eval := apply bytes_okb_true; vm_compute; reflexivity.

(** [v[i]] of a [std::vector], reading and writing. *)
Definition vec_get {A} (v : list A) (i : Z) : Result A :=
  if i <? 0 then Stuck out_of_bounds
  else match v !! Z.to_nat i with Some x => Ok x | None => Stuck out_of_bounds end.
Definition vec_set {A} (v : list A) (i : Z) (x : A) : Result (list A) :=
  if (0 <=? i) && (i <? zlen v) then Ok (<[Z.to_nat i := x]> v) else Stuck out_of_bounds.

Lemma vec_get_Some {A} (v : list A) (i : nat) x : v !! i = Some x -> vec_get v (Z.of_nat i) = Ok x.
Proof.
  intros H. unfold vec_get. destruct (Z.ltb_spec (Z.of_nat i) 0); [lia|]. by rewrite Nat2Z.id, H.
Qed.
Lemma vec_set_in {A} (v : list A) (i : nat) x : (i < length v)%nat ->
  vec_set v (Z.of_nat i) x = Ok (<[i := x]> v).
Proof.
  intros H. unfold vec_set, zlen. rewrite Nat2Z.id.
  destruct (Z.leb_spec 0 (Z.of_nat i)), (Z.ltb_spec (Z.of_nat i) (Z.of_nat (length v))); simpl; (done || lia).
Qed.

(** ** Methods that change their object

    A method that can fail runs on the state of its object and leaves a state
    behind also when it fails. *)
Definition Method (S A : Type) : Type := S -> Result A * S.

Definition retM {S A} (a : A) : Method S A := fun s => (Ok a, s).
Definition failM {S A} (e : ErrorCode) : Method S A := fun s => (Err e, s).
(** A computation that does not change the object. *)
Definition pureM {S A} (r : S -> Result A) : Method S A := fun s => (r s, s).
Definition liftM {S A} (r : Result A) : Method S A := fun s => (r, s).
Definition modifyM {S} (f : S -> S) : Method S unit := fun s => (Ok tt, f s).
Definition getM {S} : Method S S := fun s => (Ok s, s).
Definition putM {S} (s : S) : Method S unit := fun _ => (Ok tt, s).
Definition bindM {S A B} (m : Method S A) (k : A -> Method S B) : Method S B :=
  fun s => match m s with
           | (Ok a, s') => k a s'
           | (Err e, s') => (Err e, s')
           | (Stuck f, s') => (Stuck f, s')
           end.

Notation "'let!' x := m 'in' k" := (bindM m (fun x => k))
  (at level 10, x binder, m at level 200, k at level 200,
   format "'[v' 'let!'  x  :=  m  'in' '/' k ']'") : result_scope.
Notation "m ';;!' k" := (bindM m (fun _ => k))
  (at level 100, right associativity, format "'[v' m ';;!' '/' k ']'") : result_scope.

(** What a call returns and leaves behind, on success and on failure. *)
Definition runs {S A} (r : Result A * S) (ok : A -> S -> Prop) (err : ErrorCode -> S -> Prop) : Prop :=
  match r with
  | (Ok a, s) => ok a s
  | (Err e, s) => err e s
  | (Stuck _, _) => False
  end.

Lemma bindM_Ok {S A B} (m : Method S A) (k : A -> Method S B) s a s' :
  m s = (Ok a, s') -> bindM m k s = k a s'.
Proof. unfold bindM. by intros ->. Qed.
Lemma bindM_Err {S A B} (m : Method S A) (k : A -> Method S B) s e s' :
  m s = (Err e, s') -> bindM m k s = (Err e, s').
Proof. unfold bindM. by intros ->. Qed.
Lemma bindM_get {S B} (k : S -> Method S B) s : bindM getM k s = k s s.
Proof. done. Qed.
Lemma bindM_put {S B} (k : unit -> Method S B) s s' : bindM (putM s') k s = k tt s'.
Proof. done. Qed.
Lemma bindM_modify {S B} (f : S -> S) (k : unit -> Method S B) s : bindM (modifyM f) k s = k tt (f s).
Proof. done. Qed.
Lemma bindM_lift {S A B} (a : A) (k : A -> Method S B) s : bindM (liftM (Ok a)) k s = k a s.
Proof. done. Qed.
Lemma bindM_ret {S A B} (a : A) (k : A -> Method S B) s : bindM (retM a) k s = k a s.
Proof. done. Qed.
Lemma bindM_assoc {S A B C} (m : Method S A) (k : A -> Method S B) (h : B -> Method S C) s :
  bindM (bindM m k) h s = bindM m (fun a => bindM (k a) h) s.
Proof. unfold bindM. by destruct (m s) as [[a|e|f] s']. Qed.

(** [static_cast<void>(m)]: an error is ignored. *)
Definition ignoreM {S} (m : Method S unit) : Method S unit := fun s =>
  match m s with (Err _, s') => (Ok tt, s') | r => r end.
(** [if (auto r = m; !r) { cleanup; return r; }] *)
Definition on_error {S A} (m : Method S A) (cleanup : Method S unit) : Method S A := fun s =>
  match m s with
  | (Err e, s') => (cleanup ;;! failM e) s'
  | r => r
  end.

(** [if (auto x = m; !x) { h } k]: the error is handled, [k] goes on without one. *)
Definition attempt {S A B} (m : Method S A) (h : ErrorCode -> Method S B) (k : A -> Method S B) : Method S B :=
  fun s => match m s with
           | (Ok a, s') => k a s'
           | (Err e, s') => h e s'
           | (Stuck f, s') => (Stuck f, s')
           end.
Notation "'try!' x := m 'otherwise' e '=>' h 'in' k" := (attempt m (fun e => h) (fun x => k))
  (at level 10, x binder, e binder, m at level 200, h at level 200, k at level 200,
   format "'[v' 'try!'  x  :=  m  'otherwise'  e  '=>'  h  'in' '/' k ']'") : result_scope.

(** The destructor of a guard runs [cleanup] when its scope [m] is left. *)
Definition on_exit {S A} (cleanup : Method S unit) (m : Method S A) : Method S A := fun s =>
  let '(r, s1) := m s in
  match cleanup s1 with (Stuck f, s2) => (Stuck f, s2) | (_, s2) => (r, s2) end.

Lemma on_error_Ok {S A} (m : Method S A) cleanup s a s' : m s = (Ok a, s') -> on_error m cleanup s = (Ok a, s').
Proof. unfold on_error. by intros ->. Qed.

(** Run the steps of a method whose outcome is known. *)
Ltac steps1 :=
  rewrite bindM_get || rewrite bindM_lift || rewrite bindM_modify || rewrite bindM_put ||
  rewrite bindM_ret || rewrite bindM_assoc.
Ltac steps := repeat steps1.

Lemma runs_bindM {S A B} (m : Method S A) (k : A -> Method S B) s ok err ok' :
  runs (m s) ok' err -> (forall a s', ok' a s' -> runs (k a s') ok err) -> runs (bindM m k s) ok err.
Proof. unfold runs, bindM. destruct (m s) as [[a|e|f] s']; naive_solver. Qed.

Lemma runs_bindM_err {S A B} (m : Method S A) (k : A -> Method S B) s ok err ok' err' :
  runs (m s) ok' err' -> (forall a s', ok' a s' -> runs (k a s') ok err) -> (forall e s', err' e s' -> err e s') ->
  runs (bindM m k s) ok err.
Proof. unfold runs, bindM. destruct (m s) as [[a|e|f] s']; naive_solver. Qed.

Lemma runs_weaken {S A} (r : Result A * S) (ok ok' : A -> S -> Prop) (err err' : ErrorCode -> S -> Prop) :
  runs r ok err -> (forall a s, ok a s -> ok' a s) -> (forall e s, err e s -> err' e s) -> runs r ok' err'.
Proof. unfold runs. destruct r as [[a|e|f] s]; naive_solver. Qed.

Lemma runs_attempt {S A B} (m : Method S A) (h : ErrorCode -> Method S B) (k : A -> Method S B) s ok err ok' err' :
  runs (m s) ok' err' -> (forall a s', ok' a s' -> runs (k a s') ok err) ->
  (forall e s', err' e s' -> runs (h e s') ok err) -> runs (attempt m h k s) ok err.
Proof. unfold runs, attempt. destruct (m s) as [[a|e|f] s']; naive_solver. Qed.
