(* ===== verification/Core.v ===== *)
(** * Core: identities, checked arithmetic and little-endian codecs

    Models include/glifistore/core/types.hpp, checked_math.hpp,
    integer_math.hpp and little_endian.hpp.  The codecs are the byte loops of
    the source; their lemmas relate them to [le_bytes] and [le_value], the
    arithmetic reading of a little-endian field, and to the [fill] and [field]
    tactics that the file formats use. *)

From S2P Require Import Prelude.

(** ** core/types.hpp *)

Definition kSegmentSizeBytes : Z := 64 * 1024 * 1024.
Definition kSegmentHeaderReservedBytes : Z := 4096.
Definition kRecordAlignment : Z := 8.
Definition kMaxNormalRecordSize : Z := 1 * 1024 * 1024.

(** The strong identifiers ([SegmentId], [WorkerId], [SequenceNumber], ...) wrap
    one unsigned integer, which stands for them here. *)
Record RecordRef := mkRecordRef {
  ref_segment_id : Z;
  ref_offset : Z;
  ref_size : Z;
  ref_sequence : Z;
  ref_generation : Z
}.

#[export] Instance RecordRef_eq_dec : EqDecision RecordRef.
Proof. solve_decision. Defined.

(** ** core/checked_math.hpp *)

Definition checked_add (w lhs rhs : Z) : Result Z :=
  if rhs >? umax w - lhs then Err arithmetic_overflow
  else Ok (wrap w (lhs + rhs)).

Definition align_up_checked (w value alignment : Z) : Result Z :=
  if (alignment =? 0) || negb (Z.land alignment (wrap w (alignment - 1)) =? 0)
  then Err invalid_argument
  else
    let? with_padding := checked_add w value (wrap w (alignment - 1)) in
    Ok (Z.land with_padding (wrap w (Z.lnot (wrap w (alignment - 1))))).

Definition range_contains (w capacity offset length : Z) : bool :=
  (offset <=? capacity) && (length <=? wrap w (capacity - offset)).

(** ** core/integer_math.hpp *)

Definition saturating_add (left right : Z) : Z :=
  if right >? umax 64 - left then umax 64 else u64 (left + right).

Record Fraction := mkFraction { quotient : Z; remainder : Z }.

(** The [add] lambda of [basis_points]. *)
Definition fraction_add (denominator : Z) (left right : Fraction) : Fraction :=
  let q := u32 (quotient left + quotient right) in
  if negb (remainder right =? 0) && (remainder left >=? u64 (denominator - remainder right))
  then mkFraction (u32 (q + 1)) (u64 (remainder left - u64 (denominator - remainder right)))
  else mkFraction q (u64 (remainder left + remainder right)).

(** The [while (scale != 0)] loop of [basis_points]: [scale] halves each turn, so
    the 14 bits of the initial scale bound the turns. *)
Fixpoint basis_points_loop (fuel : nat) (denominator : Z) (result multiple : Fraction)
    (scale : Z) : Result Fraction :=
  if scale =? 0 then Ok result
  else match fuel with
       | O => Stuck out_of_fuel
       | S fuel =>
           let result := if negb (Z.land scale 1 =? 0)
                         then fraction_add denominator result multiple else result in
           let scale := Z.shiftr scale 1 in
           let multiple := if negb (scale =? 0)
                           then fraction_add denominator multiple multiple else multiple in
           basis_points_loop fuel denominator result multiple scale
       end.

Definition kScale : Z := 10000.

Definition basis_points (numerator denominator : Z) : Result Z :=
  if denominator =? 0 then Ok 0
  else if numerator >=? denominator then Ok kScale
  else
    let? r := basis_points_loop 14 denominator (mkFraction 0 0) (mkFraction 0 numerator) kScale in
    Ok (quotient r).

(** ** core/little_endian.hpp *)

Definition put_u16 (out : list Z) (at_ value : Z) : Result (list Z) :=
  let? out := set_byte out at_ (Z.land value 255) in
  set_byte out (at_ + 1) (Z.land (Z.shiftr value 8) 255).

(** [for (index = 0; index < n; ++index) out[at + index] = (value >> (index * 8)) & 0xFF] *)
Fixpoint put_loop (n : nat) (out : list Z) (at_ index value : Z) : Result (list Z) :=
  match n with
  | O => Ok out
  | S n =>
      let? out := set_byte out (at_ + index) (Z.land (Z.shiftr value (index * 8)) 255) in
      put_loop n out at_ (index + 1) value
  end.

Definition put_u32 (out : list Z) (at_ value : Z) : Result (list Z) := put_loop 4 out at_ 0 value.
Definition put_u64 (out : list Z) (at_ value : Z) : Result (list Z) := put_loop 8 out at_ 0 value.

Definition get_u16 (inp : list Z) (at_ : Z) : Result Z :=
  let? low := get_byte inp at_ in
  let? high := get_byte inp (at_ + 1) in
  Ok (Z.lor low (Z.shiftl high 8)).

(** [for (index = 0; index < n; ++index) value |= in[at + index] << (index * 8)] *)
Fixpoint get_loop (n : nat) (inp : list Z) (at_ index value : Z) : Result Z :=
  match n with
  | O => Ok value
  | S n =>
      let? b := get_byte inp (at_ + index) in
      get_loop n inp at_ (index + 1) (Z.lor value (Z.shiftl b (index * 8)))
  end.

Definition get_u32 (inp : list Z) (at_ : Z) : Result Z := get_loop 4 inp at_ 0 0.
Definition get_u64 (inp : list Z) (at_ : Z) : Result Z := get_loop 8 inp at_ 0 0.

(** ** Lemmas: checked arithmetic *)

Lemma checked_add_Ok w a b : 0 <= w -> is_uint w a -> is_uint w b ->
  checked_add w a b = if a + b <? 2 ^ w then Ok (a + b) else Err arithmetic_overflow.
Proof.
  intros ? Ha Hb. unfold checked_add, umax.
  destruct (Z.gtb_spec b (2 ^ w - 1 - a)), (Z.ltb_spec (a + b) (2 ^ w)); try lia; [done|].
  rewrite wrap_small; [done|]. unfold is_uint in *. lia.
Qed.

(** Rounding up to the next multiple of [2 ^ k] by masking. *)
Lemma align_up_checked_Ok w k v : 0 <= k < w -> is_uint w v ->
  align_up_checked w v (2 ^ k) =
  if v + (2 ^ k - 1) <? 2 ^ w then Ok ((v + (2 ^ k - 1)) / 2 ^ k * 2 ^ k)
  else Err arithmetic_overflow.
Proof.
  intros Hk Hv. assert (0 < 2 ^ k < 2 ^ w) as Hp.
  { split; [by apply Z.pow_pos_nonneg; lia|apply Z.pow_lt_mono_r; lia]. }
  unfold align_up_checked.
  assert (wrap w (2 ^ k - 1) = Z.ones k) as ->.
  { rewrite wrap_small by (unfold is_uint; lia). rewrite Z.ones_equiv. lia. }
  assert (Z.land (2 ^ k) (Z.ones k) = 0) as ->.
  { rewrite Z.land_ones by lia. apply Z.mod_same. lia. }
  destruct (Z.eqb_spec (2 ^ k) 0) as [|_]; [lia|]. simpl.
  rewrite checked_add_Ok; [|lia|done|].
  2:{ rewrite Z.ones_equiv. unfold is_uint. lia. }
  replace (Z.ones k) with (2 ^ k - 1) by (rewrite Z.ones_equiv; lia).
  destruct (Z.ltb_spec (v + (2 ^ k - 1)) (2 ^ w)); [|done]. simpl. f_equal.
  replace (2 ^ k - 1) with (Z.ones k) at 2 by (rewrite Z.ones_equiv; lia).
  set (x := v + (2 ^ k - 1)).
  assert (is_uint w x) as Hx by (unfold is_uint, x in *; lia).
  apply Z.bits_inj'; intros i Hi. rewrite Z.land_spec. unfold wrap.
  rewrite <- (Z.mod_small x (2 ^ w)) at 1 by exact Hx.
  rewrite <- Z.shiftl_mul_pow2, <- Z.shiftr_div_pow2 by lia.
  destruct (decide (i < w)).
  - rewrite !Z.mod_pow2_bits_low, Z.lnot_spec by lia. destruct (decide (i < k)).
    + rewrite Z.ones_spec_low, Z.shiftl_spec_low by lia. apply andb_false_r.
    + rewrite Z.ones_spec_high, Z.shiftl_spec_high, Z.shiftr_spec by lia.
      rewrite andb_true_r. f_equal. lia.
  - rewrite !Z.mod_pow2_bits_high by lia. simpl.
    rewrite Z.shiftl_spec_high, Z.shiftr_spec by lia.
    replace (i - k + k) with i by lia.
    rewrite <- (Z.mod_small x (2 ^ w)) by exact Hx. by rewrite Z.mod_pow2_bits_high by lia.
Qed.

Lemma range_contains_true w c o l : is_uint w c -> is_uint w o -> is_uint w l ->
  range_contains w c o l = true <-> o + l <= c.
Proof.
  intros Hc Ho Hl. unfold range_contains, wrap, is_uint in *.
  rewrite andb_true_iff, Z.leb_le, Z.leb_le.
  split; [intros [? ?]|intros ?; split; [lia|]].
  - rewrite Z.mod_small in * by lia. lia.
  - rewrite Z.mod_small by lia. lia.
Qed.

Lemma range_contains_decide w c o l : is_uint w c -> is_uint w o -> is_uint w l ->
  range_contains w c o l = bool_decide (o + l <= c).
Proof.
  intros. apply eq_bool_prop_intro. rewrite bool_decide_spec, Is_true_true.
  by apply range_contains_true.
Qed.

Lemma saturating_add_spec a b : is_u64 a -> is_u64 b ->
  saturating_add a b = Z.min (umax 64) (a + b).
Proof.
  intros Ha Hb. unfold saturating_add. width. destruct (Z.gtb_spec b (18446744073709551616 - 1 - a)).
  - lia.
  - rewrite wrap_small by (width; lia). lia.
Qed.

Section basis_points.
Context (n d : Z) (Hn : 0 <= n < d) (Hd : is_u64 d).

(** [f] is [x * n / d] with its remainder. *)
Definition fraction_of (x : Z) (f : Fraction) : Prop :=
  quotient f * d + remainder f = x * n /\ 0 <= remainder f < d.

Lemma fraction_of_quotient x f : 0 <= x -> fraction_of x f -> 0 <= quotient f <= x.
Proof using Hn.
  intros ? [? ?]. assert (0 <= x * n <= x * d) by nia. split; nia.
Qed.

Lemma fraction_add_of x y f g :
  0 <= x -> 0 <= y -> x + y < 2 ^ 31 -> fraction_of x f -> fraction_of y g ->
  fraction_of (x + y) (fraction_add d f g).
Proof using Hn Hd.
  intros Hx Hy Hxy Hf Hg.
  pose proof (fraction_of_quotient x f Hx Hf). pose proof (fraction_of_quotient y g Hy Hg).
  destruct Hf as [Ef Rf], Hg as [Eg Rg]. unfold fraction_add, fraction_of. width.
  change (2 ^ 31) with 2147483648 in Hxy.
  rewrite (wrap_small 32 (quotient f + quotient g)) by (width; lia).
  rewrite (wrap_small 32 (quotient f + quotient g + 1)) by (width; lia).
  destruct (Z.eqb_spec (remainder g) 0) as [E0|E0]; simpl.
  - rewrite (wrap_small 64) by (width; lia). lia.
  - rewrite (wrap_small 64 (d - remainder g)) by (width; lia).
    destruct (Z.geb_spec (remainder f) (d - remainder g)); simpl;
      rewrite !(wrap_small 64) by (width; lia); lia.
Qed.

Lemma basis_points_loop_of fuel a m scale f g :
  0 <= a -> 0 < m -> 0 <= scale < 2 ^ Z.of_nat fuel -> a + m * scale < 2 ^ 30 ->
  fraction_of a f -> fraction_of m g ->
  exists r, basis_points_loop fuel d f g scale = Ok r /\ fraction_of (a + m * scale) r.
Proof using Hn Hd.
  revert a m scale f g. induction fuel as [|fuel IH]; intros a m scale f g Ha Hm Hs Hb Hf Hg.
  - assert (scale = 0) as -> by lia. exists f. split; [done|].
    by replace (a + m * 0) with a by lia.
  - simpl. destruct (Z.eqb_spec scale 0) as [->|Hs0].
    { exists f. split; [done|]. by replace (a + m * 0) with a by lia. }
    rewrite Nat2Z.inj_succ, Z.pow_succ_r in Hs by lia.
    change (Z.land scale 1) with (Z.land scale (Z.ones 1)).
    rewrite Z.land_ones, Z.shiftr_div_pow2 by lia. change (2 ^ 1) with 2.
    pose proof (Z.div_mod scale 2 ltac:(lia)). pose proof (Z.mod_pos_bound scale 2 ltac:(lia)).
    assert (m <= m * scale) by nia.
    set (f' := if negb (scale mod 2 =? 0) then fraction_add d f g else f).
    assert (fraction_of (a + m * (scale mod 2)) f') as Hf'.
    { unfold f'. destruct (Z.eqb_spec (scale mod 2) 0) as [->|]; simpl.
      - by replace (a + m * 0) with a by lia.
      - replace (scale mod 2) with 1 by lia. replace (a + m * 1) with (a + m) by lia.
        apply fraction_add_of; auto; lia. }
    destruct (Z.eqb_spec (scale / 2) 0) as [Hz|Hnz]; simpl.
    + replace (a + m * scale) with (a + m * (scale mod 2)) by nia.
      exists f'. split; [|done]. by destruct fuel; simpl; rewrite Hz.
    + assert (2 * m <= m * scale) by nia.
      replace (a + m * scale) with (a + m * (scale mod 2) + (m + m) * (scale / 2)) by nia.
      apply IH; auto; try nia. apply fraction_add_of; auto; lia.
Qed.
End basis_points.

Lemma basis_points_correct n d : is_u64 n -> is_u64 d -> d <> 0 ->
  basis_points n d = Ok (Z.min kScale (n * kScale / d)).
Proof.
  intros Hn Hd Hd0. unfold basis_points.
  destruct (Z.eqb_spec d 0); [lia|]. destruct (Z.geb_spec n d).
  - rewrite Z.min_l; [done|]. apply Z.div_le_lower_bound; width; unfold kScale; nia.
  - destruct (basis_points_loop_of n d ltac:(width; lia) Hd 14 0 1 kScale
      (mkFraction 0 0) (mkFraction 0 n)) as (r & -> & Hr); try (unfold kScale; width; simpl; lia).
    { unfold fraction_of. simpl. width. lia. }
    { unfold fraction_of. simpl. width. lia. }
    simpl. f_equal. destruct Hr as [E R]. rewrite Z.min_r.
    + apply (Z.div_unique _ _ _ (remainder r)); lia.
    + apply Z.div_le_upper_bound; width; unfold kScale; nia.
Qed.

(** ** Lemmas: little-endian fields *)

(** The [n] bytes of [v], lowest first, and the number [n] bytes stand for. *)
Definition le_bytes (n v : Z) : list Z := Z_to_little_endian n 8 v.
Definition le_value (bs : list Z) : Z := little_endian_to_Z 8 bs.

Lemma le_value_le_bytes n v : 0 <= n -> le_value (le_bytes n v) = wrap (8 * n) v.
Proof.
  intros. unfold le_value, le_bytes. rewrite little_endian_to_Z_to_little_endian by lia.
  unfold wrap. do 2 f_equal. lia.
Qed.
Lemma le_bytes_le_value bs : bytes_ok bs -> le_bytes (zlen bs) (le_value bs) = bs.
Proof.
  intros. unfold le_value, le_bytes. by apply Z_to_little_endian_to_Z.
Qed.
Lemma zlen_le_bytes n v : 0 <= n -> zlen (le_bytes n v) = n.
Proof. intros. by apply length_Z_to_little_endian. Qed.
Lemma le_bytes_ok n v : 0 <= n -> bytes_ok (le_bytes n v).
Proof. intros. by apply (Z_to_little_endian_bound n 8 v). Qed.
Lemma le_value_range bs : bytes_ok bs -> is_uint (8 * zlen bs) (le_value bs).
Proof.
  intros. unfold is_uint, zlen. rewrite Z.mul_comm. by apply (little_endian_to_Z_bound 8).
Qed.
Lemma le_bytes_0 n : 0 <= n -> le_bytes n 0 = zeros n.
Proof.
  intros Hn. unfold le_bytes, zeros. rewrite <- (Z2Nat.id n) by done.
  generalize (Z.to_nat n). clear n Hn. intros n. rewrite Nat2Z.id.
  induction n as [|n IH]; [done|].
  by rewrite Nat2Z.inj_succ, Z_to_little_endian_succ, Z.shiftr_0_l, IH by lia.
Qed.

#[local] Arguments Z_to_little_endian : simpl never.

Lemma get_byte_Ok inp at_ b : get_byte inp at_ = Ok b <-> 0 <= at_ /\ inp !! Z.to_nat at_ = Some b.
Proof.
  unfold get_byte. destruct (Z.ltb_spec at_ 0).
  - split; [done|lia].
  - destruct (inp !! Z.to_nat at_); naive_solver.
Qed.

Lemma get_byte_lt inp at_ : 0 <= at_ < zlen inp -> exists b, get_byte inp at_ = Ok b /\ inp !! Z.to_nat at_ = Some b.
Proof.
  unfold zlen. intros H. destruct (lookup_lt_is_Some_2 inp (Z.to_nat at_)) as [b Hb]; [lia|].
  exists b. rewrite get_byte_Ok. naive_solver lia.
Qed.

Lemma slice_cons {A} (l : list A) at_ n b : 0 <= at_ -> 0 < n -> l !! Z.to_nat at_ = Some b ->
  slice at_ n l = b :: slice (at_ + 1) (n - 1) l.
Proof.
  intros. unfold slice, ztake, zdrop.
  replace (Z.to_nat n) with (S (Z.to_nat (n - 1))) by lia.
  replace (Z.to_nat (at_ + 1)) with (S (Z.to_nat at_)) by lia.
  erewrite (drop_S l) by done. done.
Qed.

Lemma get_loop_spec n inp at_ index value :
  0 <= at_ -> 0 <= index -> at_ + index + Z.of_nat n <= zlen inp ->
  get_loop n inp at_ index value =
  Ok (Z.lor value (Z.shiftl (le_value (slice (at_ + index) (Z.of_nat n) inp)) (index * 8))).
Proof.
  revert index value. induction n as [|n IH]; intros index value Ha Hi Hl.
  - simpl. rewrite slice_0. unfold le_value. simpl. by rewrite Z.shiftl_0_l, Z.lor_0_r.
  - cbn [get_loop].
    destruct (get_byte_lt inp (at_ + index)) as (b & -> & Hb); [lia|]. cbn [bindR].
    rewrite IH by lia. f_equal.
    rewrite (slice_cons inp (at_ + index) (Z.of_nat (S n)) b) by (done || lia).
    unfold le_value. cbn [little_endian_to_Z].
    replace (Z.of_nat (S n) - 1) with (Z.of_nat n) by lia.
    rewrite Z.add_assoc, Z.shiftl_lor, Z.shiftl_shiftl, Z.lor_assoc by lia. do 2 f_equal. lia.
Qed.

Lemma get_u16_in inp at_ : 0 <= at_ -> at_ + 2 <= zlen inp ->
  get_u16 inp at_ = Ok (le_value (slice at_ 2 inp)).
Proof.
  intros. unfold get_u16.
  destruct (get_byte_lt inp at_) as (b & -> & Hb); [lia|].
  destruct (get_byte_lt inp (at_ + 1)) as (c & -> & Hc); [lia|].
  rewrite (slice_cons _ _ _ b), (slice_cons _ _ _ c) by (done || lia). simpl.
  unfold le_value. simpl. by rewrite Z.shiftl_0_l, Z.lor_0_r.
Qed.
Lemma get_u32_in inp at_ : 0 <= at_ -> at_ + 4 <= zlen inp ->
  get_u32 inp at_ = Ok (le_value (slice at_ 4 inp)).
Proof.
  intros. unfold get_u32. rewrite get_loop_spec by lia.
  by rewrite Z.lor_0_l, Z.shiftl_0_r, Z.add_0_r.
Qed.
Lemma get_u64_in inp at_ : 0 <= at_ -> at_ + 8 <= zlen inp ->
  get_u64 inp at_ = Ok (le_value (slice at_ 8 inp)).
Proof.
  intros. unfold get_u64. rewrite get_loop_spec by lia.
  by rewrite Z.lor_0_l, Z.shiftl_0_r, Z.add_0_r.
Qed.

Lemma memcpy_in out at_ src : 0 <= at_ -> at_ + zlen src <= zlen out ->
  memcpy out at_ src = Ok (ztake at_ out ++ src ++ zdrop (at_ + zlen src) out).
Proof.
  intros. unfold memcpy.
  destruct (Z.leb_spec 0 at_), (Z.leb_spec (at_ + zlen src) (zlen out)); simpl; (done || lia).
Qed.

Lemma memcpy_app out at_ a s :
  memcpy out at_ (a ++ s) =
  let? out := memcpy out at_ a in memcpy out (at_ + zlen a) s.
Proof.
  pose proof (zlen_nonneg a). pose proof (zlen_nonneg s).
  unfold memcpy at 1 2. rewrite zlen_app.
  destruct (Z.leb_spec 0 at_); simpl; [|done].
  destruct (Z.leb_spec (at_ + zlen a) (zlen out)); simpl.
  2:{ destruct (Z.leb_spec (at_ + (zlen a + zlen s)) (zlen out)); [lia|done]. }
  unfold memcpy. destruct (Z.leb_spec 0 (at_ + zlen a)); [|lia]. simpl.
  assert (zlen (ztake at_ out ++ a ++ zdrop (at_ + zlen a) out) = zlen out) as ->.
  { rewrite !zlen_app, zlen_ztake, zlen_zdrop by lia. lia. }
  replace (at_ + (zlen a + zlen s)) with (at_ + zlen a + zlen s) by lia.
  destruct (Z.leb_spec (at_ + zlen a + zlen s) (zlen out)); [|done]. f_equal.
  rewrite (app_assoc (ztake at_ out) a).
  assert (zlen (ztake at_ out ++ a) = at_ + zlen a) as E by (rewrite zlen_app, zlen_ztake; lia).
  rewrite ztake_app_le, (ztake_all _ (ztake at_ out ++ a)), zdrop_app_ge, E, zdrop_zdrop by lia.
  rewrite <- !app_assoc. do 4 f_equal. lia.
Qed.

Lemma memcpy_Ok out at_ src o : memcpy out at_ src = Ok o ->
  0 <= at_ /\ at_ + zlen src <= zlen out /\ zlen o = zlen out.
Proof.
  pose proof (zlen_nonneg src). unfold memcpy.
  destruct (Z.leb_spec 0 at_), (Z.leb_spec (at_ + zlen src) (zlen out)); simpl; try done.
  intros [= <-]. rewrite !zlen_app, zlen_ztake, zlen_zdrop by lia. lia.
Qed.

Lemma set_byte_memcpy out at_ b : set_byte out at_ b = memcpy out at_ [b].
Proof.
  unfold set_byte, memcpy. change (zlen [b]) with 1.
  destruct (Z.leb_spec 0 at_); simpl; [|done].
  destruct (Z.ltb_spec at_ (zlen out)), (Z.leb_spec (at_ + 1) (zlen out)); try lia; [|done].
  f_equal. unfold zlen, ztake, zdrop in *.
  rewrite insert_take_drop by lia. do 3 f_equal. lia.
Qed.

Lemma le_bytes_succ n v : 0 <= n ->
  le_bytes (n + 1) v = Z.land v 255 :: le_bytes n (Z.shiftr v 8).
Proof. intros. unfold le_bytes. by rewrite Z.add_1_r, Z_to_little_endian_succ by lia. Qed.

Lemma put_loop_memcpy n out at_ index value : 0 <= index ->
  0 <= at_ + index -> at_ + index <= zlen out ->
  put_loop n out at_ index value =
  memcpy out (at_ + index) (le_bytes (Z.of_nat n) (Z.shiftr value (index * 8))).
Proof.
  revert out index. induction n as [|n IH]; intros out index Hi Ha Hl; cbn [put_loop].
  - change (le_bytes (Z.of_nat 0) (Z.shiftr value (index * 8))) with (@nil Z).
    rewrite memcpy_in by (rewrite ?zlen_nil; lia). f_equal. simpl.
    rewrite zlen_nil, Z.add_0_r. by rewrite ztake_zdrop.
  - replace (Z.of_nat (S n)) with (Z.of_nat n + 1) by lia.
    rewrite le_bytes_succ by lia. set (b := Z.land _ 255).
    change (b :: ?l) with ([b] ++ l). rewrite memcpy_app, set_byte_memcpy.
    destruct (memcpy out (at_ + index) [b]) as [o| |] eqn:E; [|done|done]. cbn [bindR].
    apply memcpy_Ok in E as (? & Hb & ?). change (zlen [b]) with 1 in *.
    rewrite IH by lia. rewrite Z.shiftr_shiftr, Z.add_assoc by lia. do 3 f_equal. lia.
Qed.

Lemma put_u16_memcpy out at_ v : 0 <= at_ <= zlen out -> put_u16 out at_ v = memcpy out at_ (le_bytes 2 v).
Proof.
  intros. rewrite <- (Z.shiftr_0_r v) at 2. change 0 with (0 * 8) at 1.
  change 2 with (Z.of_nat 2). replace at_ with (at_ + 0) at 2 by lia.
  rewrite <- put_loop_memcpy by lia. unfold put_u16, put_loop.
  rewrite Z.shiftr_0_r, Z.add_0_r. simpl. by destruct (set_byte out at_ _) as [o| |]; simpl;
    [destruct (set_byte o _ _)| |].
Qed.
Lemma put_u32_memcpy out at_ v : 0 <= at_ <= zlen out -> put_u32 out at_ v = memcpy out at_ (le_bytes 4 v).
Proof.
  intros. unfold put_u32. rewrite put_loop_memcpy by lia. by rewrite Z.add_0_r, Z.shiftr_0_r.
Qed.
Lemma put_u64_memcpy out at_ v : 0 <= at_ <= zlen out -> put_u64 out at_ v = memcpy out at_ (le_bytes 8 v).
Proof.
  intros. unfold put_u64. rewrite put_loop_memcpy by lia. by rewrite Z.add_0_r, Z.shiftr_0_r.
Qed.

(** Writing the next field of a buffer whose first [at_] bytes are done. *)
Lemma memcpy_fill p o at_ at' src : zlen p = at_ -> at_ + zlen src = at' -> at' <= zlen o ->
  memcpy (p ++ zdrop at_ o) at_ src = Ok ((p ++ src) ++ zdrop at' o).
Proof.
  intros Hp Ha' Hl. pose proof (zlen_nonneg p). pose proof (zlen_nonneg src).
  rewrite memcpy_in; [|lia|rewrite zlen_app, zlen_zdrop; lia]. f_equal.
  rewrite ztake_app_le, ztake_all, zdrop_app_ge, zdrop_zdrop by lia.
  rewrite <- app_assoc. do 3 f_equal. lia.
Qed.
Lemma put_u16_fill p o at_ at' v : zlen p = at_ -> at_ + 2 = at' -> at' <= zlen o ->
  put_u16 (p ++ zdrop at_ o) at_ v = Ok ((p ++ le_bytes 2 v) ++ zdrop at' o).
Proof.
  intros. pose proof (zlen_nonneg p).
  rewrite put_u16_memcpy by (rewrite zlen_app, zlen_zdrop; lia).
  apply memcpy_fill; rewrite ?zlen_le_bytes; lia.
Qed.
Lemma put_u32_fill p o at_ at' v : zlen p = at_ -> at_ + 4 = at' -> at' <= zlen o ->
  put_u32 (p ++ zdrop at_ o) at_ v = Ok ((p ++ le_bytes 4 v) ++ zdrop at' o).
Proof.
  intros. pose proof (zlen_nonneg p).
  rewrite put_u32_memcpy by (rewrite zlen_app, zlen_zdrop; lia).
  apply memcpy_fill; rewrite ?zlen_le_bytes; lia.
Qed.
Lemma put_u64_fill p o at_ at' v : zlen p = at_ -> at_ + 8 = at' -> at' <= zlen o ->
  put_u64 (p ++ zdrop at_ o) at_ v = Ok ((p ++ le_bytes 8 v) ++ zdrop at' o).
Proof.
  intros. pose proof (zlen_nonneg p).
  rewrite put_u64_memcpy by (rewrite zlen_app, zlen_zdrop; lia).
  apply memcpy_fill; rewrite ?zlen_le_bytes; lia.
Qed.

(** [if (!src.empty()) memcpy(...)]: an empty source writes nothing either way. *)
Lemma memcpy_fill_nonempty p o at_ at' src : zlen p = at_ -> at_ + zlen src = at' -> at' <= zlen o ->
  (if negb (zlen src =? 0) then memcpy (p ++ zdrop at_ o) at_ src else Ok (p ++ zdrop at_ o)) =
  Ok ((p ++ src) ++ zdrop at' o).
Proof.
  intros. destruct (Z.eqb_spec (zlen src) 0) as [E|]; simpl; [|by apply memcpy_fill].
  destruct src; [|unfold zlen in E; simpl in E; lia].
  rewrite app_nil_r. do 3 f_equal. rewrite zlen_nil in *. lia.
Qed.

(** Overwriting a field in the middle of a buffer. *)
Lemma memcpy_over p old s at_ src : zlen p = at_ -> zlen old = zlen src ->
  memcpy (p ++ old ++ s) at_ src = Ok (p ++ src ++ s).
Proof.
  intros Hp Ho. pose proof (zlen_nonneg p). pose proof (zlen_nonneg s).
  pose proof (zlen_nonneg src).
  rewrite memcpy_in; [|lia|rewrite !zlen_app; lia]. f_equal.
  rewrite ztake_app_le, ztake_all by lia. do 2 f_equal.
  rewrite zdrop_app_ge, zdrop_app_ge by lia.
  by replace (at_ + zlen src - zlen p - zlen old) with 0 by lia.
Qed.

Lemma put_u32_over p old s at_ v : zlen p = at_ -> zlen old = 4 ->
  put_u32 (p ++ old ++ s) at_ v = Ok (p ++ le_bytes 4 v ++ s).
Proof.
  intros. pose proof (zlen_nonneg p). pose proof (zlen_nonneg s).
  rewrite put_u32_memcpy by (rewrite !zlen_app; lia).
  apply memcpy_over; rewrite ?zlen_le_bytes; lia.
Qed.

(** *** Tactics for file formats *)

Create Rewrite HintDb zlen.
#[export] Hint Rewrite @zlen_nil @zlen_cons @zlen_app : zlen.
#[export] Hint Rewrite zlen_le_bytes zlen_zeros using lia : zlen.
#[export] Hint Rewrite @zlen_ztake @zlen_zdrop @zlen_slice using (autorewrite with zlen; lia) : zlen.

(** Lengths of buffers built from fields. *)
Ltac zl := autorewrite with zlen in *; try lia.

(** Run the next write of an encoder over a buffer that is full up to it. *)
Ltac fill1 :=
  match goal with
  | |- context [put_u16 (?p ++ zdrop ?a ?o) ?a ?v] =>
      let a' := eval cbv in (a + 2) in rewrite (put_u16_fill p o a a' v) by zl
  | |- context [put_u32 (?p ++ zdrop ?a ?o) ?a ?v] =>
      let a' := eval cbv in (a + 4) in rewrite (put_u32_fill p o a a' v) by zl
  | |- context [put_u64 (?p ++ zdrop ?a ?o) ?a ?v] =>
      let a' := eval cbv in (a + 8) in rewrite (put_u64_fill p o a a' v) by zl
  end; cbn [bindR].
Ltac fill := repeat fill1.

(** Evaluate the reads of a decoder, whose offsets are in bounds. *)
Ltac reads :=
  repeat match goal with
  | |- context [get_u16 ?b ?a] => rewrite (get_u16_in b a) by zl
  | |- context [get_u32 ?b ?a] => rewrite (get_u32_in b a) by zl
  | |- context [get_u64 ?b ?a] => rewrite (get_u64_in b a) by zl
  end.

(** Find the field an offset falls on in a buffer built from fields. *)
Ltac norm_offset :=
  change (1 + 0) with 1;
  repeat match goal with
  | |- context [slice (Zpos ?a - Zpos ?b) ?n ?l] =>
      let v := eval compute in (Zpos a - Zpos b) in change (Zpos a - Zpos b) with v
  end.
Ltac known_len := repeat match goal with H : zlen ?l = _ |- context [zlen ?l] => rewrite H end.
Lemma slice_le_hit k v t : 0 <= k -> slice 0 k (le_bytes k v ++ t) = le_bytes k v.
Proof. intros. rewrite slice_app_l, slice_whole by zl. done. Qed.
Lemma slice_le_skip a n k v t : 0 <= k <= a -> slice a n (le_bytes k v ++ t) = slice (a - k) n t.
Proof. intros. rewrite slice_app_r by zl. by rewrite zlen_le_bytes by lia. Qed.

Ltac locate1 :=
  match goal with
  | |- context [slice 0 ?k (le_bytes ?k ?v ++ ?t)] => rewrite (slice_le_hit k v t) by lia
  | |- context [slice (Zpos ?a) ?n (le_bytes (Zpos ?k) ?v ++ ?t)] =>
      rewrite (slice_le_skip (Zpos a) n (Zpos k) v t) by lia;
      let d := eval compute in (Zpos a - Zpos k) in change (Zpos a - Zpos k) with d
  | |- context [slice ?a ?n (?l ++ ?k)] =>
      first [ rewrite (slice_app_l a n l k) by zl
            | rewrite (slice_app_r a n l k) by zl ]; autorewrite with zlen; known_len; norm_offset
  | |- context [slice 0 ?n ?l] =>
      rewrite (slice_whole n l) by zl; autorewrite with zlen; known_len; norm_offset
  end.
Ltac locate_field := repeat locate1.

(** [subspan] and [first] inside their span. *)
Lemma subspan_in bs a n : 0 <= a -> 0 <= n -> a + n <= zlen bs -> subspan bs a n = Ok (slice a n bs).
Proof.
  intros. unfold subspan.
  destruct (Z.leb_spec 0 a), (Z.leb_spec 0 n), (Z.leb_spec (a + n) (zlen bs)); simpl; (done || lia).
Qed.
Lemma first_in bs n : 0 <= n <= zlen bs -> first bs n = Ok (ztake n bs).
Proof. intros. unfold first. by rewrite subspan_in by lia. Qed.

Lemma is_uint_slice bs a n : bytes_ok bs -> 0 <= a -> 0 <= n -> a + n <= zlen bs ->
  is_uint (8 * n) (le_value (slice a n bs)).
Proof.
  intros. rewrite <- (zlen_slice a n bs) at 1 by lia.
  apply le_value_range. unfold slice, ztake, zdrop. by apply Forall_take, Forall_drop.
Qed.

Lemma le_value_field n v : 0 <= n -> is_uint (8 * n) v -> le_value (le_bytes n v) = v.
Proof. intros. rewrite le_value_le_bytes by done. by apply wrap_small. Qed.

Lemma bytes_ok_slice bs a n : bytes_ok bs -> bytes_ok (slice a n bs).
Proof. intros. unfold slice, ztake, zdrop. by apply Forall_take, Forall_drop. Qed.

(** A field is the canonical encoding of its value. *)
Lemma slice_le_bytes bs a n : bytes_ok bs -> 0 <= a -> 0 <= n -> a + n <= zlen bs ->
  slice a n bs = le_bytes n (le_value (slice a n bs)).
Proof.
  intros. rewrite <- (zlen_slice a n bs) at 2 by lia.
  symmetry. apply le_bytes_le_value. by apply bytes_ok_slice.
Qed.

(** Split off the next field of a buffer. *)
Lemma zdrop_field {A} (bs : list A) a n : 0 <= a -> 0 <= n ->
  zdrop a bs = slice a n bs ++ zdrop (a + n) bs.
Proof.
  intros. unfold slice. rewrite <- (zdrop_zdrop n a) by lia. by rewrite ztake_zdrop.
Qed.

(** Cut a slice of [bs] into the fields on the right-hand side. *)
Ltac split_fields bs :=
  repeat match goal with
  | |- slice ?a ?n bs = slice ?a ?m bs ++ _ =>
      replace n with (m + (n - m)) by lia; rewrite (slice_split a m (n - m)) by lia; f_equal;
      let v := eval compute in (a + m) in change (a + m) with v
  end.

(** Evaluate the comparisons of a decoder whose fields are known. *)
Ltac checks :=
  repeat (progress (rewrite ?Z.eqb_refl; cbn [negb orb andb bindR orR neR or_fail Z.eqb Pos.eqb is_Ok])).

Lemma field_bytes bs a n v : le_value (slice a n bs) = v -> bytes_ok bs ->
  0 <= a -> 0 <= n -> a + n <= zlen bs -> le_bytes n v = slice a n bs.
Proof. intros <- ????. symmetry. by apply slice_le_bytes. Qed.

Lemma slice_match {A} (bs : list A) a n m x y : 0 <= a -> 0 <= m <= n ->
  slice a m bs = x -> slice (a + m) (n - m) bs = y -> slice a n bs = x ++ y.
Proof. intros ?? <- <-. rewrite <- slice_split by lia. f_equal. lia. Qed.

(** Compare a slice of [bs] with a sequence of fields whose values are known. *)
Ltac match_field bs :=
  match goal with
  | |- slice _ _ bs = le_bytes _ _ => symmetry; apply field_bytes; (assumption || reflexivity || lia)
  | |- slice _ _ bs = slice _ _ bs => reflexivity
  | |- slice _ _ bs = zeros _ => assumption
  end.
Ltac match_fields bs :=
  repeat match goal with
  | |- slice ?a ?n bs = ?x ++ _ =>
      let m := match x with le_bytes ?m _ => m | slice _ ?m bs => m | zeros ?m => m end in
      apply (slice_match bs a n m); [lia|lia|match_field bs|];
      let a' := eval compute in (a + m) in let n' := eval compute in (n - m) in
      change (slice (a + m) (n - m) bs) with (slice a' n' bs)
  end; match_field bs.

(** The value of a field, in a buffer written as a sequence of fields. *)
Ltac known_field :=
  rewrite <- ?app_assoc; locate_field; apply le_value_field; [lia|width; lia].
