(* ===== verification/Crc32c.v ===== *)
(** * CRC-32C

    Models src/segment/crc32c.cpp: the table-driven update, the hardware update
    over wide loads, [crc32c] and [crc32c_with_zeroed_checksum_field].  The
    table-driven update is shown equal to the bit-serial division it
    abbreviates, the hardware update equal to the table-driven one for
    instructions that follow their documentation, and the checksum is shown to
    detect every error confined to four consecutive bytes. *)

From S2P Require Import Prelude Core.

Definition kCrc32cInit : Z := 0xFFFFFFFF.
Definition kCrc32cPoly : Z := 0x82F63B78.

(** The body of the [bit] loop of [make_crc32c_table]. *)
Definition crc_bit (crc : Z) : Z :=
  let mask := u32 (0 - Z.land crc 1) in
  Z.lxor (Z.shiftr crc 1) (Z.land kCrc32cPoly mask).

Definition make_crc32c_table : list Z :=
  (fun index => Nat.iter 8 crc_bit (Z.of_nat index)) <$> seq 0 256.

(** [constexpr auto kCrc32cTable = make_crc32c_table()], evaluated at compile time. *)
Definition kCrc32cTable : list Z := Eval vm_compute in make_crc32c_table.

Definition crc32c_software_update (crc : Z) (data : list Z) : Z :=
  foldl (fun crc byte =>
    Z.lxor (nth (Z.to_nat (Z.land (Z.lxor crc byte) 255)) kCrc32cTable 0) (Z.shiftr crc 8))
  crc data.

Section hardware.
(** The CRC32 instructions: [_mm_crc32_u64], [_mm_crc32_u32], [_mm_crc32_u8] of
    SSE 4.2 and [__crc32cd], [__crc32cw], [__crc32ch], [__crc32cb] of Arm. *)
Context (crc_u64 crc_u32 crc_u16 crc_u8 : Z -> Z -> Z).

(** [while (length >= 8U)]: a little-endian load of eight bytes per turn. *)
Fixpoint hardware_loop8 (crc : Z) (data : list Z) : Z * list Z :=
  match data with
  | b0 :: b1 :: b2 :: b3 :: b4 :: b5 :: b6 :: b7 :: rest =>
      hardware_loop8 (crc_u64 crc (le_value [b0; b1; b2; b3; b4; b5; b6; b7])) rest
  | _ => (crc, data)
  end.

(** [while (length >= 4U)] *)
Fixpoint hardware_loop4 (crc : Z) (data : list Z) : Z * list Z :=
  match data with
  | b0 :: b1 :: b2 :: b3 :: rest => hardware_loop4 (crc_u32 crc (le_value [b0; b1; b2; b3])) rest
  | _ => (crc, data)
  end.

(** [while (length >= 2U)], Arm only *)
Fixpoint hardware_loop2 (crc : Z) (data : list Z) : Z * list Z :=
  match data with
  | b0 :: b1 :: rest => hardware_loop2 (crc_u16 crc (le_value [b0; b1])) rest
  | _ => (crc, data)
  end.

(** The [__SSE4_2__] branch of [crc32c_hardware_update]. *)
Definition crc32c_hardware_update_sse (crc : Z) (data : list Z) : Z :=
  let '(crc, data) := hardware_loop8 crc data in
  let '(crc, data) := hardware_loop4 crc data in
  foldl crc_u8 crc data.

(** The [__ARM_FEATURE_CRC32] branch of [crc32c_hardware_update]. *)
Definition crc32c_hardware_update_arm (crc : Z) (data : list Z) : Z :=
  let '(crc, data) := hardware_loop8 crc data in
  let '(crc, data) := hardware_loop4 crc data in
  let '(crc, data) := hardware_loop2 crc data in
  match data with
  | [] => crc
  | b :: _ => crc_u8 crc b
  end.
End hardware.

(** [crc32c_update] of a build without CRC instructions; the other builds call
    [crc32c_hardware_update], equal to it by [hardware_update_eq]. *)
Definition crc32c_update : Z -> list Z -> Z := crc32c_software_update.

Definition crc32c (bytes : list Z) : Z := u32 (Z.lnot (crc32c_update kCrc32cInit bytes)).

Definition kChecksumOffset : Z := 20.
Definition kChecksumSize : Z := 4.

Definition crc32c_with_zeroed_checksum_field (bytes : list Z) : Z :=
  let crc := kCrc32cInit in
  let crc := if zlen bytes >=? kChecksumOffset
             then crc32c_update crc (ztake kChecksumOffset bytes) else crc in
  let crc := if zlen bytes >? kChecksumOffset
             then
               let zeroed := ztake (Z.min kChecksumSize (zlen bytes - kChecksumOffset))
                                   (zeros kChecksumSize) in
               let crc := crc32c_update crc zeroed in
               if zlen bytes >? kChecksumOffset + kChecksumSize
               then crc32c_update crc (zdrop (kChecksumOffset + kChecksumSize) bytes) else crc
             else crc in
  u32 (Z.lnot crc).

(** ** Bit-serial reference *)

(** One byte of the division, bit by bit. *)
Definition crc_byte (crc byte : Z) : Z := Nat.iter 8 crc_bit (Z.lxor crc byte).
Definition crc_reference (crc : Z) (data : list Z) : Z := foldl crc_byte crc data.

Lemma crc_bit_cases c :
  crc_bit c = Z.lxor (Z.shiftr c 1) (if Z.odd c then kCrc32cPoly else 0).
Proof.
  unfold crc_bit. change (Z.land c 1) with (Z.land c (Z.ones 1)).
  rewrite Z.land_ones, Zmod_odd by lia. by destruct (Z.odd c).
Qed.

Lemma crc_bit_lxor a b : crc_bit (Z.lxor a b) = Z.lxor (crc_bit a) (crc_bit b).
Proof.
  rewrite !crc_bit_cases, Z.shiftr_lxor, <- !Z.bit0_odd, Z.lxor_spec.
  apply Z.bits_inj'; intros i Hi.
  destruct (Z.testbit a 0), (Z.testbit b 0); simpl; rewrite !Z.lxor_spec, ?Z.bits_0;
    by repeat destruct (Z.testbit _ i).
Qed.

Lemma crc_bit_double y : crc_bit (Z.shiftl y 1) = y.
Proof.
  rewrite crc_bit_cases, <- Z.bit0_odd, Z.shiftl_spec_low by lia.
  rewrite Z.lxor_0_r, Z.shiftr_shiftl_l, Z.shiftl_0_r by lia. done.
Qed.

Lemma crc_bits_lxor n a b :
  Nat.iter n crc_bit (Z.lxor a b) = Z.lxor (Nat.iter n crc_bit a) (Nat.iter n crc_bit b).
Proof. induction n as [|n IH]; [done|]. simpl. by rewrite IH, crc_bit_lxor. Qed.

Lemma crc_bits_shiftl n y : Nat.iter n crc_bit (Z.shiftl y (Z.of_nat n)) = y.
Proof.
  induction n as [|n IH] in y |- *; [apply Z.shiftl_0_r|].
  rewrite Nat.iter_succ_r.
  replace (Z.of_nat (S n)) with (Z.of_nat n + 1) by lia.
  rewrite <- Z.shiftl_shiftl, crc_bit_double by lia. apply IH.
Qed.

Lemma crc_bit_range c : is_u32 c -> is_u32 (crc_bit c).
Proof.
  intros Hc. rewrite crc_bit_cases, Z.shiftr_div_pow2 by lia. change (2 ^ 1) with 2.
  apply lxor_range; [lia|width; divlia|]. by destruct (Z.odd c).
Qed.

Lemma crc_bits_range n c : is_u32 c -> is_u32 (Nat.iter n crc_bit c).
Proof. intros. induction n; simpl; auto using crc_bit_range. Qed.

Lemma kCrc32cTable_eq : kCrc32cTable = make_crc32c_table.
Proof. vm_compute. reflexivity. Qed.

Lemma kCrc32cTable_nth i : 0 <= i < 256 ->
  nth (Z.to_nat i) kCrc32cTable 0 = Nat.iter 8 crc_bit i.
Proof.
  intros Hi. rewrite kCrc32cTable_eq. apply nth_lookup_Some.
  unfold make_crc32c_table. rewrite list_lookup_fmap, lookup_seq_lt by lia.
  cbn -[Nat.iter crc_bit Z.of_nat]. by rewrite Z2Nat.id by lia.
Qed.

(** The table entry of the low byte and the shifted rest make up the eight
    single-bit steps. *)
Lemma crc_table_step crc byte :
  0 <= crc -> byte_ok byte ->
  Z.lxor (nth (Z.to_nat (Z.land (Z.lxor crc byte) 255)) kCrc32cTable 0) (Z.shiftr crc 8) =
  crc_byte crc byte.
Proof.
  intros Hc Hb. unfold crc_byte. set (x := Z.lxor crc byte).
  change 255 with (Z.ones 8). rewrite Z.land_ones by lia.
  pose proof (Z.mod_pos_bound x (2 ^ 8) ltac:(lia)) as Hlow.
  rewrite kCrc32cTable_nth by done.
  assert (Z.shiftr crc 8 = Z.shiftr x 8) as ->.
  { unfold x. rewrite Z.shiftr_lxor, (Z.shiftr_div_pow2 byte) by lia.
    unfold byte_ok in Hb. rewrite (Z.div_small byte) by (change (2 ^ 8) with 256; lia).
    by rewrite Z.lxor_0_r. }
  rewrite <- (crc_bits_shiftl 8 (Z.shiftr x 8)), <- crc_bits_lxor. f_equal.
  apply Z.bits_inj'; intros i Hi. rewrite Z.lxor_spec. change (Z.of_nat 8) with 8.
  destruct (decide (i < 8)).
  - rewrite Z.mod_pow2_bits_low, Z.shiftl_spec_low by lia. apply xorb_false_r.
  - rewrite Z.mod_pow2_bits_high, Z.shiftl_spec, Z.shiftr_spec by lia.
    rewrite xorb_false_l. f_equal. lia.
Qed.

Lemma crc_byte_range crc byte : is_u32 crc -> byte_ok byte -> is_u32 (crc_byte crc byte).
Proof.
  intros. apply crc_bits_range, lxor_range; [lia|done|]. unfold byte_ok in *. width. lia.
Qed.

Lemma crc_reference_range crc data : is_u32 crc -> bytes_ok data -> is_u32 (crc_reference crc data).
Proof.
  intros Hc Hd. revert crc Hc. induction Hd as [|b bs Hb Hd IH]; intros crc Hc; [done|].
  apply IH. by apply crc_byte_range.
Qed.

Lemma crc32c_software_update_reference crc data : is_u32 crc -> bytes_ok data ->
  crc32c_software_update crc data = crc_reference crc data.
Proof.
  intros Hc Hd. revert crc Hc. induction Hd as [|b bs Hb Hd IH]; intros crc Hc; [done|].
  unfold crc32c_software_update. cbn [foldl].
  rewrite crc_table_step by (done || (width; lia)). apply IH. by apply crc_byte_range.
Qed.

Lemma crc_reference_app crc a b :
  crc_reference crc (a ++ b) = crc_reference (crc_reference crc a) b.
Proof. apply foldl_app. Qed.

Lemma crc32c_update_nil crc : crc32c_update crc [] = crc.
Proof. reflexivity. Qed.

Lemma crc32c_update_app crc a b :
  crc32c_update crc (a ++ b) = crc32c_update (crc32c_update crc a) b.
Proof. apply foldl_app. Qed.

(** The whole message as one long division. *)
Lemma crc_reference_bits crc data : bytes_ok data ->
  crc_reference crc data = Nat.iter (8 * length data) crc_bit (Z.lxor crc (le_value data)).
Proof.
  intros Hd. revert crc. induction Hd as [|b bs Hb Hd IH]; intros crc.
  - unfold le_value. simpl. by rewrite Z.lxor_0_r.
  - change (crc_reference crc (b :: bs)) with (crc_reference (crc_byte crc b) bs).
    rewrite IH. unfold crc_byte. cbn [length].
    replace (8 * S (length bs))%nat with (8 * length bs + 8)%nat by lia.
    rewrite Nat.iter_add. f_equal.
    rewrite <- (crc_bits_shiftl 8 (le_value bs)) at 1. rewrite <- crc_bits_lxor. f_equal.
    rewrite Z.lxor_assoc. f_equal. unfold le_value. cbn [little_endian_to_Z].
    apply Z.lxor_lor, Z.bits_inj'. intros i Hi. rewrite Z.land_spec, Z.bits_0.
    change (Z.of_nat 8) with 8. destruct (decide (i < 8)).
    + rewrite Z.shiftl_spec_low by lia. apply andb_false_r.
    + by rewrite (testbit_above 8 b) by (done || lia).
Qed.

Lemma crc_bit_zero c : is_u32 c -> crc_bit c = 0 -> c = 0.
Proof.
  intros Hc. rewrite crc_bit_cases. intros E%Z.lxor_eq.
  rewrite Z.shiftr_div_pow2 in E by lia. change (2 ^ 1) with 2 in E.
  pose proof (Z.div_mod c 2 ltac:(lia)). rewrite (Zmod_odd c) in *.
  unfold kCrc32cPoly in E. width. destruct (Z.odd c); lia.
Qed.

Lemma crc_bits_inj n a b : is_u32 a -> is_u32 b ->
  Nat.iter n crc_bit a = Nat.iter n crc_bit b -> a = b.
Proof.
  intros Ha Hb. induction n as [|n IH]; [done|]. simpl. intros E. apply IH.
  apply Z.lxor_eq, crc_bit_zero.
  - apply lxor_range; [lia| |]; by apply crc_bits_range.
  - rewrite crc_bit_lxor, E. apply Z.lxor_nilpotent.
Qed.

Lemma crc_byte_iter c b : crc_byte c b = Nat.iter 8 crc_bit (Z.lxor c b).
Proof. reflexivity. Qed.

Lemma crc_byte_inj c c' b : is_u32 c -> is_u32 c' -> byte_ok b ->
  crc_byte c b = crc_byte c' b -> c = c'.
Proof.
  intros Hc Hc' Hb E. assert (is_u32 b) by (unfold byte_ok in Hb; width; lia).
  rewrite !crc_byte_iter in E. apply crc_bits_inj in E; [|by apply lxor_range..].
  apply (f_equal (fun x => Z.lxor x b)) in E.
  by rewrite !Z.lxor_assoc, !Z.lxor_nilpotent, !Z.lxor_0_r in E.
Qed.

Lemma crc_reference_inj c c' data : is_u32 c -> is_u32 c' -> bytes_ok data ->
  crc_reference c data = crc_reference c' data -> c = c'.
Proof.
  intros Hc Hc' Hd. revert c c' Hc Hc'.
  induction Hd as [|b bs Hb Hd IH]; intros c c' Hc Hc'; [done|]. intros E.
  apply (crc_byte_inj c c' b); try done.
  apply IH; [by apply crc_byte_range..|]. exact E.
Qed.

(** ** The hardware update *)

(** What the instruction manuals say of the CRC32C instructions: the byte form
    divides by the polynomial bit by bit, the wider forms are the byte form over
    the bytes of the word, lowest first. *)
Class CrcInstructions (crc_u64 crc_u32 crc_u16 crc_u8 : Z -> Z -> Z) : Prop := {
  crc_u8_law : forall c b, is_u32 c -> byte_ok b -> crc_u8 c b = crc_byte c b;
  crc_u16_law : forall c w, is_u32 c -> crc_u16 c w = foldl crc_u8 c (le_bytes 2 w);
  crc_u32_law : forall c w, is_u32 c -> crc_u32 c w = foldl crc_u8 c (le_bytes 4 w);
  crc_u64_law : forall c w, is_u32 c -> crc_u64 c w = foldl crc_u8 c (le_bytes 8 w)
}.

Section hardware_proofs.
Context `{CrcInstructions crc_u64 crc_u32 crc_u16 crc_u8}.

Lemma crc_u8_fold c bs : is_u32 c -> bytes_ok bs -> foldl crc_u8 c bs = crc_reference c bs.
Proof.
  intros Hc Hb. revert c Hc. induction Hb as [|b bs Hb Hbs IH]; intros c Hc; [done|].
  simpl. rewrite crc_u8_law by done. apply IH. by apply crc_byte_range.
Qed.

(** What a loop over wide loads leaves to do. *)
Definition loop_ok (bound : nat) (c : Z) (bs : list Z) (r : Z * list Z) : Prop :=
  is_u32 r.1 /\ bytes_ok r.2 /\ (length r.2 < bound)%nat /\
  crc_reference r.1 r.2 = crc_reference c bs.

Lemma wide_step (crc_w : Z -> Z -> Z) c chunk rest :
  (forall c w, is_u32 c -> crc_w c w = foldl crc_u8 c (le_bytes (zlen chunk) w)) ->
  is_u32 c -> bytes_ok (chunk ++ rest) ->
  is_u32 (crc_w c (le_value chunk)) /\ bytes_ok rest /\
  crc_reference (crc_w c (le_value chunk)) rest = crc_reference c (chunk ++ rest).
Proof.
  intros Hw Hc [Hch Hr]%Forall_app.
  rewrite Hw, le_bytes_le_value, crc_u8_fold, crc_reference_app by done.
  auto using crc_reference_range.
Qed.

Ltac wide_loop IH crc_w n :=
  match goal with
  | |- loop_ok _ ?c ?bs _ =>
      let chunk := eval cbv [take firstn] in (take n bs) in
      let rest := eval cbv [drop skipn] in (drop n bs) in
      destruct (wide_step crc_w c chunk rest) as (? & ? & E);
      [intros; change (zlen chunk) with (Z.of_nat n); by eauto using crc_u16_law, crc_u32_law, crc_u64_law
      |done|done|];
      unfold loop_ok; cbn [app] in E; rewrite <- E; apply IH; simpl; auto; lia
  end.

Lemma hardware_loop8_ok bs c : is_u32 c -> bytes_ok bs ->
  loop_ok 8 c bs (hardware_loop8 crc_u64 c bs).
Proof.
  revert c. induction (well_founded_ltof _ (@length Z) bs) as [bs _ IH]; intros c Hc Hbs.
  unfold ltof in IH.
  do 8 (destruct bs as [|? bs]; [by (unfold loop_ok; simpl; split_and!; auto; lia)|]).
  simpl. wide_loop IH crc_u64 8%nat.
Qed.
Lemma hardware_loop4_ok bs c : is_u32 c -> bytes_ok bs ->
  loop_ok 4 c bs (hardware_loop4 crc_u32 c bs).
Proof.
  revert c. induction (well_founded_ltof _ (@length Z) bs) as [bs _ IH]; intros c Hc Hbs.
  unfold ltof in IH.
  do 4 (destruct bs as [|? bs]; [by (unfold loop_ok; simpl; split_and!; auto; lia)|]).
  simpl. wide_loop IH crc_u32 4%nat.
Qed.
Lemma hardware_loop2_ok bs c : is_u32 c -> bytes_ok bs ->
  loop_ok 2 c bs (hardware_loop2 crc_u16 c bs).
Proof.
  revert c. induction (well_founded_ltof _ (@length Z) bs) as [bs _ IH]; intros c Hc Hbs.
  unfold ltof in IH.
  do 2 (destruct bs as [|? bs]; [by (unfold loop_ok; simpl; split_and!; auto; lia)|]).
  simpl. wide_loop IH crc_u16 2%nat.
Qed.
End hardware_proofs.

(** C29. The hardware paths of both instruction sets compute the checksum of the
    portable table-driven path, for every buffer length, when the instructions
    behave as documented: files written by one build are read by every other. *)
Theorem hardware_update_eq crc_u64 crc_u32 crc_u16 crc_u8 crc data :
  CrcInstructions crc_u64 crc_u32 crc_u16 crc_u8 ->
  is_u32 crc -> bytes_ok data ->
  crc32c_hardware_update_sse crc_u64 crc_u32 crc_u8 crc data = crc32c_software_update crc data /\
  crc32c_hardware_update_arm crc_u64 crc_u32 crc_u16 crc_u8 crc data =
    crc32c_software_update crc data.
Proof.
  intros HI Hc Hd. rewrite crc32c_software_update_reference by done.
  unfold crc32c_hardware_update_sse, crc32c_hardware_update_arm.
  destruct (hardware_loop8 crc_u64 crc data) as [c1 d1] eqn:E1.
  pose proof (hardware_loop8_ok data crc Hc Hd) as (Hc1 & Hd1 & _ & Er1). rewrite E1 in *. simpl in *.
  destruct (hardware_loop4 crc_u32 c1 d1) as [c2 d2] eqn:E2.
  pose proof (hardware_loop4_ok d1 c1 Hc1 Hd1) as (Hc2 & Hd2 & _ & Er2). rewrite E2 in *. simpl in *.
  destruct (hardware_loop2 crc_u16 c2 d2) as [c3 d3] eqn:E3.
  pose proof (hardware_loop2_ok d2 c2 Hc2 Hd2) as (Hc3 & Hd3 & Hl & Er3). rewrite E3 in *. simpl in *.
  rewrite <- Er1, <- Er2. split; [by apply crc_u8_fold|]. rewrite <- Er3.
  destruct d3 as [|b [|]]; simpl in *; [done| |lia].
  apply Forall_cons_1 in Hd3 as [? ?]. by apply crc_u8_law.
Qed.

(** ** Properties of the checksum *)

Lemma kCrc32cInit_u32 : is_u32 kCrc32cInit.
Proof. unfold kCrc32cInit. width. lia. Qed.

Lemma crc32c_update_reference crc data : is_u32 crc -> bytes_ok data ->
  crc32c_update crc data = crc_reference crc data.
Proof. apply crc32c_software_update_reference. Qed.

Lemma lnot_u32 z : is_u32 z -> u32 (Z.lnot z) = umax 32 - z.
Proof.
  intros Hz. unfold Z.lnot, wrap. width. symmetry.
  apply (Z.mod_unique_pos _ _ (-1)); lia.
Qed.

Lemma crc32c_reference bytes : bytes_ok bytes ->
  crc32c bytes = umax 32 - crc_reference kCrc32cInit bytes.
Proof.
  intros Hb. unfold crc32c. rewrite crc32c_update_reference by auto using kCrc32cInit_u32.
  apply lnot_u32. auto using crc_reference_range, kCrc32cInit_u32.
Qed.

Lemma crc32c_range bytes : bytes_ok bytes -> is_u32 (crc32c bytes).
Proof. intros. apply wrap_range. lia. Qed.

(** Messages that differ only inside a window of four bytes. *)
Lemma crc32c_window_neq p w w' s :
  bytes_ok p -> bytes_ok w -> bytes_ok w' -> bytes_ok s ->
  length w = length w' -> (length w <= 4)%nat -> w <> w' ->
  crc32c (p ++ w ++ s) <> crc32c (p ++ w' ++ s).
Proof.
  intros Hp Hw Hw' Hs Hlen H4 Hne E. apply Hne.
  rewrite !crc32c_reference in E by (rewrite !Forall_app; auto).
  rewrite !crc_reference_app in E. set (c := crc_reference kCrc32cInit p) in *.
  assert (is_u32 c) by (apply crc_reference_range; auto using kCrc32cInit_u32).
  assert (crc_reference c w = crc_reference c w') as Ew.
  { eapply (crc_reference_inj _ _ s); auto using crc_reference_range. lia. }
  rewrite !crc_reference_bits, <- Hlen in Ew by done.
  assert (forall v, bytes_ok v -> length v = length w -> is_u32 (le_value v)) as Hv.
  { intros v Hv Hl. apply (is_uint_mono (8 * zlen v)); [unfold zlen; lia|]. by apply le_value_range. }
  apply crc_bits_inj in Ew; [|by apply lxor_range; [lia| |apply Hv]..].
  apply (f_equal (Z.lxor c)) in Ew. rewrite <- !Z.lxor_assoc, Z.lxor_nilpotent, !Z.lxor_0_l in Ew.
  rewrite <- (le_bytes_le_value w), <- (le_bytes_le_value w') by done.
  unfold zlen. by rewrite Ew, Hlen.
Qed.

(** A buffer of [n] bytes with a checksum field at [off] that holds the checksum
    of the buffer with that field zeroed. *)
Definition sealed (n off : Z) (bs : list Z) : Prop :=
  le_value (slice off 4 bs) = crc32c (ztake off bs ++ zeros 4 ++ slice (off + 4) (n - off - 4) bs).

Lemma le_value_inj a b : bytes_ok a -> bytes_ok b -> zlen a = zlen b -> le_value a = le_value b -> a = b.
Proof.
  intros Ha Hb Hl E. rewrite <- (le_bytes_le_value a), <- (le_bytes_le_value b) by done.
  by rewrite Hl, E.
Qed.

(** Changing up to four consecutive bytes breaks the seal, unless the change
    straddles an end of the checksum field. *)
Lemma sealed_window n off p w w' s :
  bytes_ok p -> bytes_ok w -> bytes_ok w' -> bytes_ok s ->
  length w = length w' -> (length w <= 4)%nat -> w <> w' ->
  0 <= off -> off + 4 <= n -> zlen (p ++ w ++ s) = n ->
  (zlen p + zlen w <= off \/ off + 4 <= zlen p \/ off <= zlen p /\ zlen p + zlen w <= off + 4) ->
  sealed n off (p ++ w ++ s) -> ~ sealed n off (p ++ w' ++ s).
Proof.
  intros Hp Hw Hw' Hs Hlen H4 Hne Hoff Hn Hz Hpos. pose proof (zlen_nonneg p). pose proof (zlen_nonneg s).
  assert (zlen w' = zlen w) as Hww by (unfold zlen; lia). rewrite !zlen_app in Hz.
  pose proof (zlen_nonneg w). unfold sealed. destruct Hpos as [Ha|[Hb|[Hc Hd]]].
  - rewrite !(slice_app_r _ _ p), !slice_app_r, !(ztake_app_ge off p), !ztake_app_ge by lia.
    rewrite Hww. intros -> E. rewrite <- !app_assoc in E. revert E. apply crc32c_window_neq; try done.
    repeat apply Forall_app_2; [by apply Forall_take|apply bytes_ok_zeros|by apply bytes_ok_slice].
  - rewrite !(slice_app_l off 4 p), !(ztake_app_le off p) by lia.
    rewrite !(slice_rest (off + 4)), !(zdrop_app_le _ p) by zl.
    intros -> E. rewrite !(app_assoc (zeros 4)), !(app_assoc (ztake off p)) in E.
    revert E. apply crc32c_window_neq; try done.
    repeat apply Forall_app_2; [by apply Forall_take|apply bytes_ok_zeros|by apply Forall_drop].
  - rewrite !(ztake_app_le off p), !(slice_app_r (off + 4) _ p), !(slice_app_r (off + 4 - _)) by lia.
    rewrite Hww. intros <- E. apply Hne. unfold slice in E.
    rewrite !zdrop_app_le, !(ztake_app_ge 4), !ztake_app_ge in E by zl. rewrite Hww in E.
    apply le_value_inj in E; [|rewrite !Forall_app; split_and!; try done;
      first [by apply Forall_drop|by apply Forall_take]..|rewrite !zlen_app; lia].
    apply app_inv_head in E. by apply app_inj_1 in E as [-> _].
Qed.

(** Checksumming around the checksum field equals checksumming a copy in which
    its four bytes are zero. *)
Lemma crc32c_zeroed_field_eq p old s :
  zlen p = 20 -> zlen old = 4 ->
  crc32c_with_zeroed_checksum_field (p ++ old ++ s) = crc32c (p ++ zeros 4 ++ s).
Proof.
  intros Hp Ho. unfold crc32c_with_zeroed_checksum_field, crc32c, kChecksumOffset, kChecksumSize in *.
  pose proof (zlen_nonneg s). assert (zlen (p ++ old ++ s) = 24 + zlen s) as -> by zl.
  destruct (Z.geb_spec (24 + zlen s) 20); [|lia].
  destruct (Z.gtb_spec (24 + zlen s) 20); [|lia].
  rewrite ztake_app_le, ztake_all, Z.min_l by lia.
  rewrite (ztake_all 4 (zeros 4)), !crc32c_update_app by zl.
  rewrite app_assoc, zdrop_app_ge by zl. rewrite zlen_app, Hp, Ho.
  change (20 + 4 - (20 + 4)) with 0. rewrite zdrop_0.
  destruct (Z.gtb_spec (24 + zlen s) (20 + 4)); [done|].
  destruct s as [|b s]; [by rewrite crc32c_update_nil|].
  rewrite zlen_cons in *. pose proof (zlen_nonneg s). lia.
Qed.

(** The checksum detects every corruption confined to four consecutive bytes
    (any burst of at most 32 bits that starts on a byte boundary): two messages
    that differ only inside such a window never have the same CRC. *)
Theorem crc32c_detects_burst p w w' s :
  bytes_ok p -> bytes_ok w -> bytes_ok w' -> bytes_ok s ->
  length w = length w' -> (length w <= 4)%nat -> w <> w' ->
  crc32c (p ++ w ++ s) <> crc32c (p ++ w' ++ s).
Proof. apply crc32c_window_neq. Qed.

Lemma hardware_update_eq_witness :
  crc32c_hardware_update_sse (fun c w => foldl crc_byte c (le_bytes 8 w))
    (fun c w => foldl crc_byte c (le_bytes 4 w)) crc_byte kCrc32cInit (Z.of_nat <$> seq 0 15) =
    crc32c_software_update kCrc32cInit (Z.of_nat <$> seq 0 15) /\
  crc32c_hardware_update_arm (fun c w => foldl crc_byte c (le_bytes 8 w))
    (fun c w => foldl crc_byte c (le_bytes 4 w)) (fun c w => foldl crc_byte c (le_bytes 2 w))
    crc_byte kCrc32cInit (Z.of_nat <$> seq 0 15) =
    crc32c_software_update kCrc32cInit (Z.of_nat <$> seq 0 15).
Proof.
  apply (hardware_update_eq (fun c w => foldl crc_byte c (le_bytes 8 w))
    (fun c w => foldl crc_byte c (le_bytes 4 w)) (fun c w => foldl crc_byte c (le_bytes 2 w)) crc_byte).
  - by split.
  - exact kCrc32cInit_u32.
  - repeat constructor; unfold byte_ok; simpl; lia.
Defined.

Lemma crc32c_detects_burst_witness :
  crc32c ([1; 2] ++ [3; 4; 5; 6] ++ [7]) <> crc32c ([1; 2] ++ [255; 4; 5; 0] ++ [7]).
Proof.
  apply (crc32c_detects_burst [1; 2] [3; 4; 5; 6] [255; 4; 5; 0] [7]);
    try (repeat constructor; unfold byte_ok; lia); try done; simpl; lia.
Defined.

(** The check value of the CRC-32C catalogue entry, for "123456789". *)
Example crc32c_check_value :
  crc32c [49; 50; 51; 52; 53; 54; 55; 56; 57] = 0xE3069283.
Proof. vm_compute. reflexivity. Qed.
