(* ===== verification/Record.v ===== *)
(** * Records

    Models src/segment/record.cpp and include/glifistore/segment/record.hpp: the
    v1 record format of the append-only segments.  The encoder and the decoder
    are translated write by write and read by read.  The theorems show that
    decoding inverts encoding, that a verified record is the canonical encoding
    of what it decodes to, that no input makes the decoder read outside its
    buffer, and that corrupting the payload is reported as such. *)

From S2P Require Import Prelude Core Crc32c.

(** [enum class Opcode : std::uint16_t] and [enum class ValueType : std::uint16_t]
    may hold any 16-bit value; the validators below compare the raw value. *)
Definition Opcode_put : Z := 1.
Definition Opcode_erase : Z := 2.
Definition ValueType_bytes : Z := 1.
Definition ValueType_integer : Z := 2.
Definition ValueType_map : Z := 3.
Definition ValueType_lease : Z := 4.

Record RecordInput := mkRecordInput {
  in_sequence : Z;
  in_opcode : Z;
  in_type : Z;
  in_flags : Z;
  in_key_hash : Z;
  in_expire_at_ns : Z;
  in_key : list Z;
  in_value : list Z
}.

Record RecordView := mkRecordView {
  rv_sequence : Z;
  rv_opcode : Z;
  rv_type : Z;
  rv_flags : Z;
  rv_key_hash : Z;
  rv_expire_at_ns : Z;
  rv_key : list Z;
  rv_value : list Z;
  rv_encoded_size : Z
}.

#[export] Instance RecordView_eq_dec : EqDecision RecordView.
Proof. solve_decision. Defined.

Definition kRecordMagic : Z := 0x52594C47.
Definition kRecordFormatVersion : Z := 1.
Definition kEncodedRecordHeaderSize : Z := 56.

Definition validate_record_input (input : RecordInput) : Status :=
  if negb (in_opcode input =? Opcode_put) && negb (in_opcode input =? Opcode_erase)
  then Err invalid_argument
  else if (in_type input <? ValueType_bytes) || (in_type input >? ValueType_lease)
  then Err invalid_argument
  else if (zlen (in_key input) >? umax 32) || (zlen (in_value input) >? umax 32)
  then Err record_too_large
  else Ok tt.

Definition compute_encoded_size (input : RecordInput) : Result Z :=
  validate_record_input input ;;?
  let? raw := checked_add 64 kEncodedRecordHeaderSize (zlen (in_key input)) in
  let? raw := checked_add 64 raw (zlen (in_value input)) in
  match align_up_checked 64 raw kRecordAlignment with
  | Ok aligned =>
      if (aligned >? kMaxNormalRecordSize) || (aligned >? umax 32)
      then Err record_too_large else Ok aligned
  | Err _ => Err record_too_large
  | Stuck f => Stuck f
  end.

Definition expired (record : RecordView) (now_ns : Z) : bool :=
  negb (rv_expire_at_ns record =? 0) && negb (now_ns =? 0) && (rv_expire_at_ns record <=? now_ns).

Definition encoded_record_size (input : RecordInput) : Result Z := compute_encoded_size input.

(** [encode_record(out, input, encoded_size)]; [debug] is a build without
    [NDEBUG], which checks the caller's size again.  The result is the
    destination buffer. *)
Definition encode_record_sized (debug : bool) (out : list Z) (input : RecordInput)
    (encoded_size : Z) : Result (list Z) :=
  validate_record_input input ;;?
  let key_size := zlen (in_key input) in
  let value_size := zlen (in_value input) in
  let minimum := u64 (kEncodedRecordHeaderSize + key_size + value_size) in
  if (encoded_size <? minimum) || negb (encoded_size mod kRecordAlignment =? 0) ||
     (zlen out <? encoded_size) || (encoded_size >? kMaxNormalRecordSize)
  then Err invalid_argument
  else
  (if debug then
     let? checked := compute_encoded_size input in
     if negb (checked =? encoded_size) then Err invalid_argument else Ok tt
   else Ok tt) ;;?
  let? encoded := first out encoded_size in
  let? encoded := put_u32 encoded 0 kRecordMagic in
  let? encoded := put_u16 encoded 4 kRecordFormatVersion in
  let? encoded := put_u16 encoded 6 kEncodedRecordHeaderSize in
  let? encoded := put_u32 encoded 8 (u32 encoded_size) in
  let? encoded := put_u32 encoded 12 (u32 key_size) in
  let? encoded := put_u32 encoded 16 (u32 value_size) in
  let? encoded := put_u32 encoded 20 0 in
  let? encoded := put_u64 encoded 24 (in_sequence input) in
  let? encoded := put_u64 encoded 32 (in_key_hash input) in
  let? encoded := put_u64 encoded 40 (in_expire_at_ns input) in
  let? encoded := put_u16 encoded 48 (in_opcode input) in
  let? encoded := put_u16 encoded 50 (in_type input) in
  let? encoded := put_u32 encoded 52 (in_flags input) in
  let? encoded := (if negb (key_size =? 0)
                   then memcpy encoded kEncodedRecordHeaderSize (in_key input)
                   else Ok encoded) in
  let? encoded := (if negb (value_size =? 0)
                   then memcpy encoded (kEncodedRecordHeaderSize + key_size) (in_value input)
                   else Ok encoded) in
  let payload_end := u64 (kEncodedRecordHeaderSize + key_size + value_size) in
  let? encoded := (if payload_end <? encoded_size
                   then memcpy encoded payload_end (zeros (encoded_size - payload_end))
                   else Ok encoded) in
  let? encoded := put_u32 encoded 20 (crc32c_with_zeroed_checksum_field encoded) in
  Ok (encoded ++ zdrop encoded_size out).

(** [encode_record(out, input)] *)
Definition encode_record_into (debug : bool) (out : list Z) (input : RecordInput) : Result (list Z) :=
  let? size := compute_encoded_size input in
  encode_record_sized debug out input size.

(** [encode_record(input)] *)
Definition encode_record (debug : bool) (input : RecordInput) : Result (list Z) :=
  let? size := compute_encoded_size input in
  encode_record_sized debug (zeros size) input size.

Definition decode_record (bytes : list Z) (verify_checksum : bool) : Result RecordView :=
  if zlen bytes <? kEncodedRecordHeaderSize then Err invalid_record
  else
  let? bad := get_u32 bytes 0 <>? kRecordMagic ||?
              get_u16 bytes 4 <>? kRecordFormatVersion ||?
              get_u16 bytes 6 <>? kEncodedRecordHeaderSize in
  if (bad : bool) then Err invalid_record
  else
  let? total_size := get_u32 bytes 8 in
  let? key_size := get_u32 bytes 12 in
  let? value_size := get_u32 bytes 16 in
  if (total_size <? kEncodedRecordHeaderSize) || (total_size >? zlen bytes) ||
     (total_size >? kMaxNormalRecordSize) || negb (total_size mod kRecordAlignment =? 0)
  then Err invalid_record
  else
  let? payload_size := or_fail (checked_add 64 key_size value_size) invalid_record in
  let? raw_size := or_fail (checked_add 64 kEncodedRecordHeaderSize payload_size) invalid_record in
  let? expected_size := or_fail (align_up_checked 64 raw_size kRecordAlignment) invalid_record in
  if negb (expected_size =? total_size) then Err invalid_record
  else
  let? encoded := first bytes total_size in
  let? mismatch := (if verify_checksum
                    then get_u32 bytes 20 <>? crc32c_with_zeroed_checksum_field encoded
                    else Ok false) in
  if (mismatch : bool) then Err checksum_mismatch
  else
  let? opcode_raw := get_u16 bytes 48 in
  if negb (opcode_raw =? Opcode_put) && negb (opcode_raw =? Opcode_erase)
  then Err invalid_record
  else
  let? type_raw := get_u16 bytes 50 in
  if (type_raw <? ValueType_bytes) || (type_raw >? ValueType_lease)
  then Err invalid_record
  else
  let key_begin := kEncodedRecordHeaderSize in
  let payload_end := u64 (key_begin + payload_size) in
  let? padding := subspan_from encoded payload_end in
  if negb (all_zero padding) then Err invalid_record
  else
  let? sequence := get_u64 bytes 24 in
  let? flags := get_u32 bytes 52 in
  let? key_hash := get_u64 bytes 32 in
  let? expire_at_ns := get_u64 bytes 40 in
  let? key := subspan encoded key_begin key_size in
  let? value := subspan encoded (u64 (key_begin + key_size)) value_size in
  Ok {| rv_sequence := sequence;
        rv_opcode := opcode_raw;
        rv_type := type_raw;
        rv_flags := flags;
        rv_key_hash := key_hash;
        rv_expire_at_ns := expire_at_ns;
        rv_key := key;
        rv_value := value;
        rv_encoded_size := total_size |}.

(** ** The format *)

Definition RecordInput_ok (input : RecordInput) : Prop :=
  is_u64 (in_sequence input) /\ is_u16 (in_opcode input) /\ is_u16 (in_type input) /\
  is_u32 (in_flags input) /\ is_u64 (in_key_hash input) /\ is_u64 (in_expire_at_ns input) /\
  bytes_ok (in_key input) /\ bytes_ok (in_value input).

Definition raw_size (input : RecordInput) : Z :=
  kEncodedRecordHeaderSize + zlen (in_key input) + zlen (in_value input).
(** The next multiple of eight. *)
Definition record_size (input : RecordInput) : Z := (raw_size input + 7) / 8 * 8.

(** What the validators accept. *)
Definition encodable (input : RecordInput) : Prop :=
  (in_opcode input = Opcode_put \/ in_opcode input = Opcode_erase) /\
  ValueType_bytes <= in_type input <= ValueType_lease /\
  raw_size input <= kMaxNormalRecordSize.

(** The fields before and after the checksum. *)
Definition record_front (total : Z) (input : RecordInput) : list Z :=
  le_bytes 4 kRecordMagic ++ le_bytes 2 kRecordFormatVersion ++
  le_bytes 2 kEncodedRecordHeaderSize ++ le_bytes 4 total ++
  le_bytes 4 (zlen (in_key input)) ++ le_bytes 4 (zlen (in_value input)).
Definition record_back (total : Z) (input : RecordInput) : list Z :=
  le_bytes 8 (in_sequence input) ++ le_bytes 8 (in_key_hash input) ++
  le_bytes 8 (in_expire_at_ns input) ++ le_bytes 2 (in_opcode input) ++
  le_bytes 2 (in_type input) ++ le_bytes 4 (in_flags input) ++
  in_key input ++ in_value input ++ zeros (total - raw_size input).
Definition record_crc (total : Z) (input : RecordInput) : Z :=
  crc32c (record_front total input ++ zeros 4 ++ record_back total input).
Definition record_bytes (input : RecordInput) : list Z :=
  let total := record_size input in
  record_front total input ++ le_bytes 4 (record_crc total input) ++ record_back total input.

(** The view a decoder gives of an encoded input. *)
Definition view_of (input : RecordInput) : RecordView :=
  {| rv_sequence := in_sequence input; rv_opcode := in_opcode input; rv_type := in_type input;
     rv_flags := in_flags input; rv_key_hash := in_key_hash input;
     rv_expire_at_ns := in_expire_at_ns input; rv_key := in_key input; rv_value := in_value input;
     rv_encoded_size := record_size input |}.
Definition input_of (view : RecordView) : RecordInput :=
  {| in_sequence := rv_sequence view; in_opcode := rv_opcode view; in_type := rv_type view;
     in_flags := rv_flags view; in_key_hash := rv_key_hash view;
     in_expire_at_ns := rv_expire_at_ns view; in_key := rv_key view; in_value := rv_value view |}.

(** ** Encoding *)

Ltac unfold_consts :=
  unfold kRecordAlignment, kMaxNormalRecordSize, kEncodedRecordHeaderSize, Opcode_put,
    Opcode_erase, ValueType_bytes, ValueType_lease in *.

Lemma record_size_bounds input :
  raw_size input <= record_size input < raw_size input + 8 /\ record_size input mod 8 = 0.
Proof. unfold record_size. divlia. Qed.

Lemma raw_size_ge input : kEncodedRecordHeaderSize <= raw_size input.
Proof.
  unfold raw_size. pose proof (zlen_nonneg (in_key input)).
  pose proof (zlen_nonneg (in_value input)). lia.
Qed.

Lemma encodable_bounds input : encodable input ->
  0 <= zlen (in_key input) <= kMaxNormalRecordSize - 56 /\
  0 <= zlen (in_value input) <= kMaxNormalRecordSize - 56 /\
  56 <= raw_size input <= record_size input /\ record_size input <= kMaxNormalRecordSize.
Proof.
  intros (_ & _ & Hr). pose proof (record_size_bounds input). pose proof (raw_size_ge input).
  pose proof (zlen_nonneg (in_key input)). pose proof (zlen_nonneg (in_value input)).
  unfold raw_size in *. unfold_consts. split_and!; try lia. divlia.
Qed.

Lemma validate_record_input_Ok input : encodable input -> validate_record_input input = Ok tt.
Proof.
  intros He. pose proof (encodable_bounds input He). destruct He as (Ho & Ht & Hr).
  unfold validate_record_input. unfold_consts. width.
  destruct (Z.gtb_spec (in_type input) 4), (Z.ltb_spec (in_type input) 1); try lia.
  destruct (Z.gtb_spec (zlen (in_key input)) (4294967296 - 1)); [lia|].
  destruct (Z.gtb_spec (zlen (in_value input)) (4294967296 - 1)); [lia|].
  by destruct Ho as [-> | ->].
Qed.

Lemma validate_record_input_inv input u : validate_record_input input = Ok u ->
  (in_opcode input = Opcode_put \/ in_opcode input = Opcode_erase) /\
  ValueType_bytes <= in_type input <= ValueType_lease /\
  zlen (in_key input) <= umax 32 /\ zlen (in_value input) <= umax 32.
Proof.
  unfold validate_record_input. intros H. unfold_consts. peel H.
  apply andb_false_iff in E. rewrite !negb_false_iff, !Z.eqb_eq in E.
  rewrite orb_false_iff in *. rewrite !Z.gtb_ltb in *. b2p. lia.
Qed.

Lemma compute_encoded_size_raw input :
  0 <= zlen (in_key input) <= umax 32 -> 0 <= zlen (in_value input) <= umax 32 ->
  (let? raw := checked_add 64 kEncodedRecordHeaderSize (zlen (in_key input)) in
   checked_add 64 raw (zlen (in_value input))) = Ok (raw_size input) /\
  align_up_checked 64 (raw_size input) kRecordAlignment = Ok (record_size input).
Proof.
  intros Hk Hv. unfold kRecordAlignment. change 8 with (2 ^ 3).
  rewrite checked_add_Ok by (unfold kEncodedRecordHeaderSize; width; lia).
  pose proof (raw_size_ge input). unfold record_size, raw_size in *.
  destruct (Z.ltb_spec (kEncodedRecordHeaderSize + zlen (in_key input)) (2 ^ 64)) as [|?];
    [|unfold_consts; width; lia]. cbn [bindR].
  rewrite checked_add_Ok by (unfold_consts; width; lia).
  destruct (Z.ltb_spec (kEncodedRecordHeaderSize + zlen (in_key input) + zlen (in_value input)) (2 ^ 64))
    as [|?]; [|unfold_consts; width; lia].
  rewrite align_up_checked_Ok by (unfold_consts; width; lia). split; [done|].
  destruct (Z.ltb_spec (kEncodedRecordHeaderSize + zlen (in_key input) + zlen (in_value input) + (2 ^ 3 - 1))
    (2 ^ 64)) as [|?]; [|unfold_consts; width; lia]. by change (2 ^ 3) with 8.
Qed.

(** The size of a record is its raw size rounded up, and the only inputs without
    one are those the format excludes. *)
Lemma compute_encoded_size_Ok input n :
  compute_encoded_size input = Ok n <-> encodable input /\ n = record_size input.
Proof.
  pose proof (zlen_nonneg (in_key input)). pose proof (zlen_nonneg (in_value input)).
  unfold compute_encoded_size. split.
  - intros Hc. apply bindR_Ok in Hc as (u & Hv & Hc).
    apply validate_record_input_inv in Hv as (Ho & Ht & Hk & Hv).
    destruct (compute_encoded_size_raw input) as [E1 E2]; [lia..|].
    rewrite <- bindR_assoc, E1 in Hc. cbn [bindR] in Hc. rewrite E2 in Hc.
    destruct (_ || _) eqn:E in Hc; [done|]. injection Hc as <-.
    rewrite !Z.gtb_ltb in E. b2p. split; [|done]. split_and!; [done|lia..|].
    pose proof (record_size_bounds input). lia.
  - intros [He ->]. pose proof (encodable_bounds input He). rewrite validate_record_input_Ok by done.
    cbn [bindR].
    destruct (compute_encoded_size_raw input) as [E1 E2]; [unfold_consts; width; lia..|].
    rewrite <- bindR_assoc, E1. cbn [bindR]. rewrite E2. unfold_consts. width.
    destruct (Z.gtb_spec (record_size input) (1 * 1024 * 1024)); [lia|].
    destruct (Z.gtb_spec (record_size input) (4294967296 - 1)); [lia|]. done.
Qed.

Lemma zlen_record_front total input : zlen (record_front total input) = 20.
Proof. unfold record_front. zl. Qed.
Lemma zlen_record_back total input : raw_size input <= total ->
  zlen (record_back total input) = total - 24.
Proof.
  intros. unfold record_back. autorewrite with zlen. unfold raw_size, kEncodedRecordHeaderSize in *. lia.
Qed.
Lemma zlen_record_bytes input : zlen (record_bytes input) = record_size input.
Proof.
  unfold record_bytes. pose proof (record_size_bounds input).
  rewrite !zlen_app, zlen_record_front, zlen_le_bytes, zlen_record_back by lia. lia.
Qed.
#[export] Hint Rewrite zlen_record_front zlen_record_bytes : zlen.

Lemma encode_record_sized_Ok debug out input :
  encodable input -> record_size input <= zlen out ->
  encode_record_sized debug out input (record_size input) =
  Ok (record_bytes input ++ zdrop (record_size input) out).
Proof.
  intros He Hl. pose proof (encodable_bounds input He) as (Hk & Hv & Hr & Hm).
  pose proof (record_size_bounds input) as [Hb Hmod].
  unfold encode_record_sized. rewrite validate_record_input_Ok by done. cbn [bindR].
  fold (raw_size input). unfold_consts. rewrite (wrap_small 64) by (width; lia).
  rewrite Hmod. destruct (Z.ltb_spec (record_size input) (raw_size input)); [lia|].
  destruct (Z.ltb_spec (zlen out) (record_size input)); [lia|].
  destruct (Z.gtb_spec (record_size input) (1 * 1024 * 1024)); [lia|]. simpl (_ || _).
  assert ((if debug then let? checked := compute_encoded_size input in
     if negb (checked =? record_size input) then Err invalid_argument else Ok tt else Ok tt) = Ok tt) as ->.
  { destruct debug; [|done]. rewrite (proj2 (compute_encoded_size_Ok input _)) by done.
    simpl. by rewrite Z.eqb_refl. }
  cbn [bindR]. rewrite first_in by lia. cbn [bindR].
  rewrite !(wrap_small 32) by (width; lia).
  set (o := ztake (record_size input) out).
  assert (zlen o = record_size input) as Ho by (unfold o; zl).
  change o with ([] ++ zdrop 0 o). fill.
  set (p := (_ ++ le_bytes 4 (in_flags input))).
  assert (zlen p = 56) as Hp by (unfold p; zl).
  unfold raw_size, kEncodedRecordHeaderSize in *.
  rewrite (memcpy_fill_nonempty p o 56 (56 + zlen (in_key input))) by lia. cbn [bindR].
  rewrite (memcpy_fill_nonempty _ o _ (56 + zlen (in_key input) + zlen (in_value input))) by zl.
  cbn [bindR]. fold kEncodedRecordHeaderSize in *. fold (raw_size input) in *.
  set (q := (p ++ in_key input) ++ in_value input).
  assert ((if raw_size input <? record_size input
           then memcpy (q ++ zdrop (raw_size input) o) (raw_size input)
                  (zeros (record_size input - raw_size input))
           else Ok (q ++ zdrop (raw_size input) o)) =
          Ok (record_front (record_size input) input ++ zeros 4 ++ record_back (record_size input) input))
    as ->.
  { assert (zlen q = raw_size input).
    { unfold q, raw_size, kEncodedRecordHeaderSize in *. rewrite !zlen_app. lia. }
    replace (raw_size input <? record_size input)
      with (negb (zlen (zeros (record_size input - raw_size input)) =? 0)).
    2:{ rewrite zlen_zeros by lia. destruct (Z.eqb_spec (record_size input - raw_size input) 0),
          (Z.ltb_spec (raw_size input) (record_size input)); simpl; (done || lia). }
    rewrite (memcpy_fill_nonempty q o _ (record_size input)) by (rewrite ?zlen_zeros; lia).
    rewrite (zdrop_all (record_size input) o), app_nil_r by lia.
    unfold q, p, record_front, record_back. by rewrite le_bytes_0, <- !app_assoc by lia. }
  cbn [bindR]. rewrite put_u32_over by zl. cbn [bindR]. unfold record_bytes, record_crc.
  by rewrite crc32c_zeroed_field_eq by zl.
Qed.

Lemma encode_record_Ok debug input :
  encodable input -> encode_record debug input = Ok (record_bytes input).
Proof.
  intros He. pose proof (encodable_bounds input He).
  unfold encode_record. rewrite (proj2 (compute_encoded_size_Ok input _)) by done. cbn [bindR].
  rewrite encode_record_sized_Ok by (done || zl).
  by rewrite zdrop_all, app_nil_r by zl.
Qed.

(** ** Decoding *)

(** The extent the decoder computes from the two size fields. *)
Lemma payload_extent k v : is_u32 k -> is_u32 v ->
  checked_add 64 k v = Ok (k + v) /\
  checked_add 64 kEncodedRecordHeaderSize (k + v) = Ok (56 + k + v) /\
  align_up_checked 64 (56 + k + v) kRecordAlignment = Ok ((56 + k + v + 7) / 8 * 8).
Proof.
  intros Hk Hv. unfold_consts.
  rewrite !checked_add_Ok by (width; lia). change 8 with (2 ^ 3) at 1.
  rewrite align_up_checked_Ok by (width; lia). change (2 ^ 3 - 1) with 7. change (2 ^ 3) with 8.
  width. rewrite Z.add_assoc.
  destruct (Z.ltb_spec (k + v) 18446744073709551616); [|lia].
  destruct (Z.ltb_spec (56 + k + v) 18446744073709551616); [|lia].
  destruct (Z.ltb_spec (56 + k + v + 7) 18446744073709551616); [done|lia].
Qed.

(** The value of a field of a buffer [bs] laid out as a record. *)
Ltac record_field bs :=
  unfold bs, record_front, record_back; known_field.

Lemma decode_record_layout input tail verify crc :
  RecordInput_ok input -> encodable input -> is_u32 crc ->
  let total := record_size input in
  decode_record (record_front total input ++ le_bytes 4 crc ++ record_back total input ++ tail) verify =
  if verify && negb (crc =? record_crc total input) then Err checksum_mismatch
  else Ok (view_of input).
Proof.
  intros (Hs & Ho & Ht & Hf & Hh & Hx & Hkb & Hvb) He Hcrc total.
  pose proof (encodable_bounds input He) as (Hk & Hv & Hr & Hm).
  pose proof (record_size_bounds input) as [Hb Hmod]. destruct He as (Hop & Hty & _).
  pose proof (zlen_nonneg tail). fold total in Hr, Hm, Hb, Hmod.
  unfold decode_record.
  set (bs := record_front total input ++ _).
  assert (zlen bs = total + zlen tail) as Hlen.
  { unfold bs. rewrite !zlen_app, zlen_record_front, zlen_le_bytes, zlen_record_back by lia. lia. }
  rewrite Hlen. unfold_consts. destruct (Z.ltb_spec (total + zlen tail) 56); [lia|].
  reads.
  assert (le_value (slice 0 4 bs) = kRecordMagic) as -> by (unfold kRecordMagic in *; record_field bs).
  assert (le_value (slice 4 2 bs) = kRecordFormatVersion) as ->
    by (unfold kRecordFormatVersion in *; record_field bs).
  assert (le_value (slice 6 2 bs) = 56) as -> by record_field bs.
  assert (le_value (slice 8 4 bs) = total) as -> by record_field bs.
  assert (le_value (slice 12 4 bs) = zlen (in_key input)) as -> by record_field bs.
  assert (le_value (slice 16 4 bs) = zlen (in_value input)) as -> by record_field bs.
  assert (le_value (slice 20 4 bs) = crc) as -> by record_field bs.
  assert (le_value (slice 24 8 bs) = in_sequence input) as -> by record_field bs.
  assert (le_value (slice 32 8 bs) = in_key_hash input) as -> by record_field bs.
  assert (le_value (slice 40 8 bs) = in_expire_at_ns input) as -> by record_field bs.
  assert (le_value (slice 48 2 bs) = in_opcode input) as -> by record_field bs.
  assert (le_value (slice 50 2 bs) = in_type input) as -> by record_field bs.
  assert (le_value (slice 52 4 bs) = in_flags input) as -> by record_field bs.
  destruct (payload_extent (zlen (in_key input)) (zlen (in_value input))) as (E1 & E2 & E3);
    [width; lia..|].
  cbn [bindR orR neR]. rewrite !Z.eqb_refl. cbn [negb bindR]. rewrite Hmod, E1.
  cbn [negb orb bindR or_fail]. unfold_consts. rewrite E2. cbn [bindR or_fail]. rewrite E3. cbn [bindR or_fail].
  fold kEncodedRecordHeaderSize. fold (raw_size input). fold (record_size input). fold total.
  rewrite Z.eqb_refl. unfold_consts. cbn [negb].
  destruct (Z.ltb_spec total 56), (Z.gtb_spec total (total + zlen tail)),
    (Z.gtb_spec total (1 * 1024 * 1024)); try lia. cbn [orb negb Z.eqb].
  rewrite first_in by lia. cbn [bindR].
  assert (ztake total bs = record_front total input ++ le_bytes 4 crc ++ record_back total input) as ->.
  { unfold bs. rewrite !app_assoc, ztake_app_le, ztake_all; rewrite <- ?app_assoc; [done|..];
      rewrite !zlen_app, zlen_record_front, zlen_le_bytes, zlen_record_back by lia; lia. }
  set (encoded := record_front total input ++ _).
  assert (zlen encoded = total) as Hel.
  { unfold encoded. rewrite !zlen_app, zlen_record_front, zlen_le_bytes, zlen_record_back by lia. lia. }
  assert (crc32c_with_zeroed_checksum_field encoded = record_crc total input) as ->.
  { unfold encoded, record_crc. rewrite crc32c_zeroed_field_eq by zl. reflexivity. }
  assert ((if verify then Ok (negb (crc =? record_crc total input)) else Ok false) =
          Ok (verify && negb (crc =? record_crc total input))) as -> by by destruct verify.
  cbn [orR bindR]. rewrite ?Z.eqb_refl. cbn [negb].
  destruct (verify && _); [done|].
  assert (negb (in_opcode input =? 1) && negb (in_opcode input =? 2) = false) as ->
    by by destruct Hop as [-> | ->].
  destruct (Z.ltb_spec (in_type input) 1), (Z.gtb_spec (in_type input) 4); try lia. cbn [orb bindR].
  rewrite !(wrap_small 64) by (width; unfold raw_size in *; lia).
  unfold raw_size, kEncodedRecordHeaderSize in *.
  unfold subspan_from. rewrite !subspan_in by lia. cbn [bindR].
  assert (exists h, zlen h = 56 /\ encoded = h ++ in_key input ++ in_value input ++
    zeros (total - (56 + zlen (in_key input) + zlen (in_value input)))) as (h & Hhl & Henc).
  { exists (record_front total input ++ le_bytes 4 crc ++ le_bytes 8 (in_sequence input) ++
      le_bytes 8 (in_key_hash input) ++ le_bytes 8 (in_expire_at_ns input) ++
      le_bytes 2 (in_opcode input) ++ le_bytes 2 (in_type input) ++ le_bytes 4 (in_flags input)).
    split; [zl|]. unfold encoded, record_back, raw_size, kEncodedRecordHeaderSize.
    by rewrite <- !app_assoc. }
  rewrite Hel, Henc.
  rewrite (slice_app_r _ (total - _)), (slice_app_r _ (total - _)), (slice_app_r _ (total - _)) by lia.
  rewrite slice_zeros, all_zero_zeros by lia. cbn [negb].
  rewrite (slice_app_r 56), Hhl by lia. change (56 - 56) with 0.
  rewrite (slice_app_l 0), slice_whole by lia.
  rewrite (slice_app_r (56 + _)), (slice_app_r (56 + _ - _)) by lia.
  by rewrite slice_app_l, Hhl, (Z.add_comm 56), Z.add_simpl_r, Z.sub_diag, slice_whole by lia.
Qed.

(** What a successful decode says of the buffer. *)
Definition record_spec (bs : list Z) (verify : bool) (v : RecordView) : Prop :=
  let input := input_of v in
  RecordInput_ok input /\ encodable input /\
  rv_encoded_size v = record_size input /\ record_size input <= zlen bs /\
  ztake (record_size input) bs =
    record_front (record_size input) input ++ slice 20 4 bs ++ record_back (record_size input) input /\
  (verify = true -> le_value (slice 20 4 bs) = record_crc (record_size input) input).

(** The header of a buffer, field by field. *)
Lemma record_fields bs total : bytes_ok bs -> 56 <= total <= zlen bs ->
  ztake total bs =
    (le_bytes 4 (le_value (slice 0 4 bs)) ++ le_bytes 2 (le_value (slice 4 2 bs)) ++
     le_bytes 2 (le_value (slice 6 2 bs)) ++ le_bytes 4 (le_value (slice 8 4 bs)) ++
     le_bytes 4 (le_value (slice 12 4 bs)) ++ le_bytes 4 (le_value (slice 16 4 bs))) ++
    slice 20 4 bs ++
    le_bytes 8 (le_value (slice 24 8 bs)) ++ le_bytes 8 (le_value (slice 32 8 bs)) ++
    le_bytes 8 (le_value (slice 40 8 bs)) ++ le_bytes 2 (le_value (slice 48 2 bs)) ++
    le_bytes 2 (le_value (slice 50 2 bs)) ++ le_bytes 4 (le_value (slice 52 4 bs)) ++
    slice 56 (total - 56) bs.
Proof.
  intros Hbs Hl. rewrite <- !slice_le_bytes by (done || lia). rewrite <- !app_assoc.
  rewrite <- (zdrop_0 bs) at 1. change (ztake total (zdrop 0 bs)) with (slice 0 total bs).
  split_fields bs. f_equal. lia.
Qed.

Lemma record_spec_intro bs verify :
  bytes_ok bs ->
  let total := le_value (slice 8 4 bs) in
  let k := le_value (slice 12 4 bs) in
  let v := le_value (slice 16 4 bs) in
  let opcode := le_value (slice 48 2 bs) in
  le_value (slice 0 4 bs) = kRecordMagic -> le_value (slice 4 2 bs) = kRecordFormatVersion ->
  le_value (slice 6 2 bs) = 56 -> 56 <= total <= zlen bs -> total <= kMaxNormalRecordSize ->
  (56 + k + v + 7) / 8 * 8 = total ->
  opcode = Opcode_put \/ opcode = Opcode_erase ->
  ValueType_bytes <= le_value (slice 50 2 bs) <= ValueType_lease ->
  slice (56 + k + v) (total - (56 + k + v)) bs = zeros (total - (56 + k + v)) ->
  verify && negb (le_value (slice 20 4 bs) =? crc32c_with_zeroed_checksum_field (ztake total bs)) = false ->
  record_spec bs verify
    {| rv_sequence := le_value (slice 24 8 bs); rv_opcode := opcode;
       rv_type := le_value (slice 50 2 bs); rv_flags := le_value (slice 52 4 bs);
       rv_key_hash := le_value (slice 32 8 bs); rv_expire_at_ns := le_value (slice 40 8 bs);
       rv_key := slice 56 k bs; rv_value := slice (56 + k) v bs; rv_encoded_size := total |}.
Proof.
  intros Hbs total k v opcode H0 H4 H6 Ht Hm Hext Hop Hty Hpad Hcrc.
  pose proof (is_uint_slice bs 12 4 Hbs ltac:(lia) ltac:(lia) ltac:(lia)) as Hk.
  pose proof (is_uint_slice bs 16 4 Hbs ltac:(lia) ltac:(lia) ltac:(lia)) as Hv.
  fold k in Hk. fold v in Hv. change (8 * 4) with 32 in *. width.
  assert (56 + k + v <= total < 56 + k + v + 8) by divlia.
  set (view := {| rv_sequence := _ |}). unfold record_spec. set (input := input_of view).
  assert (zlen (in_key input) = k) as Ek by (unfold input, view; simpl; zl).
  assert (zlen (in_value input) = v) as Ev by (unfold input, view; simpl; zl).
  assert (raw_size input = 56 + k + v) as Er
    by (unfold raw_size, kEncodedRecordHeaderSize; lia).
  assert (record_size input = total) as Es by (unfold record_size; rewrite Er; done).
  rewrite Es.
  assert (ztake total bs = record_front total input ++ slice 20 4 bs ++ record_back total input) as Hflat.
  { rewrite record_fields by done. unfold record_front, record_back.
    rewrite Er, Ek, Ev, H0, H4, H6. fold total k v. unfold kEncodedRecordHeaderSize.
    do 8 f_equal.
    replace (total - 56) with (k + (v + (total - (56 + k + v)))) by lia.
    rewrite slice_split, (slice_split (56 + k)), Hpad by lia. done. }
  split_and!.
  - unfold RecordInput_ok, input, view. simpl. split_and!;
      try (by apply bytes_ok_slice);
      match goal with |- is_uint _ (le_value (slice ?a ?n bs)) =>
        apply (is_uint_slice bs a n); (done || lia) | _ => idtac end.
    unfold opcode. apply (is_uint_slice bs 48 2); (done || lia).
  - unfold encodable. rewrite Er. split_and!; try done; try apply Hty. lia.
  - done.
  - lia.
  - done.
  - intros ->. simpl in Hcrc. apply negb_false_iff, Z.eqb_eq in Hcrc. rewrite Hcrc, Hflat.
    unfold record_crc. rewrite crc32c_zeroed_field_eq by zl. reflexivity.
Qed.

Lemma decode_record_cases bs verify : bytes_ok bs ->
  match decode_record bs verify with
  | Ok v => record_spec bs verify v
  | Err e => e = invalid_record \/ e = checksum_mismatch /\ verify = true
  | Stuck _ => False
  end.
Proof.
  intros Hbs. unfold decode_record. unfold_consts.
  destruct (Z.ltb_spec (zlen bs) 56) as [|Hl]; [by left|]. reads.
  pose proof (is_uint_slice bs 12 4 Hbs ltac:(lia) ltac:(lia) ltac:(lia)) as Hk.
  pose proof (is_uint_slice bs 16 4 Hbs ltac:(lia) ltac:(lia) ltac:(lia)) as Hv.
  pose proof (record_fields bs (le_value (slice 8 4 bs)) Hbs) as Hfields.
  set (k := le_value (slice 12 4 bs)) in *. set (v := le_value (slice 16 4 bs)) in *.
  destruct (payload_extent k v Hk Hv) as (E1 & E2 & E3). unfold_consts.
  set (total := le_value (slice 8 4 bs)) in *.
  rewrite !neR_Ok, !orR_Ok. cbn [bindR].
  head_if Emagic; [by left|]. head_if Etotal; [by left|].
  rewrite E1. cbn [bindR or_fail]. rewrite E2. cbn [bindR or_fail]. rewrite E3. cbn [bindR or_fail].
  head_if Eext; [by left|]. rewrite Z.gtb_ltb in Etotal. b2p.
  change (8 * 4) with 32 in *. width. assert (56 + k + v <= total) by divlia.
  rewrite first_in by lia. cbn [bindR]. rewrite neR_Ok.
  set (crc := le_value (slice 20 4 bs)) in *.
  assert ((if verify then Ok (negb (crc =? crc32c_with_zeroed_checksum_field (ztake total bs)))
           else Ok false) =
          Ok (verify && negb (crc =? crc32c_with_zeroed_checksum_field (ztake total bs)))) as ->
    by by destruct verify.
  cbn [bindR]. head_if Ecrc.
  { apply andb_true_iff in Ecrc as [-> _]. by right. }
  head_if Eop; [by left|].
  head_if Etype; [by left|].
  rewrite !(wrap_small 64) by (width; lia).
  unfold subspan_from. rewrite zlen_ztake by lia.
  rewrite !subspan_in by (rewrite ?zlen_ztake by lia; lia). cbn [bindR].
  head_if Epad; [by left|].
  rewrite Z.gtb_ltb in Etype. rewrite Z.gtb_ltb in *. apply andb_false_iff in Eop. b2p.
  rewrite !negb_false_iff, !Z.eqb_eq in Eop.
  rewrite !slice_ztake in * by lia. rewrite all_zero_true, zlen_slice in Epad by lia.
  apply record_spec_intro; auto; unfold_consts; try lia.
  by rewrite <- Z.add_assoc.
Qed.

(** A verified read of a buffer whose sizes are those of [input] but whose
    checksum field does not match its contents. *)
Lemma decode_record_bad_crc input crc rest :
  encodable input -> is_u32 crc ->
  let total := record_size input in
  total <= 24 + zlen rest ->
  crc <> crc32c (record_front total input ++ zeros 4 ++ ztake (total - 24) rest) ->
  decode_record (record_front total input ++ le_bytes 4 crc ++ rest) true = Err checksum_mismatch.
Proof.
  intros He Hc total Hl Hne.
  pose proof (encodable_bounds input He) as (Hk & Hv & Hr & Hm).
  pose proof (record_size_bounds input) as [Hb Hmod]. fold total in Hr, Hm, Hb, Hmod.
  unfold decode_record. set (bs := record_front total input ++ _).
  assert (zlen bs = 24 + zlen rest) as Hlen by (unfold bs; zl).
  rewrite Hlen. unfold_consts. destruct (Z.ltb_spec (24 + zlen rest) 56); [lia|]. reads.
  assert (le_value (slice 0 4 bs) = kRecordMagic) as -> by (unfold kRecordMagic in *; record_field bs).
  assert (le_value (slice 4 2 bs) = kRecordFormatVersion) as ->
    by (unfold kRecordFormatVersion in *; record_field bs).
  assert (le_value (slice 6 2 bs) = 56) as -> by record_field bs.
  assert (le_value (slice 8 4 bs) = total) as -> by record_field bs.
  assert (le_value (slice 12 4 bs) = zlen (in_key input)) as -> by record_field bs.
  assert (le_value (slice 16 4 bs) = zlen (in_value input)) as -> by record_field bs.
  assert (le_value (slice 20 4 bs) = crc) as -> by record_field bs.
  destruct (payload_extent (zlen (in_key input)) (zlen (in_value input))) as (E1 & E2 & E3);
    [width; lia..|].
  rewrite !neR_Ok, !orR_Ok, !Z.eqb_refl. cbn [negb orb bindR]. unfold_consts.
  rewrite Hmod, E1. cbn [bindR or_fail]. rewrite E2. cbn [bindR or_fail]. rewrite E3. cbn [bindR or_fail].
  fold kEncodedRecordHeaderSize. fold (raw_size input). fold (record_size input). fold total.
  rewrite Z.eqb_refl. unfold_consts. cbn [negb].
  destruct (Z.ltb_spec total 56), (Z.gtb_spec total (24 + zlen rest)),
    (Z.gtb_spec total (1 * 1024 * 1024)); try lia. cbn [orb negb Z.eqb].
  rewrite first_in by lia. cbn [bindR].
  assert (ztake total bs = record_front total input ++ le_bytes 4 crc ++ ztake (total - 24) rest) as ->.
  { unfold bs. rewrite ztake_app_ge, ztake_app_ge by zl. autorewrite with zlen.
    do 3 f_equal. lia. }
  rewrite neR_Ok, crc32c_zeroed_field_eq by zl.
  apply Z.eqb_neq in Hne. rewrite Hne, ?Z.eqb_refl. reflexivity.
Qed.

Lemma record_bytes_ok input : RecordInput_ok input -> bytes_ok (record_bytes input).
Proof.
  intros (_ & _ & _ & _ & _ & _ & Hk & Hv). unfold record_bytes, record_front, record_back.
  repeat (apply Forall_app_2); auto using le_bytes_ok, bytes_ok_zeros; apply le_bytes_ok; lia.
Qed.

Lemma record_crc_range total input : is_u32 (record_crc total input).
Proof. apply wrap_range. lia. Qed.

(** The size of a record, or the reason it has none. *)
Lemma compute_encoded_size_cases input :
  compute_encoded_size input =
  if negb (bool_decide (in_opcode input = Opcode_put \/ in_opcode input = Opcode_erase) &&
           bool_decide (ValueType_bytes <= in_type input <= ValueType_lease))
  then Err invalid_argument
  else if bool_decide (raw_size input <= kMaxNormalRecordSize)
  then Ok (record_size input)
  else Err record_too_large.
Proof.
  pose proof (zlen_nonneg (in_key input)) as Hk. pose proof (zlen_nonneg (in_value input)) as Hv.
  destruct (negb _) eqn:Einv.
  - unfold compute_encoded_size, validate_record_input. unfold_consts.
    destruct (negb (in_opcode input =? 1) && _) eqn:Eop; [done|].
    destruct (_ || _) eqn:Ety; [done|]. exfalso.
    apply negb_true_iff, andb_false_iff in Einv. rewrite !bool_decide_eq_false in Einv.
    apply andb_false_iff in Eop. rewrite !negb_false_iff in Eop. rewrite Z.gtb_ltb in Ety.
    b2p. rewrite !Z.eqb_eq in Eop. lia.
  - apply negb_false_iff, andb_true_iff in Einv. rewrite !bool_decide_eq_true in Einv.
    destruct Einv as [Hop Hty]. case_bool_decide as Hsz.
    { by apply compute_encoded_size_Ok. }
    unfold compute_encoded_size, validate_record_input.
    assert (negb (in_opcode input =? Opcode_put) && negb (in_opcode input =? Opcode_erase) = false) as ->
      by by destruct Hop as [-> | ->].
    destruct (Z.ltb_spec (in_type input) ValueType_bytes), (Z.gtb_spec (in_type input) ValueType_lease);
      try lia. cbn [orb].
    destruct (_ || _) eqn:Ebig; [done|]. rewrite !Z.gtb_ltb in Ebig. b2p. cbn [bindR].
    destruct (compute_encoded_size_raw input) as [E1 E2]; [lia..|].
    rewrite <- bindR_assoc, E1. cbn [bindR]. rewrite E2.
    pose proof (record_size_bounds input).
    destruct (Z.gtb_spec (record_size input) kMaxNormalRecordSize); [done|lia].
Qed.

Lemma encoded_record_size_cases input :
  match encoded_record_size input with
  | Ok n => encodable input /\ n = record_size input
  | Err e => ~ encodable input /\ (e = invalid_argument \/ e = record_too_large)
  | Stuck _ => False
  end.
Proof.
  unfold encoded_record_size. destruct (compute_encoded_size input) as [n|e|f] eqn:E.
  { by apply compute_encoded_size_Ok in E. }
  all: assert (~ encodable input) as Hn
    by (intros He; by rewrite (proj2 (compute_encoded_size_Ok input (record_size input))) in E).
  all: rewrite compute_encoded_size_cases in E.
  all: repeat case_match; simplify_eq; auto.
Qed.

(** ** Properties *)

(** Encoding a record is total and says exactly why it refuses: an unknown
    opcode or value type is [invalid_argument], a record above the 1 MiB limit is
    [record_too_large], and every other input gives the one canonical layout. *)
Theorem encode_record_cases debug input :
  encode_record debug input =
  if negb (bool_decide (in_opcode input = Opcode_put \/ in_opcode input = Opcode_erase) &&
           bool_decide (ValueType_bytes <= in_type input <= ValueType_lease))
  then Err invalid_argument
  else if bool_decide (raw_size input <= kMaxNormalRecordSize)
  then Ok (record_bytes input)
  else Err record_too_large.
Proof.
  pose proof (compute_encoded_size_cases input) as Hc. destruct (negb _) eqn:Einv.
  { unfold encode_record. by rewrite Hc. }
  case_bool_decide as Hsz.
  - apply encode_record_Ok. by apply compute_encoded_size_Ok in Hc as [? _].
  - unfold encode_record. by rewrite Hc.
Qed.

(** C19. Decoding inverts encoding: whatever follows the record in the segment, and
    with or without checksum verification, the decoder returns the encoded
    sequence, opcode, type, flags, hash, expiry, key and value, and the extent
    the encoder wrote. *)
Theorem record_roundtrip debug verify input tail :
  RecordInput_ok input -> encodable input ->
  exists bs, encode_record debug input = Ok bs /\ zlen bs = record_size input /\
    decode_record (bs ++ tail) verify = Ok (view_of input).
Proof.
  intros Hok He. exists (record_bytes input). rewrite encode_record_Ok, zlen_record_bytes by done.
  split_and!; [done..|]. unfold record_bytes. rewrite <- !app_assoc.
  rewrite decode_record_layout by auto using record_crc_range.
  by rewrite Z.eqb_refl, andb_false_r.
Qed.

(** C20. The format is canonical: when a verified decode succeeds, encoding the
    decoded record again gives back the bytes of the buffer, so no two byte
    strings of the same extent decode to the same record. *)
Theorem record_canonical debug bs v :
  bytes_ok bs -> decode_record bs true = Ok v ->
  encode_record debug (input_of v) = Ok (ztake (rv_encoded_size v) bs).
Proof.
  intros Hbs Hd. pose proof (decode_record_cases bs true Hbs) as Hc. rewrite Hd in Hc.
  destruct Hc as (Hok & He & Hsz & Hl & Hflat & Hcrc).
  rewrite encode_record_Ok, Hsz, Hflat by done. unfold record_bytes. do 3 f_equal.
  rewrite <- (Hcrc eq_refl). symmetry. apply slice_le_bytes; [done|lia..|].
  pose proof (encodable_bounds _ He). lia.
Qed.

(** Whatever bytes it is given, the record decoder stays inside its buffer and
    ends with a record or one of two errors; a checksum error only appears when
    verification was asked for, and a decoded record lies inside the buffer. *)
Theorem decode_record_safe bs verify :
  bytes_ok bs ->
  match decode_record bs verify with
  | Ok v => kEncodedRecordHeaderSize <= rv_encoded_size v <= zlen bs /\
            rv_encoded_size v <= kMaxNormalRecordSize /\ encodable (input_of v)
  | Err e => e = invalid_record \/ e = checksum_mismatch /\ verify = true
  | Stuck _ => False
  end.
Proof.
  intros Hbs. pose proof (decode_record_cases bs verify Hbs) as Hc.
  destruct (decode_record bs verify); [|done..].
  destruct Hc as (Hok & He & Hsz & Hl & _). pose proof (encodable_bounds _ He).
  rewrite Hsz. split_and!; try done; unfold_consts; lia.
Qed.

(** C28. Corruption of the payload is detected: overwrite up to four consecutive
    bytes of an encoded record anywhere after the checksum field (sequence, hash,
    expiry, opcode, type, flags, key, value or padding) and every verified read
    reports [checksum_mismatch]. *)
Theorem record_corruption_detected debug input p w w' s tail :
  RecordInput_ok input -> encode_record debug input = Ok (p ++ w ++ s) ->
  24 <= zlen p -> bytes_ok w' -> length w = length w' -> (length w <= 4)%nat -> w <> w' ->
  decode_record (p ++ w' ++ s ++ tail) true = Err checksum_mismatch.
Proof.
  intros Hok Henc Hp Hw' Hlen H4 Hne.
  assert (encodable input) as He.
  { unfold encode_record in Henc. peel Henc. by apply compute_encoded_size_Ok in Hv as [? _]. }
  rewrite encode_record_Ok in Henc by done. injection Henc as Hbs.
  pose proof (record_bytes_ok input Hok) as Hbo. rewrite Hbs, !Forall_app in Hbo.
  destruct Hbo as (Hpo & Hwo & Hso).
  pose proof (zlen_record_bytes input) as Hl. rewrite Hbs, !zlen_app in Hl.
  pose proof (zlen_nonneg w). pose proof (zlen_nonneg s). pose proof (zlen_nonneg tail).
  assert (zlen w' = zlen w) as Hwl by (unfold zlen; lia).
  unfold record_bytes in Hbs. set (total := record_size input) in *.
  set (front := record_front total input) in *. set (back := record_back total input) in *.
  assert (zlen front = 20) as Hf by apply zlen_record_front.
  assert (exists p', p = front ++ le_bytes 4 (record_crc total input) ++ p' /\ back = p' ++ w ++ s)
    as (p' & -> & Hback).
  { exists (zdrop 24 p). rewrite app_assoc in Hbs. set (h := front ++ _) in *.
    assert (zlen h = 24) as Hh by (unfold h; zl).
    assert (h = ztake 24 p) as Hhp.
    { rewrite <- (ztake_app_le 24 p (w ++ s)), <- Hbs by lia. by rewrite ztake_app_le, ztake_all by lia. }
    split.
    - rewrite app_assoc. fold h. rewrite Hhp. by rewrite ztake_zdrop.
    - rewrite <- (ztake_zdrop 24 p), <- app_assoc, <- Hhp in Hbs. by apply app_inv_head in Hbs. }
  rewrite <- !app_assoc. apply decode_record_bad_crc; [done|apply record_crc_range|..].
  - fold total. zl.
  - fold total front. rewrite !app_assoc, ztake_app_le, ztake_all by zl. rewrite <- !app_assoc.
    unfold record_crc. fold front back. rewrite Hback, !Forall_app in *. 
    rewrite !(app_assoc (zeros 4)), !(app_assoc front).
    apply crc32c_window_neq; try done. rewrite !Forall_app. naive_solver auto using bytes_ok_zeros.
Qed.

(** ** Witnesses *)

Definition sample_input : RecordInput :=
  {| in_sequence := 7; in_opcode := Opcode_put; in_type := ValueType_bytes; in_flags := 3;
     in_key_hash := 12345678901234567890; in_expire_at_ns := 0;
     in_key := [107; 101; 121]; in_value := [0; 255; 1; 2; 3; 4; 5; 6; 7] |}.

Lemma sample_input_ok : RecordInput_ok sample_input.
Proof.
  unfold RecordInput_ok, sample_input. cbn. unfold_consts. width. split_and!; try lia; bytes_eval.
Qed.
Lemma sample_encodable : encodable sample_input.
Proof. split_and!; [by left|done..]. Qed.

Lemma record_roundtrip_witness :
  RecordInput_ok sample_input /\ encodable sample_input /\
  exists bs, encode_record true sample_input = Ok bs /\ zlen bs = record_size sample_input /\
    decode_record (bs ++ [1; 2; 3]) true = Ok (view_of sample_input).
Proof.
  split_and!; [apply sample_input_ok|apply sample_encodable|].
  apply (record_roundtrip true true sample_input [1; 2; 3]);
    [apply sample_input_ok|apply sample_encodable].
Defined.

Lemma record_canonical_witness :
  encode_record false (input_of (view_of sample_input)) =
  Ok (ztake 72 (record_bytes sample_input ++ [9; 9])).
Proof.
  apply (record_canonical false (record_bytes sample_input ++ [9; 9]) (view_of sample_input)).
  - apply Forall_app_2; [apply record_bytes_ok, sample_input_ok|bytes_eval].
  - vm_compute. reflexivity.
Defined.

Lemma decode_record_safe_witness :
  match decode_record (record_bytes sample_input) true with
  | Ok v => kEncodedRecordHeaderSize <= rv_encoded_size v <= zlen (record_bytes sample_input) /\
            rv_encoded_size v <= kMaxNormalRecordSize /\ encodable (input_of v)
  | Err e => e = invalid_record \/ e = checksum_mismatch /\ true = true
  | Stuck _ => False
  end.
Proof.
  apply (decode_record_safe (record_bytes sample_input) true).
  apply record_bytes_ok, sample_input_ok.
Defined.

Lemma record_corruption_detected_witness :
  decode_record (ztake 60 (record_bytes sample_input) ++ [8; 8] ++
                 zdrop 62 (record_bytes sample_input) ++ [1]) true = Err checksum_mismatch.
Proof.
  apply (record_corruption_detected true sample_input (ztake 60 (record_bytes sample_input))
    (slice 60 2 (record_bytes sample_input)) [8; 8] (zdrop 62 (record_bytes sample_input)) [1]).
  - apply sample_input_ok.
  - vm_compute. reflexivity.
  - vm_compute. discriminate.
  - bytes_eval.
  - vm_compute. reflexivity.
  - vm_compute. lia.
  - vm_compute. discriminate.
Defined.
