(* ===== verification/SegmentHeader.v ===== *)
(** * Segment headers

    Models src/segment/segment_header.cpp and its header: the 4096 reserved bytes
    at the start of a segment file, with the immutable identity and the two
    commit slots that are written alternately.  The theorems show that both
    codecs round-trip, that a slot read as valid is the canonical encoding of its
    commit, that a damaged slot is never mistaken for a commit, and that recovery
    picks the newest valid slot. *)

From S2P Require Import Prelude Core Crc32c Record.

Definition kSegmentHeaderMagic : Z := 0x48594C47.
Definition kSegmentCommitMagic : Z := 0x43594C47.
Definition kSegmentHeaderFormatVersion : Z := 1.
Definition kSegmentFormatVersion : Z := 1.
Definition kSegmentCommitFormatVersion : Z := 1.
Definition kSegmentImmutableHeaderBytes : Z := 128.
Definition kSegmentCommitSlotBytes : Z := 128.
Definition kSegmentCommitSlotCount : nat := 2.
Definition kSegmentCommitSlotsOffset : Z := kSegmentImmutableHeaderBytes.

Definition kImmutableChecksumOffset : Z := 52.
Definition kCommitChecksumOffset : Z := 48.
Definition kChecksumBytes : Z := 4.

(** [enum class PersistedSegmentState : std::uint16_t] holds any 16-bit value. *)
Definition PersistedSegmentState_active : Z := 1.
Definition PersistedSegmentState_sealed : Z := 2.

(** [StoreId] is an array of 16 bytes. *)
Record SegmentHeaderIdentity := mkIdentity {
  id_store_id : list Z;
  id_segment_id : Z;
  id_generation : Z;
  id_owner_worker : Z
}.

Record SegmentCommit := mkCommit {
  commit_generation : Z;
  committed_end : Z;
  commit_state : Z;
  record_count : Z;
  first_sequence : Z;
  last_sequence : Z
}.

#[export] Instance SegmentHeaderIdentity_eq_dec : EqDecision SegmentHeaderIdentity.
Proof. solve_decision. Defined.
#[export] Instance SegmentCommit_eq_dec : EqDecision SegmentCommit.
Proof. solve_decision. Defined.

Inductive CommitSlotValidity := slot_empty | slot_valid | slot_invalid.

#[export] Instance CommitSlotValidity_eq_dec : EqDecision CommitSlotValidity.
Proof. solve_decision. Defined.

Record DecodedCommitSlot := mkSlot {
  validity : CommitSlotValidity;
  slot_commit : option SegmentCommit
}.

(** The arrays of two slots are lists; [SegmentHeader_ok] fixes their length. *)
Record SegmentHeader := mkHeader {
  header_identity : SegmentHeaderIdentity;
  header_commits : list (option SegmentCommit)
}.

Record DecodedSegmentHeader := mkDecodedHeader {
  decoded_identity : SegmentHeaderIdentity;
  decoded_slots : list DecodedCommitSlot
}.

Record SelectedSegmentCommit := mkSelected {
  slot_index : Z;
  selected_commit : SegmentCommit
}.

(** [checksum_with_zeroed_field<Size>] *)
Definition checksum_with_zeroed_field (Size : Z) (bytes : list Z) (checksum_offset : Z) : Result Z :=
  let? copy := first bytes Size in
  let? copy := memcpy copy checksum_offset (zeros kChecksumBytes) in
  Ok (crc32c copy).

Definition validate_identity (identity : SegmentHeaderIdentity) : Status :=
  if all_zero (id_store_id identity) then Err invalid_argument
  else if (id_segment_id identity =? 0) || (id_generation identity =? 0) then Err invalid_argument
  else Ok tt.

Definition validate_commit (commit : SegmentCommit) : Status :=
  if commit_generation commit =? 0 then Err invalid_argument
  else if (committed_end commit <? kSegmentHeaderReservedBytes) ||
          (committed_end commit >? kSegmentSizeBytes) ||
          negb (committed_end commit mod kRecordAlignment =? 0)
  then Err invalid_argument
  else
  let state := commit_state commit in
  if negb (state =? PersistedSegmentState_active) && negb (state =? PersistedSegmentState_sealed)
  then Err invalid_argument
  else if record_count commit =? 0
  then if negb (committed_end commit =? kSegmentHeaderReservedBytes) ||
          negb (first_sequence commit =? 0) || negb (last_sequence commit =? 0)
       then Err invalid_argument else Ok tt
  else if (committed_end commit =? kSegmentHeaderReservedBytes) || (first_sequence commit =? 0) ||
          (last_sequence commit <? first_sequence commit)
  then Err invalid_argument
  else Ok tt.

Definition invalid_slot : DecodedCommitSlot := mkSlot slot_invalid None.

Definition encode_segment_commit_slot (out : list Z) (commit : SegmentCommit) : Result (list Z) :=
  if zlen out <? kSegmentCommitSlotBytes then Err invalid_argument
  else
  validate_commit commit ;;?
  let encoded := zeros kSegmentCommitSlotBytes in
  let? encoded := put_u32 encoded 0 kSegmentCommitMagic in
  let? encoded := put_u16 encoded 4 kSegmentCommitFormatVersion in
  let? encoded := put_u16 encoded 6 (u16 kSegmentCommitSlotBytes) in
  let? encoded := put_u64 encoded 8 (commit_generation commit) in
  let? encoded := put_u32 encoded 16 (committed_end commit) in
  let? encoded := put_u16 encoded 20 (commit_state commit) in
  let? encoded := put_u16 encoded 22 0 in
  let? encoded := put_u64 encoded 24 (record_count commit) in
  let? encoded := put_u64 encoded 32 (first_sequence commit) in
  let? encoded := put_u64 encoded 40 (last_sequence commit) in
  let? sum := checksum_with_zeroed_field kSegmentCommitSlotBytes encoded kCommitChecksumOffset in
  let? encoded := put_u32 encoded kCommitChecksumOffset sum in
  memcpy out 0 encoded.

Definition decode_segment_commit_slot (bytes : list Z) : Result DecodedCommitSlot :=
  if zlen bytes <? kSegmentCommitSlotBytes then Err invalid_record
  else
  let? encoded := first bytes kSegmentCommitSlotBytes in
  if all_zero encoded then Ok (mkSlot slot_empty None)
  else
  let? bad := get_u32 encoded 0 <>? kSegmentCommitMagic ||?
              get_u16 encoded 6 <>? kSegmentCommitSlotBytes in
  if (bad : bool) then Ok invalid_slot
  else
  let? sum := checksum_with_zeroed_field kSegmentCommitSlotBytes encoded kCommitChecksumOffset in
  let? bad := get_u32 encoded kCommitChecksumOffset <>? sum in
  if (bad : bool) then Ok invalid_slot
  else
  let? bad := get_u16 encoded 4 <>? kSegmentCommitFormatVersion in
  if (bad : bool) then Err invalid_record
  else
  let? bad := get_u16 encoded 22 <>? 0 ||?
              (let? rest := subspan_from encoded 52 in Ok (negb (all_zero rest))) in
  if (bad : bool) then Ok invalid_slot
  else
  let? generation := get_u64 encoded 8 in
  let? end_ := get_u32 encoded 16 in
  let? state := get_u16 encoded 20 in
  let? count := get_u64 encoded 24 in
  let? first_seq := get_u64 encoded 32 in
  let? last_seq := get_u64 encoded 40 in
  let commit := {| commit_generation := generation; committed_end := end_; commit_state := state;
                   record_count := count; first_sequence := first_seq; last_sequence := last_seq |} in
  if negb (is_Ok (validate_commit commit)) then Ok invalid_slot
  else Ok (mkSlot slot_valid (Some commit)).

(** The two commits disagree on the same generation. *)
Definition conflicting (commits : list (option SegmentCommit)) : bool :=
  match commits with
  | [Some first; Some second] =>
      (commit_generation first =? commit_generation second) && negb (bool_decide (first = second))
  | _ => false
  end.

(** [for (index = 0; index < header.commits.size(); ++index)] of the encoder. *)
Fixpoint encode_slots (encoded : list Z) (index : Z) (commits : list (option SegmentCommit)) :
    Result (list Z) :=
  match commits with
  | [] => Ok encoded
  | None :: commits => encode_slots encoded (index + 1) commits
  | Some commit :: commits =>
      let offset := kSegmentCommitSlotsOffset + index * kSegmentCommitSlotBytes in
      let? slot := subspan encoded offset kSegmentCommitSlotBytes in
      let? slot := encode_segment_commit_slot slot commit in
      let? encoded := memcpy encoded offset slot in
      encode_slots encoded (index + 1) commits
  end.

Definition encode_segment_header (out : list Z) (header : SegmentHeader) : Result (list Z) :=
  if zlen out <? kSegmentHeaderReservedBytes then Err invalid_argument
  else
  let identity := header_identity header in
  validate_identity identity ;;?
  if conflicting (header_commits header) then Err invalid_argument
  else
  let encoded := zeros kSegmentHeaderReservedBytes in
  let? encoded := put_u32 encoded 0 kSegmentHeaderMagic in
  let? encoded := put_u16 encoded 4 kSegmentHeaderFormatVersion in
  let? encoded := put_u16 encoded 6 (u16 kSegmentImmutableHeaderBytes) in
  let? encoded := put_u16 encoded 8 kSegmentFormatVersion in
  let? encoded := put_u16 encoded 10 kRecordFormatVersion in
  let? encoded := put_u32 encoded 12 (u32 kSegmentHeaderReservedBytes) in
  let? encoded := memcpy encoded 16 (id_store_id identity) in
  let? encoded := put_u64 encoded 32 (id_segment_id identity) in
  let? encoded := put_u32 encoded 40 (id_generation identity) in
  let? encoded := put_u32 encoded 44 (id_owner_worker identity) in
  let? encoded := put_u32 encoded 48 0 in
  let? sum := checksum_with_zeroed_field kSegmentImmutableHeaderBytes encoded kImmutableChecksumOffset in
  let? encoded := put_u32 encoded kImmutableChecksumOffset sum in
  let? encoded := encode_slots encoded 0 (header_commits header) in
  memcpy out 0 encoded.

(** [for (index = 0; index < header.slots.size(); ++index)] of the decoder. *)
Fixpoint decode_slots (n : nat) (encoded : list Z) (index : Z) : Result (list DecodedCommitSlot) :=
  match n with
  | O => Ok []
  | S n =>
      let offset := kSegmentCommitSlotsOffset + index * kSegmentCommitSlotBytes in
      let? bytes := subspan encoded offset kSegmentCommitSlotBytes in
      let? slot := decode_segment_commit_slot bytes in
      let? slots := decode_slots n encoded (index + 1) in
      Ok (slot :: slots)
  end.

Definition nonzero_at (encoded : list Z) (at_ n : Z) : Result bool :=
  let? bytes := subspan encoded at_ n in Ok (negb (all_zero bytes)).

Definition decode_segment_header (bytes : list Z) : Result DecodedSegmentHeader :=
  if zlen bytes <? kSegmentHeaderReservedBytes then Err invalid_record
  else
  let? encoded := first bytes kSegmentHeaderReservedBytes in
  let tail := kSegmentCommitSlotsOffset + Z.of_nat kSegmentCommitSlotCount * kSegmentCommitSlotBytes in
  let? bad := get_u32 encoded 0 <>? kSegmentHeaderMagic ||?
              get_u16 encoded 4 <>? kSegmentHeaderFormatVersion ||?
              get_u16 encoded 6 <>? kSegmentImmutableHeaderBytes ||?
              get_u16 encoded 8 <>? kSegmentFormatVersion ||?
              get_u16 encoded 10 <>? kRecordFormatVersion ||?
              get_u32 encoded 12 <>? kSegmentHeaderReservedBytes ||?
              get_u32 encoded 48 <>? 0 ||?
              nonzero_at encoded 56 (kSegmentImmutableHeaderBytes - 56) ||?
              nonzero_at encoded tail (zlen encoded - tail) in
  if (bad : bool) then Err invalid_record
  else
  let? sum := checksum_with_zeroed_field kSegmentImmutableHeaderBytes encoded kImmutableChecksumOffset in
  let? bad := get_u32 encoded kImmutableChecksumOffset <>? sum in
  if (bad : bool) then Err checksum_mismatch
  else
  let? store_id := subspan encoded 16 16 in
  let? segment_id := get_u64 encoded 32 in
  let? generation := get_u32 encoded 40 in
  let? owner := get_u32 encoded 44 in
  let identity := {| id_store_id := store_id; id_segment_id := segment_id;
                     id_generation := generation; id_owner_worker := owner |} in
  or_fail (validate_identity identity) invalid_record ;;?
  let? slots := decode_slots kSegmentCommitSlotCount encoded 0 in
  Ok (mkDecodedHeader identity slots).

(** The loop of [select_newest_segment_commit]. *)
Fixpoint select_loop (selected : option SelectedSegmentCommit) (index : Z)
    (slots : list DecodedCommitSlot) : Result (option SelectedSegmentCommit) :=
  match slots with
  | [] => Ok selected
  | slot :: slots =>
      match validity slot, slot_commit slot with
      | slot_valid, Some commit =>
          match selected with
          | None => select_loop (Some (mkSelected index commit)) (index + 1) slots
          | Some s =>
              if commit_generation commit >? commit_generation (selected_commit s)
              then select_loop (Some (mkSelected index commit)) (index + 1) slots
              else if (commit_generation commit =? commit_generation (selected_commit s)) &&
                      negb (bool_decide (commit = selected_commit s))
              then Err corrupted_data
              else select_loop selected (index + 1) slots
          end
      | _, _ => select_loop selected (index + 1) slots
      end
  end.

Definition select_newest_segment_commit (header : DecodedSegmentHeader) : Result SelectedSegmentCommit :=
  let? selected := select_loop None 0 (decoded_slots header) in
  match selected with
  | Some s => Ok s
  | None => Err corrupted_data
  end.

(** ** The commit slot format *)

Definition commit_ok (c : SegmentCommit) : Prop :=
  is_u64 (commit_generation c) /\ is_u32 (committed_end c) /\ is_u16 (commit_state c) /\
  is_u64 (record_count c) /\ is_u64 (first_sequence c) /\ is_u64 (last_sequence c).

(** What a commit of a segment may say. *)
Definition commit_valid (c : SegmentCommit) : Prop :=
  commit_generation c <> 0 /\
  kSegmentHeaderReservedBytes <= committed_end c <= kSegmentSizeBytes /\
  committed_end c mod kRecordAlignment = 0 /\
  (commit_state c = PersistedSegmentState_active \/ commit_state c = PersistedSegmentState_sealed) /\
  (record_count c = 0 /\ committed_end c = kSegmentHeaderReservedBytes /\
     first_sequence c = 0 /\ last_sequence c = 0 \/
   record_count c <> 0 /\ committed_end c <> kSegmentHeaderReservedBytes /\
     first_sequence c <> 0 /\ first_sequence c <= last_sequence c).

Definition commit_front (c : SegmentCommit) : list Z :=
  le_bytes 4 kSegmentCommitMagic ++ le_bytes 2 kSegmentCommitFormatVersion ++
  le_bytes 2 kSegmentCommitSlotBytes ++ le_bytes 8 (commit_generation c) ++
  le_bytes 4 (committed_end c) ++ le_bytes 2 (commit_state c) ++ le_bytes 2 0 ++
  le_bytes 8 (record_count c) ++ le_bytes 8 (first_sequence c) ++ le_bytes 8 (last_sequence c).
Definition commit_bytes (c : SegmentCommit) : list Z :=
  commit_front c ++ le_bytes 4 (crc32c (commit_front c ++ zeros 80)) ++ zeros 76.

Lemma zlen_commit_front c : zlen (commit_front c) = 48.
Proof. unfold commit_front. zl. Qed.
#[export] Hint Rewrite zlen_commit_front : zlen.
Lemma zlen_commit_bytes c : zlen (commit_bytes c) = 128.
Proof. unfold commit_bytes. zl. Qed.
#[export] Hint Rewrite zlen_commit_bytes : zlen.

Lemma commit_bytes_ok c : bytes_ok (commit_bytes c).
Proof.
  unfold commit_bytes, commit_front.
  repeat apply Forall_app_2; auto using bytes_ok_zeros; apply le_bytes_ok; lia.
Qed.

Lemma validate_commit_cases c :
  validate_commit c = Ok tt /\ commit_valid c \/
  validate_commit c = Err invalid_argument /\ ~ commit_valid c.
Proof.
  unfold validate_commit, commit_valid.
  repeat match goal with
  | |- context [if ?b then _ else _] =>
      let E := fresh "E" in destruct b eqn:E;
      rewrite ?orb_true_iff, ?orb_false_iff, ?andb_true_iff, ?andb_false_iff, ?Z.gtb_ltb,
        ?negb_true_iff, ?negb_false_iff, ?Z.eqb_eq, ?Z.eqb_neq, ?Z.ltb_lt, ?Z.ltb_ge in E
  end; first [left; split; [done|]; lia | right; split; [done|]; lia].
Qed.

Lemma validate_commit_Ok c : validate_commit c = Ok tt <-> commit_valid c.
Proof. destruct (validate_commit_cases c) as [[-> Hc]|[-> Hc]]; split; done. Qed.

(** The checksum of a copy with its field zeroed. *)
Lemma checksum_with_zeroed_field_in Size bs off : 0 <= off -> off + 4 <= Size <= zlen bs ->
  checksum_with_zeroed_field Size bs off =
  Ok (crc32c (ztake off bs ++ zeros 4 ++ slice (off + 4) (Size - off - 4) bs)).
Proof.
  intros. unfold checksum_with_zeroed_field, kChecksumBytes.
  rewrite first_in by lia. cbn [bindR]. rewrite memcpy_in by zl. cbn [bindR].
  do 2 f_equal. rewrite zlen_zeros by lia.
  rewrite <- (zdrop_0 bs). change (ztake ?n (zdrop 0 bs)) with (slice 0 n bs).
  change (ztake off (slice 0 Size bs)) with (slice 0 off (slice 0 Size bs)).
  rewrite slice_slice by lia. do 2 f_equal.
  rewrite <- (slice_rest _ (Size - off - 4)) by zl. by rewrite slice_slice by lia.
Qed.

Lemma commit_bytes_checksum c crc : 
  let bs := commit_front c ++ le_bytes 4 crc ++ zeros 76 in
  checksum_with_zeroed_field kSegmentCommitSlotBytes bs kCommitChecksumOffset =
  Ok (crc32c (commit_front c ++ zeros 80)).
Proof.
  intros bs. unfold kSegmentCommitSlotBytes, kCommitChecksumOffset.
  rewrite checksum_with_zeroed_field_in by (unfold bs; zl).
  apply (f_equal (fun x => Ok (crc32c x))). unfold bs. rewrite ztake_app_le, ztake_all by zl.
  by rewrite slice_app_r, slice_app_r, slice_zeros, zeros_app by zl.
Qed.

Lemma encode_commit_slot_Ok out c : 128 <= zlen out -> commit_valid c ->
  encode_segment_commit_slot out c = Ok (commit_bytes c ++ zdrop 128 out).
Proof.
  intros Hl Hv. unfold encode_segment_commit_slot, kSegmentCommitSlotBytes at 1.
  destruct (Z.ltb_spec (zlen out) 128); [lia|].
  rewrite (proj2 (validate_commit_Ok c)) by done. cbn [bindR].
  set (o := zeros kSegmentCommitSlotBytes).
  assert (zlen o = 128) as Ho by (unfold o, kSegmentCommitSlotBytes; zl).
  change (u16 kSegmentCommitSlotBytes) with kSegmentCommitSlotBytes.
  change o with ([] ++ zdrop 0 o). fill.
  change (zdrop 48 o) with (zeros 4 ++ zeros 76).
  rewrite <- !app_assoc. cbn [app].
  assert (Hf : forall x, le_bytes 4 kSegmentCommitMagic ++ le_bytes 2 kSegmentCommitFormatVersion ++
    le_bytes 2 kSegmentCommitSlotBytes ++ le_bytes 8 (commit_generation c) ++
    le_bytes 4 (committed_end c) ++ le_bytes 2 (commit_state c) ++ le_bytes 2 0 ++
    le_bytes 8 (record_count c) ++ le_bytes 8 (first_sequence c) ++ le_bytes 8 (last_sequence c) ++ x
    = commit_front c ++ x) by (intros; unfold commit_front; by rewrite <- !app_assoc).
  rewrite Hf. rewrite <- (le_bytes_0 4), commit_bytes_checksum by lia. cbn [bindR].
  unfold kCommitChecksumOffset. rewrite put_u32_over by zl. cbn [bindR].
  fold (commit_bytes c). change out with ([] ++ zdrop 0 out) at 1.
  by rewrite (memcpy_fill [] out 0 128 (commit_bytes c)) by zl.
Qed.

Ltac unfold_header :=
  unfold kSegmentCommitSlotsOffset in *;
  unfold kSegmentHeaderMagic, kSegmentCommitMagic, kSegmentHeaderFormatVersion, kSegmentFormatVersion,
    kSegmentCommitFormatVersion, kSegmentImmutableHeaderBytes, kSegmentCommitSlotBytes,
    kSegmentCommitSlotCount, kImmutableChecksumOffset,
    kCommitChecksumOffset, kChecksumBytes, kSegmentHeaderReservedBytes, kRecordFormatVersion in *.

Ltac commit_field bs := unfold bs, commit_front; known_field.

Lemma decode_commit_slot_bytes c tail : commit_ok c -> commit_valid c ->
  decode_segment_commit_slot (commit_bytes c ++ tail) = Ok (mkSlot slot_valid (Some c)).
Proof.
  intros (Hg & He & Hs & Hr & Hf & Hl) Hv. pose proof (zlen_nonneg tail).
  unfold decode_segment_commit_slot, kSegmentCommitSlotBytes at 1.
  destruct (Z.ltb_spec (zlen (commit_bytes c ++ tail)) 128); [zl|].
  unfold kSegmentCommitSlotBytes at 1. rewrite first_in by zl. cbn [bindR].
  rewrite ztake_app_le, ztake_all by zl. unfold commit_bytes.
  set (crc := crc32c (commit_front c ++ zeros 80)).
  assert (is_u32 crc) as Hcrc by (apply wrap_range; lia).
  rewrite commit_bytes_checksum. fold crc. cbn [bindR].
  set (bs := commit_front c ++ _).
  assert (zlen bs = 128) as Hlen by (unfold bs; zl).
  unfold_header. reads.
  assert (le_value (slice 0 4 bs) = 0x43594C47) as -> by (commit_field bs).
  assert (le_value (slice 4 2 bs) = 1) as -> by commit_field bs.
  assert (le_value (slice 6 2 bs) = 128) as -> by commit_field bs.
  assert (le_value (slice 8 8 bs) = commit_generation c) as -> by commit_field bs.
  assert (le_value (slice 16 4 bs) = committed_end c) as -> by commit_field bs.
  assert (le_value (slice 20 2 bs) = commit_state c) as -> by commit_field bs.
  assert (le_value (slice 22 2 bs) = 0) as -> by commit_field bs.
  assert (le_value (slice 24 8 bs) = record_count c) as -> by commit_field bs.
  assert (le_value (slice 32 8 bs) = first_sequence c) as -> by commit_field bs.
  assert (le_value (slice 40 8 bs) = last_sequence c) as -> by commit_field bs.
  assert (le_value (slice 48 4 bs) = crc) as -> by commit_field bs.
  assert (all_zero bs = false) as ->.
  { apply not_true_is_false. rewrite all_zero_true, Hlen. intros E.
    assert (le_value (slice 0 4 bs) = 0x43594C47) as Hm by commit_field bs.
    by rewrite E in Hm. }
  checks. unfold subspan_from. rewrite Hlen, subspan_in by lia. cbn [bindR].
  assert (slice 52 (128 - 52) bs = zeros 76) as -> by (unfold bs; by locate_field).
  rewrite all_zero_zeros. checks. destruct c; cbn [commit_generation committed_end
    commit_state record_count first_sequence last_sequence] in *.
  by rewrite (proj2 (validate_commit_Ok _)) by done.
Qed.

(** What the slot decoder says of arbitrary bytes. *)
Lemma decode_commit_slot_cases bs : bytes_ok bs ->
  let stored := le_value (slice 48 4 bs) in
  let computed := crc32c (ztake 48 bs ++ zeros 4 ++ slice 52 76 bs) in
  match decode_segment_commit_slot bs with
  | Ok (mkSlot slot_empty None) => ztake 128 bs = zeros 128
  | Ok (mkSlot slot_valid (Some c)) =>
      commit_ok c /\ commit_valid c /\ stored = computed /\ ztake 128 bs = commit_bytes c
  | Ok (mkSlot slot_invalid None) => True
  | Err e => e = invalid_record /\ (zlen bs < 128 \/ stored = computed)
  | _ => False
  end.
Proof.
  intros Hbs stored computed. unfold decode_segment_commit_slot. unfold_header.
  destruct (Z.ltb_spec (zlen bs) 128) as [|Hl]; [auto|].
  rewrite first_in by lia. cbn [bindR]. set (enc := ztake 128 bs).
  assert (zlen enc = 128) as Hle by (unfold enc; zl).
  assert (bytes_ok enc) as Hbe by (by apply (bytes_ok_slice bs 0 128)).
  assert (Hs : forall a n, 0 <= a -> 0 <= n -> a + n <= 128 -> slice a n enc = slice a n bs)
    by (intros; unfold enc; by rewrite slice_ztake by lia).
  destruct (all_zero enc) eqn:E0.
  { apply all_zero_true in E0. by rewrite Hle in E0. }
  rewrite checksum_with_zeroed_field_in by lia. reads. rewrite !neR_Ok, !orR_Ok. cbn [bindR].
  assert (ztake 48 enc = ztake 48 bs) as -> by (apply (Hs 0 48); lia).
  rewrite !Hs by lia. change (48 + 4) with 52. change (128 - 48 - 4) with 76.
  fold stored computed.
  head_if E1; [done|]. rewrite neR_Ok. cbn [bindR].
  head_if E2; [done|]. head_if E3; [by b2p; auto|].
  unfold subspan_from. rewrite Hle, subspan_in by lia. cbn [bindR].
  rewrite orR_Ok. cbn [bindR]. head_if E4; [done|]. b2p. change (128 - 52) with 76 in *.
  rewrite Hs, all_zero_true, zlen_slice in * by lia.
  match goal with |- context [validate_commit ?c] => set (cm := c) end.
  destruct (validate_commit_cases cm) as [[-> Hv]|[-> Hv]]; cbn [is_Ok negb]; [|done].
  assert (commit_ok cm) as Hok.
  { unfold commit_ok, cm; cbn. split_and!; rewrite <- Hs by lia;
      match goal with |- is_uint _ (le_value (slice ?a ?n enc)) =>
        apply (is_uint_slice enc a n); (done || lia) end. }
  split_and!; try done.
  assert (ztake 48 bs = commit_front cm) as Hfront.
  { unfold commit_front, cm. cbn [commit_generation committed_end commit_state record_count
      first_sequence last_sequence]. unfold_header.
    change (ztake 48 bs) with (slice 0 48 bs). match_fields bs. }
  unfold enc. change (ztake 128 bs) with (slice 0 128 bs). unfold commit_bytes.
  replace (le_bytes 4 _) with (slice 48 4 bs).
  - rewrite <- Hfront, <- H0. change (ztake 48 bs) with (slice 0 48 bs). by split_fields bs.
  - rewrite (slice_le_bytes bs 48 4) by (done || lia). fold stored. rewrite E2. unfold computed.
    rewrite Hfront, H0, zeros_app by lia. reflexivity.
Qed.

(** ** The header format *)

Definition identity_ok (i : SegmentHeaderIdentity) : Prop :=
  zlen (id_store_id i) = 16 /\ bytes_ok (id_store_id i) /\ is_u64 (id_segment_id i) /\
  is_u32 (id_generation i) /\ is_u32 (id_owner_worker i).
Definition identity_valid (i : SegmentHeaderIdentity) : Prop :=
  id_store_id i <> zeros (zlen (id_store_id i)) /\ id_segment_id i <> 0 /\ id_generation i <> 0.

Definition identity_front (i : SegmentHeaderIdentity) : list Z :=
  le_bytes 4 kSegmentHeaderMagic ++ le_bytes 2 kSegmentHeaderFormatVersion ++
  le_bytes 2 kSegmentImmutableHeaderBytes ++ le_bytes 2 kSegmentFormatVersion ++
  le_bytes 2 kRecordFormatVersion ++ le_bytes 4 kSegmentHeaderReservedBytes ++
  id_store_id i ++ le_bytes 8 (id_segment_id i) ++ le_bytes 4 (id_generation i) ++
  le_bytes 4 (id_owner_worker i) ++ le_bytes 4 0.
Definition identity_bytes (i : SegmentHeaderIdentity) : list Z :=
  identity_front i ++ le_bytes 4 (crc32c (identity_front i ++ zeros 76)) ++ zeros 72.
Definition slot_bytes (c : option SegmentCommit) : list Z :=
  match c with Some c => commit_bytes c | None => zeros 128 end.
Definition header_bytes (i : SegmentHeaderIdentity) (slots : list Z) : list Z :=
  identity_bytes i ++ slots ++ zeros 3712.

Definition slot_of (c : option SegmentCommit) : DecodedCommitSlot :=
  match c with Some c => mkSlot slot_valid (Some c) | None => mkSlot slot_empty None end.
Definition slot_ok (c : option SegmentCommit) : Prop :=
  match c with Some c => commit_ok c /\ commit_valid c | None => True end.
Definition SegmentHeader_ok (h : SegmentHeader) : Prop :=
  identity_ok (header_identity h) /\ identity_valid (header_identity h) /\
  length (header_commits h) = kSegmentCommitSlotCount /\ Forall slot_ok (header_commits h) /\
  conflicting (header_commits h) = false.

Lemma validate_identity_cases i :
  validate_identity i = Ok tt /\ identity_valid i \/
  validate_identity i = Err invalid_argument /\ ~ identity_valid i.
Proof.
  unfold validate_identity, identity_valid.
  destruct (all_zero (id_store_id i)) eqn:E; [apply all_zero_true in E; naive_solver|].
  apply not_true_iff_false in E. rewrite all_zero_true in E.
  destruct (Z.eqb_spec (id_segment_id i) 0), (Z.eqb_spec (id_generation i) 0); simpl; naive_solver.
Qed.

Lemma zlen_identity_front i : zlen (id_store_id i) = 16 -> zlen (identity_front i) = 52.
Proof. intros H. unfold identity_front. autorewrite with zlen. rewrite H. lia. Qed.
Lemma zlen_identity_bytes i : zlen (id_store_id i) = 16 -> zlen (identity_bytes i) = 128.
Proof. intros H. unfold identity_bytes. rewrite zlen_app, zlen_identity_front by done. zl. Qed.
Lemma zlen_slot_bytes c : zlen (slot_bytes c) = 128.
Proof. destruct c; simpl; zl. Qed.
#[export] Hint Rewrite zlen_slot_bytes : zlen.

Lemma encode_slots_Ok commits p index r :
  zlen p = 128 + index * 128 -> 0 <= index -> 0 <= r -> Forall slot_ok commits ->
  encode_slots (p ++ zeros (128 * zlen commits + r)) index commits =
  Ok (p ++ concat (slot_bytes <$> commits) ++ zeros r).
Proof.
  intros Hp Hi Hr Hc. revert p index Hp Hi.
  induction Hc as [|c cs Hc Hcs IH]; intros p index Hp Hi; [done|].
  pose proof (zlen_nonneg cs). pose proof (zlen_nonneg p).
  rewrite zlen_cons. replace (128 * (1 + zlen cs) + r) with (128 + (128 * zlen cs + r)) by lia.
  rewrite <- zeros_app by lia. destruct c as [c|]; cbn [encode_slots].
  - destruct Hc as [Hok Hv]. unfold_header. rewrite <- Hp.
    rewrite subspan_in by zl. cbn [bindR].
    rewrite slice_app_r, Z.sub_diag, slice_app_l, slice_whole by zl.
    rewrite encode_commit_slot_Ok, zdrop_all, app_nil_r by (done || zl). cbn [bindR].
    rewrite memcpy_over by zl. cbn [bindR]. rewrite app_assoc, IH by zl.
    cbn [fmap list_fmap concat slot_bytes]. by rewrite <- !app_assoc.
  - rewrite app_assoc, IH by zl. cbn [fmap list_fmap concat slot_bytes]. by rewrite <- !app_assoc.
Qed.

Lemma decode_commit_slot_empty : decode_segment_commit_slot (zeros 128) = Ok (mkSlot slot_empty None).
Proof. vm_compute. reflexivity. Qed.

Lemma decode_slot_bytes c : slot_ok c -> decode_segment_commit_slot (slot_bytes c) = Ok (slot_of c).
Proof.
  destruct c as [c|]; simpl; [intros [??]|intros; apply decode_commit_slot_empty].
  rewrite <- (app_nil_r (commit_bytes c)). by apply decode_commit_slot_bytes.
Qed.

Lemma slot_bytes_ok c : bytes_ok (slot_bytes c).
Proof. destruct c; [apply commit_bytes_ok|apply bytes_ok_zeros]. Qed.

(** The slots of a header are decoded independently of each other. *)
Lemma decode_slots_spec p s0 s1 rest : zlen p = 128 -> zlen s0 = 128 -> zlen s1 = 128 ->
  decode_slots kSegmentCommitSlotCount (p ++ s0 ++ s1 ++ rest) 0 =
  let? d0 := decode_segment_commit_slot s0 in
  let? d1 := decode_segment_commit_slot s1 in
  Ok [d0; d1].
Proof.
  intros Hp H0 H1. pose proof (zlen_nonneg rest). unfold_header. cbn [decode_slots]. unfold_header.
  change (128 + 0 * 128) with 128. change (128 + (0 + 1) * 128) with 256.
  rewrite !subspan_in by zl. cbn [bindR].
  rewrite (slice_app_r 128), (slice_app_r 256), Hp by lia.
  change (128 - 128) with 0. change (256 - 128) with 128.
  rewrite (slice_app_l 0), slice_whole, slice_app_r, H0 by lia. change (128 - 128) with 0.
  rewrite slice_app_l, slice_whole by lia.
  destruct (decode_segment_commit_slot s0); [|done..]. cbn [bindR].
  by destruct (decode_segment_commit_slot s1).
Qed.

Lemma identity_checksum i crc rest : zlen (id_store_id i) = 16 ->
  let bs := identity_front i ++ le_bytes 4 crc ++ zeros 72 ++ rest in
  checksum_with_zeroed_field kSegmentImmutableHeaderBytes bs kImmutableChecksumOffset =
  Ok (crc32c (identity_front i ++ zeros 76)).
Proof.
  intros Hi bs. pose proof (zlen_identity_front i Hi). pose proof (zlen_nonneg rest).
  unfold_header. rewrite checksum_with_zeroed_field_in by (unfold bs; zl).
  apply (f_equal (fun x => Ok (crc32c x))). unfold bs. rewrite ztake_app_le, ztake_all by zl.
  rewrite slice_app_r, slice_app_r, slice_app_l by zl. autorewrite with zlen.
  by rewrite H, slice_zeros, zeros_app by lia.
Qed.

Lemma encode_segment_header_Ok out h : 4096 <= zlen out -> SegmentHeader_ok h ->
  encode_segment_header out h =
  Ok (header_bytes (header_identity h) (concat (slot_bytes <$> header_commits h)) ++ zdrop 4096 out).
Proof.
  intros Hl ((Hst & Hsb & _) & Hv & Hlen & Hslots & Hconf).
  unfold encode_segment_header, kSegmentHeaderReservedBytes at 1.
  destruct (Z.ltb_spec (zlen out) 4096); [lia|].
  destruct (validate_identity_cases (header_identity h)) as [[-> _]|[_ ?]]; [|done].
  cbn [bindR]. rewrite Hconf. set (i := header_identity h) in *.
  set (o := zeros kSegmentHeaderReservedBytes).
  assert (zlen o = 4096) as Ho by (unfold o, kSegmentHeaderReservedBytes; zl).
  change (u16 kSegmentImmutableHeaderBytes) with kSegmentImmutableHeaderBytes.
  change (u32 kSegmentHeaderReservedBytes) with kSegmentHeaderReservedBytes.
  change o with ([] ++ zdrop 0 o). fill. rewrite (memcpy_fill _ o 16 32) by zl. cbn [bindR]. fill.
  replace (zdrop 52 o) with (zeros 4 ++ zeros 72 ++ zeros 3968)
    by (unfold o, kSegmentHeaderReservedBytes; by rewrite zdrop_zeros, !zeros_app by lia).
  rewrite <- !app_assoc. cbn [app].
  match goal with |- context [checksum_with_zeroed_field _ ?e _] =>
    assert (e = identity_front i ++ zeros 4 ++ zeros 72 ++ zeros 3968) as ->
      by (unfold identity_front; by rewrite <- !app_assoc) end.
  rewrite <- (le_bytes_0 4) at 1 by lia. rewrite identity_checksum by done. cbn [bindR].
  unfold kImmutableChecksumOffset.
  rewrite put_u32_over by (rewrite ?zlen_identity_front; zl). cbn [bindR].
  replace (identity_front i ++ _) with (identity_bytes i ++ zeros (128 * zlen (header_commits h) + 3712)).
  2:{ unfold identity_bytes, zlen. rewrite Hlen. by rewrite <- !app_assoc. }
  rewrite encode_slots_Ok by (rewrite ?zlen_identity_bytes; done || lia). cbn [bindR].
  fold (header_bytes i (concat (slot_bytes <$> header_commits h))).
  change out with ([] ++ zdrop 0 out) at 1.
  rewrite (memcpy_fill [] out 0 4096); try done.
  destruct (header_commits h) as [|c0 [|c1 [|]]]; try done. unfold header_bytes. cbn.
  rewrite !zlen_app, zlen_identity_bytes by done. zl.
Qed.

Ltac identity_field bs := unfold bs, identity_front; known_field.

(** The header decoder over a well-formed identity and two slots of any contents. *)
Lemma decode_segment_header_layout i s0 s1 tail :
  identity_ok i -> identity_valid i -> zlen s0 = 128 -> zlen s1 = 128 ->
  decode_segment_header (header_bytes i (s0 ++ s1) ++ tail) =
  let? d0 := decode_segment_commit_slot s0 in
  let? d1 := decode_segment_commit_slot s1 in
  Ok (mkDecodedHeader i [d0; d1]).
Proof.
  intros (Hst & Hsb & Hsid & Hg & Hw) Hv H0 H1. pose proof (zlen_nonneg tail).
  pose proof (zlen_identity_bytes i Hst). pose proof (zlen_identity_front i Hst).
  unfold decode_segment_header. set (full := header_bytes i _ ++ tail).
  assert (zlen (header_bytes i (s0 ++ s1)) = 4096) as Hhl by (unfold header_bytes; zl).
  unfold kSegmentHeaderReservedBytes at 1.
  destruct (Z.ltb_spec (zlen full) 4096) as [Hs|_]; [unfold full in Hs; rewrite zlen_app in Hs; lia|].
  unfold kSegmentHeaderReservedBytes at 1.
  rewrite first_in by (unfold full; rewrite zlen_app; lia). cbn [bindR]. unfold full.
  rewrite ztake_app_le, ztake_all by lia. clear full.
  unfold header_bytes. rewrite <- app_assoc, decode_slots_spec by lia.
  unfold identity_bytes. rewrite <- !app_assoc. set (crc := crc32c (identity_front i ++ zeros 76)).
  assert (is_u32 crc) as Hcrc by (apply wrap_range; lia).
  rewrite identity_checksum by done. fold crc. cbn [bindR].
  set (bs := identity_front i ++ _).
  assert (zlen bs = 4096) as Hlen by (unfold bs; zl).
  unfold nonzero_at. unfold_header. rewrite Hlen, !subspan_in by lia. reads.
  assert (le_value (slice 0 4 bs) = 0x48594C47) as -> by identity_field bs.
  assert (le_value (slice 4 2 bs) = 1) as -> by identity_field bs.
  assert (le_value (slice 6 2 bs) = 128) as -> by identity_field bs.
  assert (le_value (slice 8 2 bs) = 1) as -> by identity_field bs.
  assert (le_value (slice 10 2 bs) = 1) as -> by identity_field bs.
  assert (le_value (slice 12 4 bs) = 4096) as -> by identity_field bs.
  assert (slice 16 16 bs = id_store_id i) as ->
    by (unfold bs, identity_front; rewrite <- ?app_assoc; by locate_field).
  assert (le_value (slice 32 8 bs) = id_segment_id i) as -> by identity_field bs.
  assert (le_value (slice 40 4 bs) = id_generation i) as -> by identity_field bs.
  assert (le_value (slice 44 4 bs) = id_owner_worker i) as -> by identity_field bs.
  assert (le_value (slice 48 4 bs) = 0) as -> by identity_field bs.
  assert (le_value (slice 52 4 bs) = crc) as -> by identity_field bs.
  change (128 - 56) with 72. change (128 + Z.of_nat 2 * 128) with 384.
  change (4096 - 384) with 3712.
  assert (slice 56 72 bs = zeros 72) as -> by (unfold bs; by locate_field).
  assert (slice 384 3712 bs = zeros 3712) as -> by (unfold bs; by locate_field).
  cbn [bindR]. rewrite !all_zero_zeros. checks.
  match goal with |- context [validate_identity ?j] => replace j with i by (by destruct i) end.
  destruct (validate_identity_cases i) as [[-> _]|[_ ?]]; [|done]. checks.
  destruct (decode_segment_commit_slot s0); [|done..]. cbn [bindR].
  by destruct (decode_segment_commit_slot s1).
Qed.

(** What the header decoder says of arbitrary bytes: the first 128 bytes are the
    canonical encoding of the identity, and each slot is decoded by itself. *)
Lemma decode_segment_header_cases bs : bytes_ok bs ->
  match decode_segment_header bs with
  | Ok d =>
      let i := decoded_identity d in
      identity_ok i /\ identity_valid i /\
      ztake 4096 bs = header_bytes i (slice 128 128 bs ++ slice 256 128 bs) /\
      exists d0 d1, decoded_slots d = [d0; d1] /\
        decode_segment_commit_slot (slice 128 128 bs) = Ok d0 /\
        decode_segment_commit_slot (slice 256 128 bs) = Ok d1
  | Err e => e = invalid_record \/ e = checksum_mismatch
  | Stuck _ => False
  end.
Proof.
  intros Hbs. unfold decode_segment_header. unfold_header.
  destruct (Z.ltb_spec (zlen bs) 4096) as [|Hl]; [auto|].
  rewrite first_in by lia. cbn [bindR]. set (enc := ztake 4096 bs).
  assert (zlen enc = 4096) as Hle by (unfold enc; zl).
  assert (Hs : forall a n, 0 <= a -> 0 <= n -> a + n <= 4096 -> slice a n enc = slice a n bs)
    by (intros; unfold enc; by rewrite slice_ztake by lia).
  unfold nonzero_at. rewrite Hle. change (128 - 56) with 72.
  change (128 + Z.of_nat 2 * 128) with 384. change (4096 - 384) with 3712.
  rewrite checksum_with_zeroed_field_in, !subspan_in by lia. reads. cbn [bindR].
  rewrite !neR_Ok, !orR_Ok. cbn [bindR].
  change (ztake 52 enc) with (slice 0 52 enc). rewrite !Hs by lia.
  change (52 + 4) with 56. change (128 - 52 - 4) with 72.
  set (crc := crc32c _). head_if E1; [by left|]. head_if E2; [by right|]. b2p.
  rewrite all_zero_true, zlen_slice in * by lia.
  match goal with |- context [validate_identity ?c] => set (i := c) end.
  destruct (validate_identity_cases i) as [[-> Hv]|[-> _]]; cbn [or_fail bindR]; [|by left].
  assert (identity_ok i) as Hok.
  { unfold identity_ok, i. cbn [id_store_id id_segment_id id_generation id_owner_worker].
    split_and!; [by rewrite zlen_slice by lia|by apply bytes_ok_slice|..];
      match goal with |- is_uint _ (le_value (slice ?a ?n bs)) =>
        apply (is_uint_slice bs a n); (done || lia) end. }
  assert (slice 0 52 bs = identity_front i) as Hfront.
  { unfold identity_front, i. cbn [id_store_id id_segment_id id_generation id_owner_worker].
    unfold_header. match_fields bs. }
  assert (enc = header_bytes i (slice 128 128 bs ++ slice 256 128 bs)) as Henc.
  { unfold enc, header_bytes, identity_bytes. change (ztake 4096 bs) with (slice 0 4096 bs).
    replace (le_bytes 4 _) with (slice 52 4 bs).
    - rewrite <- Hfront. rewrite <- !app_assoc.
      repeat match goal with H : slice _ _ bs = zeros _ |- _ => rewrite <- H end. by split_fields bs.
    - rewrite (slice_le_bytes bs 52 4), E2 by (done || lia). unfold crc.
      repeat match goal with H : slice _ _ bs = zeros _ |- _ => rewrite H end.
      rewrite Hfront, zeros_app by lia. reflexivity. }
  assert (decode_slots 2 enc 0 = let? d0 := decode_segment_commit_slot (slice 128 128 bs) in
    let? d1 := decode_segment_commit_slot (slice 256 128 bs) in Ok [d0; d1]) as ->.
  { rewrite Henc. unfold header_bytes. rewrite <- app_assoc.
    apply decode_slots_spec; rewrite ?zlen_identity_bytes, ?zlen_slice; lia || apply Hok. }
  pose proof (decode_commit_slot_cases (slice 128 128 bs)) as H0'.
  pose proof (decode_commit_slot_cases (slice 256 128 bs)) as H1'.
  specialize (H0' ltac:(by apply bytes_ok_slice)). specialize (H1' ltac:(by apply bytes_ok_slice)).
  destruct (decode_segment_commit_slot (slice 128 128 bs)) as [d0| |]; cbn [bindR]; [|naive_solver..].
  destruct (decode_segment_commit_slot (slice 256 128 bs)) as [d1| |]; cbn [bindR]; [|naive_solver..].
  cbn. split_and!; [done..|]. by exists d0, d1.
Qed.

(** ** Recovery *)

(** The commit a slot offers to recovery. *)
Definition offered (slot : DecodedCommitSlot) : option SegmentCommit :=
  match validity slot with slot_valid => slot_commit slot | _ => None end.

(** What recovery does with the bytes of a header. *)
Definition recover_commit (bs : list Z) : Result SelectedSegmentCommit :=
  let? header := decode_segment_header bs in select_newest_segment_commit header.

Lemma select_loop_step selected index slot slots :
  select_loop selected index (slot :: slots) =
  match offered slot with
  | None => select_loop selected (index + 1) slots
  | Some commit =>
      match selected with
      | None => select_loop (Some (mkSelected index commit)) (index + 1) slots
      | Some s =>
          if commit_generation commit >? commit_generation (selected_commit s)
          then select_loop (Some (mkSelected index commit)) (index + 1) slots
          else if (commit_generation commit =? commit_generation (selected_commit s)) &&
                  negb (bool_decide (commit = selected_commit s))
          then Err corrupted_data
          else select_loop selected (index + 1) slots
      end
  end.
Proof. destruct slot as [[] [c|]]; reflexivity. Qed.

(** [s] is the newest of the commits offered by [done]. *)
Definition newest_of (done : list DecodedCommitSlot) (s : SelectedSegmentCommit) : Prop :=
  0 <= slot_index s /\
  (done !! Z.to_nat (slot_index s)) ≫= offered = Some (selected_commit s) /\
  forall slot c, slot ∈ done -> offered slot = Some c ->
    commit_generation c < commit_generation (selected_commit s) \/ c = selected_commit s.

Lemma newest_of_skip done s slot : newest_of done s ->
  (forall c, offered slot = Some c ->
     commit_generation c < commit_generation (selected_commit s) \/ c = selected_commit s) ->
  newest_of (done ++ [slot]) s.
Proof.
  intros (Hi & Hl & Hn) Hslot. split_and!; [done| |].
  - destruct (done !! Z.to_nat (slot_index s)) eqn:E; [|done]. by rewrite (lookup_app_l_Some _ _ _ _ E).
  - intros slot' c [Hin| ->%list_elem_of_singleton]%elem_of_app Ho; eauto.
Qed.

Lemma newest_of_take done slot c :
  offered slot = Some c ->
  (forall slot' c', slot' ∈ done -> offered slot' = Some c' -> commit_generation c' < commit_generation c) ->
  newest_of (done ++ [slot]) (mkSelected (zlen done) c).
Proof.
  intros Hs Hn. unfold newest_of. cbn. pose proof (zlen_nonneg done). split_and!; [done| |].
  - unfold zlen. rewrite Nat2Z.id, lookup_app_r, Nat.sub_diag by lia. done.
  - intros slot' c' [Hin| ->%list_elem_of_singleton]%elem_of_app Ho; [left; eauto|right; congruence].
Qed.

Lemma select_loop_newest slots done selected :
  match selected with
  | Some s => newest_of done s
  | None => forall slot, slot ∈ done -> offered slot = None
  end ->
  match select_loop selected (zlen done) slots with
  | Ok (Some s) => newest_of (done ++ slots) s
  | Ok None => forall slot, slot ∈ done ++ slots -> offered slot = None
  | Err e => e = corrupted_data
  | Stuck _ => False
  end.
Proof.
  revert done selected. induction slots as [|slot slots IH]; intros done selected Hsel.
  { cbn. by rewrite app_nil_r. }
  assert (zlen done + 1 = zlen (done ++ [slot])) as Hz by zl.
  replace (done ++ slot :: slots) with ((done ++ [slot]) ++ slots) by by rewrite <- app_assoc.
  rewrite select_loop_step, Hz. destruct (offered slot) as [c|] eqn:Eo.
  - destruct selected as [s|]; [|apply IH, newest_of_take; naive_solver].
    rewrite Z.gtb_ltb. destruct (Z.ltb_spec (commit_generation (selected_commit s)) (commit_generation c)).
    + apply IH, newest_of_take; [done|]. intros slot' c' Hin Ho.
      destruct Hsel as (_ & _ & Hn). destruct (Hn _ _ Hin Ho) as [| ->]; lia.
    + destruct (_ && _) eqn:E; [done|]. apply IH, newest_of_skip; [done|]. rewrite Eo. intros c' [= <-].
      apply andb_false_iff in E as [E|E]; b2p; [left; lia|by right].
  - apply IH. destruct selected as [s|]; [apply newest_of_skip; naive_solver|].
    intros slot' [Hin| ->%list_elem_of_singleton]%elem_of_app; auto.
Qed.

Lemma recover_commit_layout i s0 s1 tail d0 d1 :
  identity_ok i -> identity_valid i -> zlen s0 = 128 -> zlen s1 = 128 ->
  decode_segment_commit_slot s0 = Ok d0 -> decode_segment_commit_slot s1 = Ok d1 ->
  recover_commit (header_bytes i (s0 ++ s1) ++ tail) =
  select_newest_segment_commit (mkDecodedHeader i [d0; d1]).
Proof.
  intros ?? ?? H0 H1. unfold recover_commit. rewrite decode_segment_header_layout by done.
  by rewrite H0, H1.
Qed.

Lemma commit_bytes_sealed c : sealed 128 48 (commit_bytes c).
Proof.
  unfold sealed, commit_bytes. change (48 + 4) with 52. change (128 - 48 - 4) with 76.
  rewrite ztake_app_le, ztake_all by zl. locate_field. rewrite zeros_app by lia.
  apply le_value_field; [lia|]. apply wrap_range. lia.
Qed.

(** Two bytes of a slot that are not zero are more than four bytes apart. *)
Lemma commit_bytes_not_erased c p w w' s : commit_bytes c = p ++ w ++ s ->
  length w = length w' -> (length w <= 4)%nat -> p ++ w' ++ s <> zeros 128.
Proof.
  intros Hbs Hlen H4 E.
  assert (commit_bytes c !! 0%nat = Some 0x47) as H0 by reflexivity.
  assert (commit_bytes c !! 6%nat = Some 0x80) as H6 by reflexivity.
  rewrite Hbs in H0, H6. destruct p as [|b p]; [|by simplify_eq/=].
  cbn [app] in *. apply (f_equal (lookup 6%nat)) in E.
  rewrite lookup_app_r in H6, E by lia. rewrite Hlen in H6. by rewrite H6 in E.
Qed.

(** ** Properties *)

(** Writing a header and reading it back: the decoder returns the identity and
    the commits that were encoded, an absent commit as an empty slot, and the
    bytes after the 4096 reserved ones are left alone. *)
Theorem segment_header_roundtrip out h :
  kSegmentHeaderReservedBytes <= zlen out -> SegmentHeader_ok h ->
  exists bs, encode_segment_header out h = Ok bs /\ zdrop 4096 bs = zdrop 4096 out /\
    decode_segment_header bs =
    Ok (mkDecodedHeader (header_identity h) (slot_of <$> header_commits h)).
Proof.
  intros Hl Hok. rewrite encode_segment_header_Ok by done. eexists. split; [done|].
  destruct Hok as (Hid & Hv & Hlen & Hs & _).
  destruct (header_commits h) as [|c0 [|c1 [|]]]; try done. clear Hlen.
  inversion_clear Hs as [|? ? H0 Hs']. inversion_clear Hs' as [|? ? H1 _]. split.
  - rewrite zdrop_app_ge by (unfold header_bytes; cbn; rewrite !zlen_app, zlen_identity_bytes by apply Hid; zl).
    unfold header_bytes. cbn [fmap list_fmap concat].
    rewrite !zlen_app, zlen_identity_bytes, !zlen_slot_bytes, zlen_zeros by (lia || apply Hid). done.
  - cbn [fmap list_fmap concat]. rewrite app_nil_r, decode_segment_header_layout by (done || zl).
    rewrite !decode_slot_bytes by done. reflexivity.
Qed.

(** Whatever the bytes of the reserved area, decoding them stays inside the
    buffer and ends with [invalid_record], [checksum_mismatch], or a header whose
    identity is well formed and whose 4096 bytes are the canonical encoding of
    that identity around the two slots. *)
Theorem decode_segment_header_safe bs :
  bytes_ok bs ->
  match decode_segment_header bs with
  | Ok d => identity_valid (decoded_identity d) /\
            length (decoded_slots d) = kSegmentCommitSlotCount /\
            ztake 4096 bs = header_bytes (decoded_identity d) (slice 128 128 bs ++ slice 256 128 bs)
  | Err e => e = invalid_record \/ e = checksum_mismatch
  | Stuck _ => False
  end.
Proof.
  intros Hbs. pose proof (decode_segment_header_cases bs Hbs) as Hc.
  destruct (decode_segment_header bs); [|done..].
  destruct Hc as (_ & Hv & He & d0 & d1 & Hd & _). by rewrite Hd.
Qed.

(** A damaged commit slot is never taken for a commit: changing up to four
    consecutive bytes of an encoded slot, wholly inside or wholly outside the
    checksum field, makes the decoder report an invalid slot. *)
Theorem commit_slot_corruption_detected c p w w' s :
  commit_ok c -> commit_valid c -> commit_bytes c = p ++ w ++ s ->
  bytes_ok w' -> length w = length w' -> (length w <= 4)%nat -> w <> w' ->
  (zlen p + zlen w <= 48 \/ 52 <= zlen p \/ 48 <= zlen p /\ zlen p + zlen w <= 52) ->
  decode_segment_commit_slot (p ++ w' ++ s) = Ok invalid_slot.
Proof.
  intros Hok Hv Hbs Hw' Hlen H4 Hne Hpos.
  pose proof (commit_bytes_ok c) as Hb. rewrite Hbs, !Forall_app in Hb. destruct Hb as (Hp & Hw & Hs).
  pose proof (zlen_commit_bytes c) as Hz. rewrite Hbs in Hz.
  assert (zlen (p ++ w' ++ s) = 128) as Hz'
    by (rewrite !zlen_app in Hz |- *; unfold zlen in *; lia).
  pose proof (commit_bytes_sealed c) as Hseal. rewrite Hbs in Hseal.
  assert (~ sealed 128 48 (p ++ w' ++ s)) as Hns by (apply (sealed_window 128 48 p w w' s); done || lia).
  pose proof (decode_commit_slot_cases (p ++ w' ++ s)) as Hc.
  rewrite !Forall_app in Hc. specialize (Hc ltac:(done)). cbn zeta in Hc.
  destruct (decode_segment_commit_slot (p ++ w' ++ s)) as [[[] [c'|]]|e|]; try done.
  - exfalso. rewrite (ztake_all 128) in Hc by lia.
    by eapply commit_bytes_not_erased.
  - exfalso. by apply Hns, Hc.
  - exfalso. destruct Hc as [_ [Hc|Hc]]; [lia|]. by apply Hns.
Qed.

(** Recovery picks the newest commit: the selected commit is the one its slot
    holds, every other valid slot has an older generation or the very same
    commit, and the only failure is [corrupted_data]. *)
Theorem select_newest_maximal h :
  match select_newest_segment_commit h with
  | Ok s => newest_of (decoded_slots h) s
  | Err e => e = corrupted_data
  | Stuck _ => False
  end.
Proof.
  unfold select_newest_segment_commit.
  pose proof (select_loop_newest (decoded_slots h) [] None) as Hl.
  rewrite zlen_nil in Hl. cbn [app] in Hl.
  specialize (Hl ltac:(by intros ? ?%not_elem_of_nil)).
  destruct (select_loop None 0 (decoded_slots h)) as [[s|]|e|f]; cbn [bindR]; done.
Qed.

(** The two slots make a commit atomic.  Let one slot hold commit [c] and let
    anything at all be written over the other slot.  When the new bytes are the
    complete encoding of a later commit, recovery returns that one; as long as
    they do not decode to a valid commit, because nothing was written yet or the
    write was torn, recovery still returns [c]. *)
Theorem commit_recovery_atomic i c w tail (other_first : bool) :
  identity_ok i -> identity_valid i -> commit_ok c -> commit_valid c -> zlen w = 128 ->
  let slots := if other_first then w ++ commit_bytes c else commit_bytes c ++ w in
  let recovered := recover_commit (header_bytes i slots ++ tail) in
  (forall c', commit_ok c' -> commit_valid c' -> commit_generation c < commit_generation c' ->
     w = commit_bytes c' -> recovered = Ok (mkSelected (if other_first then 0 else 1) c')) /\
  (forall d, decode_segment_commit_slot w = Ok d -> offered d = None ->
     recovered = Ok (mkSelected (if other_first then 1 else 0) c)).
Proof.
  intros Hi Hv Hc Hcv Hw slots recovered.
  pose proof (decode_commit_slot_bytes c [] Hc Hcv) as Hd. rewrite app_nil_r in Hd. split.
  - intros c' Hc' Hcv' Hg ->.
    pose proof (decode_commit_slot_bytes c' [] Hc' Hcv') as Hd'. rewrite app_nil_r in Hd'.
    unfold recovered, slots, select_newest_segment_commit.
    destruct other_first; erewrite recover_commit_layout by (done || zl);
      unfold select_newest_segment_commit; cbn; rewrite Z.gtb_ltb.
    + destruct (Z.ltb_spec (commit_generation c') (commit_generation c)); [lia|].
      by destruct (Z.eqb_spec (commit_generation c) (commit_generation c')); [lia|].
    + by destruct (Z.ltb_spec (commit_generation c) (commit_generation c')); [|lia].
  - intros d Hdw Ho. unfold recovered, slots.
    destruct other_first; erewrite recover_commit_layout by (done || zl);
      unfold select_newest_segment_commit; cbn [decoded_slots];
      rewrite select_loop_step, ?Ho; [done|].
    cbn [offered validity slot_commit]. by rewrite select_loop_step, Ho.
Qed.

(** ** Witnesses *)

Definition sample_identity : SegmentHeaderIdentity := mkIdentity (Z.of_nat <$> seq 1 16) 5 1 0.
Definition sample_commit : SegmentCommit := mkCommit 3 4168 1 1 7 7.
Definition sample_commit2 : SegmentCommit := mkCommit 4 4240 2 2 7 9.
Definition sample_header : SegmentHeader := mkHeader sample_identity [Some sample_commit; None].

Lemma sample_identity_ok : identity_ok sample_identity /\ identity_valid sample_identity.
Proof.
  unfold identity_ok, identity_valid. cbn. width. split_and!; try done; try lia; bytes_eval.
Qed.
Lemma sample_commit_ok : commit_ok sample_commit /\ commit_valid sample_commit.
Proof.
  split; [unfold commit_ok; cbn; width; lia|]. by apply validate_commit_Ok.
Qed.
Lemma sample_commit2_ok : commit_ok sample_commit2 /\ commit_valid sample_commit2.
Proof.
  split; [unfold commit_ok; cbn; width; lia|]. by apply validate_commit_Ok.
Qed.
Lemma sample_header_ok : SegmentHeader_ok sample_header.
Proof.
  split_and!; try apply sample_identity_ok; try done.
  apply Forall_cons_2; [apply sample_commit_ok|by apply Forall_singleton].
Qed.

Lemma segment_header_roundtrip_witness :
  exists bs, encode_segment_header (zeros 4096) sample_header = Ok bs /\
    zdrop 4096 bs = zdrop 4096 (zeros 4096) /\
    decode_segment_header bs =
    Ok (mkDecodedHeader sample_identity [mkSlot slot_valid (Some sample_commit); mkSlot slot_empty None]).
Proof.
  apply (segment_header_roundtrip (zeros 4096) sample_header).
  - rewrite zlen_zeros; unfold kSegmentHeaderReservedBytes; lia.
  - apply sample_header_ok.
Defined.

Lemma decode_segment_header_safe_witness :
  match decode_segment_header (zeros 4096) with
  | Ok d => identity_valid (decoded_identity d) /\
            length (decoded_slots d) = kSegmentCommitSlotCount /\
            ztake 4096 (zeros 4096) =
            header_bytes (decoded_identity d) (slice 128 128 (zeros 4096) ++ slice 256 128 (zeros 4096))
  | Err e => e = invalid_record \/ e = checksum_mismatch
  | Stuck _ => False
  end.
Proof. apply (decode_segment_header_safe (zeros 4096)), bytes_ok_zeros. Defined.

Lemma commit_slot_corruption_detected_witness :
  decode_segment_commit_slot (ztake 30 (commit_bytes sample_commit) ++ [1; 2; 3; 4] ++
    zdrop 34 (commit_bytes sample_commit)) = Ok invalid_slot.
Proof.
  apply (commit_slot_corruption_detected sample_commit (ztake 30 (commit_bytes sample_commit))
    (slice 30 4 (commit_bytes sample_commit)) [1; 2; 3; 4] (zdrop 34 (commit_bytes sample_commit))).
  - apply sample_commit_ok.
  - apply sample_commit_ok.
  - vm_compute. reflexivity.
  - bytes_eval.
  - reflexivity.
  - vm_compute. lia.
  - vm_compute. discriminate.
  - left. vm_compute. discriminate.
Defined.

Lemma commit_recovery_atomic_witness :
  recover_commit (header_bytes sample_identity (commit_bytes sample_commit ++ commit_bytes sample_commit2)
    ++ [1; 2]) = Ok (mkSelected 1 sample_commit2) /\
  recover_commit (header_bytes sample_identity (commit_bytes sample_commit ++
    ztake 64 (commit_bytes sample_commit2) ++ replicate 64 255) ++ [1; 2]) = Ok (mkSelected 0 sample_commit).
Proof.
  destruct sample_identity_ok as [Hi Hv]. destruct sample_commit_ok as [Hc Hcv].
  destruct sample_commit2_ok as [Hc' Hcv']. split.
  - apply (proj1 (commit_recovery_atomic sample_identity sample_commit (commit_bytes sample_commit2)
      [1; 2] false Hi Hv Hc Hcv ltac:(vm_compute; reflexivity)) sample_commit2); done.
  - apply (proj2 (commit_recovery_atomic sample_identity sample_commit
      (ztake 64 (commit_bytes sample_commit2) ++ replicate 64 255) [1; 2] false Hi Hv Hc Hcv
      ltac:(vm_compute; reflexivity)) invalid_slot); vm_compute; reflexivity.
Defined.
