(* ===== verification/Segment.v ===== *)
(** * Segments

    Models src/segment/segment.cpp and its header: the 64 MiB append-only buffer
    that holds encoded records, with its liveness accounting and its state
    machine.  A segment refines a log of record inputs: appending extends the
    log, every reference handed out keeps reading the record it was issued for,
    and scanning gives back the whole log. *)

From S2P Require Import Prelude Core Crc32c Record.

Inductive SegmentState := seg_free | seg_active | seg_sealed | seg_retired | seg_reclaimable | seg_corrupted.
Inductive ResidencyState := resident | mapped | evicted | loading | evicting.

#[export] Instance SegmentState_eq_dec : EqDecision SegmentState.
Proof. solve_decision. Defined.
#[export] Instance ResidencyState_eq_dec : EqDecision ResidencyState.
Proof. solve_decision. Defined.

Record SegmentStats := mkStats {
  used_bytes : Z;
  live_bytes : Z;
  st_record_count : Z;
  live_records : Z;
  st_first_sequence : Z;
  st_last_sequence : Z
}.

(** [seg_storage] holds the bytes of the 64 MiB buffer that have been written:
    the constructor leaves the rest indeterminate, and only [append] writes, at
    [seg_write_offset]. *)
Record Segment := mkSegment {
  seg_id : Z;
  seg_owner : Z;
  seg_generation : Z;
  seg_state : SegmentState;
  seg_residency : ResidencyState;
  seg_storage : list Z;
  seg_write_offset : Z;
  seg_stats : SegmentStats
}.

(** [Segment::Segment(id, owner, generation)] *)
Definition new_segment (id owner generation : Z) : Segment :=
  {| seg_id := id; seg_owner := owner; seg_generation := generation;
     seg_state := seg_active; seg_residency := resident;
     seg_storage := zeros kSegmentHeaderReservedBytes;
     seg_write_offset := kSegmentHeaderReservedBytes;
     seg_stats := mkStats kSegmentHeaderReservedBytes 0 0 0 0 0 |}.

Definition with_stats (s : Segment) (stats : SegmentStats) : Segment :=
  {| seg_id := seg_id s; seg_owner := seg_owner s; seg_generation := seg_generation s;
     seg_state := seg_state s; seg_residency := seg_residency s; seg_storage := seg_storage s;
     seg_write_offset := seg_write_offset s; seg_stats := stats |}.
Definition with_state (s : Segment) (state : SegmentState) : Segment :=
  {| seg_id := seg_id s; seg_owner := seg_owner s; seg_generation := seg_generation s;
     seg_state := state; seg_residency := seg_residency s; seg_storage := seg_storage s;
     seg_write_offset := seg_write_offset s; seg_stats := seg_stats s |}.

(** Every operation returns its error before it changes the segment, so a result
    carries the new segment only when it succeeds.  The destination of the
    encoder is fresh memory; it writes all of it. *)
Definition append (debug : bool) (s : Segment) (input : RecordInput) : Result (RecordRef * Segment) :=
  if negb (bool_decide (seg_state s = seg_active)) then Err segment_sealed
  else
  let? encoded_size := encoded_record_size input in
  if negb (range_contains 64 kSegmentSizeBytes (seg_write_offset s) encoded_size)
  then Err segment_full
  else
  let offset := seg_write_offset s in
  let? destination := encode_record_sized debug (zeros encoded_size) input encoded_size in
  let? storage := (if zlen (seg_storage s) =? offset then Ok (seg_storage s ++ destination)
                   else Stuck out_of_bounds) in
  let write_offset := u64 (offset + encoded_size) in
  let count := u64 (st_record_count (seg_stats s) + 1) in
  let stats :=
    {| used_bytes := write_offset;
       live_bytes := live_bytes (seg_stats s);
       st_record_count := count;
       live_records := live_records (seg_stats s);
       st_first_sequence := if count =? 1 then in_sequence input else st_first_sequence (seg_stats s);
       st_last_sequence := in_sequence input |} in
  Ok ({| ref_segment_id := seg_id s; ref_offset := u32 offset; ref_size := u32 encoded_size;
         ref_sequence := in_sequence input; ref_generation := seg_generation s |},
      {| seg_id := seg_id s; seg_owner := seg_owner s; seg_generation := seg_generation s;
         seg_state := seg_state s; seg_residency := seg_residency s;
         seg_storage := storage; seg_write_offset := write_offset; seg_stats := stats |}).

Definition validate_ref_extent (s : Segment) (ref : RecordRef) : Status :=
  if negb (ref_segment_id ref =? seg_id s) || negb (ref_generation ref =? seg_generation s)
  then Err invalid_reference
  else if (ref_offset ref <? kSegmentHeaderReservedBytes) ||
          negb (range_contains 32 (u32 (used_bytes (seg_stats s))) (ref_offset ref) (ref_size ref))
  then Err invalid_reference
  else Ok tt.

(** The common part of [read] and [read_trusted]. *)
Definition read_extent (verify : bool) (s : Segment) (ref : RecordRef) : Result RecordView :=
  validate_ref_extent s ref ;;?
  let? bytes := subspan (seg_storage s) (ref_offset ref) (ref_size ref) in
  let? decoded := decode_record bytes verify in
  if negb (rv_sequence decoded =? ref_sequence ref) || negb (rv_encoded_size decoded =? ref_size ref)
  then Err invalid_reference
  else Ok decoded.

Definition read (s : Segment) (ref : RecordRef) : Result RecordView := read_extent true s ref.

Definition is_trusted (s : Segment) : bool :=
  bool_decide (seg_residency s = resident) && negb (bool_decide (seg_state s = seg_active)).

Definition read_trusted (s : Segment) (ref : RecordRef) : Result RecordView :=
  if negb (is_trusted s) then Err invalid_argument else read_extent false s ref.

(** [while (offset < stats_.used_bytes)]: a record has at least 56 bytes, so the
    number of written bytes bounds the turns. *)
Fixpoint scan_loop (fuel : nat) (s : Segment) (offset : Z) (refs : list RecordRef) :
    Result (list RecordRef) :=
  if negb (offset <? used_bytes (seg_stats s)) then Ok refs
  else match fuel with
       | O => Stuck out_of_fuel
       | S fuel =>
           let? bytes := subspan (seg_storage s) offset (u64 (used_bytes (seg_stats s) - offset)) in
           let? decoded := decode_record bytes true in
           let ref := {| ref_segment_id := seg_id s; ref_offset := u32 offset;
                         ref_size := rv_encoded_size decoded; ref_sequence := rv_sequence decoded;
                         ref_generation := seg_generation s |} in
           scan_loop fuel s (u64 (offset + rv_encoded_size decoded)) (refs ++ [ref])
       end.

Definition scan (s : Segment) : Result (list RecordRef) :=
  let? refs := scan_loop (length (seg_storage s)) s kSegmentHeaderReservedBytes [] in
  if negb (zlen refs =? st_record_count (seg_stats s)) then Err corrupted_data else Ok refs.

Definition seal (s : Segment) : Result Segment :=
  if negb (bool_decide (seg_state s = seg_active)) then Err invalid_argument
  else Ok (with_state s seg_sealed).

Definition mark_live (s : Segment) (ref : RecordRef) : Result Segment :=
  validate_ref_extent s ref ;;?
  let st := seg_stats s in
  Ok (with_stats s
    {| used_bytes := used_bytes st; live_bytes := u64 (live_bytes st + ref_size ref);
       st_record_count := st_record_count st; live_records := u64 (live_records st + 1);
       st_first_sequence := st_first_sequence st; st_last_sequence := st_last_sequence st |}).

Definition mark_dead (s : Segment) (ref : RecordRef) : Result Segment :=
  validate_ref_extent s ref ;;?
  let st := seg_stats s in
  if (live_records st =? 0) || (live_bytes st <? ref_size ref) then Err invalid_argument
  else
  Ok (with_stats s
    {| used_bytes := used_bytes st; live_bytes := u64 (live_bytes st - ref_size ref);
       st_record_count := st_record_count st; live_records := u64 (live_records st - 1);
       st_first_sequence := st_first_sequence st; st_last_sequence := st_last_sequence st |}).

Definition retire (s : Segment) : Result Segment :=
  if negb (bool_decide (seg_state s = seg_sealed)) || negb (live_records (seg_stats s) =? 0)
  then Err invalid_argument
  else Ok (with_state s seg_retired).

(** ** The log a segment stands for *)

Definition RefWidth (ref : RecordRef) : Prop :=
  is_u64 (ref_segment_id ref) /\ is_u32 (ref_offset ref) /\ is_u32 (ref_size ref) /\
  is_u64 (ref_sequence ref) /\ is_u32 (ref_generation ref).

(** The bytes of a log and the offset its next record goes to. *)
Definition log_bytes (log : list RecordInput) : list Z := concat (record_bytes <$> log).
Definition log_end (log : list RecordInput) : Z := kSegmentHeaderReservedBytes + zlen (log_bytes log).

(** The reference of the record after the prefix [before]. *)
Definition ref_after (s : Segment) (before : list RecordInput) (input : RecordInput) : RecordRef :=
  {| ref_segment_id := seg_id s; ref_offset := log_end before; ref_size := record_size input;
     ref_sequence := in_sequence input; ref_generation := seg_generation s |}.

Fixpoint log_refs_from (s : Segment) (before log : list RecordInput) : list RecordRef :=
  match log with
  | [] => []
  | input :: log => ref_after s before input :: log_refs_from s (before ++ [input]) log
  end.
Definition log_refs (s : Segment) (log : list RecordInput) : list RecordRef := log_refs_from s [] log.

Definition input_ok (input : RecordInput) : Prop := RecordInput_ok input /\ encodable input.

(** [s] holds exactly the records of [log]. *)
Record seg_rep (s : Segment) (log : list RecordInput) : Prop := {
  rep_inputs : Forall input_ok log;
  rep_storage : seg_storage s = zeros kSegmentHeaderReservedBytes ++ log_bytes log;
  rep_offset : seg_write_offset s = log_end log;
  rep_used : used_bytes (seg_stats s) = log_end log;
  rep_fits : log_end log <= kSegmentSizeBytes;
  rep_count : st_record_count (seg_stats s) = zlen log;
  rep_last : st_last_sequence (seg_stats s) = foldl (fun _ i => in_sequence i) 0 log;
  rep_first : st_first_sequence (seg_stats s) = default 0 (in_sequence <$> head log)
}.

Lemma log_bytes_app l k : log_bytes (l ++ k) = log_bytes l ++ log_bytes k.
Proof. unfold log_bytes. by rewrite fmap_app, concat_app. Qed.
Lemma log_bytes_cons i l : log_bytes (i :: l) = record_bytes i ++ log_bytes l.
Proof. reflexivity. Qed.
Lemma log_end_snoc l i : log_end (l ++ [i]) = log_end l + record_size i.
Proof.
  unfold log_end. rewrite log_bytes_app, zlen_app, log_bytes_cons, zlen_app, zlen_record_bytes.
  unfold log_bytes. cbn. rewrite zlen_nil. lia.
Qed.
Lemma log_end_ge l : kSegmentHeaderReservedBytes <= log_end l.
Proof. unfold log_end. pose proof (zlen_nonneg (log_bytes l)). lia. Qed.

Ltac unfold_seg := unfold kSegmentHeaderReservedBytes, kSegmentSizeBytes in *.

Lemma input_ok_bounds i : input_ok i -> 56 <= record_size i <= 1048576.
Proof. intros [_ He]. pose proof (encodable_bounds i He). unfold kMaxNormalRecordSize in *. lia. Qed.

(** Each record has at least 56 bytes, so a log is short enough to be counted. *)
Lemma log_length l : Forall input_ok l -> 56 * zlen l <= log_end l - kSegmentHeaderReservedBytes.
Proof.
  intros Hl. unfold log_end. induction Hl as [|i l Hi Hl IH]; [done|].
  rewrite log_bytes_cons, zlen_app, zlen_cons, zlen_record_bytes. pose proof (input_ok_bounds i Hi). lia.
Qed.

Lemma new_segment_rep id owner generation : seg_rep (new_segment id owner generation) [].
Proof. by split. Qed.

Lemma storage_length s log : seg_rep s log -> zlen (seg_storage s) = log_end log.
Proof. intros H. rewrite (rep_storage _ _ H), zlen_app. unfold log_end. unfold_seg. zl. Qed.

Lemma append_cases debug s log input : seg_rep s log -> RecordInput_ok input ->
  append debug s input =
  if negb (bool_decide (seg_state s = seg_active)) then Err segment_sealed
  else let? size := encoded_record_size input in
  if log_end log + size >? kSegmentSizeBytes then Err segment_full
  else Ok (ref_after s log input,
    {| seg_id := seg_id s; seg_owner := seg_owner s; seg_generation := seg_generation s;
       seg_state := seg_state s; seg_residency := seg_residency s;
       seg_storage := seg_storage s ++ record_bytes input;
       seg_write_offset := log_end (log ++ [input]);
       seg_stats :=
         {| used_bytes := log_end (log ++ [input]);
            live_bytes := live_bytes (seg_stats s);
            st_record_count := zlen (log ++ [input]);
            live_records := live_records (seg_stats s);
            st_first_sequence := default 0 (in_sequence <$> head (log ++ [input]));
            st_last_sequence := in_sequence input |} |}).
Proof.
  intros Hrep Hok. unfold append. destruct (negb _); [done|].
  destruct (encoded_record_size input) as [size| |] eqn:Es; cbn [bindR]; [|done..].
  apply compute_encoded_size_Ok in Es as [He ->].
  pose proof (input_ok_bounds input (conj Hok He)) as Hsz. pose proof (log_end_ge log).
  pose proof (rep_fits _ _ Hrep). pose proof (log_length log (rep_inputs _ _ Hrep)).
  pose proof (zlen_nonneg log). rewrite (rep_offset _ _ Hrep). unfold_seg.
  assert (negb (range_contains 64 (64 * 1024 * 1024) (log_end log) (record_size input)) =
          (log_end log + record_size input >? 64 * 1024 * 1024)) as ->.
  { rewrite range_contains_decide by (width; lia). case_bool_decide; cbn;
      destruct (Z.gtb_spec (log_end log + record_size input) (64 * 1024 * 1024)); done || lia. }
  destruct (Z.gtb_spec (log_end log + record_size input) (64 * 1024 * 1024)); [done|].
  rewrite encode_record_sized_Ok, zdrop_all, app_nil_r by (done || zl). cbn [bindR].
  rewrite (storage_length _ _ Hrep), Z.eqb_refl. cbn [bindR].
  rewrite (rep_count _ _ Hrep), (rep_first _ _ Hrep), log_end_snoc, zlen_app.
  rewrite !(wrap_small 64), !(wrap_small 32) by (width; lia). unfold ref_after.
  do 4 f_equal. destruct log as [|j log]; [done|]. cbn [app head fmap option_fmap option_map default].
  rewrite zlen_cons in *. pose proof (zlen_nonneg log).
  by destruct (Z.eqb_spec (1 + zlen log + 1) 1); [lia|].
Qed.

(** Appending one record extends the log by it. *)
Lemma append_rep debug s log input ref s' :
  seg_rep s log -> RecordInput_ok input -> append debug s input = Ok (ref, s') ->
  encodable input /\ ref = ref_after s log input /\ seg_rep s' (log ++ [input]) /\
  log_end log + record_size input <= kSegmentSizeBytes /\
  seg_state s = seg_active /\ seg_state s' = seg_active /\
  seg_id s' = seg_id s /\ seg_generation s' = seg_generation s /\ seg_owner s' = seg_owner s /\
  live_records (seg_stats s') = live_records (seg_stats s) /\
  live_bytes (seg_stats s') = live_bytes (seg_stats s).
Proof.
  intros Hrep Hok Ha. rewrite append_cases with (log := log) in Ha by done.
  destruct (bool_decide_reflect (seg_state s = seg_active)) as [Hst|]; [|done]. cbn [negb] in Ha.
  destruct (encoded_record_size input) as [size| |] eqn:Es; [|done..]. cbn [bindR] in Ha.
  apply compute_encoded_size_Ok in Es as [He ->].
  destruct (Z.gtb_spec (log_end log + record_size input) kSegmentSizeBytes); [done|].
  injection Ha as <- <-. split_and!; try done.
  destruct Hrep. split; cbn; try done.
  - apply Forall_app. split; [done|]. by apply Forall_singleton.
  - rewrite rep_storage0, log_bytes_app, <- app_assoc. unfold log_bytes at 3. cbn.
    by rewrite app_nil_r.
  - by rewrite log_end_snoc.
  - by rewrite foldl_app.
Qed.

(** ** Reading back *)

Lemma input_bytes_ok log : Forall input_ok log -> bytes_ok (log_bytes log).
Proof.
  induction 1 as [|i l [Hi _] Hl IH]; [constructor|]. rewrite log_bytes_cons.
  apply Forall_app_2; [by apply record_bytes_ok|done].
Qed.

Lemma storage_bytes_ok s log : seg_rep s log -> bytes_ok (seg_storage s).
Proof.
  intros H. rewrite (rep_storage _ _ H).
  apply Forall_app_2; [apply bytes_ok_zeros|by apply input_bytes_ok, (rep_inputs _ _ H)].
Qed.

Lemma decode_record_bytes input verify tail : input_ok input ->
  decode_record (record_bytes input ++ tail) verify = Ok (view_of input).
Proof.
  intros [Hok He]. unfold record_bytes. rewrite <- !app_assoc.
  rewrite decode_record_layout by auto using record_crc_range.
  by rewrite Z.eqb_refl, andb_false_r.
Qed.

(** The storage around one record of the log. *)
Lemma storage_split s before input after : seg_rep s (before ++ input :: after) ->
  exists pre, zlen pre = log_end before /\ input_ok input /\
    seg_storage s = pre ++ record_bytes input ++ log_bytes after /\
    log_end before + record_size input + zlen (log_bytes after) = log_end (before ++ input :: after).
Proof.
  intros H. exists (zeros kSegmentHeaderReservedBytes ++ log_bytes before).
  pose proof (rep_inputs _ _ H) as Hi. apply Forall_app in Hi as [_ Hi].
  apply Forall_cons_1 in Hi as [Hi _]. split_and!; [|done| |].
  - unfold log_end. unfold_seg. zl.
  - rewrite (rep_storage _ _ H), log_bytes_app, log_bytes_cons. by rewrite <- !app_assoc.
  - unfold log_end. rewrite log_bytes_app, log_bytes_cons, !zlen_app, zlen_record_bytes. lia.
Qed.

Lemma validate_ref_extent_Ok s log ref : seg_rep s log -> RefWidth ref ->
  validate_ref_extent s ref =
  if bool_decide (ref_segment_id ref = seg_id s /\ ref_generation ref = seg_generation s /\
                  kSegmentHeaderReservedBytes <= ref_offset ref /\
                  ref_offset ref + ref_size ref <= log_end log)
  then Ok tt else Err invalid_reference.
Proof.
  intros Hrep (_ & Ho & Hs & _). pose proof (rep_fits _ _ Hrep). pose proof (log_end_ge log).
  unfold validate_ref_extent. rewrite (rep_used _ _ Hrep). unfold_seg.
  rewrite (wrap_small 32) by (width; lia).
  rewrite range_contains_decide by (width; lia).
  destruct (Z.eqb_spec (ref_segment_id ref) (seg_id s)), (Z.eqb_spec (ref_generation ref) (seg_generation s)),
    (Z.ltb_spec (ref_offset ref) 4096); cbn [negb orb]; repeat case_bool_decide; cbn [negb];
    naive_solver lia.
Qed.

Lemma read_extent_log verify s before input after :
  seg_rep s (before ++ input :: after) ->
  read_extent verify s (ref_after s before input) = Ok (view_of input).
Proof.
  intros Hrep. destruct (storage_split _ _ _ _ Hrep) as (pre & Hpre & Hi & Hst & Hend).
  pose proof (input_ok_bounds input Hi). pose proof (log_end_ge before). pose proof (rep_fits _ _ Hrep).
  pose proof (zlen_nonneg (log_bytes after)). unfold read_extent, validate_ref_extent.
  cbn [ref_after ref_segment_id ref_generation ref_offset ref_size ref_sequence].
  rewrite !Z.eqb_refl, (rep_used _ _ Hrep). cbn [negb orb]. unfold_seg.
  destruct (Z.ltb_spec (log_end before) 4096); [lia|]. rewrite (wrap_small 32) by (width; lia).
  rewrite range_contains_decide, bool_decide_eq_true_2 by (width; lia). cbn [negb orb bindR].
  rewrite Hst. rewrite subspan_in by zl. cbn [bindR].
  rewrite slice_app_r, Hpre, Z.sub_diag, slice_app_l, slice_whole by (zl).
  rewrite <- (app_nil_r (record_bytes input)), decode_record_bytes by done. cbn [bindR].
  by rewrite !Z.eqb_refl.
Qed.

Lemma scan_loop_log s before log fuel refs :
  seg_rep s (before ++ log) -> (length log <= fuel)%nat ->
  scan_loop fuel s (log_end before) refs = Ok (refs ++ log_refs_from s before log).
Proof.
  revert before fuel refs. induction log as [|input log IH]; intros before fuel refs Hrep Hf.
  - rewrite app_nil_r in Hrep. destruct fuel; cbn [scan_loop];
      rewrite (rep_used _ _ Hrep), Z.ltb_irrefl; cbn; by rewrite app_nil_r.
  - destruct fuel as [|fuel]; [cbn in Hf; lia|]. cbn [scan_loop].
    destruct (storage_split _ _ _ _ Hrep) as (pre & Hpre & Hi & Hst & Hend).
    pose proof (input_ok_bounds input Hi). pose proof (log_end_ge before). pose proof (rep_fits _ _ Hrep).
    pose proof (zlen_nonneg (log_bytes log)). rewrite (rep_used _ _ Hrep). unfold_seg.
    destruct (Z.ltb_spec (log_end before) (log_end (before ++ input :: log))); [|lia]. cbn [negb].
    rewrite (wrap_small 64) by (width; lia).
    rewrite Hst at 1. rewrite subspan_in by zl. cbn [bindR].
    rewrite slice_app_r, Hpre, Z.sub_diag, slice_whole by zl.
    rewrite decode_record_bytes by done. cbn [bindR view_of rv_encoded_size rv_sequence].
    rewrite (wrap_small 64), (wrap_small 32), <- log_end_snoc by (width; lia).
    cbn in Hf. rewrite IH by (rewrite <- ?app_assoc; done || lia).
    by rewrite <- app_assoc.
Qed.

Lemma length_log_refs_from s before log : length (log_refs_from s before log) = length log.
Proof. revert before. induction log as [|i log IH]; intros before; cbn; [done|]. by rewrite IH. Qed.

Lemma scan_log s log : seg_rep s log -> scan s = Ok (log_refs s log).
Proof.
  intros Hrep. unfold scan. change kSegmentHeaderReservedBytes with (log_end []).
  pose proof (log_length log (rep_inputs _ _ Hrep)). pose proof (storage_length _ _ Hrep) as Hl.
  unfold zlen in *. rewrite (scan_loop_log s [] log) by (done || (unfold_seg; lia)).
  cbn [bindR app]. unfold log_refs. rewrite length_log_refs_from, (rep_count _ _ Hrep).
  unfold zlen. by rewrite Z.eqb_refl.
Qed.

(** A read of any reference, valid or not, stays inside the written bytes. *)
Lemma read_extent_defined verify s log ref : seg_rep s log -> RefWidth ref ->
  match read_extent verify s ref with
  | Ok v => rv_sequence v = ref_sequence ref /\ rv_encoded_size v = ref_size ref /\
            encodable (input_of v)
  | Err e => e = invalid_reference \/ e = invalid_record \/ e = checksum_mismatch /\ verify = true
  | Stuck _ => False
  end.
Proof.
  intros Hrep Hw. unfold read_extent. rewrite (validate_ref_extent_Ok s log) by done.
  destruct Hw as (_ & Ho & Hs & _). case_bool_decide as Hb; cbn [bindR]; [|by left].
  destruct Hb as (_ & _ & Hlo & Hhi). rewrite subspan_in by
    (rewrite ?(storage_length _ _ Hrep); unfold kSegmentHeaderReservedBytes in *; width; lia).
  cbn [bindR].
  pose proof (decode_record_cases (slice (ref_offset ref) (ref_size ref) (seg_storage s)) verify) as Hd.
  specialize (Hd ltac:(by eapply bytes_ok_slice, storage_bytes_ok)).
  destruct (decode_record _ _) as [v| |]; cbn [bindR]; [|naive_solver..].
  destruct (Z.eqb_spec (rv_sequence v) (ref_sequence ref)), (Z.eqb_spec (rv_encoded_size v) (ref_size ref));
    cbn [negb orb]; auto. destruct Hd as (_ & He & _). done.
Qed.

(** ** Histories *)

Inductive seg_op :=
  | op_append (input : RecordInput)
  | op_seal
  | op_mark_live (ref : RecordRef)
  | op_mark_dead (ref : RecordRef)
  | op_retire.

Definition op_ok (op : seg_op) : Prop :=
  match op with op_append input => RecordInput_ok input | _ => True end.

(** The references [append] has returned, each with the record it was returned for. *)
Abbreviation Issued := (list (RecordRef * RecordInput)).

(** The segment and the issued references after one call, which may fail. *)
Definition seg_step (debug : bool) (st : Segment * Issued) (op : seg_op) : Segment * Issued :=
  let '(s, issued) := st in
  let changed (r : Result Segment) := match r with Ok s' => (s', issued) | _ => st end in
  match op with
  | op_append input =>
      match append debug s input with
      | Ok (ref, s') => (s', issued ++ [(ref, input)])
      | _ => st
      end
  | op_seal => changed (seal s)
  | op_mark_live ref => changed (mark_live s ref)
  | op_mark_dead ref => changed (mark_dead s ref)
  | op_retire => changed (retire s)
  end.

(** References name their segment only by its identity. *)
Lemma log_refs_ext s s' log : seg_id s = seg_id s' -> seg_generation s = seg_generation s' ->
  log_refs s log = log_refs s' log.
Proof.
  intros Hid Hg. unfold log_refs. generalize (@nil RecordInput).
  induction log as [|i log IH]; intros before; cbn; [done|].
  unfold ref_after. by rewrite IH, Hid, Hg.
Qed.

(** What was issued stands for what the segment holds. *)
Definition holds_issued (st : Segment * Issued) : Prop :=
  seg_rep st.1 st.2.*2 /\ st.2.*1 = log_refs st.1 st.2.*2.

Lemma log_refs_from_snoc s before log input :
  log_refs_from s before (log ++ [input]) = log_refs_from s before log ++ [ref_after s (before ++ log) input].
Proof.
  revert before. induction log as [|i log IH]; intros before; cbn [app log_refs_from]; [by rewrite app_nil_r|].
  by rewrite IH, <- app_assoc.
Qed.

(** A state of the same segment that holds the same records. *)
Lemma holds_same s s' issued : holds_issued (s, issued) -> seg_rep s' issued.*2 ->
  seg_id s' = seg_id s -> seg_generation s' = seg_generation s -> holds_issued (s', issued).
Proof. intros [_ E] Hr Hid Hg. split; [exact Hr|]. cbn [fst snd] in *. by rewrite (log_refs_ext s' s). Qed.

Lemma seg_step_holds debug st op : holds_issued st -> op_ok op ->
  let st' := seg_step debug st op in
  holds_issued st' /\ (seg_state st.1 <> seg_active -> seg_state st'.1 <> seg_active) /\
  exists more, st'.2 = st.2 ++ more /\ (seg_state st.1 <> seg_active -> more = []).
Proof.
  destruct st as [s issued]. intros Hst Hop. pose proof Hst as [Hrep Hrefs]. cbn [fst snd] in Hrep, Hrefs.
  assert (Hno : (seg_state s <> seg_active -> seg_state s <> seg_active) /\
    exists more, issued = issued ++ more /\ (seg_state s <> seg_active -> more = [])).
  { split; [done|]. exists []. by rewrite app_nil_r. }
  assert (Hch : forall s', seg_rep s' issued.*2 -> seg_id s' = seg_id s -> seg_generation s' = seg_generation s ->
    (seg_state s <> seg_active -> seg_state s' <> seg_active) ->
    holds_issued (s', issued) /\ (seg_state s <> seg_active -> seg_state s' <> seg_active) /\
    exists more, issued = issued ++ more /\ (seg_state s <> seg_active -> more = [])).
  { intros s' Hr Hid Hg Hs. split; [by apply (holds_same s)|]. split; [done|]. apply Hno. }
  destruct op as [input| |ref|ref|]; cbn [seg_step].
  - destruct (append debug s input) as [[ref s']|e|f] eqn:E; [|by split..].
    destruct (append_rep debug s _ input ref s' Hrep Hop E) as (_ & -> & Hr & _ & Hs & Hs' & Hid & Hg & _).
    split; [|split; [done|by exists [(ref_after s issued.*2 input, input)]]].
    split; cbn [fst snd]; rewrite !fmap_app; [exact Hr|]. rewrite (log_refs_ext s' s) by done.
    unfold log_refs in *. change ([(?r, ?i)].*2) with [i]. by rewrite log_refs_from_snoc, Hrefs.
  - unfold seal. case_bool_decide; cbn [negb]; [|by split]. apply Hch; try done. by destruct Hrep.
  - unfold mark_live. destruct (validate_ref_extent s ref); cbn [bindR]; [|by split..].
    apply Hch; try done. by destruct Hrep.
  - unfold mark_dead. destruct (validate_ref_extent s ref); cbn [bindR]; [|by split..].
    destruct (_ || _); [by split|]. apply Hch; try done. by destruct Hrep.
  - unfold retire. destruct (_ || _); [by split|]. apply Hch; try done. by destruct Hrep.
Qed.

Lemma seg_run_holds debug ops st : holds_issued st -> Forall op_ok ops ->
  let st' := foldl (seg_step debug) st ops in
  holds_issued st' /\ exists more, st'.2 = st.2 ++ more /\ (seg_state st.1 <> seg_active -> more = []).
Proof.
  intros Hst Hops. revert st Hst. induction Hops as [|op ops Hop Hops IH]; intros st Hst; cbn.
  { split; [done|]. exists []. by rewrite app_nil_r. }
  destruct (seg_step_holds debug st op Hst Hop) as (H1 & Hs & more & E & Hm).
  destruct (IH _ H1) as (H2 & more' & E' & Hm'). split; [done|]. exists (more ++ more').
  rewrite E', E, app_assoc. split; [done|]. intros Ha. by rewrite (Hm Ha), (Hm' (Hs Ha)).
Qed.

(** ** Liveness accounting *)

Definition sum_sizes (refs : list RecordRef) : Z := foldr (fun r acc => ref_size r + acc) 0 refs.

(** The counters of [s] account for the records of the log that are in [live]. *)
Record live_ok (s : Segment) (log : list RecordInput) (live : list RecordRef) : Prop := {
  live_rep : seg_rep s log;
  live_sub : live ⊆+ log_refs s log;
  live_count : live_records (seg_stats s) = zlen live;
  live_total : live_bytes (seg_stats s) = sum_sizes live
}.

Lemma sum_sizes_app l k : sum_sizes (l ++ k) = sum_sizes l + sum_sizes k.
Proof. unfold sum_sizes. induction l; cbn; lia. Qed.

#[export] Instance sum_sizes_proper : Proper ((≡ₚ) ==> (=)) sum_sizes.
Proof.
  intros l k H. induction H; cbn; try unfold sum_sizes in *; cbn; lia.
Qed.

Lemma log_refs_from_sizes s before log : Forall input_ok log ->
  sum_sizes (log_refs_from s before log) = zlen (log_bytes log) /\
  Forall (fun r => 56 <= ref_size r) (log_refs_from s before log).
Proof.
  intros Hl. revert before. induction Hl as [|i l Hi Hl IH]; intros before; cbn [log_refs_from].
  { split; [done|constructor]. }
  destruct (IH (before ++ [i])) as (H1 & H2). pose proof (input_ok_bounds i Hi).
  split; [|constructor; cbn; [lia|done]].
  rewrite log_bytes_cons, zlen_app, zlen_record_bytes, <- H1. done.
Qed.

Lemma elem_of_log_refs_from s before log r : r ∈ log_refs_from s before log <->
  exists pre input post, log = pre ++ input :: post /\ r = ref_after s (before ++ pre) input.
Proof.
  revert before. induction log as [|i log IH]; intros before; cbn [log_refs_from].
  { split; [by intros ?%not_elem_of_nil|intros ([] & ? & ? & ? & _); done]. }
  rewrite elem_of_cons, IH. split.
  - intros [->|(pre & input & post & -> & ->)].
    + exists [], i, log. by rewrite app_nil_r.
    + exists (i :: pre), input, post. by rewrite <- app_assoc.
  - intros ([|j pre] & input & post & E & ->); injection E as <- ->.
    + left. by rewrite app_nil_r.
    + right. exists pre, input, post. by rewrite <- app_assoc.
Qed.

Lemma elem_of_log_refs s log r : r ∈ log_refs s log <->
  exists pre input post, log = pre ++ input :: post /\ r = ref_after s pre input.
Proof. apply elem_of_log_refs_from. Qed.

Lemma validate_log_ref s log r : seg_rep s log -> r ∈ log_refs s log -> validate_ref_extent s r = Ok tt.
Proof.
  intros Hrep (pre & input & post & -> & ->)%elem_of_log_refs.
  pose proof (read_extent_log true s pre input post Hrep) as Hr. unfold read_extent in Hr.
  by destruct (validate_ref_extent s (ref_after s pre input)) as [[]| |].
Qed.

(** Live records never outgrow the segment. *)
Lemma live_bounds s log live : seg_rep s log -> live ⊆+ log_refs s log ->
  0 <= sum_sizes live <= kSegmentSizeBytes /\ 56 * zlen live <= sum_sizes live.
Proof.
  intros Hrep [k Hk]%submseteq_Permutation.
  destruct (log_refs_from_sizes s [] log (rep_inputs _ _ Hrep)) as [Hsum Hall].
  fold (log_refs s log) in *. rewrite Hk in Hsum, Hall. rewrite sum_sizes_app in Hsum.
  apply Forall_app in Hall as [Hl Hk'].
  assert (Hpos : forall l, Forall (fun r => 56 <= ref_size r) l -> 56 * zlen l <= sum_sizes l).
  { clear. induction 1 as [|r l Hr Hl IH]; [done|]. rewrite zlen_cons. cbn. unfold sum_sizes in IH. lia. }
  pose proof (Hpos _ Hl). pose proof (Hpos _ Hk'). pose proof (zlen_nonneg live). pose proof (zlen_nonneg k).
  pose proof (rep_fits _ _ Hrep). unfold log_end in *. unfold_seg. lia.
Qed.

Lemma mark_live_ok s log live ref : live_ok s log live -> ref :: live ⊆+ log_refs s log ->
  exists s', mark_live s ref = Ok s' /\ live_ok s' log (ref :: live) /\
    seg_id s' = seg_id s /\ seg_generation s' = seg_generation s /\ seg_state s' = seg_state s /\
    seg_owner s' = seg_owner s.
Proof.
  intros [Hrep Hsub Hc Ht] Hnew. pose proof (live_bounds _ _ _ Hrep Hnew) as [Hb Hn].
  pose proof (zlen_nonneg live). rewrite zlen_cons in Hn.
  unfold mark_live. rewrite (validate_log_ref s log) by
    (done || by eapply elem_of_submseteq; [|exact Hnew]; left).
  cbn [bindR]. eexists. split; [done|]. cbn. unfold_seg.
  rewrite Hc, Ht. rewrite !(wrap_small 64) by (width; cbn in Hb; unfold sum_sizes in *; cbn in *; lia).
  split; [|done]. split; cbn [live_records seg_stats with_stats live_bytes]; try done.
  - by destruct Hrep.
  - by rewrite (log_refs_ext _ s).
  - rewrite zlen_cons. lia.
  - unfold sum_sizes. cbn. lia.
Qed.

Lemma mark_dead_ok s log live live' ref : live_ok s log live -> live ≡ₚ ref :: live' ->
  exists s', mark_dead s ref = Ok s' /\ live_ok s' log live' /\
    seg_id s' = seg_id s /\ seg_generation s' = seg_generation s /\ seg_state s' = seg_state s /\
    seg_owner s' = seg_owner s.
Proof.
  intros [Hrep Hsub Hc Ht] Hp. assert (zlen live = 1 + zlen live') as Hz.
  { unfold zlen. rewrite Hp. cbn. lia. }
  rewrite Hp in Ht, Hsub. pose proof (live_bounds _ _ _ Hrep Hsub) as [Hb Hn]. rewrite zlen_cons in Hn.
  pose proof (zlen_nonneg live'). assert (live' ⊆+ log_refs s log) as Hsub'.
  { etrans; [|exact Hsub]. by apply submseteq_cons. }
  pose proof (live_bounds _ _ _ Hrep Hsub') as [Hb' _].
  assert (sum_sizes (ref :: live') = ref_size ref + sum_sizes live') as Hs by done.
  assert (56 <= ref_size ref) as Hr.
  { destruct (log_refs_from_sizes s [] log (rep_inputs _ _ Hrep)) as [_ Hall].
    rewrite Forall_forall in Hall. apply Hall. eapply elem_of_submseteq; [|exact Hsub]. left. }
  unfold mark_dead. rewrite (validate_log_ref s log) by
    (done || by eapply elem_of_submseteq; [|exact Hsub]; left).
  cbn [bindR]. rewrite Hc, Ht, Hs, Hz.
  destruct (Z.eqb_spec (1 + zlen live') 0); [lia|].
  destruct (Z.ltb_spec (ref_size ref + sum_sizes live') (ref_size ref)); [lia|]. cbn [orb].
  eexists. split; [done|]. unfold_seg. rewrite !(wrap_small 64) by (width; lia).
  split; [|done]. split; cbn [live_records seg_stats with_stats live_bytes]; try done; try lia.
  - by destruct Hrep.
  - by rewrite (log_refs_ext _ s).
Qed.

Lemma retire_ok s log live : live_ok s log live ->
  retire s = if bool_decide (seg_state s = seg_sealed /\ live = [])
             then Ok (with_state s seg_retired) else Err invalid_argument.
Proof.
  intros [Hrep Hsub Hc Ht]. unfold retire. rewrite Hc.
  repeat case_bool_decide; cbn [negb orb]; destruct (Z.eqb_spec (zlen live) 0) as [Hz|Hz]; cbn;
    try done; destruct live; naive_solver.
Qed.

Lemma log_refs_from_app s before l k :
  log_refs_from s before (l ++ k) = log_refs_from s before l ++ log_refs_from s (before ++ l) k.
Proof.
  revert before. induction l as [|i l IH]; intros before; cbn [app log_refs_from]; [by rewrite app_nil_r|].
  by rewrite IH, <- app_assoc.
Qed.

(** Each record starts behind the ones before it. *)
Lemma log_refs_nodup s log : seg_rep s log -> NoDup (log_refs s log).
Proof.
  intros Hrep. pose proof (rep_inputs _ _ Hrep) as Hin. clear Hrep. unfold log_refs. generalize (@nil RecordInput) as before.
  induction Hin as [|i log Hi _ IH]; intros before; cbn [log_refs_from]; constructor; [|apply IH].
  intros (pre & input & post & _ & E)%elem_of_log_refs_from. apply (f_equal ref_offset) in E. cbn [ref_after ref_offset] in E.
  pose proof (input_ok_bounds i Hi). rewrite <- app_assoc in E. unfold log_end in E. rewrite !log_bytes_app, !zlen_app in E.
  assert (zlen (log_bytes [i]) = record_size i) as Hz by (unfold log_bytes; cbn; by rewrite app_nil_r, zlen_record_bytes).
  pose proof (zlen_nonneg (log_bytes pre)). cbn [app] in E. lia.
Qed.

Lemma append_accepts debug s log input : seg_rep s log -> RecordInput_ok input ->
  is_Ok (append debug s input) = true <->
  seg_state s = seg_active /\ encodable input /\
  kSegmentHeaderReservedBytes + zlen (log_bytes log) + record_size input <= kSegmentSizeBytes.
Proof.
  intros Hrep Hok. fold (log_end log). rewrite append_cases with (log := log) by done.
  destruct (bool_decide_reflect (seg_state s = seg_active)) as [Hs|Hs]; cbn [negb]; [|by split; [done|intros [? _]]].
  pose proof (encoded_record_size_cases input) as Hc. destruct (encoded_record_size input) as [size|e|f]; cbn [bindR is_Ok]; [|..|done].
  - destruct Hc as [He ->]. destruct (Z.gtb_spec (log_end log + record_size input) kSegmentSizeBytes); cbn [is_Ok];
      (split; [|done || lia]); intros; [done|by split_and!].
  - split; [done|]. by intros (_ & He & _); destruct Hc.
Qed.

(** ** Properties *)

(** [append] refines appending to a log.  It succeeds exactly on an active
    segment, for a record of the format that still fits in 64 MiB; the reference
    it returns names the end of the log, and the new segment holds the log
    extended by the record.  Every refusal says which condition failed. *)
Theorem segment_append_refines debug s log input :
  seg_rep s log -> RecordInput_ok input ->
  match append debug s input with
  | Ok (ref, s') =>
      seg_state s = seg_active /\ encodable input /\
      log_end log + record_size input <= kSegmentSizeBytes /\
      ref = ref_after s log input /\ seg_rep s' (log ++ [input])
  | Err segment_sealed => seg_state s <> seg_active
  | Err segment_full =>
      seg_state s = seg_active /\ encodable input /\
      kSegmentSizeBytes < log_end log + record_size input
  | Err e => seg_state s = seg_active /\ ~ encodable input /\
             (e = invalid_argument \/ e = record_too_large)
  | Stuck _ => False
  end.
Proof.
  intros Hrep Hok. destruct (append debug s input) as [[ref s']|e|f] eqn:E.
  { destruct (append_rep debug s log input ref s' Hrep Hok E) as (? & ? & ? & ? & ? & _). done. }
  all: rewrite append_cases with (log := log) in E by done.
  all: destruct (bool_decide_reflect (seg_state s = seg_active)) as [Hs|Hs]; cbn [negb] in E;
    [|by simplify_eq].
  all: pose proof (encoded_record_size_cases input) as Hc;
    destruct (encoded_record_size input) as [size| |]; cbn [bindR] in E; simplify_eq; try done.
  - destruct Hc as [He ->]. destruct (Z.gtb_spec (log_end log + record_size input) kSegmentSizeBytes);
      simplify_eq. done.
  - destruct Hc as [Hn [-> | ->]]; auto.
  - destruct Hc as [He ->]. by destruct (log_end log + record_size input >? kSegmentSizeBytes).
Qed.

(** C30. A segment keeps what it has issued.  Run any calls, successful or not, on a
    fresh segment, then any further calls, and note every reference [append] returned
    with the record it was given.  The references issued first are still there, and no
    other one when the first state was no longer active; every issued reference reads
    exactly the record it was issued for, with or without checksum verification; no
    two are the same; a scan lists exactly the issued references, in order.  And the
    next record is accepted exactly on an active segment, when it is of the format and
    fits behind the issued ones. *)
Theorem segment_history debug id owner generation ops1 ops2 :
  Forall op_ok ops1 -> Forall op_ok ops2 ->
  let st1 := foldl (seg_step debug) (new_segment id owner generation, []) ops1 in
  let st2 := foldl (seg_step debug) st1 ops2 in
  (exists more, st2.2 = st1.2 ++ more /\ (seg_state st1.1 <> seg_active -> more = [])) /\
  (forall verify ref input, (ref, input) ∈ st2.2 -> read_extent verify st2.1 ref = Ok (view_of input)) /\
  NoDup st2.2.*1 /\ scan st2.1 = Ok st2.2.*1 /\
  forall input, RecordInput_ok input ->
    (is_Ok (append debug st2.1 input) = true <->
     seg_state st2.1 = seg_active /\ encodable input /\
     kSegmentHeaderReservedBytes + sum_sizes st2.2.*1 + record_size input <= kSegmentSizeBytes).
Proof.
  intros H1 H2 st1 st2. assert (H0 : holds_issued (new_segment id owner generation, [])) by (split; [apply new_segment_rep|done]).
  destruct (seg_run_holds debug ops1 _ H0 H1) as (Hh1 & _). fold st1 in Hh1.
  destruct (seg_run_holds debug ops2 _ Hh1 H2) as ([Hr E] & Hmore). fold st2 in Hr, E, Hmore.
  split; [exact Hmore|]. clear Hmore. clearbody st2. destruct st2 as [s2 issued]. cbn [fst snd] in *. split_and!.
  - intros verify ref input (pre & post & ->)%list_elem_of_split. rewrite fmap_app, fmap_cons in Hr.
    rewrite !fmap_app, !fmap_cons in E. unfold log_refs in E. rewrite log_refs_from_app in E. cbn [fst snd] in *.
    apply app_inj_1 in E as [_ E]; [|by rewrite length_log_refs_from, !length_fmap].
    injection E as -> _. by eapply read_extent_log.
  - rewrite E. by apply log_refs_nodup.
  - rewrite E. by apply scan_log.
  - intros input Hin. pose proof (append_accepts debug s2 _ input Hr Hin) as Ha. rewrite Ha, E.
    destruct (log_refs_from_sizes s2 [] issued.*2 (rep_inputs _ _ Hr)) as [Hs _].
    unfold log_refs. rewrite Hs. done.
Qed.

(** Reading any reference whatsoever from a segment, with or without checksum
    verification, stays inside the bytes that have been written, and a record it
    returns carries the sequence and the size the reference asked for. *)
Theorem segment_read_safe verify s log ref :
  seg_rep s log -> RefWidth ref ->
  match read_extent verify s ref with
  | Ok v => rv_sequence v = ref_sequence ref /\ rv_encoded_size v = ref_size ref
  | Err e => e = invalid_reference \/ e = invalid_record \/ e = checksum_mismatch /\ verify = true
  | Stuck _ => False
  end.
Proof.
  intros Hrep Hw. pose proof (read_extent_defined verify s log ref Hrep Hw) as H.
  destruct (read_extent verify s ref); naive_solver.
Qed.

(** Liveness accounting is exact.  While the counters of a segment account for
    a collection of its records, marking another record live or a member dead
    succeeds and accounts for the changed collection, the 64-bit counters never
    wrap, and a sealed segment retires exactly when no record is live. *)
Theorem segment_liveness_exact s log live :
  live_ok s log live ->
  (forall ref, ref :: live ⊆+ log_refs s log ->
     exists s', mark_live s ref = Ok s' /\ live_ok s' log (ref :: live)) /\
  (forall ref live', live ≡ₚ ref :: live' ->
     exists s', mark_dead s ref = Ok s' /\ live_ok s' log live') /\
  (is_Ok (retire s) = true <-> seg_state s = seg_sealed /\ live = []).
Proof.
  intros H. split_and!.
  - intros ref Hr. destruct (mark_live_ok s log live ref H Hr) as (s' & ? & ? & _). eauto.
  - intros ref live' Hp. destruct (mark_dead_ok s log live live' ref H Hp) as (s' & ? & ? & _). eauto.
  - rewrite (retire_ok s log live H). case_bool_decide as Hb; cbn; split; try done.
Qed.

(** ** Witnesses *)

Definition sample_segment : Segment :=
  (foldl (seg_step true) (new_segment 5 0 1, []) [op_append sample_input]).1.

Lemma sample_ops_ok : Forall op_ok [op_append sample_input].
Proof. apply Forall_singleton, sample_input_ok. Qed.

Lemma sample_segment_rep : seg_rep sample_segment [sample_input].
Proof.
  destruct (append_rep true (new_segment 5 0 1) [] sample_input
    (ref_after (new_segment 5 0 1) [] sample_input) sample_segment
    (new_segment_rep 5 0 1) sample_input_ok) as (_ & _ & H & _); [vm_compute; reflexivity|exact H].
Qed.

Lemma segment_append_refines_witness :
  match append true sample_segment sample_input with
  | Ok (ref, s') =>
      seg_state sample_segment = seg_active /\ encodable sample_input /\
      log_end [sample_input] + record_size sample_input <= kSegmentSizeBytes /\
      ref = ref_after sample_segment [sample_input] sample_input /\
      seg_rep s' ([sample_input] ++ [sample_input])
  | Err segment_sealed => seg_state sample_segment <> seg_active
  | Err segment_full =>
      seg_state sample_segment = seg_active /\ encodable sample_input /\
      kSegmentSizeBytes < log_end [sample_input] + record_size sample_input
  | Err e => seg_state sample_segment = seg_active /\ ~ encodable sample_input /\
             (e = invalid_argument \/ e = record_too_large)
  | Stuck _ => False
  end.
Proof.
  apply (segment_append_refines true sample_segment [sample_input] sample_input);
    [apply sample_segment_rep|apply sample_input_ok].
Defined.

(** A second put, then the segment is sealed and refuses a third one. *)
Definition later_input : RecordInput :=
  mkRecordInput 8 Opcode_put ValueType_bytes 0 12345678901234567890 0 [107; 101; 121] [1; 2; 3].
Definition history_before : list seg_op := [op_append sample_input].
Definition history_after : list seg_op := [op_append later_input; op_seal; op_append sample_input; op_retire].
Definition history_end : Segment * Issued :=
  foldl (seg_step true) (foldl (seg_step true) (new_segment 5 0 1, []) history_before) history_after.

Lemma later_input_ok : RecordInput_ok later_input.
Proof. unfold RecordInput_ok, later_input. cbn. unfold Opcode_put, ValueType_bytes. width. split_and!; try lia; bytes_eval. Qed.

Lemma segment_history_witness :
  history_end.2.*2 = [sample_input; later_input] /\ scan history_end.1 = Ok history_end.2.*1 /\
  forall verify ref input, (ref, input) ∈ history_end.2 -> read_extent verify history_end.1 ref = Ok (view_of input).
Proof.
  split; [vm_compute; reflexivity|].
  destruct (segment_history true 5 0 1 history_before history_after) as (_ & Hread & _ & Hscan & _).
  - apply sample_ops_ok.
  - repeat constructor; first [apply sample_input_ok|apply later_input_ok].
  - split; [exact Hscan|exact Hread].
Defined.

Lemma segment_read_safe_witness :
  match read_extent true sample_segment (mkRecordRef 5 4100 64 7 1) with
  | Ok v => rv_sequence v = 7 /\ rv_encoded_size v = 64
  | Err e => e = invalid_reference \/ e = invalid_record \/ e = checksum_mismatch /\ true = true
  | Stuck _ => False
  end.
Proof.
  apply (segment_read_safe true sample_segment [sample_input] (mkRecordRef 5 4100 64 7 1)).
  - apply sample_segment_rep.
  - unfold RefWidth. cbn. width. lia.
Defined.

Lemma segment_liveness_exact_witness :
  (forall ref, [ref] ⊆+ log_refs sample_segment [sample_input] ->
     exists s', mark_live sample_segment ref = Ok s' /\ live_ok s' [sample_input] [ref]) /\
  (forall ref live', [] ≡ₚ ref :: live' ->
     exists s', mark_dead sample_segment ref = Ok s' /\ live_ok s' [sample_input] live') /\
  (is_Ok (retire sample_segment) = true <-> seg_state sample_segment = seg_sealed /\ @nil RecordRef = []).
Proof.
  apply (segment_liveness_exact sample_segment [sample_input] []). split.
  - apply sample_segment_rep.
  - apply submseteq_nil_l.
  - vm_compute. reflexivity.
  - vm_compute. reflexivity.
Defined.
