(* ===== verification/File.v ===== *)
(** * Files

    Models src/persistence/filesystem.cpp (class FileDescriptor) and the error
    mapping of system_error.hpp: positional writes and reads that go on until the
    whole extent is transferred, and synchronization.  The operating system is a
    parameter: it answers every call as it likes (short transfers, errors, signals
    that interrupt it).  A file keeps what is known to be on the medium and the writes that are not yet
    known to be there; [crash] says what a power failure may leave. *)

From S2P Require Import Prelude Core.

(** ** System calls *)

(** The values of [errno] the mapping distinguishes. *)
Inductive Errno := ENOSPC | EDQUOT | EFBIG | EMFILE | ENFILE | EROFS | other_errno.

Definition persistence_system_error (error_number : Errno) : ErrorCode :=
  match error_number with
  | ENOSPC | EDQUOT => storage_exhausted
  | EFBIG => file_too_large
  | EMFILE | ENFILE => descriptor_exhausted
  | EROFS => read_only_filesystem
  | other_errno => io_error
  end.

Inductive FileSyncMode := sync_data | sync_ordered | sync_full.

(** Answers of [pwrite] and [pread] that no signal interrupted.  A [pwrite] that
    fails may have written a part of its bytes. *)
Inductive WriteAnswer := wrote (n : nat) | write_error (n : nat) (errno : Errno).
Inductive ReadAnswer := got (n : nat) | read_error (errno : Errno).

(** The places where a hook may refuse to go on. *)
Inductive FilesystemOperation :=
  | fs_create_data_directory | fs_sync_parent_directory | fs_write_manifest | fs_sync_manifest
  | fs_rename_manifest | fs_sync_directory | fs_preallocate_segment | fs_write_segment_header
  | fs_sync_segment_file | fs_rename_segment | fs_write_record | fs_sync_record
  | fs_write_commit_slot | fs_sync_commit_slot | fs_write_bootstrap | fs_sync_bootstrap
  | fs_rename_bootstrap | fs_remove_bootstrap | fs_write_compaction_intent
  | fs_sync_compaction_intent | fs_rename_compaction_intent | fs_remove_compaction_intent
  | fs_remove_compaction_segment | fs_copy_backup_segment | fs_copy_backup_manifest
  | fs_sync_backup_destination.

(** The operating system and the installed hooks; the first argument counts the
    calls.  [answer_signal] says which calls a signal interrupts: such a call has done
    nothing and fails with [EINTR].  The code repeats it without bound; what it relies
    on is that signals do not go on for ever, at most [patience] of them in a row. *)
Record System := mkSystem {
  answer_write : nat -> Z -> Z -> WriteAnswer;
  answer_read : nat -> Z -> Z -> ReadAnswer;
  answer_sync : nat -> FileSyncMode -> option Errno;
  answer_before : nat -> FilesystemOperation -> option ErrorCode;
  answer_signal : nat -> bool;
  patience : nat;
  signals_end : forall calls, exists k, (k <= patience)%nat /\ answer_signal (calls + k) = false
}.

(** A system without signals. *)
Lemma no_signals (calls : nat) : exists k, (k <= 0)%nat /\ (fun _ : nat => false) (calls + k)%nat = false.
Proof. by exists 0%nat. Qed.
Definition quiet_system write read sync before : System :=
  mkSystem write read sync before (fun _ => false) 0 no_signals.

(** ** Contents *)

(** The byte at every offset. *)
Abbreviation image := (Z -> Z).

(** A [pwrite] of [w_data] at [w_offset] that was reported to write the first
    [w_done] bytes. *)
Record Write := mkWrite { w_offset : Z; w_data : list Z; w_done : nat }.

Definition covers (w : Write) (o : Z) : Prop := w_offset w <= o < w_offset w + zlen (w_data w).
Definition byte_of (bs : list Z) (j : Z) : Z := default 0 (bs !! Z.to_nat j).

(** [g] with [bs] written at [off]. *)
Definition overwrite (g : image) (off : Z) (bs : list Z) : image := fun o =>
  if (off <=? o) && (o <? off + zlen bs) then byte_of bs (o - off) else g o.
Definition apply_write (g : image) (w : Write) : image :=
  overwrite g (w_offset w) (take (w_done w) (w_data w)).
Definition after (ws : list Write) (g : image) : image := foldl apply_write g ws.
Definition bytes_at (g : image) (off n : Z) : list Z := g <$> seqZ off n.

(** [f_base] is on the medium.  Each list of [f_closed] holds the writes between
    two barriers, [f_open] the writes after the last one.  After a failed
    synchronization the kernel may have dropped the writes, and a later one that
    succeeds promises nothing ([f_lost]). *)
Record File := mkFile {
  f_base : image;
  f_closed : list (list Write);
  f_open : list Write;
  f_lost : bool;
  f_calls : nat
}.

(** What a read sees: every write so far. *)
Definition f_view (f : File) : image := after (f_open f) (after (concat (f_closed f)) (f_base f)).

(** A file at rest. *)
Definition file_on (g : image) : File := mkFile g [] [] false 0.

Definition count_call (f : File) : File :=
  mkFile (f_base f) (f_closed f) (f_open f) (f_lost f) (S (f_calls f)).
Definition record_write (w : Write) (f : File) : File :=
  mkFile (f_base f) (f_closed f) (f_open f ++ [w]) (f_lost f) (S (f_calls f)).
(** [F_BARRIERFSYNC]: what was written before reaches the medium before what is
    written later.  [fdatasync], which the other platforms call, promises more. *)
Definition barrier (f : File) : File :=
  if f_lost f then count_call f
  else mkFile (f_base f) (f_closed f ++ [f_open f]) [] false (S (f_calls f)).
(** [F_FULLFSYNC], [fsync] and [fdatasync]: everything is on the medium. *)
Definition persist (f : File) : File :=
  if f_lost f then count_call f else mkFile (f_view f) [] [] false (S (f_calls f)).
Definition lose (f : File) : File := mkFile (f_base f) (f_closed f) (f_open f) true (S (f_calls f)).

(** ** FileDescriptor *)

Definition kMaximumOffset : Z := 2 ^ 63 - 1.
Definition SSIZE_MAX : Z := 2 ^ 63 - 1.

Section descriptor.
Variable sys : System.

(** Whether the next call is interrupted. *)
Definition interrupted : Method File bool := fun f =>
  if answer_signal sys (f_calls f) then (Ok true, count_call f) else (Ok false, f).

Definition pwrite (bytes : list Z) (offset : Z) : Method File Z := fun f =>
  match answer_write sys (f_calls f) (zlen bytes) offset with
  | wrote n => (Ok (Z.of_nat n), record_write (mkWrite offset bytes n) f)
  | write_error n errno =>
      (Err (persistence_system_error errno), record_write (mkWrite offset bytes n) f)
  end.

Definition pread (n offset : Z) : Method File (list Z) := fun f =>
  match answer_read sys (f_calls f) n offset with
  | got m => (Ok (bytes_at (f_view f) offset (Z.of_nat m)), count_call f)
  | read_error errno => (Err (persistence_system_error errno), count_call f)
  end.

(** [while (written < bytes.size())]: a turn is interrupted, or it writes at least one
    byte. *)
Fixpoint write_loop (fuel : nat) (bytes : list Z) (offset written : Z) : Method File unit :=
  if negb (written <? zlen bytes) then retM tt
  else match fuel with
       | O => liftM (Stuck out_of_fuel)
       | S fuel =>
           let remaining := u64 (zlen bytes - written) in
           let chunk := Z.min remaining SSIZE_MAX in
           let! current := liftM (subspan bytes written chunk) in
           let! eintr := interrupted in
           if (eintr : bool) then write_loop fuel bytes offset written
           else
           let! result := pwrite current (u64 (offset + written)) in
           if result =? 0 then failM io_error
           else if result >? chunk then failM internal_error
           else write_loop fuel bytes offset (u64 (written + result))
       end.

Definition write_all_at (bytes : list Z) (offset : Z) : Method File unit :=
  if (offset >? kMaximumOffset) || (zlen bytes >? u64 (kMaximumOffset - offset))
  then failM invalid_argument
  else write_loop (S (patience sys) * S (length bytes)) bytes offset 0.

(** [while (read < bytes.size())]; [bytes] is what was read so far. *)
Fixpoint read_loop (fuel : nat) (size offset : Z) (bytes : list Z) : Method File (list Z) :=
  if negb (zlen bytes <? size) then retM bytes
  else match fuel with
       | O => liftM (Stuck out_of_fuel)
       | S fuel =>
           let remaining := u64 (size - zlen bytes) in
           let chunk := Z.min remaining SSIZE_MAX in
           let! eintr := interrupted in
           if (eintr : bool) then read_loop fuel size offset bytes
           else
           let! result := pread chunk (u64 (offset + zlen bytes)) in
           if zlen result =? 0 then failM corrupted_data
           else if zlen result >? chunk then failM internal_error
           else read_loop fuel size offset (bytes ++ result)
       end.

Definition read_exact_at (size offset : Z) : Method File (list Z) :=
  if (offset >? kMaximumOffset) || (size >? u64 (kMaximumOffset - offset))
  then failM invalid_argument
  else read_loop (S (patience sys) * S (Z.to_nat size)) size offset [].

(** [hooks_.before]: an exception of the hook is reported as [resource_exhausted]. *)
Definition before (operation : FilesystemOperation) : Method File unit := fun f =>
  match answer_before sys (f_calls f) operation with
  | Some e => (Err e, count_call f)
  | None => (Ok tt, count_call f)
  end.

(** One call of [fsync] or its likes. *)
Definition sync_once (mode : FileSyncMode) : Method File unit := fun f =>
  match answer_sync sys (f_calls f) mode with
  | Some errno => (Err (persistence_system_error errno), lose f)
  | None => (Ok tt, match mode with sync_ordered => barrier f | _ => persist f end)
  end.

(** [do ... while (result != 0 && errno == EINTR)] *)
Fixpoint sync_loop (fuel : nat) (mode : FileSyncMode) : Method File unit :=
  match fuel with
  | O => liftM (Stuck out_of_fuel)
  | S fuel =>
      let! eintr := interrupted in
      if (eintr : bool) then sync_loop fuel mode else sync_once mode
  end.
Definition sync (mode : FileSyncMode) : Method File unit := sync_loop (S (patience sys)) mode.
End descriptor.

(** ** Power failure *)

(** A power failure in the middle of the writes [ws] leaves at every offset the
    byte that was there or one that a write put there. *)
Definition torn (base : image) (ws : list Write) (g : image) : Prop := forall o,
  g o = base o \/ exists w, w ∈ ws /\ covers w o /\ g o = byte_of (w_data w) (o - w_offset w).

(** ** Bytes of an image *)

Lemma byte_of_lookup bs j x : bs !! Z.to_nat j = Some x -> byte_of bs j = x.
Proof. unfold byte_of. by intros ->. Qed.

Lemma overwrite_in g off bs o : off <= o < off + zlen bs -> overwrite g off bs o = byte_of bs (o - off).
Proof.
  intros H. unfold overwrite.
  by destruct (Z.leb_spec off o), (Z.ltb_spec o (off + zlen bs)); cbn [andb]; try lia.
Qed.
Lemma overwrite_out g off bs o : ~ (off <= o < off + zlen bs) -> overwrite g off bs o = g o.
Proof.
  intros H. unfold overwrite.
  by destruct (Z.leb_spec off o), (Z.ltb_spec o (off + zlen bs)); cbn [andb]; try lia.
Qed.

Lemma zlen_bytes_at g off n : 0 <= n -> zlen (bytes_at g off n) = n.
Proof. intros. unfold zlen, bytes_at. rewrite length_fmap, length_seqZ. lia. Qed.
#[export] Hint Rewrite zlen_bytes_at using lia : zlen.

Lemma bytes_at_ext g h off n :
  (forall o, off <= o < off + n -> g o = h o) -> bytes_at g off n = bytes_at h off n.
Proof.
  intros H. apply list_fmap_ext. intros j o Ho. apply lookup_seqZ in Ho as [-> ?]. apply H. lia.
Qed.

Lemma bytes_at_app g off n m : 0 <= n -> 0 <= m ->
  bytes_at g off (n + m) = bytes_at g off n ++ bytes_at g (off + n) m.
Proof. intros. unfold bytes_at. by rewrite <- fmap_app, seqZ_app. Qed.

Lemma bytes_at_lookup g off n j : 0 <= j < n -> bytes_at g off n !! Z.to_nat j = Some (g (off + j)).
Proof.
  intros H. unfold bytes_at. rewrite list_lookup_fmap.
  rewrite (proj2 (lookup_seqZ off n (Z.to_nat j) (off + j))) by lia. done.
Qed.

(** An image holds [bs] at [off] when each of its bytes is there. *)
Lemma bytes_at_eq g off n bs : zlen bs = n ->
  bytes_at g off n = bs <-> forall o, off <= o < off + n -> g o = byte_of bs (o - off).
Proof.
  intros Hn. pose proof (zlen_nonneg bs). split.
  - intros <- o Ho. symmetry. apply byte_of_lookup.
    rewrite bytes_at_lookup by lia. do 2 f_equal. lia.
  - intros H'. apply list_eq_same_length with (length bs); [done| |].
    { unfold bytes_at, zlen in *. rewrite length_fmap, length_seqZ. lia. }
    intros j x y Hj Hx Hy. replace j with (Z.to_nat (Z.of_nat j)) in Hx by lia.
    rewrite bytes_at_lookup in Hx by (unfold zlen in *; lia). injection Hx as <-.
    rewrite H' by (unfold zlen in *; lia). apply byte_of_lookup.
    by replace (Z.to_nat (off + Z.of_nat j - off)) with j by lia.
Qed.

Lemma bytes_at_overwrite g off bs : bytes_at (overwrite g off bs) off (zlen bs) = bs.
Proof. apply bytes_at_eq; [done|]. intros o Ho. by apply overwrite_in. Qed.

Lemma slice_bytes_at g off n a m : 0 <= a -> 0 <= m -> a + m <= n ->
  slice a m (bytes_at g off n) = bytes_at g (off + a) m.
Proof.
  intros. replace n with (a + (m + (n - a - m))) by lia.
  rewrite !bytes_at_app by lia. rewrite slice_app_r by zl. autorewrite with zlen.
  rewrite Z.sub_diag, slice_app_l by zl. by rewrite slice_whole by zl.
Qed.

Lemma byte_of_take n bs j : 0 <= j < Z.of_nat n -> byte_of (take n bs) j = byte_of bs j.
Proof. intros. unfold byte_of. by rewrite lookup_take_lt by lia. Qed.
Lemma byte_of_zdrop a bs j : 0 <= a -> 0 <= j -> byte_of (zdrop a bs) j = byte_of bs (a + j).
Proof.
  intros. unfold byte_of, zdrop. rewrite lookup_drop. do 2 f_equal. lia.
Qed.

(** Writing the next bytes after the first [a]. *)
Lemma overwrite_step g off bs a n o : 0 <= a -> 0 <= n -> a + n <= zlen bs ->
  overwrite (overwrite g off (ztake a bs)) (off + a) (take (Z.to_nat n) (zdrop a bs)) o =
  overwrite g off (ztake (a + n) bs) o.
Proof.
  intros. assert (zlen (take (Z.to_nat n) (zdrop a bs)) = n) as Hn.
  { change (take (Z.to_nat n) (zdrop a bs)) with (slice a n bs). zl. }
  destruct (decide (off + a <= o < off + a + n)) as [Ho|Ho].
  - rewrite overwrite_in, overwrite_in by (rewrite ?Hn, ?zlen_ztake by lia; lia).
    unfold ztake. rewrite !byte_of_take, byte_of_zdrop by lia. f_equal. lia.
  - rewrite overwrite_out by (rewrite Hn; lia).
    destruct (decide (off <= o < off + a)).
    + rewrite !overwrite_in by (rewrite ?zlen_ztake by lia; lia).
      unfold ztake. by rewrite !byte_of_take by lia.
    + by rewrite !overwrite_out by (rewrite ?zlen_ztake by lia; lia).
Qed.

(** ** What the descriptor does *)

(** A write call of the loop over [bytes] at [off]. *)
Definition piece (off : Z) (bytes : list Z) (w : Write) : Prop := exists j,
  0 <= j < zlen bytes /\ w_offset w = off + j /\ w_data w = zdrop j bytes.

(** [f'] is [f] after the writes [ws]. *)
Definition extends (f : File) (ws : list Write) (f' : File) : Prop :=
  f_base f' = f_base f /\ f_closed f' = f_closed f /\ f_open f' = f_open f ++ ws /\ f_lost f' = f_lost f.

Lemma extends_trans f ws f' ws' f'' :
  extends f ws f' -> extends f' ws' f'' -> extends f (ws ++ ws') f''.
Proof.
  intros (Hb & Hc & Ho & Hl) (Hb' & Hc' & Ho' & Hl').
  split_and!; [congruence..| |congruence]. by rewrite Ho', Ho, app_assoc.
Qed.
Lemma extends_view f ws f' : extends f ws f' -> f_view f' = after ws (f_view f).
Proof. intros (Hb & Hc & Ho & _). unfold f_view, after. by rewrite Hb, Hc, Ho, foldl_app. Qed.
Lemma extends_nil f f' : extends f [] f' -> f_view f' = f_view f.
Proof. apply extends_view. Qed.

Lemma covers_piece off bytes w o : piece off bytes w -> covers w o -> off <= o < off + zlen bytes.
Proof.
  intros (j & Hj & Hw & Hd) Hc. unfold covers in Hc. rewrite Hw, Hd, zlen_zdrop in Hc by lia. lia.
Qed.

Lemma apply_write_out g w o : ~ covers w o -> apply_write g w o = g o.
Proof.
  intros H. apply overwrite_out. unfold covers in H.
  pose proof (length_take_le (w_data w) (w_done w)).
  assert (zlen (take (w_done w) (w_data w)) <= zlen (w_data w)) by (unfold zlen; rewrite length_take; lia).
  lia.
Qed.

(** Writes leave alone the offsets they do not cover. *)
Lemma after_out ws g o : (forall w, w ∈ ws -> ~ covers w o) -> after ws g o = g o.
Proof.
  revert g. induction ws as [|w ws IH]; intros g H; [done|]. cbn. unfold after in IH.
  rewrite IH by (intros; apply H; by right). apply apply_write_out, H. by left.
Qed.
Lemma after_app ws ws' g : after (ws ++ ws') g = after ws' (after ws g).
Proof. apply foldl_app. Qed.

Lemma after_ext ws g h o : (forall o, g o = h o) -> after ws g o = after ws h o.
Proof.
  revert g h. induction ws as [|w ws IH]; intros g h H; [done|]. cbn. apply IH. intros o'.
  unfold apply_write, overwrite. by destruct (_ && _).
Qed.

Section descriptor_spec.
Variable sys : System.

(** Turns that are left: those that end in an answer and the signals before the next. *)
Definition turns (todo : Z) (f : File) (fuel : nat) : Prop := exists k, (k <= patience sys)%nat /\
  answer_signal sys (f_calls f + k) = false /\ todo * Z.of_nat (S (patience sys)) + Z.of_nat k < Z.of_nat fuel.

Lemma turns_start todo f : 0 <= todo -> turns todo f (S (patience sys) * S (Z.to_nat todo)).
Proof. intros H. destruct (signals_end sys (f_calls f)) as (k & Hk & E). exists k. split_and!; [done..|nia]. Qed.

(** A signal, or an answer after which there is less to do. *)
Lemma turns_signal todo f fuel : turns todo f (S fuel) -> answer_signal sys (f_calls f) = true -> turns todo (count_call f) fuel.
Proof.
  intros (k & Hk & E & Hf) Hs. destruct k as [|k]; [rewrite Nat.add_0_r in E; congruence|].
  exists k. cbn [count_call f_calls]. rewrite <- plus_n_Sm in E. split_and!; [lia|exact E|lia].
Qed.
Lemma turns_progress todo todo' f f' fuel : turns todo f (S fuel) -> 0 <= todo' < todo -> turns todo' f' fuel.
Proof.
  intros (k & Hk & E & Hf) Ht. destruct (signals_end sys (f_calls f')) as (k' & Hk' & E'). exists k'. split_and!; [done..|nia].
Qed.

Lemma extends_count f : extends f [] (count_call f).
Proof. unfold extends. cbn. by rewrite app_nil_r. Qed.

Lemma write_loop_spec fuel bytes off written f :
  0 <= off -> off + zlen bytes <= kMaximumOffset -> 0 <= written <= zlen bytes ->
  turns (zlen bytes - written) f fuel ->
  runs (write_loop sys fuel bytes off written f)
    (fun _ f' => exists ws, extends f ws f' /\ Forall (piece off bytes) ws /\
       forall g o, after ws (overwrite g off (ztake written bytes)) o = overwrite g off bytes o)
    (fun _ f' => exists ws, extends f ws f' /\ Forall (piece off bytes) ws).
Proof.
  revert written f. induction fuel as [|fuel IH]; intros written f Hoff Hmax Hw Hfuel.
  { destruct Hfuel as (k & _ & _ & ?). nia. }
  pose proof (zlen_nonneg bytes). unfold kMaximumOffset in *. cbn [write_loop].
  destruct (Z.ltb_spec written (zlen bytes)) as [Hlt|Hge]; cbn [negb].
  2:{ exists []. unfold extends. rewrite app_nil_r, ztake_all by lia. by split_and!. }
  unfold SSIZE_MAX. rewrite !(wrap_small 64) by (width; lia). rewrite Z.min_l by lia.
  rewrite subspan_in by lia. rewrite bindM_lift, slice_rest by lia.
  unfold bindM at 1, interrupted. destruct (answer_signal sys (f_calls f)) eqn:Es.
  { eapply runs_weaken; [apply (IH written (count_call f)); [done..|by apply turns_signal]| |];
      [intros _ f' (ws & He & H2)|intros e f' (ws & He & H2)];
      exists ws; (split; [by apply (extends_trans _ [] _ ws _ (extends_count f))|exact H2]). }
  set (w n := mkWrite (off + written) (zdrop written bytes) n).
  assert (forall n, piece off bytes (w n)) as Hp by (intros n; exists written; split_and!; done || lia).
  assert (forall n, exists ws, extends f ws (record_write (w n) f) /\ Forall (piece off bytes) ws) as Hone.
  { intros n. exists [w n]. split; [done|]. by apply Forall_singleton. }
  unfold bindM at 1, pwrite. destruct (answer_write _ _ _ _) as [n|n errno]; [|by apply Hone].
  fold (w n). destruct (Z.eqb_spec (Z.of_nat n) 0); [by apply Hone|].
  rewrite Z.gtb_ltb. destruct (Z.ltb_spec (zlen bytes - written) (Z.of_nat n)); [by apply Hone|].
  rewrite (wrap_small 64) by (width; lia).
  eapply runs_weaken; [apply (IH (written + Z.of_nat n)); [lia..|eapply turns_progress; [exact Hfuel|lia]]| |].
  - intros _ f' (ws & He & Hps & Hv). exists (w n :: ws). split_and!.
    + by apply (extends_trans f [w n] (record_write (w n) f)).
    + by constructor.
    + intros g o. rewrite <- Hv. change (after (w n :: ws) ?x) with (after ws (apply_write x (w n))).
      apply after_ext. intros o'. unfold apply_write. cbn. rewrite <- overwrite_step by lia.
      by rewrite Nat2Z.id.
  - intros e f' (ws & He & Hps). exists (w n :: ws). split; [|by constructor].
    by apply (extends_trans f [w n] (record_write (w n) f)).
Qed.

Lemma write_all_at_pieces bytes off f :
  0 <= off -> off + zlen bytes <= kMaximumOffset ->
  runs (write_all_at sys bytes off f)
    (fun _ f' => exists ws, extends f ws f' /\ Forall (piece off bytes) ws /\
       forall g o, after ws g o = overwrite g off bytes o)
    (fun _ f' => exists ws, extends f ws f' /\ Forall (piece off bytes) ws).
Proof.
  intros Hoff Hmax. pose proof (zlen_nonneg bytes). unfold write_all_at, kMaximumOffset in *.
  rewrite (wrap_small 64) by (width; lia). rewrite !Z.gtb_ltb.
  destruct (Z.ltb_spec (2 ^ 63 - 1) off), (Z.ltb_spec (2 ^ 63 - 1 - off) (zlen bytes)); try lia.
  cbn [orb]. eapply runs_weaken; [apply write_loop_spec; [unfold kMaximumOffset; lia..|]| |done].
  { replace (length bytes) with (Z.to_nat (zlen bytes - 0)) by (unfold zlen; lia). apply turns_start. lia. }
  intros _ f' (ws & He & Hps & Hv). exists ws. split_and!; [done..|]. intros g o.
  rewrite <- Hv. apply after_ext. intros o'. rewrite overwrite_out; [done|].
  rewrite ztake_0, zlen_nil. lia.
Qed.

Lemma write_all_at_spec bytes off f :
  0 <= off -> off + zlen bytes <= kMaximumOffset ->
  runs (write_all_at sys bytes off f)
    (fun _ f' => exists ws, extends f ws f' /\ Forall (piece off bytes) ws /\
       forall o, f_view f' o = overwrite (f_view f) off bytes o)
    (fun _ f' => exists ws, extends f ws f' /\ Forall (piece off bytes) ws).
Proof.
  intros Hoff Hmax. eapply runs_weaken; [by apply write_all_at_pieces| |done].
  intros _ f' (ws & He & Hps & Hv). exists ws. split_and!; [done..|]. intros o.
  by rewrite (extends_view _ _ _ He), Hv.
Qed.

(** The operating system delivers at least one byte of every read. *)
Definition reads_progress : Prop := forall calls n off, 0 < n ->
  exists m, answer_read sys calls n off = got m /\ 0 < Z.of_nat m <= n.

Lemma read_loop_spec fuel size off bytes f :
  0 <= off -> off + size <= kMaximumOffset -> 0 <= size -> zlen bytes <= size ->
  bytes = bytes_at (f_view f) off (zlen bytes) -> turns (size - zlen bytes) f fuel ->
  runs (read_loop sys fuel size off bytes f)
    (fun bs f' => bs = bytes_at (f_view f) off size /\ extends f [] f')
    (fun _ f' => extends f [] f' /\ ~ reads_progress).
Proof.
  revert bytes f. induction fuel as [|fuel IH]; intros bytes f Hoff Hmax Hsz Hb Hbs Hfuel.
  { destruct Hfuel as (k & _ & _ & ?). nia. }
  pose proof (zlen_nonneg bytes). unfold kMaximumOffset in *. cbn [read_loop].
  assert (extends f [] f) as Hrefl by (unfold extends; by rewrite app_nil_r).
  pose proof (extends_count f) as Hx.
  destruct (Z.ltb_spec (zlen bytes) size) as [Hlt|Hge]; cbn [negb].
  2:{ split; [|done]. by replace (zlen bytes) with size in Hbs by lia. }
  unfold SSIZE_MAX. rewrite !(wrap_small 64) by (width; lia). rewrite Z.min_l by lia.
  assert (reads_progress -> exists m, answer_read sys (f_calls f) (size - zlen bytes) (off + zlen bytes) =
    got m /\ 0 < Z.of_nat m <= size - zlen bytes) as Hprog by (intros Hr; apply Hr; lia).
  unfold bindM at 1, interrupted. destruct (answer_signal sys (f_calls f)) eqn:Es.
  { eapply runs_weaken; [apply (IH bytes (count_call f)); [done..|by rewrite (extends_nil _ _ Hx)|by apply turns_signal]| |].
    - intros bs f' [-> He]. rewrite (extends_nil _ _ Hx). split; [done|]. by apply (extends_trans _ _ _ [] _ Hx).
    - intros e f' [He Hn]. split; [|done]. by apply (extends_trans _ _ _ [] _ Hx). }
  unfold bindM at 1, pread. destruct (answer_read _ _ _ _) as [m|errno].
  2:{ split; [done|]. intros (m & ? & _)%Hprog. discriminate. }
  rewrite zlen_bytes_at by lia. destruct (Z.eqb_spec (Z.of_nat m) 0).
  { split; [done|]. intros (m' & [= <-] & ?)%Hprog. lia. }
  rewrite Z.gtb_ltb. destruct (Z.ltb_spec (size - zlen bytes) (Z.of_nat m)).
  { split; [done|]. intros (m' & [= <-] & ?)%Hprog. lia. }
  rewrite <- (extends_nil _ _ Hx).
  assert (zlen (bytes ++ bytes_at (f_view (count_call f)) (off + zlen bytes) (Z.of_nat m)) =
    zlen bytes + Z.of_nat m) as Hl by (rewrite zlen_app, zlen_bytes_at by lia; done).
  eapply runs_weaken; [apply IH; rewrite ?Hl; try lia| |].
  2:{ eapply turns_progress; [exact Hfuel|lia]. }
  - rewrite bytes_at_app by lia. f_equal. by rewrite (extends_nil _ _ Hx).
  - intros bs f' [-> He]. split; [done|]. by apply (extends_trans _ _ _ [] _ Hx).
  - intros e f' [He Hn]. split; [|done]. by apply (extends_trans _ _ _ [] _ Hx).
Qed.

Lemma read_exact_at_spec size off f :
  0 <= off -> off + size <= kMaximumOffset -> 0 <= size ->
  runs (read_exact_at sys size off f)
    (fun bs f' => bs = bytes_at (f_view f) off size /\ extends f [] f')
    (fun _ f' => extends f [] f' /\ ~ reads_progress).
Proof.
  intros Hoff Hmax Hsz. unfold read_exact_at, kMaximumOffset in *.
  rewrite (wrap_small 64) by (width; lia). rewrite !Z.gtb_ltb.
  destruct (Z.ltb_spec (2 ^ 63 - 1) off), (Z.ltb_spec (2 ^ 63 - 1 - off) size); try lia.
  cbn [orb]. apply read_loop_spec; unfold kMaximumOffset; rewrite ?zlen_nil, ?Z.sub_0_r; try (done || lia).
  by apply turns_start.
Qed.

(** Nothing but the count of calls changes before the answer. *)
Lemma sync_spec mode f :
  runs (sync sys mode f)
    (fun _ f' => exists f1, extends f [] f1 /\ f' = match mode with sync_ordered => barrier f1 | _ => persist f1 end)
    (fun _ f' => exists f1, extends f [] f1 /\ f' = lose f1).
Proof.
  assert (Hloop : forall fuel f1, turns 0 f1 fuel -> extends f [] f1 ->
    runs (sync_loop sys fuel mode f1)
      (fun _ f' => exists f1, extends f [] f1 /\ f' = match mode with sync_ordered => barrier f1 | _ => persist f1 end)
      (fun _ f' => exists f1, extends f [] f1 /\ f' = lose f1)).
  { induction fuel as [|fuel IH]; intros f1 Ht He; [destruct Ht as (k & _ & _ & ?); nia|]. cbn [sync_loop].
    unfold bindM, interrupted. destruct (answer_signal sys (f_calls f1)) eqn:Es.
    - apply IH; [by apply turns_signal|]. by apply (extends_trans _ [] _ [] _ He), extends_count.
    - unfold sync_once. destruct (answer_sync _ _ _); cbn; by exists f1. }
  unfold sync. apply Hloop; [|unfold extends; by rewrite app_nil_r].
  pose proof (turns_start 0 f ltac:(lia)) as H. change (S (Z.to_nat 0)) with 1%nat in H. by rewrite Nat.mul_1_r in H.
Qed.
End descriptor_spec.
