(* ===== verification/SegmentFile.v ===== *)
(** * Durable segment files

    Models src/persistence/segment_file.cpp and segment_file_io.cpp (class
    DurableSegmentFile): a segment on disk, whose records become part of it when
    one of two alternating commit slots names them.  Writing, synchronizing,
    sealing, reopening and reading are translated with every early return; the
    operating system answers as it likes (File.v). *)

From S2P Require Import Prelude Core Crc32c Record SegmentHeader Segment File.

Inductive SegmentCommitOutcome := committed | not_committed | indeterminate.
Inductive SegmentCommitSync := immediate | deferred.

Record SegmentCommitResult := mkCommitResult {
  outcome : SegmentCommitOutcome;
  commit_error : option ErrorCode
}.
Definition commit_failure (o : SegmentCommitOutcome) (e : ErrorCode) : SegmentCommitResult :=
  mkCommitResult o (Some e).
Definition commit_success : SegmentCommitResult := mkCommitResult committed None.
Definition is_committed (r : SegmentCommitResult) : bool :=
  match outcome r with committed => true | _ => false end.

(** The members of [DurableSegmentFile]; [health_] is the flag it shares with its
    directory. *)
Record DurableSegmentFile := mkSegmentFile {
  file_ : File;
  identity_ : SegmentHeaderIdentity;
  selected_ : SelectedSegmentCommit;
  persisted_ : SelectedSegmentCommit;
  health_ : bool;
  writable_ : bool;
  pending_record_count_ : Z;
  pending_bytes_ : Z;
  dirty_ : bool
}.

Definition with_file (s : DurableSegmentFile) (f : File) : DurableSegmentFile :=
  mkSegmentFile f (identity_ s) (selected_ s) (persisted_ s) (health_ s) (writable_ s)
    (pending_record_count_ s) (pending_bytes_ s) (dirty_ s).
Definition with_dirty (s : DurableSegmentFile) (dirty : bool) : DurableSegmentFile :=
  mkSegmentFile (file_ s) (identity_ s) (selected_ s) (persisted_ s) (health_ s) (writable_ s)
    (pending_record_count_ s) (pending_bytes_ s) dirty.
(** A new handle on an open file. *)
Definition new_handle (f : File) (identity : SegmentHeaderIdentity) (selected : SelectedSegmentCommit)
    (health writable : bool) : DurableSegmentFile :=
  mkSegmentFile f identity selected selected health writable 0 0 false.

Definition poison (s : DurableSegmentFile) : DurableSegmentFile :=
  mkSegmentFile (file_ s) (identity_ s) (selected_ s) (persisted_ s) false (writable_ s)
    (pending_record_count_ s) (pending_bytes_ s) (dirty_ s).

Definition rollback_pending_metadata (s : DurableSegmentFile) : DurableSegmentFile :=
  let commit := selected_commit (selected_ s) in
  let kept := selected_commit (persisted_ s) in
  mkSegmentFile (file_ s) (identity_ s)
    (mkSelected (slot_index (selected_ s))
       (mkCommit (commit_generation commit) (committed_end kept) (commit_state commit)
          (record_count kept) (first_sequence kept) (last_sequence kept)))
    (persisted_ s) (health_ s) (writable_ s) 0 0 (dirty_ s).

(** The assignments of [publish_commit] after the slot is written. *)
Definition adopt (slot : Z) (commit : SegmentCommit) (s : DurableSegmentFile) : DurableSegmentFile :=
  mkSegmentFile (file_ s) (identity_ s) (mkSelected slot commit) (mkSelected slot commit)
    (health_ s) (writable_ s) 0 0 (dirty_ s).

(** The assignments of [append_record] after the record is written. *)
Definition extend (record : RecordView) (record_offset size : Z) (s : DurableSegmentFile) : DurableSegmentFile :=
  let commit := selected_commit (selected_ s) in
  let first := if record_count commit =? 0 then rv_sequence record else first_sequence commit in
  mkSegmentFile (file_ s) (identity_ s)
    (mkSelected (slot_index (selected_ s))
       (mkCommit (commit_generation commit) (u32 (record_offset + size)) (commit_state commit)
          (u64 (record_count commit + 1)) first (rv_sequence record)))
    (persisted_ s) (health_ s) (writable_ s)
    (u64 (pending_record_count_ s + 1)) (u64 (pending_bytes_ s + size)) true.

(** A method of the file descriptor. *)
Definition on_file {A} (m : Method File A) : Method DurableSegmentFile A := fun s =>
  let '(r, f) := m (file_ s) in (r, with_file s f).

Definition has_pending_commit (s : DurableSegmentFile) : bool := pending_record_count_ s >? 0.

(** A write pacer grants a number of bytes or fails; the first argument counts
    the calls of the file. *)
Abbreviation Pacing := (option (nat -> Z -> nat + ErrorCode)).

Section segment_file.
Variable sys : System.

Definition before_file (operation : FilesystemOperation) : Method DurableSegmentFile unit :=
  on_file (before sys operation).

Definition publish_commit (commit : SegmentCommit) (mode : SegmentCommitSync) :
    Method DurableSegmentFile SegmentCommitResult :=
  try! encoded := liftM (encode_segment_commit_slot (zeros kSegmentCommitSlotBytes) commit)
    otherwise e => (modifyM rollback_pending_metadata ;;! retM (commit_failure not_committed e)) in
  let! s := getM in
  if negb (commit_generation commit =? u64 (commit_generation (selected_commit (persisted_ s)) + 1))
  then modifyM rollback_pending_metadata ;;! retM (commit_failure not_committed sequence_conflict)
  else
  let next_slot := u64 (slot_index (persisted_ s) + 1) mod Z.of_nat kSegmentCommitSlotCount in
  let slot_offset := kSegmentCommitSlotsOffset + next_slot * kSegmentCommitSlotBytes in
  try! _ := before_file fs_write_commit_slot
    otherwise e => (modifyM rollback_pending_metadata ;;! retM (commit_failure not_committed e)) in
  try! _ := on_file (write_all_at sys encoded slot_offset)
    otherwise e => (modifyM rollback_pending_metadata ;;! modifyM poison ;;!
                    retM (commit_failure indeterminate e)) in
  modifyM (adopt next_slot commit) ;;!
  match mode with
  | deferred => modifyM (fun s => with_dirty s true) ;;! retM commit_success
  | immediate =>
      try! _ := before_file fs_sync_commit_slot
        otherwise e => (modifyM poison ;;! retM (commit_failure indeterminate e)) in
      try! _ := on_file (sync sys sync_data)
        otherwise e => (modifyM poison ;;! retM (commit_failure indeterminate e)) in
      modifyM (fun s => with_dirty s false) ;;! retM commit_success
  end.

Definition sync_file : Method DurableSegmentFile SegmentCommitResult :=
  let! s := getM in
  if negb (health_ s) then retM (commit_failure indeterminate io_error)
  else if negb (dirty_ s) then retM commit_success
  else
  try! _ := before_file fs_sync_commit_slot
    otherwise e => (modifyM poison ;;! retM (commit_failure indeterminate e)) in
  try! _ := on_file (sync sys sync_data)
    otherwise e => (modifyM poison ;;! retM (commit_failure indeterminate e)) in
  modifyM (fun s => with_dirty s false) ;;! retM commit_success.

(** [pacing.acquire]; without a pacer the whole rest is written at once. *)
Definition acquire (pacing : Pacing) (remaining : Z) : Method DurableSegmentFile Z := fun s =>
  match pacing with
  | None => (Ok remaining, s)
  | Some pace =>
      let s' := with_file s (count_call (file_ s)) in
      match pace (f_calls (file_ s)) remaining with
      | inr e => (Err e, s')
      | inl granted =>
          if (Z.of_nat granted =? 0) || (Z.of_nat granted >? remaining)
          then (Err internal_error, s') else (Ok (Z.of_nat granted), s')
      end
  end.

(** [while (written_bytes < encoded_record.size())]: every turn writes at least
    one byte.  [None] when the whole record is written. *)
Fixpoint append_loop (fuel : nat) (pacing : Pacing) (encoded_record : list Z)
    (record_offset written_bytes : Z) : Method DurableSegmentFile (option SegmentCommitResult) :=
  if negb (written_bytes <? zlen encoded_record) then retM None
  else match fuel with
       | O => liftM (Stuck out_of_fuel)
       | S fuel =>
           let remaining_record_bytes := u64 (zlen encoded_record - written_bytes) in
           try! write_bytes := acquire pacing remaining_record_bytes
             otherwise e => retM (Some (commit_failure not_committed e)) in
           let! part := liftM (subspan encoded_record written_bytes write_bytes) in
           try! _ := on_file (write_all_at sys part (u64 (record_offset + written_bytes)))
             otherwise e => (modifyM poison ;;! retM (Some (commit_failure not_committed e))) in
           append_loop fuel pacing encoded_record record_offset (u64 (written_bytes + write_bytes))
       end.

Definition append_record (encoded_record : list Z) (pacing : Pacing) :
    Method DurableSegmentFile SegmentCommitResult :=
  let! s := getM in
  let commit := selected_commit (selected_ s) in
  if negb (health_ s) then retM (commit_failure indeterminate io_error)
  else if negb (writable_ s) then retM (commit_failure not_committed invalid_argument)
  else if negb (commit_state commit =? PersistedSegmentState_active)
  then retM (commit_failure not_committed segment_sealed)
  else
  try! record := liftM (decode_record encoded_record true)
    otherwise e => retM (commit_failure not_committed e) in
  if (rv_sequence record =? 0) ||
     (negb (record_count commit =? 0) && (rv_sequence record <=? last_sequence commit))
  then retM (commit_failure not_committed sequence_conflict)
  else if (record_count commit =? umax 64) ||
          (commit_generation (selected_commit (persisted_ s)) =? umax 64)
  then retM (commit_failure not_committed arithmetic_overflow)
  else if zlen encoded_record >? u64 (kSegmentSizeBytes - committed_end commit)
  then retM (commit_failure not_committed segment_full)
  else
  let record_offset := committed_end commit in
  try! _ := before_file fs_write_record
    otherwise e => retM (commit_failure not_committed e) in
  let! failed := append_loop (S (length encoded_record)) pacing encoded_record record_offset 0 in
  match failed with
  | Some result => retM result
  | None => modifyM (extend record record_offset (zlen encoded_record)) ;;! retM commit_success
  end.

Definition flush_pending_commit (mode : SegmentCommitSync) : Method DurableSegmentFile SegmentCommitResult :=
  let! s := getM in
  if negb (has_pending_commit s) then
    match mode with
    | immediate => if dirty_ s then sync_file else retM commit_success
    | deferred => retM commit_success
    end
  else
  try! _ := before_file fs_sync_record
    otherwise e => (modifyM rollback_pending_metadata ;;! retM (commit_failure not_committed e)) in
  try! _ := on_file (sync sys sync_ordered)
    otherwise e => (modifyM rollback_pending_metadata ;;! modifyM poison ;;!
                    retM (commit_failure not_committed e)) in
  let! s := getM in
  let commit := selected_commit (selected_ s) in
  publish_commit
    (mkCommit (u64 (commit_generation (selected_commit (persisted_ s)) + 1)) (committed_end commit)
       (commit_state commit) (record_count commit) (first_sequence commit) (last_sequence commit)) mode.

(** [DurableSegmentFile::append] *)
Definition append_segment (encoded_record : list Z) (mode : SegmentCommitSync) :
    Method DurableSegmentFile SegmentCommitResult :=
  let! appended := append_record encoded_record None in
  if negb (is_committed appended) then retM appended else flush_pending_commit mode.

(** [DurableSegmentFile::seal] *)
Definition seal_segment : Method DurableSegmentFile SegmentCommitResult :=
  let! s := getM in
  let commit := selected_commit (selected_ s) in
  if negb (health_ s) then retM (commit_failure indeterminate io_error)
  else if negb (writable_ s) then retM (commit_failure not_committed invalid_argument)
  else if commit_state commit =? PersistedSegmentState_sealed
  then retM (commit_failure not_committed segment_sealed)
  else if commit_generation commit =? umax 64
  then retM (commit_failure not_committed arithmetic_overflow)
  else
  let! flushed := (if has_pending_commit s then flush_pending_commit immediate else retM commit_success) in
  if negb (is_committed flushed) then retM flushed
  else
  let! s := getM in
  let sealed := selected_commit (selected_ s) in
  publish_commit
    (mkCommit (u64 (commit_generation sealed + 1)) (committed_end sealed) PersistedSegmentState_sealed
       (record_count sealed) (first_sequence sealed) (last_sequence sealed)) immediate.

(** ** Creating *)

Inductive SegmentFileCreationOutcome := creation_durable | creation_not_published | creation_indeterminate.

Definition initial_commit : SegmentCommit :=
  mkCommit 1 (u32 kSegmentHeaderReservedBytes) PersistedSegmentState_active 0 0 0.

(** The answers to the calls that name files: whether the final name exists, and
    the errors of [unlinkat], [openat], the allocation, [renameat] and the
    synchronization of the directory. *)
Inductive LookupAnswer := name_present | name_absent | lookup_failed (errno : Errno).
Record Creating := mkCreating {
  lookup_final : LookupAnswer;
  unlink_temporary : option Errno;
  open_temporary : option Errno;
  preallocate : option ErrorCode;
  rename_segment : option Errno;
  sync_directory : option ErrorCode
}.

(** A new temporary file: its preallocated bytes are zero. *)
Definition temporary_handle (identity : SegmentHeaderIdentity) (health : bool) : DurableSegmentFile :=
  new_handle (file_on (fun _ => 0)) identity (mkSelected 0 initial_commit) health true.

Definition not_published {S} (e : ErrorCode) : Method S (SegmentFileCreationOutcome * option ErrorCode) :=
  retM (creation_not_published, Some e).
(** [directory.health_->store(false)] before the result. *)
Definition publication_lost (e : ErrorCode) :
    Method DurableSegmentFile (SegmentFileCreationOutcome * option ErrorCode) :=
  modifyM poison ;;! retM (creation_indeterminate, Some e).
Definition answered (error : option ErrorCode) : Status :=
  match error with Some e => Err e | None => Ok tt end.
Definition answered_errno (error : option Errno) : Status := answered (persistence_system_error <$> error).

(** [DurableSegmentFile::create], run on the handle of its temporary file, which
    it returns when it succeeds.  On failure the temporary name is removed. *)
Definition create (c : Creating) : Method DurableSegmentFile (SegmentFileCreationOutcome * option ErrorCode) :=
  let! s := getM in
  if negb (health_ s) then retM (creation_indeterminate, Some io_error)
  else
  try! header_bytes := liftM (encode_segment_header (zeros kSegmentHeaderReservedBytes)
                                (mkHeader (identity_ s) [Some initial_commit; None]))
    otherwise e => not_published e in
  match lookup_final c with
  | name_present => not_published sequence_conflict
  | lookup_failed errno => not_published (persistence_system_error errno)
  | name_absent =>
      try! _ := liftM (answered_errno (unlink_temporary c)) otherwise e => not_published e in
      try! _ := liftM (answered_errno (open_temporary c)) otherwise e => not_published e in
      try! _ := before_file fs_preallocate_segment otherwise e => not_published e in
      try! _ := liftM (answered (preallocate c)) otherwise e => not_published e in
      try! _ := before_file fs_write_segment_header otherwise e => not_published e in
      try! _ := on_file (write_all_at sys header_bytes 0) otherwise e => not_published e in
      try! _ := before_file fs_sync_segment_file otherwise e => not_published e in
      try! _ := on_file (sync sys sync_full) otherwise e => not_published e in
      try! _ := before_file fs_rename_segment otherwise e => not_published e in
      try! _ := liftM (answered_errno (rename_segment c)) otherwise e => publication_lost e in
      try! _ := before_file fs_sync_directory otherwise e => publication_lost e in
      try! _ := liftM (answered (sync_directory c)) otherwise e => publication_lost e in
      retM (creation_durable, None)
  end.

(** ** Opening *)

Inductive OpenAnswer := opened | open_missing | open_failed (errno : Errno).

(** What [fstat] says of the file. *)
Record FileStat := mkStat {
  st_regular : bool;
  st_nlink : Z;
  st_owned : bool;
  st_shared_mode : bool;
  st_size : Z
}.

(** The answers of [openat] and of the two calls of [fstat], and an injected
    failure. *)
Record Opening := mkOpening {
  injected : bool;
  openat : OpenAnswer;
  stat_private : FileStat + Errno;
  stat_size : FileStat + Errno
}.

Definition check_opened (o : OpenAnswer) : Status :=
  match o with
  | opened => Ok tt
  | open_missing => Err not_found
  | open_failed errno => Err (persistence_system_error errno)
  end.

Definition validate_private_segment (answer : FileStat + Errno) : Status :=
  match answer with
  | inr errno => Err (persistence_system_error errno)
  | inl st =>
      if negb (st_regular st) || negb (st_nlink st =? 1) || negb (st_owned st) || st_shared_mode st
      then Err invalid_argument else Ok tt
  end.

(** [FileDescriptor::size] *)
Definition file_size (answer : FileStat + Errno) : Result Z :=
  match answer with
  | inr errno => Err (persistence_system_error errno)
  | inl st => if st_size st <? 0 then Err io_error else Ok (st_size st)
  end.

(** The checks [open], [open_staged] and [open_path] make on an open file; the
    last one expects no identity. *)
Definition load_segment (o : Opening) (expected : option SegmentHeaderIdentity) :
    Method File (SegmentHeaderIdentity * SelectedSegmentCommit) :=
  let! _ := liftM (check_opened (openat o)) in
  let! _ := liftM (validate_private_segment (stat_private o)) in
  let! size := liftM (file_size (stat_size o)) in
  if negb (size =? kSegmentSizeBytes) then failM invalid_record
  else
  let! header_bytes := read_exact_at sys kSegmentHeaderReservedBytes 0 in
  let! header := liftM (decode_segment_header header_bytes) in
  if match expected with
     | Some identity => negb (bool_decide (decoded_identity header = identity))
     | None => false
     end
  then failM corrupted_data
  else
  let! selected := liftM (select_newest_segment_commit header) in
  retM (decoded_identity header, selected).

Definition handle_on (health writable : bool) (m : Method File (SegmentHeaderIdentity * SelectedSegmentCommit))
    (f : File) : Result DurableSegmentFile :=
  let '(r, f') := m f in
  let? loaded := r in
  Ok (new_handle f' loaded.1 loaded.2 health writable).

(** [DurableSegmentFile::open], in a directory whose health is [health]. *)
Definition open_segment (o : Opening) (health : bool) (expected : SegmentHeaderIdentity) (writable : bool)
    (f : File) : Result DurableSegmentFile :=
  if injected o then Err descriptor_exhausted
  else if negb health then Err io_error
  else handle_on health writable (load_segment o (Some expected)) f.

Definition open_staged (o : Opening) (health : bool) (expected : SegmentHeaderIdentity) (f : File) :
    Result DurableSegmentFile :=
  if negb health then Err io_error
  else handle_on true false (load_segment o (Some expected)) f.

Definition open_path (o : Opening) (empty_path : bool) (f : File) : Result DurableSegmentFile :=
  if empty_path then Err invalid_argument else handle_on true false (load_segment o None) f.

(** ** Reading *)

Section visit.
Context {C : Type}.
(** A visitor changes its context. *)
Variable visitor : RecordRef -> RecordView -> Method C unit.

(** [while (cursor < bytes.size())] of [visit_committed_records]: a record has
    at least 56 bytes.  Returns the count and the first and last sequence. *)
Fixpoint visit_loop (fuel : nat) (identity : SegmentHeaderIdentity) (bytes : list Z)
    (cursor record_count first previous : Z) : Method C (Z * Z * Z) :=
  if negb (cursor <? zlen bytes) then retM (record_count, first, previous)
  else match fuel with
       | O => liftM (Stuck out_of_fuel)
       | S fuel =>
           let remaining := u64 (zlen bytes - cursor) in
           if remaining <? kEncodedRecordHeaderSize then failM corrupted_data
           else
           let! encoded_size := liftM (get_u32 bytes (u64 (cursor + 8))) in
           if (encoded_size <? kEncodedRecordHeaderSize) || (encoded_size >? kMaxNormalRecordSize) ||
              negb (encoded_size mod kRecordAlignment =? 0) || (encoded_size >? remaining)
           then failM corrupted_data
           else
           let! span := liftM (subspan bytes cursor encoded_size) in
           let! record := liftM (decode_record span true) in
           if (rv_sequence record =? 0) || (negb (previous =? 0) && (rv_sequence record <=? previous))
           then failM corrupted_data
           else
           let reference := {| ref_segment_id := id_segment_id identity;
             ref_offset := u32 (kSegmentHeaderReservedBytes + cursor); ref_size := encoded_size;
             ref_sequence := rv_sequence record; ref_generation := id_generation identity |} in
           let! _ := visitor reference record in
           visit_loop fuel identity bytes (u64 (cursor + encoded_size)) (u64 (record_count + 1))
             (if record_count =? 0 then rv_sequence record else first) (rv_sequence record)
       end.

(** The bytes [visit_committed_records] scans. *)
Definition read_committed : Method DurableSegmentFile (list Z) :=
  let! s := getM in
  if negb (health_ s) then failM io_error
  else
  let commit := selected_commit (persisted_ s) in
  let data_size := u64 (committed_end commit - kSegmentHeaderReservedBytes) in
  if record_count commit =? 0 then retM []
  else
  let maximum_records := data_size / kEncodedRecordHeaderSize in
  if record_count commit >? maximum_records then failM corrupted_data
  else on_file (read_exact_at sys data_size kSegmentHeaderReservedBytes).

Definition check_visited (commit : SegmentCommit) (counted : Z * Z * Z) : Status :=
  let '(count, first, previous) := counted in
  if negb (count =? record_count commit) || negb (first =? first_sequence commit) ||
     negb (previous =? last_sequence commit)
  then Err corrupted_data else Ok tt.

(** An empty segment is left at once; scanning no bytes does the same. *)
Definition visit_committed_records : Method (DurableSegmentFile * C) unit := fun '(s, c) =>
  let '(r, s) := read_committed s in
  match r with
  | Ok bytes =>
      let commit := selected_commit (persisted_ s) in
      if record_count commit =? 0 then (Ok tt, (s, c))
      else
      let '(r, c) := (let! counted := visit_loop (length bytes) (identity_ s) bytes 0 0 0 0 in
                      liftM (check_visited commit counted)) c in
      (r, (s, c))
  | Err e => (Err e, (s, c))
  | Stuck f => (Stuck f, (s, c))
  end.
End visit.

(** [scan_committed]: the visitor collects the references. *)
Definition collect (reference : RecordRef) (_ : RecordView) : Method (list RecordRef) unit :=
  modifyM (fun records => records ++ [reference]).

Definition scan_committed : Method DurableSegmentFile (list RecordRef) := fun s =>
  let commit := selected_commit (persisted_ s) in
  let data_size := u64 (committed_end commit - kSegmentHeaderReservedBytes) in
  if record_count commit >? data_size / kEncodedRecordHeaderSize then (Err corrupted_data, s)
  else
  match visit_committed_records collect (s, []) with
  | (Ok _, (s, records)) => (Ok records, s)
  | (Err e, (s, _)) => (Err e, s)
  | (Stuck f, (s, _)) => (Stuck f, s)
  end.

Definition read_record_into_extent (reference : RecordRef) (readable_end : Z) :
    Method DurableSegmentFile (list Z * RecordView) :=
  let! s := getM in
  if negb (health_ s) then failM io_error
  else if negb (ref_segment_id reference =? id_segment_id (identity_ s)) ||
          negb (ref_generation reference =? id_generation (identity_ s))
  then failM invalid_reference
  else
  let offset := ref_offset reference in
  let size := ref_size reference in
  if (offset <? kSegmentHeaderReservedBytes) || negb (offset mod kRecordAlignment =? 0) ||
     (size <? kEncodedRecordHeaderSize) || (size >? kMaxNormalRecordSize) ||
     negb (size mod kRecordAlignment =? 0) || (readable_end >? kSegmentSizeBytes) ||
     (offset >? readable_end) || (size >? u64 (readable_end - offset))
  then failM invalid_reference
  else
  let! bytes := on_file (read_exact_at sys size offset) in
  let! decoded := liftM (decode_record bytes true) in
  if negb (rv_sequence decoded =? ref_sequence reference) || negb (rv_encoded_size decoded =? size)
  then failM invalid_reference
  else retM (bytes, decoded).

Definition read_record_into (reference : RecordRef) : Method DurableSegmentFile (list Z * RecordView) :=
  let! s := getM in
  read_record_into_extent reference (committed_end (selected_commit (persisted_ s))).

Definition read_record (reference : RecordRef) : Method DurableSegmentFile (list Z) :=
  let! read := read_record_into reference in retM read.1.

(** [visit_record] and [visit_runtime_record] hand the record to a visitor. *)
Definition visit_record {A} (reference : RecordRef) (visitor : RecordView -> Result A) :
    Method DurableSegmentFile A :=
  let! read := read_record_into reference in liftM (visitor read.2).
Definition visit_runtime_record {A} (reference : RecordRef) (visitor : RecordView -> Result A) :
    Method DurableSegmentFile A :=
  let! read := read_record_into_extent reference kSegmentSizeBytes in liftM (visitor read.2).
End segment_file.
