(* ===== verification/SegmentFileSpec.v ===== *)
(** * Durable segment files: crash safety

    A segment file stands for a log of records.  Whatever the operating system
    answers and wherever the power fails, reopening the file finds a log that
    holds every record whose synchronization was acknowledged and nothing that
    was not appended.  The exception is sealing a file whose last commit slot is
    not synchronized, which is shown to lose acknowledged records. *)

From S2P Require Import Prelude Core Crc32c Record SegmentHeader Segment File SegmentFile.

(** ** The log of a file *)

Definition last_seq (log : list RecordInput) : Z := foldl (fun _ i => in_sequence i) 0 log.

(** The commit that names the records of [log]. *)
Definition commit_of (generation state : Z) (log : list RecordInput) : SegmentCommit :=
  mkCommit generation (log_end log) state (zlen log) (default 0 (in_sequence <$> head log)) (last_seq log).

Fixpoint increasing (previous : Z) (log : list RecordInput) : Prop :=
  match log with
  | [] => True
  | input :: log => previous < in_sequence input /\ increasing (in_sequence input) log
  end.

Record log_ok (log : list RecordInput) : Prop := {
  log_inputs : Forall input_ok log;
  log_fits : log_end log <= kSegmentSizeBytes;
  log_increasing : increasing 0 log
}.

Definition state_ok (st : Z) : Prop := st = PersistedSegmentState_active \/ st = PersistedSegmentState_sealed.
Definition generation_ok (gen : Z) : Prop := 0 < gen < 2 ^ 64.

Lemma increasing_snoc p log x : increasing p (log ++ [x]) <->
  increasing p log /\ foldl (fun _ i => in_sequence i) p log < in_sequence x.
Proof.
  revert p. induction log as [|y log IH]; intros p; cbn; [tauto|]. rewrite IH. tauto.
Qed.

Lemma increasing_last p log : increasing p log -> p <= foldl (fun _ i => in_sequence i) p log.
Proof.
  revert p. induction log as [|y log IH]; intros p; cbn; [lia|]. intros [? ?%IH]. lia.
Qed.

Lemma log_ok_nil : log_ok [].
Proof. by split. Qed.

Lemma log_end_mod log : log_end log mod 8 = 0.
Proof.
  unfold log_end, kSegmentHeaderReservedBytes. induction log as [|x log IH]; [done|].
  rewrite log_bytes_cons, zlen_app, zlen_record_bytes. destruct (record_size_bounds x) as [_ H]. divlia.
Qed.

Lemma log_end_mono log log' : log `prefix_of` log' -> log_end log <= log_end log'.
Proof.
  intros [k ->]. unfold log_end. rewrite log_bytes_app, zlen_app. pose proof (zlen_nonneg (log_bytes k)). lia.
Qed.

Lemma log_ok_snoc log x : log_ok log -> input_ok x ->
  log_end log + record_size x <= kSegmentSizeBytes -> last_seq log < in_sequence x -> log_ok (log ++ [x]).
Proof.
  intros [Hi Hf Hs] Hx Hfit Hseq. split.
  - apply Forall_app. split; [done|]. by apply Forall_singleton.
  - by rewrite log_end_snoc.
  - by apply increasing_snoc.
Qed.

Lemma log_ok_prefix log log' : log `prefix_of` log' -> log_ok log' -> log_ok log.
Proof.
  intros [k ->] [Hi Hf Hs]. pose proof (log_end_mono log (log ++ k) (prefix_app_r _ _ _ (reflexivity _))).
  split; [by apply Forall_app in Hi as [? _]|lia|].
  clear -Hs. revert Hs. generalize 0. induction log as [|x log IH]; intros p; cbn; [done|].
  intros [? ?]. split; [done|]. by apply IH.
Qed.

Lemma log_count log : log_ok log -> 0 <= zlen log <= 1198372.
Proof.
  intros [Hi Hf _]. pose proof (log_length log Hi). pose proof (zlen_nonneg log).
  unfold kSegmentSizeBytes, kSegmentHeaderReservedBytes in *. lia.
Qed.

Lemma in_sequence_u64 x : input_ok x -> is_u64 (in_sequence x).
Proof. intros [(H & _) _]. exact H. Qed.

Lemma last_seq_u64 log : Forall input_ok log -> is_u64 (last_seq log).
Proof.
  unfold last_seq. induction log as [|x log _] using rev_ind; [intros; width; cbn; lia|].
  rewrite foldl_app. intros H. apply Forall_app in H as [_ H]. apply Forall_cons_1 in H as [H _].
  change (is_u64 (in_sequence x)). by apply in_sequence_u64.
Qed.

Lemma commit_of_ok gen st log : generation_ok gen -> state_ok st -> log_ok log ->
  commit_ok (commit_of gen st log) /\ commit_valid (commit_of gen st log).
Proof.
  intros Hg Hst Hl. pose proof (log_count log Hl). pose proof (log_end_mod log). pose proof (log_end_ge log).
  destruct Hl as [Hi Hf Hs]. pose proof (last_seq_u64 log Hi) as Hlast. unfold generation_ok in Hg.
  unfold commit_ok, commit_valid, commit_of. cbn.
  unfold state_ok, PersistedSegmentState_active, PersistedSegmentState_sealed in *.
  unfold kSegmentSizeBytes, kSegmentHeaderReservedBytes, kRecordAlignment in *.
  split; (split_and!; try (width; lia)).
  - destruct log as [|x log]; cbn; [width; lia|]. apply in_sequence_u64. by apply Forall_cons_1 in Hi as [? _].
  - destruct log as [|x log]; [left; by split_and!|right].
    pose proof (log_length (x :: log) Hi). rewrite zlen_cons in *. pose proof (zlen_nonneg log).
    cbn in Hs. destruct Hs as [? ?%increasing_last]. unfold last_seq. cbn.
    unfold kSegmentHeaderReservedBytes in *. lia.
Qed.

(** ** What is on the medium *)

Definition slot_offset (k : Z) : Z := kSegmentCommitSlotsOffset + k * kSegmentCommitSlotBytes.
Definition slot_at (g : image) (k : Z) : list Z := bytes_at g (slot_offset k) kSegmentCommitSlotBytes.

(** A slot that recovery does not take for a commit. *)
Definition rejected (bs : list Z) : Prop :=
  exists d, decode_segment_commit_slot bs = Ok d /\ offered d = None.

(** The checksum finds a torn slot: a slot after a power failure is the one that
    was there, one that was written as a whole, or rejected. *)
Definition slots_detected (base : image) (ws : list Write) (g : image) : Prop := forall k, k = 0 \/ k = 1 ->
  slot_at g k = slot_at base k \/
  (exists w, w ∈ ws /\ w_offset w = slot_offset k /\ w_data w = slot_at g k) \/
  rejected (slot_at g k).

Definition crash_epoch (base : image) (ws : list Write) (g : image) : Prop :=
  torn base ws g /\ slots_detected base ws g.

(** A power failure happens between two barriers: the writes before are on the
    medium, those after are not. *)
Fixpoint crash_from (base : image) (closed : list (list Write)) (open : list Write) (g : image) : Prop :=
  match closed with
  | [] => crash_epoch base open g
  | ws :: closed => crash_epoch base ws g \/ crash_from (after ws base) closed open g
  end.
Definition crash (f : File) (g : image) : Prop := crash_from (f_base f) (f_closed f) (f_open f) g.

Definition holds (g : image) (log : list RecordInput) : Prop :=
  bytes_at g kSegmentHeaderReservedBytes (zlen (log_bytes log)) = log_bytes log.

(** A slot with no commit of generation [gen] or later. *)
Definition older (gen : Z) (bs : list Z) : Prop :=
  exists d, decode_segment_commit_slot bs = Ok d /\ forall c, offered d = Some c -> commit_generation c < gen.

Ltac unfold_file := unfold slot_at, slot_offset, holds, kSegmentCommitSlotsOffset, kSegmentImmutableHeaderBytes,
  kSegmentCommitSlotBytes, kSegmentHeaderReservedBytes in *.

Section images.
Variable i : SegmentHeaderIdentity.

(** [g] is the segment [i] whose newest commit, in slot [k], names [log]. *)
Record img (g : image) (k gen st : Z) (log : list RecordInput) : Prop := {
  img_k : k = 0 \/ k = 1;
  img_generation : generation_ok gen;
  img_state : state_ok st;
  img_log : log_ok log;
  img_identity : bytes_at g 0 128 = identity_bytes i;
  img_rest : bytes_at g 384 3712 = zeros 3712;
  img_slot : slot_at g k = commit_bytes (commit_of gen st log);
  img_other : older gen (slot_at g (1 - k));
  img_records : holds g log
}.

Lemma rejected_older gen bs : rejected bs -> older gen bs.
Proof. intros (d & Hd & Ho). exists d. split; [done|]. by rewrite Ho. Qed.

Lemma commit_older gen st log gen' : generation_ok gen -> state_ok st -> log_ok log -> gen < gen' ->
  older gen' (commit_bytes (commit_of gen st log)).
Proof.
  intros Hg Hst Hl Hlt. destruct (commit_of_ok gen st log) as [Hc Hv]; [done..|].
  exists (mkSlot slot_valid (Some (commit_of gen st log))). split.
  - rewrite <- (app_nil_r (commit_bytes _)). by apply decode_commit_slot_bytes.
  - intros c [= <-]. done.
Qed.

(** Only the bytes of the header and of the log matter, up to the other slot. *)
Lemma img_frame base g k gen st log : img base k gen st log ->
  (forall o, 0 <= o < log_end log ->
     ~ (slot_offset (1 - k) <= o < slot_offset (1 - k) + 128) -> g o = base o) ->
  older gen (slot_at g (1 - k)) -> img g k gen st log.
Proof.
  intros [Hk Hg Hst Hl Hid Hrest Hslot _ Hrec] Hsame Hold. pose proof (log_end_ge log).
  pose proof (zlen_nonneg (log_bytes log)). unfold log_end in *. unfold_file.
  constructor; [exact Hk|exact Hg|exact Hst|exact Hl|rewrite <- Hid|rewrite <- Hrest|rewrite <- Hslot|
    exact Hold|unfold_file; rewrite <- Hrec at 2];
    unfold_file; apply bytes_at_ext; intros o Ho; apply Hsame; lia.
Qed.

Lemma img_same base g k gen st log : img base k gen st log ->
  (forall o, 0 <= o < log_end log -> g o = base o) -> img g k gen st log.
Proof.
  intros Hi Hsame. apply (img_frame base); [done|auto|]. pose proof (log_end_ge log).
  replace (slot_at g (1 - k)) with (slot_at base (1 - k)); [apply Hi|].
  destruct (img_k _ _ _ _ _ Hi); unfold_file; apply bytes_at_ext; intros o Ho; symmetry; apply Hsame; lia.
Qed.

(** Writing the next commit into the other slot. *)
Lemma img_next base g k gen st log st' log' : img base k gen st log ->
  generation_ok (gen + 1) -> state_ok st' -> log_ok log' -> log `prefix_of` log' -> holds base log' ->
  (forall o, 0 <= o < log_end log' ->
     ~ (slot_offset (1 - k) <= o < slot_offset (1 - k) + 128) -> g o = base o) ->
  slot_at g (1 - k) = commit_bytes (commit_of (gen + 1) st' log') ->
  img g (1 - k) (gen + 1) st' log'.
Proof.
  intros [Hk Hg Hst Hl Hid Hrest Hslot _ Hrec] Hg' Hst' Hl' Hpre Hrec' Hsame Hnew.
  pose proof (log_end_ge log'). pose proof (zlen_nonneg (log_bytes log')). unfold log_end in *.
  assert (slot_at g k = slot_at base k) as Hkept.
  { unfold_file. apply bytes_at_ext. intros o Ho. apply Hsame; lia. }
  constructor; [lia|exact Hg'|exact Hst'|exact Hl'|rewrite <- Hid|rewrite <- Hrest|exact Hnew| |
    unfold_file; rewrite <- Hrec' at 2]; try (unfold_file; apply bytes_at_ext; intros o Ho; apply Hsame; lia).
  replace (1 - (1 - k)) with k by lia. rewrite Hkept, Hslot. apply commit_older; [assumption..|lia].
Qed.

(** *** Recovery *)

Lemma bytes_at_header g : bytes_at g 0 4096 =
  bytes_at g 0 128 ++ slot_at g 0 ++ slot_at g 1 ++ bytes_at g 384 3712.
Proof.
  unfold_file. change 4096 with (128 + (128 + (128 + 3712))). rewrite !bytes_at_app by lia. done.
Qed.

Lemma select_pair d0 d1 k c : (k = 0 \/ k = 1) ->
  offered (if k =? 0 then d0 else d1) = Some c ->
  (forall c', offered (if k =? 0 then d1 else d0) = Some c' -> commit_generation c' < commit_generation c) ->
  select_newest_segment_commit (mkDecodedHeader i [d0; d1]) = Ok (mkSelected k c).
Proof.
  intros Hk Hc Hold. unfold select_newest_segment_commit. cbn [decoded_slots]. rewrite !select_loop_step.
  destruct Hk as [-> | ->]; cbn in Hc, Hold; rewrite Hc.
  - rewrite ?select_loop_step. destruct (offered d1) as [c'|]; [|done].
    specialize (Hold c' eq_refl). cbn [selected_commit].
    destruct (Z.gtb_spec (commit_generation c') (commit_generation c)); [lia|].
    by destruct (Z.eqb_spec (commit_generation c') (commit_generation c)); [lia|].
  - destruct (offered d0) as [c'|]; rewrite ?select_loop_step, ?Hc; [|done].
    specialize (Hold c' eq_refl). cbn [selected_commit].
    by destruct (Z.gtb_spec (commit_generation c) (commit_generation c')); [|lia].
Qed.

Hypothesis Hi : identity_ok i.
Hypothesis Hv : identity_valid i.

Lemma img_recovers g k gen st log : img g k gen st log ->
  exists h, decode_segment_header (bytes_at g 0 4096) = Ok h /\ decoded_identity h = i /\
    select_newest_segment_commit h = Ok (mkSelected k (commit_of gen st log)).
Proof using Hi Hv.
  intros [Hk Hg Hst Hl Hid Hrest Hslot (d & Hd & Hold) Hrec].
  destruct (commit_of_ok gen st log) as [Hc Hcv]; [assumption..|].
  assert (decode_segment_commit_slot (slot_at g k) = Ok (mkSlot slot_valid (Some (commit_of gen st log)))) as Hdk.
  { rewrite Hslot, <- (app_nil_r (commit_bytes _)). by apply decode_commit_slot_bytes. }
  assert (forall k, zlen (slot_at g k) = 128) as Hz by (intros; apply zlen_bytes_at; unfold_file; lia).
  assert (bytes_at g 0 4096 = header_bytes i (slot_at g 0 ++ slot_at g 1) ++ []) as ->.
  { rewrite bytes_at_header, Hid, Hrest, app_nil_r. unfold header_bytes. by rewrite <- !app_assoc. }
  rewrite decode_segment_header_layout by (done || apply Hz).
  destruct Hk as [-> | ->]; [change (1 - 0) with 1 in *|change (1 - 1) with 0 in *]; rewrite Hd, Hdk;
    cbn [bindR]; (eexists; split_and!; [reflexivity|reflexivity|]);
    (apply select_pair; [lia|reflexivity|exact Hold]).
Qed.
End images.

(** ** Epochs *)

Definition beyond (limit : Z) (w : Write) : Prop := limit <= w_offset w.

Section epochs.
Variable i : SegmentHeaderIdentity.
Abbreviation img := (img i).

(** In the writes [ws] on top of [base], a commit that names at least [d] stays
    intact, and the only other commit that may appear names at most [u]. *)
Definition epoch_ok (d u : list RecordInput) (base : image) (ws : list Write) : Prop :=
  exists k gen st log, img base k gen st log /\ d `prefix_of` log /\
  ((log `prefix_of` u /\ Forall (beyond (log_end log)) ws) \/
   exists st' log', generation_ok (gen + 1) /\ state_ok st' /\ log_ok log' /\ log `prefix_of` log' /\
     log' `prefix_of` u /\ holds base log' /\
     Forall (fun w => piece (slot_offset (1 - k)) (commit_bytes (commit_of (gen + 1) st' log')) w \/
                      beyond (log_end log') w) ws).

(** The epochs of a file, ending in the open one. *)
Fixpoint chain (d u : list RecordInput) (base : image) (closed : list (list Write)) (open : list Write) : Prop :=
  match closed with
  | [] => epoch_ok d u base open
  | ws :: closed => epoch_ok d u base ws /\ chain d u (after ws base) closed open
  end.

Lemma covers_offset w o : covers w o -> w_offset w <= o.
Proof. unfold covers. lia. Qed.

Lemma epoch_crash d u base ws g : epoch_ok d u base ws -> crash_epoch base ws g ->
  exists k gen st log, img g k gen st log /\ d `prefix_of` log /\ log `prefix_of` u.
Proof.
  intros (k & gen & st & log & Himg & Hd & Hws) [Htorn Hslots].
  pose proof (img_k _ _ _ _ _ _ Himg) as Hk.
  destruct Hws as [[Hu Hws]|(st' & log' & Hg' & Hst' & Hl' & Hpre & Hu & Hh & Hws)];
    rewrite Forall_forall in Hws.
  - exists k, gen, st, log. split_and!; [|done..]. apply (img_same i base); [done|]. intros o Ho.
    destruct (Htorn o) as [->|(w & Hw & Hc%covers_offset & _)]; [done|]. specialize (Hws w Hw). unfold beyond in Hws. lia.
  - assert (forall o, 0 <= o < log_end log' ->
      ~ (slot_offset (1 - k) <= o < slot_offset (1 - k) + 128) -> g o = base o) as Hsame.
    { intros o Ho Hno. destruct (Htorn o) as [->|(w & Hw & Hc & _)]; [done|].
      destruct (Hws w Hw) as [Hp|Hb].
      - pose proof (covers_piece _ _ _ _ Hp Hc) as Hin. rewrite zlen_commit_bytes in Hin. lia.
      - apply covers_offset in Hc. unfold beyond in Hb. lia. }
    pose proof (log_end_mono _ _ Hpre) as Hmono. pose proof (log_end_ge log').
    assert (older gen (slot_at g (1 - k)) -> exists k gen st log, img g k gen st log /\
      d `prefix_of` log /\ log `prefix_of` u) as Hold.
    { intros Hold. exists k, gen, st, log. split_and!; [|done|by etrans].
      apply (img_frame i base); [done| |done]. intros o Ho. apply Hsame. lia. }
    destruct (Hslots (1 - k)) as [E|[(w & Hw & Hoff & Hdata)|Hr]]; [lia|..].
    + apply Hold. rewrite E. apply Himg.
    + exists (1 - k), (gen + 1), st', log'. split_and!; [|by etrans|done].
      eapply img_next; try eassumption. rewrite <- Hdata.
      destruct (Hws w Hw) as [(j & Hj & Hoff' & ->)|Hb].
      * by replace j with 0 by lia.
      * unfold beyond in Hb. unfold_file. lia.
    + apply Hold. by apply rejected_older.
Qed.

Lemma chain_crash d u closed open base g : chain d u base closed open -> crash_from base closed open g ->
  exists k gen st log, img g k gen st log /\ d `prefix_of` log /\ log `prefix_of` u.
Proof.
  revert base. induction closed as [|ws closed IH]; intros base; cbn.
  - apply epoch_crash.
  - intros [He Hc] [Hcr|Hcr]; eauto using epoch_crash.
Qed.

Lemma epoch_weaken d d' u u' base ws : d' `prefix_of` d -> u `prefix_of` u' ->
  epoch_ok d u base ws -> epoch_ok d' u' base ws.
Proof.
  intros Hd Hu (k & gen & st & log & Himg & Hdl & Hws). exists k, gen, st, log.
  split_and!; [done|by etrans|]. destruct Hws as [[? ?]|(st' & log' & ? & ? & ? & ? & ? & ? & ?)].
  - left. split; [by etrans|done].
  - right. exists st', log'. split_and!; done || by etrans.
Qed.
Lemma chain_weaken d d' u u' closed open base : d' `prefix_of` d -> u `prefix_of` u' ->
  chain d u base closed open -> chain d' u' base closed open.
Proof.
  intros Hd Hu. revert base. induction closed as [|ws closed IH]; intros base; cbn.
  - by apply epoch_weaken.
  - intros [? ?]. split; [by eapply epoch_weaken|auto].
Qed.

(** Writes behind the log are harmless. *)
Lemma epoch_beyond d u base ws ws' : epoch_ok d u base ws -> Forall (beyond (log_end u)) ws' ->
  epoch_ok d u base (ws ++ ws').
Proof.
  intros (k & gen & st & log & Himg & Hdl & Hws) Hb. exists k, gen, st, log. split_and!; [done..|].
  destruct Hws as [[Hu Hws]|(st' & log' & ? & ? & ? & ? & Hu & ? & Hws)].
  - left. split; [done|]. apply Forall_app. split; [done|]. apply log_end_mono in Hu.
    eapply Forall_impl; [done|]. unfold beyond. lia.
  - right. exists st', log'. split_and!; try done. apply Forall_app. split; [done|]. apply log_end_mono in Hu.
    eapply Forall_impl; [done|]. unfold beyond. intros w Hw. right. lia.
Qed.
Lemma chain_beyond d u closed open base ws : chain d u base closed open -> Forall (beyond (log_end u)) ws ->
  chain d u base closed (open ++ ws).
Proof.
  intros Hc Hb. revert base Hc. induction closed as [|e closed IH]; intros base; cbn.
  - intros. by apply epoch_beyond.
  - intros [? ?]. auto.
Qed.

(** A barrier closes the open epoch. *)
Lemma chain_barrier d u closed open base : chain d u base closed open ->
  epoch_ok d u (after open (after (concat closed) base)) [] -> chain d u base (closed ++ [open]) [].
Proof.
  revert base. induction closed as [|e closed IH]; intros base; cbn [chain concat app]; [done|].
  rewrite after_app. intros [? ?] ?. split; [done|auto].
Qed.

(** Only the open epoch changes. *)
Lemma chain_open d u closed open open' base : chain d u base closed open ->
  epoch_ok d u (after (concat closed) base) open' -> chain d u base closed open'.
Proof.
  revert base. induction closed as [|e closed IH]; intros base; cbn [chain concat app]; [done|].
  rewrite after_app. intros [? ?] ?. split; [done|auto].
Qed.
End epochs.

(** ** The state of a handle *)

Lemma runs_on_file {A} (m : Method File A) s ok err : runs (m (file_ s)) ok err ->
  runs (on_file m s) (fun a s' => exists f, s' = with_file s f /\ ok a f)
    (fun e s' => exists f, s' = with_file s f /\ err e f).
Proof. unfold runs, on_file. destruct (m (file_ s)) as [[a|e|x] f]; eauto. Qed.

(** The base of the open epoch. *)
Definition open_base (f : File) : image := after (concat (f_closed f)) (f_base f).

Section handle.
Variable i : SegmentHeaderIdentity.

Definition file_chain (d u : list RecordInput) (f : File) : Prop :=
  chain i d u (f_base f) (f_closed f) (f_open f).

(** The commit that names [p] is below the open epoch, which has nothing but writes
    behind its records. *)
Definition synced (s : DurableSegmentFile) (p : list RecordInput) (k gen st : Z) : Prop :=
  file_chain p p (file_ s) /\ img i (open_base (file_ s)) k gen st p /\
  Forall (beyond (log_end p)) (f_open (file_ s)).

(** [s] accepted the records [a], its persisted commit names [p], and [d] is
    certain to survive; [out] when a deferred commit may be unsynchronized. *)
Record inv (out : bool) (s : DurableSegmentFile) (d p a : list RecordInput) (k gen st : Z) : Prop := {
  inv_identity : identity_ s = i;
  inv_persisted : persisted_ s = mkSelected k (commit_of gen st p);
  inv_selected : selected_ s = mkSelected k (commit_of gen st a);
  inv_prefix : p `prefix_of` a;
  inv_durable : d `prefix_of` p;
  inv_log : log_ok a;
  inv_sealed : st = PersistedSegmentState_sealed -> a = p;
  inv_room : a = p \/ generation_ok (gen + 1);
  inv_count : pending_record_count_ s = zlen a - zlen p;
  inv_bytes : pending_bytes_ s = log_end a - log_end p;
  inv_lost : f_lost (file_ s) = false;
  inv_chain : file_chain d p (file_ s);
  inv_view : img i (f_view (file_ s)) k gen st p;
  inv_holds : holds (f_view (file_ s)) a;
  inv_clean : dirty_ s = false \/ out = false -> synced s p k gen st
}.

(** A handle that has given up: it writes no more. *)
Record given_up (s : DurableSegmentFile) (d a : list RecordInput) : Prop := {
  up_health : health_ s = false;
  up_chain : exists u, u `prefix_of` a /\ file_chain d u (file_ s)
}.

Definition rel (out : bool) (s : DurableSegmentFile) (d a : list RecordInput) : Prop :=
  (exists p k gen st, inv out s d p a k gen st) \/ given_up s d a.

(** *** Changes that matter to nothing *)

Lemma inv_calls out s d p a k gen st f : inv out s d p a k gen st -> extends (file_ s) [] f ->
  inv out (with_file s f) d p a k gen st.
Proof.
  intros H He. pose proof (extends_nil _ _ He) as Hview. destruct He as (Hb & Hc & Ho & Hl).
  rewrite app_nil_r in Ho. destruct H. constructor; cbn; try assumption; unfold synced, file_chain, open_base in *; cbn [file_ with_file];
    rewrite ?Hb, ?Hc, ?Ho, ?Hl, ?Hview; assumption.
Qed.

Lemma inv_poison out s d p a k gen st : inv out s d p a k gen st -> inv out (poison s) d p a k gen st.
Proof. intros []. by constructor. Qed.

(** Writes behind the accepted records. *)
Lemma inv_writes out s d p a k gen st ws f : inv out s d p a k gen st -> extends (file_ s) ws f ->
  Forall (beyond (log_end a)) ws -> inv out (with_file s f) d p a k gen st.
Proof.
  intros H He Hb. pose proof (extends_view _ _ _ He) as Hview. destruct He as (Hba & Hc & Ho & Hl).
  pose proof (log_end_mono _ _ (inv_prefix _ _ _ _ _ _ _ _ H)) as Hmono.
  assert (Forall (beyond (log_end p)) ws) as Hbp by (eapply Forall_impl; [done|]; unfold beyond; lia).
  assert (forall o, o < log_end a -> f_view f o = f_view (file_ s) o) as Hsame.
  { intros o Hoa. rewrite Hview. apply after_out. intros w Hw Hcov%covers_offset.
    rewrite Forall_forall in Hb. specialize (Hb w Hw). unfold beyond in Hb. lia. }
  destruct H. constructor; cbn; try assumption; unfold synced, file_chain, open_base in *; cbn [file_ with_file]; rewrite ?Hba, ?Hc, ?Ho, ?Hl;
    try assumption.
  - by apply chain_beyond.
  - apply (img_same i (f_view (file_ s))); [done|]. intros o Hoo. apply Hsame. lia.
  - unfold holds in *. rewrite <- inv_holds0 at 2. apply bytes_at_ext. intros o Hoo. apply Hsame.
    unfold log_end. lia.
  - intros Hd. destruct (inv_clean0 Hd) as (? & ? & ?). split_and!; [by apply chain_beyond|done|by apply Forall_app].
Qed.

(** The pending records are forgotten. *)
Lemma inv_rollback out s d p a k gen st : inv out s d p a k gen st ->
  inv out (rollback_pending_metadata s) d p p k gen st.
Proof.
  intros []. constructor; cbn; rewrite ?inv_persisted0, ?inv_selected0; try assumption; try done; try (by left).
  - by eapply log_ok_prefix.
  - lia.
  - lia.
  - apply inv_view0.
Qed.

(** Everything written is on the medium. *)
Lemma inv_persist out s d p a k gen st : inv out s d p a k gen st ->
  inv false (with_dirty (with_file s (persist (file_ s))) false) p p a k gen st.
Proof.
  intros []. unfold persist. rewrite inv_lost0.
  assert (img i (f_view (file_ s)) k gen st p) as Hv by done.
  assert (epoch_ok i p p (f_view (file_ s)) []) as He by (exists k, gen, st, p; split_and!; [done..|left]; by split).
  constructor; cbn; try assumption; try done.
Qed.

(** A barrier makes the view the base of the open epoch. *)
Lemma inv_barrier out s d p a k gen st f : inv out s d p a k gen st -> barrier (file_ s) = f ->
  inv out (with_file s f) d p a k gen st /\ img i (open_base f) k gen st p /\
  holds (open_base f) a /\ f_open f = [].
Proof.
  intros [] <-. unfold barrier. rewrite inv_lost0.
  set (f := mkFile _ _ _ _ _). assert (f_view f = f_view (file_ s) /\ open_base f = f_view (file_ s)) as [Hv Hb].
  { unfold f, f_view, open_base. cbn [f_base f_closed f_open]. by rewrite concat_app, after_app; cbn; rewrite app_nil_r. }
  rewrite Hb. split_and!; [|done..]. constructor; cbn [file_ with_file identity_ persisted_ selected_
    pending_record_count_ pending_bytes_ dirty_]; rewrite ?Hv, ?Hb; try assumption; try done.
  - apply chain_barrier; [done|]. exists k, gen, st, p. split_and!; [done..|left]. by split.
  - intros Hd. destruct (inv_clean0 Hd) as (? & ? & ?). unfold synced. cbn [file_ with_file]. rewrite Hb. split_and!; [|done..].
    apply chain_barrier; [done|]. exists k, gen, st, p. split_and!; [done..|left]. by split.
Qed.

Lemma inv_weaken out s d d' p a k gen st : d' `prefix_of` d -> inv out s d p a k gen st -> inv out s d' p a k gen st.
Proof. intros Hd []. constructor; try assumption; [by etrans|].
  eapply chain_weaken; [exact Hd|reflexivity|done].
Qed.

(** A clean handle has nothing that could be lost. *)
Lemma inv_claim out s d p a k gen st : inv out s d p a k gen st -> dirty_ s = false -> inv false s p p a k gen st.
Proof. intros [] Hd. constructor; try assumption; [done|..]; intros; apply inv_clean0; by left. Qed.

Lemma inv_out out out' s d p a k gen st : inv out s d p a k gen st -> (out' = false -> out = false) ->
  inv out' s d p a k gen st.
Proof. intros [] Ho. constructor; try assumption. intros [H|H]; apply inv_clean0; auto. Qed.

Lemma prefix_same_length {A} (l l' : list A) : l `prefix_of` l' -> zlen l' - zlen l <= 0 -> l' = l.
Proof.
  intros [k ->] Hl. rewrite zlen_app in Hl. destruct k as [|x k]; [by rewrite app_nil_r|].
  rewrite zlen_cons in Hl. pose proof (zlen_nonneg k). lia.
Qed.
Lemma ztake_prefix {A} (l l' : list A) : l `prefix_of` l' -> ztake (zlen l) l' = l.
Proof. intros [k ->]. rewrite ztake_app_le, ztake_all by lia. done. Qed.

(** *** Publication of a commit *)

Record ready (out : bool) (s : DurableSegmentFile) (d p a : list RecordInput) (k gen st : Z) : Prop := {
  ready_inv : inv out s d p a k gen st;
  ready_img : img i (open_base (file_ s)) k gen st p;
  ready_holds : holds (open_base (file_ s)) a;
  ready_open : Forall (beyond (log_end a)) (f_open (file_ s));
  ready_generation : generation_ok (gen + 1)
}.

Definition published (out : bool) (mode : SegmentCommitSync) (r : SegmentCommitResult) (s' : DurableSegmentFile)
    (d p a : list RecordInput) (k gen st st' : Z) : Prop :=
  match outcome r with
  | committed =>
      match mode with
      | immediate => dirty_ s' = false /\ inv false s' a a a (1 - k) (gen + 1) st'
      | deferred => inv true s' d a a (1 - k) (gen + 1) st'
      end
  | not_committed =>
      inv out s' d p p k gen st \/
      given_up s' d p /\ record_count (selected_commit (selected_ s')) = zlen p
  | indeterminate => given_up s' d a
  end.

(** The slot of the next commit being written. *)
Lemma slot_pieces out s d p a k gen st st' ws f : ready out s d p a k gen st -> state_ok st' ->
  extends (file_ s) ws f ->
  Forall (piece (slot_offset (1 - k)) (commit_bytes (commit_of (gen + 1) st' a))) ws ->
  file_chain d a f.
Proof.
  intros [H Hbase Hh Hopen Hg] Hst' (Hb & Hc & Ho & Hl) Hp. unfold file_chain. rewrite Hb, Hc, Ho.
  eapply chain_open.
  - eapply chain_weaken; [done| |apply (inv_chain _ _ _ _ _ _ _ _ H)]. apply (inv_prefix _ _ _ _ _ _ _ _ H).
  - exists k, gen, st, p. split_and!; [done|apply (inv_durable _ _ _ _ _ _ _ _ H)|right].
    exists st', a. split_and!; try done; [apply (inv_log _ _ _ _ _ _ _ _ H)|apply (inv_prefix _ _ _ _ _ _ _ _ H)|].
    apply Forall_app. split; eapply Forall_impl; [done|auto|done|auto].
Qed.

Lemma slot_complete out s d p a k gen st st' ws f : ready out s d p a k gen st -> state_ok st' ->
  extends (file_ s) ws f ->
  Forall (piece (slot_offset (1 - k)) (commit_bytes (commit_of (gen + 1) st' a))) ws ->
  (forall o, f_view f o =
     overwrite (f_view (file_ s)) (slot_offset (1 - k)) (commit_bytes (commit_of (gen + 1) st' a)) o) ->
  inv true (with_dirty (adopt (1 - k) (commit_of (gen + 1) st' a) (with_file s f)) true) d a a (1 - k) (gen + 1) st'.
Proof.
  intros Hr Hst' He Hp Hv. pose proof (slot_pieces _ _ _ _ _ _ _ _ _ _ _ Hr Hst' He Hp) as Hch.
  destruct Hr as [[] Hbase Hh Hopen Hg]. destruct He as (_ & _ & _ & Hl).
  pose proof (zlen_commit_bytes (commit_of (gen + 1) st' a)) as Hz.
  pose proof (img_k _ _ _ _ _ _ inv_view0) as Hk.
  assert (img i (f_view f) (1 - k) (gen + 1) st' a) as Himg.
  { apply (img_next i (f_view (file_ s)) _ k gen st p); try assumption.
    - intros o Ho Hno. rewrite Hv. apply overwrite_out. rewrite Hz. done.
    - unfold slot_at. rewrite <- (bytes_at_overwrite (f_view (file_ s)) (slot_offset (1 - k)) (commit_bytes _)).
      rewrite Hz. apply bytes_at_ext. intros. apply Hv. }
  constructor; cbn; try assumption; try done; try (by left); try lia.
  - by etrans.
  - by rewrite Hl.
  - apply (img_records _ _ _ _ _ _ Himg).
Qed.

Lemma ready_calls out s d p a k gen st f : ready out s d p a k gen st -> extends (file_ s) [] f ->
  ready out (with_file s f) d p a k gen st.
Proof.
  intros [H Hb Hh Ho Hg] He. pose proof (inv_calls _ _ _ _ _ _ _ _ _ H He).
  destruct He as (Eb & Ec & Eo & El). rewrite app_nil_r in Eo.
  constructor; cbn; unfold open_base in *; rewrite ?Eb, ?Ec, ?Eo; assumption.
Qed.

Variable sys : System.

Lemma before_spec operation s :
  runs (before_file sys operation s) (fun _ s' => exists f, s' = with_file s f /\ extends (file_ s) [] f)
    (fun _ s' => exists f, s' = with_file s f /\ extends (file_ s) [] f).
Proof.
  apply runs_on_file. unfold before. destruct (answer_before _ _ _); apply extends_count.
Qed.

Lemma given_up_after s d a u k c : u `prefix_of` a -> file_chain d u (file_ s) ->
  given_up (poison (adopt k c s)) d a /\ given_up (poison (rollback_pending_metadata s)) d a.
Proof. intros. split; constructor; cbn; eauto. Qed.

Lemma publish_commit_spec out mode s d p a k gen st st' : ready out s d p a k gen st -> state_ok st' ->
  runs (publish_commit sys (commit_of (gen + 1) st' a) mode s)
    (fun r s' => published out mode r s' d p a k gen st st') (fun _ _ => False).
Proof.
  intros Hr Hst'. unfold publish_commit. destruct (Hr) as [H _ _ _ Hg].
  pose proof (img_k _ _ _ _ _ _ (inv_view _ _ _ _ _ _ _ _ H)) as Hk.
  destruct (commit_of_ok (gen + 1) st' a) as [_ Hcv]; [done..|apply (inv_log _ _ _ _ _ _ _ _ H)|].
  rewrite encode_commit_slot_Ok by (done || (unfold kSegmentCommitSlotBytes; zl)).
  rewrite zdrop_all, app_nil_r by (unfold kSegmentCommitSlotBytes; zl).
  unfold attempt at 1, liftM. rewrite bindM_get, (inv_persisted _ _ _ _ _ _ _ _ H).
  cbn [selected_commit slot_index commit_generation commit_of].
  rewrite (wrap_small 64) by (unfold generation_ok in Hg; width; lia). rewrite Z.eqb_refl. cbn [negb].
  assert (u64 (k + 1) mod Z.of_nat kSegmentCommitSlotCount = 1 - k) as -> by (by destruct Hk as [-> | ->]).
  fold (slot_offset (1 - k)). change (mkCommit (gen + 1) _ _ _ _ _) with (commit_of (gen + 1) st' a).
  eapply runs_attempt; [apply before_spec| |].
  2:{ intros e s' (f & -> & He). left. apply (inv_rollback _ _ _ _ _ _ _ _ (inv_calls _ _ _ _ _ _ _ _ _ H He)). }
  intros [] s1 (f1 & -> & He1). pose proof (ready_calls _ _ _ _ _ _ _ _ _ Hr He1) as Hr1.
  set (s1 := with_file s f1) in *.
  eapply runs_attempt; [apply runs_on_file, write_all_at_spec| |].
  { unfold slot_offset, kSegmentCommitSlotsOffset, kSegmentImmutableHeaderBytes, kSegmentCommitSlotBytes. lia. }
  { rewrite zlen_commit_bytes. unfold kMaximumOffset, slot_offset, kSegmentCommitSlotsOffset,
      kSegmentImmutableHeaderBytes, kSegmentCommitSlotBytes. lia. }
  2:{ intros e s' (f & -> & ws & He & Hp).
      apply (given_up_after (with_file s1 f) d a a 0 (commit_of gen st p)); [done|].
      by eapply slot_pieces. }
  intros [] s2 (f2 & -> & ws & He & Hp & Hview).
  pose proof (slot_complete _ _ _ _ _ _ _ _ _ _ _ Hr1 Hst' He Hp Hview) as Hdone.
  set (s2 := adopt (1 - k) (commit_of (gen + 1) st' a) (with_file s1 f2)) in *.
  rewrite bindM_modify. fold s2. destruct mode; [|exact Hdone].
  assert (forall f, extends f2 [] f -> given_up (poison (with_file s2 f)) d a) as Hup.
  { intros f Hef. constructor; try done. exists a. split; [done|]. cbn.
    pose proof (inv_chain _ _ _ _ _ _ _ _ (inv_calls _ _ _ _ _ _ _ _ _ Hdone Hef)) as Hc. exact Hc. }
  eapply runs_attempt; [apply before_spec| |].
  2:{ intros e s' (f & -> & Hef). by apply Hup. }
  intros [] s3 (f3 & -> & He3). eapply runs_attempt; [apply runs_on_file, sync_spec| |].
  - intros [] s' (f & -> & f4 & He4 & ->). split; [done|]. pose proof (extends_trans _ _ _ _ _ He3 He4) as He34.
    apply (inv_persist _ _ _ _ _ _ _ _ (inv_calls _ _ _ _ _ _ _ _ _ Hdone He34)).
  - intros e s' (f & -> & f4 & He4 & ->). constructor; try done. exists a. split; [done|]. cbn.
    pose proof (extends_trans _ _ _ _ _ He3 He4) as He34.
    apply (inv_chain _ _ _ _ _ _ _ _ (inv_calls _ _ _ _ _ _ _ _ _ Hdone He34)).
Qed.

(** *** What a caller may conclude *)

(** From the answer of a call and the counters of the handle: the records that
    are certain to survive and those that are accepted.  The calls marked
    [strict] promise durability. *)
Definition observe (strict : bool) (r : SegmentCommitResult) (s' : DurableSegmentFile)
    (d a : list RecordInput) : list RecordInput * list RecordInput :=
  match outcome r with
  | committed =>
      (if strict then ztake (record_count (selected_commit (persisted_ s'))) a else d, a)
  | not_committed => (d, ztake (record_count (selected_commit (selected_ s'))) a)
  | indeterminate => (d, a)
  end.
(** Whether a deferred commit may still be unsynchronized: [out] before the call,
    [out'] after a commit that promises nothing. *)
Definition settle (strict : bool) (r : SegmentCommitResult) (out out' : bool) : bool :=
  if is_committed r then if strict then false else out' else out.
Definition observed (out out' strict : bool) (r : SegmentCommitResult) (s' : DurableSegmentFile)
    (d a : list RecordInput) : Prop :=
  rel (settle strict r out out') s' (observe strict r s' d a).1 (observe strict r s' d a).2.

Definition is_immediate (mode : SegmentCommitSync) : bool :=
  match mode with immediate => true | deferred => false end.

(** A promise is kept by a handle with nothing unsynchronized. *)
Lemma observed_inv out strict r s' d p a k gen st : inv out s' d p a k gen st ->
  (outcome r = committed -> strict = true -> dirty_ s' = false) -> observed out out strict r s' d a.
Proof.
  intros H Hs. unfold observed, observe, settle, is_committed. left. exists p, k, gen, st.
  destruct (outcome r); cbn [fst snd].
  - destruct strict; [|done]. rewrite (inv_persisted _ _ _ _ _ _ _ _ H). cbn.
    rewrite ztake_prefix by apply (inv_prefix _ _ _ _ _ _ _ _ H). eapply inv_claim; eauto.
  - rewrite (inv_selected _ _ _ _ _ _ _ _ H). cbn. by rewrite ztake_prefix.
  - done.
Qed.

Lemma observed_up out strict e s' d a : given_up s' d a -> observed out out strict (commit_failure indeterminate e) s' d a.
Proof. intros H. by right. Qed.

Lemma given_up_weaken s d d' a : d' `prefix_of` d -> given_up s d a -> given_up s d' a.
Proof.
  intros Hd [Hh (u & Hu & Hc)]. constructor; [done|]. exists u. split; [done|].
  eapply chain_weaken; [exact Hd|reflexivity|exact Hc].
Qed.

Lemma observed_published out mode r s' d0 d p a k gen st st' : published out mode r s' d p a k gen st st' ->
  d0 `prefix_of` d -> d `prefix_of` p -> p `prefix_of` a -> observed out true (is_immediate mode) r s' d0 a.
Proof.
  unfold published, observed, observe, settle, is_committed. intros H H0 Hd Ha. destruct (outcome r) eqn:E; cbn [fst snd].
  - left. exists a, (1 - k), (gen + 1), st'. destruct mode; [destruct H as [Hc H]|]; cbn [is_immediate].
    + rewrite (inv_persisted _ _ _ _ _ _ _ _ H). cbn. by rewrite ztake_prefix.
    + by eapply inv_weaken.
  - destruct H as [H|[H Hc]].
    + left. exists p, k, gen, st. rewrite (inv_selected _ _ _ _ _ _ _ _ H). cbn. rewrite ztake_prefix by done.
      by eapply inv_weaken.
    + right. rewrite Hc, ztake_prefix by done. by eapply given_up_weaken.
  - right. by eapply given_up_weaken.
Qed.

(** *** The operations *)

Lemma sync_file_spec out s d a : rel out s d a ->
  runs (sync_file sys s) (fun r s' => observed out out true r s' d a) (fun _ _ => False).
Proof.
  intros Hrel. unfold sync_file. rewrite bindM_get. destruct (health_ s) eqn:Hh; cbn [negb].
  2:{ destruct Hrel as [(p & k & gen & st & H)|H]; [by eapply observed_inv|by apply observed_up]. }
  destruct Hrel as [(p & k & gen & st & H)|[Hh' _]]; [|congruence].
  destruct (dirty_ s) eqn:Hd; cbn [negb]; [|by eapply observed_inv].
  eapply runs_attempt; [apply before_spec| |].
  2:{ intros e s' (f & -> & He). eapply observed_inv; [by apply inv_poison, inv_calls|done]. }
  intros [] s1 (f1 & -> & He1). pose proof (inv_calls _ _ _ _ _ _ _ _ _ H He1) as H1.
  eapply runs_attempt; [apply runs_on_file, sync_spec| |].
  - intros [] s' (f & -> & f2 & He2 & ->). eapply observed_inv; [|done].
    eapply inv_weaken; [apply (inv_durable _ _ _ _ _ _ _ _ H)|]. eapply inv_out; [|done].
    apply (inv_persist _ _ _ _ _ _ _ _ (inv_calls _ _ _ _ _ _ _ _ _ H1 He2)).
  - intros e s' (f & -> & f2 & He2 & ->). apply observed_up. constructor; [done|]. exists p.
    split; [apply (inv_prefix _ _ _ _ _ _ _ _ H)|apply (inv_chain _ _ _ _ _ _ _ _ (inv_calls _ _ _ _ _ _ _ _ _ H1 He2))].
Qed.

Lemma has_pending_inv out s d p a k gen st : inv out s d p a k gen st ->
  if has_pending_commit s then generation_ok (gen + 1) else a = p.
Proof.
  intros []. unfold has_pending_commit. rewrite inv_count0, Z.gtb_ltb.
  destruct (Z.ltb_spec 0 (zlen a - zlen p)).
  - destruct inv_room0 as [-> |]; [lia|done].
  - by apply prefix_same_length.
Qed.

(** Publishing the pending records. *)
Lemma flush_pending_spec out mode s d p a k gen st : inv out s d p a k gen st -> has_pending_commit s = true ->
  runs (flush_pending_commit sys mode s)
    (fun r s' => published out mode r s' d p a k gen st st) (fun _ _ => False).
Proof.
  intros H Hp. pose proof (has_pending_inv _ _ _ _ _ _ _ _ H) as Hg. rewrite Hp in Hg.
  unfold flush_pending_commit. rewrite bindM_get, Hp. cbn [negb].
  eapply runs_attempt; [apply before_spec| |].
  2:{ intros e s' (f & -> & He). left. apply (inv_rollback _ _ _ _ _ _ _ _ (inv_calls _ _ _ _ _ _ _ _ _ H He)). }
  intros [] s1 (f1 & -> & He1). pose proof (inv_calls _ _ _ _ _ _ _ _ _ H He1) as H1.
  eapply runs_attempt; [apply runs_on_file, sync_spec| |].
  2:{ intros e s' (f & -> & f2 & He2 & ->). right. split.
      - apply (given_up_after (with_file (with_file s f1) (lose f2)) d p p 0 (commit_of gen st p)); [done|].
        apply (inv_chain _ _ _ _ _ _ _ _ (inv_calls _ _ _ _ _ _ _ _ _ H1 He2)).
      - cbn. by rewrite (inv_persisted _ _ _ _ _ _ _ _ H). }
  intros [] s2 (f2 & -> & f3 & He3 & Hf2).
  destruct (inv_barrier _ _ _ _ _ _ _ _ _ (inv_calls _ _ _ _ _ _ _ _ _ H1 He3) (eq_sym Hf2)) as (H2 & Himg & Hh & Ho).
  change (inv out (with_file (with_file s f1) f2) d p a k gen st) in H2.
  rewrite bindM_get, (inv_persisted _ _ _ _ _ _ _ _ H2), (inv_selected _ _ _ _ _ _ _ _ H2).
  cbn [selected_commit commit_of commit_generation committed_end commit_state record_count first_sequence last_sequence].
  rewrite (wrap_small 64) by (unfold generation_ok in Hg; width; lia).
  apply (publish_commit_spec out mode _ d p a k gen st st).
  - constructor; [done..| |done]. cbn. by rewrite Ho.
  - apply (img_state _ _ _ _ _ _ Himg).
Qed.

Lemma flush_spec out mode s d a : rel out s d a -> health_ s = true ->
  runs (flush_pending_commit sys mode s) 
    (fun r s' => observed out (out || has_pending_commit s) (is_immediate mode) r s' d a) (fun _ _ => False).
Proof.
  intros Hrel Hh. destruct Hrel as [(p & k & gen & st & H)|[Hh' _]]; [|congruence].
  pose proof (has_pending_inv _ _ _ _ _ _ _ _ H) as Hp. destruct (has_pending_commit s) eqn:E.
  - rewrite orb_true_r. eapply runs_weaken; [by apply (flush_pending_spec _ mode _ _ _ _ _ _ _ H E)| |done].
    intros r s' Hpub. eapply observed_published;
      [exact Hpub|reflexivity|apply (inv_durable _ _ _ _ _ _ _ _ H)|apply (inv_prefix _ _ _ _ _ _ _ _ H)].
  - rewrite orb_false_r. unfold flush_pending_commit. rewrite bindM_get, E. cbn [negb]. destruct mode.
    + destruct (dirty_ s) eqn:Hd; [|by eapply observed_inv]. apply sync_file_spec. left. by exists p, k, gen, st.
    + by eapply observed_inv.
Qed.

(** A commit that is not valid is refused before anything is written. *)
Lemma publish_invalid c mode s : ~ commit_valid c ->
  publish_commit sys c mode s =
  (Ok (commit_failure not_committed invalid_argument), rollback_pending_metadata s).
Proof.
  intros Hc. unfold publish_commit, encode_segment_commit_slot.
  destruct (validate_commit_cases c) as [[_ ?]|[-> _]]; [done|]. reflexivity.
Qed.

Lemma seal_clean out s d a k gen st : inv out s d a a k gen st -> dirty_ s = false \/ out = false ->
  0 < gen < 2 ^ 64 ->
  runs (publish_commit sys
          (mkCommit (u64 (gen + 1)) (log_end a) PersistedSegmentState_sealed (zlen a)
             (default 0 (in_sequence <$> head a)) (last_seq a)) immediate s)
    (fun r s' => observed out out true r s' d a) (fun _ _ => False).
Proof.
  intros H Hd Hg. destruct (inv_clean _ _ _ _ _ _ _ _ H Hd) as (_ & Himg & Ho).
  destruct (decide (gen + 1 = 2 ^ 64)) as [E|E].
  - rewrite publish_invalid.
    + eapply observed_inv; [by apply (inv_rollback _ _ _ _ _ _ _ _ H)|done].
    + unfold commit_valid. cbn. rewrite E. unfold wrap. rewrite Z.mod_same by done. tauto.
  - rewrite (wrap_small 64) by (unfold is_uint; lia).
    eapply runs_weaken; [apply (publish_commit_spec out immediate s d a a k gen st PersistedSegmentState_sealed)| |done].
    + constructor; try done; [|unfold generation_ok; lia]. apply (img_records _ _ _ _ _ _ Himg).
    + by right.
    + intros r s' Hpub. eapply (observed_published out immediate);
        [exact Hpub|reflexivity|apply (inv_durable _ _ _ _ _ _ _ _ H)|reflexivity].
Qed.

Lemma seal_spec out s d a : rel out s d a -> out = false \/ has_pending_commit s = true ->
  runs (seal_segment sys s) (fun r s' => observed out out true r s' d a) (fun _ _ => False).
Proof.
  intros Hrel Hseal. unfold seal_segment. rewrite bindM_get. destruct (health_ s) eqn:Hh; cbn [negb].
  2:{ destruct Hrel as [(p & k & gen & st & H)|H]; [by eapply observed_inv|by apply observed_up]. }
  destruct Hrel as [(p & k & gen & st & H)|[Hh' _]]; [|congruence].
  destruct (writable_ s); cbn [negb]; [|by eapply observed_inv].
  rewrite (inv_selected _ _ _ _ _ _ _ _ H). cbn [selected_commit commit_of commit_state commit_generation].
  destruct (st =? PersistedSegmentState_sealed); [by eapply observed_inv|].
  destruct (gen =? umax 64); [by eapply observed_inv|].
  pose proof (has_pending_inv _ _ _ _ _ _ _ _ H) as Hp. destruct (has_pending_commit s) eqn:E.
  - eapply runs_bindM; [by apply (flush_pending_spec _ immediate _ _ _ _ _ _ _ H E)|].
    intros r s' Hpub. unfold is_committed. destruct (outcome r) eqn:Er; cbn [negb].
    2,3: by eapply (observed_published out immediate);
      [exact Hpub|reflexivity|apply (inv_durable _ _ _ _ _ _ _ _ H)|apply (inv_prefix _ _ _ _ _ _ _ _ H)].
    unfold published in Hpub. rewrite Er in Hpub. destruct Hpub as [Hd H'].
    rewrite bindM_get, (inv_selected _ _ _ _ _ _ _ _ H').
    eapply seal_clean; [|by left|apply (img_generation _ _ _ _ _ _ (inv_view _ _ _ _ _ _ _ _ H'))].
    eapply inv_out; [|done]. eapply inv_weaken; [|done]. etrans; [apply (inv_durable _ _ _ _ _ _ _ _ H)|apply (inv_prefix _ _ _ _ _ _ _ _ H)].
  - subst a. rewrite bindM_ret. cbn [is_committed outcome commit_success negb].
    rewrite bindM_get, (inv_selected _ _ _ _ _ _ _ _ H).
    eapply seal_clean; [done|right; by destruct Hseal|apply (img_generation _ _ _ _ _ _ (inv_view _ _ _ _ _ _ _ _ H))].
Qed.

Lemma acquire_spec pacing remaining s : 0 < remaining ->
  runs (acquire pacing remaining s)
    (fun n s' => 0 < n <= remaining /\ exists f, s' = with_file s f /\ extends (file_ s) [] f)
    (fun _ s' => exists f, s' = with_file s f /\ extends (file_ s) [] f).
Proof.
  intros Hr. unfold acquire. destruct pacing as [pace|].
  - pose proof (extends_count (file_ s)). destruct (pace _ _) as [n|e]; [|by eexists].
    destruct (Z.eqb_spec (Z.of_nat n) 0); cbn [orb]; [by eexists|].
    rewrite Z.gtb_ltb. destruct (Z.ltb_spec remaining (Z.of_nat n)); [by eexists|].
    split; [lia|by eexists].
  - split; [lia|]. exists (file_ s). split; [by destruct s|]. unfold extends. by rewrite app_nil_r.
Qed.

Lemma piece_beyond off limit bytes ws : limit <= off -> Forall (piece off bytes) ws -> Forall (beyond limit) ws.
Proof.
  intros Hl Hp. eapply Forall_impl; [exact Hp|]. intros w (j & Hj & Hw & _). unfold beyond. lia.
Qed.

(** What a loop over the parts of a record leaves: on failure only bytes behind
    the record's offset, on success the whole record. *)
Definition written (s : DurableSegmentFile) (g : image) (bytes : list Z) (off : Z)
    (failed : option SegmentCommitResult) (s' : DurableSegmentFile) : Prop :=
  exists ws f, extends (file_ s) ws f /\ Forall (beyond off) ws /\
    match failed with
    | None => s' = with_file s f /\ forall o, f_view f o = overwrite g off bytes o
    | Some r => outcome r = not_committed /\ (s' = with_file s f \/ s' = poison (with_file s f))
    end.

Lemma written_trans s ws f g bytes off failed s' : extends (file_ s) ws f -> Forall (beyond off) ws ->
  written (with_file s f) g bytes off failed s' -> written s g bytes off failed s'.
Proof.
  intros He Hb (ws' & f' & He' & Hb' & H). exists (ws ++ ws'), f'. split_and!.
  - by eapply extends_trans.
  - by apply Forall_app.
  - exact H.
Qed.

Lemma append_loop_spec fuel pacing bytes off done_ s g :
  0 <= off -> off + zlen bytes <= kSegmentSizeBytes -> 0 <= done_ <= zlen bytes ->
  zlen bytes - done_ < Z.of_nat fuel ->
  (forall o, f_view (file_ s) o = overwrite g off (ztake done_ bytes) o) ->
  runs (append_loop sys fuel pacing bytes off done_ s) (written s g bytes off) (fun _ _ => False).
Proof.
  revert done_ s. induction fuel as [|fuel IH]; intros done_ s Hoff Hmax Hd Hf Hv; [lia|].
  unfold kSegmentSizeBytes in *. cbn [append_loop]. destruct (Z.ltb_spec done_ (zlen bytes)); cbn [negb].
  2:{ exists [], (file_ s). rewrite ztake_all in Hv by lia. split_and!; [|done|by destruct s|done].
      unfold extends. by rewrite app_nil_r. }
  rewrite (wrap_small 64) by (width; lia).
  eapply runs_attempt; [apply acquire_spec; lia| |].
  2:{ intros e s' (f & -> & He). exists [], f. split_and!; [done..|by left]. }
  intros n s1 (Hn & f1 & -> & He1). rewrite subspan_in by lia. rewrite bindM_lift.
  rewrite (wrap_small 64) by (width; lia).
  assert (zlen (slice done_ n bytes) = n) as Hz by zl.
  eapply runs_attempt; [apply runs_on_file, write_all_at_spec; rewrite ?Hz; unfold kMaximumOffset; lia| |].
  2:{ intros e s' (f & -> & ws & He & Hp). exists ws, f. split_and!; [|by eapply piece_beyond, Hp; lia|done|by right].
      by apply (extends_trans _ [] _ ws _ He1). }
  intros [] s2 (f2 & -> & ws & He2 & Hp & Hview). rewrite (wrap_small 64) by (width; lia).
  eapply runs_weaken; [apply (IH (done_ + n)); try lia| |done].
  - intros o. cbn. rewrite Hview. rewrite <- overwrite_step by lia. cbn.
    pose proof (extends_nil _ _ He1) as Hv1. cbn in Hv1. unfold overwrite at 1. symmetry. unfold overwrite at 1.
    change (take (Z.to_nat n) (zdrop done_ bytes)) with (slice done_ n bytes).
    destruct (_ && _); [done|]. by rewrite Hv1, Hv.
  - intros failed s' Hw. apply (written_trans s (ws) f2).
    + by apply (extends_trans _ [] _ ws _ He1).
    + eapply piece_beyond, Hp. lia.
    + exact Hw.
Qed.

(** The accepted log grows by a record. *)
Lemma inv_extend out s d p a k gen st x f : inv out s d p a k gen st -> input_ok x ->
  st <> PersistedSegmentState_sealed -> generation_ok (gen + 1) ->
  last_seq a < in_sequence x -> log_end a + record_size x <= kSegmentSizeBytes ->
  inv out (with_file s f) d p a k gen st ->
  (forall o, f_view f o = overwrite (f_view (file_ s)) (log_end a) (record_bytes x) o) ->
  inv out (extend (view_of x) (log_end a) (zlen (record_bytes x)) (with_file s f)) d p (a ++ [x]) k gen st.
Proof.
  intros H Hx Hst Hg Hseq Hfit Hf Hv. pose proof (log_count a (inv_log _ _ _ _ _ _ _ _ H)).
  pose proof (log_ok_snoc a x (inv_log _ _ _ _ _ _ _ _ H) Hx Hfit Hseq) as Hlog.
  pose proof (log_count _ Hlog) as Hcount. rewrite zlen_app in Hcount. change (zlen [x]) with 1 in Hcount.
  pose proof (log_end_ge a). pose proof (input_ok_bounds x Hx). pose proof (log_end_mono _ _ (inv_prefix _ _ _ _ _ _ _ _ H)).
  pose proof (log_end_ge p). pose proof (zlen_nonneg p). unfold kSegmentHeaderReservedBytes, kSegmentSizeBytes in *.
  pose proof (inv_holds _ _ _ _ _ _ _ _ H) as Hh0. pose proof (inv_selected _ _ _ _ _ _ _ _ H) as Hsel.
  pose proof (inv_count _ _ _ _ _ _ _ _ H) as Hpc. pose proof (inv_bytes _ _ _ _ _ _ _ _ H) as Hpb.
  assert (zlen p <= zlen a) by (destruct (inv_prefix _ _ _ _ _ _ _ _ H) as [q ->]; rewrite zlen_app; pose proof (zlen_nonneg q); lia).
  clear H. destruct Hf.
  constructor; cbn [extend with_file file_ identity_ selected_ persisted_ pending_record_count_ pending_bytes_ dirty_];
    try assumption; try done.
  - rewrite Hsel. cbn. rewrite zlen_record_bytes, !(wrap_small 32), !(wrap_small 64) by (width; lia).
    unfold commit_of. rewrite log_end_snoc, zlen_app. unfold last_seq. rewrite foldl_app. cbn.
    do 2 f_equal. destruct a as [|y a]; [done|]. rewrite zlen_cons in *. pose proof (zlen_nonneg a).
    by destruct (Z.eqb_spec (1 + zlen a) 0); [lia|].
  - by apply prefix_app_r.
  - by right.
  - rewrite Hpc, zlen_app, (wrap_small 64) by (width; lia). change (zlen [x]) with 1. lia.
  - rewrite Hpb, zlen_record_bytes, log_end_snoc, (wrap_small 64) by (width; lia). lia.
  - unfold holds in *. rewrite log_bytes_app, zlen_app.
    assert (log_bytes [x] = record_bytes x) as -> by (unfold log_bytes; cbn; apply app_nil_r).
    rewrite bytes_at_app by apply zlen_nonneg. fold (log_end a). f_equal.
    + rewrite <- Hh0 at 2. apply bytes_at_ext. intros o Ho. rewrite Hv. apply overwrite_out. unfold log_end. lia.
    + rewrite <- (bytes_at_overwrite (f_view (file_ s)) (log_end a) (record_bytes x)) at 2.
      apply bytes_at_ext. intros o Ho. apply Hv.
  - intros [?|Hout]; [done|]. apply inv_clean0. by right.
Qed.

Definition accept (r : SegmentCommitResult) (x : RecordInput) (a : list RecordInput) : list RecordInput :=
  if is_committed r then a ++ [x] else a.

Lemma refused_inv out e s' d p a k gen st x : inv out s' d p a k gen st ->
  observed out out false (commit_failure not_committed e) s' d (accept (commit_failure not_committed e) x a).
Proof. intros H. by eapply observed_inv. Qed.

Lemma file_append_spec out x pacing s d a : rel out s d a -> input_ok x ->
  runs (append_record sys (record_bytes x) pacing s)
    (fun r s' => observed out out false r s' d (accept r x a)) (fun _ _ => False).
Proof.
  intros Hrel Hx. unfold append_record. rewrite bindM_get. destruct (health_ s) eqn:Hh; cbn [negb].
  2:{ destruct Hrel as [(p & k & gen & st & H)|H]; [by eapply observed_inv|by apply observed_up]. }
  destruct Hrel as [(p & k & gen & st & H)|[Hh' _]]; [|congruence].
  destruct (writable_ s); cbn [negb]; [|by eapply refused_inv].
  rewrite (inv_selected _ _ _ _ _ _ _ _ H), (inv_persisted _ _ _ _ _ _ _ _ H).
  cbn [selected_commit commit_of commit_state commit_generation committed_end record_count last_sequence].
  destruct (Z.eqb_spec st PersistedSegmentState_active) as [Hst|]; cbn [negb]; [|by eapply refused_inv].
  rewrite <- (app_nil_r (record_bytes x)), decode_record_bytes, app_nil_r by done.
  unfold attempt at 1, liftM. cbn [view_of rv_sequence].
  destruct (_ || _) eqn:Eseq; [by eapply refused_inv|]. b2p.
  destruct (_ || _) eqn:Egen; [by eapply refused_inv|]. b2p.
  pose proof (log_end_ge a). pose proof (log_fits _ (inv_log _ _ _ _ _ _ _ _ H)) as Hfit.
  rewrite (wrap_small 64) by (unfold kSegmentSizeBytes, kSegmentHeaderReservedBytes in *; width; lia).
  rewrite Z.gtb_ltb. destruct (Z.ltb_spec (kSegmentSizeBytes - log_end a) (zlen (record_bytes x))) as [|Hroom];
    [by eapply refused_inv|].
  eapply runs_attempt; [apply before_spec| |].
  2:{ intros e s' (f & -> & He). eapply refused_inv. by apply (inv_calls _ _ _ _ _ _ _ _ _ H). }
  intros [] s1 (f1 & -> & He1). pose proof (inv_calls _ _ _ _ _ _ _ _ _ H He1) as Hn.
  eapply runs_bindM; [apply (append_loop_spec _ pacing _ (log_end a) 0 _ (f_view f1))|].
  { unfold kSegmentHeaderReservedBytes in *. lia. }
  { lia. }
  { pose proof (zlen_nonneg (record_bytes x)). lia. }
  { unfold zlen. lia. }
  { intros o. rewrite overwrite_out; [done|]. rewrite ztake_0, zlen_nil. lia. }
  intros failed s2 (ws & f & He & Hb & Hres). pose proof (inv_writes _ _ _ _ _ _ _ _ _ _ Hn He Hb) as Hw.
  destruct failed as [r|].
  - destruct Hres as [Hr Hs2]. assert (inv out s2 d p a k gen st) as Hs.
    { destruct Hs2 as [-> | ->]; [done|by apply inv_poison]. }
    unfold retM, runs, accept, is_committed. rewrite Hr. eapply observed_inv; [done|]. by rewrite Hr.
  - destruct Hres as [-> Hv]. rewrite bindM_modify. cbn [runs retM accept is_committed commit_success outcome].
    eapply observed_inv; [|done]. pose proof (img_generation _ _ _ _ _ _ (inv_view _ _ _ _ _ _ _ _ H)) as Hg.
    pose proof (in_sequence_u64 x Hx). rewrite zlen_record_bytes in Hroom.
    eapply (inv_extend out (with_file s f1)); try done.
    + rewrite Hst. done.
    + unfold generation_ok in *. width. lia.
    + unfold is_uint in *. destruct (Z.eqb_spec (zlen a) 0) as [E|E]; cbn [negb andb] in *.
      * assert (a = []) as -> by (destruct a; [done|rewrite zlen_cons in E; pose proof (zlen_nonneg a); lia]).
        cbn. lia.
      * b2p. lia.
    + lia.
Qed.
End handle.

(** ** Reading a file back *)

Definition seg_of (i : SegmentHeaderIdentity) : Segment :=
  new_segment (id_segment_id i) (id_owner_worker i) (id_generation i).

Lemma size_field x tail : input_ok x -> le_value (slice 8 4 (record_bytes x ++ tail)) = record_size x.
Proof.
  intros Hx. pose proof (input_ok_bounds x Hx). unfold record_bytes, record_front. rewrite <- !app_assoc.
  locate_field. apply le_value_field; [lia|width; lia].
Qed.

Lemma increasing_app p l k : increasing p (l ++ k) <->
  increasing p l /\ increasing (foldl (fun _ i => in_sequence i) p l) k.
Proof. revert p. induction l as [|x l IH]; intros p; cbn; [tauto|]. rewrite IH. tauto. Qed.

Section visit.
Context {C : Type} (visitor : RecordRef -> RecordView -> Method C unit).
Variable i : SegmentHeaderIdentity.

(** The calls a scan makes. *)
Fixpoint visit_each (before log : list RecordInput) : Method C unit :=
  match log with
  | [] => retM tt
  | x :: log =>
      let! _ := visitor (ref_after (seg_of i) before x) (view_of x) in visit_each (before ++ [x]) log
  end.

Lemma visit_loop_spec fuel before log c : log_ok (before ++ log) -> (length log <= fuel)%nat ->
  visit_loop visitor fuel i (log_bytes (before ++ log)) (zlen (log_bytes before)) (zlen before)
    (default 0 (in_sequence <$> head before)) (last_seq before) c =
  (let! _ := visit_each before log in
   retM (zlen (before ++ log), default 0 (in_sequence <$> head (before ++ log)), last_seq (before ++ log))) c.
Proof.
  revert fuel before c. induction log as [|x log IH]; intros fuel before c Hok Hf.
  - rewrite app_nil_r. destruct fuel; cbn [visit_loop]; by rewrite Z.ltb_irrefl.
  - destruct fuel as [|fuel]; [cbn in Hf; lia|].
    specialize (IH fuel (before ++ [x])). rewrite <- app_assoc in IH. cbn [app] in IH.
    set (total := (zlen (before ++ x :: log), _, _)) in *. cbn [visit_loop visit_each].
    pose proof (log_count _ Hok) as Hcount. pose proof Hok as [Hin Hfits Hinc].
    apply Forall_app in Hin as [Hin1 Hin2]. apply Forall_cons_1 in Hin2 as [Hx Hin2].
    pose proof (input_ok_bounds x Hx) as Hsz. pose proof (record_size_bounds x) as [_ Hmod].
    apply increasing_app in Hinc as [_ Hinc]. cbn in Hinc. destruct Hinc as [Hseq _].
    assert (0 <= last_seq before) by (apply last_seq_u64 in Hin1; width; lia). fold (last_seq before) in Hseq.
    pose proof (zlen_nonneg (log_bytes before)). pose proof (zlen_nonneg (log_bytes log)).
    rewrite zlen_app, zlen_cons in Hcount. pose proof (zlen_nonneg before). pose proof (zlen_nonneg log).
    unfold log_end in Hfits. rewrite log_bytes_app, log_bytes_cons in *.
    rewrite !zlen_app, zlen_record_bytes in *. unfold kSegmentHeaderReservedBytes, kSegmentSizeBytes in Hfits.
    destruct (Z.ltb_spec (zlen (log_bytes before)) (zlen (log_bytes before) + (record_size x + zlen (log_bytes log))));
      [|lia]. cbn [negb].
    rewrite !(wrap_small 64) by (width; lia). unfold kEncodedRecordHeaderSize.
    destruct (Z.ltb_spec (zlen (log_bytes before) + (record_size x + zlen (log_bytes log)) - zlen (log_bytes before)) 56);
      [lia|].
    rewrite get_u32_in by zl. rewrite slice_app_r by lia.
    replace (zlen (log_bytes before) + 8 - zlen (log_bytes before)) with 8 by lia.
    rewrite size_field by done. rewrite bindM_lift. unfold kMaxNormalRecordSize, kRecordAlignment. rewrite Hmod.
    destruct (Z.ltb_spec (record_size x) 56), (Z.gtb_spec (record_size x) (1 * 1024 * 1024)); try lia.
    destruct (Z.gtb_spec (record_size x)
      (zlen (log_bytes before) + (record_size x + zlen (log_bytes log)) - zlen (log_bytes before))); [lia|].
    rewrite Z.eqb_refl. cbn [orb negb]. rewrite subspan_in by zl. rewrite bindM_lift.
    rewrite slice_app_r, Z.sub_diag, slice_app_l, slice_whole by zl.
    rewrite <- (app_nil_r (record_bytes x)) at 1. rewrite decode_record_bytes by done. rewrite bindM_lift.
    cbn [view_of rv_sequence]. destruct (Z.eqb_spec (in_sequence x) 0); [lia|].
    destruct (Z.leb_spec (in_sequence x) (last_seq before)); [lia|]. rewrite andb_false_r. cbn [orb].
    rewrite (wrap_small 32) by (unfold kSegmentHeaderReservedBytes; width; lia).
    rewrite bindM_assoc. unfold bindM at 1. symmetry. unfold bindM at 1. symmetry.
    change (mkRecordRef _ _ _ _ _) with (ref_after (seg_of i) before x).
    destruct (visitor _ _ c) as [[[]|e|f] c']; [|done..].
    rewrite <- IH by (done || (cbn in Hf; lia)). rewrite (wrap_small 64) by (width; lia).
    assert (zlen (log_bytes (before ++ [x])) = zlen (log_bytes before) + record_size x) as ->.
    { rewrite log_bytes_app, zlen_app. unfold log_bytes at 2. cbn. by rewrite app_nil_r, zlen_record_bytes. }
    assert (last_seq (before ++ [x]) = in_sequence x) as -> by (unfold last_seq; by rewrite foldl_app).
    f_equal. destruct before as [|y before]; [done|]. rewrite zlen_cons. pose proof (zlen_nonneg before).
    by destruct (Z.eqb_spec (1 + zlen before) 0); [lia|].
Qed.

Variable sys : System.

(** A handle on a file that holds [log]. *)
Record reads_log (s : DurableSegmentFile) (k gen st : Z) (log : list RecordInput) : Prop := {
  rl_identity : identity_ s = i;
  rl_health : health_ s = true;
  rl_persisted : persisted_ s = mkSelected k (commit_of gen st log);
  rl_log : log_ok log;
  rl_holds : holds (f_view (file_ s)) log
}.

Lemma read_committed_spec s k gen st log : reads_log s k gen st log ->
  runs (read_committed sys s)
    (fun bytes s' => bytes = log_bytes log /\ exists f, s' = with_file s f /\ extends (file_ s) [] f)
    (fun _ _ => ~ reads_progress sys).
Proof.
  intros [Hid Hh Hp Hlog Hholds]. unfold read_committed. rewrite bindM_get, Hh, Hp.
  cbn [negb selected_commit commit_of committed_end record_count].
  pose proof (log_count _ Hlog). pose proof (log_length _ (log_inputs _ Hlog)) as Hlen.
  pose proof (log_fits _ Hlog) as Hfit. unfold log_end in *. pose proof (zlen_nonneg (log_bytes log)).
  unfold kSegmentHeaderReservedBytes, kSegmentSizeBytes in *.
  replace (4096 + zlen (log_bytes log) - 4096) with (zlen (log_bytes log)) in * by lia.
  rewrite (wrap_small 64) by (width; lia).
  destruct (Z.eqb_spec (zlen log) 0) as [E|E].
  { assert (log = []) as -> by (destruct log; [done|]; rewrite zlen_cons in E; pose proof (zlen_nonneg log); lia).
    split; [done|]. exists (file_ s). split; [by destruct s|]. unfold extends. by rewrite app_nil_r. }
  unfold kEncodedRecordHeaderSize. rewrite Z.gtb_ltb.
  destruct (Z.ltb_spec (zlen (log_bytes log) / 56) (zlen log)); [exfalso; divlia|].
  eapply runs_weaken; [apply runs_on_file, read_exact_at_spec; unfold kMaximumOffset; lia| |].
  - intros bytes s' (f & -> & -> & He). split; [exact Hholds|]. by exists f.
  - by intros e s' (f & _ & _ & Hn).
Qed.

(** A scan hands every committed record to the visitor, in order. *)
Lemma visit_committed_spec s k gen st log c : reads_log s k gen st log ->
  match visit_committed_records sys visitor (s, c) with
  | (r, (s', c')) => (exists f, s' = with_file s f /\ extends (file_ s) [] f) /\ (r, c') = visit_each [] log c
  end \/ exists e s', visit_committed_records sys visitor (s, c) = (Err e, (s', c)) /\ ~ reads_progress sys.
Proof.
  intros Hr. pose proof (read_committed_spec _ _ _ _ _ Hr) as Hread. destruct Hr as [Hid Hh Hp Hlog Hholds].
  unfold visit_committed_records. destruct (read_committed sys s) as [[bytes|e|f] s']; cbn [runs] in Hread;
    [|right; by exists e, s'|done].
  destruct Hread as (-> & f & -> & He). cbn [with_file persisted_ identity_]. rewrite Hp, Hid.
  cbn [selected_commit commit_of record_count]. left. destruct (Z.eqb_spec (zlen log) 0) as [E|E].
  { assert (log = []) as -> by (destruct log; [done|]; rewrite zlen_cons in E; pose proof (zlen_nonneg log); lia).
    split; [by exists f|done]. }
  pose proof (visit_loop_spec (length (log_bytes log)) [] log c) as Hv. cbn [app] in Hv.
  pose proof (log_length _ (log_inputs _ Hlog)) as Hlen. unfold log_end in Hlen. unfold bindM at 1.
  change (log_bytes []) with (@nil Z) in Hv. rewrite zlen_nil in Hv. change (last_seq []) with 0 in Hv.
  change (zlen (@nil RecordInput)) with 0 in Hv.
  cbn [head fmap option_fmap option_map default] in Hv. rewrite Hv by (done || (unfold zlen in *; lia)).
  unfold bindM. destruct (visit_each [] log c) as [[[]|e|x] c']; (split; [by exists f|]); [|done..].
  cbn [retM liftM check_visited commit_of record_count first_sequence last_sequence]. by rewrite !Z.eqb_refl.
Qed.
End visit.

Section reopen.
Variable i : SegmentHeaderIdentity.
Hypothesis Hi : identity_ok i.
Hypothesis Hv : identity_valid i.
Variable sys : System.

Lemma visit_collect before log records :
  visit_each collect i before log records = (Ok tt, records ++ log_refs_from (seg_of i) before log).
Proof.
  revert before records. induction log as [|x log IH]; intros before records; cbn [visit_each log_refs_from].
  - by rewrite app_nil_r.
  - unfold collect. rewrite bindM_modify. rewrite IH. by rewrite <- app_assoc.
Qed.

Lemma scan_committed_spec s k gen st log : reads_log i s k gen st log ->
  runs (scan_committed sys s) (fun refs _ => refs = log_refs (seg_of i) log) (fun _ _ => ~ reads_progress sys).
Proof.
  intros Hr. pose proof (visit_committed_spec collect i sys s k gen st log [] Hr) as Hvis.
  pose proof (log_length _ (log_inputs _ (rl_log _ _ _ _ _ _ Hr))) as Hlen.
  pose proof (log_fits _ (rl_log _ _ _ _ _ _ Hr)) as Hfit. unfold log_end in *.
  pose proof (zlen_nonneg (log_bytes log)). unfold kSegmentHeaderReservedBytes, kSegmentSizeBytes in *.
  unfold scan_committed. rewrite (rl_persisted _ _ _ _ _ _ Hr).
  cbn [selected_commit commit_of committed_end record_count]. unfold log_end, kSegmentHeaderReservedBytes, kEncodedRecordHeaderSize.
  replace (4096 + zlen (log_bytes log) - 4096) with (zlen (log_bytes log)) in * by lia.
  rewrite (wrap_small 64) by (width; lia). rewrite Z.gtb_ltb.
  destruct (Z.ltb_spec (zlen (log_bytes log) / 56) (zlen log)); [exfalso; divlia|].
  rewrite visit_collect in Hvis.
  destruct Hvis as [Hvis|(e & s' & -> & Hn)]; [|done].
  destruct (visit_committed_records sys collect (s, [])) as [[u|e|f] [s' records]];
    destruct Hvis as [_ E]; try discriminate E. by injection E.
Qed.

Lemma read_record_spec s k gen st before x log : reads_log i s k gen st (before ++ x :: log) ->
  runs (read_record_into sys (ref_after (seg_of i) before x) s)
    (fun read _ => read = (record_bytes x, view_of x)) (fun _ _ => ~ reads_progress sys).
Proof.
  intros [Hid Hh Hp Hlog Hholds]. pose proof (log_inputs _ Hlog) as Hin.
  apply Forall_app in Hin as [_ Hin]. apply Forall_cons_1 in Hin as [Hx _].
  pose proof (input_ok_bounds x Hx) as Hsz. pose proof (record_size_bounds x) as [_ Hmod].
  pose proof (log_fits _ Hlog) as Hfit. pose proof (log_end_ge before). pose proof (log_end_mod before).
  assert (log_end before + record_size x + zlen (log_bytes log) = log_end (before ++ x :: log)) as Hend.
  { unfold log_end. rewrite log_bytes_app, log_bytes_cons, !zlen_app, zlen_record_bytes. lia. }
  pose proof (zlen_nonneg (log_bytes log)). unfold read_record_into, read_record_into_extent.
  rewrite !bindM_get, Hh, Hp, Hid. cbn [negb selected_commit commit_of committed_end ref_after ref_segment_id
    ref_generation ref_offset ref_size ref_sequence seg_of new_segment seg_id seg_generation].
  rewrite !Z.eqb_refl. cbn [negb orb]. unfold kRecordAlignment, kEncodedRecordHeaderSize, kMaxNormalRecordSize,
    kSegmentHeaderReservedBytes, kSegmentSizeBytes in *.
  rewrite !Z.gtb_ltb, H0, Hmod, !Z.eqb_refl.
  rewrite !(proj2 (Z.ltb_ge _ _)) by (rewrite ?(wrap_small 64) by (width; lia); lia). cbn [negb orb].
  eapply runs_bindM; [eapply runs_weaken;
    [apply runs_on_file, read_exact_at_spec; unfold kMaximumOffset; lia|intros ? ? Hok; exact Hok|by intros ? ? (? & _ & _ & ?)]|].
  intros bytes s' (f & -> & -> & _).
  assert (bytes_at (f_view (file_ s)) (log_end before) (record_size x) = record_bytes x) as ->.
  { unfold holds in Hholds. rewrite log_bytes_app, log_bytes_cons, !zlen_app, zlen_record_bytes in Hholds.
    pose proof (zlen_nonneg (log_bytes before)).
    rewrite !bytes_at_app in Hholds by lia. unfold log_end.
    apply app_inj_1 in Hholds as [_ Hholds].
    2:{ unfold bytes_at, zlen. rewrite length_fmap, length_seqZ. lia. }
    apply app_inj_1 in Hholds as [Hholds _]; [exact Hholds|].
    pose proof (zlen_record_bytes x). unfold bytes_at, zlen in *. rewrite length_fmap, length_seqZ. lia. }
  rewrite <- (app_nil_r (record_bytes x)) at 1. rewrite decode_record_bytes by done. rewrite bindM_lift.
  cbn [view_of rv_sequence rv_encoded_size]. by rewrite !Z.eqb_refl.
Qed.

(** *** Opening *)

(** The file is a private regular file of the right size. *)
Definition opening_ok (o : Opening) : Prop :=
  injected o = false /\ openat o = opened /\ validate_private_segment (stat_private o) = Ok tt /\
  file_size (stat_size o) = Ok kSegmentSizeBytes.

Lemma load_spec o f k gen st log : img i (f_view f) k gen st log ->
  runs (load_segment sys o (Some i) f)
    (fun r f' => r = (i, mkSelected k (commit_of gen st log)) /\ extends f [] f')
    (fun _ _ => ~ (reads_progress sys /\ opening_ok o)).
Proof using Hi Hv.
  intros Himg. destruct (img_recovers i Hi Hv _ _ _ _ _ Himg) as (h & Hdec & Hid & Hsel).
  unfold load_segment, opening_ok.
  destruct (openat o) eqn:E1; cbn [check_opened]; [|cbn; naive_solver..]. rewrite bindM_lift.
  destruct (validate_private_segment _) as [[]|e|x] eqn:E2; [rewrite bindM_lift|cbn; naive_solver|].
  2:{ exfalso. clear -E2. unfold validate_private_segment in E2. destruct (stat_private o); [|done]. by destruct (_ || _). }
  destruct (file_size _) as [size|e|x] eqn:E3; [rewrite bindM_lift|cbn; naive_solver|].
  2:{ exfalso. clear -E3. unfold file_size in E3. destruct (stat_size o); [|done]. by destruct (_ <? _). }
  destruct (Z.eqb_spec size kSegmentSizeBytes) as [|Hne]; cbn [negb].
  2:{ intros (_ & _ & _ & _ & E). apply Hne. by injection E. }
  eapply runs_bindM; [eapply runs_weaken; [apply read_exact_at_spec; unfold kMaximumOffset, kSegmentHeaderReservedBytes; lia|
    intros ? ? Hok; exact Hok|cbn; naive_solver]|].
  intros bytes f' [-> He]. unfold kSegmentHeaderReservedBytes. rewrite Hdec, bindM_lift, Hid.
  rewrite bool_decide_eq_true_2 by done. cbn [negb]. rewrite Hsel, bindM_lift. split; [reflexivity|exact He].
Qed.

Lemma fresh_handle f g k gen st log health writable :
  extends (file_on g) [] f -> img i g k gen st log ->
  inv i false (new_handle f i (mkSelected k (commit_of gen st log)) health writable) log log log k gen st.
Proof.
  intros (Hb & Hc & Ho & Hl) Himg. cbn in *.
  assert (f_view f = g) as Hview by (unfold f_view; by rewrite Hb, Hc, Ho).
  assert (epoch_ok i log log g []) as He by (exists k, gen, st, log; split_and!; [done..|left]; by split).
  assert (file_chain i log log f) as Hch by (unfold file_chain; by rewrite Hb, Hc, Ho).
  constructor; cbn [file_ identity_ persisted_ selected_ pending_record_count_ pending_bytes_ dirty_ new_handle];
    rewrite ?Hview; try done; try (by left); try lia.
  - apply (img_log _ _ _ _ _ _ Himg).
  - apply (img_records _ _ _ _ _ _ Himg).
  - intros _. split_and!; cbn; [done| |by rewrite Ho]. unfold open_base. by rewrite Hb, Hc.
Qed.
End reopen.

(** *** Creation *)

Section create.
Variable i : SegmentHeaderIdentity.
Hypothesis Hi : identity_ok i.
Hypothesis Hv : identity_valid i.
Variable sys : System.

Lemma slice_exact {A} a n (l : list A) : a = 0 -> n = zlen l -> slice a n l = l.
Proof. intros ->. apply slice_whole. Qed.

Definition initial_header : list Z := header_bytes i (commit_bytes initial_commit ++ zeros 128).

Lemma initial_header_encoded :
  encode_segment_header (zeros kSegmentHeaderReservedBytes) (mkHeader i [Some initial_commit; None]) =
  Ok initial_header.
Proof using Hi Hv.
  rewrite encode_segment_header_Ok.
  - rewrite zdrop_all, app_nil_r by (unfold kSegmentHeaderReservedBytes; zl). cbn [header_identity header_commits].
    reflexivity.
  - unfold kSegmentHeaderReservedBytes. zl.
  - split_and!; [done..| |done]. destruct (commit_of_ok 1 PersistedSegmentState_active []) as [Hc Hcv];
      [unfold generation_ok; lia|by left|apply log_ok_nil|].
    apply Forall_cons_2; [by split|by apply Forall_singleton].
Qed.

Lemma zlen_initial_header : zlen initial_header = 4096.
Proof using Hi.
  unfold initial_header, header_bytes. destruct Hi as [Hst _].
  rewrite !zlen_app, zlen_identity_bytes, zlen_commit_bytes by done. zl.
Qed.

Lemma initial_img g : (forall o, g o = overwrite (fun _ => 0) 0 initial_header o) ->
  img i g 0 1 PersistedSegmentState_active [].
Proof using Hi.
  intros Hg. destruct (Hi) as [Hst _]. pose proof (zlen_identity_bytes i Hst) as Hz.
  assert (bytes_at g 0 4096 = initial_header) as Hh.
  { rewrite <- (bytes_at_overwrite (fun _ => 0) 0 initial_header), zlen_initial_header.
    apply bytes_at_ext. intros. apply Hg. }
  assert (forall a n, 0 <= a -> 0 <= n -> a + n <= 4096 -> bytes_at g a n = slice a n initial_header) as Hs.
  { intros. rewrite <- Hh, slice_bytes_at by lia. done. }
  assert (slot_at g 0 = commit_bytes initial_commit /\ slot_at g 1 = zeros 128 /\
    bytes_at g 0 128 = identity_bytes i /\ bytes_at g 384 3712 = zeros 3712) as (H0 & H1 & H2 & H3).
  { unfold_file. rewrite !Hs by lia. unfold initial_header, header_bytes. rewrite <- app_assoc.
    pose proof (zlen_commit_bytes initial_commit). split_and!.
    - rewrite slice_app_r, slice_app_l by zl. apply slice_exact; zl.
    - rewrite slice_app_r, slice_app_r, slice_app_l by zl. apply slice_exact; zl.
    - rewrite slice_app_l by zl. apply slice_exact; zl.
    - rewrite slice_app_r, slice_app_r, slice_app_r by zl. apply slice_exact; zl. }
  constructor; [by left|unfold generation_ok; lia|by left|apply log_ok_nil|exact H2|exact H3|exact H0| |reflexivity].
  change (1 - 0) with 1. rewrite H1. exists (mkSlot slot_empty None). split; [apply decode_commit_slot_empty|done].
Qed.

Lemma create_inv c health : runs (create sys c (temporary_handle i health))
  (fun r s => r.1 = creation_durable -> inv i false s [] [] [] 0 1 PersistedSegmentState_active) (fun _ _ => False).
Proof using Hi Hv.
  unfold create. rewrite bindM_get. destruct health; [|done]. cbn [health_ identity_ temporary_handle new_handle negb].
  rewrite initial_header_encoded. unfold attempt at 1, liftM at 1. destruct (lookup_final c); [done| |done].
  unfold attempt at 1, liftM at 1. destruct (unlink_temporary c); [done|].
  unfold attempt at 1, liftM at 1. destruct (open_temporary c); [done|]. cbn [answered_errno answered fmap option_fmap option_map].
  eapply runs_attempt; [apply before_spec| |done]. intros [] s1 (f1 & -> & He1).
  unfold attempt at 1, liftM at 1. destruct (preallocate c); [done|]. cbn [answered].
  eapply runs_attempt; [apply before_spec| |done]. intros [] s2 (f2 & -> & He2).
  eapply runs_attempt; [apply runs_on_file, write_all_at_spec; rewrite ?zlen_initial_header; unfold kMaximumOffset; lia| |done].
  intros [] s3 (f3 & -> & ws & He3 & _ & Hview).
  eapply runs_attempt; [apply before_spec| |done]. intros [] s4 (f4 & -> & He4).
  eapply runs_attempt; [apply runs_on_file, sync_spec| |done]. intros [] s5 (f5 & -> & f4' & He4' & ->).
  eapply runs_attempt; [apply before_spec| |done]. intros [] s6 (f6 & -> & He6).
  unfold attempt at 1, liftM at 1. destruct (rename_segment c); [done|]. cbn [answered_errno answered fmap option_fmap option_map].
  eapply runs_attempt; [apply before_spec| |done]. intros [] s7 (f7 & -> & He7).
  unfold attempt at 1, liftM at 1. destruct (sync_directory c); [done|]. cbn [answered].
  intros _. cbn [file_ with_file] in *.
  assert (f_lost f4 = false) as Hl.
  { destruct He4 as (_ & _ & _ & ->), He3 as (_ & _ & _ & ->), He2 as (_ & _ & _ & ->), He1 as (_ & _ & _ & ->). done. }
  pose proof (extends_trans _ _ _ _ _ He4 He4') as He4''. destruct (He4') as (_ & _ & _ & Hl').
  unfold persist in He6. rewrite Hl', Hl in He6. pose proof (extends_trans _ _ _ _ _ He6 He7) as He.
  refine (fresh_handle i f7 (f_view f4') 0 1 PersistedSegmentState_active [] true true He _).
  apply initial_img. intros o.
  rewrite (extends_nil _ _ He4''), Hview. unfold overwrite. destruct (_ && _); [done|].
  by rewrite (extends_nil _ _ He2), (extends_nil _ _ He1).
Qed.
End create.

(** ** Histories *)

Inductive file_op :=
  | do_append_record (input : RecordInput) (pacing : Pacing)
  | do_flush (mode : SegmentCommitSync)
  | do_sync
  | do_seal
  | do_poison.

(** [do_poison] is another handle that marks the shared directory unhealthy. *)
Definition run_op (sys : System) (op : file_op) : Method DurableSegmentFile SegmentCommitResult :=
  match op with
  | do_append_record input pacing => append_record sys (record_bytes input) pacing
  | do_flush mode => flush_pending_commit sys mode
  | do_sync => sync_file sys
  | do_seal => seal_segment sys
  | do_poison => modifyM poison ;;! retM commit_success
  end.

(** What is asked of the callers, since the class does not check it: only encoded
    records are appended, a handle known to be unhealthy is not flushed, and a
    handle is not sealed right on a deferred commit that nothing has synchronized
    since ([outstanding]). *)
Definition op_allowed (s : DurableSegmentFile) (outstanding : bool) (op : file_op) : Prop :=
  match op with
  | do_append_record input _ => input_ok input
  | do_flush _ => health_ s = true
  | do_seal => outstanding = false \/ has_pending_commit s = true
  | _ => True
  end.

(** The calls that promise durability. *)
Definition promises (op : file_op) : bool :=
  match op with
  | do_flush immediate | do_sync | do_seal => true
  | _ => false
  end.

Definition offered_by (op : file_op) (r : SegmentCommitResult) (a : list RecordInput) : list RecordInput :=
  match op with do_append_record input _ => accept r input a | _ => a end.

(** Whether a deferred commit is outstanding: one that succeeded with records, until
    a call that promises durability succeeds. *)
Definition outstanding_after (op : file_op) (s : DurableSegmentFile) (r : SegmentCommitResult) (out : bool) : bool :=
  settle (promises op) r out (match op with do_flush _ => out || has_pending_commit s | _ => out end).

(** The states of a handle, with the records that are promised to survive, those
    that are accepted, and whether a deferred commit is outstanding, from the
    opening on. *)
Inductive history (i : SegmentHeaderIdentity) (sys : System) :
    DurableSegmentFile -> list RecordInput -> list RecordInput -> bool -> Prop :=
  | history_open g k gen st log o health writable s :
      img i g k gen st log -> open_segment sys o health i writable (file_on g) = Ok s ->
      history i sys s log log false
  | history_create c health s e :
      create sys c (temporary_handle i health) = (Ok (creation_durable, e), s) -> history i sys s [] [] false
  | history_call s d a out op r s' :
      history i sys s d a out -> op_allowed s out op -> run_op sys op s = (Ok r, s') ->
      let seen := observe (promises op) r s' d (offered_by op r a) in
      history i sys s' seen.1 seen.2 (outstanding_after op s r out).

Lemma run_op_spec i sys op s d a out : rel i out s d a -> op_allowed s out op ->
  runs (run_op sys op s)
    (fun r s' => rel i (outstanding_after op s r out) s' (observe (promises op) r s' d (offered_by op r a)).1
                   (observe (promises op) r s' d (offered_by op r a)).2) (fun _ _ => False).
Proof.
  intros Hrel Hop. unfold outstanding_after. destruct op as [input pacing|mode| | |]; cbn [run_op promises offered_by].
  - by apply file_append_spec.
  - pose proof (flush_spec i sys out mode s d a Hrel Hop). by destruct mode.
  - by apply sync_file_spec.
  - by apply seal_spec.
  - destruct Hrel as [(p & k & gen & st & H)|[Hh Hc]].
    + eapply observed_inv; [by apply inv_poison|done].
    + right. by constructor.
Qed.

Lemma history_rel i sys s d a out : identity_ok i -> identity_valid i -> history i sys s d a out -> rel i out s d a.
Proof.
  intros Hi Hv.
  induction 1 as [g k gen st log o health writable s Himg Ho|c health s e Hc|s d a out op r s' _ IH Hop Hrun seen].
  - unfold open_segment, handle_on in Ho. destruct (injected o); [done|]. destruct health; [|done]. cbn [negb] in Ho.
    pose proof (load_spec i Hi Hv sys o (file_on g) k gen st log Himg) as Hl.
    destruct (load_segment sys o (Some i) (file_on g)) as [[x|e|x] f]; cbn [bindR runs] in *; [|discriminate Ho..].
    destruct Hl as [-> He]. injection Ho as <-. left. exists log, k, gen, st. by eapply fresh_handle.
  - pose proof (create_inv i Hi Hv sys c health) as Hinv. rewrite Hc in Hinv. left. eexists _, _, _, _. by apply Hinv.
  - pose proof (run_op_spec i sys op s d a out IH Hop) as Hs. by rewrite Hrun in Hs.
Qed.

Lemma rel_crash i out s d a g : rel i out s d a -> crash (file_ s) g ->
  exists k gen st log, img i g k gen st log /\ d `prefix_of` log /\ log `prefix_of` a.
Proof.
  intros [(p & k & gen & st & H)|[_ (u & Hu & Hc)]] Hcr.
  - destruct (chain_crash i d p _ _ _ _ (inv_chain _ _ _ _ _ _ _ _ _ H) Hcr) as (k' & gen' & st' & log & ? & ? & ?).
    exists k', gen', st', log. split_and!; [done..|]. etrans; [done|apply (inv_prefix _ _ _ _ _ _ _ _ _ H)].
  - destruct (chain_crash i d u _ _ _ _ Hc Hcr) as (k' & gen' & st' & log & ? & ? & ?).
    exists k', gen', st', log. split_and!; [done..|by etrans].
Qed.


(** ** A history *)

(** An operating system without failures. *)
Definition good_system : System :=
  quiet_system (fun _ n _ => wrote (Z.to_nat n)) (fun _ n _ => got (Z.to_nat n)) (fun _ _ => None) (fun _ _ => None).
Definition good_creation : Creating := mkCreating name_absent None None None None None.

Lemma good_reads : reads_progress good_system.
Proof. intros calls n off Hn. exists (Z.to_nat n). split; [done|lia]. Qed.

Definition created : DurableSegmentFile :=
  snd (create good_system good_creation (temporary_handle sample_identity true)).
Definition appended : DurableSegmentFile := snd (run_op good_system (do_append_record sample_input None) created).
Definition flushed : DurableSegmentFile := snd (run_op good_system (do_flush immediate) appended).

Lemma pair_snd {S A} (x : Result A * S) r : fst x = r -> x = (r, snd x).
Proof. by destruct x; intros <-. Qed.

Lemma created_history : history sample_identity good_system created [] [] false.
Proof.
  apply (history_create _ _ good_creation true _ None). unfold created. apply pair_snd. vm_compute. reflexivity.
Qed.

Lemma sample_input_ok' : input_ok sample_input.
Proof. split; [apply sample_input_ok|apply sample_encodable]. Qed.

(** One call that succeeds and the counter it leaves. *)
Lemma history_success i sys s op r count d a out : history i sys s d a out ->
  op_allowed s out op -> fst (run_op sys op s) = Ok r -> outcome r = committed ->
  record_count (selected_commit (persisted_ (snd (run_op sys op s)))) = count ->
  history i sys (snd (run_op sys op s))
    (if promises op then ztake count (offered_by op r a) else d) (offered_by op r a)
    (outstanding_after op s r out).
Proof.
  intros Hh Ha Hr Hc Hcount.
  pose proof (history_call i sys s d a out op r (snd (run_op sys op s)) Hh Ha) as H. unfold observe in H.
  rewrite Hc, Hcount in H. apply H. by apply pair_snd.
Qed.

Lemma flushed_history : history sample_identity good_system flushed [sample_input] [sample_input] false.
Proof.
  assert (history sample_identity good_system appended [] [sample_input] false) as H.
  { unfold appended. refine (history_success _ _ _ (do_append_record sample_input None) commit_success 0 _ _ _
      created_history sample_input_ok' _ _ _); vm_compute; reflexivity. }
  unfold flushed. refine (history_success _ _ _ (do_flush immediate) commit_success 1 _ _ _ H _ _ _ _);
    vm_compute; reflexivity.
Qed.

Lemma crash_last f g : crash_epoch (open_base f) (f_open f) g -> crash f g.
Proof.
  unfold crash, open_base. generalize (f_base f). induction (f_closed f) as [|ws closed IH]; intros base; [done|].
  cbn [concat crash_from]. rewrite after_app. intros H. right. by apply IH.
Qed.

Lemma crash_nothing f : crash f (f_base f).
Proof.
  assert (forall ws, crash_epoch (f_base f) ws (f_base f)) as H.
  { intros ws. split; [intros o; by left|intros k _; by left]. }
  unfold crash. destruct (f_closed f); cbn; [apply H|left; apply H].
Qed.

Definition good_stat : FileStat := mkStat true 1 true false kSegmentSizeBytes.
Definition good_opening : Opening := mkOpening false opened (inl good_stat) (inl good_stat).

Lemma good_opening_ok : opening_ok good_opening.
Proof. by split_and!. Qed.


(** ** Sealing after a deferred commit *)

Module Unsynced.
(** The last synchronization is refused. *)
Definition system : System :=
  quiet_system (fun _ n _ => wrote (Z.to_nat n)) (fun _ n _ => got (Z.to_nat n))
    (fun calls _ => if (20 <? calls)%nat then Some other_errno else None) (fun _ _ => None).
Definition second_input : RecordInput :=
  mkRecordInput 8 Opcode_put ValueType_bytes 0 12345678901234567890 0 [107; 101; 121] [1; 2; 3].

Definition ops : list file_op :=
  [do_append_record sample_input None; do_flush immediate; do_append_record second_input None; do_flush deferred].
Definition start : DurableSegmentFile := snd (create system good_creation (temporary_handle sample_identity true)).
Definition state (n : nat) : DurableSegmentFile :=
  foldl (fun s op => snd (run_op system op s)) start (take n ops).
Definition sealed : DurableSegmentFile := snd (run_op system do_seal (state 4)).
(** The image of a power failure before that synchronization: the second slot
    holds sixteen bytes of the seal, the first one is as it was. *)
Definition seal_commit : SegmentCommit := commit_of 4 PersistedSegmentState_sealed [sample_input; second_input].
Definition image_left : image :=
  overwrite (open_base (file_ sealed)) (slot_offset 1) (ztake 16 (commit_bytes seal_commit)).

Lemma second_ok : input_ok second_input.
Proof.
  split; [|split_and!; [by left|done..]].
  unfold RecordInput_ok, second_input. cbn. unfold Opcode_put, ValueType_bytes. width. split_and!; try lia; bytes_eval.
Qed.

Lemma state_step n op : ops !! n = Some op -> state (S n) = snd (run_op system op (state n)).
Proof. intros Hop. unfold state. by rewrite (take_S_r _ _ _ Hop), foldl_app. Qed.

Lemma step_history n op r count d a out : ops !! n = Some op -> history sample_identity system (state n) d a out ->
  op_allowed (state n) out op -> fst (run_op system op (state n)) = Ok r -> outcome r = committed ->
  record_count (selected_commit (persisted_ (state (S n)))) = count ->
  history sample_identity system (state (S n))
    (if promises op then ztake count (offered_by op r a) else d) (offered_by op r a)
    (outstanding_after op (state n) r out).
Proof. intros Hop. rewrite (state_step _ _ Hop). apply history_success. Qed.

(** The record of the first, strict flush is promised. *)
Lemma unsynced_history : history sample_identity system (state 4) [sample_input] [sample_input; second_input] true.
Proof.
  assert (history sample_identity system (state 0) [] [] false) as H.
  { apply (history_create _ _ good_creation true _ None). change (state 0) with start. unfold start.
    apply pair_snd. vm_compute. reflexivity. }
  apply (step_history 0 (do_append_record sample_input None) commit_success 0) in H;
    [|reflexivity|apply sample_input_ok'|vm_compute; reflexivity..].
  apply (step_history 1 (do_flush immediate) commit_success 1) in H; [|reflexivity|vm_compute; reflexivity..].
  apply (step_history 2 (do_append_record second_input None) commit_success 1) in H;
    [|reflexivity|apply second_ok|vm_compute; reflexivity..].
  apply (step_history 3 (do_flush deferred) commit_success 2) in H; [|reflexivity|vm_compute; reflexivity..].
  assert (outstanding_after (do_flush deferred) (state 3) commit_success false = true) as E by (vm_compute; reflexivity).
  rewrite <- E. exact H.
Qed.

Lemma seal_written : f_open (file_ sealed) !! 1%nat = Some (mkWrite (slot_offset 1) (commit_bytes seal_commit) 128).
Proof. vm_compute. reflexivity. Qed.

Lemma seal_crash : crash (file_ sealed) image_left.
Proof.
  apply crash_last. split.
  - intros o. unfold image_left. destruct (decide (slot_offset 1 <= o < slot_offset 1 + 16)) as [Ho|Ho].
    + right. exists (mkWrite (slot_offset 1) (commit_bytes seal_commit) 128). split_and!.
      * eapply list_elem_of_lookup_2, seal_written.
      * unfold covers. cbn [w_offset w_data]. rewrite zlen_commit_bytes. lia.
      * rewrite overwrite_in by (rewrite zlen_ztake by (rewrite zlen_commit_bytes; lia); lia).
        cbn [w_offset w_data]. apply byte_of_take. lia.
    + left. apply overwrite_out. rewrite zlen_ztake by (rewrite zlen_commit_bytes; lia). done.
  - intros k [-> | ->]; [left; vm_compute; reflexivity|right; right].
    exists invalid_slot. split; [vm_compute; reflexivity|done].
Qed.

(** C39. Sealing does not synchronize a deferred commit first.  A record is
    appended and flushed strictly, which is acknowledged, a second one is flushed
    without synchronization, and the segment is sealed, as a rotation does.  A
    power failure while the seal is written may leave the slot that held the
    acknowledged commit torn and the other one as it was: the file opens, and its
    log is empty. *)
Theorem seal_unsynced_loses :
  history sample_identity system (state 4) [sample_input] [sample_input; second_input] true /\
  run_op system do_seal (state 4) = (Ok (commit_failure indeterminate io_error), sealed) /\
  crash (file_ sealed) image_left /\
  exists s', open_segment good_system good_opening true sample_identity true (file_on image_left) = Ok s' /\
    fst (scan_committed good_system s') = Ok [].
Proof.
  split_and!; [apply unsynced_history|unfold sealed; apply pair_snd; vm_compute; reflexivity|apply seal_crash|].
  assert (match open_segment good_system good_opening true sample_identity true (file_on image_left) with
          | Ok s' => fst (scan_committed good_system s')
          | _ => Err internal_error
          end = Ok []) as H by (vm_compute; reflexivity).
  destruct (open_segment _ _ _ _ _ _) as [s'| |]; [by exists s'|done..].
Qed.
End Unsynced.
