(* ===== verification/SegmentFileTotal.v ===== *)
(** * Segment files are typed and every call returns

    Whatever the bytes of a file, whatever the system answers and whatever is asked
    of a handle, the call returns, and the members of the handle fit together.  No
    assumption is made on the history of the file; of the system, only that signals
    do not interrupt a call for ever (File.v). *)

From S2P Require Import Prelude Core Crc32c Record SegmentHeader Segment File SegmentFile.

(** ** Typed handles *)

(** A commit that has an extent: a valid one, but for the alignment of its end. *)
Definition commit_coherent (c : SegmentCommit) : Prop :=
  kSegmentHeaderReservedBytes <= committed_end c <= kSegmentSizeBytes /\
  (record_count c = 0 /\ committed_end c = kSegmentHeaderReservedBytes /\ first_sequence c = 0 /\ last_sequence c = 0 \/
   record_count c <> 0 /\ committed_end c <> kSegmentHeaderReservedBytes /\
     first_sequence c <> 0 /\ first_sequence c <= last_sequence c).

Definition file_typed (f : File) : Prop := forall o, byte_ok (f_view f o).

(** The commit [c] that the appended records extend, the persisted one [kept], and the
    counters of what lies between them. *)
Record pending_typed (c kept : SegmentCommit) (count bytes : Z) : Prop := {
  pend_generation : commit_generation c = commit_generation kept;
  pend_state : commit_state c = commit_state kept;
  pend_count : record_count c = record_count kept + count;
  pend_bytes : committed_end c = committed_end kept + bytes;
  pend_least : 0 <= kEncodedRecordHeaderSize * count <= bytes;
  pend_first : record_count kept <> 0 -> first_sequence c = first_sequence kept;
  pend_last : 0 < count -> last_sequence kept < last_sequence c;
  pend_none : count = 0 -> c = kept;
  pend_sealed : commit_state kept = PersistedSegmentState_sealed -> count = 0
}.

Record typed (s : DurableSegmentFile) : Prop := {
  ty_file : file_typed (file_ s);
  ty_identity : identity_ok (identity_ s);
  ty_selected : commit_ok (selected_commit (selected_ s)) /\ commit_coherent (selected_commit (selected_ s));
  ty_persisted : commit_ok (selected_commit (persisted_ s)) /\ commit_valid (selected_commit (persisted_ s));
  ty_slot : slot_index (selected_ s) = slot_index (persisted_ s) /\
    0 <= slot_index (persisted_ s) < Z.of_nat kSegmentCommitSlotCount;
  ty_pending : pending_typed (selected_commit (selected_ s)) (selected_commit (persisted_ s))
    (pending_record_count_ s) (pending_bytes_ s)
}.

(** The members but the descriptor and the health. *)
Definition same_members (s s' : DurableSegmentFile) : Prop :=
  identity_ s' = identity_ s /\ selected_ s' = selected_ s /\ persisted_ s' = persisted_ s /\
  pending_record_count_ s' = pending_record_count_ s /\ pending_bytes_ s' = pending_bytes_ s.

Lemma file_typed_view f f' : file_typed f -> (forall o, f_view f' o = f_view f o) -> file_typed f'.
Proof. intros H E o. rewrite E. apply H. Qed.

Lemma after_typed ws g : (forall o, byte_ok (g o)) -> Forall (fun w => bytes_ok (w_data w)) ws ->
  forall o, byte_ok (after ws g o).
Proof.
  intros Hg Hws. revert g Hg. induction Hws as [|w ws Hw _ IH]; intros g Hg o; [apply Hg|]. cbn. apply IH. clear o. intros o.
  unfold apply_write, overwrite. case_match; [|apply Hg]. unfold byte_of.
  destruct (_ !! _) as [b|] eqn:Hb; [|done]. apply lookup_take_Some in Hb as [Hb _].
  rewrite Forall_lookup in Hw. by apply (Hw _ _ Hb).
Qed.

(** ** Methods that return and keep a handle typed *)

Definition keeps (P : DurableSegmentFile -> Prop) {A} (Q : A -> Prop) (m : Method DurableSegmentFile A) : Prop :=
  forall s, P s -> runs (m s) (fun a s' => P s' /\ Q a) (fun _ s' => P s').
Abbreviation kept := (keeps typed (fun _ => True)).

Section combinators.
Context {P : DurableSegmentFile -> Prop} {A B : Type}.
Implicit Types (m : Method DurableSegmentFile A) (k : A -> Method DurableSegmentFile B).

Lemma keeps_ret (Q : A -> Prop) a : Q a -> keeps P Q (retM a).
Proof. intros H s Hs. done. Qed.
Lemma keeps_fail (Q : A -> Prop) e : keeps P Q (failM e).
Proof. intros s Hs. exact Hs. Qed.
Lemma keeps_bind (Q : A -> Prop) (R : B -> Prop) m k :
  keeps P Q m -> (forall a, Q a -> keeps P R (k a)) -> keeps P R (bindM m k).
Proof. intros Hm Hk s Hs. eapply runs_bindM; [apply Hm, Hs|]. intros a s' [H1 H2]. by apply Hk. Qed.
Lemma keeps_attempt (Q : A -> Prop) (R : B -> Prop) m h k :
  keeps P Q m -> (forall e, keeps P R (h e)) -> (forall a, Q a -> keeps P R (k a)) -> keeps P R (attempt m h k).
Proof.
  intros Hm Hh Hk s Hs. eapply runs_attempt; [apply Hm, Hs| |].
  - intros a s' [H1 H2]. by apply Hk.
  - intros e s' H. by apply Hh.
Qed.
Lemma keeps_get (R : B -> Prop) (k : DurableSegmentFile -> Method DurableSegmentFile B) :
  (forall s, P s -> keeps P R (k s)) -> keeps P R (bindM getM k).
Proof. intros H s Hs. rewrite bindM_get. by apply H. Qed.
Lemma keeps_lift (Q : A -> Prop) (r : Result A) :
  match r with Ok a => Q a | Err _ => True | Stuck _ => False end -> keeps P Q (liftM r).
Proof. intros H s Hs. by destruct r. Qed.
End combinators.
Lemma keeps_modify (P : DurableSegmentFile -> Prop) (f : DurableSegmentFile -> DurableSegmentFile) :
  (forall s, P s -> P (f s)) -> keeps P (fun _ => True) (modifyM f).
Proof. intros H s Hs. split; [by apply H|done]. Qed.

(** What the calls of the descriptor keep. *)
Record stable (P : DurableSegmentFile -> Prop) : Prop := {
  stable_file s : P s -> file_typed (file_ s);
  stable_with_file s f : P s -> file_typed f -> P (with_file s f);
  stable_poison s : P s -> P (poison s)
}.

(** A method of the descriptor. *)
Lemma keeps_file P {A} (Q : A -> Prop) (m : Method File A) : stable P ->
  (forall f, file_typed f -> runs (m f) (fun a f' => file_typed f' /\ Q a) (fun _ f' => file_typed f')) ->
  keeps P Q (on_file m).
Proof.
  intros HP H s Hs. specialize (H _ (stable_file P HP s Hs)). unfold on_file, runs in *.
  destruct (m (file_ s)) as [[a|e|f] f']; [|by apply stable_with_file|done].
  destruct H as [H ?]. split; [|done]. by apply stable_with_file.
Qed.

Lemma typed_stable : stable typed.
Proof. split; [by intros s []|intros s f [] ?; by split|intros s []; by split]. Qed.
Lemma members_stable s0 : stable (fun s => typed s /\ same_members s0 s).
Proof.
  split; [by intros s [[] _]|..]; intros; destruct H as [H (? & ? & ? & ? & ?)]; (split; [|by split_and!]);
    [by apply (stable_with_file _ typed_stable)|by apply (stable_poison _ typed_stable)].
Qed.

Lemma typed_poison s : typed s -> typed (poison s).
Proof. apply (stable_poison _ typed_stable). Qed.
Lemma typed_dirty b s : typed s -> typed (with_dirty s b).
Proof. intros []. by split. Qed.

(** Nothing is pending. *)
Lemma pending_nothing c : pending_typed c c 0 0.
Proof. split; try done; lia. Qed.
Lemma commit_valid_coherent c : commit_valid c -> commit_coherent c.
Proof. unfold commit_valid, commit_coherent. tauto. Qed.

Lemma typed_rollback s : typed s -> typed (rollback_pending_metadata s).
Proof.
  intros [H1 H2 H3 H4 [H5 H5'] H6]. unfold rollback_pending_metadata.
  rewrite (pend_generation _ _ _ _ H6), (pend_state _ _ _ _ H6).
  assert (E : forall c, mkCommit (commit_generation c) (committed_end c) (commit_state c) (record_count c) (first_sequence c)
    (last_sequence c) = c) by (by intros []).
  rewrite E. split; cbn; try done; [|apply pending_nothing]. split; [apply H4|apply commit_valid_coherent, H4].
Qed.
Lemma typed_adopt slot c s : typed s -> commit_ok c -> commit_valid c -> 0 <= slot < Z.of_nat kSegmentCommitSlotCount ->
  typed (adopt slot c s).
Proof.
  intros [] ???. split; cbn; [done..| | | |apply pending_nothing]; split; try done. by apply commit_valid_coherent.
Qed.

Section calls.
Context (sys : System).

Lemma keeps_before P op : stable P -> keeps P (fun _ => True) (before_file sys op).
Proof.
  intros HP. apply keeps_file; [done|]. intros f Hf. unfold before. destruct (answer_before _ _ _); cbn; [|split; [|done]]; exact Hf.
Qed.
Lemma keeps_sync P mode : stable P -> keeps P (fun _ => True) (on_file (sync sys mode)).
Proof.
  intros HP. apply keeps_file; [done|]. intros f Hf.
  assert (Hv : forall f1, extends f [] f1 -> file_typed f1).
  { intros f1 He. eapply file_typed_view; [exact Hf|]. intros o. by rewrite (extends_nil _ _ He). }
  eapply runs_weaken; [apply sync_spec| |].
  - intros _ f' (f1 & He & ->). split; [|done]. eapply file_typed_view; [by apply Hv|]. intros o.
    destruct mode; unfold barrier, persist; destruct (f_lost f1); try done.
    unfold f_view. cbn [f_base f_closed f_open]. rewrite concat_app, after_app. cbn. by rewrite app_nil_r.
  - intros _ f' (f1 & He & ->). exact (Hv f1 He).
Qed.
Lemma keeps_write P bytes off : stable P -> bytes_ok bytes -> 0 <= off -> off + zlen bytes <= kMaximumOffset ->
  keeps P (fun _ => True) (on_file (write_all_at sys bytes off)).
Proof.
  intros HP Hb Ho Hm. apply keeps_file; [done|]. intros f Hf.
  assert (Hw : forall ws f', extends f ws f' -> Forall (piece off bytes) ws -> file_typed f').
  { intros ws f' He Hp o. rewrite (extends_view _ _ _ He). apply after_typed; [done|].
    eapply Forall_impl; [exact Hp|]. intros w (j & _ & _ & ->). by apply Forall_drop. }
  eapply runs_weaken; [by apply write_all_at_spec| |].
  - intros _ f' (ws & He & Hp & _). split; [|done]. by eapply Hw.
  - intros _ f' (ws & He & Hp). by eapply Hw.
Qed.

Lemma keeps_read size off : 0 <= off -> 0 <= size -> off + size <= kMaximumOffset ->
  keeps typed (fun bs => bytes_ok bs /\ zlen bs = size) (on_file (read_exact_at sys size off)).
Proof.
  intros Ho Hs Hm. apply keeps_file; [apply typed_stable|]. intros f Hf. eapply runs_weaken; [by apply read_exact_at_spec| |].
  - intros bs f' [-> He]. split; [|split].
    + eapply file_typed_view; [exact Hf|]. intros o. by rewrite (extends_nil _ _ He).
    + unfold bytes_at. apply Forall_fmap, Forall_forall. intros o _. apply Hf.
    + unfold bytes_at, zlen. rewrite length_fmap, length_seqZ. lia.
  - intros _ f' [He _]. eapply file_typed_view; [exact Hf|]. intros o. by rewrite (extends_nil _ _ He).
Qed.

(** ** The writing calls *)

Ltac kept_tail :=
  repeat match goal with
  | |- keeps _ _ (bindM (modifyM _) _) => apply (keeps_bind (fun _ => True)); [apply keeps_modify|intros _ _]
  | |- keeps _ _ (retM _) => by apply keeps_ret
  | |- keeps _ _ (failM _) => apply keeps_fail
  end; auto using typed_poison, typed_dirty, typed_rollback; try (by apply stable_poison).

(** The guards that return at once. *)
Ltac kept_ifs := repeat match goal with |- keeps _ _ (if ?b then _ else _) => destruct b; [by kept_tail|] end.

Lemma encoded_slot_typed c : match encode_segment_commit_slot (zeros kSegmentCommitSlotBytes) c with
  | Ok encoded => bytes_ok encoded /\ zlen encoded = 128 /\ commit_valid c
  | Err _ => True
  | Stuck _ => False
  end.
Proof.
  destruct (validate_commit_cases c) as [[_ Hv]|[E _]].
  - rewrite encode_commit_slot_Ok by (done || (unfold kSegmentCommitSlotBytes; zl)).
    rewrite zdrop_all, app_nil_r by (unfold kSegmentCommitSlotBytes; zl).
    split; [apply commit_bytes_ok|]. split; [apply zlen_commit_bytes|done].
  - unfold encode_segment_commit_slot. rewrite E. by destruct (_ <? _).
Qed.

Lemma kept_publish c mode : commit_ok c -> kept (publish_commit sys c mode).
Proof.
  intros Hc. unfold publish_commit.
  eapply keeps_attempt; [eapply keeps_lift, encoded_slot_typed|intros e; kept_tail|].
  intros encoded (Hb & Hl & Hv). apply keeps_get. intros s Hs. destruct (negb _); [kept_tail|].
  set (slot := u64 (slot_index (persisted_ s) + 1) mod Z.of_nat kSegmentCommitSlotCount).
  assert (Hslot : 0 <= slot < Z.of_nat kSegmentCommitSlotCount) by (apply Z.mod_pos_bound; done).
  clearbody slot.
  eapply keeps_attempt; [by apply keeps_before, typed_stable|intros e; kept_tail|]. intros _ _.
  eapply keeps_attempt; [apply keeps_write; [apply typed_stable|done|..]|intros e; kept_tail|].
  1-2: unfold kSegmentCommitSlotsOffset, kSegmentImmutableHeaderBytes, kSegmentCommitSlotBytes, kMaximumOffset; change (2 ^ 63) with 9223372036854775808;
    rewrite ?Hl; change (Z.of_nat kSegmentCommitSlotCount) with 2 in Hslot; lia.
  intros _ _.
  apply (keeps_bind (fun _ => True)); [apply keeps_modify; intros; by apply typed_adopt|intros _ _].
  destruct mode; [|kept_tail].
  eapply keeps_attempt; [by apply keeps_before, typed_stable|intros e; kept_tail|]. intros _ _.
  eapply keeps_attempt; [by apply keeps_sync, typed_stable|intros e; kept_tail|]. intros _ _. kept_tail.
Qed.

Lemma kept_sync_file : kept (sync_file sys).
Proof.
  unfold sync_file. apply keeps_get. intros s Hs. repeat case_match; [kept_tail..|].
  eapply keeps_attempt; [by apply keeps_before, typed_stable|intros e; kept_tail|]. intros _ _.
  eapply keeps_attempt; [by apply keeps_sync, typed_stable|intros e; kept_tail|]. intros _ _. kept_tail.
Qed.

Lemma kept_flush mode : kept (flush_pending_commit sys mode).
Proof.
  unfold flush_pending_commit. apply keeps_get. intros s Hs. destruct (negb _).
  { destruct mode; [destruct (dirty_ s); [apply kept_sync_file|]|]; kept_tail. }
  eapply keeps_attempt; [by apply keeps_before, typed_stable|intros e; kept_tail|]. intros _ _.
  eapply keeps_attempt; [by apply keeps_sync, typed_stable|intros e; kept_tail|]. intros _ _.
  apply keeps_get. clear s Hs. intros s Hs. apply kept_publish.
  destruct (ty_selected s Hs) as [(? & ? & ? & ? & ? & ?) _]. split_and!; try done. apply wrap_range. done.
Qed.

Lemma kept_seal : kept (seal_segment sys).
Proof.
  unfold seal_segment. apply keeps_get. intros s Hs. kept_ifs.
  eapply (keeps_bind (fun _ => True)).
  { destruct (has_pending_commit s); [apply kept_flush|kept_tail]. }
  intros flushed _. destruct (negb _); [kept_tail|]. apply keeps_get. clear s Hs. intros s Hs. apply kept_publish.
  destruct (ty_selected s Hs) as [(? & ? & ? & ? & ? & ?) _]. split_and!; try done. apply wrap_range. done.
Qed.

(** The pacer grants between one byte and the rest. *)
Lemma keeps_acquire P pacing remaining : stable P -> 0 < remaining ->
  keeps P (fun n => 0 < n <= remaining) (acquire pacing remaining).
Proof.
  intros HP Hr s Hs. unfold acquire. destruct pacing as [pace|]; [|cbn; split; [done|lia]].
  assert (Hc : P (with_file s (count_call (file_ s)))) by (apply stable_with_file; [done..|by apply (stable_file P HP)]).
  destruct (pace _ _) as [granted|e]; [|exact Hc]. rewrite Z.gtb_ltb.
  destruct (Z.eqb_spec (Z.of_nat granted) 0), (Z.ltb_spec remaining (Z.of_nat granted)); cbn; try exact Hc.
  split; [exact Hc|lia].
Qed.

Lemma keeps_append_loop P fuel pacing bytes off written : stable P ->
  bytes_ok bytes -> 0 <= off -> off + zlen bytes <= kSegmentSizeBytes ->
  0 <= written -> zlen bytes - written < Z.of_nat fuel ->
  keeps P (fun _ => True) (append_loop sys fuel pacing bytes off written).
Proof.
  intros HP Hb Ho Hm. unfold kSegmentSizeBytes in Hm. pose proof (zlen_nonneg bytes).
  revert written. induction fuel as [|fuel IH]; intros written Hw Hf; cbn [append_loop];
    (destruct (Z.ltb_spec written (zlen bytes)) as [Hlt|]; cbn [negb]; [|kept_tail]).
  { lia. }
  rewrite wrap_small by (width; lia). eapply keeps_attempt; [apply keeps_acquire; [done|lia]|intros e; kept_tail|].
  intros n Hn. cbn beta in Hn. eapply keeps_bind.
  { apply (keeps_lift (fun part => part = slice written n bytes)). by rewrite subspan_in by lia. }
  intros part ->. rewrite wrap_small by (width; lia).
  eapply keeps_attempt; [apply keeps_write; [done|..]|intros e; kept_tail|].
  - unfold slice. by apply Forall_take, Forall_drop.
  - lia.
  - rewrite zlen_slice by lia. unfold kMaximumOffset. lia.
  - intros _ _. rewrite wrap_small by (width; lia). apply IH; lia.
Qed.

(** A record behind the last one: no counter wraps. *)
Lemma typed_extend record size s : typed s -> is_u64 (rv_sequence record) -> rv_sequence record <> 0 ->
  let c := selected_commit (selected_ s) in
  commit_state c = PersistedSegmentState_active -> (record_count c <> 0 -> last_sequence c < rv_sequence record) ->
  record_count c <> umax 64 -> kEncodedRecordHeaderSize <= size -> committed_end c + size <= kSegmentSizeBytes ->
  typed (extend record (committed_end c) size s).
Proof.
  intros [H1 H2 H3 H4 H5 H6] Hr Hr0 c Hst Hseq Hmax Hz Hm. unfold extend. fold c in H3, H5, H6 |- *. pose proof H4 as Hkept.
  destruct H3 as [(Hg & He & Hs & Hc & Hf & Hl) [Hb Hco]], H4 as [(_ & _ & _ & Hkc & Hkf & Hkl) Hkv].
  pose proof (proj1 (commit_valid_coherent _ Hkv)) as Hkb. destruct Hkv as (_ & _ & _ & _ & Hkco).
  destruct H6 as [P1 P2 P3 P4 P5 P6 P7 P8 P9]. change (umax 64) with 18446744073709551615 in Hmax.
  unfold is_uint, kSegmentHeaderReservedBytes, kSegmentSizeBytes, kEncodedRecordHeaderSize in *.
  assert (Hfirst : is_u64 (if record_count c =? 0 then rv_sequence record else first_sequence c) /\
    (if record_count c =? 0 then rv_sequence record else first_sequence c) <> 0 /\
    (if record_count c =? 0 then rv_sequence record else first_sequence c) <= rv_sequence record).
  { unfold is_uint. destruct (Z.eqb_spec (record_count c) 0); lia. }
  split; cbn; try done; repeat rewrite wrap_small by (width; lia).
  - split; [|unfold commit_coherent, kSegmentHeaderReservedBytes, kSegmentSizeBytes; cbn; lia].
    unfold commit_ok. cbn. unfold is_uint in *. change (2 ^ 64) with 18446744073709551616 in *.
    change (2 ^ 32) with 4294967296 in *. split_and!; lia.
  - split; cbn; try done; try (unfold kEncodedRecordHeaderSize; lia).
    + intros Hk. destruct (Z.eqb_spec (record_count c) 0); [lia|auto].
    + intros _. destruct (decide (pending_record_count_ s = 0)) as [E|E].
      * specialize (P8 E). rewrite <- P8 in *. destruct (decide (record_count c = 0)); [lia|auto].
      * assert (record_count c <> 0) by lia. specialize (P7 ltac:(lia)). specialize (Hseq ltac:(lia)). lia.
    + intros E. rewrite P2, E in Hst. done.
Qed.

Lemma kept_append_record bytes pacing : bytes_ok bytes -> kept (append_record sys bytes pacing).
Proof.
  intros Hb s0 Hs0. unfold append_record. rewrite bindM_get.
  rename s0 into s, Hs0 into Hs.
  assert (Hret : forall r, runs (retM r s) (fun (_ : SegmentCommitResult) s' => typed s' /\ True) (fun _ s' => typed s')) by done.
  destruct (negb (health_ s)); [apply Hret|]. destruct (negb (writable_ s)); [apply Hret|].
  destruct (Z.eqb_spec (commit_state (selected_commit (selected_ s))) PersistedSegmentState_active) as [Hst|]; [|apply Hret].
  pose proof (decode_record_cases bytes true Hb) as Hd. cbn [negb]. unfold attempt at 1, liftM.
  destruct (decode_record bytes true) as [record|e|]; [|apply Hret|done].
  destruct (orb _ _) eqn:Hseq; [apply Hret|]. destruct (orb (record_count _ =? _) _) eqn:Hmax; [apply Hret|].
  rewrite orb_false_iff in Hseq, Hmax. destruct Hseq as [Hs0 Hseq], Hmax as [Hmax _]. rewrite Z.eqb_neq in Hs0, Hmax.
  destruct (ty_selected s Hs) as [Hok [Hend _]]. pose proof (zlen_nonneg bytes).
  rewrite wrap_small by (unfold kSegmentSizeBytes, kSegmentHeaderReservedBytes in *; width; lia). rewrite Z.gtb_ltb.
  destruct (Z.ltb_spec (kSegmentSizeBytes - committed_end (selected_commit (selected_ s))) (zlen bytes)) as [|Hfit]; [apply Hret|].
  set (P := fun s' => typed s' /\ same_members s s'). assert (HP : stable P) by apply members_stable.
  assert (HPs : P s) by (split; [done|by split_and!]).
  eapply runs_attempt; [by apply (keeps_before P)|intros _ s1 [Hs1 _]|intros e s1 [Hs1 _]; by split].
  eapply runs_bindM.
  { eapply runs_weaken; [apply (keeps_append_loop P); [done..| | | | |]|intros failed s2 H2; exact H2|by intros e s2 []].
    - unfold kSegmentHeaderReservedBytes in Hend. lia.
    - lia.
    - lia.
    - unfold zlen. lia.
    - exact Hs1. }
  intros [r|] s2 [[Hs2 (_ & E & _)] _]; [by split|]. rewrite bindM_modify. split; [|done]. rewrite <- E in *.
  destruct Hd as (Hin & He & _ & Hsz & _). pose proof (input_ok_bounds (input_of record) (conj Hin He)).
  apply typed_extend; try done; [apply Hin| |unfold kEncodedRecordHeaderSize; lia|lia].
  intros Hc. rewrite andb_false_iff, negb_false_iff, Z.eqb_eq, Z.leb_gt in Hseq. destruct Hseq; [done|lia].
Qed.

Lemma kept_append bytes mode : bytes_ok bytes -> kept (append_segment sys bytes mode).
Proof.
  intros Hb. unfold append_segment. eapply keeps_bind; [by apply kept_append_record|]. intros r _.
  destruct (negb _); [kept_tail|apply kept_flush].
Qed.

(** ** The reading calls *)

Lemma collect_returns fuel identity bytes cursor count first previous c : bytes_ok bytes -> zlen bytes <= kSegmentSizeBytes ->
  0 <= cursor -> zlen bytes - cursor <= Z.of_nat fuel ->
  runs (visit_loop collect fuel identity bytes cursor count first previous c) (fun _ _ => True) (fun _ _ => True).
Proof.
  intros Hb Hm. unfold kSegmentSizeBytes in Hm. revert cursor count first previous c.
  induction fuel as [|fuel IH]; intros cursor count first previous c Hc Hf; cbn [visit_loop];
    (destruct (Z.ltb_spec cursor (zlen bytes)) as [Hlt|]; cbn [negb]; [|done]).
  { lia. }
  rewrite wrap_small by (width; lia). unfold kEncodedRecordHeaderSize.
  destruct (Z.ltb_spec (zlen bytes - cursor) 56); [done|]. rewrite wrap_small by (width; lia).
  rewrite get_u32_in by lia. rewrite bindM_lift. set (size := le_value _). rewrite !Z.gtb_ltb.
  destruct (Z.ltb_spec size 56); [done|]. destruct (Z.ltb_spec kMaxNormalRecordSize size); [done|].
  destruct (Z.eqb_spec (size mod kRecordAlignment) 0); [|done]. destruct (Z.ltb_spec (zlen bytes - cursor) size); [done|].
  cbn [orb negb]. rewrite subspan_in by lia. rewrite bindM_lift.
  pose proof (decode_record_cases (slice cursor size bytes) true ltac:(by apply Forall_take, Forall_drop)) as Hd.
  destruct (decode_record (slice cursor size bytes) true) as [record|err|]; [rewrite bindM_lift|done|done].
  destruct (orb _ _); [done|]. unfold collect at 1. rewrite bindM_modify. rewrite (wrap_small 64 (cursor + size)) by (width; lia).
  apply IH; lia.
Qed.

Lemma kept_scan : kept (scan_committed sys).
Proof.
  intros s Hs. unfold scan_committed. set (commit := selected_commit (persisted_ s)).
  destruct (_ >? _); [exact Hs|]. unfold visit_committed_records.
  destruct (ty_persisted s Hs) as [(_ & _ & _ & Hcount & _ & _) Hv]. pose proof (proj1 (commit_valid_coherent _ Hv)) as Hend.
  fold commit in Hcount, Hend. clear Hv.
  assert (Hr : runs (read_committed sys s) (fun bs s' => typed s' /\ bytes_ok bs /\ zlen bs <= kSegmentSizeBytes)
    (fun _ s' => typed s')).
  { unfold read_committed. rewrite bindM_get. destruct (negb _); [exact Hs|]. fold commit.
    destruct (_ =? _); [split; [done|split; [constructor|done]]|]. destruct (_ >? _); [exact Hs|].
    unfold kSegmentHeaderReservedBytes, kSegmentSizeBytes in *. rewrite wrap_small by (width; lia).
    eapply runs_weaken; [apply (keeps_read (committed_end commit - 4096) 4096); [lia|lia|unfold kMaximumOffset; lia|done]| |done].
    intros bs s' (? & ? & Hz). split; [done|split; [done|lia]]. }
  destruct (read_committed sys s) as [[bytes|e|f] s1]; [|exact Hr|done]. destruct Hr as (Hs1 & Hb & Hl).
  destruct (_ =? 0); [done|].
  pose proof (collect_returns (length bytes) (identity_ s1) bytes 0 0 0 0 [] Hb Hl ltac:(lia) ltac:(unfold zlen; lia)) as Hc.
  unfold bindM. destruct (visit_loop _ _ _ _ _ _ _ _ _) as [[[[a b] p]|e|f] c]; [|exact Hs1|done].
  unfold liftM, check_visited. by destruct (orb _ _).
Qed.

Lemma kept_read reference readable_end : kept (read_record_into_extent sys reference readable_end).
Proof.
  unfold read_record_into_extent. apply keeps_get. intros s Hs. destruct (negb (health_ s)); [kept_tail|].
  destruct (orb (negb _) (negb _)); [kept_tail|].
  destruct (orb _ _) eqn:Hg; [kept_tail|].
  rewrite !orb_false_iff, !Z.gtb_ltb, !Z.ltb_ge in Hg. destruct Hg as [[[[[[[H1 _] H2] H3] _] H4] H5] _].
  eapply keeps_bind.
  { apply (keeps_read (ref_size reference) (ref_offset reference));
      unfold kSegmentHeaderReservedBytes, kEncodedRecordHeaderSize, kMaxNormalRecordSize, kSegmentSizeBytes, kMaximumOffset in *; lia. }
  intros bytes [Hb _]. pose proof (decode_record_cases bytes true Hb) as Hd. eapply keeps_bind.
  { apply (keeps_lift (fun _ => True)). by destruct (decode_record bytes true). }
  intros decoded _. destruct (orb _ _); kept_tail.
Qed.

(** ** Opening *)

Lemma selected_typed bs d sel : bytes_ok bs -> decode_segment_header bs = Ok d -> select_newest_segment_commit d = Ok sel ->
  (commit_ok (selected_commit sel) /\ commit_valid (selected_commit sel)) /\ 0 <= slot_index sel < Z.of_nat kSegmentCommitSlotCount.
Proof.
  intros Hb Hd Hsel. pose proof (decode_segment_header_cases bs Hb) as H. rewrite Hd in H.
  destruct H as (_ & _ & _ & d0 & d1 & Hslots & H0 & H1). unfold select_newest_segment_commit in Hsel. rewrite Hslots in Hsel.
  pose proof (select_loop_newest [d0; d1] [] None ltac:(by intros ? ?%not_elem_of_nil)) as Hn. change (zlen []) with 0 in Hn.
  destruct (select_loop None 0 [d0; d1]) as [[s|]| |]; try done. cbn in Hsel. apply Ok_inj in Hsel as <-.
  destruct Hn as (Hi & Hl & _). cbn [app] in Hl.
  assert (Hty : forall bs' slot, bytes_ok bs' -> decode_segment_commit_slot bs' = Ok slot -> offered slot = Some (selected_commit s) ->
    commit_ok (selected_commit s) /\ commit_valid (selected_commit s)).
  { intros bs' slot Hb' Hs Ho. pose proof (decode_commit_slot_cases bs' Hb') as Hc. rewrite Hs in Hc.
    destruct slot as [[] [c|]]; try done. cbn in Ho. injection Ho as ->. by destruct Hc as (? & ? & _). }
  destruct (Z.to_nat (slot_index s)) as [|[|n]] eqn:En; cbn in Hl; [| |by destruct n].
  - split; [|change (Z.of_nat kSegmentCommitSlotCount) with 2; lia]. eapply (Hty _ d0); [|exact H0|exact Hl].
    by apply Forall_take, Forall_drop.
  - split; [|change (Z.of_nat kSegmentCommitSlotCount) with 2; lia]. eapply (Hty _ d1); [|exact H1|exact Hl].
    by apply Forall_take, Forall_drop.
Qed.

Lemma select_returns bs d f : bytes_ok bs -> decode_segment_header bs = Ok d -> select_newest_segment_commit d <> Stuck f.
Proof.
  intros Hb Hd. pose proof (decode_segment_header_cases bs Hb) as H. rewrite Hd in H.
  destruct H as (_ & _ & _ & d0 & d1 & Hslots & _ & _). unfold select_newest_segment_commit. rewrite Hslots.
  pose proof (select_loop_newest [d0; d1] [] None ltac:(by intros ? ?%not_elem_of_nil)) as Hn. change (zlen []) with 0 in Hn.
  by destruct (select_loop None 0 [d0; d1]) as [[s|]| |].
Qed.

Lemma load_typed o expected f : file_typed f -> runs (load_segment sys o expected f)
  (fun r f' => file_typed f' /\ identity_ok r.1 /\ (commit_ok (selected_commit r.2) /\ commit_valid (selected_commit r.2)) /\
     0 <= slot_index r.2 < Z.of_nat kSegmentCommitSlotCount) (fun _ _ => True).
Proof.
  intros Hf. unfold load_segment. destruct (check_opened (openat o)) as [[]| |] eqn:E1; [rewrite bindM_lift|done|].
  2:{ revert E1. unfold check_opened. by case_match. }
  destruct (validate_private_segment (stat_private o)) as [[]| |] eqn:E2; [rewrite bindM_lift|done|].
  2:{ revert E2. unfold validate_private_segment. by repeat case_match. }
  destruct (file_size (stat_size o)) as [size| |] eqn:E3; [rewrite bindM_lift|done|].
  2:{ revert E3. unfold file_size. by repeat case_match. }
  destruct (negb _); [done|]. eapply runs_bindM.
  { eapply runs_weaken; [apply read_exact_at_spec; [lia|done|done]| |done]. intros bs f' H. exact H. }
  intros bs f' [-> He]. assert (Hf' : file_typed f').
  { eapply file_typed_view; [exact Hf|]. intros x. by rewrite (extends_nil _ _ He). }
  set (bs := bytes_at _ _ _). assert (Hb : bytes_ok bs) by (apply Forall_fmap, Forall_forall; intros x _; apply Hf).
  pose proof (decode_segment_header_cases bs Hb) as Hd. destruct (decode_segment_header bs) as [d| |] eqn:Ed; [|done..].
  rewrite bindM_lift. destruct Hd as (Hi & _). case_match; [done|].
  pose proof (select_returns bs d) as Hns. destruct (select_newest_segment_commit d) as [sel|e|fault] eqn:Es.
  - rewrite bindM_lift. cbn. split; [done|]. split; [done|]. by eapply selected_typed.
  - done.
  - by destruct (Hns fault).
Qed.

(** ** Every call *)

Inductive file_call :=
  | call_append_record (bytes : list Z) (pacing : Pacing)
  | call_append (bytes : list Z) (mode : SegmentCommitSync)
  | call_flush (mode : SegmentCommitSync)
  | call_sync
  | call_seal
  | call_scan
  | call_read (reference : RecordRef)
  | call_read_runtime (reference : RecordRef)
  | call_reopen (o : Opening) (expected : SegmentHeaderIdentity) (writable : bool).

Definition forget {A} (m : Method DurableSegmentFile A) : Method DurableSegmentFile unit := let! _ := m in retM tt.

(** A call on a handle; a failed [open] leaves the handle. *)
Definition run_call (call : file_call) : Method DurableSegmentFile unit :=
  match call with
  | call_append_record bytes pacing => forget (append_record sys bytes pacing)
  | call_append bytes mode => forget (append_segment sys bytes mode)
  | call_flush mode => forget (flush_pending_commit sys mode)
  | call_sync => forget (sync_file sys)
  | call_seal => forget (seal_segment sys)
  | call_scan => forget (scan_committed sys)
  | call_read reference => forget (read_record_into sys reference)
  | call_read_runtime reference => forget (visit_runtime_record sys reference Ok)
  | call_reopen o expected writable => fun s =>
      match open_segment sys o (health_ s) expected writable (file_ s) with
      | Ok s' => (Ok tt, s')
      | Err e => (Err e, s)
      | Stuck f => (Stuck f, s)
      end
  end.

(** Buffers hold bytes. *)
Definition call_typed (call : file_call) : Prop :=
  match call with
  | call_append_record bytes _ | call_append bytes _ => bytes_ok bytes
  | _ => True
  end.

Fixpoint run_calls (calls : list file_call) (s : DurableSegmentFile) : list (Result unit) * DurableSegmentFile :=
  match calls with
  | [] => ([], s)
  | call :: calls =>
      let '(r, s) := run_call call s in
      let '(rs, s) := run_calls calls s in (r :: rs, s)
  end.

Lemma kept_forget {A} (m : Method DurableSegmentFile A) : kept m -> kept (forget m).
Proof. intros H. eapply keeps_bind; [exact H|]. intros a _. by apply keeps_ret. Qed.

Lemma kept_call call : call_typed call -> kept (run_call call).
Proof.
  intros Hc. destruct call; cbn [run_call]; try apply kept_forget.
  - by apply kept_append_record.
  - by apply kept_append.
  - apply kept_flush.
  - apply kept_sync_file.
  - apply kept_seal.
  - apply kept_scan.
  - apply keeps_get. intros s Hs. apply kept_read.
  - eapply keeps_bind; [apply kept_read|]. intros a _. by apply keeps_lift.
  - intros s Hs. unfold open_segment. destruct (injected o); [exact Hs|]. destruct (negb _); [exact Hs|]. unfold handle_on.
    pose proof (load_typed o (Some expected) (file_ s) (ty_file s Hs)) as Hl.
    destruct (load_segment _ _ _ _) as [[r|e|f] f']; cbn; [|exact Hs|done].
    destruct Hl as (? & ? & [? ?] & ?). split; [|done].
    split; cbn; try done; [|apply pending_nothing]. split; [done|by apply commit_valid_coherent].
Qed.

Lemma calls_kept calls s : typed s -> Forall call_typed calls ->
  Forall (fun r => forall f, r <> Stuck f) (run_calls calls s).1 /\ typed (run_calls calls s).2.
Proof.
  intros Hs Hc. revert s Hs. induction Hc as [|call calls Hcall _ IH]; intros s Hs; [by split|]. cbn [run_calls].
  pose proof (kept_call call Hcall s Hs) as Hk. destruct (run_call call s) as [r s1].
  assert (H1 : typed s1 /\ forall f, r <> Stuck f) by (destruct r; cbn in Hk; [split; [apply Hk|done]|by split|done]).
  destruct (IH s1 (proj1 H1)) as [Hr Ht]. destruct (run_calls calls s1) as [rs s2]. cbn in *. split; [constructor; [apply H1|done]|done].
Qed.


(** C24. The members of a handle fit together after any calls, appends of unsuited
    bytes, failures and reopenings included: the persisted commit is valid, the selected
    one has its slot, generation and state and covers it; the pending counters are the
    differences of their record counts and ends, so none of them has wrapped, with at
    least a record header of bytes for each record; the selected last sequence is
    greater when something is pending, the commits are equal when nothing is, and a
    sealed file has nothing pending. *)
Theorem segment_file_typed calls s : typed s -> Forall call_typed calls -> typed (run_calls calls s).2.
Proof. intros Hs Hc. by apply calls_kept. Qed.
End calls.

(** ** Samples *)

(** A system that writes half of what it is asked, then fails every other call; each
    third call is interrupted. *)
Definition third_call (calls : nat) : bool := Nat.eqb (Nat.modulo calls 3) 2%nat.
Lemma third_calls (calls : nat) : exists k, (k <= 1)%nat /\ third_call (calls + k) = false.
Proof.
  unfold third_call. destruct (Nat.eq_dec (Nat.modulo calls 3) 2%nat) as [E|E]; [exists 1%nat|exists 0%nat]; (split; [lia|]); apply Nat.eqb_neq.
  - by rewrite Nat.Div0.add_mod, E.
  - by rewrite Nat.add_0_r.
Qed.
Definition faulty_system : System :=
  mkSystem (fun calls n _ => if Nat.even calls then wrote (Z.to_nat (n / 2)) else write_error 1 ENOSPC)
    (fun calls n _ => if Nat.even calls then got (Z.to_nat n) else read_error other_errno)
    (fun calls _ => if Nat.even calls then None else Some other_errno) (fun _ _ => None)
    third_call 1 third_calls.

Definition sample_handle : DurableSegmentFile := temporary_handle sample_identity true.
Definition sample_calls : list file_call :=
  [call_append_record (record_bytes sample_input) None; call_flush deferred; call_append (zeros 64) immediate;
   call_seal; call_scan; call_read {| ref_segment_id := 7; ref_offset := 4096; ref_size := 64; ref_sequence := 1; ref_generation := 1 |};
   call_reopen (mkOpening false opened (inl (mkStat true 1 true false kSegmentSizeBytes)) (inl (mkStat true 1 true false kSegmentSizeBytes)))
     sample_identity true].

Lemma sample_handle_typed : typed sample_handle.
Proof.
  assert (Hc : commit_ok initial_commit) by (vm_compute; split_and!; (done || intros [=])).
  assert (Hv : commit_valid initial_commit) by (apply validate_commit_Ok; vm_compute; reflexivity).
  split; [by intros o|apply sample_identity_ok|..]; cbn [sample_handle temporary_handle new_handle selected_ persisted_
    selected_commit slot_index pending_record_count_ pending_bytes_]; [| | |apply pending_nothing].
  - split; [done|by apply commit_valid_coherent].
  - by split.
  - done.
Qed.
Lemma sample_calls_typed : Forall call_typed sample_calls.
Proof.
  unfold sample_calls. repeat (apply Forall_cons_2; [cbn [call_typed]; first [exact I|by bytes_eval]|]). constructor.
Qed.


Lemma segment_file_typed_witness : typed (run_calls faulty_system sample_calls sample_handle).2.
Proof. exact (segment_file_typed faulty_system sample_calls sample_handle sample_handle_typed sample_calls_typed). Defined.
