(* ===== verification/Routing.v ===== *)
(** * Key hashing and worker routing

    Models include/glifistore/core/key_hash.hpp and src/core/worker_routing.cpp:
    the two key hashes, the choice between them, the identity value of the INIT
    response, and the lock-free snapshot of the process-wide routing state.  The
    theorems show that the SipHash loop computes SipHash-2-4 as its authors define
    it, that the identity value round-trips, and that a reader of the routing
    state never sees the algorithm of one update with the seed of another. *)

From Stdlib Require Import Ascii String.
From S2P Require Import Prelude Core.

(** ** core/key_hash.hpp *)

Definition kFnv1a64Offset : Z := 14695981039346656037.
Definition kFnv1a64Prime : Z := 1099511628211.

Definition hash_key (key : list Z) : Z :=
  foldl (fun hash byte => u64 (Z.lxor hash byte * kFnv1a64Prime)) kFnv1a64Offset key.

Definition rotl (value shift : Z) : Z :=
  Z.lor (u64 (Z.shiftl value shift)) (Z.shiftr value (64 - shift)).

(** The four words [v0], [v1], [v2], [v3]. *)
Definition SipState : Type := Z * Z * Z * Z.

Definition sipround (s : SipState) : SipState :=
  let '(v0, v1, v2, v3) := s in
  let v0 := u64 (v0 + v1) in
  let v1 := rotl v1 13 in
  let v1 := Z.lxor v1 v0 in
  let v0 := rotl v0 32 in
  let v2 := u64 (v2 + v3) in
  let v3 := rotl v3 16 in
  let v3 := Z.lxor v3 v2 in
  let v0 := u64 (v0 + v3) in
  let v3 := rotl v3 21 in
  let v3 := Z.lxor v3 v0 in
  let v2 := u64 (v2 + v1) in
  let v1 := rotl v1 17 in
  let v1 := Z.lxor v1 v2 in
  let v2 := rotl v2 32 in
  (v0, v1, v2, v3).

(** [v3 ^= message; sipround; sipround; v0 ^= message] *)
Definition sip_absorb (s : SipState) (message : Z) : SipState :=
  let '(v0, v1, v2, v3) := s in
  let '(v0, v1, v2, v3) := sipround (sipround (v0, v1, v2, Z.lxor v3 message)) in
  (Z.lxor v0 message, v1, v2, v3).

Definition sip_init (k0 k1 : Z) : SipState :=
  (Z.lxor k0 0x736f6d6570736575, Z.lxor k1 0x646f72616e646f6d,
   Z.lxor k0 0x6c7967656e657261, Z.lxor k1 0x7465646279746573).

(** [while (offset + 8 <= length)]; the loop over the eight bytes of a word is the
    one of [get_u64]. *)
Fixpoint siphash_loop (fuel : nat) (bytes : list Z) (offset : Z) (s : SipState) :
    Result (Z * SipState) :=
  if negb (offset + 8 <=? zlen bytes) then Ok (offset, s)
  else match fuel with
       | O => Stuck out_of_fuel
       | S fuel =>
           let? message := get_loop 8 bytes offset 0 0 in
           siphash_loop fuel bytes (offset + 8) (sip_absorb s message)
       end.

Definition siphash24 (key : list Z) (k0 k1 : Z) : Result Z :=
  let length := zlen key in
  let? r := siphash_loop (Datatypes.length key) key 0 (sip_init k0 k1) in
  let '(offset, s) := r in
  let? message := get_loop (Z.to_nat (length - offset)) key offset 0 (u64 (Z.shiftl length 56)) in
  let '(v0, v1, v2, v3) := sip_absorb s message in
  let '(v0, v1, v2, v3) := sipround (sipround (sipround (sipround (v0, v1, Z.lxor v2 0xff, v3)))) in
  Ok (Z.lxor (Z.lxor (Z.lxor v0 v1) v2) v3).

Definition hash_key_keyed (key : list Z) (k0 k1 : Z) : Result Z := siphash24 key k0 k1.

(** [route_worker(key_hash, worker_count)]; the caller has at least one worker. *)
Definition route_worker (key_hash worker_count : Z) : Z := key_hash mod worker_count.

(** ** core/worker_routing.hpp *)

(** [enum class RoutingAlgorithm : std::uint32_t] holds any 32-bit value. *)
Definition RoutingAlgorithm_fnv1a64_v1 : Z := 1.
Definition RoutingAlgorithm_siphash24_v1 : Z := 2.
Definition kDefaultWorkerHashSeed : Z := 0.
Definition kWorkerRoutingSipKey1Xor : Z := 0x6a09e667f3bcc909.
(** "GlifiStore/2" *)
Definition kWireProtocolIdentity : list Z := [71; 108; 105; 102; 105; 83; 116; 111; 114; 101; 47; 50].
Definition kWireInitIdentityExtendedBytes : Z := zlen kWireProtocolIdentity + 1 + 4 + 8.

Record WorkerRoutingState := mkRouting { algorithm : Z; routing_seed : Z }.

#[export] Instance WorkerRoutingState_eq_dec : EqDecision WorkerRoutingState.
Proof. solve_decision. Defined.

Definition default_routing : WorkerRoutingState :=
  mkRouting RoutingAlgorithm_fnv1a64_v1 kDefaultWorkerHashSeed.

Definition keyed (state : WorkerRoutingState) : bool :=
  algorithm state =? RoutingAlgorithm_siphash24_v1.

Definition validate_worker_routing_state (state : WorkerRoutingState) : Status :=
  if algorithm state =? RoutingAlgorithm_fnv1a64_v1
  then if negb (routing_seed state =? kDefaultWorkerHashSeed) then Err invalid_argument else Ok tt
  else if algorithm state =? RoutingAlgorithm_siphash24_v1 then Ok tt
  else Err invalid_argument.

Definition hash_key_routing (key : list Z) (state : WorkerRoutingState) : Result Z :=
  if algorithm state =? RoutingAlgorithm_siphash24_v1
  then siphash24 key (routing_seed state) (Z.lxor (routing_seed state) kWorkerRoutingSipKey1Xor)
  else Ok (hash_key key).

(** [out.resize(at + n); le::put(out, at, value)] *)
Definition push_u32 (out : list Z) (value : Z) : Result (list Z) :=
  put_u32 (out ++ zeros 4) (zlen out) value.
Definition push_u64 (out : list Z) (value : Z) : Result (list Z) :=
  put_u64 (out ++ zeros 8) (zlen out) value.

Definition encode_init_identity_value (state : WorkerRoutingState) : Result (list Z) :=
  let value := kWireProtocolIdentity in
  if negb (keyed state) then Ok value
  else
  let value := value ++ [0] in
  let? value := push_u32 value (algorithm state) in
  push_u64 value (routing_seed state).

(** [std::memcmp(value.data(), expected.data(), expected.size()) == 0] *)
Definition starts_with (value expected : list Z) : Result bool :=
  let? prefix := first value (zlen expected) in Ok (bool_decide (prefix = expected)).

Definition decode_init_identity_value (value : list Z) : Result WorkerRoutingState :=
  let n := zlen kWireProtocolIdentity in
  let? plain := (if zlen value =? n then starts_with value kWireProtocolIdentity else Ok false) in
  if (plain : bool) then Ok default_routing
  else if negb (zlen value =? kWireInitIdentityExtendedBytes) then Err corrupted_data
  else
  let? bad := (let? same := starts_with value kWireProtocolIdentity in Ok (negb same)) ||?
              (get_byte value n <>? 0) in
  if (bad : bool) then Err corrupted_data
  else
  let? algorithm := get_u32 value (n + 1) in
  let? seed := get_u64 value (n + 1 + 4) in
  let state := mkRouting algorithm seed in
  validate_worker_routing_state state ;;?
  if negb (keyed state) then Err corrupted_data else Ok state.

(** ** SipHash-c-d as its authors define it

    After section 2 of the paper of Aumasson and Bernstein, written without the code: the
    words are integers modulo 2^64, the initial constants spell a text, the message is
    padded with zero bytes and its length modulo 256 to a multiple of eight bytes, and
    absorbed as little-endian words by [c] rounds each; [d] rounds finish. *)

Fixpoint words (n : nat) (bs : list Z) : list Z :=
  match n with
  | O => []
  | S n => le_value (ztake 8 bs) :: words n (zdrop 8 bs)
  end.

Definition sip_padded (m : list Z) : list Z :=
  m ++ zeros (7 - zlen m mod 8) ++ [zlen m mod 256].

Module SipHash.
Definition add (v w : Z) : Z := (v + w) mod 2 ^ 64.
(** [v <<< n] *)
Definition rotate (v n : Z) : Z := (v * 2 ^ n) mod 2 ^ 64 + v / 2 ^ (64 - n).

(** Figure 2.1: two layers of additions, rotations and exclusive ors. *)
Definition SipRound (v : Z * Z * Z * Z) : Z * Z * Z * Z :=
  let '(v0, v1, v2, v3) := v in
  let v0 := add v0 v1 in let v2 := add v2 v3 in
  let v1 := rotate v1 13 in let v3 := rotate v3 16 in
  let v1 := Z.lxor v1 v0 in let v3 := Z.lxor v3 v2 in
  let v0 := rotate v0 32 in
  let v2 := add v2 v1 in let v0 := add v0 v3 in
  let v1 := rotate v1 17 in let v3 := rotate v3 21 in
  let v1 := Z.lxor v1 v2 in let v3 := Z.lxor v3 v0 in
  let v2 := rotate v2 32 in
  (v0, v1, v2, v3).

(** The constants are the text somepseudorandomlygeneratedbytes, eight characters each,
    the first one most significant. *)
Definition big_endian (s : string) : Z :=
  foldl (fun value c => 256 * value + Z.of_N (Ascii.N_of_ascii c)) 0 (String.list_ascii_of_string s).
Definition initial (k0 k1 : Z) : Z * Z * Z * Z :=
  (Z.lxor k0 (big_endian "somepseu"), Z.lxor k1 (big_endian "dorandom"),
   Z.lxor k0 (big_endian "lygenera"), Z.lxor k1 (big_endian "tedbytes")).

Definition compress (c : nat) (v : Z * Z * Z * Z) (m : Z) : Z * Z * Z * Z :=
  let '(v0, v1, v2, v3) := v in
  let '(v0, v1, v2, v3) := Nat.iter c SipRound (v0, v1, v2, Z.lxor v3 m) in
  (Z.lxor v0 m, v1, v2, v3).
Definition finalize (d : nat) (v : Z * Z * Z * Z) : Z :=
  let '(v0, v1, v2, v3) := v in
  let '(v0, v1, v2, v3) := Nat.iter d SipRound (v0, v1, Z.lxor v2 0xff, v3) in
  Z.lxor (Z.lxor (Z.lxor v0 v1) v2) v3.

Definition hash (c d : nat) (k0 k1 : Z) (m : list Z) : Z :=
  finalize d (foldl (compress c) (initial k0 k1) (words (Z.to_nat (zlen m / 8 + 1)) (sip_padded m))).
End SipHash.

(** The same words through the rounds of the code. *)
Definition sip_finish (s : SipState) : Z :=
  let '(v0, v1, v2, v3) := s in
  let '(v0, v1, v2, v3) := Nat.iter 4 sipround (v0, v1, Z.lxor v2 0xff, v3) in
  Z.lxor (Z.lxor (Z.lxor v0 v1) v2) v3.

Definition siphash_words (k0 k1 : Z) (m : list Z) : Z :=
  sip_finish (foldl sip_absorb (sip_init k0 k1) (words (Z.to_nat (zlen m / 8 + 1)) (sip_padded m))).

Lemma le_value_app a b : le_value (a ++ b) = Z.lor (le_value a) (Z.shiftl (le_value b) (8 * zlen a)).
Proof.
  unfold le_value. induction a as [|x a IH].
  { cbn. by rewrite Z.shiftl_0_r. }
  pose proof (zlen_nonneg a). cbn [app little_endian_to_Z]. rewrite IH, Z.shiftl_lor, Z.lor_assoc, Z.shiftl_shiftl, zlen_cons by lia.
  do 2 f_equal. lia.
Qed.

Lemma le_value_zeros n : le_value (zeros n) = 0.
Proof.
  unfold le_value, zeros. induction (Z.to_nat n) as [|k IH]; [done|].
  cbn [replicate little_endian_to_Z]. rewrite IH. by rewrite Z.shiftl_0_l.
Qed.

(** The length byte of the last word. *)
Lemma sip_last_word rest n : bytes_ok rest -> zlen rest <= 7 -> 0 <= n ->
  Z.lor (u64 (Z.shiftl n 56)) (le_value rest) =
  le_value (rest ++ zeros (7 - zlen rest) ++ [n mod 256]).
Proof.
  intros Hr Hl Hn. pose proof (zlen_nonneg rest).
  rewrite !le_value_app, le_value_zeros, Z.lor_0_l, Z.lor_comm. f_equal.
  rewrite zlen_zeros, Z.shiftl_shiftl by lia.
  replace (8 * (7 - zlen rest) + 8 * zlen rest) with 56 by lia.
  unfold le_value, wrap. cbn [little_endian_to_Z]. rewrite Z.shiftl_0_l, Z.lor_0_r.
  rewrite !Z.shiftl_mul_pow2 by lia. change (2 ^ 64) with (256 * 2 ^ 56).
  by rewrite Z.mul_mod_distr_r by done.
Qed.

Lemma siphash_loop_spec fuel key offset s :
  bytes_ok key -> 0 <= offset <= zlen key -> zlen key - offset < 8 * (Z.of_nat fuel + 1) ->
  exists s', siphash_loop fuel key offset s = Ok (offset + (zlen key - offset) / 8 * 8, s') /\
    forall tail, foldl sip_absorb s (words (Z.to_nat ((zlen key - offset) / 8 + 1)) (zdrop offset key ++ tail)) =
      sip_absorb s' (le_value (ztake 8 (zdrop (offset + (zlen key - offset) / 8 * 8) key ++ tail))).
Proof.
  intros Hk. revert offset s. induction fuel as [|fuel IH]; intros offset s Ho Hf; cbn [siphash_loop].
  - destruct (Z.leb_spec (offset + 8) (zlen key)); [lia|]. cbn [negb].
    assert ((zlen key - offset) / 8 = 0) as -> by (apply Z.div_small; lia).
    exists s. by rewrite Z.mul_0_l, Z.add_0_r.
  - destruct (Z.leb_spec (offset + 8) (zlen key)); cbn [negb].
    2:{ assert ((zlen key - offset) / 8 = 0) as -> by (apply Z.div_small; lia).
        exists s. by rewrite Z.mul_0_l, Z.add_0_r. }
    rewrite get_loop_spec by lia. cbn [bindR]. rewrite Z.lor_0_l, Z.shiftl_0_r, Z.add_0_r.
    destruct (IH (offset + 8) (sip_absorb s (le_value (slice offset 8 key)))) as (s' & E & Hw); [lia..|].
    change (Z.of_nat 8) with 8. rewrite E. exists s'.
    assert ((zlen key - offset) / 8 = (zlen key - (offset + 8)) / 8 + 1) as ->.
    { replace (zlen key - offset) with (zlen key - (offset + 8) + 1 * 8) by lia.
      by rewrite Z.div_add by lia. }
    pose proof (Z.div_pos (zlen key - (offset + 8)) 8). split; [do 2 f_equal; lia|].
    intros tail.
    replace (offset + ((zlen key - (offset + 8)) / 8 + 1) * 8)
      with (offset + 8 + (zlen key - (offset + 8)) / 8 * 8) by lia. rewrite <- Hw.
    replace (Z.to_nat ((zlen key - (offset + 8)) / 8 + 1 + 1))
      with (S (Z.to_nat ((zlen key - (offset + 8)) / 8 + 1))) by lia.
    cbn [words foldl]. rewrite ztake_app_le, zdrop_app_le, zdrop_zdrop by (rewrite ?zlen_zdrop; lia).
    do 2 f_equal.
Qed.

Lemma iter_4 {A} (f : A -> A) x : Nat.iter 4 f x = f (f (f (f x))).
Proof. reflexivity. Qed.

Lemma hash_key_range key : is_u64 (hash_key key).
Proof.
  unfold hash_key. assert (H : is_u64 kFnv1a64Offset) by (unfold kFnv1a64Offset; width; lia). revert H.
  generalize kFnv1a64Offset. induction key as [|b key IH]; intros h Hh; cbn; [done|].
  apply IH. by apply wrap_range.
Qed.

Lemma siphash24_words key k0 k1 : bytes_ok key ->
  siphash24 key k0 k1 = Ok (siphash_words k0 k1 key).
Proof.
  intros Hk. unfold siphash24, siphash_words. pose proof (zlen_nonneg key) as Hn.
  destruct (siphash_loop_spec (length key) key 0 (sip_init k0 k1) Hk) as (s' & E & Hw);
    [lia|unfold zlen; lia|].
  rewrite Z.sub_0_r, Z.add_0_l in *. rewrite E. cbn [bindR]. clear E.
  pose proof (Z.div_mod (zlen key) 8 ltac:(lia)) as Hdm.
  pose proof (Z.mod_pos_bound (zlen key) 8 ltac:(lia)).
  set (o := zlen key / 8 * 8) in *. assert (zlen key - o = zlen key mod 8) as Ho by lia.
  assert (0 <= o <= zlen key) as Ho' by (pose proof (Z.div_pos (zlen key) 8); lia).
  rewrite get_loop_spec by lia. rewrite Z.shiftl_0_r, Z2Nat.id, Z.add_0_r by lia. cbn [bindR].
  unfold sip_padded. change (zdrop 0 key) with key in Hw. rewrite Hw.
  rewrite slice_rest by lia. assert (zlen (zdrop o key) = zlen key mod 8) as Hz by zl.
  rewrite <- Hz. rewrite sip_last_word by (try lia; by apply Forall_drop).
  rewrite ztake_all by zl. unfold sip_finish.
  destruct (sip_absorb _ _) as [[[v0 v1] v2] v3]. rewrite iter_4. generalize (v0, v1, Z.lxor v2 255, v3).
  intros t. destruct (sipround _) as [[[w0 w1] w2] w3]. reflexivity.
Qed.

Lemma rotl_range v n : 0 <= n <= 64 -> is_u64 v -> is_u64 (rotl v n).
Proof.
  intros Hn Hv. unfold rotl. pose proof (wrap_range 64 (Z.shiftl v n)) as Hw.
  assert (0 <= Z.shiftr v (64 - n) < 2 ^ 64).
  { rewrite Z.shiftr_div_pow2 by lia. pose proof (Z.pow_pos_nonneg 2 (64 - n)). unfold is_uint in *.
    split; [apply Z.div_pos; lia|]. apply Z.div_lt_upper_bound; nia. }
  split; [apply Z.lor_nonneg; unfold is_uint in *; lia|].
  apply Z.bounded_iff_bits_nonneg'; [lia|apply Z.lor_nonneg; unfold is_uint in *; lia|].
  intros i Hi. rewrite Z.lor_spec. rewrite !(testbit_above 64); try lia; try done. by apply Hw.
Qed.

Definition sip_ok (s : SipState) : Prop :=
  let '(v0, v1, v2, v3) := s in is_u64 v0 /\ is_u64 v1 /\ is_u64 v2 /\ is_u64 v3.

Lemma sipround_ok s : sip_ok s -> sip_ok (sipround s).
Proof.
  destruct s as [[[v0 v1] v2] v3]. intros (H0 & H1 & H2 & H3). unfold sipround, sip_ok.
  split_and!; repeat first [apply rotl_range; [lia|] | apply lxor_range; [lia| |] | done
    | apply wrap_range; lia].
Qed.

(** *** The rounds of the code are those of the paper *)

Lemma rotl_rotate v n : 0 < n < 64 -> is_u64 v -> rotl v n = SipHash.rotate v n.
Proof.
  intros Hn Hv. unfold rotl, SipHash.rotate, wrap, is_uint in *. rewrite Z.shiftl_mul_pow2, Z.shiftr_div_pow2 by lia.
  assert (E : 2 ^ 64 = 2 ^ (64 - n) * 2 ^ n) by (rewrite <- Z.pow_add_r by lia; f_equal; lia).
  pose proof (Z.pow_pos_nonneg 2 n). pose proof (Z.pow_pos_nonneg 2 (64 - n)).
  rewrite E, Z.mul_mod_distr_r by lia. rewrite Z.lor_comm, <- Z.shiftl_mul_pow2, lor_shiftl_add by
    first [lia | split; [apply Z.div_pos; lia|apply Z.div_lt_upper_bound; nia]].
  rewrite Z.shiftl_mul_pow2 by lia. lia.
Qed.

Lemma sipround_eq s : sip_ok s -> sipround s = SipHash.SipRound s.
Proof.
  destruct s as [[[v0 v1] v2] v3]. intros (H0 & H1 & H2 & H3). unfold sipround, SipHash.SipRound.
  repeat match goal with
  | |- context [rotl ?v ?n] =>
      rewrite (rotl_rotate v n) by
        (try lia; repeat first [done | apply wrap_range; lia | apply lxor_range; [lia| |] |
           rewrite <- rotl_rotate by (try lia; repeat first [done | apply wrap_range; lia | apply lxor_range; [lia| |]]);
           apply rotl_range; [lia|]])
  end.
  reflexivity.
Qed.

Lemma sip_init_ok k0 k1 : is_u64 k0 -> is_u64 k1 -> sip_ok (sip_init k0 k1).
Proof. intros. unfold sip_init, sip_ok. split_and!; apply lxor_range; try lia; try done; width; lia. Qed.

Lemma sip_absorb_ok s w : sip_ok s -> is_u64 w -> sip_ok (sip_absorb s w).
Proof.
  intros Hs Hw. unfold sip_absorb. destruct s as [[[v0 v1] v2] v3]. destruct Hs as (? & ? & ? & ?).
  assert (sip_ok (v0, v1, v2, Z.lxor v3 w)) as Hs by (split_and!; try done; by apply lxor_range).
  do 2 apply sipround_ok in Hs. destruct (sipround _) as [[[w0 w1] w2] w3].
  destruct Hs as (? & ? & ? & ?). split_and!; try done. by apply lxor_range.
Qed.

Lemma sip_absorb_eq s w : sip_ok s -> is_u64 w -> sip_absorb s w = SipHash.compress 2 s w.
Proof.
  intros Hs Hw. unfold sip_absorb, SipHash.compress. destruct s as [[[v0 v1] v2] v3]. destruct Hs as (? & ? & ? & ?).
  assert (sip_ok (v0, v1, v2, Z.lxor v3 w)) as Hs by (split_and!; try done; by apply lxor_range).
  change (Nat.iter 2 SipHash.SipRound ?x) with (SipHash.SipRound (SipHash.SipRound x)).
  by rewrite <- (sipround_eq (_, _, _, Z.lxor v3 w)), <- sipround_eq by (try apply sipround_ok; done).
Qed.

Lemma sip_finish_eq s : sip_ok s -> sip_finish s = SipHash.finalize 4 s.
Proof.
  intros Hs. unfold sip_finish, SipHash.finalize. destruct s as [[[v0 v1] v2] v3]. destruct Hs as (? & ? & ? & ?).
  assert (sip_ok (v0, v1, Z.lxor v2 255, v3)) as Hs
    by (split_and!; try done; apply lxor_range; try lia; try done; width; lia).
  rewrite !iter_4. revert Hs. generalize (v0, v1, Z.lxor v2 255, v3). intros s Hs.
  do 4 (rewrite sipround_eq by (repeat apply sipround_ok; done)). reflexivity.
Qed.

Lemma sip_words_ok m : bytes_ok m -> Forall is_u64 (words (Z.to_nat (zlen m / 8 + 1)) (sip_padded m)).
Proof.
  intros Hm. assert (bytes_ok (sip_padded m)) as Hp.
  { unfold sip_padded. repeat apply Forall_app_2; auto using bytes_ok_zeros.
    apply Forall_singleton. apply (Z.mod_pos_bound _ 256). lia. }
  revert Hp. generalize (sip_padded m). induction (Z.to_nat _) as [|n IH]; intros bs Hbs; cbn; constructor.
  - eapply (is_uint_mono (8 * zlen (ztake 8 bs))); [|by apply le_value_range, Forall_take].
    unfold zlen, ztake. rewrite length_take. lia.
  - by apply IH, Forall_drop.
Qed.

Lemma siphash_words_paper k0 k1 m : is_u64 k0 -> is_u64 k1 -> bytes_ok m ->
  siphash_words k0 k1 m = SipHash.hash 2 4 k0 k1 m.
Proof.
  intros H0 H1 Hm. unfold siphash_words, SipHash.hash. change (SipHash.initial k0 k1) with (sip_init k0 k1).
  pose proof (sip_init_ok k0 k1 H0 H1) as Hs. revert Hs. generalize (sip_init k0 k1).
  induction (sip_words_ok m Hm) as [|w ws Hw _ IH]; intros s Hs; cbn [foldl]; [by apply sip_finish_eq|].
  rewrite <- sip_absorb_eq by done. apply IH. by apply sip_absorb_ok.
Qed.

Lemma siphash_words_range k0 k1 m : is_u64 k0 -> is_u64 k1 -> bytes_ok m ->
  is_u64 (siphash_words k0 k1 m).
Proof.
  intros H0 H1 Hm. unfold siphash_words. pose proof (sip_init_ok k0 k1 H0 H1) as Hs. revert Hs. generalize (sip_init k0 k1).
  induction (sip_words_ok m Hm) as [|w ws Hw Hws IH]; intros s Hs; cbn [foldl]; [|by apply IH, sip_absorb_ok].
  unfold sip_finish. destruct s as [[[v0 v1] v2] v3]. destruct Hs as (? & ? & ? & ?).
  assert (sip_ok (v0, v1, Z.lxor v2 255, v3)) as Hs
    by (split_and!; try done; apply lxor_range; try lia; try done; width; lia).
  rewrite iter_4. do 4 apply sipround_ok in Hs. revert Hs. generalize (sipround (sipround (sipround
    (sipround (v0, v1, Z.lxor v2 255, v3))))). intros [[[w0 w1] w2] w3] (? & ? & ? & ?).
  repeat (apply lxor_range; [lia| |]); done.
Qed.

(** ** The INIT identity value *)

Definition identity_value (state : WorkerRoutingState) : list Z :=
  if keyed state
  then kWireProtocolIdentity ++ [0] ++ le_bytes 4 (algorithm state) ++ le_bytes 8 (routing_seed state)
  else kWireProtocolIdentity.

Lemma push_u32_eq out v : push_u32 out v = Ok (out ++ le_bytes 4 v).
Proof.
  unfold push_u32. rewrite put_u32_memcpy by (rewrite zlen_app; pose proof (zlen_nonneg out); zl).
  rewrite <- (app_nil_r (zeros 4)), memcpy_over by zl. by rewrite app_nil_r.
Qed.
Lemma push_u64_eq out v : push_u64 out v = Ok (out ++ le_bytes 8 v).
Proof.
  unfold push_u64. rewrite put_u64_memcpy by (rewrite zlen_app; pose proof (zlen_nonneg out); zl).
  rewrite <- (app_nil_r (zeros 8)), memcpy_over by zl. by rewrite app_nil_r.
Qed.

Lemma encode_init_identity_value_eq state : encode_init_identity_value state = Ok (identity_value state).
Proof.
  unfold encode_init_identity_value, identity_value. destruct (keyed state); [|done]. cbn [negb].
  rewrite push_u32_eq. cbn [bindR]. rewrite push_u64_eq. by rewrite <- !app_assoc.
Qed.

Lemma starts_with_in value expected : zlen expected <= zlen value ->
  starts_with value expected = Ok (bool_decide (ztake (zlen expected) value = expected)).
Proof.
  intros. unfold starts_with. rewrite first_in; [done|]. pose proof (zlen_nonneg expected). lia.
Qed.

Lemma validate_routing_Ok state : validate_worker_routing_state state = Ok tt <->
  algorithm state = 1 /\ routing_seed state = 0 \/ algorithm state = 2.
Proof.
  unfold validate_worker_routing_state, RoutingAlgorithm_fnv1a64_v1, RoutingAlgorithm_siphash24_v1,
    kDefaultWorkerHashSeed.
  destruct (Z.eqb_spec (algorithm state) 1), (Z.eqb_spec (routing_seed state) 0),
    (Z.eqb_spec (algorithm state) 2); cbn; split; intros H; try done; lia.
Qed.

Lemma zlen_wire_identity : zlen kWireProtocolIdentity = 12.
Proof. done. Qed.
#[local] Hint Rewrite zlen_wire_identity : zlen.
#[local] Opaque kWireProtocolIdentity.

Definition routing_valid (state : WorkerRoutingState) : Prop :=
  validate_worker_routing_state state = Ok tt /\ is_u64 (routing_seed state).

Lemma decode_identity_value state : routing_valid state ->
  decode_init_identity_value (identity_value state) = Ok state.
Proof.
  intros [Hv Hs]. pose proof Hv as Hv'. rewrite validate_routing_Ok in Hv.
  unfold decode_init_identity_value, identity_value, kWireInitIdentityExtendedBytes. rewrite zlen_wire_identity.
  change (12 + 1 + 4 + 8) with 25. change (12 + 1 + 4) with 17. change (12 + 1) with 13.
  destruct Hv as [[Ha Hz]|Ha].
  - assert (keyed state = false) as -> by (unfold keyed; by rewrite Ha).
    rewrite starts_with_in, zlen_wire_identity, ztake_all, bool_decide_eq_true_2 by (done || zl).
    destruct state. cbn in *. by subst.
  - assert (keyed state = true) as Hk by (unfold keyed; by rewrite Ha). rewrite Hk.
    set (bs := kWireProtocolIdentity ++ _). assert (zlen bs = 25) as Hl by (unfold bs; zl).
    rewrite Hl. cbn [Z.eqb Pos.eqb bindR negb].
    rewrite starts_with_in by (rewrite zlen_wire_identity; lia).
    assert (get_byte bs 12 = Ok 0) as -> by done. reads.
    assert (le_value (slice 13 4 bs) = algorithm state) as ->
      by (unfold bs; locate_field; apply le_value_field; [lia|]; rewrite Ha; width; lia).
    assert (le_value (slice 17 8 bs) = routing_seed state) as ->
      by (unfold bs; locate_field; by apply le_value_field).
    rewrite bool_decide_eq_true_2 by (unfold bs; by rewrite ztake_app_le, ztake_all by zl).
    checks. replace (mkRouting _ _) with state by (by destruct state). rewrite Hv'. checks. by rewrite Hk.
Qed.

Lemma decode_identity_canonical value state : bytes_ok value ->
  decode_init_identity_value value = Ok state -> routing_valid state /\ value = identity_value state.
Proof.
  intros Hb. unfold decode_init_identity_value, identity_value, kWireInitIdentityExtendedBytes.
  rewrite zlen_wire_identity.
  change (12 + 1 + 4 + 8) with 25. change (12 + 1 + 4) with 17. change (12 + 1) with 13.
  intros Hd. apply bindR_Ok in Hd as (plain & Hp & Hd). destruct plain.
  { injection Hd as <-. split; [split; [done|split; vm_compute; done]|].
    destruct (Z.eqb_spec (zlen value) 12); [|done].
    rewrite starts_with_in, zlen_wire_identity, ztake_all in Hp by (rewrite ?zlen_wire_identity; lia).
    injection Hp as Hp. by apply bool_decide_eq_true in Hp. }
  clear Hp. destruct (Z.eqb_spec (zlen value) 25) as [E25|]; [|done]. cbn [negb] in Hd.
  rewrite starts_with_in in Hd by (rewrite zlen_wire_identity; lia). rewrite zlen_wire_identity in Hd.
  destruct (get_byte_lt value 12) as (b & Hgb & Hlk); [lia|].
  rewrite Hgb, get_u32_in, get_u64_in in Hd by lia. cbn [bindR] in Hd. rewrite neR_Ok, orR_Ok in Hd.
  cbn [bindR] in Hd. destruct (_ || _) eqn:E in Hd; [done|]. b2p. subst b.
  set (st := mkRouting (le_value (slice 13 4 value)) (le_value (slice 17 8 value))) in *.
  destruct (validate_worker_routing_state st) as [[]| |] eqn:Ev; [|done..]. cbn [bindR] in Hd.
  destruct (keyed st) eqn:Ek; [|done]. injection Hd as <-. rewrite Ek. split.
  { split; [done|]. apply (is_uint_slice value 17 8); (done || lia). }
  unfold st. cbn [algorithm routing_seed]. rewrite <- !slice_le_bytes by (done || lia).
  rewrite <- (slice_whole 25 value) at 1 by lia.
  change 25 with (12 + 13) at 1. rewrite slice_split by lia. change (slice 0 12 value) with (ztake 12 value).
  rewrite H. f_equal. change (0 + 12) with 12. rewrite (slice_cons value 12 13 0) by (done || lia).
  cbn [app]. f_equal. change (12 + 1) with 13. change (13 - 1) with 12. by split_fields value.
Qed.

(** ** The process-wide routing state

    [set_worker_routing] and [get_worker_routing] share four atomics: the two
    halves of the state, a revision that is odd while an update is under way, and
    a flag that serialises the writers.  A machine holds the atomics and one
    program counter per call; a step is one atomic access of one call, in any
    order (all accesses of the state and the revision are sequentially
    consistent).  A call that waits or spins takes no step. *)

Inductive Pc :=
  (* set_worker_routing(state) *)
  | W_acquire (state : WorkerRoutingState)
  | W_load (state : WorkerRoutingState)
  | W_odd (state : WorkerRoutingState) (revision : Z)
  | W_algorithm (state : WorkerRoutingState) (revision : Z)
  | W_seed (state : WorkerRoutingState) (revision : Z)
  | W_even (state : WorkerRoutingState) (revision : Z)
  | W_release
  | W_done
  (* get_worker_routing() *)
  | R_before
  | R_algorithm (before : Z)
  | R_seed (before read_algorithm : Z)
  | R_check (before : Z) (state : WorkerRoutingState)
  | R_done (state : WorkerRoutingState)
  (* std::terminate() *)
  | Terminated.

Record Machine := mkMachine {
  g_worker_routing_algorithm : Z;
  g_worker_hash_seed : Z;
  g_worker_routing_revision : Z;
  g_worker_routing_writer : bool;
  calls : list Pc
}.

Definition goto (m : Machine) (i : nat) (pc : Pc) : Machine :=
  {| g_worker_routing_algorithm := g_worker_routing_algorithm m;
     g_worker_hash_seed := g_worker_hash_seed m;
     g_worker_routing_revision := g_worker_routing_revision m;
     g_worker_routing_writer := g_worker_routing_writer m;
     calls := <[i := pc]> (calls m) |}.
Definition store_revision (m : Machine) (r : Z) : Machine :=
  mkMachine (g_worker_routing_algorithm m) (g_worker_hash_seed m) r (g_worker_routing_writer m) (calls m).
Definition store_algorithm (m : Machine) (a : Z) : Machine :=
  mkMachine a (g_worker_hash_seed m) (g_worker_routing_revision m) (g_worker_routing_writer m) (calls m).
Definition store_seed (m : Machine) (s : Z) : Machine :=
  mkMachine (g_worker_routing_algorithm m) s (g_worker_routing_revision m) (g_worker_routing_writer m) (calls m).
Definition store_writer (m : Machine) (w : bool) : Machine :=
  mkMachine (g_worker_routing_algorithm m) (g_worker_hash_seed m) (g_worker_routing_revision m) w (calls m).

(** One access of the call at [pc]. *)
Definition access (m : Machine) (i : nat) (pc : Pc) : option Machine :=
  match pc with
  | W_acquire st =>
      if g_worker_routing_writer m then None else Some (goto (store_writer m true) i (W_load st))
  | W_load st =>
      let revision := g_worker_routing_revision m in
      if Z.odd revision || (revision >? umax 64 - 2) then Some (goto m i Terminated)
      else Some (goto m i (W_odd st revision))
  | W_odd st r => Some (goto (store_revision m (u64 (r + 1))) i (W_algorithm st r))
  | W_algorithm st r => Some (goto (store_algorithm m (algorithm st)) i (W_seed st r))
  | W_seed st r => Some (goto (store_seed m (routing_seed st)) i (W_even st r))
  | W_even st r => Some (goto (store_revision m (u64 (r + 2))) i W_release)
  | W_release => Some (goto (store_writer m false) i W_done)
  | R_before =>
      let before := g_worker_routing_revision m in
      if Z.odd before then None else Some (goto m i (R_algorithm before))
  | R_algorithm before => Some (goto m i (R_seed before (g_worker_routing_algorithm m)))
  | R_seed before a => Some (goto m i (R_check before (mkRouting a (g_worker_hash_seed m))))
  | R_check before st =>
      if g_worker_routing_revision m =? before then Some (goto m i (R_done st))
      else Some (goto m i R_before)
  | W_done | R_done _ | Terminated => None
  end.

Inductive step : Machine -> Machine -> Prop :=
  | step_access m i pc m' : calls m !! i = Some pc -> access m i pc = Some m' -> step m m'.

(** The machine before any call has run; [updates] lists the arguments of the
    pending [set_worker_routing] calls. *)
Definition start (st : WorkerRoutingState) (updates : list WorkerRoutingState) (readers : nat) : Machine :=
  mkMachine (algorithm st) (routing_seed st) 0 false ((W_acquire <$> updates) ++ replicate readers R_before).

(** The call at [pc] holds the writer flag. *)
Definition holds_flag (pc : Pc) : bool :=
  match pc with
  | W_load _ | W_odd _ _ | W_algorithm _ _ | W_seed _ _ | W_even _ _ | W_release => true
  | _ => false
  end.

Definition half (r : Z) : nat := Z.to_nat (r / 2).

(** What a call knows, relative to the states [hist] published so far: the state
    number [k] was current while the revision was [2 * k]. *)
Definition pc_ok (m : Machine) (allowed hist : list WorkerRoutingState) (pc : Pc) : Prop :=
  let r := g_worker_routing_revision m in
  let updating st r0 := st ∈ allowed /\ 0 <= r0 <= umax 64 - 2 /\ Z.even r0 = true in
  match pc with
  | W_acquire st | W_load st => st ∈ allowed
  | W_odd st r0 => updating st r0 /\ r = r0
  | W_algorithm st r0 => updating st r0 /\ r = r0 + 1
  | W_seed st r0 => updating st r0 /\ r = r0 + 1 /\ g_worker_routing_algorithm m = algorithm st
  | W_even st r0 => updating st r0 /\ r = r0 + 1 /\
                    mkRouting (g_worker_routing_algorithm m) (g_worker_hash_seed m) = st
  | R_algorithm b => Z.even b = true /\ b <= r
  | R_seed b a => Z.even b = true /\ b <= r /\
                  (b = r -> exists st, hist !! half b = Some st /\ algorithm st = a)
  | R_check b st => Z.even b = true /\ b <= r /\ (b = r -> hist !! half b = Some st)
  | R_done st => st ∈ hist
  | W_release | W_done | R_before | Terminated => True
  end.

Record machine_ok (allowed : list WorkerRoutingState) (m : Machine) (hist : list WorkerRoutingState) : Prop := {
  mo_allowed : Forall (fun st => st ∈ allowed) hist;
  mo_length : Z.of_nat (length hist) = g_worker_routing_revision m / 2 + 1;
  mo_revision : 0 <= g_worker_routing_revision m <= umax 64;
  mo_calls : Forall (pc_ok m allowed hist) (calls m);
  (** at most one call holds the flag, and none while it is down *)
  mo_flag : forall i j pi pj, calls m !! i = Some pi -> calls m !! j = Some pj ->
    holds_flag pi = true -> holds_flag pj = true -> i = j;
  mo_free : g_worker_routing_writer m = false ->
    forall i pc, calls m !! i = Some pc -> holds_flag pc = false;
  (** an even revision means a complete state *)
  mo_stable : Z.even (g_worker_routing_revision m) = true ->
    hist !! half (g_worker_routing_revision m) =
      Some (mkRouting (g_worker_routing_algorithm m) (g_worker_hash_seed m))
}.

(** Updates do not disturb what a call without the flag knows. *)
Lemma pc_ok_other m m' allowed hist more pc :
  pc_ok m allowed hist pc -> holds_flag pc = false ->
  g_worker_routing_revision m <= g_worker_routing_revision m' ->
  (g_worker_routing_revision m = g_worker_routing_revision m' -> more = []) ->
  pc_ok m' allowed (hist ++ more) pc.
Proof.
  intros Hp Hh Hr Hm. destruct pc; cbn in *; try done.
  - destruct Hp as [? ?]. split; [done|lia].
  - destruct Hp as (? & ? & Hb). split_and!; [done|lia|]. intros Er.
    assert (g_worker_routing_revision m = g_worker_routing_revision m') as E by lia.
    rewrite (Hm E), app_nil_r. apply Hb. lia.
  - destruct Hp as (? & ? & Hb). split_and!; [done|lia|]. intros Er.
    assert (g_worker_routing_revision m = g_worker_routing_revision m') as E by lia.
    rewrite (Hm E), app_nil_r. apply Hb. lia.
  - apply elem_of_app. by left.
Qed.

Lemma pc_ok_same m m' allowed hist pc :
  pc_ok m allowed hist pc ->
  g_worker_routing_revision m' = g_worker_routing_revision m ->
  g_worker_routing_algorithm m' = g_worker_routing_algorithm m ->
  g_worker_hash_seed m' = g_worker_hash_seed m -> pc_ok m' allowed hist pc.
Proof. intros Hp Hr Ha Hs. destruct pc; cbn in *; by rewrite ?Hr, ?Ha, ?Hs. Qed.

(** A step that leaves the revision and the state alone. *)
Lemma machine_ok_local allowed m hist i pc pc' m' :
  machine_ok allowed m hist -> calls m !! i = Some pc ->
  calls m' = <[i := pc']> (calls m) ->
  g_worker_routing_revision m' = g_worker_routing_revision m ->
  g_worker_routing_algorithm m' = g_worker_routing_algorithm m ->
  g_worker_hash_seed m' = g_worker_hash_seed m ->
  pc_ok m allowed hist pc' ->
  (holds_flag pc' = true -> holds_flag pc = true \/ g_worker_routing_writer m = false) ->
  (g_worker_routing_writer m' = false ->
     holds_flag pc' = false /\ (g_worker_routing_writer m = false \/ holds_flag pc = true)) ->
  machine_ok allowed m' hist.
Proof.
  intros [Hal Hlen Hrev Hcalls Hflag Hfree Hst] Hi Hc Hr Ha Hs Hp Hhold Hw.
  assert (Hlt : (i < length (calls m))%nat) by by eapply lookup_lt_Some.
  split; rewrite ?Hr, ?Ha, ?Hs; try done.
  - rewrite Hc. apply Forall_insert; [|by eapply pc_ok_same].
    eapply Forall_impl; [exact Hcalls|]. intros. by eapply pc_ok_same.
  - intros j k pj pk. rewrite Hc. intros Hj Hk Hfj Hfk.
    apply list_lookup_insert_Some in Hj as [(<- & <- & _)|[Hne Hj]];
      apply list_lookup_insert_Some in Hk as [(<- & <- & _)|[Hne' Hk]]; try done; eauto.
    + destruct (Hhold Hfj) as [Hh|Hh]; [by eapply Hflag|]. by rewrite (Hfree Hh _ _ Hk) in Hfk.
    + destruct (Hhold Hfk) as [Hh|Hh]; [by eapply Hflag|]. by rewrite (Hfree Hh _ _ Hj) in Hfj.
  - intros Hw'. destruct (Hw Hw') as [Hn Hor]. intros j pj. rewrite Hc. intros Hj.
    apply list_lookup_insert_Some in Hj as [(<- & <- & _)|[Hne Hj]]; [done|].
    destruct Hor as [Hor|Hor]; [by eapply Hfree|]. destruct (holds_flag pj) eqn:E; [|done].
    exfalso. apply Hne. by eapply Hflag.
Qed.

(** A step of the flag holder that writes the revision or the state. *)
Lemma machine_ok_update allowed m hist more i pc pc' m' :
  machine_ok allowed m hist -> calls m !! i = Some pc -> holds_flag pc = true ->
  calls m' = <[i := pc']> (calls m) -> holds_flag pc' = true ->
  g_worker_routing_writer m' = g_worker_routing_writer m ->
  g_worker_routing_revision m <= g_worker_routing_revision m' <= umax 64 ->
  (g_worker_routing_revision m = g_worker_routing_revision m' -> more = []) ->
  pc_ok m' allowed (hist ++ more) pc' -> Forall (fun st => st ∈ allowed) more ->
  Z.of_nat (length (hist ++ more)) = g_worker_routing_revision m' / 2 + 1 ->
  (Z.even (g_worker_routing_revision m') = true ->
   (hist ++ more) !! half (g_worker_routing_revision m') =
     Some (mkRouting (g_worker_routing_algorithm m') (g_worker_hash_seed m'))) ->
  machine_ok allowed m' (hist ++ more).
Proof.
  intros [Hal Hlen Hrev Hcalls Hflag Hfree Hst] Hi Hh Hc Hh' Hw Hr Hm Hp Hmore Hlen' Hst'.
  assert (Hothers : forall j pj, calls m !! j = Some pj -> j <> i -> holds_flag pj = false).
  { intros j pj Hj Hne. destruct (holds_flag pj) eqn:E; [|done]. exfalso. apply Hne. by eapply Hflag. }
  split; try done.
  - by apply Forall_app.
  - lia.
  - apply Forall_lookup. intros j pj. rewrite Hc. intros Hj.
    apply list_lookup_insert_Some in Hj as [(<- & <- & _)|[Hne Hj]]; [done|].
    apply (pc_ok_other m); [|by eapply Hothers|lia|done]. by eapply Forall_lookup_1 in Hcalls.
  - intros j k pj pk. rewrite Hc. intros Hj Hk Hfj Hfk.
    apply list_lookup_insert_Some in Hj as [(<- & <- & _)|[Hne Hj]];
      apply list_lookup_insert_Some in Hk as [(<- & <- & _)|[Hne' Hk]]; try done.
    + by rewrite (Hothers _ _ Hk) in Hfk.
    + by rewrite (Hothers _ _ Hj) in Hfj.
    + by eapply Hflag.
  - rewrite Hw. intros Hwf. by rewrite (Hfree Hwf _ _ Hi) in Hh.
Qed.

Lemma even_half r : Z.even r = true -> 0 <= r -> r = 2 * (r / 2).
Proof. intros He Hr. pose proof (Z.div_mod r 2). rewrite Zmod_even, He in *. lia. Qed.

Lemma access_ok allowed m hist i pc m' :
  machine_ok allowed m hist -> calls m !! i = Some pc -> access m i pc = Some m' ->
  exists more, machine_ok allowed m' (hist ++ more).
Proof.
  intros Hok Hi Ha. pose proof Hok as [Hal Hlen Hrev Hcalls Hflag Hfree Hst].
  pose proof (Forall_lookup_1 _ _ _ _ Hcalls Hi) as Hp.
  assert (Hlocal : forall m2 pc', calls m2 = <[i := pc']> (calls m) ->
    g_worker_routing_revision m2 = g_worker_routing_revision m ->
    g_worker_routing_algorithm m2 = g_worker_routing_algorithm m ->
    g_worker_hash_seed m2 = g_worker_hash_seed m ->
    pc_ok m allowed hist pc' ->
    (holds_flag pc' = true -> holds_flag pc = true \/ g_worker_routing_writer m = false) ->
    (g_worker_routing_writer m2 = false ->
      holds_flag pc' = false /\ (g_worker_routing_writer m = false \/ holds_flag pc = true)) ->
    exists more, machine_ok allowed m2 (hist ++ more)).
  { intros. exists []. rewrite app_nil_r. by eapply machine_ok_local. }
  assert (Hbusy : holds_flag pc = true -> g_worker_routing_writer m = false -> False)
    by (intros Hh Hf; by rewrite (Hfree Hf _ _ Hi) in Hh).
  destruct pc as [st|st|st r|st r|st r|st r| | | |b|b a|b st|st|]; cbn in Ha, Hp, Hbusy; try done.
  - destruct (g_worker_routing_writer m) eqn:Ew; [done|]. injection Ha as <-.
    apply (Hlocal _ (W_load st)); cbn; auto.
  - destruct (_ || _) eqn:E; injection Ha as <-.
    + apply (Hlocal _ Terminated); cbn; auto.
    + b2p. rewrite Z.gtb_ltb in *. b2p. apply (Hlocal _ (W_odd st (g_worker_routing_revision m))); cbn; auto.
      * split_and!; try done; try lia. by rewrite <- Z.negb_odd, H.
      * intros Hf. exfalso. auto.
  - injection Ha as <-. destruct Hp as ((Hs & Hr & He) & Hr'). exists []. rewrite app_nil_r.
    rewrite <- (app_nil_r hist). eapply (machine_ok_update _ m _ [] i (W_odd st r) (W_algorithm st r)); try done;
      cbn; rewrite ?app_nil_r, wrap_small by (width; lia).
    all: try (width; lia); try done.
    + rewrite Hlen, Hr'. replace (r + 1) with (1 + r / 2 * 2).
      * by rewrite Z.div_add, Z.add_0_l by lia.
      * rewrite (even_half r) at 2 by (done || lia). lia.
    + rewrite Z.even_add, He. done.
  - injection Ha as <-. destruct Hp as ((Hs & Hr & He) & Hr'). exists [].
    eapply (machine_ok_update _ m _ [] i (W_algorithm st r) (W_seed st r)); try done; cbn; rewrite ?app_nil_r;
      try done; try lia. by rewrite Hr', Z.even_add, He.
  - injection Ha as <-. destruct Hp as ((Hs & Hr & He) & Hr' & Halg). exists [].
    eapply (machine_ok_update _ m _ [] i (W_seed st r) (W_even st r)); try done; cbn; rewrite ?app_nil_r;
      try done; try lia.
    + split_and!; try done; try lia. rewrite Halg. by destruct st.
    + by rewrite Hr', Z.even_add, He.
  - injection Ha as <-. destruct Hp as ((Hs & Hr & He) & Hr' & Hcur). exists [st].
    pose proof (even_half r He ltac:(lia)) as Hh.
    assert ((r + 2) / 2 = r / 2 + 1) as Hd by (rewrite <- (Z.div_add r 1 2) by lia; f_equal; lia).
    assert ((r + 1) / 2 = r / 2) as Hd'
      by (rewrite Hh at 1; rewrite Z.add_comm, Z.mul_comm, Z.div_add by lia; done).
    eapply (machine_ok_update _ m _ [st] i (W_even st r) W_release); try done; cbn;
      rewrite ?wrap_small by (width; lia); try (width; lia).
    + by apply Forall_singleton.
    + rewrite length_app, Nat2Z.inj_add, Hlen, Hr', Hd, Hd'. cbn. lia.
    + intros _. rewrite Hcur. unfold half. rewrite Hd.
      replace (Z.to_nat (r / 2 + 1)) with (length hist).
      * by rewrite lookup_app_r, Nat.sub_diag by lia.
      * apply Nat2Z.inj. rewrite Hlen, Hr', Hd', Z2Nat.id; [done|]. pose proof (Z.div_pos r 2). lia.
  - injection Ha as <-. apply (Hlocal _ W_done); cbn; auto.
  - destruct (Z.odd _) eqn:Eo; [done|]. injection Ha as <-.
    apply (Hlocal _ (R_algorithm (g_worker_routing_revision m))); cbn; auto; try done.
    by rewrite <- Z.negb_odd, Eo.
  - injection Ha as <-. destruct Hp as [He Hb].
    apply (Hlocal _ (R_seed b (g_worker_routing_algorithm m))); cbn; auto; try done.
    split_and!; try done. intros ->. eexists. split; [by apply Hst|done].
  - injection Ha as <-. destruct Hp as (He & Hb & Hx).
    apply (Hlocal _ (R_check b (mkRouting a (g_worker_hash_seed m)))); cbn; auto; try done.
    split_and!; try done. intros ->. destruct (Hx eq_refl) as (st & Hl & Hst').
    rewrite Hst in Hl |- * by done. injection Hl as <-. by cbn in Hst'; subst.
  - destruct (Z.eqb_spec (g_worker_routing_revision m) b) as [E|]; injection Ha as <-.
    + apply (Hlocal _ (R_done st)); cbn; auto; try done.
      destruct Hp as (_ & _ & Hx). eapply list_elem_of_lookup_2. by apply Hx.
    + apply (Hlocal _ R_before); cbn; auto; done.
Qed.

Lemma start_ok st updates readers : machine_ok (st :: updates) (start st updates readers) [st].
Proof.
  split; cbn.
  - apply Forall_singleton. left.
  - done.
  - width. lia.
  - apply Forall_app. split; [|by apply Forall_replicate].
    apply Forall_fmap, Forall_forall. intros u Hu. cbn. by right.
  - intros i j pi pj Hi _ Hf. exfalso.
    apply lookup_app_Some in Hi as [Hi|[_ Hi]].
    + rewrite list_lookup_fmap in Hi. by destruct (updates !! i); simplify_eq/=.
    + apply lookup_replicate in Hi as [-> _]. done.
  - intros _ i pc Hi. apply lookup_app_Some in Hi as [Hi|[_ Hi]].
    + rewrite list_lookup_fmap in Hi. by destruct (updates !! i); simplify_eq/=.
    + by apply lookup_replicate in Hi as [-> _].
  - intros _. by destruct st.
Qed.

Lemma reachable_ok allowed m m' : rtc step m m' -> forall hist, machine_ok allowed m hist ->
  exists hist', machine_ok allowed m' hist'.
Proof.
  induction 1 as [m|m m1 m' Hs Hr IH]; intros hist Hok; [by exists hist|].
  destruct Hs as [m i pc m1 Hi Ha]. destruct (access_ok _ _ _ _ _ _ Hok Hi Ha) as [more Hok']. by eapply IH.
Qed.

(** ** Properties *)

(** C32. [siphash24] is SipHash-2-4: for every key it stays inside the key's bytes,
    terminates, and returns the 64-bit hash that the definition of the algorithm's
    authors ([SipHash.hash], with its own rounds, constants and padding) gives. *)
Theorem siphash24_correct key k0 k1 :
  bytes_ok key -> is_u64 k0 -> is_u64 k1 ->
  siphash24 key k0 k1 = Ok (SipHash.hash 2 4 k0 k1 key) /\ is_u64 (SipHash.hash 2 4 k0 k1 key).
Proof.
  intros Hk H0 H1. rewrite <- siphash_words_paper by done. split; [by apply siphash24_words|by apply siphash_words_range].
Qed.

(** The INIT identity value carries the routing state exactly: decoding gives a
    state if and only if the bytes are the encoding of that state and the state
    is valid. *)
Theorem init_identity_exact value state :
  bytes_ok value ->
  decode_init_identity_value value = Ok state <->
  routing_valid state /\ encode_init_identity_value state = Ok value.
Proof.
  intros Hb. rewrite encode_init_identity_value_eq. split.
  - intros [Hv ->]%decode_identity_canonical; done.
  - intros [Hv [= <-]]. by apply decode_identity_value.
Qed.

(** C31. A snapshot of the routing state is never torn: whatever the interleaving of
    any number of updates and reads, a state returned by [get_worker_routing] is
    the initial one or the argument of one [set_worker_routing] call, never the
    algorithm of one with the seed of another. *)
Theorem routing_snapshot_consistent st updates readers m i s :
  rtc step (start st updates readers) m -> calls m !! i = Some (R_done s) -> s ∈ st :: updates.
Proof.
  intros Hr Hi. destruct (reachable_ok _ _ _ Hr _ (start_ok st updates readers)) as [hist Hok].
  pose proof (Forall_lookup_1 _ _ _ _ (mo_calls _ _ _ Hok) Hi) as Hin. cbn in Hin.
  pose proof (mo_allowed _ _ _ Hok) as Hal. rewrite Forall_forall in Hal. by apply Hal.
Qed.

(** ** Witnesses *)

(** The test vector of appendix A of the paper. *)
Definition vector_key : list Z := Z.of_nat <$> seq 0 15.
Lemma vector_key_ok : bytes_ok vector_key.
Proof. bytes_eval. Qed.

Lemma siphash24_correct_witness :
  SipHash.hash 2 4 0x0706050403020100 0x0f0e0d0c0b0a0908 vector_key = 0xa129ca6149be45e5 /\
  siphash24 vector_key 0x0706050403020100 0x0f0e0d0c0b0a0908 = Ok 0xa129ca6149be45e5.
Proof.
  assert (E : SipHash.hash 2 4 0x0706050403020100 0x0f0e0d0c0b0a0908 vector_key = 0xa129ca6149be45e5)
    by (vm_compute; reflexivity).
  split; [exact E|]. rewrite <- E.
  apply (siphash24_correct vector_key 0x0706050403020100 0x0f0e0d0c0b0a0908); [exact vector_key_ok|width; lia..].
Defined.

Lemma init_identity_exact_witness :
  decode_init_identity_value (identity_value (mkRouting 2 77)) = Ok (mkRouting 2 77) <->
  routing_valid (mkRouting 2 77) /\
  encode_init_identity_value (mkRouting 2 77) = Ok (identity_value (mkRouting 2 77)).
Proof.
  apply (init_identity_exact (identity_value (mkRouting 2 77)) (mkRouting 2 77)). bytes_eval.
Defined.

(** Run the accesses of the calls in the given order. *)
Fixpoint run_schedule (m : Machine) (schedule : list nat) : option Machine :=
  match schedule with
  | [] => Some m
  | i :: schedule =>
      match calls m !! i with
      | Some pc => match access m i pc with Some m' => run_schedule m' schedule | None => None end
      | None => None
      end
  end.

Lemma run_schedule_steps schedule m m' : run_schedule m schedule = Some m' -> rtc step m m'.
Proof.
  revert m. induction schedule as [|i schedule IH]; intros m; cbn; [intros [= <-]; constructor|].
  destruct (calls m !! i) as [pc|] eqn:Hi; [|done]. destruct (access m i pc) as [m1|] eqn:Ha; [|done].
  intros H. eapply rtc_l; [by econstructor|auto].
Qed.

Definition sample_schedule : list nat := [1; 1; 0; 0; 0; 0; 1; 0; 0; 1; 0; 1; 1; 1; 1]%nat.
Definition sample_machine : Machine := mkMachine 2 77 2 false [W_done; R_done (mkRouting 2 77)].

Lemma sample_run :
  run_schedule (start default_routing [mkRouting 2 77] 1) sample_schedule = Some sample_machine.
Proof. vm_compute. reflexivity. Qed.

Lemma routing_snapshot_consistent_witness : mkRouting 2 77 ∈ [default_routing; mkRouting 2 77].
Proof.
  apply (routing_snapshot_consistent default_routing [mkRouting 2 77] 1 sample_machine 1 (mkRouting 2 77)).
  - eapply run_schedule_steps, sample_run.
  - reflexivity.
Defined.
