(* ===== verification/Probing.v ===== *)
(** * Open addressing with tombstones

    The abstract table behind the index: an array of cells that are empty,
    deleted or full, probed cyclically from a key's home position.  Nothing here
    models code; SwissTable.v shows that the group probing of the source visits
    the cells in this order, and uses the theory to relate its tables to finite
    maps. *)

From S2P Require Import Prelude.

#[local] Open Scope nat_scope.

Section probing.
Context {K V : Type} {K_eq_dec : EqDecision K} {K_countable : Countable K}.

Inductive cell := Empty | Deleted | Full (k : K) (v : V).

(** What probing a list of positions for a key finds. *)
Inductive outcome := Found (i : nat) | Missing (i : nat) | Exhausted.

Implicit Types (cells : list cell) (m : gmap K V) (k : K) (v : V) (ps : list nat).

Definition holds cells (i : nat) k : bool :=
  match cells !! i with Some (Full k' _) => bool_decide (k' = k) | _ => false end.
Definition is_empty cells (i : nat) : bool :=
  match cells !! i with Some Empty => true | _ => false end.
Definition is_deleted cells (i : nat) : bool :=
  match cells !! i with Some Deleted => true | _ => false end.

(** Probe the positions in order; an empty cell ends the search. *)
Fixpoint search cells k ps : outcome :=
  match ps with
  | [] => Exhausted
  | i :: ps =>
      if is_empty cells i then Missing i
      else if holds cells i k then Found i
      else search cells k ps
  end.

(** The first deleted cell on the way is where an absent key goes. *)
Fixpoint search_insert cells k (first_deleted : option nat) ps : outcome :=
  match ps with
  | [] => Exhausted
  | i :: ps =>
      if is_empty cells i then Missing (default i first_deleted)
      else
        let first_deleted :=
          match first_deleted with
          | Some d => Some d
          | None => if is_deleted cells i then Some i else None
          end in
        if holds cells i k then Found i else search_insert cells k first_deleted ps
  end.

Definition probe (cap s j : nat) : nat := (s + j) mod cap.
Definition order (cap s : nat) : list nat := probe cap s <$> seq 0 cap.

Lemma search_app cells k l1 l2 : search cells k (l1 ++ l2) =
  match search cells k l1 with Exhausted => search cells k l2 | o => o end.
Proof.
  induction l1 as [|i l1 IH]; [done|]. cbn. by destruct (is_empty cells i), (holds cells i k).
Qed.

(** The deleted cell an insertion remembers after probing some positions. *)
Definition remember cells (first_deleted : option nat) ps : option nat :=
  match first_deleted with
  | Some d => Some d
  | None => list_find (fun i => is_deleted cells i = true) ps ≫= fun p => Some p.2
  end.

Lemma remember_cons cells fd i ps :
  remember cells fd (i :: ps) =
  remember cells (match fd with Some d => Some d | None => if is_deleted cells i then Some i else None end) ps.
Proof.
  unfold remember. destruct fd; [done|]. cbn.
  destruct (is_deleted cells i) eqn:E; [by rewrite decide_True|].
  rewrite decide_False by done. by destruct (list_find _ ps) as [[]|].
Qed.

Lemma search_insert_app cells k fd l1 l2 : search_insert cells k fd (l1 ++ l2) =
  match search_insert cells k fd l1 with
  | Exhausted => search_insert cells k (remember cells fd l1) l2
  | o => o
  end.
Proof.
  revert fd. induction l1 as [|i l1 IH]; intros fd; cbn [app search_insert].
  { unfold remember. by destruct fd. }
  rewrite remember_cons. destruct (is_empty cells i); [done|]. destruct (holds cells i k); [done|]. apply IH.
Qed.

(** ** Invariant *)

Context (cap : nat) (home : K -> nat).

(** Every cell on the way from the home of [k] to distance [d] is in use. *)
Definition path cells k (d : nat) : Prop :=
  forall e, e < d -> cells !! probe cap (home k) e <> Some Empty.

Record inv cells m : Prop := {
  inv_length : length cells = cap;
  inv_sound : forall i k v, cells !! i = Some (Full k v) -> m !! k = Some v;
  inv_complete : forall k v, m !! k = Some v -> exists i, cells !! i = Some (Full k v);
  inv_unique : forall i j k v w, cells !! i = Some (Full k v) -> cells !! j = Some (Full k w) -> i = j;
  inv_path : forall i k v, cells !! i = Some (Full k v) ->
    exists d, d < cap /\ i = probe cap (home k) d /\ path cells k d
}.

Lemma probe_lt s j : 0 < cap -> probe cap s j < cap.
Proof. intros. apply Nat.mod_upper_bound. lia. Qed.

(** Within one turn the probed positions are distinct. *)
Lemma probe_inj s d e : d < cap -> e < cap -> probe cap s d = probe cap s e -> d = e.
Proof.
  unfold probe. intros Hd He E.
  pose proof (Nat.div_mod (s + d) cap ltac:(lia)). pose proof (Nat.div_mod (s + e) cap ltac:(lia)).
  assert ((s + d) / cap = (s + e) / cap \/ (s + d) / cap <> (s + e) / cap) as [Eq|Ne] by lia; [nia|].
  exfalso. assert ((s + d) / cap < (s + e) / cap \/ (s + e) / cap < (s + d) / cap) as [?|?] by lia; nia.
Qed.

(** Every position is reached within one turn. *)
Lemma probe_surj s i : i < cap -> exists d, d < cap /\ probe cap s d = i.
Proof.
  intros Hi. exists ((i + cap - s mod cap) mod cap). pose proof (Nat.mod_upper_bound s cap ltac:(lia)).
  split; [apply Nat.mod_upper_bound; lia|]. unfold probe.
  rewrite Nat.Div0.add_mod_idemp_r.
  rewrite (Nat.div_mod s cap) at 1 by lia.
  replace (cap * (s / cap) + s mod cap + (i + cap - s mod cap)) with (i + (s / cap + 1) * cap) by nia.
  rewrite Nat.Div0.mod_add. by apply Nat.mod_small.
Qed.

Lemma order_lookup s d i : order cap s !! d = Some i <-> d < cap /\ i = probe cap s d.
Proof.
  unfold order. rewrite list_lookup_fmap. destruct (decide (d < cap)).
  - rewrite lookup_seq_lt by done. cbn. naive_solver.
  - rewrite lookup_seq_ge by lia. naive_solver.
Qed.

Lemma search_walk cells k ps :
  match search cells k ps with
  | Found i => exists d, ps !! d = Some i /\ holds cells i k = true /\
      forall e j, e < d -> ps !! e = Some j -> is_empty cells j = false /\ holds cells j k = false
  | Missing i => exists d, ps !! d = Some i /\ is_empty cells i = true /\
      forall e j, e < d -> ps !! e = Some j -> is_empty cells j = false /\ holds cells j k = false
  | Exhausted => forall e j, ps !! e = Some j -> is_empty cells j = false /\ holds cells j k = false
  end.
Proof.
  induction ps as [|i ps IH]; cbn; [done|].
  destruct (is_empty cells i) eqn:Ee; [exists 0; split_and!; [done..|intros; lia]|].
  destruct (holds cells i k) eqn:Eh; [exists 0; split_and!; [done..|intros; lia]|].
  destruct (search cells k ps) as [x|x|].
  1, 2: destruct IH as (d & Hd & Hx & Hall); exists (S d); split_and!; [done..|];
    intros [|e] j He Hj; cbn in Hj; [by simplify_eq|]; eapply Hall; [|exact Hj]; lia.
  intros [|e] j Hj; cbn in Hj; [by simplify_eq|]. by eapply IH.
Qed.

Lemma holds_true cells i k : holds cells i k = true <-> exists v, cells !! i = Some (Full k v).
Proof using Type. clear home.
  unfold holds. destruct (cells !! i) as [[| |k' v]|]; try naive_solver.
  rewrite bool_decide_eq_true. naive_solver.
Qed.
Lemma is_empty_true cells i : is_empty cells i = true <-> cells !! i = Some Empty.
Proof using Type. clear home. unfold is_empty. destruct (cells !! i) as [[| |]|]; naive_solver. Qed.
Lemma is_empty_false cells i : is_empty cells i = false <-> cells !! i <> Some Empty.
Proof using Type. clear home. unfold is_empty. destruct (cells !! i) as [[| |]|]; naive_solver. Qed.

(** Searching from the home of a key decides whether the map has it. *)
Lemma search_correct cells m k : 0 < cap -> inv cells m ->
  match search cells k (order cap (home k)) with
  | Found i => exists v, cells !! i = Some (Full k v) /\ m !! k = Some v
  | Missing _ | Exhausted => m !! k = None
  end.
Proof.
  intros Hcap Hinv. pose proof (search_walk cells k (order cap (home k))) as Hw.
  assert (Hmiss : forall D, (forall e j, e < D -> order cap (home k) !! e = Some j ->
      is_empty cells j = false /\ holds cells j k = false) ->
    (D < cap -> is_empty cells (probe cap (home k) D) = true) -> m !! k = None).
  { intros D Hall Hend. destruct (m !! k) as [v|] eqn:Hm; [|done]. exfalso.
    destruct (inv_complete _ _ Hinv k v Hm) as [i Hi].
    destruct (inv_path _ _ Hinv i k v Hi) as (d & Hd & -> & Hp).
    destruct (decide (d < D)).
    - destruct (Hall d (probe cap (home k) d)) as [_ Hh]; [done|by apply order_lookup|].
      assert (holds cells (probe cap (home k) d) k = true) by (apply holds_true; eauto). congruence.
    - destruct (decide (D = d)) as [->|].
      + specialize (Hend Hd). apply is_empty_true in Hend. congruence.
      + specialize (Hend ltac:(lia)). apply is_empty_true in Hend. apply (Hp D); [lia|done]. }
  destruct (search _ _ _) as [i|i|].
  - destruct Hw as (d & _ & [v Hv]%holds_true & _). exists v. split; [done|]. by eapply inv_sound.
  - destruct Hw as (d & Hd & He & Hall). apply order_lookup in Hd as [Hd ->]. by apply (Hmiss d).
  - apply (Hmiss cap); [|lia]. intros e j _. apply Hw.
Qed.

Lemma search_insert_found cells k fd ps i :
  search_insert cells k fd ps = Found i <-> search cells k ps = Found i.
Proof.
  revert fd. induction ps as [|j ps IH]; intros fd; cbn; [done|].
  destruct (is_empty cells j); [done|]. by destruct (holds cells j k).
Qed.
Lemma search_insert_exhausted cells k fd ps :
  search_insert cells k fd ps = Exhausted <-> search cells k ps = Exhausted.
Proof.
  revert fd. induction ps as [|j ps IH]; intros fd; cbn; [done|].
  destruct (is_empty cells j); [done|]. by destruct (holds cells j k).
Qed.

(** The cell chosen for an absent key is free, and reached over cells in use. *)
Lemma search_insert_missing cells k ps i :
  search_insert cells k None ps = Missing i ->
  (exists i', search cells k ps = Missing i') /\
  exists d, ps !! d = Some i /\ (cells !! i = Some Empty \/ cells !! i = Some Deleted) /\
    forall e j, e < d -> ps !! e = Some j -> cells !! j <> Some Empty.
Proof using Type. clear home.
  intros H. split.
  { revert H. generalize (@None nat). induction ps as [|j ps IH]; intros fd; cbn; [done|].
    destruct (is_empty cells j); [eauto|]. destruct (holds cells j k); [done|]. apply IH. }
  revert H.
  assert (Hgen : forall fd pre, search_insert cells k fd ps = Missing i ->
    (forall j, j ∈ pre -> cells !! j <> Some Empty) ->
    match fd with
    | Some d => exists n, pre !! n = Some d /\ cells !! d = Some Deleted
    | None => True
    end ->
    exists d, (pre ++ ps) !! d = Some i /\ (cells !! i = Some Empty \/ cells !! i = Some Deleted) /\
      forall e j, e < d -> (pre ++ ps) !! e = Some j -> cells !! j <> Some Empty).
  2:{ intros H. apply (Hgen None []); [done|intros j Hj; by apply not_elem_of_nil in Hj|done]. }
  induction ps as [|j ps IH]; intros fd pre; cbn [search_insert]; [done|].
  destruct (is_empty cells j) eqn:Ee.
  - apply is_empty_true in Ee. intros [= <-] Hpre Hfd. destruct fd as [d|]; cbn.
    + destruct Hfd as (n & Hn & Hd). exists n. split_and!; [by apply lookup_app_l_Some|by right|].
      intros e j' He Hj'. apply lookup_lt_Some in Hn as Hlt. rewrite lookup_app_l in Hj' by lia.
      apply Hpre. by eapply list_elem_of_lookup_2.
    + exists (length pre). split_and!; [by rewrite lookup_app_r, Nat.sub_diag by lia|by left|].
      intros e j' He Hj'. rewrite lookup_app_l in Hj' by lia. apply Hpre. by eapply list_elem_of_lookup_2.
  - apply is_empty_false in Ee. destruct (holds cells j k); [done|]. intros H Hpre Hfd.
    replace (pre ++ j :: ps) with ((pre ++ [j]) ++ ps) by by rewrite <- app_assoc.
    eapply IH; [exact H| |].
    + intros j' [Hj'| ->%list_elem_of_singleton]%elem_of_app; [by apply Hpre|done].
    + destruct fd as [d|].
      * destruct Hfd as (n & Hn & Hd). exists n. split; [by apply lookup_app_l_Some|done].
      * unfold is_deleted. destruct (cells !! j) as [[| |]|] eqn:Ej; try done.
        exists (length pre). split; [by rewrite lookup_app_r, Nat.sub_diag by lia|done].
Qed.

(** Reassigning the value of a present key. *)
Lemma inv_assign cells m i k v w : inv cells m -> cells !! i = Some (Full k w) ->
  inv (<[i := Full k v]> cells) (<[k := v]> m).
Proof.
  intros [Hl Hs Hc Hu Hp] Hi. apply lookup_lt_Some in Hi as Hlt. split.
  - by rewrite length_insert.
  - intros j k' v' [(-> & [= -> ->] & _)|[Hne Hj]]%list_lookup_insert_Some; [by rewrite lookup_insert_eq|].
    rewrite lookup_insert_ne; [by eapply Hs|]. intros ->. apply Hne. by eapply Hu.
  - intros k' v' [[-> ->]|[Hne Hk]]%lookup_insert_Some.
    + exists i. by rewrite list_lookup_insert_eq.
    + destruct (Hc _ _ Hk) as [j Hj]. exists j. rewrite list_lookup_insert_ne; [done|].
      intros ->. simplify_eq.
  - intros j1 j2 k' v1 v2 H1 H2. 
    apply list_lookup_insert_Some in H1 as [(-> & E1 & _)|[Hn1 H1]];
      apply list_lookup_insert_Some in H2 as [(-> & E2 & _)|[Hn2 H2]]; simplify_eq; try done;
      by eapply Hu.
  - intros j k' v' Hj.
    assert (exists v0, cells !! j = Some (Full k' v0)) as [v0 Hj0].
    { apply list_lookup_insert_Some in Hj as [(-> & [= -> ->] & _)|[_ Hj]]; eauto. }
    destruct (Hp _ _ _ Hj0) as (d & Hd & -> & Hpath). exists d. split_and!; [done..|].
    intros e He Hc'. apply list_lookup_insert_Some in Hc' as [(_ & ? & _)|[_ Hc']]; [done|].
    by apply (Hpath e).
Qed.

(** Filling a free cell that lies on the path of an absent key. *)
Lemma inv_insert cells m i k v d : inv cells m -> m !! k = None ->
  d < cap -> i = probe cap (home k) d -> path cells k d ->
  (cells !! i = Some Empty \/ cells !! i = Some Deleted) ->
  inv (<[i := Full k v]> cells) (<[k := v]> m).
Proof.
  intros [Hl Hs Hc Hu Hp] Hm Hd Hi Hpath Hfree.
  assert (Hlt : i < length cells) by (destruct Hfree as [Hf|Hf]; by eapply lookup_lt_Some).
  assert (Hnot : forall j w, cells !! j <> Some (Full k w))
    by (intros j w Hj; apply Hs in Hj; congruence).
  split.
  - by rewrite length_insert.
  - intros j k' v' [(-> & [= -> ->] & _)|[Hne Hj]]%list_lookup_insert_Some; [by rewrite lookup_insert_eq|].
    rewrite lookup_insert_ne; [by eapply Hs|]. intros ->. by eapply Hnot.
  - intros k' v' [[-> ->]|[Hne Hk]]%lookup_insert_Some.
    + exists i. by rewrite list_lookup_insert_eq.
    + destruct (Hc _ _ Hk) as [j Hj]. exists j. rewrite list_lookup_insert_ne; [done|].
      intros ->. destruct Hfree; congruence.
  - intros j1 j2 k' v1 v2 H1 H2.
    apply list_lookup_insert_Some in H1 as [(-> & E1 & _)|[Hn1 H1]];
      apply list_lookup_insert_Some in H2 as [(-> & E2 & _)|[Hn2 H2]]; simplify_eq; try done;
      [by eapply Hnot in H2|by eapply Hnot in H1|by eapply Hu].
  - assert (Hmono : forall k' d', path cells k' d' -> path (<[i := Full k v]> cells) k' d').
    { intros k' d' Hp' e He Hc'. apply list_lookup_insert_Some in Hc' as [(_ & ? & _)|[_ Hc']]; [done|].
      by apply (Hp' e). }
    intros j k' v' [(-> & [= -> ->] & _)|[Hne Hj]]%list_lookup_insert_Some; [by eauto|].
    destruct (Hp _ _ _ Hj) as (d' & ? & ? & ?). eauto 6.
Qed.

(** Leaving a tombstone. *)
Lemma inv_delete cells m i k v : inv cells m -> cells !! i = Some (Full k v) ->
  inv (<[i := Deleted]> cells) (delete k m).
Proof.
  intros [Hl Hs Hc Hu Hp] Hi. apply lookup_lt_Some in Hi as Hlt. split.
  - by rewrite length_insert.
  - intros j k' v' [(_ & ? & _)|[Hne Hj]]%list_lookup_insert_Some; [done|].
    rewrite lookup_delete_ne; [by eapply Hs|]. intros ->. apply Hne. by eapply Hu.
  - intros k' v' [Hne Hk]%lookup_delete_Some. destruct (Hc _ _ Hk) as [j Hj]. exists j.
    rewrite list_lookup_insert_ne; [done|]. intros ->. congruence.
  - intros j1 j2 k' v1 v2 [(_ & ? & _)|[_ H1]]%list_lookup_insert_Some
      [(_ & ? & _)|[_ H2]]%list_lookup_insert_Some; try done. by eapply Hu.
  - intros j k' v' [(_ & ? & _)|[Hne Hj]]%list_lookup_insert_Some; [done|].
    destruct (Hp _ _ _ Hj) as (d & Hd & -> & Hpath). exists d. split_and!; [done..|].
    intros e He Hc'. apply list_lookup_insert_Some in Hc' as [(_ & ? & _)|[_ Hc']]; [done|].
    by apply (Hpath e).
Qed.

Lemma inv_empty : inv (replicate cap Empty) ∅.
Proof.
  split.
  - apply length_replicate.
  - by intros i k v [? _]%lookup_replicate.
  - by intros k v ?%lookup_empty_Some.
  - by intros i j k v w [? _]%lookup_replicate.
  - by intros i k v [? _]%lookup_replicate.
Qed.

(** ** Counting *)

Definition emptyb (c : cell) : bool := match c with Empty => true | _ => false end.
Definition deletedb (c : cell) : bool := match c with Deleted => true | _ => false end.
Definition fullb (c : cell) : bool := match c with Full _ _ => true | _ => false end.

Fixpoint count (p : cell -> bool) cells : nat :=
  match cells with
  | [] => 0
  | c :: cells => Nat.b2n (p c) + count p cells
  end.

Lemma count_insert p cells i c c' : cells !! i = Some c ->
  count p (<[i := c']> cells) + Nat.b2n (p c) = count p cells + Nat.b2n (p c').
Proof.
  revert i. induction cells as [|x cells IH]; intros [|i] Hi; cbn in Hi; [done..| |].
  - injection Hi as ->. cbn. lia.
  - change (<[S i := c']> (x :: cells)) with (x :: <[i := c']> cells). cbn [count].
    specialize (IH i Hi). lia.
Qed.

Lemma count_total cells : count emptyb cells + count deletedb cells + count fullb cells = length cells.
Proof. induction cells as [|[| |] cells IH]; cbn; lia. Qed.

Lemma count_replicate p n c : count p (replicate n c) = n * Nat.b2n (p c).
Proof. induction n; cbn; lia. Qed.

(** With a free cell left, probing for an insertion ends at a cell. *)
Lemma search_insert_total cells k fd : length cells = cap -> 0 < count emptyb cells ->
  search_insert cells k fd (order cap (home k)) <> Exhausted.
Proof.
  intros Hl Hc E%search_insert_exhausted. pose proof (search_walk cells k (order cap (home k))) as Hw.
  rewrite E in Hw.
  assert (exists i, cells !! i = Some Empty) as [i Hi].
  { clear -Hc. induction cells as [|[| |] cells IH]; cbn in Hc; [lia|by exists 0|..].
    all: destruct IH as [i Hi]; [lia|by exists (S i)]. }
  apply lookup_lt_Some in Hi as Hlt. destruct (probe_surj (home k) i) as (d & Hd & Hp); [lia|].
  destruct (Hw d i) as [He _]; [by apply order_lookup|].
  apply is_empty_true in Hi. congruence.
Qed.
End probing.
