(* ===== verification/SwissTable.v ===== *)
(** * The index table

    Models src/index/key_arena.cpp, src/index/swiss_table.cpp,
    include/glifistore/index/swiss_control_group.hpp and the headers of both: the
    open-addressing table that maps keys to record references.  Groups of eight
    control bytes are probed from a seeded home group; deleted slots leave
    tombstones, which a rebuild removes.  Keys of up to 24 bytes live in the slot,
    longer ones in a bump arena.

    The definitions are those of the source, control words and masks included
    ([equal_byte_mask] is the portable version; the SIMD versions compute the same
    mask).  [maximum_probe_groups_], a statistic that no operation reads, is left
    out.  Theorems relating a table to the finite map it stands for are in
    SwissTableSpec.v. *)

From S2P Require Import Prelude Core Routing.

(** ** index/key_arena.cpp *)

Record KeyArena := mkArena { arena_storage : list Z; arena_bump : Z }.
Definition new_arena : KeyArena := mkArena [] 0.

(** [storage_.resize(n)] to a larger size adds zero bytes. *)
Definition arena_allocate (size : Z) : Method KeyArena Z := fun a =>
  if size =? 0 then (Ok 0, a)
  else if size >? umax 32 then (Err record_too_large, a)
  else match checked_add 64 (arena_bump a) size with
       | Ok needed =>
           if needed >? umax 32 then (Err arithmetic_overflow, a)
           else
             let storage := if needed >? zlen (arena_storage a)
                            then arena_storage a ++ zeros (needed - zlen (arena_storage a))
                            else arena_storage a in
             (Ok (u32 (arena_bump a)), mkArena storage needed)
       | Err e => (Err e, a)
       | Stuck f => (Stuck f, a)
       end.

(** An out-of-range request gives an empty span. *)
Definition arena_data (a : KeyArena) (offset size : Z) : list Z :=
  if size =? 0 then []
  else match checked_add 64 offset size with
       | Ok end_ => if end_ >? zlen (arena_storage a) then [] else slice offset size (arena_storage a)
       | _ => []
       end.

Definition arena_reserve (bytes : Z) : Status :=
  if bytes >? umax 32 then Err arithmetic_overflow else Ok tt.

Definition arena_prepare_allocate (a : KeyArena) (size : Z) : Status :=
  let? needed := checked_add 64 (arena_bump a) size in arena_reserve needed.

(** ** index/swiss_table.hpp *)

Definition kSwissGroupSize : Z := 8.
Definition kSwissEmpty : Z := 0x80.
Definition kSwissDeleted : Z := 0xFE.
Definition kSwissInlineKeyBytes : Z := 24.
Definition kSwissMixConstant : Z := 0x9E3779B97F4A7C15.
Definition kHeapArenaCompactDeadThreshold : Z := 65536.
Definition kSwissMinimumDeletedRebuild : Z := kSwissGroupSize.
Definition kInlineKeyMask : Z := 2 ^ 31.

Record HashedKey := mkHashedKey { hk_key : list Z; hk_hash : Z }.
Record IndexMutationResult := mkMutation { inserted : bool; previous : option RecordRef }.

(** The union [KeyStorage] with the member that was last written. *)
Inductive KeyStorage := inline_key (bytes : list Z) | heap_key_offset (offset : Z).

Record Slot := mkSlot {
  slot_ref : RecordRef;
  slot_storage : KeyStorage;
  key_hash_tag : Z;
  key_size_and_mode : Z
}.

(** [Slot{}] *)
Definition new_slot : Slot := mkSlot (mkRecordRef 0 0 0 0 0) (inline_key (zeros kSwissInlineKeyBytes)) 0 0.

Definition key_size (slot : Slot) : Z := Z.land (key_size_and_mode slot) (u32 (Z.lnot kInlineKeyMask)).
Definition key_is_inline (slot : Slot) : bool := negb (Z.land (key_size_and_mode slot) kInlineKeyMask =? 0).
Definition key_metadata (size : Z) (is_inline : bool) : Z :=
  Z.lor size (if is_inline then kInlineKeyMask else 0).

(** Reading a member of the union that is not the active one is undefined. *)
Definition read_inline_key (slot : Slot) : Result (list Z) :=
  match slot_storage slot with inline_key b => Ok b | heap_key_offset _ => Stuck out_of_bounds end.
Definition read_heap_offset (slot : Slot) : Result Z :=
  match slot_storage slot with heap_key_offset o => Ok o | inline_key _ => Stuck out_of_bounds end.

Record SwissTableIndex := mkTable {
  t_routing : WorkerRoutingState;
  t_seed : Z;
  t_size : Z;
  t_deleted_count : Z;
  t_capacity : Z;
  t_heap_live_bytes : Z;
  t_heap_dead_bytes : Z;
  t_control : list Z;
  t_slots : list Slot;
  t_heap_keys : KeyArena;
  t_rehash_count : Z;
  t_tombstone_rebuild_count : Z
}.

(** An empty table of a given capacity. *)
Definition empty_table (routing : WorkerRoutingState) (seed capacity : Z) : SwissTableIndex :=
  {| t_routing := routing; t_seed := seed; t_size := 0; t_deleted_count := 0; t_capacity := capacity;
     t_heap_live_bytes := 0; t_heap_dead_bytes := 0;
     t_control := replicate (Z.to_nat capacity) kSwissEmpty;
     t_slots := replicate (Z.to_nat capacity) new_slot;
     t_heap_keys := new_arena; t_rehash_count := 0; t_tombstone_rebuild_count := 0 |}.

(** [SwissTableIndex::SwissTableIndex(routing, seed)] *)
Definition new_table (routing : WorkerRoutingState) (seed : Z) : SwissTableIndex :=
  empty_table routing seed kSwissGroupSize.

Definition clone_empty (t : SwissTableIndex) : SwissTableIndex := new_table (t_routing t) (t_seed t).

(** ** index/swiss_control_group.hpp *)

(** Eight control bytes as a word; the targets are little-endian. *)
Definition load_control_group64 (control : list Z) (at_ : Z) : Result Z :=
  let? group := subspan control at_ kSwissGroupSize in Ok (le_value group).

Definition control_byte_at (control offset : Z) : Z := Z.land (Z.shiftr control (offset * 8)) 255.

Fixpoint equal_byte_mask_loop (n : nat) (word byte index mask : Z) : Z :=
  match n with
  | O => mask
  | S n =>
      let mask := if control_byte_at word index =? byte then Z.lor mask (Z.shiftl 1 index) else mask in
      equal_byte_mask_loop n word byte (index + 1) mask
  end.

Definition equal_byte_mask (control : list Z) (at_ byte : Z) : Result Z :=
  let? word := load_control_group64 control at_ in
  Ok (equal_byte_mask_loop (Z.to_nat kSwissGroupSize) word byte 0 0).

(** ** index/swiss_table.cpp *)

(** [while (capacity < minimum_slots)]: 64 doublings pass the width of the type. *)
Fixpoint normalize_loop (fuel : nat) (capacity minimum_slots : Z) : Result Z :=
  if negb (capacity <? minimum_slots) then Ok capacity
  else match fuel with
       | O => Stuck out_of_fuel
       | S fuel =>
           if capacity >? size_max / 2 then Err arithmetic_overflow
           else normalize_loop fuel (u64 (Z.shiftl capacity 1)) minimum_slots
       end.

Definition normalize_capacity (minimum_slots : Z) : Result Z :=
  normalize_loop 64 kSwissGroupSize minimum_slots.

Definition mix_hash (seed key_hash : Z) : Z :=
  let hash := Z.lxor key_hash seed in
  let hash := u64 (hash * kSwissMixConstant) in
  let hash := Z.lxor hash (Z.shiftr hash 33) in
  let hash := u64 (hash * kSwissMixConstant) in
  Z.lxor hash (Z.shiftr hash 29).

Definition h2 (hash : Z) : Z :=
  let fingerprint := Z.land hash 0x7F in if fingerprint =? 0 then 1 else fingerprint.

Definition probe_start (capacity hash : Z) : Z :=
  let group_index := Z.land (Z.shiftr hash 7) (u64 (capacity / kSwissGroupSize - 1)) in
  u64 (group_index * kSwissGroupSize).

Definition next_group (group_start capacity : Z) : Z :=
  let next := u64 (group_start + kSwissGroupSize) in
  if next >=? capacity then u64 (next - capacity) else next.

Definition effective_occupancy (t : SwissTableIndex) : Z := u64 (t_size t + t_deleted_count t).
Definition maximum_occupancy (t : SwissTableIndex) : Z := u64 (t_capacity t - t_capacity t / 8).
Definition tombstone_rebuild_beneficial (t : SwissTableIndex) : bool :=
  let threshold := Z.max kSwissMinimumDeletedRebuild (t_capacity t / 4) in
  (t_deleted_count t >=? threshold) && (t_deleted_count t >? t_size t).

Definition slot_key (heap : KeyArena) (slot : Slot) : Result (list Z) :=
  let size := key_size slot in
  if size =? 0 then Ok []
  else if key_is_inline slot then let? bytes := read_inline_key slot in first bytes size
  else let? offset := read_heap_offset slot in
       let data := arena_data heap offset size in
       if zlen data =? size then Ok data else Stuck out_of_bounds.

Definition key_equals (heap : KeyArena) (slot : Slot) (key : list Z) (key_hash : Z) : Result bool :=
  let size := key_size slot in
  if negb (size =? zlen key) || negb (key_hash_tag slot =? u32 key_hash) then Ok false
  else if zlen key =? 0 then Ok true
  else if key_is_inline slot
  then let? bytes := read_inline_key slot in
       let? bytes := first bytes (zlen key) in
       Ok (bool_decide (bytes = key))
  else let? offset := read_heap_offset slot in
       let heap_key := arena_data heap offset size in
       if negb (zlen heap_key =? zlen key) then Ok false
       else Ok (bool_decide (heap_key = key)).

(** What probing a group of eight slots gives. *)
Inductive GroupResult := group_continue | group_empty | group_hit (index : Z).

(** [for (offset = 0; offset < kSwissGroupSize; ++offset)] of [find_slot_index]. *)
Fixpoint find_in_group (n : nat) (t : SwissTableIndex) (key : list Z) (key_hash control_word
    fingerprint_mask group_start offset : Z) : Result GroupResult :=
  match n with
  | O => Ok group_continue
  | S n =>
      let control := control_byte_at control_word offset in
      if control =? kSwissEmpty then Ok group_empty
      else
      let? hit := (if negb (Z.land fingerprint_mask (Z.shiftl 1 offset) =? 0)
                   then let? slot := vec_get (t_slots t) (group_start + offset) in
                        key_equals (t_heap_keys t) slot key key_hash
                   else Ok false) in
      if (hit : bool) then Ok (group_hit (group_start + offset))
      else find_in_group n t key key_hash control_word fingerprint_mask group_start (offset + 1)
  end.

(** [for (probe = 0; probe < capacity_; probe += kSwissGroupSize)]; the fuel is
    the number of groups. *)
Fixpoint find_probe (fuel : nat) (t : SwissTableIndex) (key : list Z) (key_hash fingerprint
    group_start probe : Z) : Result (option Z) :=
  if negb (probe <? t_capacity t) then Ok None
  else match fuel with
       | O => Stuck out_of_fuel
       | S fuel =>
           let? control_word := load_control_group64 (t_control t) group_start in
           let? mask := equal_byte_mask (t_control t) group_start fingerprint in
           let? r := find_in_group (Z.to_nat kSwissGroupSize) t key key_hash control_word mask group_start 0 in
           match r with
           | group_empty => Ok None
           | group_hit index => Ok (Some index)
           | group_continue =>
               find_probe fuel t key key_hash fingerprint (next_group group_start (t_capacity t))
                 (u64 (probe + kSwissGroupSize))
           end
       end.

Definition find_slot_index (t : SwissTableIndex) (key : list Z) (key_hash : Z) : Result (option Z) :=
  if t_capacity t =? 0 then Ok None
  else
  let hash := mix_hash (t_seed t) key_hash in
  find_probe (Z.to_nat (t_capacity t / kSwissGroupSize)) t key key_hash (h2 hash)
    (probe_start (t_capacity t) hash) 0.

(** The group loop of [find_insert_index], with the first deleted slot seen. *)
Fixpoint insert_in_group (n : nat) (t : SwissTableIndex) (key : list Z) (key_hash control_word
    fingerprint_mask group_start offset : Z) (first_deleted : option Z) :
    Result (GroupResult * option Z) :=
  match n with
  | O => Ok (group_continue, first_deleted)
  | S n =>
      let index := group_start + offset in
      let control := control_byte_at control_word offset in
      if control =? kSwissEmpty then Ok (group_hit (default index first_deleted), first_deleted)
      else
      let first_deleted :=
        match first_deleted with
        | Some d => Some d
        | None => if control =? kSwissDeleted then Some index else None
        end in
      let? hit := (if negb (Z.land fingerprint_mask (Z.shiftl 1 offset) =? 0)
                   then let? slot := vec_get (t_slots t) index in
                        key_equals (t_heap_keys t) slot key key_hash
                   else Ok false) in
      if (hit : bool) then Ok (group_hit index, first_deleted)
      else insert_in_group n t key key_hash control_word fingerprint_mask group_start (offset + 1) first_deleted
  end.

Fixpoint insert_probe (fuel : nat) (t : SwissTableIndex) (key : list Z) (key_hash fingerprint
    group_start probe : Z) (first_deleted : option Z) : Result Z :=
  if negb (probe <? t_capacity t) then Err corrupted_data
  else match fuel with
       | O => Stuck out_of_fuel
       | S fuel =>
           let? control_word := load_control_group64 (t_control t) group_start in
           let? mask := equal_byte_mask (t_control t) group_start fingerprint in
           let? r := insert_in_group (Z.to_nat kSwissGroupSize) t key key_hash control_word mask
                       group_start 0 first_deleted in
           match r with
           | (group_hit index, _) => Ok index
           | (_, first_deleted) =>
               insert_probe fuel t key key_hash fingerprint (next_group group_start (t_capacity t))
                 (u64 (probe + kSwissGroupSize)) first_deleted
           end
       end.

(** Field updates. *)
Definition set_cell (t : SwissTableIndex) (control : list Z) (slots : list Slot) : SwissTableIndex :=
  {| t_routing := t_routing t; t_seed := t_seed t; t_size := t_size t;
     t_deleted_count := t_deleted_count t; t_capacity := t_capacity t;
     t_heap_live_bytes := t_heap_live_bytes t; t_heap_dead_bytes := t_heap_dead_bytes t;
     t_control := control; t_slots := slots; t_heap_keys := t_heap_keys t;
     t_rehash_count := t_rehash_count t; t_tombstone_rebuild_count := t_tombstone_rebuild_count t |}.
Definition set_counts (t : SwissTableIndex) (size deleted : Z) : SwissTableIndex :=
  {| t_routing := t_routing t; t_seed := t_seed t; t_size := size;
     t_deleted_count := deleted; t_capacity := t_capacity t;
     t_heap_live_bytes := t_heap_live_bytes t; t_heap_dead_bytes := t_heap_dead_bytes t;
     t_control := t_control t; t_slots := t_slots t; t_heap_keys := t_heap_keys t;
     t_rehash_count := t_rehash_count t; t_tombstone_rebuild_count := t_tombstone_rebuild_count t |}.
Definition set_heap (t : SwissTableIndex) (heap : KeyArena) (live dead : Z) : SwissTableIndex :=
  {| t_routing := t_routing t; t_seed := t_seed t; t_size := t_size t;
     t_deleted_count := t_deleted_count t; t_capacity := t_capacity t;
     t_heap_live_bytes := live; t_heap_dead_bytes := dead;
     t_control := t_control t; t_slots := t_slots t; t_heap_keys := heap;
     t_rehash_count := t_rehash_count t; t_tombstone_rebuild_count := t_tombstone_rebuild_count t |}.

(** [set_key(slots_[index], key, key_hash)]; a failure resets the slot.  The copy
    into the arena writes the bytes that [allocate] has just added. *)
Definition set_key (index : Z) (key : list Z) (key_hash : Z) : Method SwissTableIndex unit :=
  if zlen key >=? kInlineKeyMask then failM invalid_argument
  else
  let key_size := u32 (zlen key) in
  let! t := getM in
  let! slot := liftM (vec_get (t_slots t) index) in
  let put slot := let! slots := liftM (vec_set (t_slots t) index slot) in
                  modifyM (fun t => set_cell t (t_control t) slots) in
  if zlen key <=? kSwissInlineKeyBytes
  then let! bytes := liftM (memcpy (zeros kSwissInlineKeyBytes) 0 key) in
       put (mkSlot (slot_ref slot) (inline_key bytes) (u32 key_hash) (key_metadata key_size true))
  else
  match arena_allocate (zlen key) (t_heap_keys t) with
  | (Ok offset, heap) =>
      let destination := arena_data heap offset (zlen key) in
      if negb (zlen destination =? zlen key)
      then modifyM (fun t => set_heap t heap (t_heap_live_bytes t) (t_heap_dead_bytes t)) ;;!
           put new_slot ;;! failM corrupted_data
      else
        let! storage := liftM (memcpy (arena_storage heap) offset key) in
        modifyM (fun t => set_heap t (mkArena storage (arena_bump heap))
                            (u64 (t_heap_live_bytes t + zlen key)) (t_heap_dead_bytes t)) ;;!
        put (mkSlot (slot_ref slot) (heap_key_offset offset) (u32 key_hash) (key_metadata key_size false))
  | (Err e, heap) => put new_slot ;;! failM e
  | (Stuck f, _) => liftM (Stuck f)
  end.

(** A slot that holds a key in the arena. *)
Definition has_heap_key (control : Z) (slot : Slot) : bool :=
  negb (control =? kSwissEmpty) && negb (control =? kSwissDeleted) &&
  negb (key_is_inline slot) && (key_size slot >? 0).

(** The three loops of [compact_heap_keys] over the slots and their controls. *)
Fixpoint heap_bytes_loop (slots : list Slot) (control : list Z) (heap_bytes : Z) : Result Z :=
  match slots, control with
  | [], _ => Ok heap_bytes
  | _ :: _, [] => Stuck out_of_bounds
  | slot :: slots, c :: control =>
      heap_bytes_loop slots control
        (if has_heap_key c slot then u64 (heap_bytes + key_size slot) else heap_bytes)
  end.

Fixpoint copy_keys_loop (heap : KeyArena) (slots : list Slot) (control : list Z) (compacted : KeyArena) :
    Result (KeyArena * list Z) :=
  match slots, control with
  | [], _ => Ok (compacted, [])
  | _ :: _, [] => Stuck out_of_bounds
  | slot :: slots, c :: control =>
      if negb (has_heap_key c slot)
      then let? r := copy_keys_loop heap slots control compacted in Ok (r.1, 0 :: r.2)
      else
      let? from := read_heap_offset slot in
      let source := arena_data heap from (key_size slot) in
      if negb (zlen source =? key_size slot) then Err corrupted_data
      else
      let '(offset, compacted) := arena_allocate (key_size slot) compacted in
      let? offset := offset in
      let destination := arena_data compacted offset (key_size slot) in
      if negb (zlen destination =? key_size slot) then Err corrupted_data
      else
      let? storage := memcpy (arena_storage compacted) offset source in
      let? r := copy_keys_loop heap slots control (mkArena storage (arena_bump compacted)) in
      Ok (r.1, offset :: r.2)
  end.

Fixpoint move_keys_loop (slots : list Slot) (control new_offsets : list Z) : Result (list Slot) :=
  match slots, control, new_offsets with
  | [], _, _ => Ok []
  | slot :: slots, c :: control, o :: new_offsets =>
      let? slots := move_keys_loop slots control new_offsets in
      Ok ((if has_heap_key c slot
           then mkSlot (slot_ref slot) (heap_key_offset o) (key_hash_tag slot) (key_size_and_mode slot)
           else slot) :: slots)
  | _ :: _, _, _ => Stuck out_of_bounds
  end.

Definition compact_heap_keys : Method SwissTableIndex unit :=
  let! t := getM in
  let! heap_bytes := liftM (heap_bytes_loop (t_slots t) (t_control t) 0) in
  liftM (arena_reserve heap_bytes) ;;!
  let! r := liftM (copy_keys_loop (t_heap_keys t) (t_slots t) (t_control t) new_arena) in
  let! slots := liftM (move_keys_loop (t_slots t) (t_control t) r.2) in
  putM (set_heap (set_cell t (t_control t) slots) r.1 (arena_bump r.1) 0).

Definition maybe_compact_heap_keys : Method SwissTableIndex unit :=
  let! t := getM in
  if t_heap_dead_bytes t =? 0 then retM tt
  else if t_heap_live_bytes t =? 0
  then putM (set_heap t new_arena (t_heap_live_bytes t) 0)
  else if (t_heap_dead_bytes t <? kHeapArenaCompactDeadThreshold) ||
          (t_heap_dead_bytes t <? t_heap_live_bytes t)
  then retM tt
  else compact_heap_keys.

Definition clear_slot (index : Z) : Method SwissTableIndex unit :=
  let! t := getM in
  let! slot := liftM (vec_get (t_slots t) index) in
  let size := key_size slot in
  (if negb (key_is_inline slot) && (size >? 0)
   then let live := if t_heap_live_bytes t >=? size then t_heap_live_bytes t - size else 0 in
        modifyM (fun t => set_heap t (t_heap_keys t) live (u64 (t_heap_dead_bytes t + size)))
   else retM tt) ;;!
  let! control := liftM (vec_set (t_control t) index kSwissDeleted) in
  let! slots := liftM (vec_set (t_slots t) index new_slot) in
  modifyM (fun t => set_cell t control slots) ;;!
  modifyM (fun t => set_counts t (t_size t) (u64 (t_deleted_count t + 1))).

Section rehash.
(** [rehash] inserts into a table of its own, and insertion may rehash. *)
Context (insert : HashedKey -> RecordRef -> Method SwissTableIndex IndexMutationResult).

(** [for (index = 0; index < capacity_; ++index)] of [rehash]. *)
Fixpoint rebuild_loop (t : SwissTableIndex) (slots : list Slot) (control : list Z)
    (rebuilt : SwissTableIndex) : Result SwissTableIndex :=
  match slots, control with
  | [], _ => Ok rebuilt
  | _ :: _, [] => Stuck out_of_bounds
  | slot :: slots, c :: control =>
      if (c =? kSwissEmpty) || (c =? kSwissDeleted) then rebuild_loop t slots control rebuilt
      else
      let? key := slot_key (t_heap_keys t) slot in
      let? hash := hash_key_routing key (t_routing t) in
      let '(r, rebuilt) := insert (mkHashedKey key hash) (slot_ref slot) rebuilt in
      let? r := r in
      if negb (inserted r) then Err corrupted_data else rebuild_loop t slots control rebuilt
  end.

Definition rehash (new_capacity : Z) (force_same_capacity : bool) : Method SwissTableIndex unit :=
  let! normalized := liftM (normalize_capacity new_capacity) in
  let! t := getM in
  if (normalized =? t_capacity t) && negb force_same_capacity then retM tt
  else if t_size t >? u64 (normalized - normalized / 8) then failM invalid_argument
  else
  liftM (arena_reserve (t_heap_live_bytes t)) ;;!
  let! rebuilt := liftM (rebuild_loop t (ztake (t_capacity t) (t_slots t)) (t_control t)
                           (empty_table (t_routing t) (t_seed t) normalized)) in
  putM
    {| t_routing := t_routing t; t_seed := t_seed t; t_size := t_size rebuilt; t_deleted_count := 0;
       t_capacity := normalized;
       t_heap_live_bytes := t_heap_live_bytes rebuilt; t_heap_dead_bytes := 0;
       t_control := t_control rebuilt; t_slots := t_slots rebuilt; t_heap_keys := t_heap_keys rebuilt;
       t_rehash_count := u64 (t_rehash_count t + 1);
       t_tombstone_rebuild_count :=
         if normalized =? t_capacity t then u64 (t_tombstone_rebuild_count t + 1)
         else t_tombstone_rebuild_count t |}.

Definition grow_if_needed : Method SwissTableIndex unit :=
  let! t := getM in
  if t_capacity t =? 0 then retM tt
  else if (t_size t >? t_capacity t) || (t_deleted_count t >? t_capacity t - t_size t)
  then failM corrupted_data
  else if tombstone_rebuild_beneficial t then rehash (t_capacity t) true
  else if effective_occupancy t <? maximum_occupancy t then retM tt
  else if (t_size t <? maximum_occupancy t) && negb (t_deleted_count t =? 0)
  then rehash (t_capacity t) true
  else if t_capacity t >? size_max / 2 then failM arithmetic_overflow
  else rehash (u64 (Z.shiftl (t_capacity t) 1)) false.

Definition find_insert_index (key : list Z) (key_hash mixed_hash : Z) : Method SwissTableIndex Z :=
  grow_if_needed ;;!
  let! t := getM in
  liftM (insert_probe (Z.to_nat (t_capacity t / kSwissGroupSize)) t key key_hash (h2 mixed_hash)
           (probe_start (t_capacity t) mixed_hash) 0 None).

Definition insert_or_assign_body (key : HashedKey) (ref : RecordRef) :
    Method SwissTableIndex IndexMutationResult :=
  if zlen (hk_key key) >=? kInlineKeyMask then failM invalid_argument
  else
  let! t := getM in
  let mixed_hash := mix_hash (t_seed t) (hk_hash key) in
  let! index := find_insert_index (hk_key key) (hk_hash key) mixed_hash in
  let! t := getM in
  let! c := liftM (vec_get (t_control t) index) in
  if (c =? kSwissEmpty) || (c =? kSwissDeleted)
  then
    set_key index (hk_key key) (hk_hash key) ;;!
    let! t := getM in
    let! slot := liftM (vec_get (t_slots t) index) in
    let! slots := liftM (vec_set (t_slots t) index
                           (mkSlot ref (slot_storage slot) (key_hash_tag slot) (key_size_and_mode slot))) in
    let! control := liftM (vec_set (t_control t) index (h2 mixed_hash)) in
    modifyM (fun t => set_cell t control slots) ;;!
    modifyM (fun t => set_counts t (u64 (t_size t + 1))
                        (if c =? kSwissDeleted then u64 (t_deleted_count t - 1) else t_deleted_count t)) ;;!
    retM (mkMutation true None)
  else
    let! slot := liftM (vec_get (t_slots t) index) in
    let! slots := liftM (vec_set (t_slots t) index
                           (mkSlot ref (slot_storage slot) (key_hash_tag slot) (key_size_and_mode slot))) in
    modifyM (fun t => set_cell t (t_control t) slots) ;;!
    retM (mkMutation false (Some (slot_ref slot))).
End rehash.

(** [insert_or_assign] calls itself through [rehash]; the fuel bounds the nesting. *)
Fixpoint insert_or_assign_fuel (fuel : nat) (key : HashedKey) (ref : RecordRef) :
    Method SwissTableIndex IndexMutationResult :=
  match fuel with
  | O => liftM (Stuck out_of_fuel)
  | S fuel => insert_or_assign_body (insert_or_assign_fuel fuel) key ref
  end.

(** A table that is being rebuilt never rehashes, so two levels are enough. *)
Definition insert_or_assign : HashedKey -> RecordRef -> Method SwissTableIndex IndexMutationResult :=
  insert_or_assign_fuel 2.
(** The calls of [rehash] from elsewhere insert into the table being rebuilt. *)
Definition insert_rebuilt : HashedKey -> RecordRef -> Method SwissTableIndex IndexMutationResult :=
  insert_or_assign_fuel 1.

Definition find (t : SwissTableIndex) (key : HashedKey) : Result (option RecordRef) :=
  let? index := find_slot_index t (hk_key key) (hk_hash key) in
  match index with
  | None => Ok None
  | Some index => let? slot := vec_get (t_slots t) index in Ok (Some (slot_ref slot))
  end.

Definition erase_no_compact (key : HashedKey) : Method SwissTableIndex IndexMutationResult :=
  let! t := getM in
  let! index := liftM (find_slot_index t (hk_key key) (hk_hash key)) in
  match index with
  | None => retM (mkMutation false None)
  | Some index =>
      let! slot := liftM (vec_get (t_slots t) index) in
      clear_slot index ;;!
      modifyM (fun t => set_counts t (u64 (t_size t - 1)) (t_deleted_count t)) ;;!
      retM (mkMutation false (Some (slot_ref slot)))
  end.

(** [(void)maybe_compact_heap_keys()]: a failure to compact is ignored. *)
Definition erase (key : HashedKey) : Method SwissTableIndex IndexMutationResult :=
  let! result := erase_no_compact key in
  (match previous result with
   | Some _ => ignoreM maybe_compact_heap_keys
   | None => retM tt
   end) ;;!
  retM result.

Definition prepare_insert (key : HashedKey) : Method SwissTableIndex unit :=
  if zlen (hk_key key) >=? kInlineKeyMask then failM invalid_argument
  else
  let! t := getM in
  let! found := liftM (find_slot_index t (hk_key key) (hk_hash key)) in
  match found with
  | Some _ => retM tt
  | None =>
      if t_size t =? size_max then failM arithmetic_overflow
      else
      grow_if_needed insert_rebuilt ;;!
      if zlen (hk_key key) >? kSwissInlineKeyBytes
      then let! t := getM in liftM (arena_prepare_allocate (t_heap_keys t) (zlen (hk_key key)))
      else retM tt
  end.

Definition reserve (count : Z) : Method SwissTableIndex unit :=
  let! t := getM in
  if (t_size t >? t_capacity t) || (t_deleted_count t >? t_capacity t - t_size t)
  then failM corrupted_data
  else
  let extra := count / 7 + (if count mod 7 =? 0 then 0 else 1) in
  if extra >? size_max - count then failM arithmetic_overflow
  else
  let minimum := count + extra in
  let! needed := liftM (normalize_capacity (Z.max minimum kSwissGroupSize)) in
  if t_capacity t =? 0
  then putM {| t_routing := t_routing t; t_seed := t_seed t; t_size := t_size t;
               t_deleted_count := t_deleted_count t; t_capacity := needed;
               t_heap_live_bytes := t_heap_live_bytes t; t_heap_dead_bytes := t_heap_dead_bytes t;
               t_control := replicate (Z.to_nat needed) kSwissEmpty;
               t_slots := ztake needed (t_slots t) ++
                 replicate (Z.to_nat (needed - zlen (t_slots t))) new_slot;
               t_heap_keys := t_heap_keys t; t_rehash_count := t_rehash_count t;
               t_tombstone_rebuild_count := t_tombstone_rebuild_count t |}
  else if needed >? t_capacity t then rehash insert_rebuilt needed false
  else if count >? t_size t
  then
    let additional := count - t_size t in
    let occupancy := effective_occupancy t in
    let may_exhaust_empty := (occupancy >? maximum_occupancy t) ||
                             (additional >? u64 (maximum_occupancy t - occupancy)) in
    if may_exhaust_empty || tombstone_rebuild_beneficial t then rehash insert_rebuilt (t_capacity t) true
    else retM tt
  else retM tt.

Definition prepare_batch_insert (additional_entries additional_heap_key_bytes : Z) :
    Method SwissTableIndex unit :=
  let! t := getM in
  if additional_entries >? size_max - t_size t then failM arithmetic_overflow
  else
  reserve (u64 (t_size t + additional_entries)) ;;!
  let! t := getM in
  liftM (arena_prepare_allocate (t_heap_keys t) additional_heap_key_bytes).

Fixpoint entries_loop (heap : KeyArena) (slots : list Slot) (control : list Z) :
    Result (list (list Z * RecordRef)) :=
  match slots, control with
  | [], _ => Ok []
  | _ :: _, [] => Stuck out_of_bounds
  | slot :: slots, c :: control =>
      if (c =? kSwissEmpty) || (c =? kSwissDeleted) then entries_loop heap slots control
      else
      let? key := slot_key heap slot in
      let? rest := entries_loop heap slots control in
      Ok ((key, slot_ref slot) :: rest)
  end.

Definition entries (t : SwissTableIndex) : Result (list (list Z * RecordRef)) :=
  entries_loop (t_heap_keys t) (ztake (t_capacity t) (t_slots t)) (t_control t).
