(* ===== verification/SwissTableSpec.v ===== *)
(** * The index table is a finite map

    [table_ok t m] relates a table of SwissTable.v to the finite map it stands
    for, through the abstract open addressing of Probing.v.  Every operation keeps
    it, with the map changed as the name of the operation says, on its success and
    its error branches. *)

From Stdlib Require Import ZifyBool.
From S2P Require Import Prelude Core Routing Probing SwissTable.

Abbreviation cell := (Probing.cell (K := list Z) (V := RecordRef)).
Implicit Types (cells : list cell) (m : gmap (list Z) RecordRef) (key : list Z).

(** The hash of a key under a routing state. *)
Definition hash_of (routing : WorkerRoutingState) key : Z :=
  match hash_key_routing key routing with Ok h => h | _ => 0 end.

Lemma hash_of_Ok routing key : bytes_ok key -> hash_key_routing key routing = Ok (hash_of routing key).
Proof.
  intros Hk. unfold hash_of, hash_key_routing. destruct (_ =? _); [|done].
  by rewrite siphash24_words.
Qed.

(** ** Control bytes *)

Lemma h2_range h : 1 <= h2 h <= 127.
Proof.
  unfold h2. rewrite (Z.land_ones h 7 ltac:(lia) : Z.land h 127 = h mod 128).
  pose proof (Z.mod_pos_bound h 128 ltac:(lia)). destruct (Z.eqb_spec (h mod 128) 0); lia.
Qed.

Lemma control_byte_le bs i b : bytes_ok bs -> bs !! i = Some b ->
  control_byte_at (le_value bs) (Z.of_nat i) = b.
Proof.
  unfold control_byte_at, byte_ok. intros Hok. change 255 with (Z.ones 8).
  rewrite Z.land_ones, Z.shiftr_div_pow2 by lia.
  revert i. induction Hok as [|x bs Hx Hok IH]; intros [|i] Hi; cbn in Hi; try done;
    unfold le_value in *; cbn [little_endian_to_Z]; rewrite lor_shiftl_add by lia; change (2 ^ 8) with 256 in *.
  - injection Hi as ->. rewrite Z.pow_0_r, Z.div_1_r, Z.mod_add by lia. by apply Z.mod_small.
  - replace (Z.of_nat (S i) * 8) with (8 + Z.of_nat i * 8) by lia.
    rewrite Z.pow_add_r, <- Z.div_div, Z.div_add, (Z.div_small x) by lia. rewrite Z.add_0_l. auto.
Qed.

Lemma land_bit x i : 0 <= i -> negb (Z.land x (Z.shiftl 1 i) =? 0) = Z.testbit x i.
Proof.
  intros Hi. rewrite Z.shiftl_1_l. destruct (Z.testbit x i) eqn:E.
  - destruct (Z.eqb_spec (Z.land x (2 ^ i)) 0) as [H|]; [|done].
    apply (f_equal (fun y => Z.testbit y i)) in H.
    by rewrite Z.land_spec, E, Z.pow2_bits_true, Z.bits_0 in H by lia.
  - destruct (Z.eqb_spec (Z.land x (2 ^ i)) 0) as [|[]]; [done|]. apply Z.bits_inj'. intros j Hj.
    rewrite Z.land_spec, Z.bits_0, Z.pow2_bits_eqb by lia. destruct (Z.eqb_spec i j) as [->|]; [by rewrite E|].
    apply andb_false_r.
Qed.

Lemma mask_bit n word byte idx mask j : 0 <= idx -> 0 <= j ->
  Z.testbit (equal_byte_mask_loop n word byte idx mask) j =
  Z.testbit mask j || ((idx <=? j) && (j <? idx + Z.of_nat n) && (control_byte_at word j =? byte)).
Proof.
  revert idx mask. induction n as [|n IH]; intros idx mask Hi Hj; cbn [equal_byte_mask_loop].
  { rewrite Z.add_0_r. destruct (Z.leb_spec idx j), (Z.ltb_spec j idx); cbn; rewrite ?orb_false_r; [lia|done..]. }
  rewrite IH by lia. destruct (decide (j = idx)) as [->|].
  - rewrite Z.leb_refl. replace (idx <? idx + Z.of_nat (S n)) with true by (symmetry; apply Z.ltb_lt; lia).
    replace (idx + 1 <=? idx) with false by lia. cbn. rewrite orb_false_r.
    destruct (_ =? byte); [|by rewrite orb_false_r].
    rewrite Z.lor_spec, Z.shiftl_1_l, Z.pow2_bits_true by lia. by rewrite orb_true_r.
  - replace ((idx + 1 <=? j) && (j <? idx + 1 + Z.of_nat n))
      with ((idx <=? j) && (j <? idx + Z.of_nat (S n)))
      by (apply eq_true_iff_eq; rewrite !andb_true_iff, !Z.leb_le, !Z.ltb_lt; lia).
    apply (f_equal (fun b => b || _)).
    destruct (control_byte_at word idx =? byte); [|reflexivity].
    rewrite Z.lor_spec, Z.shiftl_1_l, Z.pow2_bits_false, orb_false_r by lia; reflexivity.
Qed.

(** The word and the mask of the group at [g]. *)
Lemma group_word control (g : nat) : bytes_ok control -> (g + 8 <= length control)%nat ->
  exists word, load_control_group64 control (Z.of_nat g) = Ok word /\
    forall byte, exists mask, equal_byte_mask control (Z.of_nat g) byte = Ok mask /\
    forall off c, (off < 8)%nat -> control !! (g + off)%nat = Some c ->
      control_byte_at word (Z.of_nat off) = c /\
      negb (Z.land mask (Z.shiftl 1 (Z.of_nat off)) =? 0) = (c =? byte).
Proof.
  intros Hok Hg. unfold equal_byte_mask, load_control_group64, kSwissGroupSize.
  rewrite subspan_in by (unfold zlen; lia). cbn [bindR].
  exists (le_value (slice (Z.of_nat g) 8 control)). split; [done|]. intros byte. eexists. split; [done|].
  intros off c Hoff Hc.
  assert (Hb : control_byte_at (le_value (slice (Z.of_nat g) 8 control)) (Z.of_nat off) = c).
  { apply control_byte_le; [by apply bytes_ok_slice|]. unfold slice, ztake, zdrop.
    rewrite lookup_take_lt, lookup_drop, Nat2Z.id by lia. exact Hc. }
  split; [done|]. rewrite land_bit, mask_bit, Z.bits_0, Hb by lia. cbn [orb].
  replace (0 <=? Z.of_nat off) with true by lia.
  by replace (Z.of_nat off <? 0 + Z.of_nat (Z.to_nat 8)) with true by (symmetry; apply Z.ltb_lt; lia).
Qed.

(** ** Keys in slots *)

(** A slot holds a key: short ones inline, padded with zeros, longer ones in the
    arena. *)
Definition key_in (heap : KeyArena) (slot : Slot) key : Prop :=
  zlen key < kInlineKeyMask /\
  if zlen key <=? kSwissInlineKeyBytes
  then key_size_and_mode slot = key_metadata (zlen key) true /\
       slot_storage slot = inline_key (key ++ zeros (kSwissInlineKeyBytes - zlen key))
  else key_size_and_mode slot = key_metadata (zlen key) false /\
       exists o, slot_storage slot = heap_key_offset o /\ 0 <= o /\
         o + zlen key <= zlen (arena_storage heap) /\ slice o (zlen key) (arena_storage heap) = key.

Lemma metadata_split n b : 0 <= n < kInlineKeyMask ->
  Z.land (key_metadata n b) (u32 (Z.lnot kInlineKeyMask)) = n /\
  negb (Z.land (key_metadata n b) kInlineKeyMask =? 0) = b.
Proof.
  unfold key_metadata, kInlineKeyMask. intros Hn.
  change (u32 (Z.lnot (2 ^ 31))) with (Z.ones 31). rewrite Z.land_ones by lia.
  assert (Z.lor n (if b then 2 ^ 31 else 0) = n + (if b then 1 else 0) * 2 ^ 31) as ->.
  { rewrite <- lor_shiftl_add by lia. f_equal. by destruct b. }
  split; [rewrite Z.mod_add by lia; by apply Z.mod_small|].
  rewrite <- (Z.shiftl_1_l 31), land_bit by lia.
  apply Z.b2z_inj. rewrite Z.testbit_spec' by lia.
  rewrite Z.div_add, Z.div_small by lia. by destruct b.
Qed.

Lemma key_in_meta heap slot key : key_in heap slot key ->
  key_size slot = zlen key /\ key_is_inline slot = (zlen key <=? kSwissInlineKeyBytes).
Proof.
  unfold key_in, key_size, key_is_inline. pose proof (zlen_nonneg key). intros [Hlen Hs].
  destruct (zlen key <=? _); destruct Hs as [-> _]; by apply metadata_split.
Qed.

Lemma arena_data_in a o n : 0 <= o -> 0 < n -> o + n <= zlen (arena_storage a) ->
  zlen (arena_storage a) <= umax 32 -> arena_data a o n = slice o n (arena_storage a).
Proof.
  intros. unfold arena_data. destruct (Z.eqb_spec n 0); [lia|].
  rewrite checked_add_Ok by (width; lia). destruct (Z.ltb_spec (o + n) (2 ^ 64)); [|width; lia].
  by destruct (Z.gtb_spec (o + n) (zlen (arena_storage a))); [lia|].
Qed.

Section slots.
Context (heap : KeyArena) (Hheap : zlen (arena_storage heap) <= umax 32).

Lemma slot_key_in slot key : key_in heap slot key -> slot_key heap slot = Ok key.
Proof using Hheap.
  intros Hk. pose proof (key_in_meta _ _ _ Hk) as [Hs Hi]. destruct Hk as [Hlen Hk].
  pose proof (zlen_nonneg key). unfold slot_key. rewrite Hs, Hi.
  destruct (Z.eqb_spec (zlen key) 0) as [E|]; [by destruct key|].
  destruct (zlen key <=? _) eqn:E; destruct Hk as [_ Hk].
  - unfold read_inline_key. rewrite Hk. cbn [bindR]. b2p. unfold kSwissInlineKeyBytes in *.
    rewrite first_in by (rewrite zlen_app, zlen_zeros; lia). by rewrite ztake_app_le, ztake_all by lia.
  - destruct Hk as (o & Ho & Hpos & Hb & Hsl). unfold read_heap_offset. rewrite Ho. cbn [bindR].
    rewrite arena_data_in, Hsl by lia. by rewrite Z.eqb_refl.
Qed.

Lemma key_equals_in slot key' key h h' : key_in heap slot key' -> key_hash_tag slot = u32 h' ->
  (key' = key -> h' = h) -> key_equals heap slot key h = Ok (bool_decide (key' = key)).
Proof using Hheap.
  intros Hk Ht Hh. pose proof (key_in_meta _ _ _ Hk) as [Hs Hi]. destruct Hk as [Hlen Hk].
  pose proof (zlen_nonneg key'). unfold key_equals. rewrite Hs, Hi, Ht.
  destruct (Z.eqb_spec (zlen key') (zlen key)) as [El|Nl]; cbn [negb orb].
  2:{ rewrite bool_decide_eq_false_2 by congruence. done. }
  destruct (Z.eqb_spec (u32 h') (u32 h)) as [Et|Nt]; cbn [negb].
  2:{ rewrite bool_decide_eq_false_2; [done|]. intros E. by rewrite (Hh E) in Nt. }
  destruct (Z.eqb_spec (zlen key) 0) as [E|].
  { rewrite bool_decide_eq_true_2; [done|]. destruct key, key'; done. }
  destruct (zlen key' <=? _) eqn:E; destruct Hk as [_ Hk].
  - unfold read_inline_key. rewrite Hk. cbn [bindR]. b2p. unfold kSwissInlineKeyBytes in *.
    rewrite first_in by (rewrite zlen_app, zlen_zeros; lia). cbn [bindR].
    by rewrite <- El, ztake_app_le, ztake_all by lia.
  - destruct Hk as (o & Ho & Hpos & Hb & Hsl). unfold read_heap_offset. rewrite Ho. cbn [bindR].
    rewrite arena_data_in, Hsl by lia. by rewrite El, Z.eqb_refl.
Qed.
End slots.

(** Keys stay where they are when the arena grows. *)
Lemma key_in_grow storage extra b b' slot key : key_in (mkArena storage b) slot key ->
  key_in (mkArena (storage ++ extra) b') slot key.
Proof.
  unfold key_in. intros [Hlen Hk]. split; [done|]. destruct (_ <=? _); [done|].
  destruct Hk as (Hm & o & Ho & Hpos & Hb & Hsl). cbn in *. split; [done|]. exists o.
  rewrite zlen_app, slice_app_l by lia. pose proof (zlen_nonneg extra). split_and!; (done || lia).
Qed.

(** ** Tables and cells *)

Section table.
Context (routing : WorkerRoutingState) (seed : Z).

Definition mixed key : Z := mix_hash seed (hash_of routing key).
Definition home (capacity : Z) key : nat := Z.to_nat (probe_start capacity (mixed key)).
(** A key with its hash, as the callers pass it. *)
Definition hashed key : HashedKey := mkHashedKey key (hash_of routing key).

(** What the control byte and the slot of a cell are. *)
Definition cell_at (heap : KeyArena) (c : cell) (control : Z) (slot : Slot) : Prop :=
  match c with
  | Empty => control = kSwissEmpty
  | Deleted => control = kSwissDeleted
  | Full k r => control = h2 (mixed k) /\ slot_ref slot = r /\
      key_hash_tag slot = u32 (hash_of routing k) /\ key_in heap slot k /\ bytes_ok k
  end.

(** The bytes of the arena a cell uses. *)
Definition heap_use (c : cell) : Z :=
  match c with Full k _ => if zlen k <=? kSwissInlineKeyBytes then 0 else zlen k | _ => 0 end.
Fixpoint heap_total cells : Z :=
  match cells with [] => 0 | c :: cells => heap_use c + heap_total cells end.

Record rep (t : SwissTableIndex) cells : Prop := {
  rep_routing : t_routing t = routing;
  rep_seed : t_seed t = seed;
  rep_cells : Forall3 (cell_at (t_heap_keys t)) cells (t_control t) (t_slots t);
  rep_capacity : t_capacity t = Z.of_nat (length cells);
  rep_power : exists k, 3 <= k < 64 /\ t_capacity t = 2 ^ k;
  rep_size : t_size t = Z.of_nat (count fullb cells);
  rep_deleted : t_deleted_count t = Z.of_nat (count deletedb cells);
  rep_bump : arena_bump (t_heap_keys t) = zlen (arena_storage (t_heap_keys t));
  rep_arena : arena_bump (t_heap_keys t) <= umax 32;
  rep_live : t_heap_live_bytes t = heap_total cells;
  rep_dead : t_heap_live_bytes t + t_heap_dead_bytes t = arena_bump (t_heap_keys t);
  rep_dead_nonneg : 0 <= t_heap_dead_bytes t
}.

Lemma cell_control heap c control slot : cell_at heap c control slot -> byte_ok control.
Proof.
  unfold byte_ok. destruct c as [| |k r]; cbn; [intros ->; done..|].
  intros [-> _]. pose proof (h2_range (mixed k)). lia.
Qed.

Lemma cells_control heap cells control slots :
  Forall3 (cell_at heap) cells control slots -> bytes_ok control.
Proof. induction 1; constructor; eauto using cell_control. Qed.

(** What the code tests of a control byte. *)
Lemma cell_tests heap c control slot : cell_at heap c control slot ->
  (control =? kSwissEmpty) = emptyb c /\ (control =? kSwissDeleted) = deletedb c.
Proof.
  destruct c as [| |k r]; cbn; [by intros ->..|]. intros [-> _]. pose proof (h2_range (mixed k)).
  unfold kSwissEmpty, kSwissDeleted. lia.
Qed.

Definition as_group (o : outcome) : GroupResult :=
  match o with Found i => group_hit (Z.of_nat i) | Missing _ => group_empty | Exhausted => group_continue end.

Section probe.
Context (t : SwissTableIndex) cells (Hrep : rep t cells).

Lemma rep_heap : zlen (arena_storage (t_heap_keys t)) <= umax 32.
Proof using Hrep. rewrite <- (rep_bump _ _ Hrep). apply Hrep. Qed.

Lemma rep_at i c : cells !! i = Some c ->
  exists control slot, t_control t !! i = Some control /\ t_slots t !! i = Some slot /\
    cell_at (t_heap_keys t) c control slot.
Proof using Hrep. apply Forall3_lookup_l, Hrep. Qed.

Lemma rep_lengths : length (t_control t) = length cells /\ length (t_slots t) = length cells.
Proof using Hrep.
  pose proof (rep_cells _ _ Hrep) as H. split; symmetry; [by eapply Forall3_length_lm|by eapply Forall3_length_lr].
Qed.

(** The test of one slot during a probe. *)
Lemma slot_test i c control slot key mask_bit : cells !! i = Some c ->
  t_slots t !! i = Some slot -> cell_at (t_heap_keys t) c control slot ->
  mask_bit = (control =? h2 (mixed key)) ->
  (if mask_bit : bool
   then let? slot := vec_get (t_slots t) (Z.of_nat i) in
        key_equals (t_heap_keys t) slot key (hash_of routing key)
   else Ok false) = Ok (holds cells i key).
Proof using Hrep.
  intros Hc Hslot Hat ->. unfold holds. rewrite Hc. pose proof (h2_range (mixed key)).
  destruct c as [| |k r]; cbn in Hat.
  1, 2: subst; unfold kSwissEmpty, kSwissDeleted;
    match goal with |- context [?a =? ?b] => destruct (Z.eqb_spec a b) end; [lia|done].
  destruct Hat as (-> & Hr & Ht & Hk & _). destruct (Z.eqb_spec (h2 (mixed k)) (h2 (mixed key))) as [E|N].
  - rewrite (vec_get_Some _ _ _ Hslot). cbn [bindR].
    eapply key_equals_in; [apply rep_heap|done|exact Ht|by intros ->].
  - rewrite bool_decide_eq_false_2; [done|]. by intros ->.
Qed.

Lemma find_in_group_spec n key word mask (g off : nat) : (off + n = 8)%nat -> (g + 8 <= length cells)%nat ->
  (forall off c, (off < 8)%nat -> t_control t !! (g + off)%nat = Some c ->
    control_byte_at word (Z.of_nat off) = c /\
    negb (Z.land mask (Z.shiftl 1 (Z.of_nat off)) =? 0) = (c =? h2 (mixed key))) ->
  find_in_group n t key (hash_of routing key) word mask (Z.of_nat g) (Z.of_nat off) =
  Ok (as_group (search cells key (seq (g + off) n))).
Proof using Hrep.
  intros Hn Hg Hw. revert off Hn. induction n as [|n IH]; intros off Hn; [done|].
  destruct (lookup_lt_is_Some_2 cells (g + off)) as [c Hc]; [lia|].
  destruct (rep_at _ _ Hc) as (control & slot & Hctl & Hslot & Hat).
  destruct (Hw off control ltac:(lia) Hctl) as [Hb Hm]. cbn [find_in_group seq search]. rewrite Hb.
  destruct (cell_tests _ _ _ _ Hat) as [Te _]. rewrite Te. unfold is_empty at 1. rewrite Hc.
  replace (Z.of_nat g + Z.of_nat off) with (Z.of_nat (g + off)) by lia.
  rewrite (slot_test _ _ _ _ _ _ Hc Hslot Hat Hm). cbn [bindR].
  replace (Z.of_nat off + 1) with (Z.of_nat (S off)) by lia.
  replace (Z.of_nat (g + off)) with (Z.of_nat g + Z.of_nat off) at 2 by lia.
  rewrite IH by lia. replace (g + S off)%nat with (S (g + off)) by lia.
  destruct c; cbn [emptyb]; [done|by destruct (holds _ _ _)..].
Qed.

Definition as_insert (o : outcome) : GroupResult :=
  match o with Found i | Missing i => group_hit (Z.of_nat i) | Exhausted => group_continue end.

Lemma insert_in_group_spec n key word mask (g off : nat) (fd : option nat) :
  (off + n = 8)%nat -> (g + 8 <= length cells)%nat ->
  (forall off c, (off < 8)%nat -> t_control t !! (g + off)%nat = Some c ->
    control_byte_at word (Z.of_nat off) = c /\
    negb (Z.land mask (Z.shiftl 1 (Z.of_nat off)) =? 0) = (c =? h2 (mixed key))) ->
  exists fd', insert_in_group n t key (hash_of routing key) word mask (Z.of_nat g) (Z.of_nat off)
      (Z.of_nat <$> fd) =
    Ok (as_insert (search_insert cells key fd (seq (g + off) n)), fd') /\
    (search_insert cells key fd (seq (g + off) n) = Exhausted ->
     fd' = Z.of_nat <$> remember cells fd (seq (g + off) n)).
Proof using Hrep.
  intros Hn Hg Hw. revert off fd Hn. induction n as [|n IH]; intros off fd Hn.
  { exists (Z.of_nat <$> fd). split; [done|]. intros _. unfold remember. by destruct fd. }
  destruct (lookup_lt_is_Some_2 cells (g + off)) as [c Hc]; [lia|].
  destruct (rep_at _ _ Hc) as (control & slot & Hctl & Hslot & Hat).
  destruct (Hw off control ltac:(lia) Hctl) as [Hb Hm].
  cbn [insert_in_group seq search_insert]. rewrite Hb, remember_cons.
  destruct (cell_tests _ _ _ _ Hat) as [Te Td]. rewrite Te, Td. unfold is_empty, is_deleted. rewrite Hc.
  replace (Z.of_nat g + Z.of_nat off) with (Z.of_nat (g + off)) by lia.
  rewrite (slot_test _ _ _ _ _ _ Hc Hslot Hat Hm). cbn [bindR].
  replace (Z.of_nat off + 1) with (Z.of_nat (S off)) by lia.
  destruct c as [| |k r]; cbn [emptyb deletedb].
  - exists (Z.of_nat <$> fd). split; [|discriminate]. by destruct fd.
  - assert (match (Z.of_nat <$> fd) with Some d => Some d | None => Some (Z.of_nat (g + off)) end =
      Z.of_nat <$> (match fd with Some d => Some d | None => Some (g + off)%nat end)) as -> by by destruct fd.
    destruct (holds cells (g + off) key); [by eexists|].
    replace (S (g + off)) with (g + S off)%nat by lia. apply IH. lia.
  - assert (match (Z.of_nat <$> fd) with Some d => Some d | None => None end =
      Z.of_nat <$> (match fd with Some d => Some d | None => None end)) as -> by by destruct fd.
    destruct (holds cells (g + off) key); [by eexists|].
    replace (S (g + off)) with (g + S off)%nat by lia. apply IH. lia.
Qed.

(** The capacity is a multiple of the group size, and so are the group starts. *)
Lemma rep_groups : exists G, (0 < G /\ length cells = 8 * G)%nat /\ t_capacity t = 8 * Z.of_nat G /\
  8 * Z.of_nat G < 2 ^ 64.
Proof using Hrep.
  destruct (rep_power _ _ Hrep) as (k & Hk & E). pose proof (rep_capacity _ _ Hrep) as E'.
  assert (2 ^ k = 8 * 2 ^ (k - 3)) as E2 by (change 8 with (2 ^ 3); rewrite <- Z.pow_add_r by lia; f_equal; lia).
  pose proof (Z.pow_pos_nonneg 2 (k - 3) ltac:(lia) ltac:(lia)). pose proof (Z.pow_lt_mono_r 2 k 64).
  exists (Z.to_nat (2 ^ (k - 3))). lia.
Qed.

Lemma probe_start_group hash : exists p, (Z.to_nat p * 8 + 8 <= length cells)%nat /\ 0 <= p /\
  probe_start (t_capacity t) hash = p * 8.
Proof using Hrep.
  destruct (rep_power _ _ Hrep) as (k & Hk & E). pose proof (rep_capacity _ _ Hrep) as E'.
  assert (2 ^ k = 8 * 2 ^ (k - 3)) as E2 by (change 8 with (2 ^ 3); rewrite <- Z.pow_add_r by lia; f_equal; lia).
  pose proof (Z.pow_pos_nonneg 2 (k - 3) ltac:(lia) ltac:(lia)). pose proof (Z.pow_lt_mono_r 2 k 64).
  unfold probe_start, kSwissGroupSize. rewrite E, E2, (Z.mul_comm 8), Z.div_mul by lia.
  rewrite (wrap_small 64 (2 ^ (k - 3) - 1)) by (width; lia).
  replace (2 ^ (k - 3) - 1) with (Z.ones (k - 3)) by (rewrite Z.ones_equiv; lia).
  rewrite Z.land_ones by lia. pose proof (Z.mod_pos_bound (Z.shiftr hash 7) (2 ^ (k - 3)) ltac:(lia)).
  exists (Z.shiftr hash 7 mod 2 ^ (k - 3)). rewrite wrap_small by (width; lia). split_and!; lia.
Qed.

(** The cells probed from a group on are the group, then those from the next one. *)
Lemma probe_next (p : nat) : (p * 8 + 8 <= length cells)%nat ->
  exists p' : nat, (p' * 8 + 8 <= length cells)%nat /\
    next_group (Z.of_nat (p * 8)) (t_capacity t) = Z.of_nat (p' * 8) /\
    forall n, probe (length cells) (p * 8) <$> seq 0 (8 + n) =
      seq (p * 8) 8 ++ (probe (length cells) (p' * 8) <$> seq 0 n).
Proof using Hrep.
  intros Hp. destruct rep_groups as (G & [HG Hl] & Hcap & Hmax).
  assert (Hsplit : forall p', (forall j, probe (length cells) (p * 8) (8 + j) = probe (length cells) (p' * 8) j) ->
    forall n, probe (length cells) (p * 8) <$> seq 0 (8 + n) =
      seq (p * 8) 8 ++ (probe (length cells) (p' * 8) <$> seq 0 n)).
  { intros p' Hj n. rewrite seq_app, fmap_app. f_equal.
    - rewrite <- (Nat.add_0_r (p * 8)) at 2. rewrite <- fmap_add_seq.
      apply list_fmap_ext. intros _ j Hin%list_elem_of_lookup_2%elem_of_seq. apply Nat.mod_small. lia.
    - change (0 + 8)%nat with (8 + 0)%nat. rewrite <- (fmap_add_seq 8 0 n), <- list_fmap_compose. apply list_fmap_ext. intros _ j _. apply Hj. }
  unfold next_group, kSwissGroupSize. rewrite Hcap.
  replace (Z.of_nat (p * 8) + 8) with (8 * (Z.of_nat p + 1)) by lia.
  rewrite (wrap_small 64 (8 * _)) by (width; lia).
  destruct (decide (S p = G)) as [<-|Hne].
  - exists 0%nat. split_and!; [lia| |].
    + replace (8 * (Z.of_nat p + 1) >=? 8 * Z.of_nat (S p)) with true by lia. rewrite wrap_small; width; lia.
    + apply Hsplit. intros j. unfold probe. rewrite Hl.
      replace (p * 8 + (8 + j))%nat with (0 * 8 + j + 1 * (8 * S p))%nat by lia. apply Nat.Div0.mod_add.
  - exists (S p). split_and!; [lia| |].
    + replace (8 * (Z.of_nat p + 1) >=? 8 * Z.of_nat G) with false by lia. lia.
    + apply Hsplit. intros j. unfold probe. f_equal. lia.
Qed.

Lemma find_probe_spec n key (p : nat) probe_ : (p * 8 + 8 <= length cells)%nat -> 0 <= probe_ ->
  probe_ + 8 * Z.of_nat n = t_capacity t ->
  find_probe n t key (hash_of routing key) (h2 (mixed key)) (Z.of_nat (p * 8)) probe_ =
  Ok (match search cells key (probe (length cells) (p * 8) <$> seq 0 (8 * n)) with
      | Found i => Some (Z.of_nat i)
      | _ => None
      end).
Proof using Hrep.
  destruct rep_groups as (G & [HG Hl] & Hcap & Hmax). revert p probe_.
  induction n as [|n IH]; intros p q Hp Hq Hn.
  { cbn [find_probe]. by replace (q <? t_capacity t) with false by lia. }
  cbn [find_probe]. replace (q <? t_capacity t) with true by lia. cbn [negb].
  destruct (group_word (t_control t) (p * 8)) as (word & -> & Hmask);
    [by eapply cells_control, Hrep|by rewrite (proj1 rep_lengths)|].
  destruct (Hmask (h2 (mixed key))) as (mask & -> & Hw). cbn [bindR].
  pose proof (find_in_group_spec 8 key word mask (p * 8) 0 eq_refl Hp Hw) as Hg.
  change (Z.of_nat 0) with 0 in Hg. change (Z.to_nat kSwissGroupSize) with 8%nat. rewrite Hg. clear Hg.
  rewrite Nat.add_0_r. cbn [bindR].
  destruct (probe_next p Hp) as (p' & Hp' & Hnext & Hsplit).
  replace (8 * S n)%nat with (8 + 8 * n)%nat by lia. rewrite Hsplit, search_app.
  destruct (search cells key (seq (p * 8) 8)); cbn [as_group]; [done..|].
  unfold kSwissGroupSize. rewrite Hnext, (wrap_small 64) by (width; lia). apply IH; [done|lia..].
Qed.

Lemma insert_probe_spec n key (p : nat) probe_ fd : (p * 8 + 8 <= length cells)%nat -> 0 <= probe_ ->
  probe_ + 8 * Z.of_nat n = t_capacity t ->
  insert_probe n t key (hash_of routing key) (h2 (mixed key)) (Z.of_nat (p * 8)) probe_ (Z.of_nat <$> fd) =
  match search_insert cells key fd (probe (length cells) (p * 8) <$> seq 0 (8 * n)) with
  | Found i | Missing i => Ok (Z.of_nat i)
  | Exhausted => Err corrupted_data
  end.
Proof using Hrep.
  destruct rep_groups as (G & [HG Hl] & Hcap & Hmax). revert p probe_ fd.
  induction n as [|n IH]; intros p q fd Hp Hq Hn.
  { cbn [insert_probe]. by replace (q <? t_capacity t) with false by lia. }
  cbn [insert_probe]. replace (q <? t_capacity t) with true by lia. cbn [negb].
  destruct (group_word (t_control t) (p * 8)) as (word & -> & Hmask);
    [by eapply cells_control, Hrep|by rewrite (proj1 rep_lengths)|].
  destruct (Hmask (h2 (mixed key))) as (mask & -> & Hw). cbn [bindR].
  destruct (insert_in_group_spec 8 key word mask (p * 8) 0 fd eq_refl Hp Hw) as (fd' & Hg & Hfd).
  change (Z.of_nat 0) with 0 in Hg. change (Z.to_nat kSwissGroupSize) with 8%nat. rewrite Hg. clear Hg.
  rewrite Nat.add_0_r in *. cbn [bindR].
  destruct (probe_next p Hp) as (p' & Hp' & Hnext & Hsplit).
  replace (8 * S n)%nat with (8 + 8 * n)%nat by lia. rewrite Hsplit, search_insert_app.
  destruct (search_insert cells key fd (seq (p * 8) 8)); cbn [as_insert]; [done..|].
  rewrite (Hfd eq_refl). unfold kSwissGroupSize. rewrite Hnext, (wrap_small 64) by (width; lia).
  apply IH; [done|lia..].
Qed.

Lemma probe_groups : Z.to_nat (t_capacity t / kSwissGroupSize) = (length cells / 8)%nat /\
  (8 * (length cells / 8) = length cells)%nat.
Proof using Hrep.
  destruct rep_groups as (G & [HG Hl] & Hcap & Hmax). unfold kSwissGroupSize. rewrite Hcap, Hl.
  rewrite (Z.mul_comm 8), Z.div_mul, (Nat.mul_comm 8), Nat.div_mul by lia. lia.
Qed.

Lemma find_slot_index_spec key : find_slot_index t key (hash_of routing key) =
  Ok (match search cells key (order (length cells) (home (t_capacity t) key)) with
      | Found i => Some (Z.of_nat i)
      | _ => None
      end).
Proof using Hrep.
  destruct rep_groups as (G & [HG Hl] & Hcap & Hmax). destruct probe_groups as [Hn Hn'].
  unfold find_slot_index. destruct (Z.eqb_spec (t_capacity t) 0); [lia|].
  rewrite (rep_seed _ _ Hrep), Hn. fold (mixed key). unfold home.
  destruct (probe_start_group (mixed key)) as (p & Hp & Hp0 & ->).
  replace (Z.to_nat (p * 8)) with (Z.to_nat p * 8)%nat by lia.
  replace (p * 8) with (Z.of_nat (Z.to_nat p * 8)) by lia.
  rewrite find_probe_spec by (done || lia). by rewrite Hn'.
Qed.
End probe.

(** ** Changing one cell *)

Lemma Forall3_insert {A B C} (P : A -> B -> C -> Prop) l k k' i x y z :
  Forall3 P l k k' -> P x y z -> Forall3 P (<[i := x]> l) (<[i := y]> k) (<[i := z]> k').
Proof.
  intros H Hp. revert i. induction H as [|x' y' z' l k k' H1 H2 IH]; intros [|i]; cbn; constructor; auto.
Qed.

Lemma heap_use_nonneg c : 0 <= heap_use c.
Proof. destruct c as [| |k r]; cbn; [lia..|]. pose proof (zlen_nonneg k). destruct (_ <=? _); lia. Qed.
Lemma heap_total_nonneg cells : 0 <= heap_total cells.
Proof. induction cells as [|c cells IH]; cbn; [lia|]. pose proof (heap_use_nonneg c). lia. Qed.
Lemma heap_total_insert cells i c c' : cells !! i = Some c ->
  heap_total (<[i := c']> cells) = heap_total cells - heap_use c + heap_use c'.
Proof.
  revert i. induction cells as [|x cells IH]; intros [|i] Hi; cbn in Hi; [done..| |].
  - injection Hi as ->. cbn. lia.
  - change (<[S i := c']> (x :: cells)) with (x :: <[i := c']> cells). cbn [heap_total].
    rewrite (IH i Hi). lia.
Qed.

(** The bytes a key takes in the arena. *)
Definition key_use key : Z := if zlen key <=? kSwissInlineKeyBytes then 0 else zlen key.
Definition free (c : cell) : bool := negb (fullb c).

(** A heap that keeps the keys of another one. *)
Definition heap_extends (h h' : KeyArena) : Prop := exists extra, arena_storage h' = arena_storage h ++ extra.
Definition heap_sane (h : KeyArena) : Prop := arena_bump h = zlen (arena_storage h) /\ arena_bump h <= umax 32.

Lemma cell_at_extends h h' c control slot : heap_extends h h' ->
  cell_at h c control slot -> cell_at h' c control slot.
Proof.
  intros [extra E]. destruct c as [| |k r]; cbn; [done..|]. intros (H1 & H2 & H3 & H4 & H5). split_and!; try done.
  destruct h, h'; cbn in *. subst. by eapply key_in_grow.
Qed.

Lemma arena_allocate_spec h n : heap_sane h -> 0 < n <= umax 32 ->
  arena_allocate n h =
  if arena_bump h + n >? umax 32 then (Err arithmetic_overflow, h)
  else (Ok (arena_bump h), mkArena (arena_storage h ++ zeros n) (arena_bump h + n)).
Proof.
  intros [Hb Hm] Hn. pose proof (zlen_nonneg (arena_storage h)). unfold arena_allocate.
  destruct (Z.eqb_spec n 0); [lia|]. destruct (Z.gtb_spec n (umax 32)); [lia|].
  rewrite checked_add_Ok by (width; lia). destruct (Z.ltb_spec (arena_bump h + n) (2 ^ 64)); [|width; lia].
  destruct (Z.gtb_spec (arena_bump h + n) (umax 32)); [done|].
  destruct (Z.gtb_spec (arena_bump h + n) (zlen (arena_storage h))); [|lia].
  rewrite wrap_small by (width; lia). do 4 f_equal. lia.
Qed.

Lemma set_key_spec t cells i c key h slot0 : rep t cells -> cells !! i = Some c ->
  t_slots t !! i = Some slot0 -> zlen key < kInlineKeyMask ->
  runs (set_key (Z.of_nat i) key h t)
    (fun _ t' => exists slot heap, key_in heap slot key /\ key_hash_tag slot = u32 h /\
       heap_extends (t_heap_keys t) heap /\ heap_sane heap /\
       arena_bump heap = arena_bump (t_heap_keys t) + key_use key /\
       t' = set_heap (set_cell t (t_control t) (<[i := slot]> (t_slots t))) heap
              (t_heap_live_bytes t + key_use key) (t_heap_dead_bytes t))
    (fun e t' => e = arithmetic_overflow /\ umax 32 < arena_bump (t_heap_keys t) + key_use key /\
       t' = set_cell t (t_control t) (<[i := new_slot]> (t_slots t))).
Proof.
  intros Hrep Hc Hs Hlen. unfold kInlineKeyMask in Hlen.
  pose proof (zlen_nonneg key). assert (Hlt : (i < length (t_slots t))%nat) by by eapply lookup_lt_Some.
  pose proof (heap_total_nonneg cells).
  destruct Hrep as [_ _ _ _ _ _ _ Hbump Hmax Hlive Hsum Hdead].
  unfold set_key, key_use. replace (zlen key >=? kInlineKeyMask) with false by (unfold kInlineKeyMask; lia).
  unfold bindM, getM, liftM. rewrite (vec_get_Some _ _ _ Hs), (wrap_small 32 (zlen key)) by (width; lia).
  destruct (zlen key <=? kSwissInlineKeyBytes) eqn:E; unfold kSwissInlineKeyBytes in *.
  - rewrite memcpy_in by (rewrite ?zlen_zeros; lia).
    rewrite vec_set_in by done. unfold runs, modifyM.
    eexists _, (t_heap_keys t). split_and!; cycle 5.
    + destruct t; cbn. unfold set_heap, set_cell. cbn. f_equal; lia.
    + split; [unfold kInlineKeyMask; lia|]. unfold kSwissInlineKeyBytes. rewrite E. cbn. split; [done|]. f_equal.
      rewrite zdrop_zeros by lia. done.
    + done.
    + exists []. by rewrite app_nil_r.
    + done.
    + lia.
  - rewrite arena_allocate_spec by (done || (width; lia)).
    destruct (Z.gtb_spec (arena_bump (t_heap_keys t) + zlen key) (umax 32)).
    { rewrite vec_set_in by done. unfold runs, failM, modifyM. split_and!; [done|lia|done]. }
    rewrite arena_data_in by (cbn; rewrite ?zlen_app, ?zlen_zeros; lia). cbn [arena_storage arena_bump].
    rewrite zlen_slice by (rewrite ?zlen_app, ?zlen_zeros; lia). rewrite Z.eqb_refl. cbn [negb].
    rewrite <- (app_nil_r (zeros (zlen key))), memcpy_over by (rewrite ?zlen_zeros; lia).
    unfold modifyM. rewrite vec_set_in by done. unfold runs. rewrite app_nil_r.
    rewrite (wrap_small 64) by (width; lia).
    eexists _, (mkArena (arena_storage (t_heap_keys t) ++ key) (arena_bump (t_heap_keys t) + zlen key)).
    split_and!; cycle 5; [by destruct t| |done|by exists key|..].
    + split; [unfold kInlineKeyMask; lia|]. unfold kSwissInlineKeyBytes. rewrite E. split; [done|]. cbn. eexists. split_and!; [done|lia|..].
      * rewrite zlen_app. lia.
      * rewrite slice_app_r, Hbump, Z.sub_diag by lia. by apply slice_whole.
    + split; cbn; [rewrite zlen_app; lia|lia].
    + done.
Qed.

Lemma rep_update t cells i c c' control slot heap live dead size deleted :
  rep t cells -> cells !! i = Some c -> heap_extends (t_heap_keys t) heap -> heap_sane heap ->
  cell_at heap c' control slot ->
  size = t_size t - Z.b2z (fullb c) + Z.b2z (fullb c') ->
  deleted = t_deleted_count t - Z.b2z (deletedb c) + Z.b2z (deletedb c') ->
  live = t_heap_live_bytes t - heap_use c + heap_use c' ->
  live + dead = arena_bump heap -> 0 <= dead ->
  rep (set_counts (set_heap (set_cell t (<[i := control]> (t_control t)) (<[i := slot]> (t_slots t)))
         heap live dead) size deleted) (<[i := c']> cells).
Proof.
  intros [Hr Hse Hcells Hcap Hpow Hsize Hdel Hbump Hmax Hlive Hsum Hdead] Hc Hext [Hs1 Hs2] Hat -> -> -> Hsum' Hd.
  split; cbn; try done.
  - apply Forall3_insert; [|done]. eapply Forall3_impl; [exact Hcells|]. intros *. by apply cell_at_extends.
  - by rewrite length_insert.
  - pose proof (count_insert fullb _ _ _ c' Hc). rewrite Hsize. destruct (fullb c), (fullb c'); cbn in *; lia.
  - pose proof (count_insert deletedb _ _ _ c' Hc). rewrite Hdel. destruct (deletedb c), (deletedb c'); cbn in *; lia.
  - rewrite (heap_total_insert _ _ _ _ Hc). lia.
Qed.

(** ** The relation to finite maps *)

Definition table_ok (t : SwissTableIndex) m : Prop :=
  exists cells, rep t cells /\ inv (length cells) (home (t_capacity t)) cells m /\
    t_size t + t_deleted_count t <= t_capacity t - t_capacity t / 8.

(** There is room for one more entry. *)
Definition roomy (t : SwissTableIndex) : Prop :=
  t_size t + t_deleted_count t < t_capacity t - t_capacity t / 8.

(** [Full] cells as a list of entries. *)
Fixpoint fulls cells : list (list Z * RecordRef) :=
  match cells with
  | [] => []
  | Full k r :: cells => (k, r) :: fulls cells
  | _ :: cells => fulls cells
  end.

Lemma elem_of_fulls cells k r : (k, r) ∈ fulls cells <-> exists i, cells !! i = Some (Full k r).
Proof.
  induction cells as [|c cells IH]; cbn.
  { rewrite elem_of_nil. split; [done|]. by intros [? ?]. }
  trans (c = Full k r \/ exists i, cells !! i = Some (Full k r)).
  - destruct c; rewrite ?elem_of_cons, ?IH; naive_solver.
  - split; [intros [->|[i Hi]]; [by exists 0%nat|by exists (S i)]|].
    intros [[|i] Hi]; cbn in Hi; [left; congruence|right; eauto].
Qed.

Lemma fulls_NoDup cells : (forall i j k v w, cells !! i = Some (Full k v) -> cells !! j = Some (Full k w) -> i = j) ->
  NoDup (fulls cells).*1.
Proof.
  induction cells as [|c cells IH]; intros Hu; cbn; [constructor|].
  assert (NoDup (fulls cells).*1) as Hn.
  { apply IH. intros i j k v w Hi Hj. pose proof (Hu (S i) (S j) k v w Hi Hj). lia. }
  destruct c as [| |k r]; cbn; [done..|]. constructor; [|done].
  intros ([k' r'] & ? & Hin)%list_elem_of_fmap. cbn in *. subst. apply elem_of_fulls in Hin as [i Hi].
  by pose proof (Hu 0%nat (S i) k' r r' eq_refl Hi).
Qed.

Lemma inv_fulls cap h cells m : inv cap h cells m ->
  NoDup (fulls cells).*1 /\ list_to_map (fulls cells) = m.
Proof.
  intros [Hl Hs Hc Hu Hp]. assert (Hn : NoDup (fulls cells).*1) by (apply fulls_NoDup; exact Hu).
  split; [done|]. apply map_eq. intros k. apply option_eq. intros r.
  rewrite <- elem_of_list_to_map by done. rewrite elem_of_fulls. split.
  - intros [i Hi]. by eapply Hs.
  - intros Hm. by apply Hc.
Qed.

Lemma count_fulls cells : count fullb cells = length (fulls cells).
Proof. induction cells as [|[| |] cells IH]; cbn; lia. Qed.

Lemma table_size t m : table_ok t m -> t_size t = Z.of_nat (size m).
Proof.
  intros (cells & Hrep & Hinv & _). destruct (inv_fulls _ _ _ _ Hinv) as [Hn <-].
  rewrite (rep_size _ _ Hrep), count_fulls, map_size_list_to_map; done.
Qed.

Lemma table_ok_find t m key : table_ok t m -> bytes_ok key ->
  find t (hashed key) = Ok (m !! key).
Proof.
  intros (cells & Hrep & Hinv & _) Hk. unfold find, hashed. cbn [hk_key hk_hash].
  rewrite (find_slot_index_spec _ _ Hrep). cbn [bindR].
  destruct (rep_groups _ _ Hrep) as (G & [HG Hl] & _).
  pose proof (search_correct (length cells) _ cells m key ltac:(lia) Hinv) as Hs.
  destruct (search _ _ _) as [i|i|]; [|by rewrite Hs..]. destruct Hs as (v & Hi & ->).
  destruct (rep_at _ _ Hrep _ _ Hi) as (control & slot & _ & Hslot & Hat).
  rewrite (vec_get_Some _ _ _ Hslot). cbn in *. do 2 f_equal. by destruct Hat as (_ & -> & _).
Qed.

(** *** Insertion *)

(** Where the probe for an insertion ends. *)
Lemma insert_index t cells m key : rep t cells -> inv (length cells) (home (t_capacity t)) cells m -> roomy t ->
  exists i, insert_probe (Z.to_nat (t_capacity t / kSwissGroupSize)) t key (hash_of routing key)
      (h2 (mixed key)) (probe_start (t_capacity t) (mixed key)) 0 None = Ok (Z.of_nat i) /\
    ((exists r, cells !! i = Some (Full key r) /\ m !! key = Some r) \/
     (m !! key = None /\ (cells !! i = Some Empty \/ cells !! i = Some Deleted) /\
      forall ref, inv (length cells) (home (t_capacity t)) (<[i := Full key ref]> cells) (<[key := ref]> m))).
Proof.
  intros Hrep Hinv Hroom. destruct (rep_groups _ _ Hrep) as (G & [HG Hl] & Hcap & Hmax).
  destruct (probe_groups _ _ Hrep) as [Hn Hn']. rewrite Hn.
  destruct (probe_start_group _ _ Hrep (mixed key)) as (p & Hp & Hp0 & Hs).
  pose proof (insert_probe_spec _ _ Hrep (length cells / 8) key (Z.to_nat p) 0 None Hp ltac:(lia) ltac:(lia)) as E.
  replace (Z.to_nat p * 8)%nat with (home (t_capacity t) key) in E by (unfold home; lia).
  rewrite Hs. replace (p * 8) with (Z.of_nat (home (t_capacity t) key)) by (unfold home; lia).
  change (Z.of_nat <$> None) with (@None Z) in E. rewrite E, Hn'.
  fold (order (length cells) (home (t_capacity t) key)). clear E.
  assert (Hempty : (0 < count emptyb cells)%nat).
  { pose proof (count_total cells). unfold roomy in Hroom. rewrite (rep_size _ _ Hrep), (rep_deleted _ _ Hrep) in Hroom.
    pose proof (Z.div_pos (t_capacity t) 8). lia. }
  pose proof (search_insert_total (length cells) (home (t_capacity t)) cells key None eq_refl Hempty) as Htot.
  pose proof (search_correct (length cells) _ cells m key ltac:(lia) Hinv) as Hsearch.
  destruct (search_insert _ _ _ _) as [i|i|] eqn:E; [|clear Htot|done].
  - exists i. split; [done|]. left. apply search_insert_found in E. rewrite E in Hsearch.
    destruct Hsearch as (v & ? & ?). by exists v.
  - apply search_insert_missing in E as ((i' & E) & d & Hd & Hfree & Hpath). rewrite E in Hsearch.
    exists i. split; [done|]. right. split_and!; [done..|]. intros ref.
    apply order_lookup in Hd as [Hd ->]. apply (inv_insert _ _ _ _ _ _ _ d); [done..| |done].
    intros e He. apply (Hpath e); [done|]. apply order_lookup. split; [lia|done].
Qed.

(** Filling the free cell the probe ended at. *)
Lemma place_spec t cells m i c control key ref : rep t cells -> cells !! i = Some c ->
  t_control t !! i = Some control -> free c = true -> m !! key = None -> roomy t -> bytes_ok key ->
  zlen key < kInlineKeyMask ->
  inv (length cells) (home (t_capacity t)) cells m ->
  inv (length cells) (home (t_capacity t)) (<[i := Full key ref]> cells) (<[key := ref]> m) ->
  runs ((set_key (Z.of_nat i) key (hash_of routing key) ;;!
     let! t := getM in
     let! slot := liftM (vec_get (t_slots t) (Z.of_nat i)) in
     let! slots := liftM (vec_set (t_slots t) (Z.of_nat i)
                           (mkSlot ref (slot_storage slot) (key_hash_tag slot) (key_size_and_mode slot))) in
     let! control := liftM (vec_set (t_control t) (Z.of_nat i) (h2 (mixed key))) in
     modifyM (fun t => set_cell t control slots) ;;!
     modifyM (fun t => set_counts t (u64 (t_size t + 1))
                (if deletedb c then u64 (t_deleted_count t - 1) else t_deleted_count t)) ;;!
     retM (mkMutation true None)) t)
    (fun r t' => r = mkMutation true None /\ table_ok t' (<[key := ref]> m) /\ t_capacity t' = t_capacity t /\
       t_deleted_count t' <= t_deleted_count t /\ t_heap_dead_bytes t' = t_heap_dead_bytes t /\
       t_heap_live_bytes t' = t_heap_live_bytes t + key_use key)
    (fun e t' => e = arithmetic_overflow /\ table_ok t' m /\ umax 32 < arena_bump (t_heap_keys t) + key_use key).
Proof.
  intros Hrep Hc Hctl Hfree Hm Hroom Hk Hlen Hinv Hinv'.
  destruct (rep_at _ _ Hrep _ _ Hc) as (control' & slot0 & Hctl' & Hslot & Hat). simplify_eq.
  assert (i < length (t_control t))%nat by by eapply lookup_lt_Some.
  assert (i < length (t_slots t))%nat by by eapply lookup_lt_Some.
  destruct (rep_groups _ _ Hrep) as (G & _ & Hcap & Hmax).
  pose proof (rep_size _ _ Hrep) as Hsize. pose proof (rep_deleted _ _ Hrep) as Hdel. unfold roomy in Hroom.
  pose proof (Z.div_pos (t_capacity t) 8 ltac:(lia) ltac:(lia)).
  assert (Hcnt : Z.b2z (deletedb c) <= t_deleted_count t).
  { pose proof (count_insert deletedb cells i c Empty Hc) as E. destruct (deletedb c); cbn in *; lia. }
  eapply runs_bindM_err; [by eapply set_key_spec| |].
  - intros [] t1 (slot & heap & Hin & Htag & Hext & Hsane & Hbump & ->). steps.
    cbn [t_slots t_control set_heap set_cell t_size t_deleted_count].
    rewrite (vec_get_Some _ _ slot) by by rewrite list_lookup_insert_eq. steps.
    rewrite vec_set_in by by rewrite length_insert. steps. rewrite vec_set_in by done. steps.
    rewrite list_insert_insert_eq. cbn [t_size t_deleted_count set_heap set_cell].
    rewrite (wrap_small 64 (t_size t + 1)) by (width; lia).
    assert ((if deletedb c then u64 (t_deleted_count t - 1) else t_deleted_count t) =
      t_deleted_count t - Z.b2z (deletedb c) + Z.b2z (@deletedb (list Z) RecordRef (Full key ref))) as ->.
    { destruct (deletedb c); cbn in *; [rewrite wrap_small; width; lia|lia]. }
    unfold runs, retM. cbn [t_capacity t_deleted_count t_heap_dead_bytes t_heap_live_bytes set_counts set_cell set_heap].
    split_and!; [done| |done|destruct (deletedb c); cbn; lia|done..].
    exists (<[i := Full key ref]> cells). split_and!; [|by rewrite length_insert|].
    + refine (rep_update t cells i c (Full key ref) (h2 (mixed key)) (mkSlot ref (slot_storage slot)
        (key_hash_tag slot) (key_size_and_mode slot)) heap _ _ _ _ Hrep Hc Hext Hsane _ _ _ _ _ _).
      * done.
      * destruct c; done || (cbn; lia).
      * done.
      * unfold key_use. destruct c; done || (cbn; lia).
      * pose proof (rep_dead _ _ Hrep). cbn. lia.
      * apply Hrep.
    + cbn. destruct (deletedb c); cbn; lia.
  - intros e t1 (-> & Hbig & ->). split_and!; [done| |lia].
    exists cells. split_and!; [|done|cbn; lia].
    assert (Hsame : <[i := c]> cells = cells) by by apply list_insert_id.
    assert (Hrep' : rep (set_counts (set_heap (set_cell t (<[i := control]> (t_control t))
        (<[i := new_slot]> (t_slots t))) (t_heap_keys t) (t_heap_live_bytes t) (t_heap_dead_bytes t))
        (t_size t) (t_deleted_count t)) (<[i := c]> cells)).
    { apply (rep_update _ _ _ c); try done; try lia; [by exists []; rewrite app_nil_r|split; apply Hrep|
        by destruct c|apply Hrep..]. }
    by rewrite Hsame, list_insert_id in Hrep' by done.
Qed.

(** Inserting once the table has room. *)
Lemma insert_grown ins t t' m key ref : grow_if_needed ins t = (Ok tt, t') -> t_seed t = seed ->
  table_ok t' m -> roomy t' -> bytes_ok key -> zlen key < kInlineKeyMask ->
  runs (insert_or_assign_body ins (hashed key) ref t)
    (fun r t'' => table_ok t'' (<[key := ref]> m) /\
       r = mkMutation (bool_decide (m !! key = None)) (m !! key) /\
       t_capacity t'' = t_capacity t' /\ t_deleted_count t'' <= t_deleted_count t' /\
       t_heap_dead_bytes t'' = t_heap_dead_bytes t' /\
       t_heap_live_bytes t'' = t_heap_live_bytes t' +
         (if bool_decide (m !! key = None) then key_use key else 0))
    (fun e t'' => e = arithmetic_overflow /\ table_ok t'' m /\ m !! key = None /\
       umax 32 < arena_bump (t_heap_keys t') + key_use key).
Proof.
  intros Hgrow Hseed (cells & Hrep & Hinv & Hocc) Hroom Hk Hlen.
  destruct (insert_index _ _ _ key Hrep Hinv Hroom) as (i & Hprobe & Hcase).
  assert (exists c, cells !! i = Some c) as [c Hc] by naive_solver.
  destruct (rep_at _ _ Hrep _ _ Hc) as (control & slot & Hctl & Hslot & Hat).
  assert (i < length (t_control t'))%nat by by eapply lookup_lt_Some.
  assert (i < length (t_slots t'))%nat by by eapply lookup_lt_Some.
  destruct (cell_tests _ _ _ _ Hat) as [Te Td]. unfold insert_or_assign_body. cbn [hashed hk_key hk_hash].
  replace (zlen key >=? kInlineKeyMask) with false by lia.
  unfold find_insert_index. steps. rewrite Hseed. fold (mixed key). rewrite (bindM_Ok _ _ _ _ _ Hgrow). steps.
  rewrite Hprobe. steps. rewrite (vec_get_Some _ _ _ Hctl). steps. rewrite Te, Td.
  destruct Hcase as [(r & Hfull & Hmk)|(Hmk & Hfree & Hinv')].
  - simplify_eq. cbn [emptyb deletedb orb]. steps. rewrite (vec_get_Some _ _ _ Hslot). steps.
    rewrite vec_set_in by done. steps. unfold runs, retM. rewrite Hmk, bool_decide_eq_false_2 by done.
    cbn [t_capacity t_deleted_count t_heap_dead_bytes t_heap_live_bytes set_cell t_control].
    destruct Hat as (Hh & Href & Htag & Hin & Hb).
    split_and!; [|by rewrite Href|lia..]. exists (<[i := Full key ref]> cells).
    split_and!; [|by rewrite length_insert; eapply inv_assign|done].
    assert (Hrep' : rep (set_counts (set_heap (set_cell t' (<[i := control]> (t_control t'))
        (<[i := mkSlot ref (slot_storage slot) (key_hash_tag slot) (key_size_and_mode slot)]> (t_slots t')))
        (t_heap_keys t') (t_heap_live_bytes t') (t_heap_dead_bytes t'))
        (t_size t') (t_deleted_count t')) (<[i := Full key ref]> cells)).
    { apply (rep_update _ _ _ _ (Full key ref) _ _ _ _ _ _ _ Hrep Hfull); try (cbn; lia); try apply Hrep.
      - exists []. by rewrite app_nil_r.
      - split; apply Hrep.
      - done. }
    by rewrite list_insert_id in Hrep' by done.
  - assert (emptyb c || deletedb c = true) as -> by (destruct Hfree; by simplify_eq).
    assert (free c = true) by (destruct Hfree; by simplify_eq).
    eapply runs_weaken; [eapply (place_spec t' cells m i c control); eauto|..].
    + intros r t'' (-> & Hok & Hrest). rewrite Hmk, bool_decide_eq_true_2 by done. done.
    + intros e t'' (-> & Hok & Hbig). done.
Qed.

(** *** Growth *)

Lemma occupancy_facts t m : table_ok t m ->
  effective_occupancy t = t_size t + t_deleted_count t /\ maximum_occupancy t = t_capacity t - t_capacity t / 8 /\
  0 <= t_size t /\ 0 <= t_deleted_count t /\ 8 <= t_capacity t < 2 ^ 64 /\ 1 <= t_capacity t / 8 /\
  t_size t + t_deleted_count t <= t_capacity t - t_capacity t / 8.
Proof.
  intros (cells & Hrep & _ & Hocc). destruct (rep_groups _ _ Hrep) as (G & [HG Hl] & Hcap & Hmax).
  pose proof (rep_size _ _ Hrep) as Hsize. pose proof (rep_deleted _ _ Hrep) as Hdel.
  assert (1 <= t_capacity t / 8) by (apply Z.div_le_lower_bound; lia).
  unfold effective_occupancy, maximum_occupancy. rewrite !wrap_small by (width; lia). lia.
Qed.

Lemma grow_none ins t m : table_ok t m -> roomy t -> t_deleted_count t = 0 ->
  grow_if_needed ins t = (Ok tt, t).
Proof.
  intros Hok Hroom Hd. destruct (occupancy_facts _ _ Hok) as (E1 & E2 & ?). unfold roomy in Hroom.
  unfold grow_if_needed. steps. unfold tombstone_rebuild_beneficial. rewrite E1, E2, Hd.
  replace (t_capacity t =? 0) with false by lia.
  replace ((t_size t >? t_capacity t) || (0 >? t_capacity t - t_size t)) with false by lia.
  replace (0 >=? Z.max kSwissMinimumDeletedRebuild (t_capacity t / 4)) with false
    by (unfold kSwissMinimumDeletedRebuild, kSwissGroupSize; lia). cbn [andb].
  by replace (t_size t + 0 <? t_capacity t - t_capacity t / 8) with true by lia.
Qed.

Lemma normalize_loop_spec fuel k n : 3 <= k < 64 -> 64 - k <= Z.of_nat fuel -> n <= size_max ->
  match normalize_loop fuel (2 ^ k) n with
  | Ok c => exists k', 3 <= k' < 64 /\ c = 2 ^ k' /\ n <= c /\ (c = 2 ^ k \/ c < 2 * n)
  | Err e => e = arithmetic_overflow /\ 2 ^ 63 < n
  | Stuck _ => False
  end.
Proof.
  revert k. induction fuel as [|fuel IH]; intros k Hk Hf Hn; [lia|]. cbn [normalize_loop].
  destruct (Z.ltb_spec (2 ^ k) n); cbn [negb]; [|by exists k; auto with lia].
  pose proof (Z.pow_pos_nonneg 2 k ltac:(lia) ltac:(lia)).
  destruct (Z.gtb_spec (2 ^ k) (size_max / 2)) as [Hbig|Hsmall].
  - split; [done|]. assert (2 ^ 63 <= 2 ^ k); [|lia].
    assert (size_max / 2 = 2 ^ 63 - 1) as E by done. lia.
  - assert (k <> 63) by (intros ->; done).
    assert (2 ^ (k + 1) = 2 * 2 ^ k) as E by (rewrite Z.pow_add_r by lia; lia).
    pose proof (Z.pow_lt_mono_r 2 (k + 1) 64).
    rewrite Z.shiftl_mul_pow2 by lia. replace (2 ^ k * 2 ^ 1) with (2 ^ (k + 1)) by lia. rewrite wrap_small by (width; lia).
    specialize (IH (k + 1) ltac:(lia) ltac:(lia) Hn). destruct (normalize_loop _ _ _); [|done..].
    destruct IH as (k' & ? & -> & ? & [E'|?]); exists k'; split_and!; [lia..|right; lia].
Qed.

(** The capacity for a number of slots: the least power of two, from a group up. *)
Lemma normalize_spec n : n <= size_max ->
  match normalize_capacity n with
  | Ok c => exists k, 3 <= k < 64 /\ c = 2 ^ k /\ n <= c /\ (c = 8 \/ c < 2 * n)
  | Err e => e = arithmetic_overflow /\ 2 ^ 63 < n
  | Stuck _ => False
  end.
Proof. intros Hn. apply (normalize_loop_spec 64 3 n); [lia|cbn; lia|done]. Qed.

Lemma normalize_power k : 3 <= k < 64 -> normalize_capacity (2 ^ k) = Ok (2 ^ k).
Proof.
  intros Hk. pose proof (Z.pow_lt_mono_r 2 k 64). pose proof (Z.pow_le_mono_r 2 3 k).
  pose proof (normalize_spec (2 ^ k) ltac:(width; lia)) as Hn.
  destruct (normalize_capacity (2 ^ k)) as [c|e|f]; [|destruct Hn as [_ Hn]..|done].
  - destruct Hn as (k' & Hk' & -> & Hle & Hlt). do 2 f_equal. destruct Hlt as [E|Hlt].
    + assert (k' = 3) as -> by (apply (Z.pow_inj_r 2); [lia..|done]). pose proof (Z.pow_lt_mono_r 2 3 k). lia.
    + apply Z.pow_le_mono_r_iff in Hle; [|lia..].
      replace (2 * 2 ^ k) with (2 ^ (k + 1)) in Hlt by (rewrite Z.pow_add_r by lia; lia).
      apply Z.pow_lt_mono_r_iff in Hlt; lia.
  - pose proof (Z.pow_le_mono_r 2 k 63). lia.
Qed.

(** *** Rebuilding *)

Lemma empty_ok k : 3 <= k < 64 -> table_ok (empty_table routing seed (2 ^ k)) ∅.
Proof.
  intros Hk. pose proof (Z.pow_pos_nonneg 2 k ltac:(lia) ltac:(lia)). set (n := Z.to_nat (2 ^ k)).
  exists (replicate n Empty). split_and!.
  - split; cbn; try done; try (exists k; lia); fold n.
    + clearbody n. clear. induction n; cbn; constructor; done.
    + rewrite length_replicate. lia.
    + by rewrite count_replicate, Nat.mul_0_r.
    + by rewrite count_replicate, Nat.mul_0_r.
    + clearbody n. clear. induction n; cbn; lia.
  - rewrite length_replicate. apply inv_empty.
  - cbn. pose proof (Z.div_le_upper_bound (2 ^ k) 8 (2 ^ k)). lia.
Qed.

Lemma table_seed t m : table_ok t m -> t_seed t = seed.
Proof. intros (cells & Hrep & _). apply Hrep. Qed.
Lemma table_routing t m : table_ok t m -> t_routing t = routing.
Proof. intros (cells & [] & _). done. Qed.
Lemma table_bump t m : table_ok t m ->
  t_heap_live_bytes t + t_heap_dead_bytes t = arena_bump (t_heap_keys t) /\ 0 <= t_heap_live_bytes t /\
  0 <= t_heap_dead_bytes t /\ arena_bump (t_heap_keys t) <= umax 32.
Proof.
  intros (cells & Hrep & _). pose proof (heap_total_nonneg cells). rewrite (rep_live _ _ Hrep) at 2.
  split_and!; [apply Hrep|done|apply Hrep|apply Hrep].
Qed.

Lemma key_use_heap key r : heap_use (Full key r) = key_use key.
Proof. done. Qed.
Lemma key_use_le key : key_use key <= zlen key.
Proof. unfold key_use. pose proof (zlen_nonneg key). destruct (_ <=? _); lia. Qed.

(** A table with no tombstones and no dead key bytes, as a rebuild makes it. *)
Definition fresh_table (t : SwissTableIndex) m : Prop :=
  table_ok t m /\ t_deleted_count t = 0 /\ t_heap_dead_bytes t = 0.

Lemma insert_rebuilt_spec t m key ref : fresh_table t m -> m !! key = None -> bytes_ok key ->
  zlen key < kInlineKeyMask -> t_heap_live_bytes t + key_use key <= umax 32 ->
  Z.of_nat (size m) < t_capacity t - t_capacity t / 8 ->
  exists t', insert_rebuilt (hashed key) ref t = (Ok (mkMutation true None), t') /\
    fresh_table t' (<[key := ref]> m) /\ t_capacity t' = t_capacity t /\
    t_heap_live_bytes t' = t_heap_live_bytes t + key_use key.
Proof.
  intros (Hok & Hdel & Hdead) Hm Hk Hlen Hlive Hsize. rewrite <- (table_size _ _ Hok) in Hsize.
  assert (Hroom : roomy t) by (unfold roomy; lia).
  assert (Hgrow := grow_none (insert_or_assign_fuel 0) t m Hok Hroom Hdel).
  pose proof (insert_grown _ _ _ _ _ ref Hgrow (table_seed _ _ Hok) Hok Hroom Hk Hlen) as Hrun.
  change (insert_or_assign_body (insert_or_assign_fuel 0)) with insert_rebuilt in Hrun.
  destruct (insert_rebuilt (hashed key) ref t) as [[r|e|f] t']; cbn [runs] in Hrun; [| |done].
  - rewrite Hm, bool_decide_eq_true_2 in Hrun by done.
    destruct Hrun as (Hok' & -> & Hcap & Hd & Hde & Hli). exists t'.
    destruct (occupancy_facts _ _ Hok') as (_ & _ & _ & ? & _). unfold fresh_table. split_and!; (done || lia).
  - exfalso. destruct Hrun as (_ & _ & _ & Hbig). destruct (table_bump _ _ Hok) as (Hsum & _). lia.
Qed.

Lemma rebuild_loop_spec t heap cells control slots : t_heap_keys t = heap -> t_routing t = routing ->
  zlen (arena_storage heap) <= umax 32 ->
  Forall3 (cell_at heap) cells control slots -> NoDup (fulls cells).*1 ->
  forall rb m, fresh_table rb m -> (forall k, k ∈ (fulls cells).*1 -> m !! k = None) ->
  t_heap_live_bytes rb + heap_total cells <= umax 32 ->
  Z.of_nat (size m + length (fulls cells)) <= t_capacity rb - t_capacity rb / 8 ->
  exists rb', rebuild_loop insert_rebuilt t slots control rb = Ok rb' /\
    fresh_table rb' (list_to_map (fulls cells) ∪ m) /\ t_capacity rb' = t_capacity rb.
Proof.
  intros Hheap Hrt Hmax Hcells. induction Hcells as [|c ctl slot cells control slots Hat Hcells IH];
    intros Hnd rb m Hfresh Hnew Hlive Hsize; cbn [rebuild_loop].
  { exists rb. split; [done|]. cbn. by rewrite (left_id_L ∅ (∪)). }
  destruct (cell_tests _ _ _ _ Hat) as [-> ->]. pose proof (heap_total_nonneg cells).
  destruct c as [| |k r]; cbn [emptyb deletedb orb]; [by apply IH..|]. cbn [fulls] in *.
  cbn in Hnd. apply NoDup_cons in Hnd as [Hk Hnd]. destruct Hat as (_ & Href & _ & Hin & Hb).
  cbn [heap_total] in Hlive. rewrite key_use_heap in Hlive. cbn [length] in Hsize.
  rewrite Hheap, (slot_key_in _ Hmax _ _ Hin). cbn [bindR]. rewrite Hrt, hash_of_Ok by done. cbn [bindR].
  fold (hashed k). rewrite Href.
  assert (Hmk : m !! k = None) by (apply Hnew; cbn; apply elem_of_cons; by left).
  destruct (insert_rebuilt_spec rb m k r) as (rb1 & -> & Hf1 & Hc1 & Hl1); try done; [apply Hin|lia|lia|].
  cbn [bindR inserted negb]. destruct (IH Hnd rb1 (<[k := r]> m)) as (rb' & E & Hf' & Hc'); try done.
  - intros k' Hk'. rewrite lookup_insert_ne by (by intros ->). apply Hnew. cbn. apply elem_of_cons. by right.
  - lia.
  - rewrite map_size_insert_None by done. rewrite Hc1. lia.
  - exists rb'. split_and!; [done| |lia]. cbn. rewrite <- insert_union_l, insert_union_r; [done|].
    by apply not_elem_of_list_to_map_1.
Qed.

Lemma rehash_spec t m n k force : table_ok t m -> normalize_capacity n = Ok (2 ^ k) -> 3 <= k < 64 ->
  (2 ^ k <> t_capacity t \/ force = true) -> t_size t <= 2 ^ k - 2 ^ k / 8 ->
  exists t', rehash insert_rebuilt n force t = (Ok tt, t') /\ fresh_table t' m /\ t_capacity t' = 2 ^ k.
Proof.
  intros Hok Hn Hk Hforce Hfit. unfold rehash. rewrite Hn. steps.
  replace ((2 ^ k =? t_capacity t) && negb force) with false by (destruct Hforce as [|Hf]; [lia|rewrite Hf; lia]).
  pose proof (Z.pow_pos_nonneg 2 k ltac:(lia) ltac:(lia)). pose proof (Z.pow_lt_mono_r 2 k 64).
  pose proof (Z.div_pos (2 ^ k) 8). pose proof (Z.div_le_upper_bound (2 ^ k) 8 (2 ^ k)).
  rewrite (wrap_small 64) by (width; lia). replace (t_size t >? 2 ^ k - 2 ^ k / 8) with false by lia.
  pose proof (table_bump _ _ Hok) as (Hsum & Hl0 & Hd0 & Hmax). pose proof (table_size _ _ Hok) as Hsize.
  unfold arena_reserve. replace (t_heap_live_bytes t >? umax 32) with false by lia. steps.
  destruct Hok as (cells & Hrep & Hinv & _). destruct (inv_fulls _ _ _ _ Hinv) as [Hnd Hm].
  destruct (rep_lengths _ _ Hrep) as [_ Hls].
  rewrite ztake_all by (unfold zlen; rewrite Hls, (rep_capacity _ _ Hrep); lia).
  rewrite (rep_routing _ _ Hrep), (rep_seed _ _ Hrep).
  destruct (rebuild_loop_spec t _ cells (t_control t) (t_slots t) eq_refl (rep_routing _ _ Hrep)
    (rep_heap _ _ Hrep) (rep_cells _ _ Hrep) Hnd (empty_table routing seed (2 ^ k)) ∅) as (rb & -> & Hf & Hc).
  - split; [by apply empty_ok|done].
  - intros. apply lookup_empty.
  - cbn. rewrite <- (rep_live _ _ Hrep). lia.
  - rewrite map_size_empty. cbn [t_capacity empty_table]. rewrite Nat.add_0_l, <- count_fulls, <- (rep_size _ _ Hrep). lia.
  - rewrite Hm, (right_id_L ∅ (∪)) in Hf. steps. eexists. split; [done|]. split; [|done].
    destruct Hf as ((cells' & [] & Hinv' & Hocc) & Hd & Hde). cbn in Hc. unfold fresh_table, table_ok.
    cbn [t_capacity t_size t_deleted_count t_heap_dead_bytes]. split; [|done]. exists cells'.
    rewrite Hc in *. rewrite Hd in *. split_and!; [|done..]. split; cbn; try done; (lia || congruence).
Qed.

Lemma double_room c : 8 <= c -> c - c / 8 < 2 * c - 2 * c / 8.
Proof. intros. divlia. Qed.

Definition same_capacity (t t' : SwissTableIndex) : Prop :=
  t_size t < t_capacity t - t_capacity t / 8 -> t_capacity t' = t_capacity t.

(** Growth makes room; it fails only when the capacity cannot be doubled.  Tombstones
    alone do not change the capacity. *)
Lemma grow_spec t m : table_ok t m ->
  runs (grow_if_needed insert_rebuilt t)
    (fun _ t' => table_ok t' m /\ roomy t' /\ same_capacity t t' /\ (t' = t \/ t_deleted_count t' = 0))
    (fun e t' => e = arithmetic_overflow /\ t' = t /\ t_capacity t > size_max / 2).
Proof.
  intros Hok. destruct (occupancy_facts _ _ Hok) as (E1 & E2 & Hs & Hd & Hcap & Hc8 & Hocc).
  assert (exists k, 3 <= k < 64 /\ t_capacity t = 2 ^ k) as (k & Hk & Ek) by (destruct Hok as (? & [] & _); done).
  unfold grow_if_needed. steps. unfold tombstone_rebuild_beneficial. rewrite E1, E2.
  replace (t_capacity t =? 0) with false by lia.
  replace ((t_size t >? t_capacity t) || (t_deleted_count t >? t_capacity t - t_size t)) with false by lia.
  assert (Hsame : normalize_capacity (t_capacity t) = Ok (2 ^ k)) by (rewrite Ek; by apply normalize_power).
  assert (Hre : t_size t < t_capacity t - t_capacity t / 8 ->
    runs (rehash insert_rebuilt (t_capacity t) true t)
      (fun _ t' => table_ok t' m /\ roomy t' /\ same_capacity t t' /\ (t' = t \/ t_deleted_count t' = 0))
      (fun e t' => e = arithmetic_overflow /\ t' = t /\ t_capacity t > size_max / 2)).
  { intros Hlt. destruct (rehash_spec t m _ k true Hok Hsame Hk) as (t' & -> & Hf & Hc'); [by right|rewrite <- Ek; lia|].
    cbn [runs]. destruct Hf as (Hok' & Hd' & _). split_and!; [done| |intros _; congruence|by right].
    unfold roomy. rewrite (table_size _ _ Hok'), <- (table_size _ _ Hok), Hd', Hc', <- Ek. lia. }
  destruct (_ && (t_deleted_count t >? t_size t)) eqn:Et; [apply Hre; lia|].
  destruct (Z.ltb_spec (t_size t + t_deleted_count t) (t_capacity t - t_capacity t / 8)).
  { cbn [runs retM]. split_and!; auto. by intros _. }
  destruct (_ && negb (t_deleted_count t =? 0)) eqn:Er; [apply Hre; lia|].
  destruct (Z.gtb_spec (t_capacity t) (size_max / 2)) as [|Hhalf]; [cbn [runs failM]; split_and!; [done..|lia]|].
  assert (k <> 63) by (intros ->; rewrite Ek in Hhalf; done).
  assert (2 ^ (k + 1) = 2 * 2 ^ k) as E by (rewrite Z.pow_add_r by lia; lia).
  pose proof (Z.pow_lt_mono_r 2 (k + 1) 64).
  rewrite Z.shiftl_mul_pow2 by lia. replace (t_capacity t * 2 ^ 1) with (2 ^ (k + 1)) by lia.
  rewrite wrap_small by (width; lia).
  assert (Hhalf8 : t_capacity t - t_capacity t / 8 < 2 ^ (k + 1) - 2 ^ (k + 1) / 8)
    by (rewrite E, <- Ek; apply double_room; lia).
  destruct (rehash_spec t m _ (k + 1) false Hok (normalize_power (k + 1) ltac:(lia)) ltac:(lia)) as (t' & -> & Hf & Hc');
    [left; lia|lia|].
  cbn [runs]. destruct Hf as (Hok' & Hd' & _). split_and!; [done| |intros Hlt; exfalso; lia|by right]. unfold roomy.
  rewrite (table_size _ _ Hok'), <- (table_size _ _ Hok), Hd', Hc'. lia.
Qed.

(** A table that has just grown does not grow again. *)
Lemma grow_again t t' m : table_ok t m -> grow_if_needed insert_rebuilt t = (Ok tt, t') ->
  grow_if_needed insert_rebuilt t' = (Ok tt, t').
Proof.
  intros Hok E. pose proof (grow_spec t m Hok) as Hg. rewrite E in Hg. destruct Hg as (Hok' & Hroom & _ & [->|Hd]); [done|].
  by eapply grow_none.
Qed.

(** *** Compaction of the arena *)

Lemma has_heap_key_spec heap c control slot : cell_at heap c control slot ->
  has_heap_key control slot = match c with Full k _ => negb (zlen k <=? kSwissInlineKeyBytes) | _ => false end /\
  (has_heap_key control slot = true -> key_size slot = heap_use c).
Proof.
  intros Hat. unfold has_heap_key. destruct (cell_tests _ _ _ _ Hat) as [-> ->].
  destruct c as [| |k r]; cbn [emptyb deletedb negb andb]; [done..|]. destruct Hat as (_ & _ & _ & Hin & _).
  destruct (key_in_meta _ _ _ Hin) as [-> ->]. pose proof (zlen_nonneg k). cbn [heap_use].
  unfold kSwissInlineKeyBytes. destruct (Z.leb_spec (zlen k) 24); cbn; [done|]. split; [lia|done].
Qed.

Lemma heap_bytes_loop_spec heap cells control slots : Forall3 (cell_at heap) cells control slots ->
  forall n, 0 <= n -> n + heap_total cells <= umax 32 ->
  heap_bytes_loop slots control n = Ok (n + heap_total cells).
Proof.
  induction 1 as [|c ctl slot cells control slots Hat _ IH]; intros n Hn Hmax; cbn [heap_bytes_loop heap_total] in *.
  { by rewrite Z.add_0_r. }
  pose proof (heap_use_nonneg c). pose proof (heap_total_nonneg cells).
  destruct (has_heap_key_spec _ _ _ _ Hat) as [Hh Hs]. destruct (has_heap_key ctl slot) eqn:E.
  - rewrite Hs, wrap_small, IH by (done || (width; lia)). f_equal. lia.
  - replace (heap_use c) with 0 by (destruct c as [| |k r]; [done..|]; cbn; by destruct (zlen k <=? _)).
    by rewrite IH by lia.
Qed.

(** Copying the keys to another arena and moving the slots to it keeps the cells. *)
Lemma copy_keys_spec heap cells control slots : zlen (arena_storage heap) <= umax 32 ->
  Forall3 (cell_at heap) cells control slots -> forall comp, heap_sane comp ->
  arena_bump comp + heap_total cells <= umax 32 ->
  exists comp' offs slots', copy_keys_loop heap slots control comp = Ok (comp', offs) /\
    move_keys_loop slots control offs = Ok slots' /\ heap_extends comp comp' /\ heap_sane comp' /\
    arena_bump comp' = arena_bump comp + heap_total cells /\ Forall3 (cell_at comp') cells control slots'.
Proof.
  intros Hmax. induction 1 as [|c ctl slot cells control slots Hat _ IH]; intros comp Hsane Hfit;
    cbn [copy_keys_loop move_keys_loop heap_total] in *.
  { exists comp, [], []. split_and!; try done; [exists []; by rewrite app_nil_r|lia|constructor]. }
  pose proof (heap_total_nonneg cells). destruct (has_heap_key_spec _ _ _ _ Hat) as [Hh Hs].
  destruct (has_heap_key ctl slot) eqn:E; cbn [negb].
  - destruct c as [| |k r]; [done..|]. destruct Hat as (Hctl & Href & Htag & Hin & Hb). cbn [heap_use] in *.
    rewrite Hs by done. clear Hs. destruct (zlen k <=? _) eqn:Ek; [done|]. destruct Hin as [Hlen Hin].
    rewrite Ek in Hin. destruct Hin as (Hmeta & o & Ho & Ho0 & Hend & Hsl). unfold read_heap_offset. rewrite Ho.
    cbn [bindR]. unfold kSwissInlineKeyBytes in *. rewrite arena_data_in, Hsl by lia. rewrite Z.eqb_refl. cbn [negb].
    rewrite arena_allocate_spec by (done || lia). replace (_ >? umax 32) with false by lia. cbn [bindR].
    destruct Hsane as [Hb1 Hb2]. pose proof (zlen_nonneg (arena_storage comp)).
    rewrite arena_data_in by (cbn; rewrite ?zlen_app, ?zlen_zeros; lia). cbn [arena_storage arena_bump].
    rewrite zlen_slice by (rewrite ?zlen_app, ?zlen_zeros; lia). rewrite Z.eqb_refl. cbn [negb].
    rewrite <- (app_nil_r (zeros (zlen k))), memcpy_over by (rewrite ?zlen_zeros; lia). rewrite app_nil_r. cbn [bindR].
    destruct (IH (mkArena (arena_storage comp ++ k) (arena_bump comp + zlen k)))
      as (comp' & offs & slots' & -> & Hmove & [extra Hext] & Hsane' & Hbump & Hcells).
    { split; cbn; [rewrite zlen_app; lia|lia]. } { cbn. lia. }
    cbn [bindR fst snd]. eexists _, _, _. split_and!; [done|cbn; by rewrite Hmove| |done|cbn in *; lia|].
    { exists (k ++ extra). rewrite Hext. cbn. by rewrite app_assoc. }
    constructor; [|done]. apply (cell_at_extends (mkArena (arena_storage comp ++ k) (arena_bump comp + zlen k)));
      [by exists extra|]. cbn. split_and!; try done. split; [done|]. unfold kSwissInlineKeyBytes. rewrite Ek. cbn.
    split; [done|]. eexists. split_and!; [done|lia|rewrite zlen_app; lia|].
    rewrite slice_app_r, Hb1, Z.sub_diag by lia. by apply slice_whole.
  - assert (heap_use c = 0) as Hu by (destruct c as [| |k r]; [done..|]; cbn; by destruct (zlen k <=? _)).
    destruct (IH comp Hsane) as (comp' & offs & slots' & -> & Hmove & Hext & Hsane' & Hbump & Hcells); [lia|].
    cbn [bindR fst snd]. eexists _, _, _. split_and!; [done|cbn; by rewrite Hmove|done..|lia|].
    constructor; [|done]. destruct c as [| |k r]; [done..|]. destruct Hat as (Hctl & Href & Htag & Hin & Hb).
    cbn. split_and!; try done. destruct Hin as [Hlen Hin]. split; [done|]. cbn in Hh.
    by destruct (zlen k <=? _).
Qed.

Lemma compact_spec t cells : rep t cells ->
  exists t', compact_heap_keys t = (Ok tt, t') /\ rep t' cells /\ t_capacity t' = t_capacity t /\
    t_size t' = t_size t /\ t_deleted_count t' = t_deleted_count t.
Proof.
  intros Hrep. pose proof (heap_total_nonneg cells). pose proof (rep_live _ _ Hrep). pose proof (rep_dead _ _ Hrep).
  pose proof (rep_dead_nonneg _ _ Hrep). pose proof (rep_arena _ _ Hrep). unfold compact_heap_keys. steps.
  rewrite (heap_bytes_loop_spec _ _ _ _ (rep_cells _ _ Hrep)) by lia. steps.
  unfold arena_reserve. replace (0 + heap_total cells >? umax 32) with false by lia. steps.
  destruct (copy_keys_spec _ _ _ _ (rep_heap _ _ Hrep) (rep_cells _ _ Hrep) new_arena)
    as (comp' & offs & slots' & -> & Hmove & _ & [Hs1 Hs2] & Hbump & Hcells); [done|cbn; lia|].
  steps. cbn [fst snd]. rewrite Hmove. steps. eexists. split; [done|]. split; [|done].
  destruct Hrep. split; cbn in *; (done || lia).
Qed.

(** *** Removal *)

Lemma clear_slot_spec t cells i k r : rep t cells -> cells !! i = Some (Full k r) ->
  exists t', clear_slot (Z.of_nat i) t = (Ok tt, t') /\
    rep (set_counts t' (t_size t - 1) (t_deleted_count t')) (<[i := Deleted]> cells) /\ t_size t' = t_size t /\
    t_deleted_count t' = t_deleted_count t + 1 /\ t_capacity t' = t_capacity t.
Proof.
  intros Hrep Hi. destruct (rep_at _ _ Hrep _ _ Hi) as (control & slot & Hctl & Hslot & Hat).
  assert (i < length (t_control t))%nat by by eapply lookup_lt_Some.
  assert (i < length (t_slots t))%nat by by eapply lookup_lt_Some.
  destruct Hat as (_ & Href & _ & Hin & _). destruct (key_in_meta _ _ _ Hin) as [Hks Hki].
  pose proof (heap_total_insert _ _ _ Deleted Hi) as Htot. pose proof (heap_total_nonneg (<[i := Deleted]> cells)).
  pose proof (rep_live _ _ Hrep). pose proof (rep_dead _ _ Hrep). pose proof (rep_dead_nonneg _ _ Hrep).
  pose proof (rep_arena _ _ Hrep). pose proof (zlen_nonneg k).
  assert (Hd : 0 <= t_deleted_count t < 2 ^ 63).
  { destruct (rep_power _ _ Hrep) as (p & Hp & Ep). pose proof (Z.pow_le_mono_r 2 p 63).
    pose proof (count_total cells). pose proof (count_insert fullb _ _ _ Empty Hi). cbn in *.
    rewrite (rep_deleted _ _ Hrep). rewrite (rep_capacity _ _ Hrep) in Ep. lia. }
  unfold clear_slot. steps. rewrite (vec_get_Some _ _ _ Hslot). steps. rewrite Hki, Hks.
  set (dead := if zlen k <=? kSwissInlineKeyBytes then t_heap_dead_bytes t else t_heap_dead_bytes t + zlen k).
  set (live := if zlen k <=? kSwissInlineKeyBytes then t_heap_live_bytes t else t_heap_live_bytes t - zlen k).
  assert (Hfirst : (if negb (zlen k <=? kSwissInlineKeyBytes) && (zlen k >? 0)
    then modifyM (fun t0 => set_heap t0 (t_heap_keys t0)
           (if t_heap_live_bytes t >=? zlen k then t_heap_live_bytes t - zlen k else 0)
           (u64 (t_heap_dead_bytes t0 + zlen k))) else retM tt) t =
    (Ok tt, set_heap t (t_heap_keys t) live dead)).
  { subst live dead. cbn [heap_use] in *. unfold kSwissInlineKeyBytes in *.
    destruct (Z.leb_spec (zlen k) 24); cbn [negb andb]; [by destruct t|].
    replace (zlen k >? 0) with true by lia. replace (t_heap_live_bytes t >=? zlen k) with true by lia.
    unfold modifyM. rewrite wrap_small; [done|width; lia]. }
  rewrite (bindM_Ok _ _ _ _ _ Hfirst). rewrite !vec_set_in by done. steps. unfold modifyM.
  cbn [t_size t_deleted_count set_cell set_heap]. rewrite (wrap_small 64 (_ + 1)) by (width; lia).
  eexists. split; [done|]. split; [|done].
  refine (rep_update t cells i (Full k r) Deleted kSwissDeleted new_slot (t_heap_keys t) live dead _ _ Hrep Hi _ _ _ _ _ _ _ _).
  - exists []. by rewrite app_nil_r.
  - split; apply Hrep.
  - done.
  - cbn. lia.
  - cbn. lia.
  - subst live. cbn. destruct (_ <=? _); lia.
  - subst live dead. destruct (_ <=? _); lia.
  - subst dead. destruct (_ <=? _); lia.
Qed.

Lemma erase_no_compact_spec t m key : table_ok t m -> bytes_ok key ->
  exists t', erase_no_compact (hashed key) t = (Ok (mkMutation false (m !! key)), t') /\
    table_ok t' (delete key m) /\ t_capacity t' = t_capacity t.
Proof.
  intros (cells & Hrep & Hinv & Hocc) Hk. unfold erase_no_compact, hashed. cbn [hk_key hk_hash]. steps.
  rewrite (find_slot_index_spec _ _ Hrep). steps. destruct (rep_groups _ _ Hrep) as (G & [HG Hl] & _).
  pose proof (search_correct (length cells) _ cells m key ltac:(lia) Hinv) as Hs.
  assert (Hnone : m !! key = None -> exists t', retM (mkMutation false None) t =
    (Ok (mkMutation false (m !! key)), t') /\ table_ok t' (delete key m) /\ t_capacity t' = t_capacity t).
  { intros E. exists t. rewrite delete_id, E by done. split_and!; [done| |done]. by exists cells. }
  destruct (search _ _ _) as [i|i|]; [|by apply Hnone..]. destruct Hs as (v & Hi & Hm). rewrite Hm. clear Hnone.
  destruct (rep_at _ _ Hrep _ _ Hi) as (control & slot & _ & Hslot & Hat).
  rewrite (vec_get_Some _ _ _ Hslot). steps. destruct Hat as (_ & -> & _).
  destruct (clear_slot_spec _ _ _ _ _ Hrep Hi) as (t' & E & Hrep' & Hsz & Hdel & Hcap).
  rewrite (bindM_Ok _ _ _ _ _ E). steps. eexists. split; [done|].
  assert (0 < t_size t < 2 ^ 64).
  { destruct (rep_power _ _ Hrep) as (p & Hp & Ep). pose proof (Z.pow_lt_mono_r 2 p 64).
    pose proof (count_total cells). pose proof (count_insert fullb _ _ _ Empty Hi). cbn in *.
    rewrite (rep_size _ _ Hrep). rewrite (rep_capacity _ _ Hrep) in Ep. lia. }
  rewrite Hsz, wrap_small by (width; lia). split; [|exact Hcap]. exists (<[i := Deleted]> cells). split_and!; [done| |].
  - rewrite length_insert. cbn [t_capacity set_counts]. rewrite Hcap. by eapply inv_delete.
  - cbn [t_size t_deleted_count t_capacity set_counts]. rewrite Hcap. lia.
Qed.

Lemma maybe_compact_spec t m : table_ok t m ->
  exists t', ignoreM maybe_compact_heap_keys t = (Ok tt, t') /\ table_ok t' m /\ t_capacity t' = t_capacity t.
Proof.
  intros (cells & Hrep & Hinv & Hocc). unfold ignoreM, maybe_compact_heap_keys. steps.
  destruct (t_heap_dead_bytes t =? 0); [exists t; split_and!; [done|by exists cells|done]|].
  destruct (Z.eqb_spec (t_heap_live_bytes t) 0) as [E0|].
  - eexists. split_and!; [done| |done]. exists cells. split_and!; [|done..]. rewrite (rep_live _ _ Hrep) in E0.
    destruct Hrep as [Hr Hse Hcells Hcap Hpow Hsize Hdel Hbump Hmax Hlive Hsum Hdead].
    split; cbn; try done; [|lia]. clear -Hcells E0.
    induction Hcells as [|c ctl slot cells control slots Hat _ IH]; constructor.
    + cbn in E0. pose proof (heap_use_nonneg c). pose proof (heap_total_nonneg cells).
      destruct c as [| |k r]; [done..|]. destruct Hat as (? & ? & ? & [Hlen Hin] & ?). cbn. split_and!; try done.
      split; [done|]. cbn in E0. destruct (zlen k <=? kSwissInlineKeyBytes) eqn:E; [done|].
      unfold kSwissInlineKeyBytes in E. lia.
    + apply IH. cbn in E0. pose proof (heap_use_nonneg c). pose proof (heap_total_nonneg cells). lia.
  - destruct (_ || _); [exists t; split_and!; [done|by exists cells|done]|].
    destruct (compact_spec _ _ Hrep) as (t' & -> & Hrep' & Hc & Hs & Hd). exists t'. split_and!; [done| |done].
    exists cells. rewrite Hc, Hs, Hd. done.
Qed.

Lemma erase_exact t m key : table_ok t m -> bytes_ok key ->
  exists t', erase (hashed key) t = (Ok (mkMutation false (m !! key)), t') /\ table_ok t' (delete key m) /\
    t_capacity t' = t_capacity t.
Proof.
  intros Hok Hk. destruct (erase_no_compact_spec _ _ _ Hok Hk) as (t1 & E & Hok1 & Hc1). unfold erase.
  rewrite (bindM_Ok _ _ _ _ _ E). cbn [previous]. destruct (m !! key).
  - destruct (maybe_compact_spec _ _ Hok1) as (t2 & E2 & Hok2 & Hc2). rewrite (bindM_Ok _ _ _ _ _ E2).
    exists t2. split_and!; [done..|congruence].
  - by exists t1.
Qed.
Lemma erase_spec t m key : table_ok t m -> bytes_ok key ->
  exists t', erase (hashed key) t = (Ok (mkMutation false (m !! key)), t') /\ table_ok t' (delete key m).
Proof. intros Hok Hk. destruct (erase_exact t m key Hok Hk) as (t' & E & Hok' & _). by exists t'. Qed.

(** *** Insertion and preparation *)

Lemma insert_exact t m key ref : table_ok t m -> bytes_ok key ->
  runs (insert_or_assign (hashed key) ref t)
    (fun r t' => table_ok t' (<[key := ref]> m) /\ r = mkMutation (bool_decide (m !! key = None)) (m !! key) /\
       same_capacity t t')
    (fun e t' => table_ok t' m /\
       (e = invalid_argument /\ kInlineKeyMask <= zlen key \/
        e = arithmetic_overflow /\
          (t_capacity t > size_max / 2 \/ m !! key = None /\ kSwissInlineKeyBytes < zlen key))).
Proof.
  intros Hok Hk. change insert_or_assign with (insert_or_assign_body insert_rebuilt).
  destruct (Z.geb_spec (zlen key) kInlineKeyMask) as [Hlong|Hshort].
  { unfold insert_or_assign_body. cbn [hashed hk_key]. replace (zlen key >=? kInlineKeyMask) with true by lia. split; [done|left; split; [done|lia]]. }
  pose proof (grow_spec t m Hok) as Hgrow. destruct (grow_if_needed insert_rebuilt t) as [[[]|e|f] t1] eqn:E; [| |done].
  - destruct Hgrow as (Hok1 & Hroom & Hcap & _). eapply runs_weaken.
    + by apply (insert_grown insert_rebuilt t t1 m key ref E (table_seed _ _ Hok) Hok1 Hroom Hk).
    + intros r t' (? & -> & Hc & _). split_and!; [done..|]. intros Hlt. rewrite Hc. by apply Hcap.
    + intros e t' (-> & ? & Hm & Hbig). split; [done|]. right. split; [done|]. right. split; [done|].
      destruct (table_bump _ _ Hok1) as (_ & _ & _ & Hmax). unfold key_use in Hbig.
      destruct (Z.leb_spec (zlen key) kSwissInlineKeyBytes); lia.
  - destruct Hgrow as (-> & -> & Hcap). unfold insert_or_assign_body. cbn [hashed hk_key hk_hash].
    replace (zlen key >=? kInlineKeyMask) with false by lia. unfold find_insert_index. steps.
    rewrite (bindM_Err _ _ _ _ _ E). split; [done|]. right. split; [done|]. by left.
Qed.
Lemma insert_spec t m key ref : table_ok t m -> bytes_ok key ->
  runs (insert_or_assign (hashed key) ref t)
    (fun r t' => table_ok t' (<[key := ref]> m) /\ r = mkMutation (bool_decide (m !! key = None)) (m !! key))
    (fun e t' => table_ok t' m /\
       (e = invalid_argument /\ kInlineKeyMask <= zlen key \/
        e = arithmetic_overflow /\
          (t_capacity t > size_max / 2 \/ m !! key = None /\ kSwissInlineKeyBytes < zlen key))).
Proof. intros Hok Hk. eapply runs_weaken; [by apply (insert_exact t m)|naive_solver|done]. Qed.

Lemma seventh_room n c : 0 <= n -> 0 <= c -> c mod 8 = 0 ->
  n + (n / 7 + (if n mod 7 =? 0 then 0 else 1)) <= c -> n <= c - c / 8.
Proof. intros. destruct (Z.eqb_spec (n mod 7) 0); divlia. Qed.

(** Reserving keeps the entries and leaves room for [count] of them beside the
    tombstones; the table is the same or made anew. *)
Lemma reserve_room t m count : table_ok t m -> is_u64 count ->
  runs (reserve count t)
    (fun _ t' => (table_ok t' m /\ count + t_deleted_count t' <= t_capacity t' - t_capacity t' / 8) /\
       (t' = t \/ fresh_table t' m))
    (fun e t' => e = arithmetic_overflow /\ t' = t /\ 2 ^ 63 < count + count / 7 + 1).
Proof.
  intros Hok Hc. destruct (occupancy_facts _ _ Hok) as (E1 & E2 & Hs & Hd & Hcap & Hc8 & Hocc).
  assert (exists k, 3 <= k < 64 /\ t_capacity t = 2 ^ k) as (k & Hk & Ek) by (destruct Hok as (? & [] & _); done).
  unfold reserve. steps.
  replace ((t_size t >? t_capacity t) || (t_deleted_count t >? t_capacity t - t_size t)) with false by lia.
  set (extra := count / 7 + (if count mod 7 =? 0 then 0 else 1)).
  assert (Hx : 0 <= extra <= count / 7 + 1).
  { subst extra. pose proof (Z.div_pos count 7). width. destruct (_ =? 0); lia. }
  destruct (Z.gtb_spec extra (size_max - count)) as [Hbig|Hfit].
  { cbn. split_and!; [done..|]. width. lia. }
  unfold kSwissGroupSize. pose proof (normalize_spec (Z.max (count + extra) 8) ltac:(width; lia)) as Hn.
  destruct (normalize_capacity (Z.max (count + extra) 8)) as [needed|e|f]; [|destruct Hn as [-> Hn]|done].
  2:{ cbn. split_and!; [done..|]. width. lia. }
  destruct Hn as (k' & Hk' & -> & Hle & _). steps. replace (t_capacity t =? 0) with false by lia.
  assert (Hmod : forall j, 3 <= j -> 2 ^ j mod 8 = 0).
  { intros j Hj. replace j with ((j - 3) + 3) by lia. rewrite Z.pow_add_r by lia. by apply Z.mod_mul. }
  assert (Hroom : count <= 2 ^ k' - 2 ^ k' / 8)
    by (apply seventh_room; [width; lia|lia|apply Hmod; lia|fold extra; lia]).
  assert (Hfresh : forall t', fresh_table t' m -> t_capacity t' = 2 ^ k' \/ 2 ^ k' <= t_capacity t /\ t_capacity t' = t_capacity t ->
    (table_ok t' m /\ count + t_deleted_count t' <= t_capacity t' - t_capacity t' / 8) /\ (t' = t \/ fresh_table t' m)).
  { intros t' Hf Hc'. split; [|by right]. destruct Hf as (Hok' & Hd' & _). split; [done|]. rewrite Hd'. destruct Hc' as [->|[Hle' ->]]; [lia|].
    rewrite Z.add_0_r. transitivity (2 ^ k' - 2 ^ k' / 8); [done|]. clear -Hle'. divlia. }
  destruct (Z.gtb_spec (2 ^ k') (t_capacity t)) as [Hgrow|Hstay].
  - destruct (rehash_spec t m _ k' false Hok (normalize_power k' Hk') Hk') as (t' & -> & Hf & Hcap'); [left; lia| |].
    { transitivity (t_capacity t - t_capacity t / 8); [lia|]. clear -Hgrow. divlia. }
    cbn [runs]. apply Hfresh; [done|by left].
  - assert (Hsame : t_size t <= 2 ^ k - 2 ^ k / 8) by (rewrite <- Ek; lia).
    destruct (Z.gtb_spec count (t_size t)) as [Hmore|].
    + rewrite E1, E2. rewrite (wrap_small 64) by (width; lia). destruct (_ || _) eqn:Er.
      * destruct (rehash_spec t m (t_capacity t) k true Hok) as (t' & -> & Hf & Hcap'); [rewrite Ek; by apply normalize_power|lia|by right|done|].
        cbn [runs]. apply Hfresh; [done|]. right. lia.
      * cbn. split; [|by left]. split; [done|]. lia.
    + cbn. split; [|by left]. split; [done|]. lia.
Qed.

Lemma reserve_spec t m count : table_ok t m -> is_u64 count ->
  runs (reserve count t)
    (fun _ t' => table_ok t' m /\ count + t_deleted_count t' <= t_capacity t' - t_capacity t' / 8)
    (fun e t' => e = arithmetic_overflow /\ t' = t /\ 2 ^ 63 < count + count / 7 + 1).
Proof. intros Hok Hc. eapply runs_weaken; [by apply (reserve_room t m)|by intros [] t' [? _]|done]. Qed.

(** *** Filling a fresh table *)

Lemma reserve_fresh t m count : fresh_table t m -> is_u64 count ->
  runs (reserve count t) (fun _ t' => fresh_table t' m /\ count <= t_capacity t' - t_capacity t' / 8)
    (fun e _ => e = arithmetic_overflow /\ 2 ^ 63 < count + count / 7 + 1).
Proof.
  intros Hf Hc. eapply runs_weaken; [apply (reserve_room t m); [apply Hf|done]| |by intros e t' (? & _ & ?)].
  intros [] t' [[Hok Hroom] Hsame]. assert (Hf' : fresh_table t' m) by (destruct Hsame as [->|]; done).
  split; [done|]. destruct Hf' as (_ & Hd & _). lia.
Qed.

(** A new key goes into a fresh table with room unless the arena is full. *)
Lemma insert_fresh t m key ref : fresh_table t m -> m !! key = None -> bytes_ok key -> zlen key < kInlineKeyMask ->
  Z.of_nat (size m) < t_capacity t - t_capacity t / 8 ->
  runs (insert_or_assign (hashed key) ref t)
    (fun _ t' => fresh_table t' (<[key := ref]> m) /\ t_capacity t' = t_capacity t /\
       t_heap_live_bytes t' = t_heap_live_bytes t + key_use key)
    (fun e _ => e = arithmetic_overflow /\ umax 32 < t_heap_live_bytes t + key_use key).
Proof.
  intros (Hok & Hdel & Hdead) Hm Hk Hlen Hsize. rewrite <- (table_size _ _ Hok) in Hsize.
  assert (Hroom : roomy t) by (unfold roomy; lia). change insert_or_assign with (insert_or_assign_body insert_rebuilt).
  assert (Hgrow := grow_none insert_rebuilt t m Hok Hroom Hdel).
  eapply runs_weaken; [apply (insert_grown _ _ _ _ _ ref Hgrow (table_seed _ _ Hok) Hok Hroom Hk Hlen)| |].
  - intros r t' (Hok' & _ & Hcap & Hd & Hde & Hli). rewrite bool_decide_eq_true_2 in Hli by done.
    destruct (occupancy_facts _ _ Hok') as (_ & _ & _ & ? & _). unfold fresh_table. split_and!; (done || lia).
  - intros e t' (-> & _ & _ & Hbig). split; [done|]. destruct (table_bump _ _ Hok) as (Hsum & _). lia.
Qed.

Lemma empty_live t : table_ok t ∅ -> t_heap_live_bytes t = 0.
Proof.
  intros (cells & Hrep & Hinv & _). rewrite (rep_live _ _ Hrep). destruct (inv_fulls _ _ _ _ Hinv) as [_ Hf].
  assert (Hn : fulls cells = []).
  { destruct (fulls cells) as [|[k r] l]; [done|]. exfalso. assert (H : (list_to_map ((k, r) :: l) : gmap _ _) !! k = None)
      by (rewrite Hf; apply lookup_empty). by rewrite list_to_map_cons, lookup_insert_eq in H. }
  clear -Hn. induction cells as [|c cells IH]; [done|]. destruct c; cbn in *; [auto..|done].
Qed.

(** The bytes of the arena that keys take. *)
Definition keys_use (keys : list (list Z)) : Z := foldr (fun key bytes => key_use key + bytes) 0 keys.

Lemma key_use_nonneg key : 0 <= key_use key.
Proof. unfold key_use. pose proof (zlen_nonneg key). destruct (_ <=? _); lia. Qed.
Lemma keys_use_nonneg keys : 0 <= keys_use keys.
Proof. unfold keys_use. induction keys as [|k keys IH]; cbn; [lia|]. pose proof (key_use_nonneg k). lia. Qed.
Lemma empty_fresh k : 3 <= k < 64 -> fresh_table (empty_table routing seed (2 ^ k)) ∅.
Proof. intros Hk. split; [by apply empty_ok|done]. Qed.

Lemma prepare_allocate_cases a n : 0 <= arena_bump a <= umax 32 -> 0 <= n <= size_max ->
  arena_prepare_allocate a n = Ok tt \/ arena_prepare_allocate a n = Err arithmetic_overflow.
Proof.
  intros Ha Hn. unfold arena_prepare_allocate, arena_reserve. rewrite checked_add_Ok by (width; lia).
  destruct (_ <? _); cbn; [|by right]. destruct (_ >? _); auto.
Qed.

Lemma table_arena t m : table_ok t m -> 0 <= arena_bump (t_heap_keys t) <= umax 32.
Proof. intros Hok. destruct (table_bump _ _ Hok). lia. Qed.

(** Preparing an insertion does not change the map; when it succeeds, there is
    room for the key. *)
Lemma prepare_insert_spec t m key : table_ok t m -> bytes_ok key ->
  runs (prepare_insert (hashed key) t)
    (fun _ t' => table_ok t' m /\ (is_Some (m !! key) \/ roomy t'))
    (fun e t' => table_ok t' m /\ (e = invalid_argument \/ e = arithmetic_overflow)).
Proof.
  intros Hok Hk. unfold prepare_insert. cbn [hashed hk_key hk_hash]. pose proof (zlen_nonneg key).
  destruct (Z.geb_spec (zlen key) kInlineKeyMask) as [|Hlen]; [cbn; auto|]. steps.
  pose proof (table_ok_find t m key Hok Hk) as Hfind. unfold find in Hfind. cbn [hashed hk_key hk_hash] in Hfind.
  destruct (find_slot_index t key (hash_of routing key)) as [[i|]|e|f]; cbn [bindR] in Hfind; [| |done..]; steps.
  { cbn. split; [done|]. left. destruct (vec_get _ _); cbn in Hfind; [|done..]. injection Hfind as <-. eauto. }
  destruct (occupancy_facts _ _ Hok) as (_ & _ & ? & ? & ? & ? & ?).
  replace (t_size t =? size_max) with false by (width; lia).
  eapply runs_bindM_err; [by apply grow_spec|..].
  - intros [] t' (Hok' & Hroom & _). destruct (zlen key >? kSwissInlineKeyBytes); [|cbn; auto]. steps.
    destruct (prepare_allocate_cases (t_heap_keys t') (zlen key) (table_arena _ _ Hok')) as [->| ->]; cbn; auto.
    unfold kInlineKeyMask in *. width. lia.
  - intros e t' (-> & -> & _). auto.
Qed.

(** An insertion that was prepared for a new key succeeds without growth. *)
Lemma prepared_insert_spec t t' m key ref : table_ok t m -> bytes_ok key -> m !! key = None ->
  prepare_insert (hashed key) t = (Ok tt, t') ->
  exists t'', insert_or_assign (hashed key) ref t' = (Ok (mkMutation true None), t'') /\
    table_ok t'' (<[key := ref]> m) /\ t_capacity t'' = t_capacity t'.
Proof.
  intros Hok Hk Hm. unfold prepare_insert. cbn [hashed hk_key hk_hash]. pose proof (zlen_nonneg key).
  destruct (Z.geb_spec (zlen key) kInlineKeyMask) as [|Hlen]; [done|]. steps.
  pose proof (table_ok_find t m key Hok Hk) as Hfind. unfold find in Hfind. cbn [hashed hk_key hk_hash] in Hfind.
  destruct (find_slot_index t key (hash_of routing key)) as [[i|]|e|f]; cbn [bindR] in Hfind; [| |done..]; steps.
  { destruct (vec_get _ _); cbn in Hfind; congruence. }
  destruct (_ =? size_max); [done|]. pose proof (grow_spec t m Hok) as Hg. intros Hprep.
  destruct (grow_if_needed insert_rebuilt t) as [[[]|e|f] t1] eqn:E; [| |done].
  2:{ by rewrite (bindM_Err _ _ _ _ _ E) in Hprep. }
  rewrite (bindM_Ok _ _ _ _ _ E) in Hprep. destruct Hg as (Hok1 & Hroom & _).
  assert (t' = t1 /\ arena_bump (t_heap_keys t1) + key_use key <= umax 32) as [-> Hfit].
  { pose proof (table_arena _ _ Hok1). unfold key_use. destruct (Z.gtb_spec (zlen key) kSwissInlineKeyBytes).
    - replace (zlen key <=? kSwissInlineKeyBytes) with false by lia. rewrite bindM_get in Hprep.
      unfold liftM, arena_prepare_allocate, arena_reserve, kInlineKeyMask in *.
      rewrite checked_add_Ok in Hprep by (width; lia). destruct (_ <? 2 ^ 64); cbn [bindR] in Hprep; [|done].
      destruct (Z.gtb_spec (arena_bump (t_heap_keys t1) + zlen key) (umax 32)); [done|].
      split; [congruence|lia].
    - replace (zlen key <=? kSwissInlineKeyBytes) with true by lia. unfold retM in Hprep. split; [congruence|lia]. }
  change insert_or_assign with (insert_or_assign_body insert_rebuilt).
  pose proof (insert_grown insert_rebuilt t1 t1 m key ref (grow_again _ _ _ Hok E) (table_seed _ _ Hok1) Hok1 Hroom
    Hk Hlen) as Hrun.
  destruct (insert_or_assign_body insert_rebuilt (hashed key) ref t1) as [[r|e|f] t'']; cbn [runs] in Hrun; [| |done].
  - rewrite Hm, bool_decide_eq_true_2 in Hrun by done. exists t''. destruct Hrun as (? & -> & ? & _). done.
  - destruct Hrun as (_ & _ & _ & Hbig). lia.
Qed.

Lemma prepare_batch_spec t m n bytes : table_ok t m -> is_u64 n -> is_u64 bytes ->
  runs (prepare_batch_insert n bytes t)
    (fun _ t' => table_ok t' m /\ t_size t + n + t_deleted_count t' <= t_capacity t' - t_capacity t' / 8)
    (fun e t' => table_ok t' m /\ e = arithmetic_overflow).
Proof.
  intros Hok Hn Hb. unfold prepare_batch_insert. steps.
  destruct (occupancy_facts _ _ Hok) as (_ & _ & ? & ? & ? & ? & ?).
  destruct (Z.gtb_spec n (size_max - t_size t)); [by cbn|].
  rewrite wrap_small by (width; lia). eapply runs_bindM_err; [apply (reserve_spec t m); [done|width; lia]|..].
  - intros [] t' [Hok' Hroom]. steps.
    destruct (prepare_allocate_cases (t_heap_keys t') bytes (table_arena _ _ Hok')) as [->| ->]; cbn; auto.
    width. lia.
  - by intros e t' (-> & -> & _).
Qed.

Lemma entries_loop_spec heap cells control slots : zlen (arena_storage heap) <= umax 32 ->
  Forall3 (cell_at heap) cells control slots -> entries_loop heap slots control = Ok (fulls cells).
Proof.
  intros Hmax. induction 1 as [|c ctl slot cells control slots Hat _ IH]; cbn [entries_loop fulls]; [done|].
  destruct (cell_tests _ _ _ _ Hat) as [-> ->].
  destruct c as [| |k r]; cbn [emptyb deletedb orb]; [done..|]. destruct Hat as (_ & Href & _ & Hin & _).
  rewrite (slot_key_in _ Hmax _ _ Hin), IH. cbn. by rewrite Href.
Qed.

Lemma entries_spec t m : table_ok t m -> exists l, entries t = Ok l /\ NoDup l.*1 /\ l ≡ₚ map_to_list m.
Proof.
  intros (cells & Hrep & Hinv & _). destruct (inv_fulls _ _ _ _ Hinv) as [Hnd <-].
  exists (fulls cells). split_and!; [|done|by rewrite map_to_list_to_map].
  destruct (rep_lengths _ _ Hrep) as [_ Hls]. unfold entries.
  rewrite ztake_all by (unfold zlen; rewrite Hls, (rep_capacity _ _ Hrep); lia).
  apply entries_loop_spec; [by apply rep_heap in Hrep|apply Hrep].
Qed.

(** *** Histories *)

(** The operations a table goes through. *)
Inductive table_op :=
  | op_insert (key : list Z) (ref : RecordRef)
  | op_erase (key : list Z)
  | op_reserve (count : Z)
  | op_prepare (key : list Z)
  | op_prepare_batch (additional_entries additional_heap_key_bytes : Z).

Definition op_ok (op : table_op) : Prop :=
  match op with
  | op_insert key _ | op_erase key | op_prepare key => bytes_ok key
  | op_reserve n => is_u64 n
  | op_prepare_batch n b => is_u64 n /\ is_u64 b
  end.

Definition discardM {S A} (m : Method S A) : Method S unit := m ;;! retM tt.
Definition table_step (op : table_op) : Method SwissTableIndex unit :=
  match op with
  | op_insert key ref => discardM (insert_or_assign (hashed key) ref)
  | op_erase key => discardM (erase (hashed key))
  | op_reserve n => reserve n
  | op_prepare key => prepare_insert (hashed key)
  | op_prepare_batch n b => prepare_batch_insert n b
  end.
(** What a successful operation does to the map. *)
Definition map_step (op : table_op) m : gmap (list Z) RecordRef :=
  match op with
  | op_insert key ref => <[key := ref]> m
  | op_erase key => delete key m
  | _ => m
  end.

(** A sequence of operations, with the map that the successful ones give; the
    caller goes on after an error. *)
Fixpoint table_run (ops : list table_op) (t : SwissTableIndex) m : Result (SwissTableIndex * gmap (list Z) RecordRef) :=
  match ops with
  | [] => Ok (t, m)
  | op :: ops =>
      match table_step op t with
      | (Ok _, t') => table_run ops t' (map_step op m)
      | (Err _, t') => table_run ops t' m
      | (Stuck f, _) => Stuck f
      end
  end.

Lemma table_step_spec t m op : table_ok t m -> op_ok op ->
  runs (table_step op t) (fun _ t' => table_ok t' (map_step op m)) (fun _ t' => table_ok t' m).
Proof.
  intros Hok Hop. destruct op as [key ref|key|n|key|n b]; cbn [op_ok table_step map_step] in *.
  - eapply runs_bindM_err; [by apply (insert_spec t m)|by intros r t' [? _]|by intros e t' [? _]].
  - destruct (erase_spec t m key Hok Hop) as (t' & E & Hok'). unfold discardM. by rewrite (bindM_Ok _ _ _ _ _ E).
  - eapply runs_weaken; [by apply (reserve_spec t m)|by intros r t' [? _]|by intros e t' (_ & -> & _)].
  - eapply runs_weaken; [by apply (prepare_insert_spec t m)|by intros r t' [? _]|by intros e t' [? _]].
  - destruct Hop. eapply runs_weaken; [by apply (prepare_batch_spec t m)|by intros r t' [? _]|by intros e t' [? _]].
Qed.

Lemma table_run_spec ops t m : table_ok t m -> Forall op_ok ops ->
  exists t' m', table_run ops t m = Ok (t', m') /\ table_ok t' m'.
Proof.
  intros Hok Hops. revert t m Hok. induction Hops as [|op ops Hop _ IH]; intros t m Hok; cbn [table_run]; [eauto|].
  pose proof (table_step_spec t m op Hok Hop) as Hs.
  destruct (table_step op t) as [[[]|e|f] t']; cbn in Hs; [by apply IH..|done].
Qed.
End table.

(** ** Properties *)

(** Looking a key up in a table gives what the map it stands for holds. *)
Theorem swiss_find routing seed t m key : table_ok routing seed t m -> bytes_ok key ->
  find t (hashed routing key) = Ok (m !! key).
Proof. apply table_ok_find. Qed.

(** [insert_or_assign] adds or replaces one entry of the map and returns what
    the key was bound to; on an error the map is unchanged, and the error is that
    the key has 2^31 bytes or more, that the capacity cannot be doubled, or that
    the arena for long keys is full. *)
Theorem swiss_insert_refines routing seed t m key ref : table_ok routing seed t m -> bytes_ok key ->
  runs (insert_or_assign (hashed routing key) ref t)
    (fun r t' => table_ok routing seed t' (<[key := ref]> m) /\
       r = mkMutation (bool_decide (m !! key = None)) (m !! key))
    (fun e t' => table_ok routing seed t' m /\
       (e = invalid_argument /\ kInlineKeyMask <= zlen key \/
        e = arithmetic_overflow /\
          (t_capacity t > size_max / 2 \/ m !! key = None /\ kSwissInlineKeyBytes < zlen key))).
Proof. apply insert_spec. Qed.

(** [erase] removes one entry of the map and returns what the key was bound to;
    it cannot fail, whether the arena is compacted or not. *)
Theorem swiss_erase_refines routing seed t m key : table_ok routing seed t m -> bytes_ok key ->
  exists t', erase (hashed routing key) t = (Ok (mkMutation false (m !! key)), t') /\
    table_ok routing seed t' (delete key m).
Proof. apply erase_spec. Qed.

(** [reserve(count)] keeps the map and leaves room for [count] entries beside
    the tombstones; it fails only if that many slots cannot be addressed, and then
    changes nothing. *)
Theorem swiss_reserve_room routing seed t m count : table_ok routing seed t m -> is_u64 count ->
  runs (reserve count t)
    (fun _ t' => table_ok routing seed t' m /\ count + t_deleted_count t' <= t_capacity t' - t_capacity t' / 8)
    (fun e t' => e = arithmetic_overflow /\ t' = t /\ 2 ^ 63 < count + count / 7 + 1).
Proof. apply reserve_spec. Qed.

(** C12. Through any sequence of insertions, removals, reservations and preparations,
    the failed ones included, a new table stays within its invariant, every
    operation ends without a fault, and the table then lists and finds exactly the
    entries of the map. *)
Theorem swiss_history routing seed ops : Forall op_ok ops ->
  exists t m, table_run routing ops (new_table routing seed) ∅ = Ok (t, m) /\
    (forall key, bytes_ok key -> find t (hashed routing key) = Ok (m !! key)) /\
    (exists l, entries t = Ok l /\ l ≡ₚ map_to_list m) /\
    t_size t = Z.of_nat (size m) /\ t_size t + t_deleted_count t < t_capacity t.
Proof.
  intros Hops. destruct (table_run_spec routing seed ops (new_table routing seed) ∅) as (t & m & E & Hok);
    [by apply (empty_ok routing seed 3)|done|].
  exists t, m. destruct (occupancy_facts _ _ _ _ Hok) as (_ & _ & ? & ? & ? & ? & ?).
  destruct (entries_spec _ _ _ _ Hok) as (l & El & _ & Hl). split_and!; [done| |by exists l| |lia].
  - intros key Hk. by eapply table_ok_find.
  - by eapply table_size.
Qed.

(** C40. After [prepare_insert] has succeeded for a key the table does not hold,
    [insert_or_assign] of that key cannot fail and does not change the capacity. *)
Theorem swiss_prepared_insert routing seed t t' m key ref : table_ok routing seed t m -> bytes_ok key ->
  m !! key = None -> prepare_insert (hashed routing key) t = (Ok tt, t') ->
  exists t'', insert_or_assign (hashed routing key) ref t' = (Ok (mkMutation true None), t'') /\
    table_ok routing seed t'' (<[key := ref]> m) /\ t_capacity t'' = t_capacity t'.
Proof. apply prepared_insert_spec. Qed.

(** A table with one long and one short key. *)
Definition sample_routing : WorkerRoutingState := mkRouting RoutingAlgorithm_fnv1a64_v1 kDefaultWorkerHashSeed.
Definition sample_key : list Z := [107; 49].
Definition sample_long_key : list Z := List.map Z.of_nat (seq 1 30).
Definition sample_ref : RecordRef := mkRecordRef 1 4096 64 1 7.
Definition sample_ops : list table_op :=
  [op_insert sample_long_key sample_ref; op_erase sample_long_key; op_insert sample_key sample_ref;
   op_reserve 20; op_insert sample_long_key sample_ref].

Lemma sample_table_ops_ok : Forall op_ok sample_ops.
Proof. repeat constructor; unfold byte_ok; try lia. Qed.

Definition sample_table : SwissTableIndex :=
  match table_run sample_routing sample_ops (new_table sample_routing 5) ∅ with
  | Ok (t, _) => t
  | _ => new_table sample_routing 5
  end.
Definition sample_map : gmap (list Z) RecordRef := {[sample_key := sample_ref; sample_long_key := sample_ref]}.

Lemma sample_table_ok : table_ok sample_routing 5 sample_table sample_map.
Proof.
  destruct (table_run_spec sample_routing 5 sample_ops (new_table sample_routing 5) ∅) as (t & m & E & Hok);
    [by apply (empty_ok sample_routing 5 3)|apply sample_table_ops_ok|].
  unfold sample_table. rewrite E. replace sample_map with m; [exact Hok|].
  assert (Hm : (let? r := table_run sample_routing sample_ops (new_table sample_routing 5) ∅ in Ok (map_to_list r.2)) =
    Ok (map_to_list sample_map)) by (vm_compute; reflexivity).
  rewrite E in Hm. cbn [bindR snd] in Hm. apply Ok_inj in Hm.
  apply map_to_list_inj. rewrite Hm. reflexivity.
Qed.

Lemma sample_bytes : bytes_ok sample_key /\ bytes_ok sample_long_key.
Proof. split; bytes_eval. Qed.

Lemma swiss_find_witness : find sample_table (hashed sample_routing sample_long_key) = Ok (sample_map !! sample_long_key).
Proof.
  exact (swiss_find sample_routing 5 sample_table sample_map sample_long_key sample_table_ok (proj2 sample_bytes)).
Defined.
Lemma swiss_insert_witness : runs (insert_or_assign (hashed sample_routing sample_key) sample_ref sample_table)
    (fun r t' => table_ok sample_routing 5 t' (<[sample_key := sample_ref]> sample_map) /\
       r = mkMutation (bool_decide (sample_map !! sample_key = None)) (sample_map !! sample_key))
    (fun e t' => table_ok sample_routing 5 t' sample_map /\
       (e = invalid_argument /\ kInlineKeyMask <= zlen sample_key \/
        e = arithmetic_overflow /\ (t_capacity sample_table > size_max / 2 \/
          sample_map !! sample_key = None /\ kSwissInlineKeyBytes < zlen sample_key))).
Proof.
  exact (swiss_insert_refines sample_routing 5 sample_table sample_map sample_key sample_ref sample_table_ok
    (proj1 sample_bytes)).
Defined.
Lemma swiss_erase_witness : exists t', erase (hashed sample_routing sample_key) sample_table =
    (Ok (mkMutation false (sample_map !! sample_key)), t') /\ table_ok sample_routing 5 t' (delete sample_key sample_map).
Proof.
  exact (swiss_erase_refines sample_routing 5 sample_table sample_map sample_key sample_table_ok (proj1 sample_bytes)).
Defined.
Lemma swiss_reserve_witness : runs (reserve 100 sample_table)
    (fun _ t' => table_ok sample_routing 5 t' sample_map /\ 100 + t_deleted_count t' <= t_capacity t' - t_capacity t' / 8)
    (fun e t' => e = arithmetic_overflow /\ t' = sample_table /\ 2 ^ 63 < 100 + 100 / 7 + 1).
Proof. exact (swiss_reserve_room sample_routing 5 sample_table sample_map 100 sample_table_ok ltac:(done)). Defined.
Lemma swiss_history_witness : exists t m, table_run sample_routing sample_ops (new_table sample_routing 5) ∅ = Ok (t, m).
Proof.
  destruct (swiss_history sample_routing 5 sample_ops sample_table_ops_ok) as (t & m & E & _). by exists t, m.
Defined.
Lemma swiss_prepared_insert_witness : exists t' t'', prepare_insert (hashed sample_routing [9]) sample_table = (Ok tt, t') /\
  insert_or_assign (hashed sample_routing [9]) sample_ref t' = (Ok (mkMutation true None), t'').
Proof.
  assert (exists t', prepare_insert (hashed sample_routing [9]) sample_table = (Ok tt, t')) as [t' E]
    by (eexists; vm_compute; reflexivity).
  destruct (swiss_prepared_insert sample_routing 5 sample_table t' sample_map [9] sample_ref sample_table_ok
    ltac:(bytes_eval) ltac:(vm_compute; reflexivity) E) as (t'' & E2 & _).
  exists t', t''. split; assumption.
Defined.

(** Seven keys fill a table of eight slots. *)
Definition full_table : SwissTableIndex :=
  match table_run sample_routing ((fun k => op_insert [k] sample_ref) <$> [1; 2; 3; 4; 5; 6; 7])
          (new_table sample_routing 5) ∅ with
  | Ok (t, _) => t
  | _ => new_table sample_routing 5
  end.

(** For a key the table already holds the preparation does not prevent growth:
    [prepare_insert] returns at once, and [insert_or_assign] then doubles a table
    that is full, although it only replaces a reference. *)
Theorem swiss_prepared_assign_grows :
  prepare_insert (hashed sample_routing [1]) full_table = (Ok tt, full_table) /\
  t_capacity full_table = 8 /\
  (let '(r, t) := insert_or_assign (hashed sample_routing [1]) sample_ref full_table in
   r = Ok (mkMutation false (Some sample_ref)) /\ t_capacity t = 16).
Proof. vm_compute. auto. Qed.
