(* ===== verification/Index.v ===== *)
(** * The index of a worker

    Models src/index/index.cpp: the operations that take a plain key and hash it
    themselves, the rebuild of an index from the records of a set of segments, and
    [Store::verify_index] (store/store.cpp) for a volatile store, which compares
    the indexes of the workers with a rebuilt one. *)

From Stdlib Require Import ZifyBool.
From S2P Require Import Prelude Core Crc32c Record Segment Routing Probing SwissTable SwissTableSpec.

(** ** Plain keys *)

Definition find_key (t : SwissTableIndex) (key : list Z) : Result (option RecordRef) :=
  let? hash := hash_key_routing key (t_routing t) in
  find t (mkHashedKey key hash).

Definition insert_or_assign_key (key : list Z) (ref : RecordRef) : Method SwissTableIndex IndexMutationResult :=
  let! t := getM in
  let! hash := liftM (hash_key_routing key (t_routing t)) in
  insert_or_assign (mkHashedKey key hash) ref.

Definition erase_key (key : list Z) : Method SwissTableIndex IndexMutationResult :=
  let! t := getM in
  let! hash := liftM (hash_key_routing key (t_routing t)) in
  erase (mkHashedKey key hash).

(** ** Rebuilding *)

Record LatestRecord := mkLatest { lr_ref : RecordRef; lr_deleted : bool; lr_expired : bool }.

Record RebuildStats := mkRebuildStats {
  records_scanned : Z;
  records_visible : Z;
  rs_tombstones : Z;
  rs_expired : Z
}.

Definition count_scanned (st : RebuildStats) : RebuildStats :=
  mkRebuildStats (u64 (records_scanned st + 1)) (records_visible st) (rs_tombstones st) (rs_expired st).
Definition count_visible (st : RebuildStats) : RebuildStats :=
  mkRebuildStats (records_scanned st) (u64 (records_visible st + 1)) (rs_tombstones st) (rs_expired st).
Definition count_tombstone (st : RebuildStats) : RebuildStats :=
  mkRebuildStats (records_scanned st) (records_visible st) (u64 (rs_tombstones st + 1)) (rs_expired st).
Definition count_expired (st : RebuildStats) : RebuildStats :=
  mkRebuildStats (records_scanned st) (records_visible st) (rs_tombstones st) (u64 (rs_expired st + 1)).

Abbreviation latest_map := (gmap (list Z) LatestRecord).

(** The body of the loop over the references of one segment. *)
Fixpoint latest_refs (s : Segment) (now_ns : Z) (refs : list RecordRef) (latest : latest_map) (stats : RebuildStats) :
    Result (latest_map * RebuildStats) :=
  match refs with
  | [] => Ok (latest, stats)
  | ref :: refs =>
      let stats := count_scanned stats in
      let? record := read s ref in
      let key := rv_key record in
      let candidate := mkLatest ref (rv_opcode record =? Opcode_erase) (expired record now_ns) in
      match latest !! key with
      | Some current =>
          if ref_sequence (lr_ref current) =? rv_sequence record then Err sequence_conflict
          else if ref_sequence (lr_ref current) <? rv_sequence record
          then latest_refs s now_ns refs (<[key := candidate]> latest) stats
          else latest_refs s now_ns refs latest stats
      | None => latest_refs s now_ns refs (<[key := candidate]> latest) stats
      end
  end.

Fixpoint latest_segments (now_ns : Z) (segments : list Segment) (latest : latest_map) (stats : RebuildStats) :
    Result (latest_map * RebuildStats) :=
  match segments with
  | [] => Ok (latest, stats)
  | s :: segments =>
      let? refs := scan s in
      let? r := latest_refs s now_ns refs latest stats in
      latest_segments now_ns segments r.1 r.2
  end.

(** The loop over the entries of [latest], which come in the order of the hash map. *)
Fixpoint insert_latest (l : list (list Z * LatestRecord)) (stats : RebuildStats) :
    Method SwissTableIndex RebuildStats :=
  match l with
  | [] => retM stats
  | (key, record) :: l =>
      if lr_deleted record then insert_latest l (count_tombstone stats)
      else if lr_expired record then insert_latest l (count_expired stats)
      else insert_or_assign_key key (lr_ref record) ;;! insert_latest l (count_visible stats)
  end.

Section rebuild.
(** The order in which a [std::unordered_map] gives its entries. *)
Context (iterate : latest_map -> list (list Z * LatestRecord)).

(** [seed] is the one the new index draws. *)
Definition rebuild_index_from_segments (segments : list Segment) (now_ns : Z) (routing : WorkerRoutingState)
    (seed : Z) : Result (SwissTableIndex * RebuildStats) :=
  let? r := latest_segments now_ns segments ∅ (mkRebuildStats 0 0 0 0) in
  let build := (reserve (Z.of_nat (size r.1)) ;;! insert_latest (iterate r.1) r.2) (new_table routing seed) in
  let? stats := build.1 in
  Ok (build.2, stats).

(** ** [Store::verify_index] *)

(** The loop over the entries of one worker; the number of entries is the result. *)
Fixpoint verify_entries (rebuilt : SwissTableIndex) (routing : WorkerRoutingState) (worker_count index : Z)
    (l : list (list Z * RecordRef)) (worker_entry_count : Z) : Result Z :=
  match l with
  | [] => Ok worker_entry_count
  | (key, record) :: l =>
      let worker_entry_count := u64 (worker_entry_count + 1) in
      let? hash := hash_key_routing key routing in
      if negb (route_worker hash worker_count =? index) then Err corrupted_data
      else
      let? ref := find_key rebuilt key in
      if negb (bool_decide (ref = Some record)) then Err corrupted_data
      else verify_entries rebuilt routing worker_count index l worker_entry_count
  end.

Fixpoint verify_workers (rebuilt : SwissTableIndex) (routing : WorkerRoutingState) (worker_count index : Z)
    (workers : list SwissTableIndex) (worker_entry_count : Z) : Result Z :=
  match workers with
  | [] => Ok worker_entry_count
  | w :: workers =>
      if t_size w >? t_size rebuilt then Err corrupted_data
      else
      let? l := entries w in
      let? count := verify_entries rebuilt routing worker_count index l worker_entry_count in
      verify_workers rebuilt routing worker_count (index + 1) workers count
  end.

Fixpoint verify_rebuilt (workers : list SwissTableIndex) (routing : WorkerRoutingState)
    (l : list (list Z * RecordRef)) : Status :=
  match l with
  | [] => Ok tt
  | (key, record) :: l =>
      let? hash := hash_key_routing key routing in
      let? w := vec_get workers (route_worker hash (zlen workers)) in
      let? ref := find_key w key in
      if negb (bool_decide (ref = Some record)) then Err corrupted_data
      else verify_rebuilt workers routing l
  end.

(** A volatile store: the segments of the manager and the indexes of the workers,
    all quiesced and locked. *)
Definition verify_index (segments : list Segment) (workers : list SwissTableIndex) (routing : WorkerRoutingState)
    (seed : Z) : Status :=
  let? rebuilt := rebuild_index_from_segments segments 0 routing seed in
  if negb (t_size rebuilt.1 =? records_visible rebuilt.2) then Err corrupted_data
  else
  let? worker_entry_count := verify_workers rebuilt.1 routing (zlen workers) 0 workers 0 in
  if negb (worker_entry_count =? t_size rebuilt.1) then Err corrupted_data
  else
  let? l := entries rebuilt.1 in
  verify_rebuilt workers routing l.
End rebuild.

(** ** What a rebuild finds *)

(** A record of a segment and the reference it was written under. *)
Abbreviation entry := (RecordRef * RecordInput)%type.

Definition seg_records (s : Segment) (log : list RecordInput) : list entry := zip (log_refs s log) log.
Definition all_records (segments : list Segment) (logs : list (list RecordInput)) : list entry :=
  concat (zip_with seg_records segments logs).

(** [e] is the one record of [k] with the highest sequence. *)
Definition newest (l : list entry) (k : list Z) (e : entry) : Prop :=
  e ∈ l /\ in_key e.2 = k /\
  forall e', e' ∈ l -> in_key e'.2 = k -> e' = e \/ in_sequence e'.2 < in_sequence e.2.

(** Two records of one key carry the same sequence. *)
Definition conflict (l : list entry) : Prop :=
  exists i j e e', i <> j /\ l !! i = Some e /\ l !! j = Some e' /\
    in_key e.2 = in_key e'.2 /\ in_sequence e.2 = in_sequence e'.2.

Definition latest_of (now_ns : Z) (e : entry) : LatestRecord :=
  mkLatest e.1 (in_opcode e.2 =? Opcode_erase) (expired (view_of e.2) now_ns).

Definition latest_ok (now_ns : Z) (seen : list entry) (latest : latest_map) : Prop :=
  forall k, match latest !! k with
            | Some r => exists e, newest seen k e /\ r = latest_of now_ns e
            | None => forall e, e ∈ seen -> in_key e.2 <> k
            end.

Lemma newest_unique l k e e' : newest l k e -> newest l k e' -> e = e'.
Proof.
  intros (H1 & H2 & H3) (H1' & H2' & H3'). destruct (H3 e' H1' H2') as [|Hlt]; [done|].
  destruct (H3' e H1 H2) as [|]; [done|lia].
Qed.

Lemma conflict_app l k : conflict l -> conflict (l ++ k).
Proof.
  intros (i & j & e & e' & Hne & Hi & Hj & H). exists i, j, e, e'. split_and!; try apply H; try done;
    by apply lookup_app_l_Some.
Qed.

Lemma conflict_snoc l e e' : e ∈ l -> in_key e.2 = in_key e'.2 -> in_sequence e.2 = in_sequence e'.2 ->
  conflict (l ++ [e']).
Proof.
  intros [i Hi]%list_elem_of_lookup Hk Hs. pose proof (lookup_lt_Some _ _ _ Hi). exists i, (length l), e, e'.
  split_and!; try done; [lia|by apply lookup_app_l_Some|]. rewrite lookup_app_r, Nat.sub_diag by lia. done.
Qed.

Lemma newest_snoc_other l k e e' : newest l k e -> in_key e'.2 = k -> in_sequence e'.2 < in_sequence e.2 ->
  newest (l ++ [e']) k e.
Proof.
  intros (Hin & Hk & Hmax) Hk' Hlt. split_and!; [apply elem_of_app; by left|done|].
  intros x [Hx| ->%list_elem_of_singleton]%elem_of_app Hkx; auto.
Qed.

Lemma newest_snoc_skip l k e e' : newest l k e -> in_key e'.2 <> k -> newest (l ++ [e']) k e.
Proof.
  intros (Hin & Hk & Hmax) Hk'. split_and!; [apply elem_of_app; by left|done|].
  intros x [Hx| ->%list_elem_of_singleton]%elem_of_app Hkx; [auto|done].
Qed.

Lemma newest_snoc_new l e : (forall e', e' ∈ l -> in_key e'.2 = in_key e.2 -> in_sequence e'.2 < in_sequence e.2) ->
  newest (l ++ [e]) (in_key e.2) e.
Proof.
  intros H. split_and!; [apply elem_of_app; right; by left|done|].
  intros x [Hx| ->%list_elem_of_singleton]%elem_of_app Hkx; auto.
Qed.

(** A record becomes the latest one of its key. *)
Lemma latest_ok_new now_ns seen latest e : latest_ok now_ns seen latest ->
  (forall e', e' ∈ seen -> in_key e'.2 = in_key e.2 -> in_sequence e'.2 < in_sequence e.2) ->
  latest_ok now_ns (seen ++ [e]) (<[in_key e.2 := latest_of now_ns e]> latest).
Proof.
  intros Hok Hnew k. destruct (decide (in_key e.2 = k)) as [<-|Hne].
  - rewrite lookup_insert_eq. exists e. split; [by apply newest_snoc_new|done].
  - rewrite lookup_insert_ne by done. specialize (Hok k). destruct (latest !! k) as [r|].
    + destruct Hok as (x & Hx & ->). exists x. split; [by apply newest_snoc_skip|done].
    + intros x [Hx| ->%list_elem_of_singleton]%elem_of_app; auto.
Qed.

Lemma latest_ok_old now_ns seen latest e e0 : latest_ok now_ns seen latest -> newest seen (in_key e.2) e0 ->
  in_sequence e.2 < in_sequence e0.2 -> latest_ok now_ns (seen ++ [e]) latest.
Proof.
  intros Hok Hn Hlt k. specialize (Hok k). destruct (latest !! k) as [r|].
  - destruct Hok as (x & Hx & ->). exists x. split; [|done]. destruct (decide (in_key e.2 = k)) as [<-|Hne].
    + rewrite (newest_unique _ _ _ _ Hx Hn). by apply newest_snoc_other.
    + by apply newest_snoc_skip.
  - intros x [Hx| ->%list_elem_of_singleton]%elem_of_app; [auto|]. intros <-. destruct Hn as (Hin & Hk & _).
    by apply (Hok e0 Hin).
Qed.

(** Entries whose reference reads their record. *)
Definition readable (s : Segment) (e : entry) : Prop :=
  read s e.1 = Ok (view_of e.2) /\ ref_sequence e.1 = in_sequence e.2.

Definition sequenced (e : entry) : Prop := ref_sequence e.1 = in_sequence e.2.

Lemma latest_refs_spec s now_ns todo : Forall (readable s) todo -> forall seen latest stats,
  latest_ok now_ns seen latest -> Forall sequenced seen ->
  match latest_refs s now_ns todo.*1 latest stats with
  | Ok (latest', stats') => latest_ok now_ns (seen ++ todo) latest' /\
      stats' = mkRebuildStats (records_scanned stats') (records_visible stats) (rs_tombstones stats) (rs_expired stats)
  | Err e => e = sequence_conflict /\ conflict (seen ++ todo)
  | Stuck _ => False
  end.
Proof.
  induction 1 as [|[ref input] todo [Hread Hseq] _ IH]; intros seen latest stats Hok Hsq;
    cbn [fmap list_fmap latest_refs fst].
  { rewrite app_nil_r. split; [done|]. by destruct stats. }
  cbn [fst snd] in *. rewrite Hread. cbn [bindR view_of rv_key rv_sequence rv_opcode].
  set (e := (ref, input)). fold (view_of input). change (mkLatest ref _ _) with (latest_of now_ns e).
  replace (seen ++ e :: todo) with ((seen ++ [e]) ++ todo) by by rewrite <- app_assoc.
  assert (Hsq' : Forall sequenced (seen ++ [e])) by (apply Forall_app; split; [done|by apply Forall_singleton]).
  pose proof (Hok (in_key input)) as Hk. destruct (latest !! in_key input) as [r|].
  - destruct Hk as (e0 & Hn & ->). pose proof Hn as (Hin & Hkey & Hmax).
    cbn [latest_of lr_ref]. rewrite (proj1 (Forall_forall _ _) Hsq e0 Hin).
    destruct (Z.eqb_spec (in_sequence e0.2) (in_sequence input)) as [Heq|Hne].
    { split; [done|]. apply conflict_app, (conflict_snoc _ e0); done. }
    destruct (Z.ltb_spec (in_sequence e0.2) (in_sequence input)) as [Hlt|Hge].
    + apply (IH (seen ++ [e]) _ (count_scanned stats)); [|done]. apply (latest_ok_new _ _ _ e); [done|].
      intros x Hx Hkx. destruct (Hmax x Hx Hkx) as [->|]; cbn; lia.
    + apply (IH (seen ++ [e]) _ (count_scanned stats)); [|done]. apply (latest_ok_old _ _ _ e e0 Hok Hn). cbn. lia.
  - apply (IH (seen ++ [e]) _ (count_scanned stats)); [|done]. apply (latest_ok_new _ _ _ e); [done|].
    intros x Hx Hkx. by destruct (Hk x Hx).
Qed.

Lemma seg_records_from s before log : seg_rep s (before ++ log) ->
  (zip (log_refs_from s before log) log).*1 = log_refs_from s before log /\
  Forall (fun e => readable s e /\ input_ok e.2) (zip (log_refs_from s before log) log).
Proof.
  revert before. induction log as [|input log IH]; intros before Hrep; cbn [log_refs_from zip zip_with fmap list_fmap fst].
  { done. }
  destruct (IH (before ++ [input])) as [H1 H2]; [by rewrite <- app_assoc|]. split; [by rewrite H1|].
  constructor; [|done]. split; [split; [by apply (read_extent_log true s before input log)|done]|].
  cbn. pose proof (rep_inputs _ _ Hrep) as Hall. rewrite Forall_app, Forall_cons in Hall. apply Hall.
Qed.

Lemma seg_records_ok s log : seg_rep s log ->
  (seg_records s log).*1 = log_refs s log /\ Forall (readable s) (seg_records s log) /\
  Forall sequenced (seg_records s log) /\ Forall (fun e => input_ok e.2) (seg_records s log).
Proof.
  intros Hrep. destruct (seg_records_from s [] log Hrep) as [H1 H2]. fold (log_refs s log) in *. fold (seg_records s log) in *.
  split_and!; [done|..]; (eapply Forall_impl; [exact H2|]); intros e [[] ?]; done.
Qed.

Lemma all_records_inputs segments logs : Forall2 seg_rep segments logs ->
  Forall (fun e => input_ok e.2) (all_records segments logs).
Proof.
  unfold all_records. induction 1 as [|s log segments logs Hrep _ IH]; cbn; [constructor|].
  apply Forall_app. split; [by apply seg_records_ok|done].
Qed.

Lemma latest_segments_spec now_ns segments logs : Forall2 seg_rep segments logs -> forall seen latest stats,
  latest_ok now_ns seen latest -> Forall sequenced seen ->
  match latest_segments now_ns segments latest stats with
  | Ok (latest', stats') => latest_ok now_ns (seen ++ all_records segments logs) latest' /\
      stats' = mkRebuildStats (records_scanned stats') (records_visible stats) (rs_tombstones stats) (rs_expired stats)
  | Err e => e = sequence_conflict /\ conflict (seen ++ all_records segments logs)
  | Stuck _ => False
  end.
Proof.
  unfold all_records. induction 1 as [|s log segments logs Hrep _ IH]; intros seen latest stats Hok Hsq;
    cbn [latest_segments zip_with concat].
  { rewrite app_nil_r. split; [done|]. by destruct stats. }
  rewrite (scan_log s log Hrep). cbn [bindR]. destruct (seg_records_ok s log Hrep) as (<- & Hrd & Hsq' & _).
  pose proof (latest_refs_spec s now_ns _ Hrd seen latest stats Hok Hsq) as H. rewrite app_assoc.
  destruct (latest_refs s now_ns _ latest stats) as [[latest1 stats1]|e|f]; cbn [bindR fst snd]; [| |done].
  - destruct H as [Hok1 Est]. specialize (IH _ latest1 stats1 Hok1 (Forall_app_2 _ _ _ Hsq Hsq')).
    destruct (latest_segments now_ns segments latest1 stats1) as [[latest2 stats2]|e|f]; [| |done].
    + destruct IH as [Hok2 Est2]. split; [done|]. rewrite Est2, Est. done.
    + by destruct IH.
  - destruct H as [-> Hc]. split; [done|]. by apply conflict_app.
Qed.

(** ** The rebuilt index *)

Definition shown (r : LatestRecord) : option RecordRef :=
  if lr_deleted r || lr_expired r then None else Some (lr_ref r).

Section spec.
Context (routing : WorkerRoutingState) (seed : Z).

Lemma insert_key_spec t m key ref : table_ok routing seed t m -> bytes_ok key -> zlen key < kInlineKeyMask ->
  runs (insert_or_assign_key key ref t)
    (fun _ t' => table_ok routing seed t' (<[key := ref]> m))
    (fun e t' => e = arithmetic_overflow).
Proof.
  intros Hok Hk Hlen. unfold insert_or_assign_key. steps.
  rewrite (table_routing _ _ _ _ Hok), (hash_of_Ok routing key Hk). steps.
  eapply runs_weaken; [by apply (insert_spec routing seed t m key ref Hok Hk)|..].
  - by intros r t' [? _].
  - intros e t' [_ [[_ ?]|[-> _]]]; [lia|done].
Qed.

Lemma insert_key_fresh t m key ref : fresh_table routing seed t m -> m !! key = None -> bytes_ok key -> zlen key < kInlineKeyMask ->
  Z.of_nat (size m) < t_capacity t - t_capacity t / 8 ->
  runs (insert_or_assign_key key ref t)
    (fun _ t' => fresh_table routing seed t' (<[key := ref]> m) /\ t_capacity t' = t_capacity t /\
       t_heap_live_bytes t' = t_heap_live_bytes t + key_use key)
    (fun e t' => e = arithmetic_overflow /\ umax 32 < t_heap_live_bytes t + key_use key).
Proof.
  intros Hf Hm Hk Hlen Hroom. unfold insert_or_assign_key. steps.
  rewrite (table_routing _ _ _ _ (proj1 Hf)), (hash_of_Ok routing key Hk). steps. by apply insert_fresh.
Qed.

Lemma find_key_spec t m key : table_ok routing seed t m -> bytes_ok key -> find_key t key = Ok (m !! key).
Proof.
  intros Hok Hk. unfold find_key. rewrite (table_routing _ _ _ _ Hok), (hash_of_Ok routing key Hk). cbn [bindR].
  by apply (table_ok_find routing seed).
Qed.

(** The keys that are shown. *)
Definition shown_keys (l : list (list Z * LatestRecord)) : list (list Z) :=
  omap (fun x => if shown x.2 then Some x.1 else None) l.

Lemma insert_latest_spec l : NoDup l.*1 -> Forall (fun x => bytes_ok x.1 /\ zlen x.1 < kInlineKeyMask) l ->
  forall stats t m, fresh_table routing seed t m -> records_visible stats = u64 (Z.of_nat (size m)) ->
  (forall k, k ∈ l.*1 -> m !! k = None) -> Z.of_nat (size m) + zlen l <= t_capacity t - t_capacity t / 8 ->
  runs (insert_latest l stats t)
    (fun stats' t' => exists m', table_ok routing seed t' m' /\ records_visible stats' = u64 (Z.of_nat (size m')) /\
       forall k, m' !! k = match (list_to_map l : latest_map) !! k with Some r => shown r | None => m !! k end)
    (fun e _ => e = arithmetic_overflow /\ umax 32 < t_heap_live_bytes t + keys_use (shown_keys l)).
Proof.
  induction l as [|[key record] l IH]; intros Hnd Hall stats t m Hok Hst Hm Hroom; cbn [insert_latest].
  { exists m. split_and!; [apply Hok|done|]. intros k. by rewrite list_to_map_nil, lookup_empty. }
  cbn [fmap list_fmap fst] in Hnd, Hm. apply NoDup_cons in Hnd as [Hni Hnd].
  apply Forall_cons in Hall as [[Hk Hlen] Hall]. rewrite zlen_cons in Hroom. pose proof (zlen_nonneg l).
  assert (Hnone : m !! key = None) by (apply Hm; left).
  assert (Hskip : shown record = None -> forall st', records_visible st' = records_visible stats ->
    runs (insert_latest l st' t) (fun stats' t' => exists m', table_ok routing seed t' m' /\
      records_visible stats' = u64 (Z.of_nat (size m')) /\
      forall k, m' !! k = match (list_to_map ((key, record) :: l) : latest_map) !! k with Some r => shown r | None => m !! k end)
      (fun e _ => e = arithmetic_overflow /\ umax 32 < t_heap_live_bytes t + keys_use (shown_keys ((key, record) :: l)))).
  { intros Hs st' Est. eapply runs_weaken; [apply (IH Hnd Hall st' t m Hok); [congruence| |lia]|..].
    - intros k Hin. apply Hm. by right.
    - intros st2 t2 (m2 & ? & ? & Hm2). exists m2. split_and!; [done..|]. intros k. rewrite Hm2. rewrite list_to_map_cons.
      destruct (decide (key = k)) as [<-|Hne]; [|by rewrite lookup_insert_ne].
      rewrite lookup_insert_eq, not_elem_of_list_to_map_1 by done. by rewrite Hs, Hnone.
    - intros e t2. unfold shown_keys. cbn [omap list_omap snd]. by rewrite Hs. }
  assert (Hkeys : shown record <> None -> keys_use (shown_keys ((key, record) :: l)) = key_use key + keys_use (shown_keys l)).
  { intros Hs. unfold shown_keys. cbn [omap list_omap fst snd]. by destruct (shown record). }
  unfold shown in Hskip, Hkeys at 1. destruct (lr_deleted record) eqn:Ed; [by apply Hskip|].
  destruct (lr_expired record) eqn:Ee; [by apply Hskip|]. clear Hskip. rewrite (Hkeys ltac:(done)).
  eapply runs_bindM_err; [apply (insert_key_fresh t m key (lr_ref record) Hok); [done..|lia]| |].
  2:{ intros e t' [-> Hbig]. split; [done|]. pose proof (keys_use_nonneg (shown_keys l)). lia. }
  intros x t1 (Hok1 & Hcap & Hlive).
  eapply runs_weaken; [apply (IH Hnd Hall (count_visible stats) t1 _ Hok1)|..].
  - cbn. rewrite Hst, map_size_insert_None by done. unfold wrap. rewrite Zplus_mod_idemp_l. f_equal. lia.
  - intros k Hin. rewrite lookup_insert_ne by (intros <-; done). apply Hm. by right.
  - rewrite map_size_insert_None, Hcap by done. lia.
  - intros st2 t2 (m2 & ? & ? & Hm2). exists m2. split_and!; [done..|]. intros k. rewrite Hm2. rewrite list_to_map_cons.
    destruct (decide (key = k)) as [<-|Hne]; [|by rewrite !lookup_insert_ne].
    rewrite !lookup_insert_eq, not_elem_of_list_to_map_1 by done. unfold shown. by rewrite Ed, Ee.
  - intros e t2 [-> Hbig]. split; [done|]. lia.
Qed.
End spec.

(** ** Properties *)

Section properties.
Context (iterate : latest_map -> list (list Z * LatestRecord)).

Lemma latest_key now_ns seen latest k r : latest_ok now_ns seen latest -> Forall (fun e => input_ok e.2) seen ->
  latest !! k = Some r -> bytes_ok k /\ zlen k < kInlineKeyMask.
Proof.
  intros Hok Hin Hk. specialize (Hok k). rewrite Hk in Hok. destruct Hok as (e & (Hmem & <- & _) & _).
  rewrite Forall_forall in Hin. destruct (Hin e Hmem) as [Hi He]. split; [apply Hi|].
  pose proof (encodable_bounds _ He). unfold kMaxNormalRecordSize, kInlineKeyMask in *. lia.
Qed.

Lemma latest_size now_ns seen latest : latest_ok now_ns seen latest -> (size latest <= length seen)%nat.
Proof.
  intros Hok. rewrite <- length_map_to_list, <- (length_fmap fst), <- (length_fmap (fun e => in_key e.2) seen).
  apply submseteq_length, NoDup_submseteq; [apply NoDup_fst_map_to_list|].
  intros k ([k' r] & -> & Hin)%list_elem_of_fmap. apply elem_of_map_to_list in Hin. specialize (Hok k').
  rewrite Hin in Hok. destruct Hok as (e & (He & Hk & _) & _). apply list_elem_of_fmap. by exists e.
Qed.

Lemma shown_latest now_ns seen latest k r : latest_ok now_ns seen latest ->
  latest !! k ≫= shown = Some r <->
  exists input, newest seen k (r, input) /\ in_opcode input <> Opcode_erase /\ expired (view_of input) now_ns = false.
Proof.
  intros Hok. specialize (Hok k). destruct (latest !! k) as [lr|] eqn:Ek; cbn [mbind option_bind].
  - destruct Hok as ([ref input] & Hn & ->). unfold shown. cbn [latest_of lr_deleted lr_expired lr_ref fst snd].
    destruct (Z.eqb_spec (in_opcode input) Opcode_erase) as [Ho|Ho]; [|destruct (expired (view_of input) now_ns) eqn:Ex];
      cbn [orb]; split; try done.
    + intros (i' & Hn' & ? & _). pose proof (newest_unique _ _ _ _ Hn Hn'). by simplify_eq.
    + intros (i' & Hn' & _ & ?). pose proof (newest_unique _ _ _ _ Hn Hn'). simplify_eq. congruence.
    + intros [= <-]. by exists input.
    + intros (i' & Hn' & _). pose proof (newest_unique _ _ _ _ Hn Hn'). by simplify_eq.
  - split; [done|]. intros (i' & (Hin & Hk & _) & _). by destruct (Hok _ Hin).
Qed.

(** The key is that of a record, whose newest one is a put that has not expired. *)
Definition shows (seen : list entry) (now_ns : Z) (k : list Z) (r : RecordRef) : Prop :=
  exists input, newest seen k (r, input) /\ in_opcode input <> Opcode_erase /\ expired (view_of input) now_ns = false.

(** An index of these records cannot be made: there are more keys than slots can be
    addressed, or the long keys it shows take more than the 4 GiB of the arena. *)
Definition exceeds (seen : list entry) (now_ns : Z) : Prop :=
  exists keys, NoDup keys /\
    ((forall k, k ∈ keys -> exists e, e ∈ seen /\ in_key e.2 = k) /\ 2 ^ 63 < zlen keys + zlen keys / 7 + 1 \/
     (forall k, k ∈ keys -> exists r, shows seen now_ns k r) /\ umax 32 < keys_use keys).

(** The entries of a map that was made from the records. *)
Lemma exceeds_latest now_ns seen latest l : latest_ok now_ns seen latest -> l ≡ₚ map_to_list latest ->
  2 ^ 63 < zlen l + zlen l / 7 + 1 \/ umax 32 < keys_use (shown_keys l) -> exceeds seen now_ns.
Proof.
  intros Hok Hl. assert (Hnd : NoDup l.*1) by (rewrite Hl; apply NoDup_fst_map_to_list).
  assert (Hin : forall k r, (k, r) ∈ l -> latest !! k = Some r) by (intros k r Hx; apply elem_of_map_to_list; by rewrite <- Hl).
  intros [Hbig|Hbig].
  - exists l.*1. split; [done|]. left. unfold zlen in *. rewrite length_fmap. split; [|done].
    intros k ([k' r] & -> & Hx)%list_elem_of_fmap. apply Hin in Hx. specialize (Hok k'). rewrite Hx in Hok.
    destruct Hok as (e & (He & Hk & _) & _). by exists e.
  - exists (shown_keys l). assert (Hsub : forall k, k ∈ shown_keys l -> exists r, (k, r) ∈ l /\ is_Some (shown r)).
    { intros k ([k' r] & Hx & E)%list_elem_of_omap. exists r. cbn [fst snd] in E. destruct (shown r) eqn:Es; [|done].
      injection E as ->. split; [done|by eexists]. }
    split; [|right; split; [|done]].
    + clear -Hnd. unfold shown_keys. induction l as [|[k r] l IH]; cbn [omap list_omap fst snd]; [constructor|].
      apply NoDup_cons in Hnd as [Hni Hnd]. destruct (shown r); [|by apply IH]. constructor; [|by apply IH].
      intros ([k' r'] & Hx & E)%list_elem_of_omap. cbn [fst snd] in E. destruct (shown r'); [|done]. injection E as ->.
      apply Hni, list_elem_of_fmap. by exists (k, r').
    + intros k Hk. destruct (Hsub k Hk) as (r & Hx & x & Es). exists x. apply (shown_latest now_ns seen latest); [done|].
      by rewrite (Hin k r Hx).
Qed.

Lemma rebuild_spec segments logs now_ns routing seed :
  (forall m, iterate m ≡ₚ map_to_list m) ->
  Forall2 seg_rep segments logs -> zlen (all_records segments logs) < 2 ^ 64 ->
  match rebuild_index_from_segments iterate segments now_ns routing seed with
  | Ok (t, stats) => exists m, table_ok routing seed t m /\ records_visible stats = t_size t /\
      forall k r, m !! k = Some r <-> shows (all_records segments logs) now_ns k r
  | Err e => e = sequence_conflict /\ conflict (all_records segments logs) \/
      e = arithmetic_overflow /\ exceeds (all_records segments logs) now_ns
  | Stuck _ => False
  end.
Proof.
  intros Hit Hrep Hlen. unfold rebuild_index_from_segments.
  pose proof (latest_segments_spec now_ns segments logs Hrep [] ∅ (mkRebuildStats 0 0 0 0)) as Hl.
  destruct (latest_segments now_ns segments ∅ _) as [[latest stats]|e|f]; cbn [bindR fst snd] in *.
  2:{ left. apply Hl; [|constructor]. intros k. rewrite lookup_empty. by intros e' ?%not_elem_of_nil. }
  2:{ apply Hl; [|constructor]. intros k. rewrite lookup_empty. by intros e' ?%not_elem_of_nil. }
  destruct Hl as [Hok Est]; [|constructor|].
  { intros k. rewrite lookup_empty. by intros e' ?%not_elem_of_nil. }
  rewrite app_nil_l in Hok. pose proof (latest_size _ _ _ Hok) as Hsize. unfold zlen in Hlen.
  assert (Hnd : NoDup (iterate latest).*1) by (rewrite Hit; apply NoDup_fst_map_to_list).
  assert (Hll : zlen (iterate latest) = Z.of_nat (size latest)) by (unfold zlen; by rewrite Hit, length_map_to_list).
  assert (Hall : Forall (fun x => bytes_ok x.1 /\ zlen x.1 < kInlineKeyMask) (iterate latest)).
  { rewrite Hit. apply Forall_forall. intros [k r] Hin%elem_of_map_to_list.
    eapply latest_key; [exact Hok|by apply all_records_inputs|exact Hin]. }
  assert (Hrun : runs ((reserve (Z.of_nat (size latest)) ;;! insert_latest (iterate latest) stats) (new_table routing seed))
    (fun stats' t' => exists m', table_ok routing seed t' m' /\ records_visible stats' = u64 (Z.of_nat (size m')) /\
       forall k, m' !! k = latest !! k ≫= shown)
    (fun e _ => e = arithmetic_overflow /\ exceeds (all_records segments logs) now_ns)).
  { eapply runs_bindM_err; [apply (reserve_fresh routing seed _ ∅ _ (empty_fresh routing seed 3 ltac:(lia)))|..].
    - width. lia.
    - intros [] t1 [Hok1 Hroom]. eapply runs_weaken; [eapply (insert_latest_spec routing seed _ Hnd Hall); [exact Hok1|..]|..].
      + rewrite Est. done.
      + intros k _. apply lookup_empty.
      + rewrite map_size_empty, Hll. lia.
      + intros st2 t2 (m2 & ? & ? & Hm2). exists m2. split_and!; [done..|]. intros k.
        rewrite Hm2, (list_to_map_proper _ (map_to_list latest)), list_to_map_to_list, lookup_empty by (done || apply Hit).
        by destruct (latest !! k).
      + intros e t2 [-> Hbig]. split; [done|]. apply (exceeds_latest now_ns _ latest (iterate latest)); [done|apply Hit|right].
        rewrite (empty_live _ _ _ (proj1 Hok1)) in Hbig. lia.
    - intros e t' [-> Hbig]. split; [done|]. apply (exceeds_latest now_ns _ latest (iterate latest)); [done|apply Hit|left].
      by rewrite Hll. }
  destruct ((reserve _ ;;! insert_latest _ _) _) as [[stats'|e|f] t]; cbn [fst snd bindR runs] in *; [| |done].
  2:{ by right. }
  destruct Hrun as (m & Htab & Hvis & Hm). exists m. split_and!; [done|..].
  - rewrite Hvis, (table_size _ _ _ _ Htab), wrap_small; [done|].
    destruct (occupancy_facts _ _ _ _ Htab) as (_ & _ & ? & ? & ? & ? & ?).
    pose proof (table_size _ _ _ _ Htab). unfold is_uint. lia.
  - intros k r. rewrite Hm. by apply shown_latest.
Qed.

(** The worker a key belongs to. *)
Definition owner_of (routing : WorkerRoutingState) (workers : nat) (k : list Z) : Z :=
  route_worker (hash_of routing k) (Z.of_nat workers).

Lemma table_keys routing seed t m k r : table_ok routing seed t m -> m !! k = Some r -> bytes_ok k.
Proof.
  intros (cells & Hrep & Hinv & _) Hk. destruct (inv_complete _ _ _ _ Hinv _ _ Hk) as [i Hi].
  destruct (rep_at _ _ _ _ Hrep _ _ Hi) as (ctl & slot & _ & _ & Hat). apply Hat.
Qed.

Section verify.
Context (routing : WorkerRoutingState) (seed : Z) (rebuilt : SwissTableIndex) (m : gmap (list Z) RecordRef)
  (Htab : table_ok routing seed rebuilt m) (n : nat).
Implicit Types (mi : gmap (list Z) RecordRef) (ms : list (gmap (list Z) RecordRef)).

(** An entry of worker [index] that the rebuilt index also has. *)
Definition placed (index : Z) (x : list Z * RecordRef) : Prop := owner_of routing n x.1 = index /\ m !! x.1 = Some x.2.

Lemma verify_entries_spec index l : Forall (fun x => bytes_ok x.1) l -> forall c, is_u64 c ->
  match verify_entries rebuilt routing (Z.of_nat n) index l c with
  | Ok c' => Forall (placed index) l /\ c' = u64 (c + zlen l)
  | Err e => e = corrupted_data /\ ~ Forall (placed index) l
  | Stuck _ => False
  end.
Proof using Htab.
  induction 1 as [|[k r] l Hk _ IH]; intros c Hc; cbn [verify_entries].
  { split; [constructor|]. by rewrite zlen_nil, Z.add_0_r, wrap_small. }
  rewrite (hash_of_Ok routing k Hk). cbn [bindR fst snd] in *. fold (owner_of routing n k).
  assert (Hno : ~ placed index (k, r) -> ~ Forall (placed index) ((k, r) :: l)) by (intros H [? _]%Forall_cons; done).
  unfold placed in Hno at 1. cbn [fst snd] in Hno.
  destruct (Z.eqb_spec (owner_of routing n k) index) as [Ho|Ho]; cbn [negb]; [|naive_solver].
  rewrite (find_key_spec _ _ _ _ _ Htab Hk). cbn [bindR].
  case_bool_decide as Hm; cbn [negb]; [|naive_solver]. clear Hno.
  specialize (IH (u64 (c + 1)) ltac:(by apply wrap_range)). destruct (verify_entries _ _ _ _ l _) as [c'|e|f]; [| |done].
  - destruct IH as [Hall ->]. split; [by constructor|]. rewrite zlen_cons. unfold wrap. rewrite Zplus_mod_idemp_l. f_equal. lia.
  - destruct IH as [-> Hn]. split; [done|]. by intros [_ ?]%Forall_cons.
Qed.

Definition good (index : Z) mi : Prop := forall k r, mi !! k = Some r -> placed index (k, r).
Fixpoint all_good (index : Z) ms : Prop :=
  match ms with [] => True | mi :: ms => good index mi /\ all_good (index + 1) ms end.
Fixpoint total_size ms : Z := match ms with [] => 0 | mi :: ms => Z.of_nat (size mi) + total_size ms end.

Lemma good_entries index w mi : (exists seed', table_ok routing seed' w mi) -> exists l, entries w = Ok l /\
  Forall (fun x => bytes_ok x.1) l /\ zlen l = Z.of_nat (size mi) /\ (Forall (placed index) l <-> good index mi).
Proof.
  intros [seed' Hw]. destruct (entries_spec _ _ _ _ Hw) as (l & -> & _ & Hl). exists l. split_and!; [done|..].
  - rewrite Hl. apply Forall_forall. intros [k r] Hin%elem_of_map_to_list. by eapply table_keys.
  - unfold zlen. rewrite Hl, length_map_to_list. done.
  - rewrite Hl, Forall_forall. split.
    + intros H k r Hk. apply H. by apply elem_of_map_to_list.
    + intros H [k r] Hin%elem_of_map_to_list. by apply H.
Qed.

Lemma verify_workers_spec workers ms : Forall2 (fun w mi => exists seed', table_ok routing seed' w mi) workers ms ->
  forall index c, is_u64 c ->
  match verify_workers rebuilt routing (Z.of_nat n) index workers c with
  | Ok c' => all_good index ms /\ c' = u64 (c + total_size ms)
  | Err e => e = corrupted_data /\ ~ all_good index ms
  | Stuck _ => False
  end.
Proof using Htab.
  induction 1 as [|w mi workers ms Hw _ IH]; intros index c Hc; cbn [verify_workers all_good total_size].
  { split; [done|]. by rewrite Z.add_0_r, wrap_small. }
  assert (Hsize : t_size w > t_size rebuilt -> ~ good index mi).
  { destruct Hw as [seed' Hw]. rewrite (table_size _ _ _ _ Hw), (table_size _ _ _ _ Htab). intros Hgt Hg.
    assert (mi ⊆ m) as Hsub by (apply map_subseteq_spec; intros k r Hk; apply (Hg k r Hk)).
    apply map_subseteq_size in Hsub. lia. }
  destruct (Z.gtb_spec (t_size w) (t_size rebuilt)) as [Hgt|_]; [split; [done|]; intros [? _]; by apply Hsize; [lia|]|].
  clear Hsize. destruct (good_entries index w mi Hw) as (l & -> & Hk & Hlen & Hgood). cbn [bindR].
  pose proof (verify_entries_spec index l Hk c Hc) as He. destruct (verify_entries _ _ _ _ l c) as [c1|e|f]; cbn [bindR]; [| |done].
  - destruct He as [Hp ->]. rewrite Hlen. specialize (IH (index + 1) (u64 (c + Z.of_nat (size mi))) ltac:(by apply wrap_range)).
    destruct (verify_workers _ _ _ _ workers _) as [c2|e|f]; [| |done].
    + destruct IH as [Hg ->]. split; [split; [by apply Hgood|done]|]. unfold wrap. rewrite Zplus_mod_idemp_l. f_equal. lia.
    + destruct IH as [-> Hn]. split; [done|]. by intros [_ ?].
  - destruct He as [-> Hn]. split; [done|]. intros [Hg _]. by apply Hn, Hgood.
Qed.

(** An entry of the rebuilt index that its worker also has. *)
Definition held ms (x : list Z * RecordRef) : Prop :=
  exists mi, ms !! Z.to_nat (owner_of routing n x.1) = Some mi /\ mi !! x.1 = Some x.2.

Lemma verify_rebuilt_spec workers ms l :
  Forall2 (fun w mi => exists seed', table_ok routing seed' w mi) workers ms -> length workers = n -> (0 < n)%nat ->
  Forall (fun x => bytes_ok x.1) l ->
  match verify_rebuilt workers routing l with
  | Ok _ => Forall (held ms) l
  | Err e => e = corrupted_data /\ ~ Forall (held ms) l
  | Stuck _ => False
  end.
Proof using Htab.
  intros Hws Hn Hpos. induction 1 as [|[k r] l Hk _ IH]; cbn [verify_rebuilt]; [constructor|].
  rewrite (hash_of_Ok routing k Hk). cbn [bindR]. unfold zlen. rewrite Hn. fold (owner_of routing n k).
  assert (Hr : 0 <= owner_of routing n k < Z.of_nat n) by (apply Z.mod_pos_bound; lia).
  destruct (lookup_lt_is_Some_2 workers (Z.to_nat (owner_of routing n k)) ltac:(lia)) as [w Hw].
  destruct (Forall2_lookup_l _ _ _ _ _ Hws Hw) as (mi & Hmi & seed' & Hwt).
  rewrite <- (Z2Nat.id (owner_of routing n k)) by lia. rewrite (vec_get_Some _ _ _ Hw). cbn [bindR fst] in *.
  rewrite (find_key_spec _ _ _ _ _ Hwt Hk). cbn [bindR].
  case_bool_decide as Hm; cbn [negb].
  - assert (held ms (k, r)) by (exists mi; done). destruct (verify_rebuilt workers routing l) as [[]|e|f]; [by constructor| |done].
    destruct IH as [-> Hn']. split; [done|]. by intros [_ ?]%Forall_cons.
  - split; [done|]. intros [(mi' & Hmi' & Hk') _]%Forall_cons. cbn [fst snd] in *. congruence.
Qed.

Lemma all_good_lookup ms index : all_good index ms <->
  forall i mi, ms !! i = Some mi -> good (index + Z.of_nat i) mi.
Proof.
  revert index. induction ms as [|mi ms IH]; intros index; cbn [all_good]; [by split; [intros _ i mi ?|]|].
  rewrite IH. split.
  - intros [H1 H2] [|i] x Hx; cbn in Hx; [simplify_eq; by rewrite Z.add_0_r|].
    replace (index + Z.of_nat (S i)) with (index + 1 + Z.of_nat i) by lia. by apply H2.
  - intros H. split; [specialize (H 0%nat mi eq_refl); by rewrite Z.add_0_r in H|].
    intros i x Hx. replace (index + 1 + Z.of_nat i) with (index + Z.of_nat (S i)) by lia. by apply H.
Qed.

Lemma total_size_concat ms : total_size ms = zlen (concat (map_to_list <$> ms)).
Proof.
  induction ms as [|mi ms IH]; cbn; [done|]. rewrite zlen_app, <- IH. unfold zlen. by rewrite length_map_to_list.
Qed.

Lemma all_good_concat ms index : all_good index ms ->
  NoDup (concat (map_to_list <$> ms)) /\
  forall x, x ∈ concat (map_to_list <$> ms) -> index <= owner_of routing n x.1 /\ m !! x.1 = Some x.2.
Proof.
  revert index. induction ms as [|mi ms IH]; intros index; cbn [all_good fmap list_fmap concat].
  { split; [constructor|]. by intros x ?%not_elem_of_nil. }
  intros [Hg Hall]. destruct (IH _ Hall) as [Hnd Hin]. split.
  - apply NoDup_app. split_and!; [apply NoDup_map_to_list| |done]. intros [k r] Hx%elem_of_map_to_list Hc.
    destruct (Hin _ Hc) as [Ho _]. destruct (Hg _ _ Hx) as [Ho' _]. cbn in *. lia.
  - intros [k r] [Hx%elem_of_map_to_list|Hx]%elem_of_app; [destruct (Hg _ _ Hx); cbn in *; split; [lia|done]|].
    destruct (Hin _ Hx). split; [lia|done].
Qed.

Lemma total_size_eq ms : all_good 0 ms -> (forall k r, m !! k = Some r -> held ms (k, r)) ->
  total_size ms = Z.of_nat (size m).
Proof.
  intros Hg Hh. rewrite total_size_concat. unfold zlen. f_equal. rewrite <- length_map_to_list.
  destruct (all_good_concat ms 0 Hg) as [Hnd Hin]. apply Permutation_length, NoDup_Permutation; [done|apply NoDup_map_to_list|].
  intros [k r]. rewrite elem_of_map_to_list. split; [by intros [_ ?]%Hin|]. intros Hk.
  destruct (Hh k r Hk) as (mi & Hmi & Hr). apply list_elem_of_In, in_concat. exists (map_to_list mi).
  split; apply list_elem_of_In; [apply list_elem_of_fmap; exists mi; split; [done|by eapply list_elem_of_lookup_2]|].
  by apply elem_of_map_to_list.
Qed.

(** Every worker holds exactly the entries of the rebuilt index that are routed to it. *)
Definition consistent ms : Prop := forall i mi k r, ms !! i = Some mi ->
  (mi !! k = Some r <-> owner_of routing n k = Z.of_nat i /\ m !! k = Some r).

Lemma consistent_iff ms : length ms = n -> (0 < n)%nat ->
  consistent ms <-> all_good 0 ms /\ forall k r, m !! k = Some r -> held ms (k, r).
Proof.
  intros Hlen Hpos. rewrite all_good_lookup. split.
  - intros H. split; [intros i mi Hi k r Hk; by apply (H i mi k r Hi)|]. intros k r Hk.
    assert (Hr : 0 <= owner_of routing n k < Z.of_nat n) by (apply Z.mod_pos_bound; lia).
    destruct (lookup_lt_is_Some_2 ms (Z.to_nat (owner_of routing n k)) ltac:(lia)) as [mi Hmi].
    exists mi. split; [done|]. apply (H _ _ k r Hmi). split; [lia|done].
  - intros [Hg Hh] i mi k r Hi. split; [by apply (Hg i mi Hi k r)|]. intros [Ho Hk].
    destruct (Hh k r Hk) as (mi' & Hmi' & Hr). cbn [fst snd] in *. rewrite Ho, Nat2Z.id in Hmi'. congruence.
Qed.
End verify.
End properties.

(** C16. A rebuild finds the newest record of every key.  From segments that hold
    [logs] it makes an index of exactly the keys whose record with the highest
    sequence is a put that has not expired, under the reference of that record,
    whatever order the hash map gives its entries in, and it counts the entries.
    It fails only with a sequence conflict, when two records of one key share a
    sequence, or with an overflow, when there are too many keys to address slots for
    (about 2^63) or the long keys it shows exceed the 4 GiB of the key arena. *)
Theorem index_rebuild_exact iterate segments logs now_ns routing seed :
  (forall m, iterate m ≡ₚ map_to_list m) ->
  Forall2 seg_rep segments logs -> zlen (all_records segments logs) < 2 ^ 64 ->
  match rebuild_index_from_segments iterate segments now_ns routing seed with
  | Ok (t, stats) => exists m, table_ok routing seed t m /\ records_visible stats = t_size t /\
      forall k r, m !! k = Some r <-> shows (all_records segments logs) now_ns k r
  | Err e => e = sequence_conflict /\ conflict (all_records segments logs) \/
      e = arithmetic_overflow /\ exceeds (all_records segments logs) now_ns
  | Stuck _ => False
  end.
Proof. apply rebuild_spec. Qed.

(** A rebuild at time zero sees no record as expired. *)
Lemma never_expired (P : Prop) record : P /\ expired record 0 = false <-> P.
Proof. unfold expired. rewrite andb_false_r. cbn. tauto. Qed.

Lemma verify_index_spec iterate segments logs workers ms routing seed :
  (forall m, iterate m ≡ₚ map_to_list m) ->
  Forall2 seg_rep segments logs -> zlen (all_records segments logs) < 2 ^ 64 ->
  Forall2 (fun w mi => exists seed', table_ok routing seed' w mi) workers ms -> workers <> [] ->
  let agree := forall i mi k r, ms !! i = Some mi ->
    (mi !! k = Some r <-> owner_of routing (length workers) k = Z.of_nat i /\
       exists input, newest (all_records segments logs) k (r, input) /\ in_opcode input <> Opcode_erase) in
  let result := verify_index iterate segments workers routing seed in
  (~ conflict (all_records segments logs) -> ~ exceeds (all_records segments logs) 0 ->
     (result = Ok tt <-> agree) /\ (result = Err corrupted_data <-> ~ agree)) /\
  match result with
  | Ok _ => agree
  | Err e => e = corrupted_data /\ ~ agree \/
      e = sequence_conflict /\ conflict (all_records segments logs) \/
      e = arithmetic_overflow /\ exceeds (all_records segments logs) 0
  | Stuck _ => False
  end.
Proof.
  intros Hit Hrep Hlen Hws Hne agree result.
  enough (H : match result with Ok _ => agree | Err e => e = corrupted_data /\ ~ agree \/
      e = sequence_conflict /\ conflict (all_records segments logs) \/
      e = arithmetic_overflow /\ exceeds (all_records segments logs) 0 | Stuck _ => False end).
  { split; [|exact H]. intros Hc He. destruct result as [[]|e|f]; [|destruct H as [[-> H]|[[_ H]|[_ H]]]|]; naive_solver. }
  unfold result, verify_index.
  pose proof (rebuild_spec iterate segments logs 0 routing seed Hit Hrep Hlen) as Hb.
  destruct (rebuild_index_from_segments iterate segments 0 routing seed) as [[t stats]|e|f]; cbn [bindR fst snd]; [|by right|done].
  destruct Hb as (m & Htab & -> & Hm). rewrite Z.eqb_refl. cbn [negb].
  set (n := length workers). assert (Hn : (0 < n)%nat) by (destruct workers; [done|cbn in n; lia]).
  assert (Hms : length ms = n) by by rewrite <- (Forall2_length _ _ _ Hws).
  assert (Hag : agree <-> consistent routing m n ms).
  { assert (Hvis : forall k r, m !! k = Some r <-> exists input, newest (all_records segments logs) k (r, input) /\
      in_opcode input <> Opcode_erase) by (intros k r; rewrite Hm; unfold shows; by setoid_rewrite never_expired).
    unfold agree, consistent. by setoid_rewrite Hvis. }
  rewrite (consistent_iff _ _ _ _ Hms Hn) in Hag. unfold zlen. fold n.
  pose proof (verify_workers_spec routing seed t m Htab n workers ms Hws 0 0 ltac:(width; lia)) as Hv.
  destruct (verify_workers t routing (Z.of_nat n) 0 workers 0) as [c|e|f]; cbn [bindR]; [| |done].
  2:{ destruct Hv as [-> Hv]. left. split; [done|]. rewrite Hag. by intros [? _]. }
  destruct Hv as [Hg ->]. pose proof (table_size _ _ _ _ Htab) as Hsz.
  destruct (occupancy_facts _ _ _ _ Htab) as (_ & _ & ? & ? & ? & ? & ?).
  destruct (Z.eqb_spec (u64 (0 + total_size ms)) (t_size t)) as [_|Hc]; cbn [negb].
  2:{ left. split; [done|]. rewrite Hag. intros [_ Hh]. apply Hc. rewrite (total_size_eq _ _ _ _ Hg Hh), Hsz, wrap_small; [done|].
      unfold is_uint. lia. }
  destruct (entries_spec _ _ _ _ Htab) as (l & -> & _ & Hl). cbn [bindR].
  assert (Hk : Forall (fun x => bytes_ok x.1) l).
  { rewrite Hl. apply Forall_forall. intros [k r] Hin%elem_of_map_to_list. by eapply table_keys. }
  assert (Hheld : Forall (held routing n ms) l <-> forall k r, m !! k = Some r -> held routing n ms (k, r)).
  { rewrite Hl, Forall_forall. split; [intros H' k r Hkr; by apply H', elem_of_map_to_list|].
    by intros H' [k r] ?%elem_of_map_to_list; apply H'. }
  pose proof (verify_rebuilt_spec routing seed t m Htab n workers ms l Hws eq_refl Hn Hk) as Hr.
  destruct (verify_rebuilt workers routing l) as [[]|e|f]; [| |done].
  - apply Hag. split; [done|]. by apply Hheld.
  - destruct Hr as [-> Hr]. left. split; [done|]. rewrite Hag. intros [_ Hh]. by apply Hr, Hheld.
Qed.

(** C27. [verify_index] accepts a volatile store exactly when every worker's index
    holds the newest put of each key routed to it, and nothing else: when that is so it
    answers success, and otherwise corrupted data.  Only when the rebuild itself fails
    does it answer something else: a sequence conflict for two records of one key with
    the same sequence, an overflow for more keys than an index can hold. *)
Theorem verify_index_exact iterate segments logs workers ms routing seed :
  (forall m, iterate m ≡ₚ map_to_list m) ->
  Forall2 seg_rep segments logs -> zlen (all_records segments logs) < 2 ^ 64 ->
  Forall2 (fun w mi => exists seed', table_ok routing seed' w mi) workers ms -> workers <> [] ->
  let agree := forall i mi k r, ms !! i = Some mi ->
    (mi !! k = Some r <-> owner_of routing (length workers) k = Z.of_nat i /\
       exists input, newest (all_records segments logs) k (r, input) /\ in_opcode input <> Opcode_erase) in
  let result := verify_index iterate segments workers routing seed in
  (~ conflict (all_records segments logs) -> ~ exceeds (all_records segments logs) 0 ->
     (result = Ok tt <-> agree) /\ (result = Err corrupted_data <-> ~ agree)) /\
  match result with
  | Ok _ => agree
  | Err e => e = corrupted_data /\ ~ agree \/
      e = sequence_conflict /\ conflict (all_records segments logs) \/
      e = arithmetic_overflow /\ exceeds (all_records segments logs) 0
  | Stuck _ => False
  end.
Proof. apply verify_index_spec. Qed.

(** ** Witnesses *)

Lemma sample_segments_rep : Forall2 seg_rep [sample_segment] [[sample_input]].
Proof. constructor; [apply sample_segment_rep|constructor]. Qed.

(** The reference of the record of [sample_segment], and an index that holds it. *)
Definition lone_ref : RecordRef := ref_after sample_segment [] sample_input.
Definition lone_index : SwissTableIndex := (insert_or_assign_key (in_key sample_input) lone_ref (new_table sample_routing 5)).2.
Definition lone_map : gmap (list Z) RecordRef := {[ in_key sample_input := lone_ref ]}.

Lemma lone_index_ok : table_ok sample_routing 5 lone_index lone_map.
Proof.
  pose proof (insert_key_fresh sample_routing 5 (new_table sample_routing 5) ∅ (in_key sample_input) lone_ref
    (empty_fresh sample_routing 5 3 ltac:(lia))) as H.
  unfold lone_index, lone_map. destruct (insert_or_assign_key _ _ _) as [[r|e|f] t] eqn:E; cbn [runs] in H.
  - destruct H as ([H _] & _); [apply lookup_empty|apply sample_input_ok|vm_compute; reflexivity..|exact H].
  - exfalso. revert E. vm_compute. discriminate.
  - exfalso. revert E. vm_compute. discriminate.
Qed.

Lemma sample_newest k r input : newest (all_records [sample_segment] [[sample_input]]) k (r, input) <->
  k = in_key sample_input /\ r = lone_ref /\ input = sample_input.
Proof.
  change (all_records [sample_segment] [[sample_input]]) with [(lone_ref, sample_input)]. unfold newest. cbn [snd]. split.
  - intros (Hin & Hk & _). apply list_elem_of_singleton in Hin. injection Hin as -> ->. done.
  - intros (-> & -> & ->). split; [by left|]. split; [done|]. intros e He _. apply list_elem_of_singleton in He as ->. by left.
Qed.

Lemma lone_newest : newest (all_records [sample_segment] [[sample_input]]) (in_key sample_input) (lone_ref, sample_input).
Proof. apply (proj2 (sample_newest (in_key sample_input) lone_ref sample_input)). split_and!; reflexivity. Qed.

Lemma sample_no_conflict : ~ conflict (all_records [sample_segment] [[sample_input]]).
Proof. intros (i & j & e & e' & Hne & Hi%lookup_lt_Some & Hj%lookup_lt_Some & _). cbn in Hi, Hj. lia. Qed.

Lemma sample_not_exceeds : ~ exceeds (all_records [sample_segment] [[sample_input]]) 0.
Proof.
  assert (Hone : forall keys, NoDup keys -> (forall k, k ∈ keys -> k = in_key sample_input) -> keys = [] \/ keys = [in_key sample_input]).
  { intros [|k [|k' keys]] Hnd Hk; [by left|right; f_equal; apply Hk; by left|]. exfalso.
    assert (k = k') as -> by (rewrite (Hk k), (Hk k'); [done|by right; left|by left]). apply NoDup_cons in Hnd as [H _]. apply H. by left. }
  intros (keys & Hnd & [[Hk Hbig]|[Hk Hbig]]); destruct (Hone keys Hnd) as [-> | ->]; try (vm_compute in Hbig; discriminate Hbig).
  - intros k Hin. destruct (Hk k Hin) as (e & He & <-). by apply list_elem_of_singleton in He as ->.
  - intros k Hin. destruct (Hk k Hin) as (r & input & Hn & _). by apply sample_newest in Hn as (-> & _).
Qed.

(** A rebuild that succeeds, with the one record. *)
Lemma index_rebuild_exact_witness : exists t stats m,
  rebuild_index_from_segments map_to_list [sample_segment] 0 sample_routing 5 = Ok (t, stats) /\
  table_ok sample_routing 5 t m /\ t_size t = 1 /\ m !! in_key sample_input = Some lone_ref.
Proof.
  pose proof (index_rebuild_exact map_to_list [sample_segment] [[sample_input]] 0 sample_routing 5 ltac:(done)
    sample_segments_rep ltac:(vm_compute; reflexivity)) as H.
  assert (E : match rebuild_index_from_segments map_to_list [sample_segment] 0 sample_routing 5 with
              | Ok (t, _) => t_size t | _ => 0 end = 1) by (vm_compute; reflexivity).
  destruct (rebuild_index_from_segments _ _ _ _ _) as [[t stats]|e|f]; [|discriminate E..].
  destruct H as (m & Ht & _ & Hm). exists t, stats, m. split_and!; [reflexivity|exact Ht|exact E|].
  apply Hm. exists sample_input. split; [exact lone_newest|]. split; [discriminate|vm_compute; reflexivity].
Defined.

Lemma sample_workers w mi : table_ok sample_routing 5 w mi ->
  Forall2 (fun w mi => exists seed', table_ok sample_routing seed' w mi) [w] [mi].
Proof. intros H. constructor; [by exists 5|constructor]. Qed.

(** The index that holds the record is accepted, the empty one is not. *)
Lemma lone_agrees i mi k r : [lone_map] !! i = Some mi ->
  mi !! k = Some r <-> owner_of sample_routing 1 k = Z.of_nat i /\
    exists input, newest (all_records [sample_segment] [[sample_input]]) k (r, input) /\ in_opcode input <> Opcode_erase.
Proof.
  intros Hi. assert (i = 0%nat /\ mi = lone_map) as [-> ->] by (destruct i as [|[|i]]; by simplify_eq/=).
  assert (Ho : owner_of sample_routing 1 (in_key sample_input) = 0) by (vm_compute; reflexivity).
  unfold lone_map. rewrite lookup_singleton_Some. split.
  - intros [<- <-]. split; [exact Ho|]. exists sample_input. split; [exact lone_newest|discriminate].
  - intros [_ (input & (-> & -> & _)%sample_newest & _)]. split; reflexivity.
Qed.

Lemma verify_index_exact_witness :
  verify_index map_to_list [sample_segment] [lone_index] sample_routing 5 = Ok tt /\
  verify_index map_to_list [sample_segment] [new_table sample_routing 5] sample_routing 5 = Err corrupted_data.
Proof.
  split.
  - destruct (verify_index_exact map_to_list [sample_segment] [[sample_input]] [lone_index] [lone_map] sample_routing 5
      ltac:(done) sample_segments_rep ltac:(vm_compute; reflexivity) (sample_workers _ _ lone_index_ok) ltac:(discriminate)) as [H _].
    exact (proj2 (proj1 (H sample_no_conflict sample_not_exceeds)) lone_agrees).
  - destruct (verify_index_exact map_to_list [sample_segment] [[sample_input]] [new_table sample_routing 5] [∅] sample_routing 5
      ltac:(done) sample_segments_rep ltac:(vm_compute; reflexivity)
      (sample_workers _ _ (empty_ok sample_routing 5 3 ltac:(lia))) ltac:(discriminate)) as [H _].
    refine (proj2 (proj2 (H sample_no_conflict sample_not_exceeds)) _). clear H.
    intros H. destruct (H 0%nat ∅ (in_key sample_input) lone_ref eq_refl) as [_ Hin].
    assert (None = Some lone_ref) as [=]. rewrite <- (lookup_empty (in_key sample_input)). apply Hin.
    assert (Ho : owner_of sample_routing 1 (in_key sample_input) = 0) by (vm_compute; reflexivity).
    split; [exact Ho|]. exists sample_input. split; [exact lone_newest|discriminate].
Defined.
