(* ===== verification/SegmentManager.v ===== *)
(** * The segment manager

    Models src/segment/global_manager.cpp: the catalog of live segments that all
    workers share.  Segments are objects behind shared pointers, held by the
    catalog and by the workers at once, so the model has a store of segments and
    the catalog maps identities to addresses.  Each method runs under the mutex of
    the manager and is one step here. *)

From stdpp Require Import sorting.
From S2P Require Import Prelude Core Crc32c Record Segment.

(** The address of a segment object.  [SegmentPtr] is a shared pointer to one; the
    containers never hold a null pointer, since they take the identity of what
    they store first. *)
Abbreviation Ptr := positive.
Abbreviation SegmentPtr := (option Ptr).

Record World := mkWorld {
  heap : gmap Ptr Segment;
  next_ptr : Ptr;
  next_id : Z;
  catalog : gmap Z Ptr;
  retired_count : Z
}.

(** [GlobalSegmentManager::GlobalSegmentManager(first_id)] *)
Definition new_world (first_id : Z) : World := mkWorld ∅ 1 first_id ∅ 0.

Definition with_heap (w : World) (h : gmap Ptr Segment) : World :=
  mkWorld h (next_ptr w) (next_id w) (catalog w) (retired_count w).
Definition with_catalog (w : World) (c : gmap Z Ptr) : World :=
  mkWorld (heap w) (next_ptr w) (next_id w) c (retired_count w).

(** [*p] *)
Definition deref (p : Ptr) : Method World Segment := fun w =>
  match heap w !! p with Some s => (Ok s, w) | None => (Stuck out_of_bounds, w) end.
(** A call of a method that changes the segment when it succeeds. *)
Definition call {A} (p : Ptr) (f : Segment -> Result (A * Segment)) : Method World A :=
  let! s := deref p in
  let! r := liftM (f s) in
  modifyM (fun w => with_heap w (<[p := r.2]> (heap w))) ;;!
  retM r.1.
Definition call_unit (p : Ptr) (f : Segment -> Result Segment) : Method World unit :=
  call p (fun s => let? s' := f s in Ok (tt, s')).

(** [std::make_shared<Segment>(next_id_, owner)] followed by [++next_id_.value] *)
Definition make_segment (owner : Z) : Method World Ptr := fun w =>
  (Ok (next_ptr w),
   mkWorld (<[next_ptr w := new_segment (next_id w) owner 1]> (heap w)) (Pos.succ (next_ptr w))
     (u64 (next_id w + 1)) (catalog w) (retired_count w)).

Definition register_segment (segment : Ptr) : Method World Ptr :=
  let! s := deref segment in
  modifyM (fun w => with_catalog w (<[seg_id s := segment]> (catalog w))) ;;!
  retM segment.

(** The source registers the segment before it increments the counter; nothing
    reads the counter in between. *)
Definition allocate_active (owner : Z) : Method World Ptr :=
  let! segment := make_segment owner in register_segment segment.

Definition prepare_segment (owner : Z) : Method World Ptr :=
  let! w := getM in
  if next_id w =? umax 64 then failM arithmetic_overflow else make_segment owner.

Definition is_active (s : Segment) : bool := bool_decide (seg_state s = seg_active).

Definition prepare_rotation (active : SegmentPtr) (owner : Z) : Method World Ptr :=
  match active with
  | None => failM invalid_argument
  | Some active =>
      let! s := deref active in
      if negb (is_active s) then failM invalid_argument
      else
      let! w := getM in
      match catalog w !! seg_id s with
      | None => failM invalid_reference
      | Some found =>
          if negb (bool_decide (found = active)) || negb (seg_owner s =? owner)
          then failM invalid_reference
          else if next_id w =? umax 64 then failM arithmetic_overflow
          else make_segment owner
      end
  end.

Definition commit_rotation (active replacement : SegmentPtr) : Method World unit :=
  match active, replacement with
  | Some active, Some replacement =>
      let! a := deref active in
      let! r := deref replacement in
      if negb (is_active a) || negb (is_active r) || negb (seg_owner a =? seg_owner r)
      then failM invalid_argument
      else
      let! w := getM in
      match catalog w !! seg_id a with
      | None => failM invalid_reference
      | Some found =>
          if negb (bool_decide (found = active)) || bool_decide (is_Some (catalog w !! seg_id r))
          then failM invalid_reference
          else
          register_segment replacement ;;!
          fun w =>
          match call_unit active seal w with
          | (Err e, w) => (Err e, with_catalog w (delete (seg_id r) (catalog w)))
          | result => result
          end
      end
  | _, _ => failM invalid_argument
  end.

(** The loops of [replace_sealed] over the sources and the replacements; the
    identities already seen are the prefix. *)
Fixpoint check_sources (owner : option Z) (seen sources : list Z) : Method World (option Z) :=
  match sources with
  | [] => retM owner
  | id :: sources =>
      let! w := getM in
      match catalog w !! id with
      | None => failM invalid_argument
      | Some found =>
          let! s := deref found in
          if negb (bool_decide (seg_state s = seg_sealed)) || negb (live_records (seg_stats s) =? 0)
          then failM invalid_argument
          else
          let! owner := match owner with
                        | None => retM (seg_owner s)
                        | Some owner => if negb (seg_owner s =? owner) then failM invalid_argument else retM owner
                        end in
          if bool_decide (id ∈ seen) then failM invalid_argument
          else check_sources (Some owner) (seen ++ [id]) sources
      end
  end.

Fixpoint check_replacements (owner : option Z) (seen : list Z) (replacements : list SegmentPtr) : Method World unit :=
  match replacements with
  | [] => retM tt
  | None :: _ => failM invalid_argument
  | Some replacement :: replacements =>
      let! s := deref replacement in
      let! w := getM in
      if negb (bool_decide (seg_state s = seg_sealed)) || negb (bool_decide (owner = Some (seg_owner s))) ||
         bool_decide (is_Some (catalog w !! seg_id s))
      then failM invalid_argument
      else if bool_decide (seg_id s ∈ seen) then failM invalid_argument
      else check_replacements owner (seen ++ [seg_id s]) replacements
  end.

Fixpoint register_all (replacements : list SegmentPtr) : Method World unit :=
  match replacements with
  | [] => retM tt
  | None :: _ => liftM (Stuck out_of_bounds)
  | Some r :: replacements => register_segment r ;;! register_all replacements
  end.

Definition count_retired : Method World unit :=
  modifyM (fun w => mkWorld (heap w) (next_ptr w) (next_id w) (catalog w) (u64 (retired_count w + 1))).

Fixpoint retire_all (sources : list Z) : Method World unit :=
  match sources with
  | [] => retM tt
  | id :: sources =>
      let! w := getM in
      match catalog w !! id with
      | None => liftM (Stuck out_of_bounds)
      | Some found =>
          ignoreM (call_unit found retire) ;;!
          modifyM (fun w => with_catalog w (delete id (catalog w))) ;;!
          count_retired ;;!
          retire_all sources
      end
  end.

Definition replace_sealed (sources : list Z) (replacements : list SegmentPtr) : Method World unit :=
  match sources with
  | [] => failM invalid_argument
  | _ =>
      let! owner := check_sources None [] sources in
      check_replacements owner [] replacements ;;!
      register_all replacements ;;!
      retire_all sources
  end.

(** [GlobalSegmentManager::find] *)
Definition manager_find (id : Z) (w : World) : SegmentPtr := catalog w !! id.

(** The catalog in any order, sorted by the identities of the segments. *)
Definition id_le (a b : Z * Ptr) : Prop := a.1 <= b.1.
#[export] Instance id_le_dec : RelDecision id_le.
Proof. intros a b. unfold id_le. apply _. Defined.

Fixpoint with_ids (l : list Ptr) : Method World (list (Z * Ptr)) :=
  match l with
  | [] => retM []
  | p :: l => let! s := deref p in let! r := with_ids l in retM ((seg_id s, p) :: r)
  end.

Definition segments : Method World (list Ptr) :=
  let! w := getM in
  let! l := with_ids (map_to_list (catalog w)).*2 in
  retM (merge_sort id_le l).*2.

Definition try_retire (id : Z) : Method World unit :=
  let! w := getM in
  match catalog w !! id with
  | None => failM invalid_reference
  | Some found =>
      call_unit found retire ;;!
      modifyM (fun w => with_catalog w (delete id (catalog w))) ;;!
      count_retired
  end.
