(* ===== verification/Worker.v ===== *)
(** * Workers

    Models src/worker/worker.cpp: the volatile engine of one worker, which appends
    records to its active segment, publishes their references in its index, keeps
    the liveness counts of its segments, rotates full segments and retires empty
    ones.  The state is the world of SegmentManager.v, shared with other workers,
    and the worker itself.

    Injected faults are arguments: each is the answer of [consume_fail] at its
    site.  Methods run under the mutex of the worker, or by its exclusive writer;
    the gate between the two is in QuiesceGate.v.  The methods that may lock
    [mutex_] themselves take the argument [held]: the calling thread has it
    already. *)

From S2P Require Import Prelude Core Crc32c Record Segment Routing SwissTable SegmentManager.

Record Worker := mkWorker {
  w_id : Z;
  w_index : SwissTableIndex;
  w_active : Ptr;
  w_next_sequence : Z;
  w_owned : list Ptr;
  w_owned_by_id : gmap Z Ptr;
  w_exclusive_writer : bool;
  w_index_quiesce_active : bool
}.

Record Sys := mkSys { sys_world : World; sys_worker : Worker }.

Definition with_index (w : Worker) (index : SwissTableIndex) : Worker :=
  mkWorker (w_id w) index (w_active w) (w_next_sequence w) (w_owned w) (w_owned_by_id w)
    (w_exclusive_writer w) (w_index_quiesce_active w).
Definition with_active (w : Worker) (active : Ptr) : Worker :=
  mkWorker (w_id w) (w_index w) active (w_next_sequence w) (w_owned w) (w_owned_by_id w)
    (w_exclusive_writer w) (w_index_quiesce_active w).
Definition with_sequence (w : Worker) (sequence : Z) : Worker :=
  mkWorker (w_id w) (w_index w) (w_active w) sequence (w_owned w) (w_owned_by_id w)
    (w_exclusive_writer w) (w_index_quiesce_active w).
Definition with_owned (w : Worker) (owned : list Ptr) (by_id : gmap Z Ptr) : Worker :=
  mkWorker (w_id w) (w_index w) (w_active w) (w_next_sequence w) owned by_id
    (w_exclusive_writer w) (w_index_quiesce_active w).
Definition with_flags (w : Worker) (exclusive active : bool) : Worker :=
  mkWorker (w_id w) (w_index w) (w_active w) (w_next_sequence w) (w_owned w) (w_owned_by_id w) exclusive active.

(** Calls of the manager, of a segment and of the index. *)
Definition on_world {A} (m : Method World A) : Method Sys A := fun s =>
  let '(r, w) := m (sys_world s) in (r, mkSys w (sys_worker s)).
Definition on_index {A} (m : Method SwissTableIndex A) : Method Sys A := fun s =>
  let '(r, index) := m (w_index (sys_worker s)) in
  (r, mkSys (sys_world s) (with_index (sys_worker s) index)).
Definition worker : Method Sys Worker := fun s => (Ok (sys_worker s), s).
Definition modify_worker (f : Worker -> Worker) : Method Sys unit := fun s =>
  (Ok tt, mkSys (sys_world s) (f (sys_worker s))).
Definition validate_live_record (segment : Segment) (ref : RecordRef) : Status :=
  validate_ref_extent segment ref ;;?
  if (live_records (seg_stats segment) =? 0) || (live_bytes (seg_stats segment) <? ref_size ref)
  then Err corrupted_data
  else Ok tt.

(** [indeterminate_after_append] *)
Definition indeterminate_after_append {S A} (m : Method S A) : Method S A := fun s =>
  match m s with (Err _, s') => (Err unavailable, s') | r => r end.

Definition register_owned_segment (segment : Ptr) : Method Sys unit :=
  let! s := on_world (deref segment) in
  let! w := worker in
  match w_owned_by_id w !! seg_id s with
  | Some _ => liftM (Stuck uncaught_exception)
  | None => modify_worker (fun w => with_owned w (w_owned w ++ [segment]) (<[seg_id s := segment]> (w_owned_by_id w)))
  end.

Fixpoint erase_owned (id : Z) (owned : list Ptr) : Method World (list Ptr) :=
  match owned with
  | [] => retM []
  | p :: owned =>
      let! s := deref p in
      let! owned := erase_owned id owned in
      retM (if seg_id s =? id then owned else p :: owned)
  end.

Definition unregister_owned_segment (id : Z) : Method Sys unit :=
  let! w := worker in
  let! owned := on_world (erase_owned id (w_owned w)) in
  modify_worker (fun w => with_owned w owned (delete id (w_owned_by_id w))).

Definition find_owned_segment (id : Z) : Method Sys SegmentPtr :=
  let! w := worker in retM (w_owned_by_id w !! id).

Definition maybe_retire (segment : Ptr) : Method Sys unit :=
  let! s := on_world (deref segment) in
  if negb (bool_decide (seg_state s = seg_sealed)) || negb (live_records (seg_stats s) =? 0) then retM tt
  else
  fun sys =>
  match on_world (try_retire (seg_id s)) sys with
  | (Err _, sys) => (Ok tt, sys)
  | (Ok _, sys) => unregister_owned_segment (seg_id s) sys
  | (Stuck f, sys) => (Stuck f, sys)
  end.

Definition next_sequence : Method Sys Z :=
  let! w := worker in
  modify_worker (fun w => with_sequence w (u64 (w_next_sequence w + 1))) ;;!
  retM (w_next_sequence w).

(** The scope of an [ExclusiveIndexQuiesce] guard on a worker with an exclusive
    writer: the gate is closed from before [m] to its end. *)
Definition exclusive_index_quiesce {A} (m : Method Sys A) : Method Sys A :=
  let! w := worker in
  let closed := w_exclusive_writer w in
  let gate (active : bool) :=
    if (closed : bool) then modify_worker (fun w => with_flags w closed active) else retM tt in
  gate true ;;!
  on_exit (gate false) m.

Section worker.
(** A build without [NDEBUG]. *)
Context (debug : bool).

Definition append_to (segment : Ptr) (input : RecordInput) : Method Sys RecordRef :=
  on_world (call segment (fun s => append debug s input)).

(** The branch of [append_record] for a full segment. *)
Definition rotate (input : RecordInput) : Method Sys RecordRef :=
  let! w := worker in
  let sealed := w_active w in
  let! replacement := on_world (prepare_rotation (Some sealed) (w_id w)) in
  register_owned_segment replacement ;;!
  on_error (on_world (commit_rotation (Some sealed) (Some replacement)))
    (let! s := on_world (deref replacement) in unregister_owned_segment (seg_id s)) ;;!
  modify_worker (fun w => with_active w replacement) ;;!
  maybe_retire sealed ;;!
  append_to replacement input.

Definition append_record (fault_rotate : bool) (input : RecordInput) : Method Sys RecordRef :=
  if fault_rotate then failM invalid_reference
  else
  let! w := worker in
  fun sys =>
  match append_to (w_active w) input sys with
  | (Err segment_full, sys) => rotate input sys
  | r => r
  end.

Definition read_ref (ref : RecordRef) : Method Sys RecordView :=
  let! segment := find_owned_segment (ref_segment_id ref) in
  match segment with
  | None => failM invalid_reference
  | Some segment => let! s := on_world (deref segment) in liftM (read s ref)
  end.

(** The lambda [rollback_index] of [publish]. *)
Definition rollback_index (key : HashedKey) (ref : RecordRef) (previous_ref : option RecordRef) : Method Sys unit :=
  match previous_ref with
  | Some p => fun sys =>
      match on_index (insert_or_assign key p) sys with
      | (Ok restored, sys) =>
          if negb (bool_decide (previous restored = Some ref)) then (Err corrupted_data, sys) else (Ok tt, sys)
      | (Err _, sys) => (Err corrupted_data, sys)
      | (Stuck f, sys) => (Stuck f, sys)
      end
  | None =>
      let! removed := on_index (SwissTable.erase key) in
      if negb (bool_decide (previous removed = Some ref)) then failM corrupted_data else retM tt
  end.

Definition publish (key : HashedKey) (ref : RecordRef) (segment : Ptr) : Method Sys unit :=
  let! s := on_world (deref segment) in
  let! w := worker in
  if negb (seg_id s =? ref_segment_id ref) || negb (seg_owner s =? w_id w) then failM invalid_reference
  else
  let! mutation := on_index (insert_or_assign key ref) in
  let rollback := rollback_index key ref (previous mutation) in
  let! previous_segment :=
    match previous mutation with
    | None => retM None
    | Some p =>
        let! previous_segment := find_owned_segment (ref_segment_id p) in
        match previous_segment with
        | None => rollback ;;! failM invalid_reference
        | Some ps =>
            let! s := on_world (deref ps) in
            on_error (liftM (validate_live_record s p)) rollback ;;!
            retM (Some (ps, p))
        end
    end in
  on_error (on_world (call_unit segment (fun s => mark_live s ref))) rollback ;;!
  match previous_segment with
  | None => retM tt
  | Some (ps, p) =>
      on_error (on_world (call_unit ps (fun s => mark_dead s p)))
        (ignoreM (on_world (call_unit segment (fun s => mark_dead s ref))) ;;! rollback) ;;!
      maybe_retire ps
  end.

(** The calling thread holds [mutex_]. *)
Context (held : bool).

(** The check that opens [put_locked_published] and [erase_locked_published] in a
    build without [NDEBUG]: an exclusive writer locks [mutex_] and unlocks it.  A
    thread that holds the mutex already never gets past [lock.lock()]. *)
Definition check_hot_path : Method Sys unit :=
  let! w := worker in
  if debug && w_exclusive_writer w && held then liftM (Stuck self_deadlock) else retM tt.

Record WorkerMutationPublication := mkPublication {
  pub_record : RecordRef;
  pub_segment : Ptr;
  pub_opcode : Z
}.

Definition put_locked_published (fault_rotate fault_index : bool) (key : HashedKey) (value : list Z)
    (expire_at_ns : Z) : Method Sys WorkerMutationPublication :=
  check_hot_path ;;!
  let! w := worker in
  if w_exclusive_writer w && w_index_quiesce_active w then failM sequence_conflict
  else
  let! sequence := next_sequence in
  let input := mkRecordInput sequence Opcode_put ValueType_bytes 0 (hk_hash key) expire_at_ns (hk_key key) value in
  let! ref := append_record fault_rotate input in
  let! w := worker in
  let segment := w_active w in
  if (fault_index : bool) then failM unavailable
  else
  indeterminate_after_append (publish key ref segment) ;;!
  retM (mkPublication ref segment Opcode_put).

Definition put_locked (fault_rotate fault_index : bool) (key : HashedKey) (value : list Z) (expire_at_ns : Z) :
    Method Sys unit :=
  put_locked_published fault_rotate fault_index key value expire_at_ns ;;! retM tt.

Definition erase_locked_published (fault_rotate : bool) (key : HashedKey) : Method Sys WorkerMutationPublication :=
  check_hot_path ;;!
  let! w := worker in
  if w_exclusive_writer w && w_index_quiesce_active w then failM sequence_conflict
  else
  let! existing := liftM (SwissTable.find (w_index w) key) in
  match existing with
  | None => failM not_found
  | Some existing =>
      let! previous_segment := find_owned_segment (ref_segment_id existing) in
      match previous_segment with
      | None => failM invalid_reference
      | Some previous_segment =>
          let! s := on_world (deref previous_segment) in
          liftM (validate_live_record s existing) ;;!
          let! sequence := next_sequence in
          let input := mkRecordInput sequence Opcode_erase ValueType_bytes 0 (hk_hash key) 0 (hk_key key) [] in
          let! ref := append_record fault_rotate input in
          indeterminate_after_append (on_world (call_unit previous_segment (fun s => mark_dead s existing))) ;;!
          let! mutation := on_index (SwissTable.erase key) in
          if negb (bool_decide (previous mutation = Some existing))
          then ignoreM (on_world (call_unit previous_segment (fun s => mark_live s existing))) ;;!
               failM unavailable
          else
          let! w := worker in
          let segment := w_active w in
          maybe_retire previous_segment ;;!
          retM (mkPublication ref segment Opcode_erase)
      end
  end.

Definition erase_locked (fault_rotate : bool) (key : HashedKey) : Method Sys unit :=
  erase_locked_published fault_rotate key ;;! retM tt.

Definition get_locked (fault_rotate : bool) (key : HashedKey) (now_ns : Z) : Method Sys RecordView :=
  let! w := worker in
  let! ref := liftM (SwissTable.find (w_index w) key) in
  match ref with
  | None => failM not_found
  | Some ref =>
      let! record := read_ref ref in
      if rv_opcode record =? Opcode_erase then failM not_found
      else if expired record now_ns
      then erase_locked fault_rotate key ;;! failM not_found
      else retM record
  end.

Definition set_exclusive_writer (exclusive : bool) : Method Sys unit :=
  modify_worker (fun w => with_flags w exclusive (w_index_quiesce_active w)).
End worker.

(** [Worker::get], [Worker::put] and [Worker::erase], which lock [mutex_]. *)
Definition worker_get (debug fault_rotate : bool) (key : HashedKey) (now_ns : Z) : Method Sys RecordView :=
  get_locked debug true fault_rotate key now_ns.
Definition worker_put (debug fault_rotate fault_index : bool) (key : HashedKey) (value : list Z) (expire_at_ns : Z) :
    Method Sys unit :=
  put_locked debug true fault_rotate fault_index key value expire_at_ns.
Definition worker_erase (debug fault_rotate : bool) (key : HashedKey) : Method Sys unit :=
  erase_locked debug true fault_rotate key.

(** The volatile part of [StoreAccess::get_owned]: under an exclusive writer the
    read holds the gate closed from before the mutex to its end. *)
Definition get_owned (debug fault_rotate : bool) (key : HashedKey) (now_ns : Z) : Method Sys (list Z * Z * Z) :=
  exclusive_index_quiesce (
    let! record := get_locked debug true fault_rotate key now_ns in
    retM (rv_value record, rv_sequence record, rv_expire_at_ns record)).

(** [Worker::Worker(id, manager, routing)] *)
Definition new_worker (id : Z) (routing : WorkerRoutingState) (seed : Z) : World -> Result Sys * World := fun w =>
  match allocate_active id w with
  | (Ok active, w) =>
      match register_owned_segment active
              (mkSys w (mkWorker id (new_table routing seed) active 1 [] ∅ false false)) with
      | (Ok _, sys) => (Ok sys, sys_world sys)
      | (Err e, sys) => (Err e, sys_world sys)
      | (Stuck f, sys) => (Stuck f, sys_world sys)
      end
  | (Err e, w) => (Err e, w)
  | (Stuck f, w) => (Stuck f, w)
  end.
