(* ===== verification/WorkerSpec.v ===== *)
(** * A worker is a key-value map with expiry

    [worker_ok sys kv] says that the segments, the catalog, the liveness counts and
    the index of a worker together stand for the map [kv] from keys to values with
    their expiry times.  Every operation of Worker.v keeps it and changes the map
    as its name says; operations of one worker leave the others alone. *)

From Stdlib Require Import ZifyBool.
From S2P Require Import Prelude Core Crc32c Record Segment Routing Probing SwissTable SwissTableSpec SegmentManager Worker.

Abbreviation index_map := (gmap (list Z) RecordRef).
Abbreviation kv_map := (gmap (list Z) (list Z * Z)).
Implicit Types (m : index_map) (kv : kv_map) (p q : Ptr) (logs : gmap Ptr (list RecordInput)).

Lemma bindM_worker {B} (k : Worker -> Method Sys B) s : bindM worker k s = k (sys_worker s) s.
Proof. done. Qed.
Lemma bindM_modify_worker {B} f (k : unit -> Method Sys B) s :
  bindM (modify_worker f) k s = k tt (mkSys (sys_world s) (f (sys_worker s))).
Proof. done. Qed.
Ltac wsteps := repeat (rewrite bindM_worker || rewrite bindM_modify_worker || steps1).

(** ** References of the index per segment *)

Definition live_in (id : Z) m : list RecordRef := filter (fun r => ref_segment_id r = id) (map_to_list m).*2.

Lemma elem_of_live_in id m r : r ∈ live_in id m <-> ref_segment_id r = id /\ exists k, m !! k = Some r.
Proof.
  unfold live_in. rewrite list_elem_of_filter, list_elem_of_fmap. split.
  - intros [Hid ([k r'] & -> & Hin)]. apply elem_of_map_to_list in Hin. eauto.
  - intros [Hid [k Hk]]. split; [done|]. exists (k, r). split; [done|]. by apply elem_of_map_to_list.
Qed.

Lemma live_in_insert id m k r : m !! k = None ->
  live_in id (<[k := r]> m) ≡ₚ if decide (ref_segment_id r = id) then r :: live_in id m else live_in id m.
Proof.
  intros Hk. unfold live_in. rewrite map_to_list_insert by done. cbn [fmap list_fmap].
  by rewrite filter_cons.
Qed.

Lemma live_in_delete id m k r : m !! k = Some r ->
  live_in id m ≡ₚ if decide (ref_segment_id r = id) then r :: live_in id (delete k m) else live_in id (delete k m).
Proof.
  intros Hk. rewrite <- (live_in_insert _ _ k) by apply lookup_delete_eq. by rewrite insert_delete_id.
Qed.

Lemma live_in_replace id m k r r' : m !! k = Some r' ->
  live_in id (<[k := r]> m) ≡ₚ
    if decide (ref_segment_id r = id) then r :: live_in id (delete k m) else live_in id (delete k m).
Proof.
  intros Hk. rewrite <- (live_in_insert id _ k r) by apply lookup_delete_eq. by rewrite insert_delete_eq.
Qed.

#[export] Instance live_ok_proper s log : Proper ((≡ₚ) ==> iff) (live_ok s log).
Proof.
  assert (forall l k, l ≡ₚ k -> live_ok s log l -> live_ok s log k) as H.
  { intros l k E [Hr Hs Hc Ht]. split; [done| | |].
    - by rewrite <- E.
    - rewrite Hc. unfold zlen. by rewrite E.
    - rewrite Ht. by rewrite E. }
  intros l k E. split; apply H; [done|by symmetry].
Qed.

Lemma live_ok_state s log l st : live_ok s log l -> live_ok (with_state s st) log l.
Proof.
  intros [Hr Hs Hc Ht]. split; try done; [by destruct Hr|]. by rewrite (log_refs_ext _ s).
Qed.

(** ** The invariant *)

Definition world_ok (w : World) : Prop :=
  (forall p s, heap w !! p = Some s -> (p < next_ptr w)%positive) /\
  (forall id p, catalog w !! id = Some p -> id < next_id w) /\ is_u64 (next_id w).

Lemma new_world_ok n : is_u64 n -> world_ok (new_world n).
Proof. intros Hn. split_and!; cbn; [intros p s H..|done]; by rewrite lookup_empty in H. Qed.

Section worker.
Context (debug : bool) (routing : WorkerRoutingState) (seed : Z) (Hrouting : is_u64 (routing_seed routing)).

Implicit Types (sys : Sys) (live : Z -> list RecordRef).

Definition owned sys : list Ptr := w_owned (sys_worker sys).
Definition active sys : Ptr := w_active (sys_worker sys).

(** A segment of the worker, as it stands in the catalog. *)
Record seg_here sys p (s : Segment) : Prop := {
  sh_owner : seg_owner s = w_id (sys_worker sys);
  sh_generation : seg_generation s = 1;
  sh_id : is_u64 (seg_id s);
  sh_below : seg_id s < next_id (sys_world sys);
  sh_catalog : catalog (sys_world sys) !! seg_id s = Some p;
  sh_by_id : w_owned_by_id (sys_worker sys) !! seg_id s = Some p;
  sh_state : seg_state s = if decide (p = active sys) then seg_active else seg_sealed
}.

(** The segments of the worker hold the logs, and their counters account for the
    live references. *)
Record segs_ok sys logs live : Prop := {
  so_nodup : NoDup (owned sys);
  so_active : active sys ∈ owned sys;
  so_seg : forall p, p ∈ owned sys -> exists s log, heap (sys_world sys) !! p = Some s /\
    logs !! p = Some log /\ seg_here sys p s /\ live_ok s log (live (seg_id s));
  so_by_id : forall id p, w_owned_by_id (sys_worker sys) !! id = Some p ->
    p ∈ owned sys /\ exists s, heap (sys_world sys) !! p = Some s /\ seg_id s = id;
  so_world : world_ok (sys_world sys);
  so_sequence : is_u64 (w_next_sequence (sys_worker sys))
}.

(** A reference names a record of the logs. *)
Definition points sys logs (r : RecordRef) (input : RecordInput) : Prop :=
  exists p s pre post, p ∈ owned sys /\ heap (sys_world sys) !! p = Some s /\
    logs !! p = Some (pre ++ input :: post) /\ r = ref_after s pre input.

Definition entry_ok sys logs m kv (k : list Z) : Prop :=
  match m !! k with
  | Some r => exists input, points sys logs r input /\ in_key input = k /\ in_opcode input = Opcode_put /\
      kv !! k = Some (in_value input, in_expire_at_ns input)
  | None => kv !! k = None
  end.

Record index_ok sys logs m kv : Prop := {
  io_table : table_ok routing seed (w_index (sys_worker sys)) m;
  io_entries : forall k, entry_ok sys logs m kv k
}.

(** The worker stands for the map [kv], by way of the logs of its segments and the
    map of its index. *)
Definition stands sys logs m kv : Prop :=
  segs_ok sys logs (fun id => live_in id m) /\ index_ok sys logs m kv.

Definition worker_ok sys kv : Prop := exists m logs, stands sys logs m kv.

(** What the other workers keep, and the mode of this one. *)
Definition guarantee sys sys' : Prop :=
  w_exclusive_writer (sys_worker sys') = w_exclusive_writer (sys_worker sys) /\
  (next_ptr (sys_world sys) <= next_ptr (sys_world sys'))%positive /\
  next_id (sys_world sys) <= next_id (sys_world sys') /\
  forall q x, heap (sys_world sys) !! q = Some x -> q ∉ owned sys ->
    heap (sys_world sys') !! q = Some x /\ q ∉ owned sys' /\
    forall id, catalog (sys_world sys) !! id = Some q -> catalog (sys_world sys') !! id = Some q.

Lemma guarantee_refl sys : guarantee sys sys.
Proof. split_and!; [done|lia|lia|]. intros q x Hq Hn. auto. Qed.
Lemma guarantee_trans sys sys' sys'' : guarantee sys sys' -> guarantee sys' sys'' -> guarantee sys sys''.
Proof.
  intros (He & Hp & Hi & H) (He' & Hp' & Hi' & H'). split_and!; [congruence|lia|lia|]. intros q x Hq Hn.
  destruct (H q x Hq Hn) as (Hq' & Hn' & Hc). destruct (H' q x Hq' Hn') as (Hq'' & Hn'' & Hc'). auto 6.
Qed.

(** A change of the worker's own segments, index and counters only. *)
Lemma guarantee_local sys sys' : next_ptr (sys_world sys') = next_ptr (sys_world sys) ->
  next_id (sys_world sys') = next_id (sys_world sys) -> catalog (sys_world sys') = catalog (sys_world sys) ->
  owned sys' = owned sys -> w_exclusive_writer (sys_worker sys') = w_exclusive_writer (sys_worker sys) ->
  (forall q, q ∉ owned sys -> heap (sys_world sys') !! q = heap (sys_world sys) !! q) -> guarantee sys sys'.
Proof.
  intros E1 E2 E3 E4 E5 Hh. unfold guarantee. rewrite E1, E2, E3, E4, E5. split_and!; [done|lia|lia|].
  intros q x Hq Hn. rewrite Hh by done. auto.
Qed.

(** The manager has no segments but those of this worker. *)
Definition alone sys : Prop := catalog (sys_world sys) = w_owned_by_id (sys_worker sys).

(** No segment came, and the active one stayed. *)
Record trimmed sys sys' : Prop := {
  tr_active : active sys' = active sys;
  tr_owned : forall q, q ∈ owned sys' -> q ∈ owned sys;
  tr_by_id : w_owned_by_id (sys_worker sys') ⊆ w_owned_by_id (sys_worker sys);
  tr_sequence : w_next_sequence (sys_worker sys') = w_next_sequence (sys_worker sys);
  tr_next_id : next_id (sys_world sys') = next_id (sys_world sys);
  tr_alone : alone sys -> alone sys'
}.

Lemma trimmed_trans sys sys' sys'' : trimmed sys sys' -> trimmed sys' sys'' -> trimmed sys sys''.
Proof. intros [] []. split; [congruence|auto|by etrans|congruence..|auto]. Qed.
Lemma trimmed_local sys sys' : active sys' = active sys -> owned sys' = owned sys ->
  w_owned_by_id (sys_worker sys') = w_owned_by_id (sys_worker sys) ->
  w_next_sequence (sys_worker sys') = w_next_sequence (sys_worker sys) ->
  next_id (sys_world sys') = next_id (sys_world sys) -> catalog (sys_world sys') = catalog (sys_world sys) ->
  trimmed sys sys'.
Proof. intros E1 E2 E3 E4 E5 E6. split; [done|by rewrite E2|by rewrite E3|done..|]. unfold alone. by rewrite E3, E6. Qed.
Lemma trimmed_refl sys : trimmed sys sys.
Proof. by apply trimmed_local. Qed.

(** [input] was appended: to the active segment when it still fitted, to a new one
    otherwise. *)
Definition grown sys logs (input : RecordInput) sys' logs' : Prop :=
  exists log, logs !! active sys = Some log /\ (forall q, q ∈ owned sys' -> q = active sys' \/ q ∈ owned sys) /\
    (alone sys -> alone sys') /\
    (active sys' = active sys /\ log_end log + record_size input <= kSegmentSizeBytes /\
       logs' = <[active sys := log ++ [input]]> logs /\ next_id (sys_world sys') = next_id (sys_world sys) \/
     active sys' = next_ptr (sys_world sys) /\ kSegmentSizeBytes < log_end log + record_size input /\
       logs' = <[active sys' := [input]]> logs /\ next_id (sys_world sys') = next_id (sys_world sys) + 1).

Lemma grown_trimmed sys logs input sys1 sys2 logs' : grown sys logs input sys1 logs' -> trimmed sys1 sys2 ->
  grown sys logs input sys2 logs'.
Proof.
  intros (log & Hl & Ho & Ha & Hc) []. exists log. rewrite tr_active0, tr_next_id0. split_and!; [done| |auto|done].
  intros q Hq. apply Ho. auto.
Qed.

(** The identity of an owned segment determines its address. *)
Lemma owned_id_inj sys logs live p q s s' : segs_ok sys logs live -> p ∈ owned sys -> q ∈ owned sys ->
  heap (sys_world sys) !! p = Some s -> heap (sys_world sys) !! q = Some s' -> seg_id s = seg_id s' -> p = q.
Proof.
  intros Hok Hp Hq Hs Hs' E. destruct (so_seg _ _ _ Hok p Hp) as (s1 & l1 & E1 & _ & H1 & _).
  destruct (so_seg _ _ _ Hok q Hq) as (s2 & l2 & E2 & _ & H2 & _). simplify_eq.
  pose proof (sh_by_id _ _ _ H1) as B1. pose proof (sh_by_id _ _ _ H2) as B2. rewrite E in B1. congruence.
Qed.

(** *** Changing one segment *)

Definition set_seg sys p (s : Segment) : Sys :=
  mkSys (with_heap (sys_world sys) (<[p := s]> (heap (sys_world sys)))) (sys_worker sys).

Lemma deref_in w p s : heap w !! p = Some s -> deref p w = (Ok s, w).
Proof. unfold deref. by intros ->. Qed.
Lemma call_unit_in w p s f s' : heap w !! p = Some s -> f s = Ok s' ->
  call_unit p f w = (Ok tt, with_heap w (<[p := s']> (heap w))).
Proof. intros Hs Hf. unfold call_unit, call, bindM, liftM. rewrite (deref_in _ _ _ Hs), Hf. done. Qed.

Lemma call_Ok {A} sys p s (f : Segment -> Result (A * Segment)) a s' :
  heap (sys_world sys) !! p = Some s -> f s = Ok (a, s') ->
  on_world (call p f) sys = (Ok a, set_seg sys p s').
Proof. intros Hs Hf. unfold on_world, call, deref, bindM. rewrite Hs. unfold liftM. by rewrite Hf. Qed.

Lemma call_Err {A} sys p s (f : Segment -> Result (A * Segment)) e :
  heap (sys_world sys) !! p = Some s -> f s = Err e -> on_world (call p f) sys = (Err e, sys).
Proof.
  intros Hs Hf. unfold on_world, call, deref, bindM. rewrite Hs. unfold liftM. rewrite Hf. by destruct sys.
Qed.

Lemma call_unit_Ok sys p s f s' : heap (sys_world sys) !! p = Some s -> f s = Ok s' ->
  on_world (call_unit p f) sys = (Ok tt, set_seg sys p s').
Proof. intros Hs Hf. unfold call_unit. eapply call_Ok; [done|]. by rewrite Hf. Qed.

Lemma deref_Ok sys p s : heap (sys_world sys) !! p = Some s -> on_world (deref p) sys = (Ok s, sys).
Proof. intros Hs. unfold on_world, deref. rewrite Hs. by destruct sys. Qed.

Lemma segs_update sys logs live p s log s' log' live' : segs_ok sys logs live -> p ∈ owned sys ->
  heap (sys_world sys) !! p = Some s -> logs !! p = Some log ->
  seg_id s' = seg_id s -> seg_generation s' = seg_generation s -> seg_owner s' = seg_owner s ->
  seg_state s' = seg_state s -> live_ok s' log' (live' (seg_id s)) ->
  (forall id, id <> seg_id s -> live' id ≡ₚ live id) ->
  segs_ok (set_seg sys p s') (<[p := log']> logs) live'.
Proof.
  intros Hok Hp Hs Hlog Eid Egen Eown Est Hlive Hother.
  split; try apply Hok.
  - intros q Hq. destruct (so_seg _ _ _ Hok q Hq) as (sq & lq & Hsq & Hlq & Hhere & Hlv).
    destruct (decide (q = p)) as [->|Hne].
    + simplify_eq. exists s', log'. cbn. rewrite !lookup_insert_eq, Eid. split_and!; try done.
      destruct Hhere. split; rewrite ?Eid, ?Egen, ?Eown, ?Est; done.
    + exists sq, lq. cbn. rewrite !lookup_insert_ne by done. split_and!; try done; [by destruct Hhere|].
      rewrite Hother; [done|]. intros E. apply Hne. by eapply owned_id_inj.
  - intros id q Hq. destruct (so_by_id _ _ _ Hok id q Hq) as (Hin & sq & Hsq & Eq). split; [done|]. cbn.
    destruct (decide (q = p)) as [->|]; [|by rewrite lookup_insert_ne; eauto].
    simplify_eq. exists s'. by rewrite lookup_insert_eq.
  - destruct (so_world _ _ _ Hok) as (Hw1 & Hw2 & Hw3). split_and!; [|done..]. cbn. intros q x.
    rewrite lookup_insert_Some. intros [[<- _]|[_ Hq]]; eauto.
Qed.

Lemma set_seg_guarantee sys p s' : p ∈ owned sys -> guarantee sys (set_seg sys p s').
Proof.
  intros Hp. apply guarantee_local; try done. intros q Hq. cbn. rewrite lookup_insert_ne; [done|]. by intros ->.
Qed.

(** References keep naming their records while the logs grow. *)
Lemma points_mono sys sys' logs logs' r input : points sys logs r input ->
  (forall p s log, p ∈ owned sys -> heap (sys_world sys) !! p = Some s -> logs !! p = Some log ->
     ref_segment_id r = seg_id s ->
     p ∈ owned sys' /\ exists s' more, heap (sys_world sys') !! p = Some s' /\ seg_id s' = seg_id s /\
       seg_generation s' = seg_generation s /\ logs' !! p = Some (log ++ more)) ->
  points sys' logs' r input.
Proof.
  intros (p & s & pre & post & Hp & Hs & Hl & ->) H.
  destruct (H p s _ Hp Hs Hl eq_refl) as (Hp' & s' & more & Hs' & Eid & Egen & Hl').
  exists p, s', pre, (post ++ more). split_and!; try done.
  - rewrite Hl'. by rewrite <- app_assoc.
  - unfold ref_after. by rewrite Eid, Egen.
Qed.

(** Segments with live records stay, and their logs grow. *)
Definition survives sys logs sys' logs' m : Prop :=
  forall p s log r, p ∈ owned sys -> heap (sys_world sys) !! p = Some s -> logs !! p = Some log ->
    r ∈ live_in (seg_id s) m ->
    p ∈ owned sys' /\ exists s' more, heap (sys_world sys') !! p = Some s' /\ seg_id s' = seg_id s /\
      seg_generation s' = seg_generation s /\ logs' !! p = Some (log ++ more).

Lemma survives_refl sys logs m : survives sys logs sys logs m.
Proof. intros p s log r Hp Hs Hl _. split; [done|]. exists s, []. by rewrite app_nil_r. Qed.

Lemma survives_trans sys logs sys' logs' sys'' logs'' m :
  survives sys logs sys' logs' m -> survives sys' logs' sys'' logs'' m -> survives sys logs sys'' logs'' m.
Proof.
  intros H H' p s log r Hp Hs Hl Hr. destruct (H p s log r Hp Hs Hl Hr) as (Hp' & s' & more & Hs' & Eid & Eg & Hl').
  rewrite <- Eid in Hr. destruct (H' p s' _ r Hp' Hs' Hl' Hr) as (Hp'' & s'' & more' & Hs'' & Eid' & Eg' & Hl'').
  split; [done|]. exists s'', (more ++ more'). rewrite app_assoc. split_and!; (done || congruence).
Qed.

Lemma entries_mono sys sys' logs logs' m kv : (forall k, entry_ok sys logs m kv k) ->
  survives sys logs sys' logs' m -> forall k, entry_ok sys' logs' m kv k.
Proof.
  intros He H k. specialize (He k). unfold entry_ok in *. destruct (m !! k) as [r|] eqn:Hk; [|done].
  destruct He as (input & Hpt & Hrest). exists input. split; [|done]. eapply points_mono; [done|].
  intros p s log Hp Hs Hl Hid. eapply (H p s log r); try done. apply elem_of_live_in. eauto.
Qed.

Lemma set_seg_survives sys logs m p s s' log more : p ∈ owned sys ->
  heap (sys_world sys) !! p = Some s -> logs !! p = Some log ->
  seg_id s' = seg_id s -> seg_generation s' = seg_generation s ->
  survives sys logs (set_seg sys p s') (<[p := log ++ more]> logs) m.
Proof.
  intros Hp Hs Hl Eid Egen q sq lq r Hq Hsq Hlq _. split; [done|].
  cbn. destruct (decide (q = p)) as [->|Hne].
  - simplify_eq. exists s', more. rewrite !lookup_insert_eq. done.
  - exists sq, []. rewrite !lookup_insert_ne by done. by rewrite app_nil_r.
Qed.

(** *** Appending *)

Lemma log_refs_snoc s log input : log_refs s (log ++ [input]) = log_refs s log ++ [ref_after s log input].
Proof.
  assert (forall before, log_refs_from s before (log ++ [input]) =
    log_refs_from s before log ++ [ref_after s (before ++ log) input]) as H; [|apply H].
  induction log as [|i log IH]; intros before; cbn; [by rewrite app_nil_r|].
  rewrite IH. by rewrite <- app_assoc.
Qed.

Lemma append_to_spec sys logs live input : segs_ok sys logs live -> RecordInput_ok input ->
  exists s log, heap (sys_world sys) !! active sys = Some s /\ logs !! active sys = Some log /\
  match append debug s input with
  | Ok (ref, s') =>
      append_to debug (active sys) input sys = (Ok ref, set_seg sys (active sys) s') /\
      encodable input /\ ref = ref_after s log input /\ log_end log + record_size input <= kSegmentSizeBytes /\
      seg_id s' = seg_id s /\ seg_generation s' = seg_generation s /\
      segs_ok (set_seg sys (active sys) s') (<[active sys := log ++ [input]]> logs) live
  | Err e => append_to debug (active sys) input sys = (Err e, sys) /\
      (e = segment_full /\ encodable input /\ kSegmentSizeBytes < log_end log + record_size input \/
       e <> segment_full /\ ~ encodable input /\
         (e = invalid_argument \/ e = record_too_large))
  | Stuck _ => False
  end.
Proof.
  intros Hok Hin. destruct (so_seg _ _ _ Hok _ (so_active _ _ _ Hok)) as (s & log & Hs & Hlog & Hhere & Hlive).
  exists s, log. split_and!; [done..|]. pose proof (live_rep _ _ _ Hlive) as Hrep.
  pose proof (append_cases debug s log input Hrep Hin) as Hc. pose proof (sh_state _ _ _ Hhere) as Hst.
  rewrite decide_True in Hst by done. rewrite Hst, bool_decide_eq_true_2 in Hc by done. cbn [negb] in Hc.
  pose proof (encoded_record_size_cases input) as Hsz.
  destruct (append debug s input) as [[ref s']|e|f] eqn:Ea.
  - destruct (append_rep debug s log input ref s' Hrep Hin Ea) as (He & -> & Hrep' & Hfit & _ & Hst' & Eid & Eg & Eo & Ec & Eb).
    split_and!; try done; [by eapply call_Ok|].
    eapply segs_update; try done; [apply Hok|congruence|]. destruct Hlive as [_ Hsub Hcnt Htot].
    split; [done| |congruence..]. rewrite (log_refs_ext _ s) by done. rewrite log_refs_snoc.
    etrans; [exact Hsub|]. by apply submseteq_inserts_r.
  - split; [by eapply call_Err|]. destruct (encoded_record_size input) as [size| |]; cbn [bindR] in Hc; [| |done].
    + destruct (Z.gtb_spec (log_end log + size) kSegmentSizeBytes); [|done]. simplify_eq. left. naive_solver.
    + simplify_eq. right. destruct Hsz as [Hn [->| ->]]; auto.
  - destruct (encoded_record_size input) as [size| |]; cbn [bindR] in Hc; [|done..].
    by destruct (log_end log + size >? kSegmentSizeBytes).
Qed.

(** *** Retirement *)

(** The fields of the worker other than its list of segments. *)
Definition same_worker sys sys' : Prop :=
  exists l b, sys_worker sys' = with_owned (sys_worker sys) l b.

Lemma same_worker_refl sys : same_worker sys sys.
Proof. exists (owned sys), (w_owned_by_id (sys_worker sys)). destruct sys as [w []]. done. Qed.

Lemma erase_owned_spec sys logs live p s l : segs_ok sys logs live -> p ∈ owned sys -> l ⊆ owned sys ->
  heap (sys_world sys) !! p = Some s -> forall w, heap w = <[p := with_state s seg_retired]> (heap (sys_world sys)) ->
  erase_owned (seg_id s) l w = (Ok (filter (fun q => q <> p) l), w).
Proof.
  intros Hok Hp Hl Hs w Hw. induction l as [|q l IH]; [done|]. cbn [erase_owned].
  assert (q ∈ owned sys) as Hq by (apply Hl; left).
  destruct (so_seg _ _ _ Hok q Hq) as (sq & lq & Hsq & _).
  assert (deref q w = (Ok (if decide (q = p) then with_state s seg_retired else sq), w)) as Hd.
  { unfold deref. rewrite Hw. destruct (decide (q = p)) as [->|]; by rewrite ?lookup_insert_eq, ?lookup_insert_ne, ?Hsq. }
  rewrite (bindM_Ok _ _ _ _ _ Hd). rewrite (bindM_Ok _ _ _ _ _ (IH ltac:(intros x Hx; apply Hl; by right))).
  rewrite filter_cons. unfold retM. destruct (decide (q = p)) as [->|Hne].
  - rewrite decide_False by naive_solver. cbn. by rewrite Z.eqb_refl.
  - rewrite decide_True by done. destruct (Z.eqb_spec (seg_id sq) (seg_id s)) as [E|]; [|done].
    exfalso. apply Hne. by eapply owned_id_inj.
Qed.

Lemma maybe_retire_spec sys logs live p : segs_ok sys logs live -> p ∈ owned sys -> p <> active sys ->
  exists sys', maybe_retire p sys = (Ok tt, sys') /\ segs_ok sys' logs live /\ guarantee sys sys' /\
    same_worker sys sys' /\ trimmed sys sys' /\
    (sys' = sys /\ (forall s, heap (sys_world sys) !! p = Some s -> live (seg_id s) <> []) \/
     exists s, heap (sys_world sys) !! p = Some s /\ live (seg_id s) = [] /\
       (forall q, q ∈ owned sys' <-> q ∈ owned sys /\ q <> p) /\
       forall q, q <> p -> heap (sys_world sys') !! q = heap (sys_world sys) !! q).
Proof.
  intros Hok Hp Hna. destruct (so_seg _ _ _ Hok p Hp) as (s & log & Hs & Hlog & Hhere & Hlive).
  pose proof (sh_state _ _ _ Hhere) as Hst. rewrite decide_False in Hst by done.
  unfold maybe_retire. rewrite (bindM_Ok _ _ _ _ _ (deref_Ok _ _ _ Hs)).
  rewrite bool_decide_eq_true_2, (live_count _ _ _ Hlive) by done. cbn [negb orb].
  destruct (Z.eqb_spec (zlen (live (seg_id s))) 0) as [E0|]; cbn [negb].
  2:{ exists sys. split_and!; [done..|apply guarantee_refl|apply same_worker_refl|apply trimmed_refl|].
      left. split; [done|]. intros s' Hs' E. simplify_eq. by rewrite E in *. }
  assert (Hnil : live (seg_id s) = []) by by destruct (live (seg_id s)).
  unfold on_world at 1, try_retire. rewrite bindM_get, (sh_catalog _ _ _ Hhere).
  assert (Hret : retire s = Ok (with_state s seg_retired)).
  { by rewrite (retire_ok s log _ Hlive), bool_decide_eq_true_2. }
  assert (Hcall : call_unit p retire (sys_world sys) =
    (Ok tt, with_heap (sys_world sys) (<[p := with_state s seg_retired]> (heap (sys_world sys))))).
  { unfold call_unit, call, deref, bindM, liftM. by rewrite Hs, Hret. }
  rewrite (bindM_Ok _ _ _ _ _ Hcall), bindM_modify. unfold count_retired, modifyM.
  unfold unregister_owned_segment. rewrite bindM_worker.
  match goal with |- context [bindM (on_world ?m) _ ?x] =>
    assert (on_world m x = (Ok (filter (fun q => q <> p) (owned sys)), x)) as He end.
  { unfold on_world. cbn [sys_world]. by rewrite (erase_owned_spec sys logs live p s). }
  rewrite (bindM_Ok _ _ _ _ _ He). unfold modify_worker. eexists. split; [done|].
  assert (Hin : forall q, q ∈ filter (fun q => q <> p) (owned sys) <-> q ∈ owned sys /\ q <> p)
    by (intros q; rewrite list_elem_of_filter; naive_solver).
  assert (Hkeep : forall q sq, q ∈ owned sys -> heap (sys_world sys) !! q = Some sq -> q <> p -> seg_id sq <> seg_id s)
    by (intros q sq Hq Hsq Hne E; apply Hne; by eapply owned_id_inj).
  split_and!.
  - split; cbn.
    + apply NoDup_filter, Hok.
    + apply Hin. split; [apply Hok|done].
    + intros q [Hq Hne]%Hin. destruct (so_seg _ _ _ Hok q Hq) as (sq & lq & Hsq & Hlq & Hh & Hlv).
      exists sq, lq. rewrite lookup_insert_ne by done. split_and!; try done.
      pose proof (Hkeep q sq Hq Hsq Hne). destruct Hh. split; cbn; try done; by rewrite lookup_delete_ne.
    + intros id q [Hne Hq]%lookup_delete_Some. destruct (so_by_id _ _ _ Hok id q Hq) as (Hqo & sq & Hsq & Eq).
      assert (q <> p) by (intros ->; simplify_eq). split; [by apply Hin|].
      exists sq. by rewrite lookup_insert_ne.
    + destruct (so_world _ _ _ Hok) as (Hw1 & Hw2 & Hw3). split_and!; [..|done]; cbn.
      * intros q x. rewrite lookup_insert_Some. intros [[<- _]|[_ Hq]]; eauto.
      * intros id q [_ Hq]%lookup_delete_Some. eauto.
    + apply Hok.
  - split_and!; cbn; [done|lia|lia|]. intros q x Hq Hnq. assert (q <> p) by (by intros ->).
    rewrite lookup_insert_ne by done. split_and!; [done| |].
    + intros [? _]%Hin. done.
    + intros id Hid. apply lookup_delete_Some. split; [|done]. intros <-.
      rewrite (sh_catalog _ _ _ Hhere) in Hid. congruence.
  - by eexists _, _.
  - split; cbn; [done|by intros q [? _]%Hin|apply delete_subseteq|done..|]. unfold alone. cbn. by intros ->.
  - right. exists s. cbn. split_and!; [done..|]. intros q Hq. by rewrite lookup_insert_ne.
Qed.

Lemma maybe_retire_survives sys sys' logs m p :
  (sys' = sys /\ (forall s, heap (sys_world sys) !! p = Some s -> live_in (seg_id s) m <> []) \/
   exists s, heap (sys_world sys) !! p = Some s /\ live_in (seg_id s) m = [] /\
       (forall q, q ∈ owned sys' <-> q ∈ owned sys /\ q <> p) /\
       forall q, q <> p -> heap (sys_world sys') !! q = heap (sys_world sys) !! q) ->
  survives sys logs sys' logs m.
Proof.
  intros [[-> _]|(s & Hs & Hnil & Hin & Hh)]; [apply survives_refl|]. intros q sq lq r Hq Hsq Hlq Hr.
  assert (q <> p) by (intros ->; simplify_eq; rewrite Hnil in Hr; by apply not_elem_of_nil in Hr).
  split; [by apply Hin|]. exists sq, []. rewrite Hh, app_nil_r by done. done.
Qed.

(** *** Rotation *)

Definition same_index sys sys' : Prop :=
  exists a l b, sys_worker sys' = with_owned (with_active (sys_worker sys) a) l b.

(** The world after a replacement segment was made, registered and put in the
    place of the active one. *)
Definition rotated sys (s : Segment) : Sys :=
  let w := sys_world sys in
  let fresh := next_ptr w in
  mkSys (mkWorld (<[active sys := with_state s seg_sealed]>
                    (<[fresh := new_segment (next_id w) (w_id (sys_worker sys)) 1]> (heap w)))
           (Pos.succ fresh) (next_id w + 1) (<[next_id w := fresh]> (catalog w)) (retired_count w))
    (with_owned (with_active (sys_worker sys) fresh) (owned sys ++ [fresh])
       (<[next_id w := fresh]> (w_owned_by_id (sys_worker sys)))).

Lemma owned_bounds sys logs live p : segs_ok sys logs live -> p ∈ owned sys ->
  p <> next_ptr (sys_world sys) /\ forall s, heap (sys_world sys) !! p = Some s -> seg_id s <> next_id (sys_world sys).
Proof.
  intros Hok Hp. destruct (so_seg _ _ _ Hok p Hp) as (s & log & Hs & _ & Hh & _).
  destruct (so_world _ _ _ Hok) as (Hw & _). specialize (Hw p s Hs). split; [lia|].
  intros s' Hs'. simplify_eq. pose proof (sh_below _ _ _ Hh). lia.
Qed.

Lemma rotated_world sys logs live s : segs_ok sys logs live -> next_id (sys_world sys) < umax 64 ->
  world_ok (sys_world (rotated sys s)) /\ guarantee sys (rotated sys s).
Proof.
  intros Hok Hmax. destruct (so_world _ _ _ Hok) as (Hw1 & Hw2 & Hw3). pose proof (so_active _ _ _ Hok) as Hact.
  destruct (so_seg _ _ _ Hok _ Hact) as (sa & _ & Hsa & _). pose proof (Hw1 _ _ Hsa). split.
  - split_and!; cbn; [..|width; lia].
    + intros q x. rewrite !lookup_insert_Some. intros [[<- _]|[_ [[<- _]|[_ Hq]]]]; [lia..|].
      specialize (Hw1 q x Hq). lia.
    + intros id q. rewrite lookup_insert_Some. intros [[<- _]|[_ Hq]]; [lia|]. specialize (Hw2 id q Hq). lia.
  - split_and!; cbn; [done|lia|lia|]. intros q x Hq Hnq. specialize (Hw1 q x Hq).
    rewrite !lookup_insert_ne by (lia || by intros <-). split_and!; [done| |].
    + intros [Hin| ->%list_elem_of_singleton]%elem_of_app; [done|lia].
    + intros id Hid. rewrite lookup_insert_ne; [done|]. intros <-. specialize (Hw2 _ _ Hid). lia.
Qed.

Lemma rotated_ok sys logs live s : segs_ok sys logs live -> heap (sys_world sys) !! active sys = Some s ->
  live (next_id (sys_world sys)) = [] -> next_id (sys_world sys) < umax 64 ->
  segs_ok (rotated sys s) (<[next_ptr (sys_world sys) := []]> logs) live /\ guarantee sys (rotated sys s).
Proof.
  intros Hok Hs Hnew Hmax. destruct (so_world _ _ _ Hok) as (Hw1 & Hw2 & Hw3).
  pose proof (so_active _ _ _ Hok) as Hact. destruct (owned_bounds _ _ _ _ Hok Hact) as [Hne _].
  set (fresh := next_ptr (sys_world sys)) in *. split; [split|].
  - cbn. apply NoDup_app. split_and!; [apply Hok| |apply NoDup_singleton].
    intros q Hq ->%list_elem_of_singleton. by destruct (owned_bounds _ _ _ _ Hok Hq).
  - cbn. apply elem_of_app. right. by left.
  - cbn. intros q [Hq| ->%list_elem_of_singleton]%elem_of_app.
    + destruct (so_seg _ _ _ Hok q Hq) as (sq & lq & Hsq & Hlq & Hh & Hlv).
      destruct (owned_bounds _ _ _ _ Hok Hq) as [Hqf Hqid]. specialize (Hqid sq Hsq).
      assert (Hh' : forall sq', seg_id sq' = seg_id sq -> seg_owner sq' = seg_owner sq ->
        seg_generation sq' = seg_generation sq -> seg_state sq' = seg_sealed ->
        seg_here (rotated sys s) q sq').
      { intros sq' Ei Eo Eg Es. destruct Hh. split; cbn; rewrite ?Ei, ?Eo, ?Eg, ?Es; try done; [lia|..].
        - by rewrite lookup_insert_ne.
        - by rewrite lookup_insert_ne.
        - by rewrite decide_False. }
      destruct (decide (q = active sys)) as [->|Hna].
      * simplify_eq. exists (with_state s seg_sealed), lq. rewrite lookup_insert_eq, lookup_insert_ne by done.
        split_and!; try done; [by apply Hh'|]. by apply live_ok_state.
      * exists sq, lq. rewrite !lookup_insert_ne by done. split_and!; try done. apply Hh'; try done.
        pose proof (sh_state _ _ _ Hh) as E. by rewrite decide_False in E.
    + eexists _, []. rewrite lookup_insert_ne by done. rewrite !lookup_insert_eq. split_and!; [done..| |].
      * split; cbn; try done; [lia|by rewrite lookup_insert_eq|by rewrite lookup_insert_eq|by rewrite decide_True].
      * cbn. rewrite Hnew. split; [apply new_segment_rep|apply submseteq_nil_l|done..].
  - cbn. intros id q [[<- <-]|[Hne' Hq]]%lookup_insert_Some.
    + split; [apply elem_of_app; right; by left|]. eexists. by rewrite lookup_insert_ne, lookup_insert_eq by done.
    + destruct (so_by_id _ _ _ Hok id q Hq) as (Hqo & sq & Hsq & Eq).
      split; [apply elem_of_app; by left|]. destruct (owned_bounds _ _ _ _ Hok Hqo) as [Hqf _].
      destruct (decide (q = active sys)) as [->|]; [|by rewrite !lookup_insert_ne; eauto].
      simplify_eq. eexists. by rewrite lookup_insert_eq.
  - by eapply rotated_world.
  - apply Hok.
  - by eapply rotated_world.
Qed.

Lemma commit_rotation_Ok w p q a r : p <> q -> heap w !! p = Some a -> heap w !! q = Some r ->
  seg_state a = seg_active -> seg_state r = seg_active -> seg_owner a = seg_owner r ->
  catalog w !! seg_id a = Some p -> catalog w !! seg_id r = None ->
  commit_rotation (Some p) (Some q) w =
  (Ok tt, mkWorld (<[p := with_state a seg_sealed]> (heap w)) (next_ptr w) (next_id w)
            (<[seg_id r := q]> (catalog w)) (retired_count w)).
Proof.
  intros Hne Ha Hr Sa Sr Eo Ca Cr. unfold commit_rotation.
  rewrite (bindM_Ok _ _ _ _ _ (deref_in _ _ _ Ha)), (bindM_Ok _ _ _ _ _ (deref_in _ _ _ Hr)).
  unfold is_active. rewrite Sa, Sr, Eo, Z.eqb_refl, !bool_decide_eq_true_2 by done. cbn [negb orb]. steps.
  rewrite Ca, Cr, bool_decide_eq_true_2, bool_decide_eq_false_2 by (done || by intros []). cbn [negb orb].
  unfold register_segment. steps. rewrite (bindM_Ok _ _ _ _ _ (deref_in _ _ _ Hr)). steps.
  rewrite (call_unit_in _ _ a _ (with_state a seg_sealed)); [done..|]. unfold seal. by rewrite bool_decide_eq_true_2.
Qed.

(** The steps of [rotate] up to the new active segment. *)
Lemma rotate_steps sys logs live s input : segs_ok sys logs live ->
  heap (sys_world sys) !! active sys = Some s -> seg_here sys (active sys) s ->
  rotate debug input sys =
  if next_id (sys_world sys) =? umax 64 then (Err arithmetic_overflow, sys)
  else (maybe_retire (active sys) ;;! append_to debug (next_ptr (sys_world sys)) input) (rotated sys s).
Proof.
  intros Hok Hs Hh. destruct (so_world _ _ _ Hok) as (Hw1 & Hw2 & Hw3). pose proof (Hw1 _ _ Hs) as Hlt.
  pose proof (sh_state _ _ _ Hh) as Hst. rewrite decide_True in Hst by done.
  unfold rotate. wsteps. fold (active sys).
  assert (Hprep : prepare_rotation (Some (active sys)) (w_id (sys_worker sys)) (sys_world sys) =
    if next_id (sys_world sys) =? umax 64 then (Err arithmetic_overflow, sys_world sys)
    else make_segment (w_id (sys_worker sys)) (sys_world sys)).
  { unfold prepare_rotation, bindM at 1, deref. rewrite Hs. unfold is_active.
    rewrite bool_decide_eq_true_2 by done. cbn [negb]. steps. rewrite (sh_catalog _ _ _ Hh), (sh_owner _ _ _ Hh), Z.eqb_refl.
    rewrite bool_decide_eq_true_2 by done. cbn [negb orb]. by destruct (_ =? _). }
  unfold on_world at 1, bindM at 1. rewrite Hprep.
  destruct (Z.eqb_spec (next_id (sys_world sys)) (umax 64)) as [|Hne]; [by destruct sys|].
  unfold make_segment. rewrite (wrap_small 64) by (width; lia). unfold register_owned_segment.
  rewrite bindM_assoc.
  erewrite (bindM_Ok (on_world (deref _))) by (apply deref_Ok; cbn; apply lookup_insert_eq). wsteps.
  cbn [sys_worker sys_world new_segment seg_id].
  destruct (w_owned_by_id (sys_worker sys) !! next_id (sys_world sys)) as [q|] eqn:Eid.
  { exfalso. destruct (so_by_id _ _ _ Hok _ _ Eid) as (Hq & sq & Hsq & Eq).
    destruct (owned_bounds _ _ _ _ Hok Hq) as [_ Hb]. by apply (Hb sq). }
  wsteps. cbn [sys_worker sys_world]. erewrite (bindM_Ok (on_error _ _)).
  2:{ apply on_error_Ok. unfold on_world. cbn [sys_world sys_worker].
      erewrite commit_rotation_Ok; [reflexivity|lia|..]; cbn.
      - by rewrite lookup_insert_ne by lia.
      - apply lookup_insert_eq.
      - done.
      - done.
      - apply Hh.
      - apply Hh.
      - destruct (catalog (sys_world sys) !! next_id (sys_world sys)) eqn:Ec; [|done].
        specialize (Hw2 _ _ Ec). lia. }
  wsteps. reflexivity.
Qed.

Lemma live_in_fresh sys logs m kv : segs_ok sys logs (fun id => live_in id m) ->
  (forall k, entry_ok sys logs m kv k) -> live_in (next_id (sys_world sys)) m = [].
Proof.
  intros Hok He. destruct (live_in _ m) as [|r l] eqn:E; [done|]. exfalso.
  assert (r ∈ live_in (next_id (sys_world sys)) m) as [Hid [k Hk]]%elem_of_live_in by (rewrite E; left).
  specialize (He k). unfold entry_ok in He. rewrite Hk in He. destruct He as (input & (p & s & pre & post & Hp & Hs & _ & ->) & _).
  destruct (owned_bounds _ _ _ _ Hok Hp) as [_ Hb]. by apply (Hb s).
Qed.

(** What appending a record leaves: the record is the last one of the active
    segment, and everything the index refers to is where it was. *)
Definition appended sys logs m (input : RecordInput) (ref : RecordRef) sys' : Prop :=
  exists logs' s log, segs_ok sys' logs' (fun id => live_in id m) /\ survives sys logs sys' logs' m /\
    guarantee sys sys' /\ same_index sys sys' /\ encodable input /\
    heap (sys_world sys') !! active sys' = Some s /\ logs' !! active sys' = Some (log ++ [input]) /\
    ref = ref_after s log input /\ live_in (seg_id s) m ⊆+ log_refs s log /\ grown sys logs input sys' logs'.

Lemma append_active sys logs m input : segs_ok sys logs (fun id => live_in id m) -> RecordInput_ok input ->
  match append_to debug (active sys) input sys with
  | (Ok ref, sys') => appended sys logs m input ref sys'
  | (Err e, sys') => sys' = sys /\ (e = segment_full /\ encodable input /\
        (exists log, logs !! active sys = Some log /\ kSegmentSizeBytes < log_end log + record_size input) \/
      e = record_too_large /\ ~ encodable input \/ e = invalid_argument /\ ~ encodable input)
  | (Stuck _, _) => False
  end.
Proof.
  intros Hok Hin. destruct (append_to_spec sys logs _ input Hok Hin) as (s & log & Hs & Hl & Ha).
  destruct (append debug s input) as [[ref s']|e|f] eqn:Ea; [| |done].
  - destruct Ha as (-> & He & -> & Hfit & Eid & Eg & Hok').
    exists (<[active sys := log ++ [input]]> logs), s', log. split_and!; try done.
    + eapply set_seg_survives; try done. apply Hok.
    + apply set_seg_guarantee, Hok.
    + exists (active sys), (owned sys), (w_owned_by_id (sys_worker sys)). by destruct sys as [w []].
    + cbn. by rewrite lookup_insert_eq.
    + cbn. by rewrite lookup_insert_eq.
    + unfold ref_after. by rewrite Eid, Eg.
    + destruct (so_seg _ _ _ Hok _ (so_active _ _ _ Hok)) as (s0 & log0 & Hs0 & Hl0 & _ & Hlv). simplify_eq.
      rewrite Eid, (log_refs_ext s' s) by done. apply Hlv.
    + exists log. split_and!; [done|by right|done|by left].
  - destruct Ha as [-> [(-> & He & Hfull)|(_ & Hn & [->| ->])]]; split; auto. left. split_and!; [done..|]. by exists log.
Qed.

(** The rotation, the retirement of the sealed segment and the append together. *)
Lemma rotated_grown sys logs (s : Segment) sys2 input sys3 logs3 log : logs !! active sys = Some log ->
  kSegmentSizeBytes < log_end log + record_size input -> input_ok input -> trimmed (rotated sys s) sys2 ->
  grown sys2 (<[next_ptr (sys_world sys) := []]> logs) input sys3 logs3 -> grown sys logs input sys3 logs3.
Proof.
  intros Hl Hfull Hin [] (log2 & Hl2 & Ho & Ha & Hc). change (active (rotated sys s)) with (next_ptr (sys_world sys)) in *.
  rewrite tr_active0, lookup_insert_eq in *. simplify_eq. exists log. split_and!; [done|..].
  - assert (active sys3 = next_ptr (sys_world sys)) as Hact by (destruct Hc as [(? & _)|(? & Hbig & _)]; [done|]; exfalso;
      pose proof (input_ok_bounds input Hin); change (log_end []) with 4096 in Hbig; unfold kSegmentSizeBytes in Hbig; lia).
    rewrite Hact in *. intros q [->|Hq]%Ho; [by left|]. apply tr_owned0 in Hq. cbn in Hq.
    apply elem_of_app in Hq as [?| ->%list_elem_of_singleton]; auto.
  - intros Hal. apply Ha, tr_alone0. unfold alone in *. cbn. by rewrite Hal.
  - destruct Hc as [(Hact & _ & -> & Hi)|(_ & Hbig & _)]; [right|exfalso].
    + rewrite Hact. split_and!; [done..|by rewrite insert_insert_eq|]. rewrite Hi, tr_next_id0. done.
    + pose proof (input_ok_bounds input Hin). change (log_end []) with 4096 in Hbig. unfold kSegmentSizeBytes in Hbig. lia.
Qed.

Lemma append_record_spec sys logs m kv fault input : segs_ok sys logs (fun id => live_in id m) ->
  (forall k, entry_ok sys logs m kv k) -> RecordInput_ok input ->
  match append_record debug fault input sys with
  | (Ok ref, sys') => appended sys logs m input ref sys'
  | (Err e, sys') => sys' = sys /\ (e = invalid_reference /\ fault = true \/
      (e = record_too_large \/ e = invalid_argument) /\ ~ encodable input \/
      e = arithmetic_overflow /\ next_id (sys_world sys) = umax 64)
  | (Stuck _, _) => False
  end.
Proof.
  intros Hok He Hin. unfold append_record. destruct fault; [cbn; auto|]. wsteps. fold (active sys).
  pose proof (append_active sys logs m input Hok Hin) as Ha.
  destruct (append_to debug (active sys) input sys) as [[ref|e|f] sys1]; [done| |done].
  destruct Ha as [-> [(-> & Henc & log' & Hl' & Hfull)|Hbad]]; [|destruct Hbad as [[-> ?]|[-> ?]]; auto 6].
  destruct (so_seg _ _ _ Hok _ (so_active _ _ _ Hok)) as (s & log & Hs & Hl & Hh & Hlv).
  rewrite (rotate_steps sys logs _ s input Hok Hs Hh).
  destruct (Z.eqb_spec (next_id (sys_world sys)) (umax 64)) as [|Hid]; [auto 6|].
  destruct (so_world _ _ _ Hok) as (Hw1 & Hw2 & Hw3). pose proof (Hw1 _ _ Hs) as Hlt.
  destruct (rotated_ok sys logs _ s Hok Hs (live_in_fresh _ _ _ _ Hok He)) as [Hok1 Hg1]; [width; lia|].
  set (sys1 := rotated sys s) in *. set (logs1 := <[next_ptr (sys_world sys) := []]> logs) in *.
  destruct (maybe_retire_spec sys1 logs1 _ (active sys) Hok1) as (sys2 & E2 & Hok2 & Hg2 & Hsame & Htr & Hret).
  { cbn. apply elem_of_app. left. apply Hok. } { cbn. lia. }
  rewrite (bindM_Ok _ _ _ _ _ E2). apply maybe_retire_survives with (logs := logs1) in Hret.
  assert (Hact : active sys2 = next_ptr (sys_world sys)).
  { destruct Hsame as (l & b & Ew). unfold active. by rewrite Ew. }
  rewrite <- Hact. pose proof (append_active sys2 logs1 m input Hok2 Hin) as Hfin.
  assert (Hsurv : survives sys logs sys1 logs1 m).
  { intros q sq lq r Hq Hsq Hlq Hr. destruct (owned_bounds _ _ _ _ Hok Hq) as [Hqf _]. split.
    - cbn. apply elem_of_app. by left.
    - cbn. subst logs1. destruct (decide (q = active sys)) as [->|Hna].
      + simplify_eq. eexists _, []. rewrite lookup_insert_eq, lookup_insert_ne, app_nil_r by done. done.
      + eexists sq, []. rewrite !lookup_insert_ne, app_nil_r by done. done. }
  destruct (append_to debug (active sys2) input sys2) as [[ref|e|f] sys3]; [| |done].
  - destruct Hfin as (logs3 & s3 & log3 & Hok3 & Hs3 & Hg3 & (a & l & b & Ew3) & ? & ? & ? & ? & ? & Hgr). exists logs3, s3, log3.
    split_and!; try done.
    + eapply survives_trans; [exact Hsurv|]. by eapply survives_trans.
    + eapply guarantee_trans; [exact Hg1|]. by eapply guarantee_trans.
    + destruct Hsame as (l2 & b2 & Ew2). exists a, l, b. rewrite Ew3, Ew2. done.
    + exact (rotated_grown sys logs s sys2 input sys3 logs3 log' Hl' Hfull (conj Hin Henc) Htr Hgr).
  - destruct Hfin as [-> [(_ & _ & log0 & Hl0 & Hbig)|[[_ ?]|[_ ?]]]]; [|done..]. exfalso. rewrite Hact in Hl0.
    subst logs1. rewrite lookup_insert_eq in Hl0. simplify_eq. pose proof (input_ok_bounds input (conj Hin Henc)).
    change (log_end []) with 4096 in Hbig. unfold kSegmentSizeBytes in Hbig. lia.
Qed.

(** *** Publication *)

Lemma validate_live_record_Ok s log refs r : live_ok s log refs -> r ∈ refs -> validate_live_record s r = Ok tt.
Proof.
  intros Hlv [l Hr]%elem_of_Permutation. rewrite Hr in Hlv. unfold validate_live_record.
  pose proof (live_sub _ _ _ Hlv) as Hsub.
  rewrite (validate_log_ref s log) by (apply Hlv || (eapply elem_of_submseteq; [|exact Hsub]; left)). cbn [bindR].
  rewrite (live_count _ _ _ Hlv), (live_total _ _ _ Hlv), zlen_cons.
  assert (l ⊆+ log_refs s log) as Hl by (etrans; [|exact Hsub]; by apply submseteq_cons).
  pose proof (live_bounds s log l (live_rep _ _ _ Hlv) Hl). pose proof (zlen_nonneg l).
  change (sum_sizes (r :: l)) with (ref_size r + sum_sizes l).
  destruct (Z.eqb_spec (1 + zlen l) 0); [lia|].
  by destruct (Z.ltb_spec (ref_size r + sum_sizes l) (ref_size r)); [lia|].
Qed.

Lemma maybe_retire_active sys logs live : segs_ok sys logs live -> maybe_retire (active sys) sys = (Ok tt, sys).
Proof.
  intros Hok. destruct (so_seg _ _ _ Hok _ (so_active _ _ _ Hok)) as (s & log & Hs & _ & Hh & _).
  unfold maybe_retire. rewrite (bindM_Ok _ _ _ _ _ (deref_Ok _ _ _ Hs)).
  pose proof (sh_state _ _ _ Hh) as Hst. rewrite decide_True in Hst by done. by rewrite Hst, bool_decide_eq_false_2.
Qed.

(** [maybe_retire] of any segment of the worker. *)
Lemma maybe_retire_ok sys logs m p : segs_ok sys logs (fun id => live_in id m) -> p ∈ owned sys ->
  exists sys', maybe_retire p sys = (Ok tt, sys') /\ segs_ok sys' logs (fun id => live_in id m) /\
    guarantee sys sys' /\ survives sys logs sys' logs m /\ w_index (sys_worker sys') = w_index (sys_worker sys) /\
    trimmed sys sys' /\
    (p <> active sys -> forall s, heap (sys_world sys) !! p = Some s -> live_in (seg_id s) m = [] -> p ∉ owned sys').
Proof.
  intros Hok Hp. destruct (decide (p = active sys)) as [->|Hne].
  - exists sys. split_and!; [by eapply maybe_retire_active|done|apply guarantee_refl|apply survives_refl|done|apply trimmed_refl|done].
  - destruct (maybe_retire_spec _ _ _ _ Hok Hp Hne) as (sys' & ? & ? & ? & (l & b & Ew) & ? & Hret). exists sys'.
    split_and!; try done; [by eapply maybe_retire_survives|by rewrite Ew|]. intros _ s Hs Hnil Hin.
    destruct Hret as [[_ Hlive]|(s' & _ & _ & Hret & _)]; [by apply (Hlive s)|]. by apply Hret in Hin as [_ []].
Qed.

Definition set_index sys (t : SwissTableIndex) : Sys := mkSys (sys_world sys) (with_index (sys_worker sys) t).

Lemma set_index_segs sys logs live t : segs_ok sys logs live -> segs_ok (set_index sys t) logs live.
Proof.
  intros Hok. split; try apply Hok. intros p Hp. destruct (so_seg _ _ _ Hok p Hp) as (s & log & ? & ? & [] & ?).
  exists s, log. done.
Qed.

(** The segment a reference of the index points into. *)
Lemma entry_segment sys logs m kv k r : segs_ok sys logs (fun id => live_in id m) ->
  (forall k, entry_ok sys logs m kv k) -> m !! k = Some r ->
  exists p s log, w_owned_by_id (sys_worker sys) !! ref_segment_id r = Some p /\ p ∈ owned sys /\
    heap (sys_world sys) !! p = Some s /\ logs !! p = Some log /\ seg_id s = ref_segment_id r /\
    live_ok s log (live_in (seg_id s) m) /\ r ∈ live_in (seg_id s) m.
Proof.
  intros Hok He Hk. pose proof (He k) as Hent. unfold entry_ok in Hent. rewrite Hk in Hent.
  destruct Hent as (input & (p & s & pre & post & Hp & Hs & Hl & ->) & _).
  destruct (so_seg _ _ _ Hok p Hp) as (s' & log & Hs' & Hl' & Hh & Hlv). simplify_eq.
  exists p, s, (pre ++ input :: post). split_and!; try done; [apply Hh|]. apply elem_of_live_in. eauto.
Qed.

Lemma segs_live_ext sys logs live live' : (forall id, live id ≡ₚ live' id) -> segs_ok sys logs live -> segs_ok sys logs live'.
Proof.
  intros E Hok. split; try apply Hok. intros p Hp. destruct (so_seg _ _ _ Hok p Hp) as (s & log & ? & ? & ? & Hl).
  exists s, log. split_and!; try done. by rewrite <- E.
Qed.

(** Changing the live references of one segment. *)
Definition relive live (id : Z) (refs : list RecordRef) : Z -> list RecordRef :=
  fun id' => if decide (id' = id) then refs else live id'.

Lemma mark_step sys logs live p s log s' refs f : segs_ok sys logs live -> p ∈ owned sys ->
  heap (sys_world sys) !! p = Some s -> logs !! p = Some log -> f s = Ok s' ->
  live_ok s' log refs -> seg_id s' = seg_id s -> seg_generation s' = seg_generation s ->
  seg_state s' = seg_state s -> seg_owner s' = seg_owner s ->
  on_world (call_unit p f) sys = (Ok tt, set_seg sys p s') /\
  segs_ok (set_seg sys p s') logs (relive live (seg_id s) refs) /\
  forall m, survives sys logs (set_seg sys p s') logs m.
Proof.
  intros Hok Hp Hs Hl Hf Hlv Ei Eg Es Eo. assert (Hid : <[p := log]> logs = logs) by by apply insert_id. split_and!.
  - by eapply call_unit_Ok.
  - rewrite <- Hid. eapply segs_update; try done.
    + unfold relive. by rewrite decide_True.
    + intros id Hne. unfold relive. by rewrite decide_False.
  - intros m. pose proof (set_seg_survives sys logs m p s s' log [] Hp Hs Hl Ei Eg) as H.
    by rewrite app_nil_r, Hid in H.
Qed.

Lemma mark_live_step sys logs live p s log r : segs_ok sys logs live -> p ∈ owned sys ->
  heap (sys_world sys) !! p = Some s -> logs !! p = Some log -> r :: live (seg_id s) ⊆+ log_refs s log ->
  exists s', on_world (call_unit p (fun s => mark_live s r)) sys = (Ok tt, set_seg sys p s') /\
    segs_ok (set_seg sys p s') logs (relive live (seg_id s) (r :: live (seg_id s))) /\
    (forall m, survives sys logs (set_seg sys p s') logs m) /\
    seg_id s' = seg_id s /\ seg_generation s' = seg_generation s.
Proof.
  intros Hok Hp Hs Hl Hsub. destruct (so_seg _ _ _ Hok p Hp) as (s0 & log0 & Hs0 & Hl0 & _ & Hlv). simplify_eq.
  destruct (mark_live_ok s log _ r Hlv Hsub) as (s' & E & Hlv' & Ei & Eg & Es & Eo). exists s'.
  destruct (mark_step sys logs live p s log s' _ (fun s => mark_live s r) Hok Hp Hs Hl E Hlv' Ei Eg Es Eo) as (? & ? & ?).
  done.
Qed.

Lemma mark_dead_step sys logs live p s log r rest : segs_ok sys logs live -> p ∈ owned sys ->
  heap (sys_world sys) !! p = Some s -> logs !! p = Some log -> live (seg_id s) ≡ₚ r :: rest ->
  exists s', on_world (call_unit p (fun s => mark_dead s r)) sys = (Ok tt, set_seg sys p s') /\
    segs_ok (set_seg sys p s') logs (relive live (seg_id s) rest) /\
    (forall m, survives sys logs (set_seg sys p s') logs m) /\ seg_id s' = seg_id s.
Proof.
  intros Hok Hp Hs Hl Hperm. destruct (so_seg _ _ _ Hok p Hp) as (s0 & log0 & Hs0 & Hl0 & _ & Hlv). simplify_eq.
  destruct (mark_dead_ok s log _ _ r Hlv Hperm) as (s' & E & Hlv' & Ei & Eg & Es & Eo). exists s'.
  destruct (mark_step sys logs live p s log s' _ (fun s => mark_dead s r) Hok Hp Hs Hl E Hlv' Ei Eg Es Eo) as (? & ? & ?).
  done.
Qed.

(** The entries after the index was changed at [key]. *)
Lemma entries_insert sys sys' logs m kv key ref input s log :
  (forall k, entry_ok sys logs m kv k) -> (forall m, survives sys logs sys' logs m) ->
  active sys ∈ owned sys -> heap (sys_world sys) !! active sys = Some s ->
  logs !! active sys = Some (log ++ [input]) -> ref = ref_after s log input ->
  in_key input = key -> in_opcode input = Opcode_put ->
  forall k, entry_ok sys' logs (<[key := ref]> m) (<[key := (in_value input, in_expire_at_ns input)]> kv) k.
Proof.
  intros He Hsurv Ha Hs Hl Href Hkey Hop. eapply (entries_mono sys); [|apply Hsurv]. intros k. unfold entry_ok.
  destruct (decide (k = key)) as [->|Hne].
  - rewrite !lookup_insert_eq. exists input. split_and!; try done. exists (active sys), s, log, []. done.
  - rewrite !lookup_insert_ne by done. apply He.
Qed.

Lemma on_index_Ok {A} sys (f : Method SwissTableIndex A) a t :
  f (w_index (sys_worker sys)) = (Ok a, t) -> on_index f sys = (Ok a, set_index sys t).
Proof. intros E. unfold on_index. by rewrite E. Qed.
Lemma on_index_Err {A} sys (f : Method SwissTableIndex A) e t :
  f (w_index (sys_worker sys)) = (Err e, t) -> on_index f sys = (Err e, set_index sys t).
Proof. intros E. unfold on_index. by rewrite E. Qed.

Lemma set_index_survives sys logs t m : survives sys logs (set_index sys t) logs m.
Proof. intros p s log r Hp Hs Hl _. split; [done|]. exists s, []. by rewrite app_nil_r. Qed.
Lemma set_index_guarantee sys t : guarantee sys (set_index sys t).
Proof. by apply guarantee_local. Qed.

(** The live references once [ref] replaces [prev] under a key. *)
Lemma replace_live m key ref prev a b : m !! key = Some prev -> ref_segment_id ref = a -> ref_segment_id prev = b ->
  relive (fun id => live_in id m) a (ref :: live_in a m) b ≡ₚ prev :: live_in b (<[key := ref]> m) /\
  forall id, relive (relive (fun id => live_in id m) a (ref :: live_in a m)) b (live_in b (<[key := ref]> m)) id ≡ₚ
    live_in id (<[key := ref]> m).
Proof.
  intros Hk Ha Hb. unfold relive. split.
  - rewrite (live_in_replace b m key ref prev Hk), Ha. destruct (decide (b = a)) as [->|Hne].
    + rewrite decide_True by done. rewrite (live_in_delete a m key prev Hk), decide_True by done. constructor.
    + rewrite decide_False by done. by rewrite (live_in_delete b m key prev Hk), decide_True.
  - intros id. destruct (decide (id = b)) as [->|Hnb]; [done|].
    rewrite (live_in_replace id m key ref prev Hk), Ha. destruct (decide (id = a)) as [->|Hna].
    + rewrite decide_True by done. by rewrite (live_in_delete a m key prev Hk), decide_False by congruence.
    + rewrite decide_False by done. by rewrite (live_in_delete id m key prev Hk), decide_False by congruence.
Qed.

Lemma insert_live m key ref a : m !! key = None -> ref_segment_id ref = a ->
  forall id, relive (fun id => live_in id m) a (ref :: live_in a m) id ≡ₚ live_in id (<[key := ref]> m).
Proof.
  intros Hk Ha id. unfold relive. rewrite (live_in_insert id m key ref Hk), Ha.
  destruct (decide (id = a)) as [->|]; [by rewrite decide_True|by rewrite decide_False].
Qed.

Section publish.
Context sys logs m kv (input : RecordInput) (s : Segment) (log : list RecordInput).
Hypothesis Hok : segs_ok sys logs (fun id => live_in id m).
Hypothesis Htab : table_ok routing seed (w_index (sys_worker sys)) m.
Hypothesis Hent : forall k, entry_ok sys logs m kv k.
Hypothesis Hs : heap (sys_world sys) !! active sys = Some s.
Hypothesis Hl : logs !! active sys = Some (log ++ [input]).
Hypothesis Hsub : live_in (seg_id s) m ⊆+ log_refs s log.
Hypothesis Hop : in_opcode input = Opcode_put.

Let key := in_key input.
Let ref := ref_after s log input.
Let kv' := <[key := (in_value input, in_expire_at_ns input)]> kv.

Lemma ref_new : ref :: live_in (seg_id s) m ⊆+ log_refs s (log ++ [input]).
Proof using Hsub.
  rewrite log_refs_snoc. fold ref. rewrite Permutation_app_comm. cbn. by apply submseteq_skip.
Qed.

(** The new reference is counted. *)
Lemma publish_live t : exists s', on_world (call_unit (active sys) (fun s => mark_live s ref)) (set_index sys t) =
    (Ok tt, set_seg (set_index sys t) (active sys) s') /\
  segs_ok (set_seg (set_index sys t) (active sys) s') logs
    (relive (fun id => live_in id m) (seg_id s) (ref :: live_in (seg_id s) m)) /\
  (forall m, survives sys logs (set_seg (set_index sys t) (active sys) s') logs m) /\ seg_id s' = seg_id s.
Proof using Hok Hs Hl Hsub.
  destruct (mark_live_step (set_index sys t) logs _ (active sys) s (log ++ [input]) ref (set_index_segs _ _ _ t Hok))
    as (s' & E & Hok' & Hsurv & Ei & _); [apply Hok|done..|apply ref_new|].
  by exists s'.
Qed.

Lemma publish_new t : table_ok routing seed t (<[key := ref]> m) -> m !! key = None ->
  exists sys', on_world (call_unit (active sys) (fun s => mark_live s ref)) (set_index sys t) = (Ok tt, sys') /\
    stands sys' logs (<[key := ref]> m) kv' /\ guarantee sys sys' /\ trimmed sys sys' /\ w_index (sys_worker sys') = t.
Proof using Hok Hs Hl Hsub Hent Hop.
  intros Ht Hk. destruct (publish_live t) as (s' & E & Hok' & Hsurv & _). eexists. split; [exact E|].
  split_and!; [|eapply guarantee_trans; [apply set_index_guarantee|apply set_seg_guarantee, Hok]|by apply trimmed_local|done].
  split.
  - eapply segs_live_ext; [|exact Hok']. by apply insert_live.
  - split; [done|]. eapply entries_insert; try done. apply Hok.
Qed.

Lemma publish_replace t prev : table_ok routing seed t (<[key := ref]> m) -> m !! key = Some prev ->
  exists ps sp, w_owned_by_id (sys_worker sys) !! ref_segment_id prev = Some ps /\
    heap (sys_world sys) !! ps = Some sp /\ validate_live_record sp prev = Ok tt /\
  exists sys1 sys2 sys3,
    on_world (call_unit (active sys) (fun s => mark_live s ref)) (set_index sys t) = (Ok tt, sys1) /\
    on_world (call_unit ps (fun s => mark_dead s prev)) sys1 = (Ok tt, sys2) /\
    maybe_retire ps sys2 = (Ok tt, sys3) /\ stands sys3 logs (<[key := ref]> m) kv' /\ guarantee sys sys3 /\
    trimmed sys sys3 /\ w_index (sys_worker sys3) = t /\
    (ps <> active sys -> live_in (ref_segment_id prev) (<[key := ref]> m) = [] -> ps ∉ owned sys3).
Proof using Hok Hs Hl Hsub Hent Hop.
  intros Ht Hk. destruct (entry_segment sys logs m kv key prev Hok Hent Hk)
    as (ps & sp & logp & Hby & Hps & Hsp & Hlp & Eid & Hlv & Hin).
  exists ps, sp. split_and!; [done..|by eapply validate_live_record_Ok|].
  destruct (publish_live t) as (s' & E1 & Hok1 & Hsurv1 & Ei1).
  destruct (replace_live m key ref prev (seg_id s) (seg_id sp) Hk eq_refl (eq_sym Eid)) as [Hrel Hext].
  set (sys1 := set_seg (set_index sys t) (active sys) s') in *.
  assert (exists sp1, heap (sys_world sys1) !! ps = Some sp1 /\ seg_id sp1 = seg_id sp) as (sp1 & Hsp1 & Eisp).
  { subst sys1. cbn. destruct (decide (ps = active sys)) as [->|].
    - simplify_eq. exists s'. by rewrite lookup_insert_eq.
    - exists sp. by rewrite lookup_insert_ne. }
  destruct (mark_dead_step sys1 logs _ ps sp1 logp prev (live_in (seg_id sp) (<[key := ref]> m)) Hok1)
    as (sp' & E2 & Hok2 & Hsurv2 & Eisp'); [done|done|done|by rewrite Eisp|].
  rewrite Eisp in Hok2. apply (segs_live_ext _ _ _ (fun id => live_in id (<[key := ref]> m)) Hext) in Hok2.
  destruct (maybe_retire_ok _ logs (<[key := ref]> m) ps Hok2) as (sys3 & E3 & Hok3 & Hg3 & Hsurv3 & Eix & Htr & Hgone); [done|].
  eexists _, _, _. split_and!; [exact E1|exact E2|exact E3| | | |by rewrite Eix|].
  - split; [done|]. split; [by rewrite Eix|].
    eapply entries_mono; [|exact Hsurv3]. eapply entries_insert; try done; [|apply Hok].
    intros m'. eapply survives_trans; [apply Hsurv1|apply Hsurv2].
  - eapply guarantee_trans; [apply set_index_guarantee|]. eapply guarantee_trans; [apply (set_seg_guarantee (set_index sys t) (active sys) s'), Hok|].
    eapply guarantee_trans; [|exact Hg3]. by apply set_seg_guarantee.
  - eapply trimmed_trans; [by apply (trimmed_local sys (set_seg sys1 ps sp'))|done].
  - intros Hna Hnil. eapply Hgone; [done|cbn; apply lookup_insert_eq|]. by rewrite Eisp', Eisp, Eid.
Qed.
End publish.

Lemma publish_spec sys logs m kv input s log : segs_ok sys logs (fun id => live_in id m) ->
  table_ok routing seed (w_index (sys_worker sys)) m -> (forall k, entry_ok sys logs m kv k) ->
  heap (sys_world sys) !! active sys = Some s -> logs !! active sys = Some (log ++ [input]) ->
  live_in (seg_id s) m ⊆+ log_refs s log -> in_opcode input = Opcode_put ->
  bytes_ok (in_key input) -> zlen (in_key input) < kInlineKeyMask ->
  runs (publish (hashed routing (in_key input)) (ref_after s log input) (active sys) sys)
    (fun _ sys' => stands sys' logs (<[in_key input := ref_after s log input]> m)
         (<[in_key input := (in_value input, in_expire_at_ns input)]> kv) /\ guarantee sys sys' /\ trimmed sys sys' /\
       same_capacity (w_index (sys_worker sys)) (w_index (sys_worker sys')) /\
       forall prev ps, m !! in_key input = Some prev -> w_owned_by_id (sys_worker sys) !! ref_segment_id prev = Some ps ->
         ps <> active sys -> live_in (ref_segment_id prev) (<[in_key input := ref_after s log input]> m) = [] ->
         ps ∉ owned sys')
    (fun e sys' => worker_ok sys' kv /\ guarantee sys sys' /\
       (t_capacity (w_index (sys_worker sys)) > size_max / 2 \/ kSwissInlineKeyBytes < zlen (in_key input))).
Proof.
  intros Hok Htab Hent Hs Hl Hsub Hop Hb Hlen. set (key := in_key input) in *. set (ref := ref_after s log input).
  unfold publish. rewrite (bindM_Ok _ _ _ _ _ (deref_Ok _ _ _ Hs)). wsteps.
  destruct (so_seg _ _ _ Hok _ (so_active _ _ _ Hok)) as (s0 & ? & Hs0 & _ & Hh & _). simplify_eq.
  rewrite (sh_owner _ _ _ Hh), !Z.eqb_refl. cbn [negb orb].
  pose proof (insert_exact routing seed _ m key ref Htab Hb) as Hins.
  destruct (insert_or_assign (hashed routing key) ref (w_index (sys_worker sys))) as [[mut|e|f] t] eqn:Ei; [| |done].
  - rewrite (bindM_Ok _ _ _ _ _ (on_index_Ok _ _ _ _ Ei)). destruct Hins as (Ht & -> & Hcap). cbn [previous].
    destruct (m !! key) as [prev|] eqn:Hk.
    + destruct (publish_replace sys logs m kv input s log Hok Hent Hs Hl Hsub Hop t prev Ht Hk)
        as (ps & sp & Hby & Hsp & Hval & sys1 & sys2 & sys3 & E1 & E2 & E3 & Hw & Hg & Htr & Et & Hret).
      unfold find_owned_segment. wsteps. cbn [sys_worker set_index with_index w_owned_by_id]. rewrite Hby. wsteps.
      rewrite (bindM_Ok _ _ _ _ _ (deref_Ok (set_index sys t) _ _ Hsp)). wsteps.
      erewrite (bindM_Ok (on_error (liftM _) _)) by (apply on_error_Ok; by rewrite Hval). wsteps.
      erewrite (bindM_Ok (on_error _ _)) by (apply on_error_Ok; exact E1).
      erewrite (bindM_Ok (on_error _ _)) by (apply on_error_Ok; exact E2). rewrite E3.
      split_and!; [done..|by rewrite Et|]. intros prev' ps' Hp Hby' Hna. simplify_eq. by apply Hret.
    + destruct (publish_new sys logs m kv input s log Hok Hent Hs Hl Hsub Hop t Ht Hk) as (sys' & E & Hw & Hg & Htr & Et).
      wsteps. erewrite (bindM_Ok (on_error _ _)) by (apply on_error_Ok; exact E).
      split_and!; [done..|by rewrite Et|]. intros prev' ps' Hp. congruence.
  - rewrite (bindM_Err _ _ _ _ _ (on_index_Err _ _ _ _ Ei)). destruct Hins as [Ht [[_ ?]|[_ Hwhy]]]; [lia|].
    split_and!; [|apply set_index_guarantee|naive_solver]. exists m, logs. split; [by apply set_index_segs|].
    split; [done|]. eapply entries_mono; [exact Hent|]. apply set_index_survives.
Qed.

(** *** The operations *)

Lemma hash_of_range key : bytes_ok key -> is_u64 (hash_of routing key).
Proof using Hrouting.
  intros Hk. unfold hash_of, hash_key_routing. destruct (_ =? _).
  - rewrite siphash24_words by done. apply siphash_words_range; [done| |done].
    apply lxor_range; [lia|done|]. unfold kWorkerRoutingSipKey1Xor. width. lia.
  - apply hash_key_range.
Qed.

Definition set_sequence sys (n : Z) : Sys := mkSys (sys_world sys) (with_sequence (sys_worker sys) n).

Lemma set_sequence_segs sys logs live n : is_u64 n -> segs_ok sys logs live -> segs_ok (set_sequence sys n) logs live.
Proof.
  intros Hn Hok. split; try apply Hok; [|done]. intros p Hp. destruct (so_seg _ _ _ Hok p Hp) as (s & log & ? & ? & [] & ?).
  exists s, log. done.
Qed.
Lemma set_sequence_entries sys logs m kv n : (forall k, entry_ok sys logs m kv k) ->
  forall k, entry_ok (set_sequence sys n) logs m kv k.
Proof. intros H k. exact (H k). Qed.

Definition gate_closed sys : bool := w_exclusive_writer (sys_worker sys) && w_index_quiesce_active (sys_worker sys).
(** The record of a key and a value fits. *)
Definition record_fits (key value : list Z) : Prop := 56 + zlen key + zlen value <= kMaxNormalRecordSize.

(** *** Calls of a thread that holds the mutex or does not *)

Section held.
Context (held : bool).

(** The check of a debug build does not lock a mutex its thread holds. *)
Definition lock_free sys : Prop := debug && w_exclusive_writer (sys_worker sys) && held = false.
Lemma check_hot_path_ok sys : lock_free sys -> check_hot_path debug held sys = (Ok tt, sys).
Proof. intros H. unfold check_hot_path, lock_free in *. wsteps. by rewrite H. Qed.

(** Why a mutation is refused. *)
Definition refused sys (fault : bool) (key value : list Z) (e : ErrorCode) : Prop :=
  e = sequence_conflict /\ gate_closed sys = true \/
  e = invalid_reference /\ fault = true \/
  (e = record_too_large \/ e = invalid_argument) /\ ~ record_fits key value \/
  e = arithmetic_overflow /\ next_id (sys_world sys) = umax 64.

(** The records of a put and of an erase. *)
Definition put_input sys key value expire : RecordInput :=
  mkRecordInput (w_next_sequence (sys_worker sys)) Opcode_put ValueType_bytes 0 (hash_of routing key) expire key value.
Definition erase_input sys key : RecordInput :=
  mkRecordInput (w_next_sequence (sys_worker sys)) Opcode_erase ValueType_bytes 0 (hash_of routing key) 0 key [].

(** The values of the other keys stay in their segments. *)
Definition homes sys m key sys' : Prop :=
  forall k r p, k <> key -> m !! k = Some r -> w_owned_by_id (sys_worker sys) !! ref_segment_id r = Some p ->
    w_owned_by_id (sys_worker sys') !! ref_segment_id r = Some p.

(** A put that succeeded: the record is in the log of the active segment, where the
    index has it, and the segment of the previous value is gone if that was the last
    value in it. *)
Definition put_done sys logs m kv key value expire sys' : Prop :=
  exists logs' ref, stands sys' logs' (<[key := ref]> m) (<[key := (value, expire)]> kv) /\ guarantee sys sys' /\
    grown sys logs (put_input sys key value expire) sys' logs' /\
    w_next_sequence (sys_worker sys') = u64 (w_next_sequence (sys_worker sys) + 1) /\
    same_capacity (w_index (sys_worker sys)) (w_index (sys_worker sys')) /\
    w_owned_by_id (sys_worker sys') !! ref_segment_id ref = Some (active sys') /\ homes sys m key sys' /\
    forall prev ps, m !! key = Some prev -> w_owned_by_id (sys_worker sys) !! ref_segment_id prev = Some ps ->
      ps <> active sys' -> (forall k r, k <> key -> m !! k = Some r -> ref_segment_id r <> ref_segment_id prev) ->
      ps ∉ owned sys'.

(** An erase that succeeded. *)
Definition erase_done sys logs m kv key sys' : Prop :=
  exists logs', stands sys' logs' (delete key m) (delete key kv) /\ guarantee sys sys' /\
    grown sys logs (erase_input sys key) sys' logs' /\
    w_next_sequence (sys_worker sys') = u64 (w_next_sequence (sys_worker sys) + 1) /\
    t_capacity (w_index (sys_worker sys')) = t_capacity (w_index (sys_worker sys)) /\ homes sys m key sys'.

(** The active segment keeps its identity while others go. *)
Lemma trimmed_active_id sys sys' logs live logs' live' s : segs_ok sys logs live -> segs_ok sys' logs' live' ->
  trimmed sys sys' -> heap (sys_world sys) !! active sys = Some s ->
  w_owned_by_id (sys_worker sys') !! seg_id s = Some (active sys').
Proof.
  intros Hok Hok' [] Hs. destruct (so_seg _ _ _ Hok' _ (so_active _ _ _ Hok')) as (s' & _ & _ & _ & Hh & _).
  pose proof (sh_by_id _ _ _ Hh) as Hby. pose proof (lookup_weaken _ _ _ _ Hby tr_by_id0) as Hby0.
  destruct (so_by_id _ _ _ Hok _ _ Hby0) as (_ & s0 & Hs0 & E). rewrite tr_active0 in Hs0. simplify_eq. by rewrite E.
Qed.

Lemma live_home sys logs m kv sys1 logs1 k r p : segs_ok sys logs (fun id => live_in id m) ->
  (forall k, entry_ok sys logs m kv k) -> segs_ok sys1 logs1 (fun id => live_in id m) -> survives sys logs sys1 logs1 m ->
  m !! k = Some r -> w_owned_by_id (sys_worker sys) !! ref_segment_id r = Some p ->
  w_owned_by_id (sys_worker sys1) !! ref_segment_id r = Some p.
Proof.
  intros Hok Hent Hok1 Hsurv Hk Hby.
  destruct (entry_segment sys logs m kv k r Hok Hent Hk) as (p' & s & log & Hby' & Hp & Hs & Hl & Eid & _ & Hin).
  simplify_eq. destruct (Hsurv p s log r Hp Hs Hl Hin) as (Hp1 & s' & more & Hs' & Ei & _).
  destruct (so_seg _ _ _ Hok1 p Hp1) as (s'' & _ & Hs'' & _ & Hh & _). simplify_eq.
  pose proof (sh_by_id _ _ _ Hh) as Hby1. by rewrite Ei, Eid in Hby1.
Qed.

Lemma live_homes sys logs m kv sys1 logs1 sys2 m2 kv2 key : segs_ok sys logs (fun id => live_in id m) ->
  (forall k, entry_ok sys logs m kv k) -> segs_ok sys1 logs1 (fun id => live_in id m) -> survives sys logs sys1 logs1 m ->
  trimmed sys1 sys2 -> stands sys2 logs1 m2 kv2 -> (forall k, k <> key -> m2 !! k = m !! k) -> homes sys m key sys2.
Proof.
  intros Hok Hent Hok1 Hsurv Htr [Hok2 [_ Hent2]] Hm k r p Hne Hk Hby.
  pose proof (live_home _ _ _ _ _ _ _ _ _ Hok Hent Hok1 Hsurv Hk Hby) as Hby1. rewrite <- Hm in Hk by done.
  destruct (entry_segment sys2 logs1 m2 kv2 k r Hok2 Hent2 Hk) as (p2 & _ & _ & Hby2 & _).
  pose proof (lookup_weaken _ _ _ _ Hby2 (tr_by_id _ _ Htr)). congruence.
Qed.

(** No value is left in the segment of the value a put replaces. *)
Lemma vacated sys logs m kv sys1 logs1 key ref s1 prev ps : segs_ok sys logs (fun id => live_in id m) ->
  (forall k, entry_ok sys logs m kv k) -> segs_ok sys1 logs1 (fun id => live_in id m) -> survives sys logs sys1 logs1 m ->
  heap (sys_world sys1) !! active sys1 = Some s1 -> ref_segment_id ref = seg_id s1 ->
  m !! key = Some prev -> w_owned_by_id (sys_worker sys) !! ref_segment_id prev = Some ps -> ps <> active sys1 ->
  (forall k r, k <> key -> m !! k = Some r -> ref_segment_id r <> ref_segment_id prev) ->
  w_owned_by_id (sys_worker sys1) !! ref_segment_id prev = Some ps /\ live_in (ref_segment_id prev) (<[key := ref]> m) = [].
Proof.
  intros Hok Hent Hok1 Hsurv Hs1 Href Hk Hby Hna Hothers.
  pose proof (live_home _ _ _ _ _ _ _ _ _ Hok Hent Hok1 Hsurv Hk Hby) as Hby1. split; [done|].
  apply elem_of_nil_inv. intros r [Hid [k Hkr]]%elem_of_live_in.
  apply lookup_insert_Some in Hkr as [[<- <-]|[Hne Hkr]]; [|by apply (Hothers k r)].
  destruct (so_seg _ _ _ Hok1 _ (so_active _ _ _ Hok1)) as (s2 & _ & Hs2 & _ & Hh2 & _). simplify_eq.
  pose proof (sh_by_id _ _ _ Hh2) as Hby2. rewrite <- Href, Hid in Hby2. congruence.
Qed.

Lemma put_exact sys logs m kv fault_rotate fault_index key value expire : lock_free sys -> stands sys logs m kv ->
  bytes_ok key -> bytes_ok value -> is_u64 expire ->
  runs (put_locked_published debug held fault_rotate fault_index (hashed routing key) value expire sys)
    (fun _ sys' => put_done sys logs m kv key value expire sys')
    (fun e sys' => worker_ok sys' kv /\ guarantee sys sys' /\
       (refused sys fault_rotate key value e \/
        e = unavailable /\ (fault_index = true \/ t_capacity (w_index (sys_worker sys)) > size_max / 2 \/
                            kSwissInlineKeyBytes < zlen key))).
Proof using Hrouting.
  intros Hlk (Hok & [Htab Hent]) Hk Hv Hx. unfold put_locked_published.
  rewrite (bindM_Ok _ _ _ _ _ (check_hot_path_ok sys Hlk)). wsteps.
  change (w_exclusive_writer (sys_worker sys) && w_index_quiesce_active (sys_worker sys)) with (gate_closed sys).
  destruct (gate_closed sys) eqn:Eg.
  { cbn. split_and!; [by exists m, logs|apply guarantee_refl|left; by left]. }
  unfold next_sequence. wsteps. fold (set_sequence sys (u64 (w_next_sequence (sys_worker sys) + 1))).
  set (sys0 := set_sequence sys _).
  set (input := mkRecordInput _ Opcode_put _ _ _ _ _ _).
  assert (Hok0 : segs_ok sys0 logs (fun id => live_in id m)) by (apply set_sequence_segs; [by apply wrap_range|done]).
  assert (Hent0 : forall k, entry_ok sys0 logs m kv k) by exact Hent.
  assert (Hg0 : guarantee sys sys0) by by apply guarantee_local.
  assert (Hin : RecordInput_ok input).
  { unfold RecordInput_ok, input. cbn. pose proof (hash_of_range key Hk). pose proof (so_sequence _ _ _ Hok).
    unfold Opcode_put, ValueType_bytes. split_and!; try done; width; lia. }
  assert (Hnot : ~ encodable input -> ~ record_fits key value).
  { intros Hn Hf. apply Hn. split_and!; [by left|done..]. }
  pose proof (append_record_spec sys0 logs m kv fault_rotate input Hok0 Hent0 Hin) as Ha.
  destruct (append_record debug fault_rotate input sys0) as [[ref|e|f] sys1] eqn:Ea; [| |done].
  - rewrite (bindM_Ok _ _ _ _ _ Ea). wsteps. fold (active sys1).
    destruct Ha as (logs1 & s1 & log1 & Hok1 & Hsurv1 & Hg1 & (a & l & b & Ew) & Henc & Hs1 & Hl1 & -> & Hsub & Hgr).
    assert (Hent1 : forall k, entry_ok sys1 logs1 m kv k) by by eapply entries_mono.
    assert (Htab1 : table_ok routing seed (w_index (sys_worker sys1)) m) by by rewrite Ew.
    assert (Hg01 : guarantee sys sys1) by by eapply guarantee_trans.
    destruct fault_index.
    { cbn. split_and!; [by exists m, logs1|done|]. right. auto. }
    pose proof (encodable_bounds input Henc) as (Hkl & _). cbn in Hkl.
    pose proof (publish_spec sys1 logs1 m kv input s1 log1 Hok1 Htab1 Hent1 Hs1 Hl1 Hsub eq_refl Hk) as Hpub.
    specialize (Hpub ltac:(cbn; unfold kInlineKeyMask, kMaxNormalRecordSize in *; lia)).
    change (in_key input) with key in Hpub.
    destruct (publish (hashed routing key) (ref_after s1 log1 input) (active sys1) sys1) as [[[]|e|f] sys2] eqn:Ep; [| |done].
    + erewrite (bindM_Ok (indeterminate_after_append _)) by (unfold indeterminate_after_append; rewrite Ep; reflexivity).
      destruct Hpub as (Hw & Hg & Htr & Hcap & Hret). exists logs1, (ref_after s1 log1 input).
      split_and!; [exact Hw|by eapply guarantee_trans|by eapply (grown_trimmed sys logs)| | | | |].
      * rewrite (tr_sequence _ _ Htr), Ew. done.
      * by rewrite Ew in Hcap.
      * eapply (trimmed_active_id sys1 sys2); try done. apply Hw.
      * eapply (live_homes sys0 logs m kv sys1 logs1); try done. intros k Hne. by rewrite lookup_insert_ne.
      * intros prev ps Hprev Hby Hna Ho. rewrite (tr_active _ _ Htr) in Hna.
        destruct (vacated sys0 logs m kv sys1 logs1 key (ref_after s1 log1 input) s1 prev ps) as [? ?]; try done.
        by apply (Hret prev ps).
    + erewrite (bindM_Err (indeterminate_after_append _)) by (unfold indeterminate_after_append; rewrite Ep; reflexivity).
      destruct Hpub as (Hw & Hg & Hwhy). rewrite Ew in Hwhy. split_and!; [done|by eapply guarantee_trans|].
      right. split; [done|]. destruct Hwhy; auto.
  - rewrite (bindM_Err _ _ _ _ _ Ea). destruct Ha as [-> Hwhy]. split_and!; [by exists m, logs|done|]. left.
    unfold refused. destruct Hwhy as [?|[[He Hn]|?]]; auto 6.
Qed.

Lemma put_spec sys kv fault_rotate fault_index key value expire : lock_free sys -> worker_ok sys kv ->
  bytes_ok key -> bytes_ok value -> is_u64 expire ->
  runs (put_locked_published debug held fault_rotate fault_index (hashed routing key) value expire sys)
    (fun _ sys' => worker_ok sys' (<[key := (value, expire)]> kv) /\ guarantee sys sys')
    (fun e sys' => worker_ok sys' kv /\ guarantee sys sys' /\
       (refused sys fault_rotate key value e \/
        e = unavailable /\ (fault_index = true \/ t_capacity (w_index (sys_worker sys)) > size_max / 2 \/
                            kSwissInlineKeyBytes < zlen key))).
Proof using Hrouting.
  intros Hlk (m & logs & Hst) Hk Hv Hx. eapply runs_weaken; [by apply (put_exact sys logs m kv)| |done].
  intros _ sys' (logs' & ref & Hst' & Hg & _). split; [|done]. by exists (<[key := ref]> m), logs'.
Qed.

Lemma delete_live m key prev b : m !! key = Some prev -> ref_segment_id prev = b ->
  forall id, relive (fun id => live_in id m) b (live_in b (delete key m)) id ≡ₚ live_in id (delete key m).
Proof.
  intros Hk Hb id. unfold relive. destruct (decide (id = b)) as [->|]; [done|].
  by rewrite (live_in_delete id m key prev Hk), decide_False by congruence.
Qed.

Lemma entries_delete sys logs m kv key : (forall k, entry_ok sys logs m kv k) ->
  forall k, entry_ok sys logs (delete key m) (delete key kv) k.
Proof.
  intros He k. unfold entry_ok. destruct (decide (k = key)) as [->|]; [by rewrite !lookup_delete_eq|].
  rewrite !lookup_delete_ne by done. apply He.
Qed.

(** The steps of a removal after its record was appended. *)
Lemma unpublish sys logs m kv key prev p s log : segs_ok sys logs (fun id => live_in id m) ->
  table_ok routing seed (w_index (sys_worker sys)) m -> (forall k, entry_ok sys logs m kv k) -> bytes_ok key ->
  m !! key = Some prev -> p ∈ owned sys -> heap (sys_world sys) !! p = Some s -> logs !! p = Some log ->
  seg_id s = ref_segment_id prev ->
  exists sys1 t sys3, on_world (call_unit p (fun s => mark_dead s prev)) sys = (Ok tt, sys1) /\
    on_index (SwissTable.erase (hashed routing key)) sys1 = (Ok (mkMutation false (Some prev)), set_index sys1 t) /\
    maybe_retire p (set_index sys1 t) = (Ok tt, sys3) /\ stands sys3 logs (delete key m) (delete key kv) /\ guarantee sys sys3 /\
    trimmed sys sys3 /\ t_capacity (w_index (sys_worker sys3)) = t_capacity (w_index (sys_worker sys)).
Proof.
  intros Hok Htab Hent Hkb Hk Hp Hs Hl Eid.
  destruct (mark_dead_step sys logs _ p s log prev (live_in (seg_id s) (delete key m)) Hok Hp Hs Hl)
    as (s' & E1 & Hok1 & Hsurv1 & _).
  { by rewrite (live_in_delete _ m key prev Hk), decide_True. }
  apply (segs_live_ext _ _ _ (fun id => live_in id (delete key m))) in Hok1; [|by apply (delete_live m key prev)].
  destruct (erase_exact routing seed (w_index (sys_worker sys)) m key Htab Hkb) as (t & Et & Ht & Hcap). rewrite Hk in Et.
  apply (set_index_segs _ _ _ t) in Hok1.
  destruct (maybe_retire_ok _ logs (delete key m) p Hok1 Hp) as (sys3 & E3 & Hok3 & Hg3 & Hsurv3 & Eix & Htr & _).
  eexists _, t, sys3. split_and!; [exact E1|by apply on_index_Ok|exact E3| | | |by rewrite Eix].
  - split; [done|]. split; [by rewrite Eix|].
    eapply entries_mono; [|exact Hsurv3]. eapply entries_mono; [by apply entries_delete, Hent|apply Hsurv1].
  - eapply guarantee_trans; [by apply (set_seg_guarantee sys p s')|]. eapply guarantee_trans; [apply set_index_guarantee|done].
  - eapply trimmed_trans; [by apply (trimmed_local sys (set_index (set_seg sys p s') t))|done].
Qed.

Lemma erase_worker_exact sys logs m kv fault_rotate key : lock_free sys -> stands sys logs m kv -> bytes_ok key ->
  runs (erase_locked_published debug held fault_rotate (hashed routing key) sys)
    (fun _ sys' => erase_done sys logs m kv key sys' /\ is_Some (kv !! key))
    (fun e sys' => worker_ok sys' kv /\ guarantee sys sys' /\
       (e = not_found /\ kv !! key = None \/ refused sys fault_rotate key [] e)).
Proof using Hrouting.
  intros Hlk (Hok & [Htab Hent]) Hk. unfold erase_locked_published.
  rewrite (bindM_Ok _ _ _ _ _ (check_hot_path_ok sys Hlk)). wsteps.
  assert (Hsame : worker_ok sys kv) by by exists m, logs.
  change (w_exclusive_writer (sys_worker sys) && w_index_quiesce_active (sys_worker sys)) with (gate_closed sys).
  destruct (gate_closed sys) eqn:Eg; [cbn; split_and!; [done|apply guarantee_refl|right; by left]|].
  rewrite (table_ok_find routing seed _ m key Htab Hk). wsteps.
  pose proof (Hent key) as Hkey. unfold entry_ok in Hkey. destruct (m !! key) as [prev|] eqn:Hmk.
  2:{ cbn. split_and!; [done|apply guarantee_refl|by left]. }
  destruct Hkey as (old & _ & _ & _ & Hkv).
  destruct (entry_segment sys logs m kv key prev Hok Hent Hmk) as (ps & sp & logp & Hby & Hps & Hsp & Hlp & Eid & Hlv & Hin).
  unfold find_owned_segment. wsteps. rewrite Hby. wsteps. rewrite (bindM_Ok _ _ _ _ _ (deref_Ok _ _ _ Hsp)).
  rewrite (validate_live_record_Ok _ _ _ _ Hlv Hin). unfold next_sequence. wsteps.
  fold (set_sequence sys (u64 (w_next_sequence (sys_worker sys) + 1))). set (sys0 := set_sequence sys _).
  set (input := mkRecordInput _ Opcode_erase _ _ _ _ _ _).
  assert (Hok0 : segs_ok sys0 logs (fun id => live_in id m)) by (apply set_sequence_segs; [by apply wrap_range|done]).
  assert (Hg0 : guarantee sys sys0) by by apply guarantee_local.
  assert (Hrin : RecordInput_ok input).
  { unfold RecordInput_ok, input. cbn. pose proof (hash_of_range key Hk). pose proof (so_sequence _ _ _ Hok).
    unfold Opcode_erase, ValueType_bytes. split_and!; try done; width; lia. }
  pose proof (append_record_spec sys0 logs m kv fault_rotate input Hok0 Hent Hrin) as Ha.
  destruct (append_record debug fault_rotate input sys0) as [[ref|e|f] sys1] eqn:Ea; [| |done].
  - rewrite (bindM_Ok _ _ _ _ _ Ea).
    destruct Ha as (logs1 & s1 & log1 & Hok1 & Hsurv1 & Hg1 & (a & l & b & Ew) & Henc & _ & _ & _ & _ & Hgr).
    destruct (Hsurv1 ps sp logp prev Hps Hsp Hlp Hin) as (Hps1 & sp1 & more & Hsp1 & Ei1 & _ & Hlp1).
    destruct (unpublish sys1 logs1 m kv key prev ps sp1 (logp ++ more) Hok1 ltac:(by rewrite Ew)
      ltac:(by eapply entries_mono) Hk Hmk Hps1 Hsp1 Hlp1 ltac:(by rewrite Ei1)) as (sys2 & t & sys3 & E1 & E2 & E3 & Hw & Hg & Htr & Hcap).
    erewrite (bindM_Ok (indeterminate_after_append _)) by (unfold indeterminate_after_append; rewrite E1; reflexivity).
    rewrite (bindM_Ok _ _ _ _ _ E2). cbn [previous]. rewrite bool_decide_eq_true_2 by done. cbn [negb]. wsteps.
    rewrite (bindM_Ok _ _ _ _ _ E3). split; [|by eauto]. exists logs1.
    split_and!; [done|eapply guarantee_trans; [by eapply guarantee_trans|done]|by eapply (grown_trimmed sys logs)| | |].
    + rewrite (tr_sequence _ _ Htr), Ew. done.
    + rewrite Hcap, Ew. done.
    + eapply (live_homes sys0 logs m kv sys1 logs1); try done. intros k Hne. by rewrite lookup_delete_ne.
  - rewrite (bindM_Err _ _ _ _ _ Ea). destruct Ha as [-> Hwhy]. split_and!; [by exists m, logs|done|]. right.
    unfold refused. destruct Hwhy as [?|[[He Hn]|?]]; auto 6. right; right; left. split; [done|].
    intros Hf. apply Hn. split_and!; [by right|done..].
Qed.

Lemma erase_worker_spec sys kv fault_rotate key : lock_free sys -> worker_ok sys kv -> bytes_ok key ->
  runs (erase_locked_published debug held fault_rotate (hashed routing key) sys)
    (fun _ sys' => worker_ok sys' (delete key kv) /\ guarantee sys sys' /\ is_Some (kv !! key))
    (fun e sys' => worker_ok sys' kv /\ guarantee sys sys' /\
       (e = not_found /\ kv !! key = None \/ refused sys fault_rotate key [] e)).
Proof using Hrouting.
  intros Hlk (m & logs & Hst) Hk. eapply runs_weaken; [by apply (erase_worker_exact sys logs m kv)| |done].
  intros _ sys' [(logs' & Hst' & Hg & _) Hin]. split_and!; [|done..]. by exists (delete key m), logs'.
Qed.

Definition is_expired (entry : list Z * Z) (now : Z) : bool :=
  negb (entry.2 =? 0) && negb (now =? 0) && (entry.2 <=? now).

Lemma get_spec sys kv fault_rotate key now : lock_free sys -> worker_ok sys kv -> bytes_ok key ->
  runs (get_locked debug held fault_rotate (hashed routing key) now sys)
    (fun v sys' => sys' = sys /\ rv_key v = key /\ kv !! key = Some (rv_value v, rv_expire_at_ns v) /\
       is_expired (rv_value v, rv_expire_at_ns v) now = false)
    (fun e sys' => guarantee sys sys' /\
       (e = not_found /\ kv !! key = None /\ worker_ok sys' kv \/
        exists entry, kv !! key = Some entry /\ is_expired entry now = true /\
          (e = not_found /\ worker_ok sys' (delete key kv) \/
           refused sys fault_rotate key [] e /\ worker_ok sys' kv))).
Proof using Hrouting.
  intros Hlk Hw Hk. pose proof Hw as (m & logs & Hok & [Htab Hent]). unfold get_locked. wsteps.
  rewrite (table_ok_find routing seed _ m key Htab Hk). wsteps.
  pose proof (Hent key) as Hkey. unfold entry_ok in Hkey. destruct (m !! key) as [ref|] eqn:Hmk.
  2:{ cbn. split; [apply guarantee_refl|by left]. }
  destruct Hkey as (input & (p & s & pre & post & Hp & Hs & Hl & ->) & Hkey & Hop & Hkv).
  destruct (so_seg _ _ _ Hok p Hp) as (s0 & log & Hs0 & Hl0 & Hh & Hlv). simplify_eq.
  unfold read_ref, find_owned_segment. wsteps. cbn [ref_segment_id ref_after]. rewrite (sh_by_id _ _ _ Hh). wsteps.
  rewrite (bindM_Ok _ _ _ _ _ (deref_Ok _ _ _ Hs)). unfold read.
  rewrite (read_extent_log true s pre input post (live_rep _ _ _ Hlv)). wsteps. cbn [view_of rv_opcode].
  rewrite Hop. cbn [Z.eqb Opcode_put Opcode_erase Pos.eqb].
  change (expired (view_of input) now) with (is_expired (in_value input, in_expire_at_ns input) now).
  destruct (is_expired _ now) eqn:Ex; [|by cbn].
  pose proof (erase_worker_spec sys kv fault_rotate (in_key input) Hlk Hw Hk) as He. unfold erase_locked. wsteps.
  destruct (erase_locked_published _ _ _ _ _) as [[pub|e|f] sys'] eqn:Ee; [| |done].
  - rewrite (bindM_Ok _ _ _ _ _ Ee). wsteps. cbn. destruct He as (? & ? & _). split; [done|]. right. eauto 6.
  - rewrite (bindM_Err _ _ _ _ _ Ee). cbn. destruct He as (? & ? & [[_ ?]|?]); [congruence|]. split; [done|]. right. eauto 6.
Qed.

(** The read of an expired key is its removal. *)
Lemma get_expired sys kv fault_rotate key now entry : worker_ok sys kv -> bytes_ok key ->
  kv !! key = Some entry -> is_expired entry now = true ->
  get_locked debug held fault_rotate (hashed routing key) now sys =
  (erase_locked debug held fault_rotate (hashed routing key) ;;! failM not_found) sys.
Proof using Hrouting.
  intros (m & logs & Hok & [Htab Hent]) Hk Hkv Hx. unfold get_locked. wsteps.
  rewrite (table_ok_find routing seed _ m key Htab Hk). wsteps.
  pose proof (Hent key) as Hkey. unfold entry_ok in Hkey. destruct (m !! key) as [ref|] eqn:Hmk; [|congruence].
  destruct Hkey as (input & (p & s & pre & post & Hp & Hs & Hl & ->) & Hkey & Hop & Hkv').
  destruct (so_seg _ _ _ Hok p Hp) as (s0 & log & Hs0 & Hl0 & Hh & Hlv). simplify_eq.
  unfold read_ref, find_owned_segment. wsteps. cbn [ref_segment_id ref_after]. rewrite (sh_by_id _ _ _ Hh). wsteps.
  rewrite (bindM_Ok _ _ _ _ _ (deref_Ok _ _ _ Hs)). unfold read.
  rewrite (read_extent_log true s pre input post (live_rep _ _ _ Hlv)). wsteps. cbn [view_of rv_opcode].
  rewrite Hop. cbn [Z.eqb Opcode_put Opcode_erase Pos.eqb].
  change (expired (view_of input) now) with (is_expired (in_value input, in_expire_at_ns input) now). by rewrite Hx.
Qed.

(** Under its own gate a read cannot remove an expired key. *)
Lemma gated_get_expired sys kv fault_rotate key now entry : lock_free sys -> worker_ok sys kv -> bytes_ok key ->
  kv !! key = Some entry -> is_expired entry now = true -> gate_closed sys = true ->
  get_locked debug held fault_rotate (hashed routing key) now sys = (Err sequence_conflict, sys).
Proof using Hrouting.
  intros Hlk Hw Hk Hkv Hx Hg. rewrite (get_expired sys kv fault_rotate key now entry Hw Hk Hkv Hx).
  unfold erase_locked, erase_locked_published. unfold bindM at 1 2.
  rewrite (bindM_Ok _ _ _ _ _ (check_hot_path_ok sys Hlk)). wsteps.
  change (w_exclusive_writer (sys_worker sys) && w_index_quiesce_active (sys_worker sys)) with (gate_closed sys).
  by rewrite Hg.
Qed.

(** The same read deadlocks where the check of a debug build locks the mutex again. *)
Lemma relocking_get_expired sys kv fault_rotate key now entry : ~ lock_free sys -> worker_ok sys kv -> bytes_ok key ->
  kv !! key = Some entry -> is_expired entry now = true ->
  get_locked debug held fault_rotate (hashed routing key) now sys = (Stuck self_deadlock, sys).
Proof using Hrouting.
  intros Hlk Hw Hk Hkv Hx. rewrite (get_expired sys kv fault_rotate key now entry Hw Hk Hkv Hx).
  unfold erase_locked, erase_locked_published, check_hot_path, lock_free in *. apply not_false_is_true in Hlk.
  unfold bindM, worker, liftM. by rewrite Hlk.
Qed.
End held.

Lemma flags_ok sys kv exclusive active : worker_ok sys kv ->
  worker_ok (mkSys (sys_world sys) (with_flags (sys_worker sys) exclusive active)) kv.
Proof.
  intros (m & logs & Hok & Hidx). exists m, logs. split; [|by destruct Hidx].
  split; try apply Hok. intros p Hp. destruct (so_seg _ _ _ Hok p Hp) as (s & log & Hs & Hl & Hh & Hlv).
  exists s, log. split_and!; [done..| |done]. by destruct Hh.
Qed.

(** *** Several workers over one manager *)

Lemma worker_world sys kv : worker_ok sys kv -> world_ok (sys_world sys).
Proof. intros (m & logs & Hok & _). apply Hok. Qed.

(** Another worker keeps its map while this one runs. *)
Lemma other_ok sys sys' wk kv : guarantee sys sys' -> world_ok (sys_world sys') ->
  worker_ok (mkSys (sys_world sys) wk) kv -> (forall p, p ∈ w_owned wk -> p ∉ owned sys) ->
  worker_ok (mkSys (sys_world sys') wk) kv /\ forall p, p ∈ w_owned wk -> p ∉ owned sys'.
Proof.
  intros (_ & Hptr & Hid & Hg) Hw (m & logs & Hok & [Htab Hent]) Hdis.
  assert (Hkeep : forall p s, p ∈ w_owned wk -> heap (sys_world sys) !! p = Some s ->
    heap (sys_world sys') !! p = Some s) by (intros p s Hp Hs; by apply Hg; auto).
  split.
  - exists m, logs. split; [split; try apply Hok|split; [done|]].
    + intros p Hp. destruct (so_seg _ _ _ Hok p Hp) as (s & log & Hs & Hl & Hh & Hlv). exists s, log.
      cbn in *. split_and!; [by apply Hkeep|done| |done]. destruct Hh. split; try done; cbn in *; [lia|].
      apply (Hg p s Hs); auto.
    + intros id p Hp. destruct (so_by_id _ _ _ Hok id p Hp) as (Hin & s & Hs & E). split; [done|].
      exists s. split; [|done]. by apply Hkeep.
    + done.
    + eapply entries_mono; [exact Hent|]. intros p s log r Hp Hs Hl _. split; [done|]. exists s, [].
      rewrite app_nil_r. split_and!; try done. by apply Hkeep.
  - intros p Hp. destruct (so_seg _ _ _ Hok p Hp) as (s & log & Hs & _). apply (Hg p s Hs); auto.
Qed.

Inductive worker_op :=
  | w_put (fault_rotate fault_index : bool) (key value : list Z) (expire_at_ns : Z)
  | w_erase (fault_rotate : bool) (key : list Z)
  | w_get (fault_rotate : bool) (key : list Z) (now_ns : Z).

Definition worker_op_ok (op : worker_op) : Prop :=
  match op with
  | w_put _ _ key value expire => bytes_ok key /\ bytes_ok value /\ is_u64 expire
  | w_erase _ key => bytes_ok key
  | w_get _ key _ => bytes_ok key
  end.

(** A call, with the record it reads. *)
Definition worker_step (op : worker_op) : Method Sys (option RecordView) :=
  match op with
  | w_put fr fi key value expire => worker_put debug fr fi (hashed routing key) value expire ;;! retM None
  | w_erase fr key => worker_erase debug fr (hashed routing key) ;;! retM None
  | w_get fr key now => let! v := worker_get debug fr (hashed routing key) now in retM (Some v)
  end.

(** The map after a call, from its result. *)
Definition kv_step (op : worker_op) (r : Result (option RecordView)) kv : kv_map :=
  match op, r with
  | w_put _ _ key value expire, Ok _ => <[key := (value, expire)]> kv
  | w_erase _ key, Ok _ => delete key kv
  | w_get _ key now, Err not_found =>
      match kv !! key with
      | Some entry => if is_expired entry now then delete key kv else kv
      | None => kv
      end
  | _, _ => kv
  end.

(** The right answers of a call on the state [sys], for the map [kv].  A put is
    done unless there is a reason to refuse it.  An erase succeeds on a key of the
    map, says [not_found] on any other key, or is refused for a reason.  A get of a
    key that has not expired returns it; of an expired one it says [not_found], or
    why the removal was refused; of any other key it says [not_found]. *)
Definition answer_ok sys (op : worker_op) (r : Result (option RecordView)) kv : Prop :=
  match op, r with
  | w_put fr fi key value _, Ok _ => True
  | w_put fr fi key value _, Err e =>
      refused sys fr key value e \/
      e = unavailable /\ (fi = true \/ t_capacity (w_index (sys_worker sys)) > size_max / 2 \/
                          kSwissInlineKeyBytes < zlen key)
  | w_erase _ key, Ok _ => is_Some (kv !! key)
  | w_erase fr key, Err e => e = not_found /\ kv !! key = None \/ refused sys fr key [] e
  | w_get _ key now, Ok v => exists v', v = Some v' /\ rv_key v' = key /\
      kv !! key = Some (rv_value v', rv_expire_at_ns v') /\
      is_expired (rv_value v', rv_expire_at_ns v') now = false
  | w_get fr key now, Err e =>
      match kv !! key with
      | None => e = not_found
      | Some entry => is_expired entry now = true /\ (e = not_found \/ refused sys fr key [] e)
      end
  | _, Stuck _ => False
  end.

Lemma refused_found sys fault key value : ~ refused sys fault key value not_found.
Proof. intros [[? _]|[[? _]|[[[?|?] _]|[? _]]]]; done. Qed.

Lemma shared_lock_free sys held : w_exclusive_writer (sys_worker sys) = false -> lock_free held sys.
Proof. intros H. unfold lock_free. by rewrite H, andb_false_r. Qed.

Lemma worker_step_spec sys kv op : w_exclusive_writer (sys_worker sys) = false -> worker_ok sys kv -> worker_op_ok op ->
  let '(r, sys') := worker_step op sys in
  worker_ok sys' (kv_step op r kv) /\ guarantee sys sys' /\ answer_ok sys op r kv.
Proof using Hrouting.
  intros Hlk%(fun H => shared_lock_free sys true H) Hw Hop.
  destruct op as [fr fi key value expire|fr key|fr key now]; cbn [worker_step worker_op_ok] in *.
  - destruct Hop as (Hk & Hv & Hx). pose proof (put_spec true sys kv fr fi key value expire Hlk Hw Hk Hv Hx) as H.
    unfold worker_put, put_locked, bindM. destruct (put_locked_published _ _ _ _ _ _ _ sys) as [[pub|e|f] sys']; cbn in *; [|done..].
    by destruct H.
  - pose proof (erase_worker_spec true sys kv fr key Hlk Hw Hop) as H. unfold worker_erase, erase_locked, bindM.
    destruct (erase_locked_published _ _ _ _ sys) as [[pub|e|f] sys']; cbn in *; [by destruct H as (? & ? & ?)| |done].
    done.
  - pose proof (get_spec true sys kv fr key now Hlk Hw Hop) as H. unfold worker_get, bindM.
    destruct (get_locked _ _ _ _ _ sys) as [[v|e|f] sys']; cbn in *; [| |done].
    + destruct H as (-> & Hkey & Hkv & Hx). split_and!; [done|apply guarantee_refl|]. by exists v.
    + destruct H as (Hg & [(-> & Hn & Hw')|(entry & Hkv & Hx & [[-> Hw']|[Hr Hw']])]).
      * rewrite Hn. split_and!; try done.
      * rewrite Hkv, Hx. split_and!; auto.
      * rewrite Hkv. assert (e <> not_found) by (intros ->; by destruct (refused_found _ _ _ _ Hr)).
        split_and!; auto. by destruct e.
Qed.

(** *** A store of workers *)

(** The maps of the workers, whose segments are disjoint. *)
Record cluster_ok (w : World) (ws : list Worker) (kvs : list kv_map) : Prop := {
  co_world : world_ok w;
  co_workers : Forall2 (fun wk kv => worker_ok (mkSys w wk) kv /\ w_exclusive_writer wk = false) ws kvs;
  co_disjoint : forall i j wi wj p, i <> j -> ws !! i = Some wi -> ws !! j = Some wj ->
    p ∈ w_owned wi -> p ∉ w_owned wj
}.

(** The calls of a history, each with the state and the map it started from and
    its answer. *)
Definition trace : Type := list (Sys * kv_map * worker_op * Result (option RecordView)).

(** Interleaved calls: each names the worker that runs it. *)
Fixpoint cluster_run (ops : list (nat * worker_op)) (w : World) (ws : list Worker) (kvs : list kv_map) :
    World * list Worker * list kv_map * trace :=
  match ops with
  | [] => (w, ws, kvs, [])
  | (i, op) :: ops =>
      match ws !! i, kvs !! i with
      | Some wk, Some kv =>
          let '(r, sys) := worker_step op (mkSys w wk) in
          let '(result, tr) :=
            cluster_run ops (sys_world sys) (<[i := sys_worker sys]> ws) (<[i := kv_step op r kv]> kvs) in
          (result, (mkSys w wk, kv, op, r) :: tr)
      | _, _ => cluster_run ops w ws kvs
      end
  end.

Lemma cluster_step w ws kvs i wk kv op : cluster_ok w ws kvs -> worker_op_ok op -> ws !! i = Some wk -> kvs !! i = Some kv ->
  let '(r, sys) := worker_step op (mkSys w wk) in
  cluster_ok (sys_world sys) (<[i := sys_worker sys]> ws) (<[i := kv_step op r kv]> kvs) /\
  gate_closed (mkSys w wk) = false /\ answer_ok (mkSys w wk) op r kv.
Proof using Hrouting.
  intros Hc Hop Hi Hkv. pose proof (Forall2_lookup_lr _ _ _ _ _ _ (co_workers _ _ _ Hc) Hi Hkv) as [Hw Hsh]. cbn in Hw.
  pose proof (worker_step_spec (mkSys w wk) kv op Hsh Hw Hop) as Hstep.
  destruct (worker_step op (mkSys w wk)) as [r sys]. destruct Hstep as (Hw' & Hg & Ha).
  split; [|split; [unfold gate_closed; cbn; by rewrite Hsh|done]].
  pose proof (worker_world _ _ Hw') as Hworld.
  assert (Hother : forall j wj kvj, j <> i -> ws !! j = Some wj -> kvs !! j = Some kvj ->
    (worker_ok (mkSys (sys_world sys) wj) kvj /\ w_exclusive_writer wj = false) /\ forall p, p ∈ w_owned wj -> p ∉ owned sys).
  { intros j wj kvj Hne Hj Hkj. destruct (Forall2_lookup_lr _ _ _ _ _ _ (co_workers _ _ _ Hc) Hj Hkj) as [Hwj Hsj].
    destruct (other_ok (mkSys w wk) sys wj kvj Hg Hworld Hwj) as [? ?]; [|done].
    intros p Hp. by apply (co_disjoint _ _ _ Hc j i wj wk). }
  pose proof (Forall2_length _ _ _ (co_workers _ _ _ Hc)) as Hlen.
  split; [done| |].
  - apply Forall2_same_length_lookup. rewrite !length_insert. split; [done|]. intros j wj kvj Hj Hkj.
    apply list_lookup_insert_Some in Hj as [(<- & <- & _)|[Hne Hj]].
    + apply list_lookup_insert_Some in Hkj as [(_ & <- & _)|[Hne _]]; [|done]. split; [by destruct sys|]. by rewrite (proj1 Hg).
    + rewrite list_lookup_insert_ne in Hkj by done. apply (Hother j wj kvj); auto.
  - assert (Hmaps : forall j wj, ws !! j = Some wj -> exists kvj, kvs !! j = Some kvj).
    { intros j wj Hj. apply lookup_lt_is_Some. rewrite <- Hlen. by eapply lookup_lt_Some. }
    intros j1 j2 w1 w2 p Hne H1 H2 Hp1 Hp2.
    apply list_lookup_insert_Some in H1 as [(<- & <- & _)|[N1 H1]];
      apply list_lookup_insert_Some in H2 as [(<- & <- & _)|[N2 H2]]; try done.
    + destruct (Hmaps _ _ H2) as [kv2 Hk2]. by apply (Hother j2 w2 kv2) in Hp2; auto.
    + destruct (Hmaps _ _ H1) as [kv1 Hk1]. by apply (Hother j1 w1 kv1) in Hp1; auto.
    + by apply (co_disjoint _ _ _ Hc j1 j2 w1 w2 p Hne H1 H2 Hp1).
Qed.

Lemma cluster_run_ok ops : Forall (fun x => worker_op_ok x.2) ops -> forall w ws kvs, cluster_ok w ws kvs ->
  let '(w', ws', kvs', tr) := cluster_run ops w ws kvs in
  cluster_ok w' ws' kvs' /\ Forall (fun '(sys, kv, op, r) => gate_closed sys = false /\ answer_ok sys op r kv) tr.
Proof using Hrouting.
  induction 1 as [|[i op] ops Hop _ IH]; intros w ws kvs Hc; cbn [cluster_run]; [by split|].
  destruct (ws !! i) as [wk|] eqn:Hi; [|by apply IH]. destruct (kvs !! i) as [kv|] eqn:Hkv; [|by apply IH].
  pose proof (cluster_step w ws kvs i wk kv op Hc Hop Hi Hkv) as Hs.
  destruct (worker_step op (mkSys w wk)) as [r sys]. destruct Hs as [Hc' Ha].
  specialize (IH _ _ _ Hc'). destruct (cluster_run ops _ _ _) as [[[w' ws'] kvs'] tr]. destruct IH as [? ?].
  split; [done|]. by constructor.
Qed.

(** Workers made one after the other. *)
Fixpoint start_workers (ids : list Z) (w : World) : Result (list Worker) * World :=
  match ids with
  | [] => (Ok [], w)
  | id :: ids =>
      match new_worker id routing seed w with
      | (Ok sys, w) =>
          match start_workers ids w with
          | (Ok ws, w) => (Ok (sys_worker sys :: ws), w)
          | r => r
          end
      | (Err e, w) => (Err e, w)
      | (Stuck f, w) => (Stuck f, w)
      end
  end.

Lemma new_worker_ok id w : world_ok w -> next_id w < umax 64 ->
  exists sys, new_worker id routing seed w = (Ok sys, sys_world sys) /\ worker_ok sys ∅ /\
    owned sys = [next_ptr w] /\ next_id (sys_world sys) = next_id w + 1 /\
    guarantee (mkSys w (mkWorker id (new_table routing seed) 1 1 [] ∅ false false)) sys.
Proof.
  intros (Hw1 & Hw2 & Hw3) Hmax. unfold new_worker, allocate_active, make_segment, register_segment.
  unfold bindM at 1 2 3. cbv beta iota. rewrite (wrap_small 64) by (width; lia). unfold deref at 1. cbn [heap].
  rewrite lookup_insert_eq. unfold modifyM, retM. cbv beta iota. unfold register_owned_segment.
  erewrite (bindM_Ok (on_world _)) by (apply deref_Ok; cbn; apply lookup_insert_eq). wsteps. cbn. eexists. split; [done|]. split; [|split_and!; try done].
  - exists ∅, {[next_ptr w := []]}. split; [split|split]; cbn.
    + apply NoDup_singleton.
    + by left.
    + intros p ->%list_elem_of_singleton. eexists _, []. rewrite lookup_insert_eq, lookup_singleton_eq. split_and!; [done..| |].
      * split; cbn; try done; [lia|by rewrite lookup_insert_eq|by rewrite lookup_insert_eq|by rewrite decide_True].
      * split; [apply new_segment_rep|apply submseteq_nil_l|done..].
    + intros i p [[<- <-]|[_ ?]]%lookup_insert_Some; [|done]. split; [by left|]. eexists. by rewrite lookup_insert_eq.
    + split_and!; cbn; [..|width; lia].
      * intros p s. rewrite lookup_insert_Some. intros [[<- _]|[_ Hp]]; [lia|]. specialize (Hw1 p s Hp). lia.
      * intros i p. rewrite lookup_insert_Some. intros [[<- _]|[_ Hp]]; [lia|]. specialize (Hw2 i p Hp). lia.
    + width. lia.
    + by apply (empty_ok routing seed 3).
    + intros k. unfold entry_ok. by rewrite !lookup_empty.
  - unfold guarantee. split_and!; cbn; [done|lia|lia|]. intros q x Hq _. specialize (Hw1 q x Hq). rewrite lookup_insert_ne by lia. split_and!; [done| |].
    + intros ->%list_elem_of_singleton. lia.
    + intros i Hi. rewrite lookup_insert_ne; [done|]. intros <-. specialize (Hw2 _ _ Hi). lia.
Qed.

(** A worker that stands for a list of segments only. *)
Definition holder (l : list Ptr) : Worker := mkWorker 0 (new_table routing seed) 1 1 l ∅ false false.

Lemma start_workers_ok ids w : world_ok w -> next_id w + zlen ids <= umax 64 ->
  exists ws w', start_workers ids w = (Ok ws, w') /\ cluster_ok w' ws (replicate (length ids) ∅) /\
    guarantee (mkSys w (holder [])) (mkSys w' (holder (concat (w_owned <$> ws)))).
Proof.
  revert w. induction ids as [|id ids IH]; intros w Hw Hmax.
  { exists [], w. split_and!; [done| |apply guarantee_refl]. split; [done|constructor|]. intros i j wi wj p _ Hi. done. }
  rewrite zlen_cons in Hmax. pose proof (zlen_nonneg ids).
  destruct (new_worker_ok id w Hw) as (sys & E & Hok & Hown & Hid & Hg); [lia|]. cbn [start_workers]. rewrite E.
  destruct (IH (sys_world sys)) as (ws & w' & -> & Hc & Hg'); [by eapply worker_world|lia|].
  exists (sys_worker sys :: ws), w'. split; [done|].
  destruct (other_ok _ _ (sys_worker sys) ∅ Hg' (co_world _ _ _ Hc)) as [Hok' Hdis];
    [by destruct sys|intros p _; apply not_elem_of_nil|].
  assert (Hin : forall j wj p, ws !! j = Some wj -> p ∈ w_owned wj -> p ∈ concat (w_owned <$> ws)).
  { intros j wj p Hj Hp. apply list_elem_of_In, in_concat. exists (w_owned wj). split; [|by apply list_elem_of_In].
    apply list_elem_of_In, list_elem_of_fmap. exists wj. split; [done|]. by eapply list_elem_of_lookup_2. }
  split.
  - split; [apply Hc|constructor; [split; [done|apply Hg]|apply Hc]|]. intros [|i] [|j] wi wj p Hne Hi Hj Hpi Hpj; cbn in Hi, Hj; [done|..].
    + simplify_eq. apply (Hdis p Hpi). by eapply Hin.
    + simplify_eq. apply (Hdis p Hpj). by eapply Hin.
    + eapply (co_disjoint _ _ _ Hc i j); try done. lia.
  - destruct Hg as (_ & Hp1 & Hi1 & Hk1). destruct Hg' as (_ & Hp2 & Hi2 & Hk2). cbn in *. split_and!; cbn; [done|lia|lia|].
    intros q x Hq _. destruct (Hk1 q x Hq) as (Hq1 & Hn1 & Hc1); [by apply not_elem_of_nil|].
    destruct (Hk2 q x Hq1) as (Hq2 & Hn2 & Hc2); [by apply not_elem_of_nil|]. split_and!; [done| |auto].
    cbn. intros [?|?]%elem_of_app; done.
Qed.
End worker.

(** ** Properties *)

(** C13. [put] binds the key to the value and its expiry in the map the worker
    stands for.  If it is refused the map is unchanged, and the error tells why:
    the gate of the exclusive writer is closed, a fault was injected, the record
    exceeds 1 MiB, the segment identities are used up, or, after the record was
    appended, the index could not take the key.  This excludes the call of a debug
    build that holds the mutex although the worker has an exclusive writer, which
    locks itself out. *)
Theorem worker_put_refines debug held routing seed sys kv fault_rotate fault_index key value expire :
  is_u64 (routing_seed routing) -> lock_free debug held sys -> worker_ok routing seed sys kv ->
  bytes_ok key -> bytes_ok value -> is_u64 expire ->
  runs (put_locked_published debug held fault_rotate fault_index (hashed routing key) value expire sys)
    (fun _ sys' => worker_ok routing seed sys' (<[key := (value, expire)]> kv) /\ guarantee sys sys')
    (fun e sys' => worker_ok routing seed sys' kv /\ guarantee sys sys' /\
       (refused sys fault_rotate key value e \/
        e = unavailable /\ (fault_index = true \/ t_capacity (w_index (sys_worker sys)) > size_max / 2 \/
                            kSwissInlineKeyBytes < zlen key))).
Proof. intros Hr Hlk. by apply put_spec. Qed.

(** [erase] removes a key of the map and says [not_found] exactly when the map
    does not have it; otherwise it is refused for a stated reason and the map is
    unchanged. *)
Theorem worker_erase_refines debug held routing seed sys kv fault_rotate key :
  is_u64 (routing_seed routing) -> lock_free debug held sys -> worker_ok routing seed sys kv -> bytes_ok key ->
  runs (erase_locked_published debug held fault_rotate (hashed routing key) sys)
    (fun _ sys' => worker_ok routing seed sys' (delete key kv) /\ guarantee sys sys' /\ is_Some (kv !! key))
    (fun e sys' => worker_ok routing seed sys' kv /\ guarantee sys sys' /\
       (e = not_found /\ kv !! key = None \/ refused sys fault_rotate key [] e)).
Proof. intros Hr Hlk. by apply erase_worker_spec. Qed.


(** C33. [get_owned] never answers [not_found] for an expired key of a worker with
    an exclusive writer.  The read holds the mutex and has closed the gate when it
    tries to remove the key.  In a release build the removal is refused, the answer
    is [sequence_conflict] and the key stays; in a debug build the removal locks
    the mutex once more and the thread waits for itself. *)
Theorem owned_get_expired_conflicts debug routing seed sys kv fault_rotate key now entry :
  is_u64 (routing_seed routing) -> worker_ok routing seed sys kv -> bytes_ok key ->
  kv !! key = Some entry -> is_expired entry now = true ->
  w_exclusive_writer (sys_worker sys) = true -> w_index_quiesce_active (sys_worker sys) = false ->
  if (debug : bool) then (get_owned debug fault_rotate (hashed routing key) now sys).1 = Stuck self_deadlock
  else get_owned debug fault_rotate (hashed routing key) now sys = (Err sequence_conflict, sys).
Proof.
  intros Hr Hw Hk Hkv Hx He Hq. unfold get_owned, exclusive_index_quiesce. wsteps. rewrite He. cbn -[get_locked].
  unfold on_exit. destruct debug; unfold bindM at 1.
  - rewrite (relocking_get_expired true routing seed Hr true _ kv fault_rotate key now entry); [done|done|by apply flags_ok|done..].
  - rewrite (gated_get_expired false routing seed Hr true _ kv fault_rotate key now entry); [|done|by apply flags_ok|done..].
    cbn. destruct sys as [world w], w. cbn in *. by subst.
Qed.

(** C5. Workers that share a segment manager do not disturb each other.  Start any
    number of them on a new manager and interleave any calls of [put], [erase] and
    [get], with any injected faults.  No call reads or writes out of bounds, throws
    or locks itself out.  Each worker keeps the map its own calls built.  Every
    answer is right for that map at that point ([answer_ok]): a get returns the
    value of every key that has not expired and of no other, an erase says
    [not_found] exactly for a key that is not there, and a call fails otherwise
    only for the reason its error stands for: an injected fault, a record that
    exceeds 1 MiB, exhausted segment identities or, for a put, an index that cannot
    take the key. *)
Theorem workers_history debug routing seed ids ops :
  is_u64 (routing_seed routing) -> 1 + zlen ids <= umax 64 -> Forall (fun x => worker_op_ok x.2) ops ->
  exists ws w, start_workers routing seed ids (new_world 1) = (Ok ws, w) /\
    let '(w', ws', kvs', tr) := cluster_run debug routing ops w ws (replicate (length ids) ∅) in
    cluster_ok routing seed w' ws' kvs' /\
    Forall (fun '(sys, kv, op, r) => gate_closed sys = false /\ answer_ok sys op r kv) tr.
Proof.
  intros Hr Hids Hops. destruct (start_workers_ok routing seed ids (new_world 1)) as (ws & w & E & Hc & _); [|done|].
  - by apply new_world_ok.
  - exists ws, w. split; [done|]. by apply cluster_run_ok.
Qed.

(** ** Witnesses *)

Definition sample_value : list Z := [118; 97; 108].

Definition fresh_sys : Sys :=
  match new_worker 0 sample_routing 5 (new_world 1) with
  | (Ok sys, _) => sys
  | (_, w) => mkSys w (holder sample_routing 5 [])
  end.

Lemma fresh_sys_ok : worker_ok sample_routing 5 fresh_sys ∅.
Proof.
  unfold fresh_sys. destruct (new_worker_ok sample_routing 5 0 (new_world 1) (new_world_ok 1 ltac:(done))) as (sys & -> & Hok & _);
    [cbn; width; lia|done].
Qed.

Lemma sample_seed_ok : is_u64 (routing_seed sample_routing).
Proof. done. Qed.

Lemma worker_put_witness :
  runs (put_locked_published true true false false (hashed sample_routing sample_key) sample_value 9 fresh_sys)
    (fun _ sys' => worker_ok sample_routing 5 sys' (<[sample_key := (sample_value, 9)]> ∅) /\ guarantee fresh_sys sys')
    (fun e sys' => worker_ok sample_routing 5 sys' ∅ /\ guarantee fresh_sys sys' /\
       (refused fresh_sys false sample_key sample_value e \/
        e = unavailable /\ (false = true \/ t_capacity (w_index (sys_worker fresh_sys)) > size_max / 2 \/
                            kSwissInlineKeyBytes < zlen sample_key))).
Proof.
  apply (worker_put_refines true true sample_routing 5 fresh_sys ∅ false false sample_key sample_value 9);
    [apply sample_seed_ok|reflexivity|apply fresh_sys_ok|apply sample_bytes|bytes_eval|width; lia].
Defined.

Lemma worker_erase_witness :
  runs (erase_locked_published true true false (hashed sample_routing sample_key) fresh_sys)
    (fun _ sys' => worker_ok sample_routing 5 sys' (delete sample_key ∅) /\ guarantee fresh_sys sys' /\
       is_Some ((∅ : kv_map) !! sample_key))
    (fun e sys' => worker_ok sample_routing 5 sys' ∅ /\ guarantee fresh_sys sys' /\
       (e = not_found /\ (∅ : kv_map) !! sample_key = None \/ refused fresh_sys false sample_key [] e)).
Proof.
  apply (worker_erase_refines true true sample_routing 5 fresh_sys ∅ false sample_key);
    [apply sample_seed_ok|reflexivity|apply fresh_sys_ok|apply sample_bytes].
Defined.


(** A worker with an exclusive writer that holds one key, which expires at 9. *)
Definition expiring_sys : Sys :=
  (put_locked_published true false false false (hashed sample_routing sample_key) sample_value 9
     (set_exclusive_writer true fresh_sys).2).2.

Lemma expiring_sys_ok : worker_ok sample_routing 5 expiring_sys (<[sample_key := (sample_value, 9)]> ∅).
Proof.
  pose proof (put_spec true sample_routing 5 sample_seed_ok false (set_exclusive_writer true fresh_sys).2 ∅ false false
    sample_key sample_value 9 eq_refl (flags_ok _ _ _ _ _ _ fresh_sys_ok) ltac:(apply sample_bytes) ltac:(bytes_eval) ltac:(width; lia)) as H.
  unfold expiring_sys. destruct (put_locked_published _ _ _ _ _ _ _ _) as [[|e|f] sys'] eqn:E; [apply H|exfalso..].
  - apply (f_equal (fun r => match r.1 with Err _ => true | _ => false end)) in E. vm_compute in E. done.
  - exact H.
Qed.

Lemma owned_get_expired_witness :
  get_owned false false (hashed sample_routing sample_key) 20 expiring_sys = (Err sequence_conflict, expiring_sys) /\
  (get_owned true false (hashed sample_routing sample_key) 20 expiring_sys).1 = Stuck self_deadlock.
Proof.
  split.
  - apply (owned_get_expired_conflicts false sample_routing 5 expiring_sys (<[sample_key := (sample_value, 9)]> ∅)
      false sample_key 20 (sample_value, 9));
      [apply sample_seed_ok|apply expiring_sys_ok|apply sample_bytes|apply lookup_insert_eq|reflexivity|vm_compute; reflexivity..].
  - apply (owned_get_expired_conflicts true sample_routing 5 expiring_sys (<[sample_key := (sample_value, 9)]> ∅)
      false sample_key 20 (sample_value, 9));
      [apply sample_seed_ok|apply expiring_sys_ok|apply sample_bytes|apply lookup_insert_eq|reflexivity|vm_compute; reflexivity..].
Defined.

Definition sample_history : list (nat * worker_op) :=
  [(0, w_put false false sample_key sample_value 9); (1, w_put false true sample_key sample_value 0);
   (0, w_get false sample_key 5); (1, w_erase false sample_key); (0, w_get false sample_key 20)]%nat.

Lemma workers_history_witness : exists ws w, start_workers sample_routing 5 [0; 1] (new_world 1) = (Ok ws, w) /\
    let '(w', ws', kvs', tr) := cluster_run true sample_routing sample_history w ws (replicate 2 ∅) in
    cluster_ok sample_routing 5 w' ws' kvs' /\
    Forall (fun '(sys, kv, op, r) => gate_closed sys = false /\ answer_ok sys op r kv) tr.
Proof.
  apply (workers_history true sample_routing 5 [0; 1] sample_history); [apply sample_seed_ok|done|].
  repeat constructor; unfold byte_ok; try lia.
Defined.
