(* ===== verification/WorkerVerify.v ===== *)
(** * [verify_index] and retired tombstones

    A worker retires a segment as soon as none of its records is live.  The record
    of an erase is never live, so a segment can retire while an older segment still
    holds the put that the erase was about.  A rebuild then finds that put to be
    the newest record of its key, and [Store::verify_index] (Index.v) reports
    corrupted data for a worker that is correct by WorkerSpec.v.

    [tomb_history] is such a run of a new worker.  It puts [key_gone] and [key_kept]
    into the first segment and fills it with values of [key_filler], erases
    [key_gone] in the second segment and fills that one too.  The value of
    [key_filler] that opens the third segment takes the last live record of the
    second one away.  The segments hold 64 MiB, so the run is not evaluated; its
    state is followed through the specifications of [put] and [erase]. *)

From Stdlib Require Import ZifyBool.
From stdpp Require Import sorting.
From S2P Require Import Prelude Core Crc32c Record Segment Routing Probing SwissTable SwissTableSpec Index SegmentManager Worker WorkerSpec.

Implicit Types (sys : Sys) (m : gmap (list Z) RecordRef) (kv : kv_map) (logs : gmap Ptr (list RecordInput)).

Definition key_gone : list Z := [103].
Definition key_kept : list Z := [107].
Definition key_filler : list Z := [102].
(** A value whose record takes 1 MiB. *)
Definition big_value : list Z := replicate (Z.to_nat 1048519) 120.

(** Calls one after the other, as long as they succeed. *)
Fixpoint run_all (debug : bool) (ops : list worker_op) : Method Sys unit :=
  match ops with
  | [] => retM tt
  | op :: ops => worker_step debug sample_routing op ;;! run_all debug ops
  end.

Definition put_op (key value : list Z) : worker_op := w_put false false key value 0.
Definition tomb_history (big : list Z) : list worker_op :=
  [put_op key_gone sample_value; put_op key_kept sample_value] ++ replicate 63 (put_op key_filler big) ++
  [put_op key_filler big; w_erase false key_gone] ++ replicate 62 (put_op key_filler big) ++ [put_op key_filler big].
Definition tomb_kv (big : list Z) : kv_map := <[key_filler := (big, 0)]> (<[key_kept := (sample_value, 0)]> ∅).

(** [verify_index] of a store with this one worker. *)
Definition verify_sys sys : Status :=
  let '(r, _) := segments (sys_world sys) in
  let? l := r in
  verify_index map_to_list (omap (fun p => heap (sys_world sys) !! p) l) [w_index (sys_worker sys)] sample_routing 7.

(** ** Following a run *)

Definition put_of (sequence : Z) (key value : list Z) : RecordInput :=
  mkRecordInput sequence Opcode_put ValueType_bytes 0 (hash_of sample_routing key) 0 key value.
Definition erase_of (sequence : Z) (key : list Z) : RecordInput :=
  mkRecordInput sequence Opcode_erase ValueType_bytes 0 (hash_of sample_routing key) 0 key [].

(** The only worker of its manager, early in its life. *)
Record early sys logs m kv (n : Z) : Prop := {
  ea_stands : stands sample_routing 5 sys logs m kv;
  ea_alone : alone sys;
  ea_shared : w_exclusive_writer (sys_worker sys) = false;
  ea_sequence : w_next_sequence (sys_worker sys) = n;
  ea_bounds : 1 <= n < 1000 /\ next_id (sys_world sys) <= n + 1;
  ea_capacity : t_capacity (w_index (sys_worker sys)) = 8;
  ea_size : (size m <= 3)%nat
}.

Lemma run_all_app debug ops ops' sys sys' : run_all debug ops sys = (Ok tt, sys') ->
  run_all debug (ops ++ ops') sys = run_all debug ops' sys'.
Proof.
  revert sys. induction ops as [|op ops IH]; intros sys; cbn [run_all app]; [by intros [= ->]|].
  unfold bindM. destruct (worker_step debug sample_routing op sys) as [[r|e|f] sys1]; [apply IH|done..].
Qed.

Lemma table_capacity sys logs m kv n : early sys logs m kv n -> t_size (w_index (sys_worker sys)) < 8 - 8 / 8.
Proof.
  intros H. destruct (ea_stands _ _ _ _ _ H) as [_ [Ht _]]. rewrite (table_size _ _ _ _ Ht).
  pose proof (ea_size _ _ _ _ _ H). change (8 - 8 / 8) with 7. lia.
Qed.

(** A put by the worker. *)
Lemma early_put debug sys logs m kv n key value : early sys logs m kv n -> n < 999 -> bytes_ok key -> bytes_ok value ->
  zlen key = 1 -> zlen value <= 1048519 -> (size m <= 2)%nat \/ is_Some (m !! key) ->
  exists sys' logs' ref, worker_step debug sample_routing (put_op key value) sys = (Ok None, sys') /\
    early sys' logs' (<[key := ref]> m) (<[key := (value, 0)]> kv) (n + 1) /\
    grown sys logs (put_of n key value) sys' logs' /\
    w_owned_by_id (sys_worker sys') !! ref_segment_id ref = Some (active sys') /\ homes sys m key sys' /\
    forall prev ps, m !! key = Some prev -> w_owned_by_id (sys_worker sys) !! ref_segment_id prev = Some ps ->
      ps <> active sys' -> (forall k r, k <> key -> m !! k = Some r -> ref_segment_id r <> ref_segment_id prev) ->
      ps ∉ owned sys'.
Proof.
  intros He Hn Hk Hv Hkl Hvl Hsize. pose proof (table_capacity _ _ _ _ _ He) as Hcap.
  destruct He as [Hst Hal Hsh Hseq [Hb1 Hb2] Hc8 Hsz].
  pose proof (put_exact debug sample_routing 5 sample_seed_ok true sys logs m kv false false key value 0
    (shared_lock_free debug sys true Hsh) Hst Hk Hv ltac:(width; lia)) as H.
  cbn [worker_step put_op]. unfold worker_put, put_locked, bindM.
  destruct (put_locked_published _ _ _ _ _ _ _ sys) as [[pub|e|f] sys']; cbn [runs] in H; [| |done].
  - destruct H as (logs' & ref & Hst' & Hg & Hgr & Hseq' & Hcap' & Hby & Hhome & Hvac). exists sys', logs', ref.
    unfold put_input in Hgr. rewrite Hseq in Hgr, Hseq'. split; [done|]. split; [|done].
    pose proof Hgr as (log & _ & _ & Ha & Hcase). split; [done|auto|by rewrite (proj1 Hg)| | |by rewrite Hcap'; [|rewrite Hc8]|].
    + by rewrite Hseq', wrap_small by (width; lia).
    + split; [lia|]. destruct Hcase as [(_ & _ & _ & ->)|(_ & _ & _ & ->)]; lia.
    + rewrite map_size_insert. destruct (m !! key); [done|]. destruct Hsize as [?|[? ?]]; [lia|done].
  - exfalso. destruct H as (_ & _ & [Hr|(_ & [?|[?|?]])]); [|done|rewrite Hc8 in *; vm_compute in H; done|unfold kSwissInlineKeyBytes in *; lia].
    destruct Hr as [[_ Hr]|[[_ ?]|[[_ Hr]|[_ Hr]]]]; [|done| |].
    + unfold gate_closed in Hr. by rewrite Hsh in Hr.
    + apply Hr. unfold record_fits, kMaxNormalRecordSize. lia.
    + assert (umax 64 > 2000) by done. lia.
Qed.

(** An erase by the worker. *)
Lemma early_erase debug sys logs m kv n key : early sys logs m kv n -> n < 999 -> bytes_ok key -> zlen key = 1 ->
  is_Some (kv !! key) ->
  exists sys' logs', worker_step debug sample_routing (w_erase false key) sys = (Ok None, sys') /\
    early sys' logs' (delete key m) (delete key kv) (n + 1) /\ grown sys logs (erase_of n key) sys' logs' /\
    homes sys m key sys'.
Proof.
  intros He Hn Hk Hkl [entry Hkv]. destruct He as [Hst Hal Hsh Hseq [Hb1 Hb2] Hc8 Hsz].
  pose proof (erase_worker_exact debug sample_routing 5 sample_seed_ok true sys logs m kv false key
    (shared_lock_free debug sys true Hsh) Hst Hk) as H.
  cbn [worker_step]. unfold worker_erase, erase_locked, bindM.
  destruct (erase_locked_published _ _ _ _ sys) as [[pub|e|f] sys']; cbn [runs] in H; [| |done].
  - destruct H as [(logs' & Hst' & Hg & Hgr & Hseq' & Hcap' & Hhome) _]. exists sys', logs'.
    unfold erase_input in Hgr. rewrite Hseq in Hgr, Hseq'. split; [done|]. split; [|done].
    pose proof Hgr as (log & _ & _ & Ha & Hcase). split; [done|auto|by rewrite (proj1 Hg)| | |by rewrite Hcap'|].
    + by rewrite Hseq', wrap_small by (width; lia).
    + split; [lia|]. destruct Hcase as [(_ & _ & _ & ->)|(_ & _ & _ & ->)]; lia.
    + etrans; [apply map_subseteq_size, delete_subseteq|done].
  - exfalso. destruct H as (_ & _ & [[_ ?]|Hr]); [congruence|].
    destruct Hr as [[_ Hr]|[[_ ?]|[[_ Hr]|[_ Hr]]]]; [|done| |].
    + unfold gate_closed in Hr. by rewrite Hsh in Hr.
    + apply Hr. unfold record_fits, kMaxNormalRecordSize. change (zlen []) with 0. lia.
    + assert (umax 64 > 2000) by done. lia.
Qed.

Section run.
Context (debug : bool) (big : list Z) (Hbig : bytes_ok big) (Hlen : zlen big = 1048519).

(** The records of [k] puts of [key_filler], from the sequence [n] on. *)
Definition fillers (n : Z) (k : nat) : list RecordInput :=
  (fun i => put_of (n + Z.of_nat i) key_filler big) <$> seq 0 k.

Lemma fillers_S n k : fillers n (S k) = put_of n key_filler big :: fillers (n + 1) k.
Proof.
  unfold fillers. cbn [seq fmap list_fmap]. rewrite Z.add_0_r, <- fmap_S_seq, <- list_fmap_compose. f_equal.
  apply list_fmap_ext. intros _ i _. cbn. f_equal. lia.
Qed.

Lemma filler_size n : record_size (put_of n key_filler big) = 1048576.
Proof using Hlen. unfold record_size, raw_size. cbn [put_of in_key in_value]. by rewrite Hlen. Qed.

Lemma filler_ok : bytes_ok key_filler /\ zlen key_filler = 1 /\ zlen big <= 1048519.
Proof using Hlen. split_and!; [bytes_eval|done|lia]. Qed.

Lemma homes_trans sys m sys1 ref sys2 : homes sys m key_filler sys1 -> homes sys1 (<[key_filler := ref]> m) key_filler sys2 ->
  homes sys m key_filler sys2.
Proof. intros H1 H2 k r p Hne Hk Hby. eapply (H2 k r p Hne); [by rewrite lookup_insert_ne|by eapply H1]. Qed.

(** The value of [key_filler] is in the active segment. *)
Definition filler_here sys m : Prop :=
  exists r, m !! key_filler = Some r /\ w_owned_by_id (sys_worker sys) !! ref_segment_id r = Some (active sys).

(** Puts of [key_filler] that fit in the active segment. *)
Definition fills sys logs m kv n k log sys' logs' m' kv' : Prop :=
  early sys' logs' m' kv' (n + Z.of_nat k) /\ active sys' = active sys /\ (forall q, q ∈ owned sys' -> q ∈ owned sys) /\
  logs' = <[active sys := log ++ fillers n k]> logs /\
  (forall key, key <> key_filler -> m' !! key = m !! key /\ kv' !! key = kv !! key) /\ homes sys m key_filler sys' /\
  ((0 < k)%nat \/ filler_here sys m -> filler_here sys' m').

Lemma fill k : forall sys logs m kv n log, early sys logs m kv n -> n + Z.of_nat k < 999 -> logs !! active sys = Some log ->
  log_end log + Z.of_nat k * 1048576 <= kSegmentSizeBytes -> (size m <= 2)%nat \/ is_Some (m !! key_filler) ->
  exists sys' logs' m' kv', run_all debug (replicate k (put_op key_filler big)) sys = (Ok tt, sys') /\
    fills sys logs m kv n k log sys' logs' m' kv'.
Proof using Hbig Hlen.
  destruct filler_ok as (Hf1 & Hf2 & Hf3). induction k as [|k IH]; intros sys logs m kv n log He Hn Hl Hfit Hsz.
  { exists sys, logs, m, kv. split; [done|]. rewrite Z.add_0_r in *. unfold fills.
    change (fillers n 0) with ([] : list RecordInput). rewrite app_nil_r, insert_id, Z.add_0_r by done.
    split_and!; try done; [by intros ? ?|]. intros [?|?]; [lia|done]. }
  destruct (early_put debug sys logs m kv n key_filler big He ltac:(lia) Hf1 Hbig Hf2 Hf3 Hsz)
    as (sys1 & logs1 & ref & E & He1 & Hgr & Hby & Hh & _).
  destruct Hgr as (log0 & Hl0 & Ho & _ & Hcase). simplify_eq. rewrite filler_size in Hcase.
  destruct Hcase as [(Hact & _ & -> & _)|(_ & Hover & _)]; [|lia].
  assert (Hl1 : <[active sys := log ++ [put_of n key_filler big]]> logs !! active sys1 = Some (log ++ [put_of n key_filler big]))
    by (rewrite Hact; apply lookup_insert_eq).
  destruct (IH _ _ _ _ _ _ He1 ltac:(lia) Hl1) as (sys2 & logs2 & m2 & kv2 & E2 & He2 & Ha2 & Ho2 & El2 & Hm2 & Hh2 & Hr2).
  { rewrite log_end_snoc, filler_size. lia. } { right. rewrite lookup_insert_eq. by eexists. }
  rewrite Hact, insert_insert_eq, <- app_assoc in El2.
  exists sys2, logs2, m2, kv2. split; [cbn [replicate run_all]; unfold bindM; by rewrite E|].
  unfold fills. replace (n + Z.of_nat (S k)) with (n + 1 + Z.of_nat k) by lia. rewrite fillers_S.
  split_and!; [done|congruence| |done| |by eapply homes_trans|].
  - intros q Hq%Ho2. apply Ho in Hq as [->|?]; [|done]. rewrite Hact. apply (ea_stands _ _ _ _ _ He).
  - intros key Hne. destruct (Hm2 key Hne) as [-> ->]. by rewrite !lookup_insert_ne.
  - intros _. apply Hr2. right. exists ref. by rewrite lookup_insert_eq.
Qed.

(** One more put of [key_filler], which goes to a new segment.  The full one retires
    if no other key has its value there. *)
Definition overflows sys logs m kv n k log sys' logs' m' kv' : Prop :=
  early sys' logs' m' kv' (n + Z.of_nat k + 1) /\ active sys' <> active sys /\
  (forall key r p, key <> key_filler -> m !! key = Some r -> w_owned_by_id (sys_worker sys) !! ref_segment_id r = Some p ->
     p <> active sys') /\
  (forall q, q ∈ owned sys' -> q = active sys' \/ q ∈ owned sys) /\
  logs' = <[active sys' := [put_of (n + Z.of_nat k) key_filler big]]> (<[active sys := log ++ fillers n k]> logs) /\
  (forall key, key <> key_filler -> m' !! key = m !! key /\ kv' !! key = kv !! key) /\ homes sys m key_filler sys' /\
  filler_here sys' m' /\ kv' !! key_filler = Some (big, 0) /\
  ((forall key r, key <> key_filler -> m !! key = Some r ->
      w_owned_by_id (sys_worker sys) !! ref_segment_id r <> Some (active sys)) -> active sys ∉ owned sys').

Lemma early_home sys logs m kv n key r : early sys logs m kv n -> m !! key = Some r ->
  exists p, w_owned_by_id (sys_worker sys) !! ref_segment_id r = Some p /\ p ∈ owned sys /\ p <> next_ptr (sys_world sys).
Proof.
  intros He Hk. destruct (ea_stands _ _ _ _ _ He) as [Hok [_ Hent]].
  destruct (entry_segment sys logs m kv key r Hok Hent Hk) as (p & s & log & Hby & Hp & _).
  exists p. split_and!; [done..|]. by destruct (owned_bounds _ _ _ _ Hok Hp).
Qed.

Lemma fill_over k sys logs m kv n log : early sys logs m kv n -> n + Z.of_nat k < 998 -> logs !! active sys = Some log ->
  log_end log + Z.of_nat k * 1048576 <= kSegmentSizeBytes < log_end log + (Z.of_nat k + 1) * 1048576 ->
  (size m <= 2)%nat \/ is_Some (m !! key_filler) -> (0 < k)%nat ->
  exists sys' logs' m' kv', run_all debug (replicate k (put_op key_filler big) ++ [put_op key_filler big]) sys = (Ok tt, sys') /\
    overflows sys logs m kv n k log sys' logs' m' kv'.
Proof using Hbig Hlen.
  intros He Hn Hl Hfit Hsz Hk. destruct filler_ok as (Hf1 & Hf2 & Hf3).
  destruct (fill k sys logs m kv n log He ltac:(lia) Hl ltac:(lia) Hsz)
    as (sys1 & logs1 & m1 & kv1 & E1 & He1 & Ha1 & Ho1 & El1 & Hm1 & Hh1 & Hr1).
  destruct (Hr1 (or_introl Hk)) as (prev & Hprev & Hby1).
  assert (Hl1 : logs1 !! active sys1 = Some (log ++ fillers n k)) by (rewrite El1, Ha1; apply lookup_insert_eq).
  assert (Hend : log_end (log ++ fillers n k) = log_end log + Z.of_nat k * 1048576).
  { clear -Hlen. revert log n. induction k as [|k IH]; intros log n; [rewrite app_nil_r; lia|].
    rewrite fillers_S, cons_middle, app_assoc, IH, log_end_snoc, filler_size. lia. }
  destruct (early_put debug sys1 logs1 m1 kv1 _ key_filler big He1 ltac:(lia) Hf1 Hbig Hf2 Hf3 ltac:(right; by eexists))
    as (sys2 & logs2 & ref & E2 & He2 & Hgr & Hby2 & Hh2 & Hvac).
  destruct Hgr as (log1 & Hl1' & Ho2 & _ & Hcase). rewrite Hl1 in Hl1'. injection Hl1' as <-. rewrite filler_size, Hend in Hcase.
  destruct Hcase as [(_ & Hover & _)|(Hact & _ & El2 & _)]; [lia|].
  assert (Hna : active sys2 <> active sys).
  { destruct (ea_stands _ _ _ _ _ He1) as [Hok1 _]. destruct (owned_bounds _ _ _ _ Hok1 (so_active _ _ _ Hok1)). congruence. }
  exists sys2, logs2, (<[key_filler := ref]> m1), (<[key_filler := (big, 0)]> kv1). split; [rewrite (run_all_app _ _ _ _ _ E1); cbn [run_all]; unfold bindM; by rewrite E2|].
  split_and!; [exact He2|done| | |by rewrite El2, El1| | | |apply lookup_insert_eq|].
  - intros key r p Hne Hm Hby ->. pose proof (Hh1 key r _ Hne Hm Hby) as Hby'.
    rewrite <- (proj1 (Hm1 key Hne)) in Hm. destruct (early_home _ _ _ _ _ _ _ He1 Hm) as (p & Hp & _ & Hne'). congruence.
  - intros q [->|Hq]%Ho2; auto.
  - intros key Hne. rewrite !lookup_insert_ne by done. by apply Hm1.
  - intros key r p Hne Hm Hby. eapply Hh2; [done| |by eapply Hh1]. by rewrite (proj1 (Hm1 key Hne)).
  - exists ref. by rewrite lookup_insert_eq.
  - intros Hothers. rewrite <- Ha1. apply (Hvac prev); [done..|congruence|]. intros key r Hne Hm Heq.
    rewrite (proj1 (Hm1 key Hne)) in Hm. destruct (early_home _ _ _ _ _ _ _ He Hm) as (p & Hp & _).
    pose proof (Hh1 key r p Hne Hm Hp) as Hp1. apply (Hothers key r Hne Hm). rewrite Heq in Hp1. congruence.
Qed.

(** ** The run *)

Lemma fresh_early : exists logs, early fresh_sys logs ∅ ∅ 1 /\ logs !! active fresh_sys = Some [] /\
  owned fresh_sys = [active fresh_sys].
Proof.
  destruct fresh_sys_ok as (m & logs & Hst). pose proof Hst as [Hok [_ Hent]].
  assert (m = ∅) as ->.
  { apply map_empty. intros k. specialize (Hent k). unfold entry_ok in Hent. destruct (m !! k) as [r|]; [|done].
    destruct Hent as (input & _ & _ & _ & Hk). by rewrite lookup_empty in Hk. }
  destruct (so_seg _ _ _ Hok _ (so_active _ _ _ Hok)) as (s & log & Hs & Hl & _ & Hlive).
  assert (Es : heap (sys_world fresh_sys) !! active fresh_sys = Some (new_segment 1 0 1)) by (vm_compute; reflexivity).
  rewrite Es in Hs. injection Hs as <-. pose proof (rep_count _ _ (live_rep _ _ _ Hlive)) as Hc.
  assert (log = []) as -> by (destruct log; [done|]; pose proof (zlen_nonneg log); rewrite zlen_cons in Hc; cbn in Hc; lia).
  exists logs. split_and!; [|done|vm_compute; reflexivity]. split; [done|vm_compute; reflexivity..| |vm_compute; reflexivity|].
  - split; [lia|]. vm_compute. done.
  - rewrite map_size_empty. lia.
Qed.

(** The puts of [key_gone] and [key_kept]. *)
Definition first_log : list RecordInput := [put_of 1 key_gone sample_value; put_of 2 key_kept sample_value].

Lemma first_puts : exists sys logs m kv, run_all debug [put_op key_gone sample_value; put_op key_kept sample_value] fresh_sys = (Ok tt, sys) /\
  early sys logs m kv 3 /\ logs !! active sys = Some first_log /\ (forall q, q ∈ owned sys -> q = active sys) /\ (size m <= 2)%nat /\
  (exists r, m !! key_kept = Some r /\ w_owned_by_id (sys_worker sys) !! ref_segment_id r = Some (active sys)) /\
  (forall key, key <> key_gone -> key <> key_kept -> m !! key = None) /\
  kv = <[key_kept := (sample_value, 0)]> (<[key_gone := (sample_value, 0)]> ∅).
Proof.
  destruct fresh_early as (logs & He & Hl & Ho). assert (Hv : bytes_ok sample_value) by bytes_eval.
  destruct (early_put debug _ _ _ _ _ key_gone sample_value He ltac:(lia) ltac:(bytes_eval) Hv eq_refl ltac:(done)
    ltac:(left; rewrite map_size_empty; lia)) as (sys1 & logs1 & r1 & E1 & He1 & Hg1 & _).
  destruct Hg1 as (log0 & Hl0 & Ho1 & _ & Hcase). rewrite Hl in Hl0. injection Hl0 as <-.
  destruct Hcase as [(Ha1 & _ & -> & _)|(_ & Hover & _)]; [|vm_compute in Hover; done].
  destruct (early_put debug _ _ _ _ _ key_kept sample_value He1 ltac:(lia) ltac:(bytes_eval) Hv eq_refl ltac:(done)
    ltac:(left; rewrite map_size_insert, lookup_empty, map_size_empty; cbn; lia)) as (sys2 & logs2 & r2 & E2 & He2 & Hg2 & Hby2 & _).
  destruct Hg2 as (log1 & Hl1 & Ho2 & _ & Hcase). rewrite Ha1, lookup_insert_eq in Hl1. injection Hl1 as <-.
  destruct Hcase as [(Ha2 & _ & -> & _)|(_ & Hover & _)]; [|vm_compute in Hover; done].
  eexists sys2, _, _, _. split; [cbn [run_all]; unfold bindM; by rewrite E1, E2|].
  split_and!; [exact He2| | | | | |done].
  - rewrite Ha2, lookup_insert_eq. done.
  - intros q [->|[->|Hq]%Ho1]%Ho2; [done|congruence|]. rewrite Ho in Hq. apply list_elem_of_singleton in Hq. congruence.
  - rewrite !map_size_insert, map_size_empty, lookup_insert_ne, !lookup_empty by done. cbn. lia.
  - exists r2. by rewrite lookup_insert_eq.
  - intros key H1 H2. by rewrite !lookup_insert_ne, lookup_empty by done.
Qed.

(** Up to the erase: the first segment [p1] is full, the second one is active. *)
Definition erased p1 sys logs m kv : Prop :=
  early sys logs m kv 68 /\ p1 <> active sys /\ (forall q, q ∈ owned sys -> q = active sys \/ q = p1) /\
  logs !! p1 = Some (first_log ++ fillers 3 63) /\
  logs !! active sys = Some [put_of 66 key_filler big; erase_of 67 key_gone] /\
  (exists r, m !! key_kept = Some r /\ w_owned_by_id (sys_worker sys) !! ref_segment_id r = Some p1) /\
  is_Some (m !! key_filler) /\ (forall key, key <> key_kept -> key <> key_filler -> m !! key = None) /\
  kv !! key_kept = Some (sample_value, 0) /\ forall key, key <> key_kept -> key <> key_filler -> kv !! key = None.

Lemma run_to_erase : exists p1 sys logs m kv,
  run_all debug ([put_op key_gone sample_value; put_op key_kept sample_value] ++ replicate 63 (put_op key_filler big) ++
    [put_op key_filler big; w_erase false key_gone]) fresh_sys = (Ok tt, sys) /\ erased p1 sys logs m kv.
Proof using Hbig Hlen.
  destruct first_puts as (sys1 & logs1 & m1 & kv1 & E1 & He1 & Hl1 & Ho1 & Hsz1 & (r & Hr & Hbyr) & Hm1 & ->).
  assert (Hend : log_end first_log = 4224) by (vm_compute; reflexivity).
  destruct (fill_over 63 sys1 logs1 m1 _ 3 first_log He1 ltac:(lia) Hl1 ltac:(rewrite Hend; unfold kSegmentSizeBytes; lia)
    (or_introl Hsz1) ltac:(lia)) as (sys2 & logs2 & m2 & kv2 & E2 & He2 & Hna2 & Hnew2 & Ho2 & El2 & Hm2 & Hh2 & (rf & Hrf & _) & Hkf & _).
  assert (Hl2 : logs2 !! active sys2 = Some [put_of 66 key_filler big]) by (rewrite El2; apply lookup_insert_eq).
  destruct (early_erase debug sys2 logs2 m2 kv2 _ key_gone He2 ltac:(lia) ltac:(bytes_eval) eq_refl)
    as (sys3 & logs3 & E3 & He3 & Hg3 & Hh3).
  { rewrite (proj2 (Hm2 key_gone ltac:(done))), lookup_insert_ne, lookup_insert_eq by done. by eexists. }
  destruct Hg3 as (log2 & Hl2' & Ho3 & _ & Hcase). rewrite Hl2 in Hl2'. injection Hl2' as <-.
  assert (Hend2 : log_end [put_of 66 key_filler big] = 1052672)
    by (change [put_of 66 key_filler big] with ([] ++ [put_of 66 key_filler big]); by rewrite log_end_snoc, filler_size).
  destruct Hcase as [(Ha3 & _ & -> & _)|(_ & Hover & _)]; [|rewrite Hend2 in Hover; vm_compute in Hover; done].
  exists (active sys1), sys3. eexists _, _, _. split.
  { rewrite (run_all_app _ _ _ _ _ E1), (cons_middle _ (replicate _ _)), app_assoc, (run_all_app _ _ _ _ _ E2).
    cbn [run_all]. unfold bindM. by rewrite E3. }
  unfold erased. rewrite Ha3. split_and!; [exact He3|congruence| | | | | | | |].
  - intros q [->|[->|Hq]%Ho2]%Ho3; [by left|by left|]. right. by apply Ho1.
  - rewrite lookup_insert_ne, El2, lookup_insert_ne, lookup_insert_eq by congruence. done.
  - by rewrite lookup_insert_eq.
  - assert (Hr2 : m2 !! key_kept = Some r) by by rewrite (proj1 (Hm2 key_kept ltac:(done))).
    exists r. split; [by rewrite lookup_delete_ne|]. apply (Hh3 key_kept r); [done..|]. by apply (Hh2 key_kept r).
  - rewrite lookup_delete_ne, Hrf by done. by eexists.
  - intros key H1 H2. apply lookup_delete_None. destruct (decide (key_gone = key)); [by left|right].
    rewrite (proj1 (Hm2 key H2)). by apply Hm1.
  - rewrite lookup_delete_ne, (proj2 (Hm2 key_kept ltac:(done))) by done. apply lookup_insert_eq.
  - intros key H1 H2. apply lookup_delete_None. destruct (decide (key_gone = key)); [by left|right].
    rewrite (proj2 (Hm2 key H2)). by rewrite !lookup_insert_ne, lookup_empty.
Qed.

(** The end: the second segment has retired. *)
Lemma run_to_end : exists p1 p3 sys logs m, run_all debug (tomb_history big) fresh_sys = (Ok tt, sys) /\
  early sys logs m (tomb_kv big) 131 /\ p1 <> p3 /\ (forall q, q ∈ owned sys <-> q = p1 \/ q = p3) /\
  logs !! p1 = Some (first_log ++ fillers 3 63) /\ logs !! p3 = Some [put_of 130 key_filler big] /\ m !! key_gone = None.
Proof using Hbig Hlen.
  destruct run_to_erase as (p1 & sys1 & logs1 & m1 & kv1 & E1 & He1 & Hne1 & Ho1 & Hp1 & Hl1 & (r & Hr & Hbyr) & Hf & Hm1 & Hk1 & Hkv1).
  assert (Hend : log_end [put_of 66 key_filler big; erase_of 67 key_gone] = 1052736).
  { change [put_of 66 key_filler big; erase_of 67 key_gone] with (([] ++ [put_of 66 key_filler big]) ++ [erase_of 67 key_gone]).
    by rewrite !log_end_snoc, filler_size. }
  destruct (fill_over 62 sys1 logs1 m1 kv1 68 _ He1 ltac:(lia) Hl1 ltac:(rewrite Hend; unfold kSegmentSizeBytes; lia)
    (or_intror Hf) ltac:(lia)) as (sys2 & logs2 & m2 & kv2 & E2 & He2 & Hna2 & Hnew2 & Ho2 & El2 & Hm2 & Hh2 & (rf & Hrf & _) & Hkf & Hvac).
  assert (Hgone : active sys1 ∉ owned sys2).
  { apply Hvac. intros key r' Hne Hkr. destruct (decide (key = key_kept)) as [->|Hne']; [|by rewrite Hm1 in Hkr].
    rewrite Hr in Hkr. injection Hkr as <-. congruence. }
  assert (Hp13 : p1 <> active sys2) by by apply (Hnew2 key_kept r p1).
  exists p1, (active sys2), sys2, logs2, m2. split_and!.
  - unfold tomb_history. rewrite (app_assoc _ (replicate 63 _)), (app_assoc _ [_; _]), <- (app_assoc _ (replicate 63 _)).
    by rewrite (run_all_app _ _ _ _ _ E1).
  - assert (kv2 = tomb_kv big) as <-; [|exact He2]. apply map_eq. intros key. unfold tomb_kv.
    destruct (decide (key_filler = key)) as [<-|Hne]; [by rewrite lookup_insert_eq|].
    rewrite (proj2 (Hm2 key ltac:(done))), lookup_insert_ne by done.
    destruct (decide (key_kept = key)) as [<-|Hne']; [by rewrite lookup_insert_eq|].
    rewrite lookup_insert_ne, lookup_empty by done. by apply Hkv1.
  - done.
  - intros q. split.
    + intros Hq. destruct (Ho2 q Hq) as [?|[->| ->]%Ho1]; auto. done.
    + destruct (ea_stands _ _ _ _ _ He2) as [Hok2 _]. intros [->| ->]; [|apply Hok2].
      apply (so_by_id _ _ _ Hok2 (ref_segment_id r)). by apply (Hh2 key_kept r).
  - by rewrite El2, lookup_insert_ne, lookup_insert_ne by congruence.
  - by rewrite El2, lookup_insert_eq.
  - rewrite (proj1 (Hm2 key_gone ltac:(done))). by apply Hm1.
Qed.
End run.

(** ** What [verify_index] sees *)

Lemma with_ids_spec (w : World) l : (forall p, p ∈ l -> is_Some (heap w !! p)) -> exists r, with_ids l w = (Ok r, w) /\ r.*2 = l.
Proof.
  induction l as [|p l IH]; intros Hl; [by exists []|]. destruct (Hl p ltac:(left)) as [s Hs].
  destruct IH as (r & E & Er); [intros q Hq; apply Hl; by right|]. exists ((seg_id s, p) :: r).
  cbn [with_ids]. rewrite (bindM_Ok _ _ _ _ _ (deref_in _ _ _ Hs)), (bindM_Ok _ _ _ _ _ E). cbn. by rewrite Er.
Qed.

(** The segments of the manager are those of its only worker. *)
Lemma segments_alone sys logs live : segs_ok sys logs live -> alone sys ->
  exists l, segments (sys_world sys) = (Ok l, sys_world sys) /\ NoDup l /\ forall q, q ∈ l <-> q ∈ owned sys.
Proof.
  intros Hok Hal. set (l := (map_to_list (w_owned_by_id (sys_worker sys))).*2).
  assert (Hl : forall q, q ∈ l <-> q ∈ owned sys).
  { intros q. subst l. rewrite list_elem_of_fmap. split.
    - intros ([id q'] & -> & Hq%elem_of_map_to_list). apply (so_by_id _ _ _ Hok _ _ Hq).
    - intros Hq. destruct (so_seg _ _ _ Hok q Hq) as (s & _ & _ & _ & Hh & _). exists (seg_id s, q). split; [done|].
      apply elem_of_map_to_list, Hh. }
  assert (Hnd : NoDup l).
  { apply NoDup_fmap_2_strong; [|apply NoDup_map_to_list]. intros [i q] [j q'] Hi%elem_of_map_to_list Hj%elem_of_map_to_list E.
    cbn in E. subst q'. destruct (so_by_id _ _ _ Hok _ _ Hi) as (_ & s & Hs & <-).
    destruct (so_by_id _ _ _ Hok _ _ Hj) as (_ & s' & Hs' & <-). by simplify_eq. }
  destruct (with_ids_spec (sys_world sys) l) as (r & E & Er).
  { intros p Hp%Hl. destruct (so_seg _ _ _ Hok p Hp) as (s & _ & Hs & _). by eexists. }
  exists (merge_sort id_le r).*2. unfold segments. steps. unfold alone in Hal. rewrite Hal. fold l.
  rewrite (bindM_Ok _ _ _ _ _ E). assert (Hp : (merge_sort id_le r).*2 ≡ₚ l) by by rewrite merge_sort_Permutation, Er.
  split; [done|]. rewrite Hp. by split; [|setoid_rewrite Hp].
Qed.

Lemma conflict_sequences (l : list entry) : NoDup ((fun e => in_sequence e.2) <$> l) -> ~ conflict l.
Proof.
  intros Hnd (i & j & e & e' & Hne & Hi & Hj & _ & Hseq). apply Hne. eapply NoDup_lookup; [done|..].
  - rewrite list_lookup_fmap, Hi. cbn. by rewrite Hseq.
  - by rewrite list_lookup_fmap, Hj.
Qed.

Lemma all_inputs (segs : list Segment) (lgs : list (list RecordInput)) : length segs = length lgs ->
  (all_records segs lgs).*2 = concat lgs.
Proof.
  revert lgs. induction segs as [|s segs IH]; intros [|log lgs] H; try done. injection H as H.
  unfold all_records in *. cbn [zip_with concat]. rewrite fmap_app, IH by done. f_equal. unfold seg_records.
  by rewrite snd_zip by (unfold log_refs; rewrite length_log_refs_from; lia).
Qed.

(** Few short keys do not exceed an index. *)
Lemma few_keys (l : list entry) now (keys : list (list Z)) : Forall (fun e => in_key e.2 ∈ keys) l -> Forall (fun k => zlen k = 1) keys ->
  zlen keys < 1000 -> ~ exceeds l now.
Proof.
  intros Hl Hk Hn (ks & Hnd & Hex).
  assert (Hin : forall k, k ∈ ks -> k ∈ keys).
  { rewrite Forall_forall in Hl. intros k Hks. destruct Hex as [[Hex _]|[Hex _]].
    - destruct (Hex k Hks) as (e & He & <-). by apply Hl.
    - destruct (Hex k Hks) as (r & input & (He & <- & _) & _). by apply (Hl (r, input)). }
  assert (zlen ks <= zlen keys).
  { unfold zlen. apply inj_le, submseteq_length, NoDup_submseteq; [done|]. exact Hin. }
  destruct Hex as [[_ Hbig]|[_ Hbig]].
  - pose proof (zlen_nonneg ks). assert (zlen ks / 7 <= zlen ks) by divlia. lia.
  - assert (keys_use ks = 0); [|width; lia]. clear -Hk Hin. induction ks as [|k ks IH]; [done|]. unfold keys_use in *. cbn [foldr].
    rewrite IH by (intros; apply Hin; by right). rewrite Forall_forall in Hk. unfold key_use.
    rewrite (Hk k) by (apply Hin; left). done.
Qed.

(** The segments of a list, with their logs. *)
Lemma reps_of sys logs live l : segs_ok sys logs live -> (forall q, q ∈ l -> q ∈ owned sys) ->
  Forall2 seg_rep (omap (fun p => heap (sys_world sys) !! p) l) (omap (fun p => logs !! p) l).
Proof.
  intros Hok. induction l as [|p l IH]; intros Hl; [constructor|].
  destruct (so_seg _ _ _ Hok p ltac:(apply Hl; left)) as (s & log & Hs & Hlog & _ & Hlv).
  cbn. rewrite Hs, Hlog. constructor; [apply Hlv|]. apply IH. intros q Hq. apply Hl. by right.
Qed.

(** A put of a key without an entry, and no other record of the key. *)
Lemma stale_put_rejected segs lgs t m input : Forall2 seg_rep segs lgs -> zlen (concat lgs) < 1000 ->
  table_ok sample_routing 5 t m -> NoDup (in_sequence <$> concat lgs) ->
  Forall (fun i => zlen (in_key i) = 1) (concat lgs) ->
  input ∈ concat lgs -> in_opcode input = Opcode_put -> m !! in_key input = None ->
  (forall i, i ∈ concat lgs -> in_key i = in_key input -> i = input) ->
  verify_index map_to_list segs [t] sample_routing 7 = Err corrupted_data.
Proof.
  intros Hrep Hn Ht Hseq Hkeys Hin Hop Hm Honly. pose proof (all_inputs segs lgs (Forall2_length _ _ _ Hrep)) as Hall.
  assert (Hlen : zlen (all_records segs lgs) = zlen (concat lgs)) by (rewrite <- Hall; unfold zlen; by rewrite length_fmap).
  destruct (verify_index_spec map_to_list segs lgs [t] [m] sample_routing 7 ltac:(done) Hrep) as [H _];
    [lia|by constructor; [exists 5|constructor]|done|].
  assert (Hnd : NoDup ((fun e => in_sequence e.2) <$> all_records segs lgs)) by
    (rewrite <- Hall, <- list_fmap_compose in Hseq; exact Hseq).
  destruct H as [_ H].
  - by apply conflict_sequences.
  - apply (few_keys _ _ (in_key <$> concat lgs)); [|by rewrite Forall_fmap|unfold zlen in *; by rewrite length_fmap].
    rewrite <- Hall, <- list_fmap_compose. apply Forall_forall. intros e He. by apply (list_elem_of_fmap_2 (in_key ∘ snd)).
  - apply H. intros Hag. rewrite <- Hall in Hin. apply list_elem_of_fmap in Hin as ([r i] & -> & Hin). cbn in *.
    assert (m !! in_key i = Some r) as E; [|congruence]. apply (Hag 0%nat m (in_key i) r eq_refl). split.
    { unfold owner_of. apply Z.mod_1_r. }
    exists i. split; [|by rewrite Hop]. split_and!; [done..|]. intros [r' i'] Hin' Hk. cbn in *. left.
    assert (i' ∈ concat lgs) as Hi' by (rewrite <- Hall; by apply (list_elem_of_fmap_2 snd) in Hin').
    pose proof (Honly i' Hi' Hk) as ->. f_equal.
    apply list_elem_of_lookup in Hin as [x Hx]. apply list_elem_of_lookup in Hin' as [y Hy].
    assert (x = y) as ->; [|congruence]. eapply NoDup_lookup; [exact Hnd|..]; by rewrite list_lookup_fmap, ?Hx, ?Hy.
Qed.

(** The records that are left after the run. *)
Lemma left_records big (lgs : list (list RecordInput)) : lgs ≡ₚ [first_log ++ fillers big 3 63; [put_of 130 key_filler big]] ->
  zlen (concat lgs) < 1000 /\ NoDup (in_sequence <$> concat lgs) /\ Forall (fun i => zlen (in_key i) = 1) (concat lgs) /\
  put_of 1 key_gone sample_value ∈ concat lgs /\
  forall i, i ∈ concat lgs -> in_key i = key_gone -> i = put_of 1 key_gone sample_value.
Proof.
  intros Hp. assert (Hc : concat lgs ≡ₚ first_log ++ fillers big 3 63 ++ [put_of 130 key_filler big]).
  { rewrite Hp. cbn [concat]. by rewrite app_nil_r, <- app_assoc. }
  assert (Hf : forall i, i ∈ concat lgs -> i = put_of 1 key_gone sample_value \/ in_key i = key_kept \/ in_key i = key_filler).
  { intros i. rewrite Hc, !elem_of_app, list_elem_of_singleton. unfold first_log, fillers. rewrite !elem_of_cons, list_elem_of_fmap.
    intros [[->|[->|Hi]]|[(x & -> & _)| ->]]; auto. by apply not_elem_of_nil in Hi. }
  split_and!.
  - unfold zlen. rewrite Hc, !length_app. unfold fillers. rewrite length_fmap, length_seq. cbn. lia.
  - rewrite Hc, !fmap_app. apply (bool_decide_unpack _). vm_compute. exact I.
  - apply Forall_forall. intros i [->|[->| ->]]%Hf; done.
  - rewrite Hc. left.
  - intros i Hi Hk. destruct (Hf i Hi) as [?|[E|E]]; [done|rewrite E in Hk; done..].
Qed.

Lemma two_segments (l : list Ptr) p q : NoDup l -> p <> q -> (forall x, x ∈ l <-> x = p \/ x = q) -> l ≡ₚ [p; q].
Proof.
  intros Hnd Hne Hl. apply NoDup_Permutation; [done|by apply NoDup_cons; rewrite list_elem_of_singleton; split; [|apply NoDup_singleton]|].
  intros x. rewrite Hl, !elem_of_cons. split; [tauto|]. intros [?|[?|Hx%not_elem_of_nil]]; tauto.
Qed.

