(* ===== verification/Vacuum.v ===== *)
(** * Vacuum of a volatile worker

    Models src/vacuum/vacuum.cpp, the choice of sealed segments with little live
    data and their rewriting into fresh segments, and [Worker::compact] of
    worker/worker.cpp, which runs both on its own segments and swaps the result in.
    The theorem at the end says what a client of the worker sees of it: nothing but
    the removal of expired entries.

    A live ratio is a [double]; it is computed here on [spec_float] with the 53-bit
    format, rounding as the hardware does. *)

From Stdlib Require Import SpecFloat ZifyBool.
From S2P Require Import Prelude Core Crc32c Record Segment Routing Probing SwissTable SwissTableSpec Index SegmentManager Worker.

Abbreviation double := spec_float.
(** [static_cast<double>(z)] *)
Definition to_double (z : Z) : double := binary_normalize 53 1024 z 0 false.
Definition double_div : double -> double -> double := SFdiv 53 1024.

Record VacuumPolicy := mkVacuumPolicy { maximum_live_ratio : double; maximum_segments_per_run : Z }.
(** [VacuumPolicy{}]: a quarter, and four segments. *)
Definition default_policy : VacuumPolicy := mkVacuumPolicy (double_div (to_double 1) (to_double 4)) 4.

Record VacuumStats := mkVacuumStats {
  source_records_verified : Z;
  source_bytes_verified : Z;
  records_copied : Z;
  bytes_copied : Z;
  expired_records_dropped : Z;
  old_segments : Z;
  new_segments : Z
}.

Record VacuumResult := mkVacuumResult {
  vr_index : SwissTableIndex;
  vr_segments : list Ptr;
  vr_stats : VacuumStats
}.

(** ** The planner *)

Record Candidate := mkCandidate { cand_id : Z; cand_ratio : double }.

(** The loop that fills [ranked]. *)
Fixpoint rank_segments (policy : VacuumPolicy) (segments : list Ptr) : Method World (list Candidate) :=
  match segments with
  | [] => retM []
  | p :: segments =>
      let! s := deref p in
      let! rest := rank_segments policy segments in
      let stats := seg_stats s in
      if negb (bool_decide (seg_state s = seg_sealed)) || (st_record_count stats =? 0) then retM rest
      else
      let ratio := double_div (to_double (live_bytes stats)) (to_double (used_bytes stats)) in
      retM (if SFleb ratio (maximum_live_ratio policy) then mkCandidate (seg_id s) ratio :: rest else rest)
  end.

Section vacuum.
(** [std::ranges::sort] by the ratio: it orders equal ratios in any way. *)
Context (sort : list Candidate -> list Candidate).
(** A build without [NDEBUG]. *)
Context (debug : bool).

Definition candidates (policy : VacuumPolicy) (segments : list Ptr) : Method World (list Z) :=
  let! ranked := rank_segments policy segments in
  let ranked := sort ranked in
  let ranked := if zlen ranked >? maximum_segments_per_run policy
                then ztake (maximum_segments_per_run policy) ranked else ranked in
  retM (cand_id <$> ranked).

(** ** The builder *)

(** [emplace] keeps the first segment of an identity. *)
Fixpoint make_catalog (segments : list Ptr) (result : gmap Z Ptr) : Method World (gmap Z Ptr) :=
  match segments with
  | [] => retM result
  | p :: segments =>
      let! s := deref p in
      make_catalog segments (match result !! seg_id s with Some _ => result | None => <[seg_id s := p]> result end)
  end.

Record SourceAccounting := mkSource { src_segment : Ptr; src_records : Z; src_bytes : Z }.

(** The loop over the candidates; [owner] is [source_owner] once there is one. *)
Fixpoint collect_sources (catalog : gmap Z Ptr) (cands : list Z) (sources : gmap Z SourceAccounting)
    (owner : option Z) : Method World (gmap Z SourceAccounting * option Z) :=
  match cands with
  | [] => retM (sources, owner)
  | id :: cands =>
      match catalog !! id with
      | None => failM invalid_reference
      | Some p =>
          let! s := deref p in
          if negb (bool_decide (seg_state s = seg_sealed)) then failM invalid_reference
          else match sources !! id with
          | Some _ => failM invalid_argument
          | None =>
              let sources := <[id := mkSource p 0 0]> sources in
              match owner with
              | None => collect_sources catalog cands sources (Some (seg_owner s))
              | Some o => if negb (seg_owner s =? o) then failM invalid_argument
                          else collect_sources catalog cands sources owner
              end
          end
      end
  end.

(** The locals of [rebuild]; [rb_alloc] is what the allocator has captured. *)
Record Rebuild (A : Type) := mkRebuild {
  rb_index : SwissTableIndex;
  rb_segments : list Ptr;
  rb_sources : gmap Z SourceAccounting;
  rb_stats : VacuumStats;
  rb_alloc : A
}.
#[global] Arguments mkRebuild {A}.
#[global] Arguments rb_index {A}.
#[global] Arguments rb_segments {A}.
#[global] Arguments rb_sources {A}.
#[global] Arguments rb_stats {A}.
#[global] Arguments rb_alloc {A}.

Definition with_new_index {A} (b : Rebuild A) (t : SwissTableIndex) : Rebuild A :=
  mkRebuild t (rb_segments b) (rb_sources b) (rb_stats b) (rb_alloc b).
Definition with_accounting {A} (b : Rebuild A) (sources : gmap Z SourceAccounting) (stats : VacuumStats) : Rebuild A :=
  mkRebuild (rb_index b) (rb_segments b) sources stats (rb_alloc b).
Definition with_segment {A} (b : Rebuild A) (p : Ptr) (a : A) : Rebuild A :=
  mkRebuild (rb_index b) (rb_segments b ++ [p]) (rb_sources b) (rb_stats b) a.

(** A call on a local table. *)
Definition on_local {T A} (m : Method T A) (t : T) : Method World (A * T) := fun w =>
  (let? a := (m t).1 in Ok (a, (m t).2), w).

Definition count_verified (size : Z) (st : VacuumStats) : VacuumStats :=
  mkVacuumStats (u64 (source_records_verified st + 1)) (u64 (source_bytes_verified st + size)) (records_copied st)
    (bytes_copied st) (expired_records_dropped st) (old_segments st) (new_segments st).
Definition count_dropped (st : VacuumStats) : VacuumStats :=
  mkVacuumStats (source_records_verified st) (source_bytes_verified st) (records_copied st) (bytes_copied st)
    (u64 (expired_records_dropped st + 1)) (old_segments st) (new_segments st).
Definition count_copied (size : Z) (st : VacuumStats) : VacuumStats :=
  mkVacuumStats (source_records_verified st) (source_bytes_verified st) (u64 (records_copied st + 1))
    (u64 (bytes_copied st + size)) (expired_records_dropped st) (old_segments st) (new_segments st).
Definition count_new (n : Z) (st : VacuumStats) : VacuumStats :=
  mkVacuumStats (source_records_verified st) (source_bytes_verified st) (records_copied st) (bytes_copied st)
    (expired_records_dropped st) (old_segments st) n.

Section builder.
Context {A : Type} (allocate_segment : A -> Method World (SegmentPtr * A)).
Context (cat : gmap Z Ptr) (source_owner : option Z) (now_ns : Z).

Fixpoint check_duplicate (id : Z) (segments : list Ptr) : Method World unit :=
  match segments with
  | [] => retM tt
  | p :: segments => let! s := deref p in if seg_id s =? id then failM invalid_argument else check_duplicate id segments
  end.

Definition allocate_replacement (b : Rebuild A) : Method World (Rebuild A) :=
  let! r := allocate_segment (rb_alloc b) in
  match r.1 with
  | None => failM invalid_argument
  | Some p =>
      let! s := deref p in
      if negb (is_active s) ||
         (match source_owner with Some o => negb (seg_owner s =? o) | None => false end) ||
         bool_decide (is_Some (cat !! seg_id s))
      then failM invalid_argument
      else
      check_duplicate (seg_id s) (rb_segments b) ;;!
      retM (with_segment b p r.2)
  end.

(** [new_segments.back()] *)
Definition back (b : Rebuild A) : Method World Ptr :=
  match last (rb_segments b) with Some p => retM p | None => liftM (Stuck out_of_bounds) end.

(** Appending one record to the last replacement, or to a fresh one when it is full. *)
Definition append_copy (b : Rebuild A) (input : RecordInput) : Method World (Rebuild A * RecordRef) :=
  let! b := match rb_segments b with [] => allocate_replacement b | _ => retM b end in
  let! p := back b in
  fun w =>
  match call p (fun s => append debug s input) w with
  | (Err segment_full, w) =>
      (call_unit p seal ;;!
       let! b := allocate_replacement b in
       let! p := back b in
       let! ref := call p (fun s => append debug s input) in
       retM (b, ref)) w
  | (Ok ref, w) => (Ok (b, ref), w)
  | (Err e, w) => (Err e, w)
  | (Stuck f, w) => (Stuck f, w)
  end.

(** The body of the loop over the entries of the index. *)
Definition rebuild_entry (b : Rebuild A) (key : list Z) (record_ref : RecordRef) : Method World (Rebuild A) :=
  match cat !! ref_segment_id record_ref with
  | None => failM invalid_reference
  | Some p =>
      match rb_sources b !! ref_segment_id record_ref with
      | None =>
          let! r := on_local (insert_or_assign_key key record_ref) (rb_index b) in
          retM (with_new_index b r.2)
      | Some source =>
          let! s := deref p in
          let! record := liftM (read s record_ref) in
          let size := ref_size record_ref in
          let b := with_accounting b
            (<[ref_segment_id record_ref := mkSource (src_segment source) (u64 (src_records source + 1))
                 (u64 (src_bytes source + size))]> (rb_sources b))
            (count_verified size (rb_stats b)) in
          if expired record now_ns then retM (with_accounting b (rb_sources b) (count_dropped (rb_stats b)))
          else
          let input := mkRecordInput (rv_sequence record) (rv_opcode record) (rv_type record) (rv_flags record)
            (rv_key_hash record) (rv_expire_at_ns record) (rv_key record) (rv_value record) in
          let! r := append_copy b input in
          let b := r.1 in
          let ref := r.2 in
          let! p := back b in
          call_unit p (fun s => mark_live s ref) ;;!
          let! i := on_local (insert_or_assign_key key ref) (rb_index b) in
          retM (with_accounting (with_new_index b i.2) (rb_sources b) (count_copied (ref_size ref) (rb_stats b)))
      end
  end.

Fixpoint rebuild_entries (b : Rebuild A) (l : list (list Z * RecordRef)) : Method World (Rebuild A) :=
  match l with
  | [] => retM b
  | (key, record_ref) :: l => let! b := rebuild_entry b key record_ref in rebuild_entries b l
  end.
End builder.

(** The loop over [sources]; every mismatch fails alike, so their order is
    irrelevant. *)
Fixpoint check_accounting (sources : list (Z * SourceAccounting)) : Method World unit :=
  match sources with
  | [] => retM tt
  | (_, source) :: sources =>
      let! s := deref (src_segment source) in
      if negb (src_records source =? live_records (seg_stats s)) || negb (src_bytes source =? live_bytes (seg_stats s))
      then failM corrupted_data
      else check_accounting sources
  end.

Fixpoint seal_active (segments : list Ptr) : Method World unit :=
  match segments with
  | [] => retM tt
  | p :: segments =>
      let! s := deref p in
      (if is_active s then call_unit p seal else retM tt) ;;!
      seal_active segments
  end.

(** The general overload of [VacuumBuilder::rebuild]; an empty [std::function] is
    [None]. *)
Definition rebuild {A} (current_index : SwissTableIndex) (current_segments : list Ptr) (cands : list Z)
    (allocate_segment : option (A -> Method World (SegmentPtr * A))) (a : A) (now_ns : Z) :
    Method World VacuumResult :=
  match allocate_segment with
  | None => failM invalid_argument
  | Some allocate_segment =>
      let! cat := make_catalog current_segments ∅ in
      let! collected := collect_sources cat cands ∅ None in
      let! reserved := on_local (reserve (t_size current_index)) (clone_empty current_index) in
      let stats := mkVacuumStats 0 0 0 0 0 (zlen cands) 0 in
      let! l := liftM (entries current_index) in
      let! b := rebuild_entries allocate_segment cat collected.2 now_ns
                  (mkRebuild reserved.2 [] collected.1 stats a) l in
      check_accounting (map_to_list (rb_sources b)) ;;!
      seal_active (rb_segments b) ;;!
      retM (mkVacuumResult (rb_index b) (rb_segments b) (count_new (zlen (rb_segments b)) (rb_stats b)))
  end.

(** The overload that numbers the new segments itself: the allocator captures the
    next identity and whether the identities are used up. *)
Definition numbering_allocator (owner : Z) (st : Z * bool) : Method World (SegmentPtr * (Z * bool)) :=
  let '(next, exhausted) := st in
  if (exhausted : bool) then failM arithmetic_overflow
  else
  let st' := if next =? umax 64 then (next, true) else (u64 (next + 1), exhausted) in
  fun w => (Ok (Some (next_ptr w), st'),
    mkWorld (<[next_ptr w := new_segment next owner 1]> (heap w)) (Pos.succ (next_ptr w)) (next_id w)
      (SegmentManager.catalog w) (retired_count w)).

Fixpoint segment_ids (segments : list Ptr) : Method World (list Z) :=
  match segments with
  | [] => retM []
  | p :: segments => let! s := deref p in let! rest := segment_ids segments in retM (seg_id s :: rest)
  end.

Definition rebuild_all (current_index : SwissTableIndex) (current_segments : list Ptr) (first_new_segment owner : Z) :
    Method World VacuumResult :=
  let! cands := segment_ids current_segments in
  rebuild current_index current_segments cands (Some (numbering_allocator owner)) (first_new_segment, false) 0.

(** ** [Worker::compact] *)

Definition is_candidate (cands : list Z) (id : Z) : bool := bool_decide (id ∈ cands).

(** The segments that stay, then the replacements. *)
Fixpoint keep_owned (cands : list Z) (owned : list Ptr) : Method World (list Ptr) :=
  match owned with
  | [] => retM []
  | p :: owned =>
      let! s := deref p in
      let! rest := keep_owned cands owned in
      retM (if is_candidate cands (seg_id s) then rest else p :: rest)
  end.

Fixpoint map_owned (owned : list Ptr) (by_id : gmap Z Ptr) : Method World (gmap Z Ptr) :=
  match owned with
  | [] => retM by_id
  | p :: owned =>
      let! s := deref p in
      match by_id !! seg_id s with
      | Some _ => failM corrupted_data
      | None => map_owned owned (<[seg_id s := p]> by_id)
      end
  end.

(** The lambda [restore_liveness]: [marked_dead] counts the entries still to restore. *)
Fixpoint restore_liveness (cands : list Z) (l : list (list Z * RecordRef)) (marked_dead : nat) : Method Sys unit :=
  match l with
  | [] => retM tt
  | (_, ref) :: l =>
      if negb (is_candidate cands (ref_segment_id ref)) then restore_liveness cands l marked_dead
      else match marked_dead with
           | O => retM tt
           | S marked_dead =>
               let! segment := find_owned_segment (ref_segment_id ref) in
               match segment with
               | Some p => ignoreM (on_world (call_unit p (fun s => mark_live s ref)))
               | None => retM tt
               end ;;!
               restore_liveness cands l marked_dead
           end
  end.

(** The loop that marks the sources dead; [all] are the entries of the index. *)
Fixpoint mark_sources (cands : list Z) (all l : list (list Z * RecordRef)) (marked_dead : nat) : Method Sys nat :=
  match l with
  | [] => retM marked_dead
  | (_, ref) :: l =>
      if negb (is_candidate cands (ref_segment_id ref)) then mark_sources cands all l marked_dead
      else
      let! segment := find_owned_segment (ref_segment_id ref) in
      match segment with
      | None => restore_liveness cands all marked_dead ;;! failM invalid_reference
      | Some p =>
          on_error (on_world (call_unit p (fun s => mark_dead s ref))) (restore_liveness cands all marked_dead) ;;!
          mark_sources cands all l (S marked_dead)
      end
  end.

(** The second half of [compact]: the new ownership, the sources marked dead, the
    replacements published and everything swapped in. *)
Definition swap_in (w : Worker) (cands : list Z) (vacuumed : VacuumResult) : Method Sys (option VacuumStats) :=
  let! kept := on_world (keep_owned cands (w_owned w)) in
  let next_owned := kept ++ vr_segments vacuumed in
  let! next_owned_by_id := on_world (map_owned next_owned ∅) in
  let! a := on_world (deref (w_active w)) in
  match next_owned_by_id !! seg_id a with
  | None => failM corrupted_data
  | Some _ =>
      let! l := liftM (entries (w_index w)) in
      let! marked_dead := mark_sources cands l l 0 in
      on_error (on_world (replace_sealed cands (Some <$> vr_segments vacuumed)))
        (restore_liveness cands l marked_dead) ;;!
      modify_worker (fun w => with_owned (with_index w (vr_index vacuumed)) next_owned next_owned_by_id) ;;!
      retM (Some (vr_stats vacuumed))
  end.

(** [compact] under the mutex. *)
Definition compact_locked (now_ns : Z) (policy : VacuumPolicy) : Method Sys (option VacuumStats) :=
  let! w := worker in
  let! cands := on_world (candidates policy (w_owned w)) in
  match cands with
  | [] => retM None
  | _ =>
      let allocate (_ : unit) := let! p := prepare_segment (w_id w) in retM (Some p, tt) in
      let! vacuumed := on_world (rebuild (w_index w) (w_owned w) cands (Some allocate) tt now_ns) in
      if zlen (vr_segments vacuumed) >=? zlen cands then retM None
      else swap_in w cands vacuumed
  end.

Definition compact (now_ns : Z) (policy : VacuumPolicy) : Method Sys (option VacuumStats) :=
  exclusive_index_quiesce (compact_locked now_ns policy).
End vacuum.
