(* ===== verification/VacuumSpec.v ===== *)
(** * Vacuum keeps the contents of a worker

    The proofs of Vacuum.v: what the planner chooses, what the builder copies, and
    that [compact] of a worker that stands for a key-value map leaves one that
    stands for the same map, except for entries that have expired. *)

From Stdlib Require Import SpecFloat ZifyBool.
From S2P Require Import Prelude Core Crc32c Record Segment Routing Probing SwissTable SwissTableSpec Index SegmentManager Worker WorkerSpec Vacuum.

Implicit Types (w : World) (l : list Ptr) (p q : Ptr).

(** ** Segments by identity *)

(** The segments of [l] exist and have different identities. *)
Definition distinct w l : Prop :=
  NoDup l /\ (forall p, p ∈ l -> is_Some (heap w !! p)) /\
  forall p q s s', p ∈ l -> q ∈ l -> heap w !! p = Some s -> heap w !! q = Some s' -> seg_id s = seg_id s' -> p = q.

Definition named w p (id : Z) : Prop := exists s, heap w !! p = Some s /\ seg_id s = id.

(** [c] maps identities to the segments of [l]. *)
Definition names w l (c : gmap Z Ptr) : Prop := forall id p, c !! id = Some p <-> p ∈ l /\ named w p id.

Lemma names_snoc w l p s c : distinct w (l ++ [p]) -> heap w !! p = Some s -> names w l c ->
  c !! seg_id s = None /\ names w (l ++ [p]) (<[seg_id s := p]> c).
Proof.
  intros (Hnd & _ & Hinj) Hs Hn. apply NoDup_app in Hnd as (_ & Hnot & _).
  assert (Hnone : c !! seg_id s = None).
  { destruct (c !! seg_id s) as [q|] eqn:E; [|done]. apply Hn in E as (Hq & s' & Hs' & Eid). exfalso.
    apply (Hnot q Hq), list_elem_of_singleton. apply (Hinj q p s' s); try done; apply elem_of_app; [by left|right; by left]. }
  split; [done|]. intros id q. rewrite elem_of_app, list_elem_of_singleton. destruct (decide (seg_id s = id)) as [<-|Hne].
  - rewrite lookup_insert_eq. split.
    + intros [= <-]. split; [by right|by exists s].
    + intros [[Hq| ->] Hid]; [|done]. assert (c !! seg_id s = Some q) by (apply Hn; done). congruence.
  - rewrite lookup_insert_ne by done. rewrite (Hn id q). split; [naive_solver|].
    intros [[Hq| ->] Hid]; [done|]. destruct Hid as (s' & Hs' & <-). congruence.
Qed.

Lemma distinct_app w l k : distinct w (l ++ k) -> distinct w l.
Proof.
  intros (Hnd & Hsome & Hinj). apply NoDup_app in Hnd as [Hnd _].
  split_and!; [done|intros; apply Hsome, elem_of_app; by left|].
  intros p q s s' Hp Hq. apply Hinj; apply elem_of_app; by left.
Qed.

Lemma distinct_snoc w w' l p s : distinct w l -> (forall q, q ∈ l -> heap w' !! q = heap w !! q) ->
  heap w' !! p = Some s -> (forall q x, q ∈ l -> heap w !! q = Some x -> seg_id x <> seg_id s) -> distinct w' (l ++ [p]).
Proof.
  intros (Hnd & Hsome & Hinj) Hsame Hp Hne.
  assert (Hcase : forall q x, q ∈ l ++ [p] -> heap w' !! q = Some x -> q ∈ l /\ heap w !! q = Some x \/ q = p /\ x = s).
  { intros q x [Hq| ->%list_elem_of_singleton]%elem_of_app Hx; [left; by rewrite <- Hsame|right; split; congruence]. }
  split_and!.
  - apply NoDup_app. split_and!; [done| |apply NoDup_singleton]. intros q Hq ->%list_elem_of_singleton.
    rewrite Hsame in Hp by done. by destruct (Hne p s Hq Hp).
  - intros q [Hq| ->%list_elem_of_singleton]%elem_of_app; [rewrite Hsame by done; auto|eauto].
  - intros q q' x x' Hq Hq' Hx Hx' E. destruct (Hcase q x Hq Hx) as [[Hl Hx1]|[-> ->]], (Hcase q' x' Hq' Hx') as [[Hl' Hx1']|[-> ->]].
    + by eapply Hinj.
    + by destruct (Hne q x Hl Hx1).
    + by destruct (Hne q' x' Hl' Hx1').
    + done.
Qed.

Lemma make_catalog_spec w k : forall l c, distinct w (l ++ k) -> names w l c ->
  exists c', make_catalog k c w = (Ok c', w) /\ names w (l ++ k) c'.
Proof.
  induction k as [|p k IH]; intros l c Hd Hn; cbn [make_catalog].
  { exists c. by rewrite app_nil_r. }
  replace (l ++ p :: k) with ((l ++ [p]) ++ k) in * by by rewrite <- app_assoc.
  destruct Hd as (Hnd & Hsome & Hinj) eqn:Ed. destruct (Hsome p) as [s Hs]; [set_solver|]. clear Ed.
  rewrite (bindM_Ok _ _ _ _ _ (deref_in _ _ _ Hs)).
  destruct (names_snoc w l p s c (distinct_app _ _ _ Hd) Hs Hn) as [Hnone Hn']. rewrite Hnone. by apply IH.
Qed.

Lemma map_owned_spec w k : forall l c, distinct w (l ++ k) -> names w l c ->
  exists c', map_owned k c w = (Ok c', w) /\ names w (l ++ k) c'.
Proof.
  induction k as [|p k IH]; intros l c Hd Hn; cbn [map_owned].
  { exists c. by rewrite app_nil_r. }
  replace (l ++ p :: k) with ((l ++ [p]) ++ k) in * by by rewrite <- app_assoc.
  destruct (proj1 (proj2 Hd) p) as [s Hs]; [set_solver|].
  rewrite (bindM_Ok _ _ _ _ _ (deref_in _ _ _ Hs)).
  destruct (names_snoc w l p s c (distinct_app _ _ _ Hd) Hs Hn) as [Hnone Hn']. rewrite Hnone. by apply IH.
Qed.

Lemma names_nil w : names w [] ∅.
Proof. intros id p. rewrite lookup_empty. split; [done|]. by intros [?%not_elem_of_nil _]. Qed.

Lemma names_unique w l c c' : names w l c -> names w l c' -> c = c'.
Proof.
  intros H H'. apply map_eq. intros id. apply option_eq. intros p. by rewrite (H id p), (H' id p).
Qed.

Lemma distinct_ext w w' l : (forall p, p ∈ l -> heap w' !! p = heap w !! p) -> distinct w l -> distinct w' l.
Proof.
  intros E (Hnd & Hsome & Hinj). split_and!; [done|intros p Hp; rewrite E by done; auto|].
  intros p q s s' Hp Hq Hs Hs'. rewrite E in Hs, Hs' by done. by apply Hinj.
Qed.

Lemma names_ext w w' l c : (forall p, p ∈ l -> heap w' !! p = heap w !! p) -> names w l c -> names w' l c.
Proof. intros E Hn id p. rewrite (Hn id p). unfold named. split; intros [Hp H]; (split; [done|]); rewrite E in * by done; done. Qed.

Lemma distinct_two w l k : distinct w l -> distinct w k ->
  (forall p q s s', p ∈ l -> q ∈ k -> heap w !! p = Some s -> heap w !! q = Some s' -> seg_id s <> seg_id s') -> distinct w (l ++ k).
Proof.
  intros (Hnd & Hsome & Hinj) (Hnd' & Hsome' & Hinj') Hne. split_and!.
  - apply NoDup_app. split_and!; [done| |done]. intros p Hp Hp'. destruct (Hsome p Hp) as [s Hs]. by apply (Hne p p s s).
  - intros p [Hp|Hp]%elem_of_app; auto.
  - intros p q s s' [Hp|Hp]%elem_of_app [Hq|Hq]%elem_of_app Hs Hs' E; [eauto| | |eauto].
    + by destruct (Hne p q s s').
    + by destruct (Hne q p s' s).
Qed.

(** The segments of a worker. *)
Lemma segs_distinct sys logs live : segs_ok sys logs live -> distinct (sys_world sys) (owned sys).
Proof.
  intros Hok. split_and!; [apply Hok|..].
  - intros p Hp. destruct (so_seg _ _ _ Hok p Hp) as (s & ? & Hs & _). eauto.
  - intros p q s s' Hp Hq Hs Hs' E. by eapply owned_id_inj.
Qed.

(** ** The planner *)

Lemma rank_segments_spec w policy l : distinct w l ->
  exists cl, rank_segments policy l w = (Ok cl, w) /\ NoDup (cand_id <$> cl) /\
    forall id, id ∈ cand_id <$> cl -> exists p s, p ∈ l /\ heap w !! p = Some s /\ seg_id s = id /\ seg_state s = seg_sealed.
Proof.
  induction l as [|p l IH]; intros Hd; cbn [rank_segments].
  { exists []. split_and!; [done|constructor|]. by intros id ?%not_elem_of_nil. }
  destruct (proj1 (proj2 Hd) p) as [s Hs]; [by left|]. destruct IH as (cl & E & Hnd & Hcl).
  { destruct Hd as (Hnd & Hsome & Hinj). apply NoDup_cons in Hnd as [_ Hnd].
    split_and!; [done|intros; apply Hsome; by right|]. intros q q' sq sq' Hq Hq'. apply Hinj; by right. }
  rewrite (bindM_Ok _ _ _ _ _ (deref_in _ _ _ Hs)), (bindM_Ok _ _ _ _ _ E).
  assert (Hcl' : forall id, id ∈ cand_id <$> cl -> exists q s, q ∈ p :: l /\ heap w !! q = Some s /\ seg_id s = id /\ seg_state s = seg_sealed).
  { intros id Hid. destruct (Hcl id Hid) as (q & sq & ? & ? & ? & ?). exists q, sq. split_and!; try done. by right. }
  destruct (bool_decide_reflect (seg_state s = seg_sealed)) as [Hst|]; cbn [negb orb]; [|by exists cl].
  destruct (st_record_count (seg_stats s) =? 0); [by exists cl|]. destruct (SFleb _ _); [|by exists cl].
  eexists. split_and!; [done|..]; cbn [fmap list_fmap cand_id].
  - apply NoDup_cons. split; [|done]. intros Hin. destruct (Hcl _ Hin) as (q & sq & Hq & Hsq & Eid & _).
    assert (q = p) by (apply (proj2 (proj2 Hd) q p sq s); try done; [by right|by left]). subst q.
    apply (proj1 (NoDup_cons _ _) (proj1 Hd)). done.
  - intros id [->|Hin]%elem_of_cons; [|auto]. exists p, s. split_and!; try done. by left.
Qed.

Section spec.
Context (sort : list Candidate -> list Candidate) (Hsort : forall cl, sort cl ≡ₚ cl).

(** Different sealed segments of [l]. *)
Definition cands_ok w l (cands : list Z) : Prop :=
  NoDup cands /\ forall id, id ∈ cands -> exists p s, p ∈ l /\ heap w !! p = Some s /\ seg_id s = id /\ seg_state s = seg_sealed.

Lemma candidates_spec w policy l : distinct w l ->
  exists cands, candidates sort policy l w = (Ok cands, w) /\ cands_ok w l cands.
Proof using Hsort.
  intros Hd. destruct (rank_segments_spec w policy l Hd) as (cl & E & Hnd & Hcl).
  unfold candidates. rewrite (bindM_Ok _ _ _ _ _ E). eexists. split; [done|].
  assert (Hs : cands_ok w l (cand_id <$> sort cl)).
  { split; [by rewrite Hsort|]. intros id. rewrite Hsort. apply Hcl. }
  destruct (_ >? _); [|done]. unfold ztake. rewrite fmap_take. destruct Hs as [Hnd' Hin]. split.
  - eapply sublist_NoDup; [done|apply sublist_take].
  - intros id Hid. apply Hin. rewrite <- (take_drop (Z.to_nat (maximum_segments_per_run policy)) (cand_id <$> sort cl)). apply elem_of_app. by left.
Qed.

End spec.

(** ** [replace_sealed] *)

Lemma check_sources_spec w wid todo : forall owner seen,
  (forall id, id ∈ todo -> exists p s, catalog w !! id = Some p /\ heap w !! p = Some s /\ seg_state s = seg_sealed /\
     live_records (seg_stats s) = 0 /\ seg_owner s = wid) ->
  NoDup (seen ++ todo) -> owner = None \/ owner = Some wid -> (owner = None -> todo <> []) ->
  check_sources owner seen todo w = (Ok (Some wid), w).
Proof.
  induction todo as [|id todo IH]; intros owner seen H Hnd Ho Hne; cbn [check_sources].
  { destruct Ho as [->| ->]; [by destruct Hne|done]. }
  destruct (H id) as (p & s & Hc & Hs & Hst & Hlive & Hown); [by left|]. steps.
  rewrite Hc, (bindM_Ok _ _ _ _ _ (deref_in _ _ _ Hs)), Hst, Hlive, bool_decide_eq_true_2 by done. cbn [negb orb Z.eqb].
  assert (id ∉ seen).
  { apply NoDup_app in Hnd as (_ & Hx & _). intros Hin. apply (Hx id Hin). by left. }
  replace (seen ++ id :: todo) with ((seen ++ [id]) ++ todo) in Hnd by by rewrite <- app_assoc.
  assert (Hrec : check_sources (Some wid) (seen ++ [id]) todo w = (Ok (Some wid), w)).
  { apply IH; [|done|by right|done]. intros id' Hin. apply H. by right. }
  destruct Ho as [->| ->]; [|rewrite Hown, Z.eqb_refl; cbn [negb]]; steps; rewrite bool_decide_eq_false_2, ?Hown by done; done.
Qed.

Lemma check_replacements_spec w wid segs : forall seen,
  (forall p, p ∈ segs -> exists s, heap w !! p = Some s /\ seg_state s = seg_sealed /\ seg_owner s = wid /\
     catalog w !! seg_id s = None /\ seg_id s ∉ seen) ->
  distinct w segs -> check_replacements (Some wid) seen (Some <$> segs) w = (Ok tt, w).
Proof.
  induction segs as [|p segs IH]; intros seen H Hd; cbn [check_replacements fmap list_fmap]; [done|].
  destruct (H p) as (s & Hs & Hst & Hown & Hc & Hn); [by left|].
  rewrite (bindM_Ok _ _ _ _ _ (deref_in _ _ _ Hs)). steps. rewrite Hc, Hown, !bool_decide_eq_true_2 by done.
  rewrite !bool_decide_eq_false_2 by (done || by intros []). cbn [negb orb].
  destruct Hd as (Hnd & Hsome & Hinj). apply NoDup_cons in Hnd as [Hnp Hnd]. apply IH.
  - intros q Hq. destruct (H q) as (sq & Hsq & ? & ? & ? & Hnq); [by right|]. exists sq. split_and!; try done.
    rewrite not_elem_of_app. split; [done|]. intros E%list_elem_of_singleton. apply Hnp.
    rewrite (Hinj p q s sq); try done; [by left|by right].
  - split_and!; [done|intros q Hq; apply Hsome; by right|]. intros q q' x x' Hq Hq'. apply Hinj; by right.
Qed.

Lemma register_all_spec w C k : forall l c, distinct w (l ++ k) -> names w l c ->
  exists c', register_all (Some <$> k) (with_catalog w (c ∪ C)) = (Ok tt, with_catalog w (c' ∪ C)) /\ names w (l ++ k) c'.
Proof.
  induction k as [|p k IH]; intros l c Hd Hn; cbn [register_all fmap list_fmap].
  { exists c. by rewrite app_nil_r. }
  replace (l ++ p :: k) with ((l ++ [p]) ++ k) in * by by rewrite <- app_assoc.
  destruct (proj1 (proj2 Hd) p) as [s Hs]; [set_solver|]. unfold register_segment. steps.
  rewrite (bindM_Ok _ _ _ _ _ (deref_in (with_catalog w (c ∪ C)) p s Hs)). steps.
  destruct (names_snoc w l p s c (distinct_app _ _ _ Hd) Hs Hn) as [_ Hn'].
  destruct (IH (l ++ [p]) (<[seg_id s := p]> c) Hd Hn') as (c' & E & Hc'). exists c'. split; [|done].
  cbn [with_catalog catalog heap next_ptr next_id retired_count]. rewrite insert_union_l. exact E.
Qed.

(** What retiring the sources leaves. *)
Lemma retire_all_spec cands : forall w, NoDup cands ->
  (forall id, id ∈ cands -> exists p, catalog w !! id = Some p /\ is_Some (heap w !! p)) ->
  exists w', retire_all cands w = (Ok tt, w') /\ next_ptr w' = next_ptr w /\ next_id w' = next_id w /\
    (forall id, catalog w' !! id = if decide (id ∈ cands) then None else catalog w !! id) /\
    (forall q, (forall id, id ∈ cands -> catalog w !! id <> Some q) -> heap w' !! q = heap w !! q) /\
    forall q, is_Some (heap w' !! q) <-> is_Some (heap w !! q).
Proof.
  induction cands as [|id cands IH]; intros w Hnd H; cbn [retire_all].
  { exists w. split_and!; done. }
  apply NoDup_cons in Hnd as [Hni Hnd]. destruct (H id) as (p & Hc & s & Hs); [by left|]. steps. rewrite Hc.
  assert (exists s', ignoreM (call_unit p retire) w = (Ok tt, with_heap w (<[p := s']> (heap w)))) as [s' E].
  { unfold ignoreM, call_unit, call, bindM, liftM. rewrite (deref_in _ _ _ Hs). destruct (retire s) as [s'|e|f] eqn:Er.
    - by exists s'.
    - exists s. rewrite insert_id by done. by destruct w.
    - unfold retire in Er. by destruct (_ || _). }
  rewrite (bindM_Ok _ _ _ _ _ E). steps. unfold count_retired. steps. cbn [with_heap with_catalog heap next_ptr next_id retired_count catalog].
  destruct (IH (mkWorld (<[p := s']> (heap w)) (next_ptr w) (next_id w) (delete id (catalog w)) (u64 (retired_count w + 1))) Hnd)
    as (w' & E' & Hp & Hi & Hcat & Hheap & Hdom); cbn [catalog heap next_ptr next_id] in *.
  { intros id' Hin. destruct (H id') as (p' & Hc' & Hs'); [by right|]. exists p'. rewrite lookup_delete_ne by (by intros ->).
    split; [done|]. rewrite lookup_insert_is_Some. destruct (decide (p = p')); auto. }
  exists w'. split_and!; try done.
  - intros id'. rewrite Hcat. destruct (decide (id' = id)) as [->|Hne].
    + rewrite lookup_delete_eq, (decide_True (P := id ∈ id :: cands)) by by left. by destruct (decide _).
    + rewrite lookup_delete_ne by done. destruct (decide (id' ∈ cands)), (decide (id' ∈ id :: cands)); (done || set_solver).
  - intros q Hq. rewrite Hheap; [apply lookup_insert_ne; intros <-; apply (Hq id); [by left|done]|].
    intros id' Hin. rewrite lookup_delete_ne by (by intros ->). apply Hq. by right.
  - intros q. rewrite Hdom, lookup_insert_is_Some. split; [intros [<-|[_ ?]]; eauto|]. destruct (decide (p = q)); auto.
Qed.

Section builder.
Context (debug : bool).

(** ** The sources *)

Lemma collect_sources_spec w l cat wid todo : names w l cat ->
  (forall p s, p ∈ l -> heap w !! p = Some s -> seg_owner s = wid) ->
  forall sources seen owner, cands_ok w l (seen ++ todo) ->
  (forall id, sources !! id = if decide (id ∈ seen) then (fun p => mkSource p 0 0) <$> cat !! id else None) ->
  owner = (match seen with [] => None | _ => Some wid end) ->
  exists sources', collect_sources cat todo sources owner w =
      (Ok (sources', match seen ++ todo with [] => None | _ => Some wid end), w) /\
    forall id, sources' !! id = if decide (id ∈ seen ++ todo) then (fun p => mkSource p 0 0) <$> cat !! id else None.
Proof.
  intros Hn Hown. induction todo as [|id todo IH]; intros sources seen owner Hc Hs Ho; cbn [collect_sources].
  { rewrite app_nil_r, <- Ho. by exists sources. }
  destruct (proj2 Hc id) as (p & s & Hp & Hheap & Hid & Hst); [set_solver|].
  assert (cat !! id = Some p) as Hcat by (apply Hn; split; [done|by exists s]). rewrite Hcat.
  rewrite (bindM_Ok _ _ _ _ _ (deref_in _ _ _ Hheap)), bool_decide_eq_true_2 by done. cbn [negb].
  assert (Hnot : id ∉ seen) by (apply proj1, NoDup_app in Hc as (_ & Hx & _); intros Hin; apply (Hx id Hin); by left).
  rewrite Hs, decide_False by done. replace (seen ++ id :: todo) with ((seen ++ [id]) ++ todo) in * by by rewrite <- app_assoc.
  specialize (IH (<[id := mkSource p 0 0]> sources) (seen ++ [id]) (Some wid) Hc).
  assert (Hstep : exists sources', collect_sources cat todo (<[id:=mkSource p 0 0]> sources) (Some wid) w =
      (Ok (sources', match (seen ++ [id]) ++ todo with [] => None | _ => Some wid end), w) /\
    forall id', sources' !! id' = if decide (id' ∈ (seen ++ [id]) ++ todo) then (fun p => mkSource p 0 0) <$> cat !! id' else None).
  { apply IH; [|by destruct seen]. intros id'. destruct (decide (id = id')) as [<-|Hne].
    - rewrite lookup_insert_eq, decide_True, Hcat by set_solver. done.
    - rewrite lookup_insert_ne, Hs by done. destruct (decide (id' ∈ seen)), (decide (id' ∈ seen ++ [id])); (done || set_solver). }
  rewrite Ho. rewrite (Hown p s Hp Hheap). destruct seen; [done|]. by rewrite Z.eqb_refl.
Qed.

(** ** Worlds that only have new segments *)

Record extends w0 w : Prop := {
  ex_heap : forall p, (p < next_ptr w0)%positive -> heap w !! p = heap w0 !! p;
  ex_ptr : (next_ptr w0 <= next_ptr w)%positive;
  ex_id : next_id w0 <= next_id w;
  ex_u64 : is_u64 (next_id w);
  ex_catalog : catalog w = catalog w0;
  ex_fresh : forall p s, heap w !! p = Some s -> (p < next_ptr w)%positive
}.

Lemma extends_refl w : world_ok w -> extends w w.
Proof. intros (H1 & H2 & H3). split; try done; lia. Qed.

(** A segment above the old ones changes. *)
Lemma extends_set w0 w p s : extends w0 w -> (next_ptr w0 <= p < next_ptr w)%positive ->
  extends w0 (with_heap w (<[p := s]> (heap w))).
Proof.
  intros [] Hp. split; cbn; try done.
  - intros q Hq. rewrite lookup_insert_ne by lia. auto.
  - intros q x [[<- _]|[_ Hq]]%lookup_insert_Some; [lia|eauto].
Qed.

Section replacements.
Context (w0 : World) (wid : Z).
Implicit Types (segs : list Ptr) (nlogs : gmap Ptr (list RecordInput)) (live : Z -> list RecordRef) (fresh : bool).

(** The replacement segments: new ones that hold [nlogs], the last one active while
    it is being filled. *)
Record repl_seg w nlogs live p (s : Segment) (log : list RecordInput) : Prop := {
  rs_new : (next_ptr w0 <= p)%positive;
  rs_heap : heap w !! p = Some s;
  rs_log : nlogs !! p = Some log;
  rs_owner : seg_owner s = wid;
  rs_generation : seg_generation s = 1;
  rs_id : next_id w0 <= seg_id s < next_id w;
  rs_live : live_ok s log (live (seg_id s))
}.

Record repl_ok w segs fresh nlogs live : Prop := {
  ro_ext : extends w0 w;
  ro_seg : forall i p, segs !! i = Some p -> exists s log, repl_seg w nlogs live p s log /\
    seg_state s = if decide (S i = length segs /\ fresh = true) then seg_active else seg_sealed;
  ro_distinct : distinct w segs
}.

Lemma repl_in w segs fresh nlogs live p : repl_ok w segs fresh nlogs live -> p ∈ segs ->
  exists s log, repl_seg w nlogs live p s log.
Proof. intros H [i Hi]%list_elem_of_lookup. destruct (ro_seg _ _ _ _ _ H i p Hi) as (s & log & Hs & _). eauto. Qed.

Lemma repl_nil w nlogs live : extends w0 w -> repl_ok w [] false nlogs live.
Proof.
  intros H. split; [done|intros i p Hi; done|]. split_and!; [constructor|by intros p ?%not_elem_of_nil|].
  by intros p q s s' ?%not_elem_of_nil.
Qed.

(** One replacement changes, with its log and its live references. *)
Lemma repl_update w segs fresh fresh' nlogs live p s log s' log' live' :
  repl_ok w segs fresh nlogs live -> last segs = Some p -> repl_seg w nlogs live p s log ->
  seg_id s' = seg_id s -> seg_generation s' = seg_generation s -> seg_owner s' = seg_owner s ->
  seg_state s' = (if fresh' then seg_active else seg_sealed) -> live_ok s' log' (live' (seg_id s)) ->
  (forall id, id <> seg_id s -> live' id ≡ₚ live id) ->
  repl_ok (with_heap w (<[p := s']> (heap w))) segs fresh' (<[p := log']> nlogs) live'.
Proof.
  intros Hok Hlast Hp Eid Eg Eo Est Hlive Hother. pose proof (ex_fresh _ _ (ro_ext _ _ _ _ _ Hok) _ _ (rs_heap _ _ _ _ _ _ Hp)) as Hlt.
  pose proof (rs_new _ _ _ _ _ _ Hp). pose proof (ro_distinct _ _ _ _ _ Hok) as (Hnd & Hsome & Hinj).
  rewrite last_lookup in Hlast. pose proof (lookup_lt_Some _ _ _ Hlast). split.
  - apply extends_set; [apply Hok|lia].
  - intros i q Hi. destruct (decide (q = p)) as [->|Hne].
    + exists s', log'. assert (i = pred (length segs)) as -> by by eapply NoDup_lookup. split.
      * destruct Hp. split; cbn; rewrite ?lookup_insert_eq, ?Eid, ?Eg, ?Eo; done.
      * rewrite Est. destruct fresh'; [rewrite decide_True|rewrite decide_False]; (done || lia || naive_solver).
    + destruct (ro_seg _ _ _ _ _ Hok i q Hi) as (sq & lq & Hsq & Hst). exists sq, lq. split.
      * pose proof Hsq as []. split; cbn; rewrite ?lookup_insert_ne by done; try done. rewrite Hother; [done|].
        intros E. apply Hne. eapply (Hinj q p sq s); try done; [by eapply list_elem_of_lookup_2..|apply Hp].
      * assert (S i <> length segs) by (intros E; apply Hne; replace (pred (length segs)) with i in Hlast by lia; congruence).
        rewrite decide_False in Hst by naive_solver. rewrite decide_False by naive_solver. done.
  - split_and!; [done|..]; cbn.
    + intros q Hq. destruct (decide (q = p)) as [->|]; [by rewrite lookup_insert_eq|]. rewrite lookup_insert_ne by done. auto.
    + assert (Hx : forall q x, heap w !! q = Some x \/ (q = p /\ x = s') -> exists y, heap w !! q = Some y /\ seg_id y = seg_id x).
      { intros q x [Hq|[-> ->]]; [by exists x|]. exists s. split; [apply Hp|done]. }
      intros q q' sq sq' Hq Hq' Hsq Hsq' E. rewrite lookup_insert_Some in Hsq, Hsq'.
      destruct (Hx q sq) as (y & Hy & Ey); [naive_solver|]. destruct (Hx q' sq') as (y' & Hy' & Ey'); [naive_solver|].
      apply (Hinj q q' y y'); congruence.
Qed.

(** The replacements keep their records while more are added. *)
Definition grown w segs nlogs w' segs' nlogs' : Prop :=
  next_id w <= next_id w' /\
  forall q s log, q ∈ segs -> heap w !! q = Some s -> nlogs !! q = Some log ->
    q ∈ segs' /\ exists s' more, heap w' !! q = Some s' /\ seg_id s' = seg_id s /\
      seg_generation s' = seg_generation s /\ nlogs' !! q = Some (log ++ more).

Lemma grown_refl w segs nlogs : grown w segs nlogs w segs nlogs.
Proof. split; [lia|]. intros q s log Hq Hs Hl. split; [done|]. exists s, []. by rewrite app_nil_r. Qed.

Lemma grown_trans w1 l1 n1 w2 l2 n2 w3 l3 n3 : grown w1 l1 n1 w2 l2 n2 -> grown w2 l2 n2 w3 l3 n3 -> grown w1 l1 n1 w3 l3 n3.
Proof.
  intros [Hi H] [Hi' H']. split; [lia|]. intros q s log Hq Hs Hl. destruct (H q s log Hq Hs Hl) as (Hq2 & s2 & m2 & Hs2 & E2 & G2 & Hl2).
  destruct (H' q s2 _ Hq2 Hs2 Hl2) as (Hq3 & s3 & m3 & Hs3 & E3 & G3 & Hl3). split; [done|].
  exists s3, (m2 ++ m3). rewrite app_assoc. split_and!; (done || congruence).
Qed.

Lemma grown_update w segs nlogs p s s' log more : heap w !! p = Some s -> nlogs !! p = Some log ->
  seg_id s' = seg_id s -> seg_generation s' = seg_generation s ->
  grown w segs nlogs (with_heap w (<[p := s']> (heap w))) segs (<[p := log ++ more]> nlogs).
Proof.
  intros Hs Hl Ei Eg. split; [cbn; lia|]. intros q x lq Hq Hx Hlq. split; [done|]. cbn.
  destruct (decide (q = p)) as [->|Hne].
  - simplify_eq. exists s', more. by rewrite !lookup_insert_eq.
  - exists x, []. by rewrite !lookup_insert_ne, app_nil_r by done.
Qed.

Lemma append_live s log input refs : live_ok s log refs -> seg_state s = seg_active -> input_ok input ->
  match append debug s input with
  | Ok (ref, s') => ref = ref_after s log input /\ live_ok s' (log ++ [input]) refs /\ seg_state s' = seg_active /\
      seg_id s' = seg_id s /\ seg_generation s' = seg_generation s /\ seg_owner s' = seg_owner s
  | Err e => e = segment_full /\ log <> []
  | Stuck _ => False
  end.
Proof.
  intros [Hrep Hsub Hcnt Htot] Hst [Hin He]. pose proof (append_cases debug s log input Hrep Hin) as Hc.
  pose proof (encoded_record_size_cases input) as Hsz.
  rewrite Hst, bool_decide_eq_true_2 in Hc by done. cbn [negb] in Hc.
  destruct (encoded_record_size input) as [size|e|f]; cbn [bindR] in Hc; [|by destruct Hsz|done].
  destruct Hsz as [_ ->]. pose proof (input_ok_bounds input (conj Hin He)).
  destruct (Z.gtb_spec (log_end log + record_size input) kSegmentSizeBytes) as [Hfull|].
  - rewrite Hc. split; [done|]. intros ->. change (log_end []) with 4096 in Hfull. unfold kSegmentSizeBytes in *. lia.
  - destruct (append debug s input) as [[ref s']|e|f] eqn:Ea; [|done..].
    destruct (append_rep debug s log input ref s' Hrep Hin Ea) as (_ & -> & Hrep' & _ & _ & Hst' & Eid & Eg & Eo & Ec & Eb).
    split_and!; try done. split; [done| |congruence..]. rewrite (log_refs_ext _ s), log_refs_snoc by done.
    etrans; [exact Hsub|]. by apply submseteq_inserts_r.
Qed.

Lemma last_state w segs nlogs live p : repl_ok w segs true nlogs live -> last segs = Some p ->
  exists s log, repl_seg w nlogs live p s log /\ seg_state s = seg_active.
Proof.
  intros Hok Hlast. rewrite last_lookup in Hlast. pose proof (lookup_lt_Some _ _ _ Hlast).
  destruct (ro_seg _ _ _ _ _ Hok _ _ Hlast) as (s & log & Hs & Hst). exists s, log. split; [done|].
  rewrite decide_True in Hst; [done|]. split; [lia|done].
Qed.

Lemma append_last w segs nlogs live p input : repl_ok w segs true nlogs live -> last segs = Some p -> input_ok input ->
  exists s log, repl_seg w nlogs live p s log /\
  match call p (fun s => append debug s input) w with
  | (Ok ref, w') => ref = ref_after s log input /\
      (exists s', repl_ok w' segs true (<[p := log ++ [input]]> nlogs) live /\
         repl_seg w' (<[p := log ++ [input]]> nlogs) live p s' (log ++ [input]) /\
         seg_id s' = seg_id s /\ seg_generation s' = seg_generation s) /\
      grown w segs nlogs w' segs (<[p := log ++ [input]]> nlogs)
  | (Err e, w') => w' = w /\ e = segment_full /\ log <> []
  | (Stuck _, _) => False
  end.
Proof.
  intros Hok Hlast Hin. destruct (last_state _ _ _ _ _ Hok Hlast) as (s & log & Hs & Hst). exists s, log. split; [done|].
  pose proof (append_live s log input _ (rs_live _ _ _ _ _ _ Hs) Hst Hin) as Ha. pose proof (rs_heap _ _ _ _ _ _ Hs) as Hh.
  unfold call, bindM at 1. rewrite (deref_in _ _ _ Hh). unfold liftM, bindM at 1.
  destruct (append debug s input) as [[ref s']|e|f]; [| |done].
  - destruct Ha as (-> & Hlv & Hst' & Eid & Eg & Eo). steps. cbn [retM fst snd].
    assert (Hr : repl_ok (with_heap w (<[p := s']> (heap w))) segs true (<[p := log ++ [input]]> nlogs) live)
      by (eapply repl_update; done). split_and!; [done| |].
    + exists s'. split_and!; try done. destruct Hs. split; cbn; rewrite ?lookup_insert_eq, ?Eid, ?Eg, ?Eo; done.
    + eapply grown_update; try done. apply Hs.
  - destruct Ha as [-> Hne]. done.
Qed.

Lemma seal_last w segs nlogs live p : repl_ok w segs true nlogs live -> last segs = Some p ->
  exists w', call_unit p seal w = (Ok tt, w') /\ repl_ok w' segs false nlogs live /\ grown w segs nlogs w' segs nlogs.
Proof.
  intros Hok Hlast. destruct (last_state _ _ _ _ _ Hok Hlast) as (s & log & Hs & Hst).
  pose proof (rs_log _ _ _ _ _ _ Hs) as Hl. pose proof (rs_heap _ _ _ _ _ _ Hs) as Hh.
  erewrite call_unit_in; [|done|unfold seal; by rewrite Hst, bool_decide_eq_true_2]. eexists. split; [done|].
  assert (Hid : <[p := log]> nlogs = nlogs) by by apply insert_id. split.
  - rewrite <- Hid. eapply repl_update; try done. apply live_ok_state, Hs.
  - pose proof (grown_update w segs nlogs p s (with_state s seg_sealed) log [] Hh Hl eq_refl eq_refl) as Hg.
    by rewrite app_nil_r, Hid in Hg.
Qed.

(** The allocator [compact] passes, on a catalog of older segments. *)
Definition prepare (_ : unit) : Method World (SegmentPtr * unit) := let! p := prepare_segment wid in retM (Some p, tt).

Context (cat : gmap Z Ptr) (Hcat : forall id p, cat !! id = Some p -> id < next_id w0).
Implicit Types (b : Rebuild unit).

Lemma check_duplicate_fresh w id segs : (forall p, p ∈ segs -> exists s, heap w !! p = Some s /\ seg_id s <> id) ->
  check_duplicate id segs w = (Ok tt, w).
Proof.
  induction segs as [|p segs IH]; intros H; cbn [check_duplicate]; [done|].
  destruct (H p) as (s & Hs & Hne); [by left|]. rewrite (bindM_Ok _ _ _ _ _ (deref_in _ _ _ Hs)).
  destruct (Z.eqb_spec (seg_id s) id); [done|]. apply IH. intros q Hq. apply H. by right.
Qed.

(** The world with a fresh segment. *)
Definition with_fresh w : World :=
  mkWorld (<[next_ptr w := new_segment (next_id w) wid 1]> (heap w)) (Pos.succ (next_ptr w)) (next_id w + 1)
    (catalog w) (retired_count w).

Lemma with_fresh_ok w segs nlogs live : repl_ok w segs false nlogs live -> live (next_id w) = [] -> next_id w < umax 64 ->
  repl_ok (with_fresh w) (segs ++ [next_ptr w]) true (<[next_ptr w := []]> nlogs) live /\
  grown w segs nlogs (with_fresh w) (segs ++ [next_ptr w]) (<[next_ptr w := []]> nlogs).
Proof.
  intros Hok Hnew Hmax. pose proof (ro_ext _ _ _ _ _ Hok) as Hext. pose proof Hext as [].
  assert (Hold : forall q, q ∈ segs -> exists s log, repl_seg w nlogs live q s log /\ (q < next_ptr w)%positive).
  { intros q Hq. destruct (repl_in _ _ _ _ _ _ Hok Hq) as (s & log & Hs). exists s, log. split; [done|]. eapply ex_fresh0, Hs. }
  pose proof (ro_distinct _ _ _ _ _ Hok) as (Hnd & Hsome & Hinj). split; [split|].
  - split; cbn; try done; try lia; [|width; lia|].
    + intros q Hq. rewrite lookup_insert_ne by lia. auto.
    + intros q x [[<- _]|[_ Hq]]%lookup_insert_Some; [lia|]. specialize (ex_fresh0 _ _ Hq). lia.
  - intros i q Hi. rewrite length_app. cbn [length]. apply lookup_app_Some in Hi as [Hi|[Hge Hi]].
    + destruct (ro_seg _ _ _ _ _ Hok i q Hi) as (s & log & Hs & Hst). pose proof (lookup_lt_Some _ _ _ Hi).
      destruct (Hold q) as (_ & _ & _ & Hlt); [by eapply list_elem_of_lookup_2|].
      exists s, log. rewrite decide_False in Hst by naive_solver. rewrite decide_False by lia. split; [|done].
      destruct Hs. split; cbn; rewrite ?lookup_insert_ne by lia; try done; lia.
    + destruct (i - length segs)%nat eqn:Ei; [|done]. cbn in Hi. simplify_eq.
      exists (new_segment (next_id w) wid 1), []. rewrite decide_True by (split; [lia|done]). split; [|done].
      split; cbn; rewrite ?lookup_insert_eq; try done; [lia|]. rewrite Hnew.
      split; [apply new_segment_rep|apply submseteq_nil_l|done..].
  - eapply distinct_snoc with (s := new_segment (next_id w) wid 1); [apply Hok| |cbn; apply lookup_insert_eq|].
    + intros q Hq. destruct (Hold _ Hq) as (_ & _ & _ & Hlt). cbn. by rewrite lookup_insert_ne by lia.
    + intros q sq Hq Hsq. destruct (Hold _ Hq) as (s & log & Hs & _). rewrite (rs_heap _ _ _ _ _ _ Hs) in Hsq. simplify_eq.
      pose proof (rs_id _ _ _ _ _ _ Hs). cbn. lia.
  - split; cbn; [lia|]. intros q s log Hq Hs Hl. destruct (Hold q Hq) as (_ & _ & _ & Hlt).
    split; [apply elem_of_app; by left|]. exists s, []. rewrite !lookup_insert_ne, app_nil_r by lia. done.
Qed.

Lemma allocate_spec w b nlogs live : repl_ok w (rb_segments b) false nlogs live -> live (next_id w) = [] ->
  runs (allocate_replacement prepare cat (Some wid) b w)
    (fun b' w' => b' = with_segment b (next_ptr w) tt /\
       repl_ok w' (rb_segments b') true (<[next_ptr w := []]> nlogs) live /\
       grown w (rb_segments b) nlogs w' (rb_segments b') (<[next_ptr w := []]> nlogs) /\ next_id w' = next_id w + 1)
    (fun e w' => e = arithmetic_overflow /\ extends w0 w').
Proof using Hcat.
  intros Hok Hnew. pose proof (ro_ext _ _ _ _ _ Hok) as Hext. pose proof (ex_id _ _ Hext). pose proof (ex_u64 _ _ Hext) as Hu.
  unfold allocate_replacement, prepare, prepare_segment. steps.
  destruct (Z.eqb_spec (next_id w) (umax 64)) as [|Hmax]; [done|].
  assert (make_segment wid w = (Ok (next_ptr w), with_fresh w)) as E.
  { unfold make_segment, with_fresh. by rewrite wrap_small by (width; lia). }
  rewrite (bindM_Ok _ _ _ _ _ E). steps. cbn [fst snd].
  erewrite bindM_Ok by (apply deref_in; cbn; apply lookup_insert_eq). cbn [new_segment seg_id seg_owner].
  unfold is_active. rewrite Z.eqb_refl, bool_decide_eq_true_2, bool_decide_eq_false_2; [|intros [p Hp]; specialize (Hcat _ _ Hp); lia|done].
  cbn [negb orb]. destruct (with_fresh_ok w _ nlogs live Hok Hnew) as [Hok' Hg]; [width; lia|].
  erewrite bindM_Ok; [done|]. apply check_duplicate_fresh. intros q Hq.
  destruct (repl_in _ _ _ _ _ _ Hok Hq) as (s & log & Hs). pose proof (rs_id _ _ _ _ _ _ Hs).
  pose proof (ex_fresh _ _ Hext _ _ (rs_heap _ _ _ _ _ _ Hs)). exists s. cbn. rewrite lookup_insert_ne by lia.
  split; [apply Hs|lia].
Qed.

(** What copying one record leaves. *)
Definition copied w b nlogs live input b' (ref : RecordRef) w' : Prop :=
  exists nlogs' p s log, repl_ok w' (rb_segments b') true nlogs' live /\ last (rb_segments b') = Some p /\
    repl_seg w' nlogs' live p s (log ++ [input]) /\ ref = ref_after s log input /\
    live (seg_id s) ⊆+ log_refs s log /\ grown w (rb_segments b) nlogs w' (rb_segments b') nlogs' /\
    rb_index b' = rb_index b /\ rb_sources b' = rb_sources b /\ rb_stats b' = rb_stats b.

Lemma append_copied w1 b1 nlogs1 w b nlogs live p input : grown w1 (rb_segments b1) nlogs1 w (rb_segments b) nlogs ->
  rb_index b = rb_index b1 -> rb_sources b = rb_sources b1 -> rb_stats b = rb_stats b1 ->
  repl_ok w (rb_segments b) true nlogs live -> last (rb_segments b) = Some p -> input_ok input ->
  exists s log, repl_seg w nlogs live p s log /\
  match call p (fun s => append debug s input) w with
  | (Ok ref, w') => copied w1 b1 nlogs1 live input b ref w'
  | (Err e, w') => w' = w /\ e = segment_full /\ log <> []
  | (Stuck _, _) => False
  end.
Proof.
  intros Hg E1 E2 E3 Hok Hlast Hin. destruct (append_last w _ nlogs live p input Hok Hlast Hin) as (s & log & Hs & Ha).
  exists s, log. split; [done|]. destruct (call p _ w) as [[ref|e|f] w']; [|done..].
  destruct Ha as (-> & (s' & Hok' & Hs' & Ei & Eg) & Hg'). eexists _, p, s', log. split_and!; try done.
  - unfold ref_after. by rewrite Ei, Eg.
  - rewrite Ei, (log_refs_ext s' s) by done. apply Hs.
  - by eapply grown_trans.
Qed.

(** [back] of a builder whose last segment is known. *)
Lemma back_last w b p : last (rb_segments b) = Some p -> back b w = (Ok p, w).
Proof. unfold back. by intros ->. Qed.

Lemma append_copy_spec w b nlogs live input : input_ok input ->
  repl_ok w (rb_segments b) (bool_decide (rb_segments b <> [])) nlogs live ->
  (forall id, next_id w <= id -> live id = []) ->
  runs (append_copy debug prepare cat (Some wid) b input w)
    (fun r w' => copied w b nlogs live input r.1 r.2 w')
    (fun e w' => e = arithmetic_overflow /\ extends w0 w').
Proof using Hcat.
  intros Hin Hok Hnew. unfold append_copy. destruct (rb_segments b) as [|q l] eqn:Esegs.
  - rewrite bool_decide_eq_false_2 in Hok by by intros []. rewrite <- Esegs in Hok.
    eapply runs_bindM; [apply (allocate_spec w b nlogs live Hok); apply Hnew; lia|].
    intros b1 w1 (-> & Hok1 & Hg1 & _). set (b1 := with_segment b _ tt) in *.
    assert (Hlast : last (rb_segments b1) = Some (next_ptr w)) by apply last_snoc.
    rewrite (bindM_Ok _ _ _ _ _ (back_last _ _ _ Hlast)).
    destruct (append_copied w b nlogs w1 b1 _ live _ input Hg1 eq_refl eq_refl eq_refl Hok1 Hlast Hin) as (s & log & Hs & Ha).
    destruct (call _ _ w1) as [[ref|e|f] w2]; [done| |done]. destruct Ha as (_ & _ & Hne).
    pose proof (rs_log _ _ _ _ _ _ Hs) as Hl. rewrite lookup_insert_eq in Hl. by simplify_eq.
  - rewrite bool_decide_eq_true_2 in Hok by done. rewrite <- Esegs in Hok. steps.
    destruct (last (rb_segments b)) as [p|] eqn:Hlast; [|by apply last_None in Hlast; rewrite Hlast in Esegs].
    rewrite (bindM_Ok _ _ _ _ _ (back_last _ _ _ Hlast)).
    destruct (append_copied w b nlogs w b nlogs live p input (grown_refl _ _ _) eq_refl eq_refl eq_refl Hok Hlast Hin) as (s & log & Hs & Ha).
    destruct (call p _ w) as [[ref|e|f] w1]; [done| |done]. destruct Ha as (-> & -> & _).
    destruct (seal_last _ _ _ _ _ Hok Hlast) as (w1 & E1 & Hok1 & Hg1). rewrite (bindM_Ok _ _ _ _ _ E1).
    eapply runs_bindM; [apply (allocate_spec w1 b nlogs live Hok1); apply Hnew; apply Hg1|].
    intros b2 w2 (-> & Hok2 & Hg2 & _). set (b2 := with_segment b _ tt) in *.
    assert (Hlast2 : last (rb_segments b2) = Some (next_ptr w1)) by apply last_snoc.
    rewrite (bindM_Ok _ _ _ _ _ (back_last _ _ _ Hlast2)).
    destruct (append_copied w b nlogs w2 b2 _ live _ input (grown_trans _ _ _ _ _ _ _ _ _ Hg1 Hg2) eq_refl eq_refl eq_refl Hok2 Hlast2 Hin)
      as (s2 & log2 & Hs2 & Ha2). unfold bindM.
    destruct (call _ _ w2) as [[ref|e|f] w3]; [done| |done]. destruct Ha2 as (_ & _ & Hne).
    pose proof (rs_log _ _ _ _ _ _ Hs2) as Hl. rewrite lookup_insert_eq in Hl. by simplify_eq.
Qed.
End replacements.

(** ** Copying the entries of an index *)

(** The references of [l] into one segment. *)
Definition refs_in (id : Z) (l : list (list Z * RecordRef)) : list RecordRef :=
  filter (fun r => ref_segment_id r = id) l.*2.

Lemma live_in_refs id m : live_in id m = refs_in id (map_to_list m).
Proof. done. Qed.

#[local] Instance refs_in_proper id : Proper ((≡ₚ) ==> (≡ₚ)) (refs_in id).
Proof. intros l k E. unfold refs_in. by rewrite E. Qed.

Lemma refs_in_snoc id es k r : refs_in id (es ++ [(k, r)]) =
  refs_in id es ++ if decide (ref_segment_id r = id) then [r] else [].
Proof. unfold refs_in. rewrite fmap_app, filter_app. cbn [fmap list_fmap snd]. by rewrite filter_cons, filter_nil. Qed.

Lemma refs_in_sub id es m : NoDup es.*1 -> (forall k r, (k, r) ∈ es -> m !! k = Some r) -> refs_in id es ⊆+ live_in id m.
Proof.
  intros Hnd Hin. assert (es ⊆+ map_to_list m) as [rest Hr]%submseteq_Permutation.
  { apply NoDup_submseteq; [by eapply NoDup_fmap_1|]. intros [k r] H. by apply elem_of_map_to_list, Hin. }
  rewrite live_in_refs, Hr. unfold refs_in. rewrite fmap_app, filter_app. by apply submseteq_inserts_r.
Qed.

Lemma live_in_ext id m m' : (forall k r, ref_segment_id r = id -> m !! k = Some r <-> m' !! k = Some r) ->
  live_in id m ≡ₚ live_in id m'.
Proof.
  assert (Heq : forall m, live_in id m = (filter (fun x => ref_segment_id x.2 = id) (map_to_list m)).*2).
  { intros n. unfold live_in. induction (map_to_list n) as [|[k r] l IH]; [done|]. cbn [fmap list_fmap snd].
    rewrite !filter_cons. cbn [snd]. destruct (decide _); cbn [fmap list_fmap snd]; by rewrite IH. }
  intros H. rewrite !Heq. apply fmap_Permutation, NoDup_Permutation; [apply NoDup_filter, NoDup_map_to_list..|].
  intros [k r]. rewrite !list_elem_of_filter, !elem_of_map_to_list. cbn. naive_solver.
Qed.

Section compact.
Context (routing : WorkerRoutingState) (seed : Z).
Context (sys : Sys) (m : index_map) (kv : kv_map) (logs : gmap Ptr (list RecordInput)).
Context (Hok : segs_ok sys logs (fun id => live_in id m)) (Hix : index_ok routing seed sys logs m kv).
Context (now_ns : Z) (cands : list Z) (Hcands : cands_ok (sys_world sys) (owned sys) cands).
Notation w0 := (sys_world sys).
Notation wid := (w_id (sys_worker sys)).
Notation by_id := (w_owned_by_id (sys_worker sys)).
Implicit Types (b : Rebuild unit) (segs : list Ptr) (nlogs : gmap Ptr (list RecordInput)) (n : index_map) (done : list (list Z * RecordRef)).

Lemma owned_names : names w0 (owned sys) by_id.
Proof using Hok.
  intros id p. split; [by apply Hok|]. intros (Hp & s & Hs & <-).
  destruct (so_seg _ _ _ Hok p Hp) as (s' & ? & Hs' & _ & Hh & _). simplify_eq. apply Hh.
Qed.

Lemma by_id_bound id p : by_id !! id = Some p -> id < next_id w0.
Proof using Hok.
  intros (Hp & s & Hs & <-)%owned_names. destruct (so_seg _ _ _ Hok p Hp) as (s' & ? & Hs' & _ & Hh & _). simplify_eq. apply Hh.
Qed.

(** A reference to a record that was copied. *)
Definition repl_points w segs nlogs (r : RecordRef) (input : RecordInput) : Prop :=
  exists p s pre post, p ∈ segs /\ heap w !! p = Some s /\ nlogs !! p = Some (pre ++ input :: post) /\ r = ref_after s pre input.

(** The record the entry [k] of the old index refers to. *)
Definition holds (k : list Z) (r : RecordRef) (input : RecordInput) : Prop :=
  points sys logs r input /\ in_key input = k /\ in_opcode input = Opcode_put /\
  kv !! k = Some (in_value input, in_expire_at_ns input).

(** Where the new index has the entry [k] of the old one. *)
Definition moved w segs nlogs n (k : list Z) (r : RecordRef) : Prop :=
  if decide (ref_segment_id r ∈ cands)
  then exists input, holds k r input /\
    if expired (view_of input) now_ns then n !! k = None
    else exists r', n !! k = Some r' /\ repl_points w segs nlogs r' input
  else n !! k = Some r.

Record built done w b nlogs n : Prop := {
  bu_repl : repl_ok w0 wid w (rb_segments b) (bool_decide (rb_segments b <> [])) nlogs (fun id => live_in id n);
  bu_table : table_ok routing seed (rb_index b) n;
  bu_sources : forall id, rb_sources b !! id = if decide (id ∈ cands)
    then (fun p => mkSource p (zlen (refs_in id done)) (sum_sizes (refs_in id done))) <$> by_id !! id else None;
  bu_done : forall k r, (k, r) ∈ done -> moved w (rb_segments b) nlogs n k r;
  bu_rest : forall k, k ∉ done.*1 -> n !! k = None
}.

Lemma repl_points_grown w segs nlogs w' segs' nlogs' r input : grown w segs nlogs w' segs' nlogs' ->
  repl_points w segs nlogs r input -> repl_points w' segs' nlogs' r input.
Proof.
  intros [_ Hg] (p & s & pre & post & Hp & Hs & Hl & ->). destruct (Hg p s _ Hp Hs Hl) as (Hp' & s' & more & Hs' & Ei & Eg & Hl').
  exists p, s', pre, (post ++ more). split_and!; try done; [by rewrite Hl', <- app_assoc|]. unfold ref_after. by rewrite Ei, Eg.
Qed.

Lemma moved_grown w segs nlogs w' segs' nlogs' n n' k r : grown w segs nlogs w' segs' nlogs' -> n' !! k = n !! k ->
  moved w segs nlogs n k r -> moved w' segs' nlogs' n' k r.
Proof.
  intros Hg E. unfold moved. rewrite E. destruct (decide _); [|done]. intros (input & Hp & H). exists input. split; [done|].
  destruct (expired _ _); [done|]. destruct H as (r' & Hr & Hp'). exists r'. split; [done|]. by eapply repl_points_grown.
Qed.

(** An old reference names an old segment. *)
Lemma entry_facts k r : m !! k = Some r -> exists input p s pre post,
  p ∈ owned sys /\ heap w0 !! p = Some s /\ logs !! p = Some (pre ++ input :: post) /\ r = ref_after s pre input /\
  holds k r input /\ input_ok input /\
  by_id !! ref_segment_id r = Some p /\ ref_segment_id r < next_id w0 /\ (p < next_ptr w0)%positive /\
  read s r = Ok (view_of input).
Proof using Hok Hix.
  intros Hk. pose proof (io_entries _ _ _ _ _ _ Hix k) as He. unfold entry_ok in He. rewrite Hk in He.
  destruct He as (input & (p & s & pre & post & Hp & Hs & Hl & ->) & Hrest). exists input, p, s, pre, post.
  destruct (so_seg _ _ _ Hok p Hp) as (s' & log & Hs' & Hl' & Hh & Hlv). simplify_eq.
  destruct (so_world _ _ _ Hok) as (Hw & _). pose proof (live_rep _ _ _ Hlv) as Hrep. split_and!; try done.
  - split; [|done]. by exists p, s, pre, post.
  - pose proof (rep_inputs _ _ Hrep) as Hall. rewrite Forall_app, Forall_cons in Hall. apply Hall.
  - apply Hh.
  - apply Hh.
  - by eapply Hw.
  - by apply (read_extent_log true s pre input post).
Qed.

Lemma built_bound done w b nlogs n k r : (forall k r, (k, r) ∈ done -> m !! k = Some r) -> built done w b nlogs n ->
  n !! k = Some r -> ref_segment_id r < next_id w.
Proof using Hok Hix.
  intros Hin Hb Hk. destruct (decide (k ∈ done.*1)) as [([k' r0] & -> & Hd)%list_elem_of_fmap|Hn].
  2:{ by rewrite (bu_rest _ _ _ _ _ Hb k Hn) in Hk. }
  pose proof (ro_ext _ _ _ _ _ _ _ (bu_repl _ _ _ _ _ Hb)) as Hext. pose proof (ex_id _ _ Hext).
  cbn [fst] in *. pose proof (bu_done _ _ _ _ _ Hb _ _ Hd) as Hm. unfold moved in Hm. destruct (decide _).
  - destruct Hm as (input & _ & Hm). destruct (expired _ _); [congruence|]. destruct Hm as (r' & Hr & p & s & pre & post & Hp & Hs & _ & ->).
    simplify_eq. destruct (repl_in _ _ _ _ _ _ _ _ (bu_repl _ _ _ _ _ Hb) Hp) as (s' & log & Hs').
    pose proof (rs_heap _ _ _ _ _ _ _ _ Hs'). simplify_eq. apply (rs_id _ _ _ _ _ _ _ _ Hs').
  - rewrite Hm in Hk. simplify_eq. destruct (entry_facts k' r (Hin _ _ Hd)) as (? & ? & ? & ? & ? & H'). destruct_and!. lia.
Qed.

Lemma repl_live_ext w segs fresh nlogs live live' : (forall id, next_id w0 <= id -> live' id ≡ₚ live id) ->
  repl_ok w0 wid w segs fresh nlogs live -> repl_ok w0 wid w segs fresh nlogs live'.
Proof.
  intros E H. split; try apply H. intros i p Hi. destruct (ro_seg _ _ _ _ _ _ _ H i p Hi) as (s & log & [] & Hst).
  exists s, log. split; [|done]. split; try done. rewrite E by lia. done.
Qed.

Lemma moved_other w segs nlogs n k k' r r' : k <> k' -> moved w segs nlogs n k r -> moved w segs nlogs (<[k' := r']> n) k r.
Proof. intros Hne. unfold moved. by rewrite lookup_insert_ne. Qed.

Lemma not_done_ne done k k' (r : RecordRef) : k' ∉ done.*1 -> (k, r) ∈ done -> k <> k'.
Proof. intros Hn Hd ->. apply Hn, list_elem_of_fmap. by exists (k', r). Qed.

(** The entries seen stay where they are, and one more is seen. *)
Lemma done_snoc w segs nlogs w' segs' nlogs' n n' done k r : k ∉ done.*1 ->
  (forall k r, (k, r) ∈ done -> moved w segs nlogs n k r) -> grown w segs nlogs w' segs' nlogs' ->
  (forall k', k' <> k -> n' !! k' = n !! k') -> moved w' segs' nlogs' n' k r ->
  forall k' r', (k', r') ∈ done ++ [(k, r)] -> moved w' segs' nlogs' n' k' r'.
Proof.
  intros Hn Hd Hg Hsame Hnew k' r' [Hin|E%list_elem_of_singleton]%elem_of_app; [|by simplify_eq].
  eapply moved_grown; [exact Hg|apply Hsame; by eapply not_done_ne|auto].
Qed.

Lemma rest_snoc n n' done k (r : RecordRef) : (forall k, k ∉ done.*1 -> n !! k = None) ->
  (forall k', k' <> k -> n' !! k' = n !! k') -> forall k', k' ∉ (done ++ [(k, r)]).*1 -> n' !! k' = None.
Proof.
  intros Hr Hsame k'. rewrite fmap_app, not_elem_of_app. intros [Hn Hne]. rewrite Hsame; [auto|].
  intros ->. apply Hne. by left.
Qed.

Definition done_ok done : Prop := NoDup done.*1 /\ forall k r, (k, r) ∈ done -> m !! k = Some r.

Lemma done_ok_snoc done k r : done_ok done -> k ∉ done.*1 -> m !! k = Some r -> done_ok (done ++ [(k, r)]).
Proof.
  intros [Hnd Hin] Hn Hk. split.
  - rewrite fmap_app. apply NoDup_app. split_and!; [done| |apply NoDup_singleton]. by intros x Hx ->%list_elem_of_singleton.
  - intros k' r' [Hd|E%list_elem_of_singleton]%elem_of_app; [auto|]. by simplify_eq.
Qed.

(** The accounting of the sources after one more entry. *)
Lemma sources_snoc done k r p : done_ok (done ++ [(k, r)]) -> by_id !! ref_segment_id r = Some p -> ref_segment_id r ∈ cands ->
  forall sources : gmap Z SourceAccounting, (forall id, sources !! id = if decide (id ∈ cands)
    then (fun p => mkSource p (zlen (refs_in id done)) (sum_sizes (refs_in id done))) <$> by_id !! id else None) ->
  sources !! ref_segment_id r = Some (mkSource p (zlen (refs_in (ref_segment_id r) done)) (sum_sizes (refs_in (ref_segment_id r) done))) /\
  forall id, <[ref_segment_id r := mkSource p (u64 (zlen (refs_in (ref_segment_id r) done) + 1))
                 (u64 (sum_sizes (refs_in (ref_segment_id r) done) + ref_size r))]> sources !! id =
    if decide (id ∈ cands)
    then (fun p => mkSource p (zlen (refs_in id (done ++ [(k, r)]))) (sum_sizes (refs_in id (done ++ [(k, r)])))) <$> by_id !! id
    else None.
Proof using Hok.
  intros [Hnd Hin] Hp Hc sources Hs. set (sid := ref_segment_id r) in *. split.
  { by rewrite Hs, decide_True, Hp. }
  destruct (owned_names sid p) as [Hx _]. destruct (Hx Hp) as (Hpo & s & Hsp & Eid). clear Hx.
  destruct (so_seg _ _ _ Hok p Hpo) as (s' & log & Hs' & _ & _ & Hlv). rewrite Hsp in Hs'. injection Hs' as <-.
  pose proof (refs_in_sub sid _ m Hnd Hin) as Hsub. rewrite Eid in Hlv.
  pose proof (live_bounds s log _ (live_rep _ _ _ Hlv) (transitivity Hsub (live_sub _ _ _ Hlv))) as [Hb Hz].
  rewrite refs_in_snoc, decide_True in Hb, Hz by done. rewrite sum_sizes_app, zlen_app in *. cbn [sum_sizes foldr] in *.
  change (zlen [r]) with 1 in *. rewrite Z.add_0_r in *.
  pose proof (zlen_nonneg (refs_in sid done)). unfold kSegmentSizeBytes in *.
  intros id. destruct (decide (sid = id)) as [<-|Hne].
  - rewrite lookup_insert_eq, decide_True, Hp by done. cbn [fmap option_fmap option_map].
    rewrite refs_in_snoc, decide_True by done. rewrite sum_sizes_app, zlen_app. cbn [sum_sizes foldr].
    change (zlen [r]) with 1. rewrite Z.add_0_r. repeat rewrite wrap_small by (width; lia). done.
  - assert (refs_in id (done ++ [(k, r)]) = refs_in id done) as ->.
    { rewrite refs_in_snoc, decide_False by done. apply app_nil_r. }
    by rewrite lookup_insert_ne, Hs by done.
Qed.

Lemma on_local_runs {T A} (f : Method T A) t w ok err : runs (f t) ok err ->
  runs (on_local f t w) (fun r w' => w' = w /\ ok r.1 r.2) (fun e w' => w' = w /\ exists t', err e t').
Proof. unfold on_local. destruct (f t) as [[a|e|x] t']; cbn; eauto. Qed.

Lemma key_facts k r : m !! k = Some r -> bytes_ok k /\ zlen k < kInlineKeyMask.
Proof using Hok Hix.
  intros Hk. destruct (entry_facts k r Hk) as (input & ? & ? & ? & ? & _ & _ & _ & _ & (_ & <- & _) & [Hi He] & _).
  split; [apply Hi|]. pose proof (encodable_bounds _ He). unfold kMaxNormalRecordSize, kInlineKeyMask in *. lia.
Qed.

(** An entry of a segment that stays. *)
Lemma rebuild_kept done w b nlogs n k r : built done w b nlogs n -> k ∉ done.*1 -> m !! k = Some r -> ref_segment_id r ∉ cands ->
  runs (rebuild_entry debug (prepare wid) by_id (Some wid) now_ns b k r w)
    (fun b' w' => exists nlogs' n', built (done ++ [(k, r)]) w' b' nlogs' n')
    (fun e w' => e = arithmetic_overflow /\ extends w0 w').
Proof using Hok Hix.
  intros Hb Hn Hk Hc. destruct (entry_facts k r Hk) as (input & p & s & pre & post & _ & _ & _ & _ & _ & _ & Hp & Hlt & _).
  destruct (key_facts k r Hk) as [Hkb Hkl]. unfold rebuild_entry. rewrite Hp, (bu_sources _ _ _ _ _ Hb), decide_False by done.
  eapply runs_bindM_err; [apply on_local_runs, (insert_key_spec routing seed _ n k r (bu_table _ _ _ _ _ Hb) Hkb Hkl)|..].
  2:{ intros e w' [-> [t' ->]]. split; [done|apply Hb]. }
  intros [a t'] w' [-> Ht]. exists nlogs, (<[k := r]> n). cbn [snd] in *.
  assert (Hsame : forall k', k' <> k -> <[k := r]> n !! k' = n !! k') by (intros; by apply lookup_insert_ne).
  assert (Hnone : n !! k = None) by by apply (bu_rest _ _ _ _ _ Hb). split; cbn.
  - eapply repl_live_ext; [|apply Hb]. intros id Hid. cbn. rewrite live_in_insert, decide_False by (done || lia). done.
  - done.
  - intros id. rewrite (bu_sources _ _ _ _ _ Hb). destruct (decide (id ∈ cands)); [|done].
    rewrite refs_in_snoc, decide_False, app_nil_r by by intros <-. done.
  - eapply done_snoc; [done|apply Hb|apply grown_refl|done|]. unfold moved. rewrite decide_False by done. apply lookup_insert_eq.
  - eapply rest_snoc; [apply Hb|done].
Qed.

(** An entry of a source whose record has expired. *)
Lemma built_dropped done w b nlogs n k r input stats sources : built done w b nlogs n -> k ∉ done.*1 ->
  ref_segment_id r ∈ cands -> holds k r input -> expired (view_of input) now_ns = true ->
  (forall id, sources !! id = if decide (id ∈ cands)
    then (fun p => mkSource p (zlen (refs_in id (done ++ [(k, r)]))) (sum_sizes (refs_in id (done ++ [(k, r)])))) <$> by_id !! id
    else None) ->
  built (done ++ [(k, r)]) w (with_accounting b sources stats) nlogs n.
Proof.
  intros Hb Hn Hc Hp Hx Hs. split; cbn; try apply Hb; [done|..].
  - eapply done_snoc; [done|apply Hb|apply grown_refl|done|]. unfold moved. rewrite decide_True by done.
    exists input. split; [done|]. rewrite Hx. by apply Hb.
  - eapply rest_snoc; [apply Hb|done].
Qed.

(** An entry of a source whose record was copied and marked live. *)
Lemma built_copied done w b nlogs n k r input w1 b1 ref b2 : built done w b nlogs n -> k ∉ done.*1 ->
  ref_segment_id r ∈ cands -> holds k r input -> expired (view_of input) now_ns = false ->
  rb_segments b1 = rb_segments b ->
  copied w0 wid w b1 nlogs (fun id => live_in id n) input b2 ref w1 ->
  (forall id, rb_sources b2 !! id = if decide (id ∈ cands)
    then (fun p => mkSource p (zlen (refs_in id (done ++ [(k, r)]))) (sum_sizes (refs_in id (done ++ [(k, r)])))) <$> by_id !! id
    else None) ->
  exists p, last (rb_segments b2) = Some p /\
    exists w2, call_unit p (fun s => mark_live s ref) w1 = (Ok tt, w2) /\ extends w0 w2 /\
      forall stats t, table_ok routing seed t (<[k := ref]> n) -> exists nlogs' n', built (done ++ [(k, r)]) w2 (with_accounting (with_new_index b2 t) (rb_sources b2) stats) nlogs' n'.
Proof.
  intros Hb Hn Hc Hp Hx Esegs (nlogs1 & p & s & log & Hr & Hlast & Hs & -> & Hsub & Hg & _ & _ & _) Hsrc.
  exists p. split; [done|]. assert (Hnone : n !! k = None) by by apply (bu_rest _ _ _ _ _ Hb).
  destruct (mark_live_ok s _ _ (ref_after s log input) (rs_live _ _ _ _ _ _ _ _ Hs)) as (s' & E & Hlv & Ei & Eg & Es & Eo).
  { rewrite log_refs_snoc. rewrite Permutation_app_comm. by apply submseteq_skip. }
  pose proof (rs_heap _ _ _ _ _ _ _ _ Hs) as Hh. rewrite (call_unit_in _ _ _ _ _ Hh E). eexists. split; [done|].
  destruct (last_state _ _ _ _ _ _ _ Hr Hlast) as (sx & logx & Hsx & Hst). rewrite (rs_heap _ _ _ _ _ _ _ _ Hsx) in Hh. injection Hh as ->.
  pose proof (rs_log _ _ _ _ _ _ _ _ Hs) as Hl. assert (Hid : <[p := log ++ [input]]> nlogs1 = nlogs1) by by apply insert_id.
  set (ref := ref_after s log input) in *.
  assert (Hr' : repl_ok w0 wid (with_heap w1 (<[p := s']> (heap w1))) (rb_segments b2) true nlogs1 (fun id => live_in id (<[k := ref]> n))).
  { rewrite <- Hid. eapply repl_update; [exact Hr|done|exact Hs|done|done|done|by rewrite Es| |].
    - rewrite live_in_insert, decide_True by done. done.
    - intros id Hne. cbn. by rewrite live_in_insert, decide_False by (done || congruence). }
  split; [apply Hr'|]. intros stats t Ht. exists nlogs1, (<[k := ref]> n).
  assert (Hsame : forall k', k' <> k -> <[k := ref]> n !! k' = n !! k') by (intros; by apply lookup_insert_ne).
  assert (Hg' : grown w (rb_segments b) nlogs (with_heap w1 (<[p := s']> (heap w1))) (rb_segments b2) nlogs1).
  { rewrite <- Esegs. eapply grown_trans; [exact Hg|].
    pose proof (grown_update w1 (rb_segments b2) nlogs1 p s s' _ [] (rs_heap _ _ _ _ _ _ _ _ Hs) Hl Ei Eg) as Hu.
    by rewrite app_nil_r, Hid in Hu. }
  split; cbn; [|done..| |].
  - rewrite bool_decide_eq_true_2; [done|]. intros E0. by rewrite E0 in Hlast.
  - eapply done_snoc; [done|apply Hb|done|done|]. unfold moved. rewrite decide_True by done. exists input.
    split; [done|]. rewrite Hx. exists ref. split; [apply lookup_insert_eq|].
    exists p, s', log, []. split_and!; [|cbn; apply lookup_insert_eq|done|unfold ref, ref_after; by rewrite Ei, Eg].
    rewrite last_lookup in Hlast. by eapply list_elem_of_lookup_2.
  - eapply rest_snoc; [apply Hb|done].
Qed.

(** An entry of a source. *)
Lemma rebuild_moved done w b nlogs n k r : built done w b nlogs n -> done_ok done -> k ∉ done.*1 -> m !! k = Some r ->
  ref_segment_id r ∈ cands ->
  runs (rebuild_entry debug (prepare wid) by_id (Some wid) now_ns b k r w)
    (fun b' w' => exists nlogs' n', built (done ++ [(k, r)]) w' b' nlogs' n')
    (fun e w' => e = arithmetic_overflow /\ extends w0 w').
Proof using Hok Hix.
  intros Hb Hd Hn Hk Hc.
  destruct (entry_facts k r Hk) as (input & p & s & pre & post & Hpo & Hs & Hl & Er & Hpt & Hin & Hp & Hlt & Hptr & Hread).
  pose proof (ro_ext _ _ _ _ _ _ _ (bu_repl _ _ _ _ _ Hb)) as Hext.
  destruct (sources_snoc done k r p (done_ok_snoc _ _ _ Hd Hn Hk) Hp Hc _ (bu_sources _ _ _ _ _ Hb)) as [Hsrc Hsrc'].
  unfold rebuild_entry. rewrite Hp, Hsrc. assert (Hs' : heap w !! p = Some s) by by rewrite (ex_heap _ _ Hext).
  rewrite (bindM_Ok _ _ _ _ _ (deref_in _ _ _ Hs')), Hread. steps. cbn [src_segment src_records src_bytes].
  set (sources := <[ref_segment_id r := _]> (rb_sources b)) in *. set (b1 := with_accounting b sources _).
  destruct (expired (view_of input) now_ns) eqn:Hx.
  { exists nlogs, n. by apply (built_dropped done w b nlogs n k r input _ sources). }
  assert (mkRecordInput (rv_sequence (view_of input)) (rv_opcode (view_of input)) (rv_type (view_of input))
    (rv_flags (view_of input)) (rv_key_hash (view_of input)) (rv_expire_at_ns (view_of input)) (rv_key (view_of input))
    (rv_value (view_of input)) = input) as -> by by destruct input.
  eapply runs_bindM; [apply (append_copy_spec w0 wid by_id by_id_bound w b1 nlogs (fun id => live_in id n) input Hin)|].
  { apply Hb. }
  { intros id Hid. destruct (live_in id n) as [|x y] eqn:E; [done|].
    assert (x ∈ live_in id n) as [Hxid [kx Hkx]]%elem_of_live_in by (rewrite E; left).
    pose proof (built_bound _ _ _ _ _ _ _ (proj2 Hd) Hb Hkx). lia. }
  intros [b2 ref] w1 Hcp. cbn [fst snd] in *. pose proof Hcp as (_ & _ & _ & _ & _ & _ & _ & _ & _ & _ & Eix & Esr & _).
  destruct (built_copied done w b nlogs n k r input w1 b1 ref b2 Hb Hn Hc Hpt Hx eq_refl Hcp) as (q & Hlast & w2 & E2 & Hext2 & Hbuilt).
  { by rewrite Esr. }
  rewrite (bindM_Ok _ _ _ _ _ (back_last _ _ _ Hlast)), (bindM_Ok _ _ _ _ _ E2). destruct (key_facts k r Hk) as [Hkb Hkl].
  rewrite Eix. eapply runs_bindM_err; [apply on_local_runs, (insert_key_spec routing seed _ n k ref (bu_table _ _ _ _ _ Hb) Hkb Hkl)|..].
  - intros [a t'] w' [-> Ht]. cbn [snd] in *. by apply Hbuilt.
  - by intros e w' [-> [t' ->]].
Qed.

Lemma rebuild_entries_spec todo : forall done w b nlogs n, built done w b nlogs n -> done_ok (done ++ todo) ->
  runs (rebuild_entries debug (prepare wid) by_id (Some wid) now_ns b todo w)
    (fun b' w' => exists nlogs' n', built (done ++ todo) w' b' nlogs' n')
    (fun e w' => e = arithmetic_overflow /\ extends w0 w').
Proof using Hok Hix.
  induction todo as [|[k r] todo IH]; intros done w b nlogs n Hb Hd; cbn [rebuild_entries].
  { exists nlogs, n. by rewrite app_nil_r. }
  assert (Hk : m !! k = Some r) by (apply (proj2 Hd), elem_of_app; right; left).
  assert (Hn : k ∉ done.*1).
  { destruct Hd as [Hnd _]. rewrite fmap_app in Hnd. apply NoDup_app in Hnd as (_ & Hx & _). intros Hin.
    apply (Hx k Hin). by left. }
  assert (Hd0 : done_ok done).
  { destruct Hd as [Hnd Hin]. rewrite fmap_app in Hnd. apply NoDup_app in Hnd as [Hnd _]. split; [done|].
    intros k' r' H. apply Hin, elem_of_app. by left. }
  replace (done ++ (k, r) :: todo) with ((done ++ [(k, r)]) ++ todo) in * by by rewrite <- app_assoc.
  eapply runs_bindM with (ok' := fun b' w' => exists nlogs' n', built (done ++ [(k, r)]) w' b' nlogs' n');
    [|intros b' w' (nlogs' & n' & Hb'); by eapply IH].
  destruct (decide (ref_segment_id r ∈ cands)); [by eapply rebuild_moved|by eapply rebuild_kept].
Qed.

Lemma check_accounting_spec w srcs : (forall id src, (id, src) ∈ srcs -> exists s, heap w !! src_segment src = Some s /\
    src_records src = live_records (seg_stats s) /\ src_bytes src = live_bytes (seg_stats s)) ->
  check_accounting srcs w = (Ok tt, w).
Proof.
  induction srcs as [|[id src] srcs IH]; intros H; cbn [check_accounting]; [done|].
  destruct (H id src) as (s & Hs & E1 & E2); [by left|]. rewrite (bindM_Ok _ _ _ _ _ (deref_in _ _ _ Hs)).
  rewrite E1, E2, !Z.eqb_refl. cbn [negb orb]. apply IH. intros id' src' Hin. apply (H id'). by right.
Qed.

(** Every source was counted exactly as its segment counts its live records. *)
Lemma built_accounting done w b nlogs n : built done w b nlogs n -> done ≡ₚ map_to_list m ->
  check_accounting (map_to_list (rb_sources b)) w = (Ok tt, w).
Proof using Hok.
  intros Hb Hperm. apply check_accounting_spec. intros id src Hin%elem_of_map_to_list.
  rewrite (bu_sources _ _ _ _ _ Hb) in Hin. destruct (decide (id ∈ cands)); [|done].
  destruct (by_id !! id) as [p|] eqn:Ep; [|done]. cbn in Hin. simplify_eq. cbn [src_segment src_records src_bytes].
  apply owned_names in Ep as (Hp & s & Hs & <-). destruct (so_seg _ _ _ Hok p Hp) as (s' & log & Hs' & _ & _ & Hlv). simplify_eq.
  pose proof (ro_ext _ _ _ _ _ _ _ (bu_repl _ _ _ _ _ Hb)) as Hext. destruct (so_world _ _ _ Hok) as (Hw & _).
  exists s. rewrite (ex_heap _ _ Hext) by by eapply Hw. split; [done|]. rewrite (live_count _ _ _ Hlv), (live_total _ _ _ Hlv).
  assert (E : refs_in (seg_id s) done ≡ₚ live_in (seg_id s) m) by by rewrite live_in_refs, Hperm.
  split; [unfold zlen; by rewrite E|by rewrite E].
Qed.

Lemma seal_active_sealed w l : (forall p, p ∈ l -> exists s, heap w !! p = Some s /\ seg_state s = seg_sealed) ->
  forall k, seal_active (l ++ k) w = seal_active k w.
Proof.
  induction l as [|p l IH]; intros H k; cbn [seal_active app]; [done|].
  destruct (H p) as (s & Hs & Hst); [by left|]. rewrite (bindM_Ok _ _ _ _ _ (deref_in _ _ _ Hs)).
  unfold is_active. rewrite Hst, bool_decide_eq_false_2 by done. steps. apply IH. intros q Hq. apply H. by right.
Qed.

Lemma seal_active_spec w segs nlogs live : repl_ok w0 wid w segs (bool_decide (segs <> [])) nlogs live ->
  exists w', seal_active segs w = (Ok tt, w') /\ repl_ok w0 wid w' segs false nlogs live /\ grown w segs nlogs w' segs nlogs.
Proof.
  intros Hr. destruct (last segs) as [p|] eqn:Hlast.
  - rewrite bool_decide_eq_true_2 in Hr by by intros ->. destruct (seal_last _ _ _ _ _ _ _ Hr Hlast) as (w' & E & Hr' & Hg).
    exists w'. split_and!; [|done..]. apply last_Some in Hlast as [l ->]. rewrite seal_active_sealed.
    + cbn [seal_active]. destruct (last_state _ _ _ _ _ _ _ Hr (last_snoc _ _)) as (s & log & Hs & Hst).
      rewrite (bindM_Ok _ _ _ _ _ (deref_in _ _ _ (rs_heap _ _ _ _ _ _ _ _ Hs))). unfold is_active.
      rewrite Hst, bool_decide_eq_true_2 by done. by rewrite (bindM_Ok _ _ _ _ _ E).
    + intros q [i Hi]%list_elem_of_lookup. pose proof (lookup_lt_Some _ _ _ Hi).
      destruct (ro_seg _ _ _ _ _ _ _ Hr i q) as (s & log & Hs & Hst); [by apply lookup_app_l_Some|].
      rewrite length_app in Hst. cbn [length] in Hst. rewrite decide_False in Hst by lia. exists s. split; [apply Hs|done].
  - apply last_None in Hlast as ->. exists w. split_and!; [done|..|apply grown_refl]. by rewrite bool_decide_eq_false_2 in Hr by by intros [].
Qed.

(** What [rebuild] hands back: sealed replacements and an index in which every
    entry has been kept, moved or dropped because it had expired. *)
Definition rebuilt w (vr : VacuumResult) nlogs n : Prop :=
  repl_ok w0 wid w (vr_segments vr) false nlogs (fun id => live_in id n) /\
  table_ok routing seed (vr_index vr) n /\
  (forall k r, m !! k = Some r -> moved w (vr_segments vr) nlogs n k r) /\
  forall k, m !! k = None -> n !! k = None.

Lemma rebuild_worker_spec : cands <> [] ->
  runs (rebuild debug (w_index (sys_worker sys)) (owned sys) cands (Some (prepare wid)) tt now_ns w0)
    (fun vr w => exists nlogs n, rebuilt w vr nlogs n)
    (fun e w => e = arithmetic_overflow /\ extends w0 w).
Proof using Hok Hix Hcands.
  intros Hne. pose proof (io_table _ _ _ _ _ _ Hix) as Htab. pose proof (extends_refl _ (so_world _ _ _ Hok)) as Hext.
  unfold rebuild. destruct (make_catalog_spec w0 (owned sys) [] ∅ (segs_distinct _ _ _ Hok) (names_nil _)) as (cat & Ec & Hc).
  rewrite (names_unique _ _ _ _ Hc owned_names) in Ec. rewrite (bindM_Ok _ _ _ _ _ Ec).
  destruct (collect_sources_spec w0 (owned sys) by_id wid cands owned_names) with (sources := (∅ : gmap Z SourceAccounting))
    (seen := @nil Z) (owner := @None Z) as (sources & Es & Hs); try done.
  { intros p s Hp Hs. destruct (so_seg _ _ _ Hok p Hp) as (s' & ? & Hs' & _ & Hh & _). simplify_eq. apply Hh. }
  cbn [app] in *. rewrite (bindM_Ok _ _ _ _ _ Es). cbn [fst snd].
  destruct cands as [|c0 cs] eqn:Ecands; [done|]. rewrite <- Ecands in *.
  assert (Hsz : is_u64 (t_size (w_index (sys_worker sys)))).
  { destruct (occupancy_facts _ _ _ _ Htab) as (_ & _ & ? & ? & ? & ? & ?). unfold is_uint. lia. }
  assert (Hempty : table_ok routing seed (clone_empty (w_index (sys_worker sys))) ∅).
  { unfold clone_empty. rewrite (table_routing _ _ _ _ Htab), (table_seed _ _ _ _ Htab). by apply (empty_ok routing seed 3). }
  eapply runs_bindM_err; [apply on_local_runs, (reserve_spec routing seed _ ∅ _ Hempty Hsz)|..].
  2:{ by intros e w' [-> [t' [-> _]]]. }
  intros [[] t] w' [-> [Ht _]]. cbn [fst snd] in *.
  destruct (entries_spec _ _ _ _ Htab) as (l & -> & Hnd & Hl). steps.
  set (b := mkRebuild t [] sources _ tt).
  assert (Hb : built [] w0 b ∅ ∅).
  { split; cbn; try done; [by apply repl_nil|by intros k r ?%not_elem_of_nil]. }
  eapply runs_bindM; [apply (rebuild_entries_spec l [] w0 b ∅ ∅ Hb)|].
  { split; [done|]. intros k r. cbn [app]. rewrite Hl. apply elem_of_map_to_list. }
  intros b' w1 (nlogs & n & Hb'). cbn [app] in Hb'. rewrite (bindM_Ok _ _ _ _ _ (built_accounting _ _ _ _ _ Hb' Hl)).
  destruct (seal_active_spec w1 _ _ _ (bu_repl _ _ _ _ _ Hb')) as (w2 & E2 & Hr2 & Hg2). rewrite (bindM_Ok _ _ _ _ _ E2).
  exists nlogs, n. split_and!; cbn; [done|apply Hb'|..].
  - intros k r Hk. eapply moved_grown; [exact Hg2|done|]. apply (bu_done _ _ _ _ _ Hb'). rewrite Hl. by apply elem_of_map_to_list.
  - intros k Hk. apply (bu_rest _ _ _ _ _ Hb'). rewrite Hl. intros ([k' r] & -> & Hin%elem_of_map_to_list)%list_elem_of_fmap.
    cbn in Hk. congruence.
Qed.

(** ** Swapping the result in *)

(** New segments that nobody refers to change nothing for the worker. *)
Lemma extends_worker w : extends w0 w ->
  segs_ok (mkSys w (sys_worker sys)) logs (fun id => live_in id m) /\
  index_ok routing seed (mkSys w (sys_worker sys)) logs m kv /\ guarantee sys (mkSys w (sys_worker sys)).
Proof using Hok Hix.
  intros Hext. destruct (so_world _ _ _ Hok) as (Hw & Hc & _). pose proof Hext as [].
  assert (Hheap : forall p s, heap w0 !! p = Some s -> heap w !! p = Some s).
  { intros p s Hs. by rewrite ex_heap0 by by eapply Hw. }
  split_and!.
  - split; try apply Hok.
    + intros p Hp. destruct (so_seg _ _ _ Hok p Hp) as (s & log & Hs & Hl & [] & Hlv). exists s, log.
      split_and!; cbn; try done; [by apply Hheap|]. split; cbn; try done; [lia|by rewrite ex_catalog0].
    + intros id p Hp. destruct (so_by_id _ _ _ Hok id p Hp) as (Hin & s & Hs & E). split; [done|]. exists s. split; [by apply Hheap|done].
    + split_and!; cbn; [done| |done]. rewrite ex_catalog0. intros id p Hp. specialize (Hc _ _ Hp). lia.
  - split; [apply Hix|]. eapply (entries_mono sys); [apply Hix|]. intros p s log r Hp Hs Hl _. split; [done|].
    exists s, []. rewrite app_nil_r. split_and!; try done. by apply Hheap.
  - split_and!; cbn; [done|done|lia|]. intros q x Hq Hn. split_and!; [by apply Hheap|done|]. by rewrite ex_catalog0.
Qed.

(** The addresses of the sources. *)
Definition cand_ptr p : Prop := exists id, id ∈ cands /\ by_id !! id = Some p.

(** The live references while the sources are being marked dead. *)
Definition marking (todo : list (list Z * RecordRef)) (id : Z) : list RecordRef :=
  if decide (id ∈ cands) then refs_in id todo else live_in id m.

(** The state of the marking loop: the sources count the entries still to come. *)
Record marked w todo sys' : Prop := {
  mk_segs : segs_ok sys' logs (marking todo);
  mk_worker : sys_worker sys' = sys_worker sys;
  mk_ptr : next_ptr (sys_world sys') = next_ptr w;
  mk_id : next_id (sys_world sys') = next_id w;
  mk_catalog : catalog (sys_world sys') = catalog w;
  mk_heap : forall q, ~ cand_ptr q -> heap (sys_world sys') !! q = heap w !! q;
  mk_dom : forall q, is_Some (heap (sys_world sys') !! q) <-> is_Some (heap w !! q)
}.

Lemma mark_sources_spec w all todo : forall sys' c, marked w todo sys' -> (forall k r, (k, r) ∈ todo -> m !! k = Some r) ->
  exists c' sys'', mark_sources cands all todo c sys' = (Ok c', sys'') /\ marked w [] sys''.
Proof using Hok Hix.
  induction todo as [|[k r] todo IH]; intros sys' c Hm Hin; cbn [mark_sources]; [by eexists _, _|].
  assert (Hk : m !! k = Some r) by (apply Hin; left).
  assert (Hin' : forall k r, (k, r) ∈ todo -> m !! k = Some r) by (intros; apply Hin; by right).
  assert (Hother : forall id, id <> ref_segment_id r -> marking ((k, r) :: todo) id ≡ₚ marking todo id).
  { intros id Hne. unfold marking. destruct (decide (id ∈ cands)); [|done]. unfold refs_in. cbn [fmap list_fmap snd].
    by rewrite filter_cons, decide_False by congruence. }
  unfold is_candidate. case_bool_decide as Hc; cbn [negb].
  2:{ apply IH; [|done]. split; try apply Hm. eapply segs_live_ext; [|apply Hm]. intros id.
      destruct (decide (id = ref_segment_id r)) as [->|]; [unfold marking; by rewrite !decide_False|auto]. }
  destruct (entry_facts k r Hk) as (input & p & s & pre & post & Hp & Hs & Hl & Er & _ & _ & Hby & _).
  unfold find_owned_segment. wsteps. rewrite (mk_worker _ _ _ Hm), Hby.
  assert (Hp' : p ∈ owned sys') by (unfold owned; by rewrite (mk_worker _ _ _ Hm)).
  destruct (so_seg _ _ _ (mk_segs _ _ _ Hm) p Hp') as (s' & log & Hs' & Hl' & Hh' & Hlv).
  assert (Eid : seg_id s' = ref_segment_id r).
  { pose proof (sh_by_id _ _ _ Hh') as B. rewrite (mk_worker _ _ _ Hm) in B. apply owned_names in B as (_ & sx & Hsx & <-).
    rewrite Er. cbn. congruence. }
  destruct (mark_dead_step sys' logs _ p s' log r (refs_in (ref_segment_id r) todo) (mk_segs _ _ _ Hm) Hp' Hs' Hl') as (s2 & E2 & Hsegs2 & _).
  { unfold marking. rewrite Eid, decide_True by done. unfold refs_in. cbn [fmap list_fmap snd].
    by rewrite filter_cons, decide_True by done. }
  erewrite bindM_Ok by (apply on_error_Ok, E2). apply IH; [|done].
  split; cbn; try apply Hm.
  - eapply segs_live_ext; [|exact Hsegs2]. intros id. unfold relive. rewrite Eid. destruct (decide (id = ref_segment_id r)) as [->|Hne].
    + unfold marking. by rewrite decide_True.
    + by apply Hother.
  - intros q Hq. rewrite lookup_insert_ne; [by apply Hm|]. intros <-. apply Hq. by exists (ref_segment_id r).
  - intros q. rewrite lookup_insert_is_Some, <- (mk_dom _ _ _ Hm). destruct (decide (p = q)) as [<-|]; [|naive_solver].
    split; [intros _; by rewrite Hs'|auto].
Qed.

Lemma keep_owned_spec w l : distinct w l -> exists kept, keep_owned cands l w = (Ok kept, w) /\ distinct w kept /\
  forall p, p ∈ kept <-> p ∈ l /\ exists s, heap w !! p = Some s /\ seg_id s ∉ cands.
Proof.
  induction l as [|p l IH]; intros Hd; cbn [keep_owned].
  { exists []. split_and!; [done..|]. intros p. split; [by intros ?%not_elem_of_nil|by intros [?%not_elem_of_nil _]]. }
  destruct (proj1 (proj2 Hd) p) as [s Hs]; [by left|]. destruct IH as (kept & E & Hk & Hin).
  { destruct Hd as (Hnd & Hsome & Hinj). apply NoDup_cons in Hnd as [_ Hnd].
    split_and!; [done|intros; apply Hsome; by right|]. intros q q' sq sq' Hq Hq'. apply Hinj; by right. }
  rewrite (bindM_Ok _ _ _ _ _ (deref_in _ _ _ Hs)), (bindM_Ok _ _ _ _ _ E). unfold is_candidate. eexists. split; [done|].
  assert (Hnp : p ∉ kept) by (intros [Hx _]%Hin; by apply (proj1 (NoDup_cons _ _) (proj1 Hd))).
  case_bool_decide as Hc; split.
  - done.
  - intros q. rewrite Hin, elem_of_cons. split; [naive_solver|]. intros [[->|Hq] (sq & Hsq & Hn)]; [congruence|eauto].
  - destruct Hk as (Hnd & Hsome & Hinj). split_and!; [by apply NoDup_cons|..].
    + intros q [->|Hq]%elem_of_cons; [by rewrite Hs|auto].
    + intros q q' sq sq' Hq Hq'. apply (proj2 (proj2 Hd)).
      * apply elem_of_cons in Hq as [->|Hq]; [by left|]. right. by apply Hin.
      * apply elem_of_cons in Hq' as [->|Hq']; [by left|]. right. by apply Hin.
  - intros q. rewrite !elem_of_cons, Hin. split; [|naive_solver]. intros [->|[Hq Hx]]; [|auto]. split; [by left|]. by exists s.
Qed.

Lemma cand_ptr_old p : cand_ptr p -> p ∈ owned sys /\ (p < next_ptr w0)%positive /\ exists s, heap w0 !! p = Some s /\ seg_id s ∈ cands.
Proof using Hok.
  intros (id & Hid & Hby). apply owned_names in Hby as (Hp & s & Hs & <-). destruct (so_world _ _ _ Hok) as (Hw & _).
  split_and!; [done|by eapply Hw|by exists s].
Qed.

(** The world after the sources were replaced: [c] names the replacements. *)
Record swapped w segs (c : gmap Z Ptr) w' : Prop := {
  sw_ptr : next_ptr w' = next_ptr w;
  sw_id : next_id w' = next_id w;
  sw_names : names w segs c;
  sw_catalog : forall id, catalog w' !! id = if decide (id ∈ cands) then None else (c ∪ catalog w0) !! id;
  sw_heap : forall q, ~ cand_ptr q -> heap w' !! q = heap w !! q;
  sw_dom : forall q, is_Some (heap w' !! q) <-> is_Some (heap w !! q)
}.

(** The sources once all their entries are marked dead. *)
Lemma marked_sources w sys2 id : marked w [] sys2 -> extends w0 w -> id ∈ cands ->
  exists p s, catalog (sys_world sys2) !! id = Some p /\ heap (sys_world sys2) !! p = Some s /\
    seg_state s = seg_sealed /\ live_records (seg_stats s) = 0 /\ seg_owner s = wid /\ by_id !! id = Some p.
Proof using Hok Hcands.
  intros Hm Hext Hid. destruct (proj2 Hcands id Hid) as (p & s0 & Hp & Hs0 & <- & Hst0).
  assert (Hp2 : p ∈ owned sys2) by (unfold owned; by rewrite (mk_worker _ _ _ Hm)).
  destruct (so_seg _ _ _ Hok p Hp) as (s0' & ? & Hs0' & _ & Hh0 & _). simplify_eq.
  destruct (so_seg _ _ _ (mk_segs _ _ _ Hm) p Hp2) as (s & log & Hs & _ & Hh & Hlv).
  pose proof (sh_by_id _ _ _ Hh) as B. pose proof (sh_owner _ _ _ Hh) as Ho. pose proof (sh_state _ _ _ Hh) as St.
  unfold active in St. rewrite (mk_worker _ _ _ Hm) in B, Ho, St. apply owned_names in B as (_ & sx & Hsx & Ex). simplify_eq.
  exists p, s. rewrite (mk_catalog _ _ _ Hm), (ex_catalog _ _ Hext).
  split_and!; try done; [apply Hh0| | |apply owned_names; split; [done|eexists; eauto]].
  - rewrite St. pose proof (sh_state _ _ _ Hh0) as St0. rewrite Hst0 in St0. unfold active in St0. by destruct (decide _).
  - rewrite (live_count _ _ _ Hlv). unfold marking. by rewrite <- Ex, decide_True.
Qed.

Lemma replacement_catalog w nlogs live p s log : repl_seg w0 wid w nlogs live p s log -> catalog w0 !! seg_id s = None.
Proof using Hok.
  intros Hs. destruct (catalog w0 !! seg_id s) as [q|] eqn:E; [|done]. destruct (so_world _ _ _ Hok) as (_ & Hcb & _).
  apply Hcb in E. pose proof (rs_id _ _ _ _ _ _ _ _ Hs). lia.
Qed.

Lemma replace_swaps w segs nlogs live sys2 : cands <> [] -> repl_ok w0 wid w segs false nlogs live -> marked w [] sys2 ->
  exists c w', on_world (replace_sealed cands (Some <$> segs)) sys2 = (Ok tt, mkSys w' (sys_worker sys)) /\ swapped w segs c w'.
Proof using Hok Hcands.
  intros Hne Hr Hm. pose proof (ro_ext _ _ _ _ _ _ _ Hr) as Hext. pose proof (mk_catalog _ _ _ Hm) as Hcat2.
  rewrite (ex_catalog _ _ Hext) in Hcat2.
  assert (Hnew : forall p, p ∈ segs -> ~ cand_ptr p).
  { intros p Hp (_ & Hlt & _)%cand_ptr_old. destruct (repl_in _ _ _ _ _ _ _ _ Hr Hp) as (s & log & Hs).
    pose proof (rs_new _ _ _ _ _ _ _ _ Hs). lia. }
  assert (Hheap : forall p, p ∈ segs -> heap (sys_world sys2) !! p = heap w !! p) by (intros; by apply Hm, Hnew).
  assert (Hsrc := fun id => marked_sources w sys2 id Hm Hext).
  assert (Hd2 : distinct (sys_world sys2) segs) by (eapply distinct_ext; [exact Hheap|apply Hr]).
  unfold on_world. rewrite (mk_worker _ _ _ Hm). set (w2 := sys_world sys2) in *.
  unfold replace_sealed. destruct cands as [|c0 cs] eqn:Ec; [done|]. rewrite <- Ec in *. clear Ec c0 cs.
  rewrite (bindM_Ok _ _ _ _ _ (check_sources_spec w2 wid cands None [] ltac:(naive_solver) ltac:(apply Hcands) ltac:(by left) ltac:(done))).
  erewrite bindM_Ok by (apply check_replacements_spec; [|exact Hd2]; intros p [i Hi]%list_elem_of_lookup;
    destruct (ro_seg _ _ _ _ _ _ _ Hr i p Hi) as (s & log & Hs & Hst); exists s;
    rewrite Hheap by (by eapply list_elem_of_lookup_2); rewrite decide_False in Hst by naive_solver; rewrite Hcat2;
    split_and!; [apply Hs|done|apply Hs|by eapply replacement_catalog|apply not_elem_of_nil]).
  destruct (register_all_spec w2 (catalog w2) segs [] ∅ Hd2 (names_nil _)) as (c & E & Hc).
  assert (with_catalog w2 (∅ ∪ catalog w2) = w2) as Ew by (rewrite map_empty_union; by destruct w2). rewrite Ew in E.
  rewrite (bindM_Ok _ _ _ _ _ E). cbn [app] in Hc.
  assert (Hunion : forall id, id ∈ cands -> c !! id = None).
  { intros id Hid. destruct (c !! id) as [q|] eqn:Eq; [|done]. apply Hc in Eq as (Hq & s & Hs & <-).
    destruct (repl_in _ _ _ _ _ _ _ _ Hr Hq) as (s' & log & Hs'). rewrite Hheap, (rs_heap _ _ _ _ _ _ _ _ Hs') in Hs by done. simplify_eq.
    destruct (Hsrc _ Hid) as (p & s0 & Hp & _). rewrite Hcat2, (replacement_catalog _ _ _ _ _ _ Hs') in Hp. done. }
  destruct (retire_all_spec cands (with_catalog w2 (c ∪ catalog w2))) as (w' & E' & Ep & Ei & Ecat & Eh & Edom); [apply Hcands|..].
  { intros id Hid. destruct (Hsrc id Hid) as (p & s & Hp & Hs & _). exists p. cbn. rewrite lookup_union_r by auto. eauto. }
  rewrite E'. exists c, w'. split; [done|]. cbn in *. split; [by rewrite Ep; apply Hm|by rewrite Ei; apply Hm|..].
  - eapply names_ext; [|exact Hc]. intros p Hp. by rewrite Hheap.
  - intros id. by rewrite Ecat, Hcat2.
  - intros q Hq. rewrite Eh; [by apply Hm|]. intros id Hid. destruct (Hsrc id Hid) as (p & s & Hp & _ & _ & _ & _ & Hby).
    rewrite lookup_union_r by auto. rewrite Hp. intros [= ->]. apply Hq. by exists id.
  - intros q. rewrite Edom. apply Hm.
Qed.

(** *** The worker after the swap *)

Section swap.
Context (w w3 : World) (vr : VacuumResult) (nlogs : gmap Ptr (list RecordInput)) (n : index_map) (Hre : rebuilt w vr nlogs n).
Context (kept : list Ptr) (Hkept : distinct w kept)
  (Hin : forall p, p ∈ kept <-> p ∈ owned sys /\ exists s, heap w !! p = Some s /\ seg_id s ∉ cands).
Context (by' c : gmap Z Ptr) (Hby' : names w (kept ++ vr_segments vr) by') (Hsw : swapped w (vr_segments vr) c w3).
Context (Hact : active sys ∈ kept).

Definition sys3 : Sys :=
  mkSys w3 (with_owned (with_index (sys_worker sys) (vr_index vr)) (kept ++ vr_segments vr) by').
Definition logs3 : gmap Ptr (list RecordInput) := filter (fun x => (next_ptr w0 <= x.1)%positive) nlogs ∪ logs.
(** The entries that were not dropped. *)
Definition kv3 : kv_map := filter (fun x => is_Some (n !! x.1)) kv.

Lemma kept_facts p : p ∈ kept -> exists s log, heap w3 !! p = Some s /\ heap w0 !! p = Some s /\ heap w !! p = Some s /\
  logs !! p = Some log /\ logs3 !! p = Some log /\ seg_here sys p s /\ live_ok s log (live_in (seg_id s) m) /\
  seg_id s ∉ cands /\ (p < next_ptr w0)%positive /\ p ∈ owned sys.
Proof using Hok Hre Hin Hsw.
  intros Hp. pose proof Hp as (Hpo & s & Hs & Hn)%Hin. destruct (so_seg _ _ _ Hok p Hpo) as (s0 & log & Hs0 & Hl & Hh & Hlv).
  destruct (so_world _ _ _ Hok) as (Hw & _). pose proof (Hw _ _ Hs0) as Hlt.
  pose proof (ex_heap _ _ (ro_ext _ _ _ _ _ _ _ (proj1 Hre)) p Hlt) as Hx. rewrite Hs, Hs0 in Hx. simplify_eq.
  assert (~ cand_ptr p) as Hnc by (intros (_ & _ & s' & Hs' & ?)%cand_ptr_old; by simplify_eq).
  exists s0, log. split_and!; try done; [by rewrite (sw_heap _ _ _ _ Hsw)|].
  unfold logs3. rewrite lookup_union_r; [done|]. apply map_lookup_filter_None. right. cbn. lia.
Qed.

Lemma new_facts p : p ∈ vr_segments vr -> exists s log, repl_seg w0 wid w nlogs (fun id => live_in id n) p s log /\
  heap w3 !! p = Some s /\ logs3 !! p = Some log /\ seg_state s = seg_sealed.
Proof using Hok Hre Hsw.
  intros [i Hi]%list_elem_of_lookup. destruct (ro_seg _ _ _ _ _ _ _ (proj1 Hre) i p Hi) as (s & log & Hs & Hst).
  rewrite decide_False in Hst by by intros [_ ?]. pose proof (rs_new _ _ _ _ _ _ _ _ Hs) as Hge. exists s, log. split_and!; try done.
  - rewrite (sw_heap _ _ _ _ Hsw); [apply Hs|]. intros (_ & Hlt & _)%cand_ptr_old. lia.
  - unfold logs3. apply lookup_union_Some_l, map_lookup_filter_Some. split; [apply Hs|done].
Qed.

(** References into the segments that stay are the old ones. *)
Lemma kept_live p s : p ∈ kept -> heap w0 !! p = Some s -> live_in (seg_id s) n ≡ₚ live_in (seg_id s) m.
Proof using Hok Hix Hre Hin Hsw.
  intros Hp Hs. destruct (kept_facts p Hp) as (s' & log & _ & Hs' & _ & _ & _ & Hh & _ & Hn & _). simplify_eq.
  pose proof (sh_below _ _ _ Hh) as Hlt. destruct Hre as (Hr & _ & Hmoved & Hnone).
  apply live_in_ext. intros k r Hid. split.
  - intros Hk. destruct (m !! k) as [r0|] eqn:E; [|by rewrite Hnone in Hk]. specialize (Hmoved k r0 E). unfold moved in Hmoved.
    destruct (decide _); [|congruence]. destruct Hmoved as (input & _ & Hx). destruct (expired _ _); [congruence|].
    destruct Hx as (r' & Hr' & q & sq & pre & post & Hq & Hsq & _ & Er). rewrite Hk in Hr'. injection Hr' as <-.
    destruct (repl_in _ _ _ _ _ _ _ _ Hr Hq) as (s2 & log2 & Hs2). rewrite (rs_heap _ _ _ _ _ _ _ _ Hs2) in Hsq. injection Hsq as <-.
    pose proof (rs_id _ _ _ _ _ _ _ _ Hs2). rewrite Er in Hid. cbn in Hid. lia.
  - intros Hk. specialize (Hmoved k r Hk). unfold moved in Hmoved. by rewrite decide_False in Hmoved by congruence.
Qed.

Lemma sys3_catalog id p : p ∈ kept ++ vr_segments vr -> named w p id -> id ∉ cands -> catalog w0 !! id = Some p \/ p ∈ vr_segments vr ->
  catalog w3 !! id = Some p.
Proof using Hok Hre Hin Hsw.
  intros Hp Hnm Hn Hor. rewrite (sw_catalog _ _ _ _ Hsw), decide_False by done.
  destruct (c !! id) as [q|] eqn:Ec.
  - assert (q = p) as ->.
    { apply (sw_names _ _ _ _ Hsw) in Ec as (Hq & s & Hs & Es). destruct Hnm as (s' & Hs' & Es').
      destruct (new_facts q Hq) as (sq & ? & Hrq & _). destruct Hor as [Hc|Hp'].
      - rewrite (rs_heap _ _ _ _ _ _ _ _ Hrq) in Hs. injection Hs as <-.
        by rewrite <- Es, (replacement_catalog _ _ _ _ _ _ Hrq) in Hc.
      - apply (proj2 (proj2 (ro_distinct _ _ _ _ _ _ _ (proj1 Hre))) q p s s'); congruence. }
    by apply lookup_union_Some_l.
  - rewrite lookup_union_r by done. destruct Hor as [Hc|Hp']; [done|].
    assert (c !! id = Some p) by (apply (sw_names _ _ _ _ Hsw); done). congruence.
Qed.

Lemma sys3_world : world_ok w3.
Proof using Hok Hre Hsw.
  pose proof Hre as (Hr & _). pose proof (ro_ext _ _ _ _ _ _ _ Hr) as Hext. destruct (so_world _ _ _ Hok) as (_ & Hcb & _).
  split_and!; rewrite ?(sw_ptr _ _ _ _ Hsw), ?(sw_id _ _ _ _ Hsw); [..|apply Hext].
  - intros p s Hs. destruct (proj1 (sw_dom _ _ _ _ Hsw p)) as [s' Hs']; [by eexists|]. by eapply (ex_fresh _ _ Hext).
  - intros id p Hc. rewrite (sw_catalog _ _ _ _ Hsw) in Hc. destruct (decide _); [done|]. pose proof (ex_id _ _ Hext).
    apply lookup_union_Some_raw in Hc as [Hc|[_ Hc]]; [|specialize (Hcb _ _ Hc); lia].
    apply (sw_names _ _ _ _ Hsw) in Hc as (Hp & s & Hs & <-). destruct (new_facts p Hp) as (s' & ? & H1 & _).
    rewrite (rs_heap _ _ _ _ _ _ _ _ H1) in Hs. injection Hs as <-. apply (rs_id _ _ _ _ _ _ _ _ H1).
Qed.

(** The entries of the new index name the records of the old ones. *)
Lemma sys3_index : index_ok routing seed sys3 logs3 n kv3.
Proof using Hok Hix Hre Hin Hsw.
  pose proof Hre as (Hr & Ht & Hmoved & Hnone). split; [done|]. intros k. unfold entry_ok.
  assert (Hkv3 : is_Some (n !! k) -> kv3 !! k = kv !! k).
  { intros Hn. unfold kv3. destruct (kv !! k) as [v|] eqn:E; [by apply map_lookup_filter_Some|]. apply map_lookup_filter_None. by left. }
  destruct (n !! k) as [r|] eqn:En.
  2:{ unfold kv3. apply map_lookup_filter_None. right. intros v _ [? Hn]. cbn in Hn. congruence. }
  rewrite Hkv3 by done. destruct (m !! k) as [r0|] eqn:Em; [|by rewrite Hnone in En].
  specialize (Hmoved k r0 Em). unfold moved in Hmoved. destruct (decide _) as [Hc|Hc].
  - destruct Hmoved as (input & (_ & Hkey) & Hx). destruct (expired _ _); [congruence|].
    destruct Hx as (r' & Hr' & p & s & pre & post & Hp & Hs & Hl & ->). rewrite En in Hr'. injection Hr' as ->.
    exists input. split; [|done]. destruct (new_facts p Hp) as (s' & log & H1 & H3 & Hl3 & _).
    rewrite (rs_heap _ _ _ _ _ _ _ _ H1) in Hs. injection Hs as ->. rewrite (rs_log _ _ _ _ _ _ _ _ H1) in Hl. injection Hl as ->.
    exists p, s, pre, post. split_and!; try done. cbn. apply elem_of_app. by right.
  - rewrite En in Hmoved. injection Hmoved as ->. destruct (entry_facts k r0 Em) as (input & p & s & pre & post & Hp & Hs & Hl & Er & (_ & Hkey) & _).
    exists input. split; [|done]. assert (Hk : p ∈ kept).
    { apply Hin. split; [done|]. exists s. destruct (so_world _ _ _ Hok) as (Hw & _).
      rewrite (ex_heap _ _ (ro_ext _ _ _ _ _ _ _ Hr)) by by eapply Hw. split; [done|]. by rewrite Er in Hc. }
    destruct (kept_facts p Hk) as (s' & log & H3 & Hs' & _ & Hl' & Hl3 & _). simplify_eq.
    exists p, s, pre, post. split_and!; try done. cbn. apply elem_of_app. by left.
Qed.

Lemma sys3_guarantee : guarantee sys sys3.
Proof using Hok Hre Hin Hsw Hcands.
  pose proof Hre as (Hr & _). pose proof (ro_ext _ _ _ _ _ _ _ Hr) as Hext. destruct (so_world _ _ _ Hok) as (Hw & Hcb & _).
  split_and!; cbn; [done|rewrite (sw_ptr _ _ _ _ Hsw); apply Hext|rewrite (sw_id _ _ _ _ Hsw); apply Hext|].
  intros q x Hq Hn. pose proof (Hw _ _ Hq) as Hlt.
  assert (Hnc : ~ cand_ptr q) by by intros [? _]%cand_ptr_old. split_and!.
  - by rewrite (sw_heap _ _ _ _ Hsw), (ex_heap _ _ Hext).
  - intros [Hk|Hk]%elem_of_app; [by apply Hin in Hk as [? _]|]. destruct (new_facts q Hk) as (? & ? & H1 & _).
    pose proof (rs_new _ _ _ _ _ _ _ _ H1). lia.
  - intros id Hc. rewrite (sw_catalog _ _ _ _ Hsw). rewrite decide_False.
    + rewrite lookup_union_r; [done|]. destruct (c !! id) as [p|] eqn:Ec; [|done].
      apply (sw_names _ _ _ _ Hsw) in Ec as (Hp & s & Hs & <-). destruct (new_facts p Hp) as (s' & ? & H1 & _).
      rewrite (rs_heap _ _ _ _ _ _ _ _ H1) in Hs. injection Hs as <-. by rewrite (replacement_catalog _ _ _ _ _ _ H1) in Hc.
    + intros Hid. destruct (proj2 Hcands _ Hid) as (p & s & Hp & Hs & <- & _).
      destruct (so_seg _ _ _ Hok p Hp) as (s' & ? & Hs' & _ & Hh & _). simplify_eq. rewrite (sh_catalog _ _ _ Hh) in Hc. by simplify_eq.
Qed.

Lemma sys3_kept k v e : kv !! k = Some (v, e) -> kv3 !! k = Some (v, e) \/
  kv3 !! k = None /\ e <> 0 /\ now_ns <> 0 /\ e <= now_ns.
Proof using Hix Hre.
  intros Hkv. destruct Hre as (_ & _ & Hmoved & _). unfold kv3. destruct (decide (is_Some (n !! k))) as [Hn|Hn].
  { left. by apply map_lookup_filter_Some. }
  right. split; [apply map_lookup_filter_None; right; intros v' _; done|].
  pose proof (io_entries _ _ _ _ _ _ Hix k) as He. unfold entry_ok in He. destruct (m !! k) as [r|] eqn:Em; [|congruence].
  specialize (Hmoved k r Em). unfold moved in Hmoved. destruct (decide _); [|by rewrite Hmoved in Hn; destruct Hn].
  destruct Hmoved as (input & (_ & _ & _ & Hkv') & Hx). destruct (expired (view_of input) now_ns) eqn:Ex.
  - rewrite Hkv in Hkv'. simplify_eq. unfold expired in Ex. cbn in Ex. lia.
  - destruct Hx as (r' & Hr' & _). rewrite Hr' in Hn. by destruct Hn.
Qed.

Lemma sys3_segs : segs_ok sys3 logs3 (fun id => live_in id n).
Proof using Hok Hix Hre Hkept Hin Hby' Hsw Hact Hcands.
  pose proof Hre as (Hr & _). pose proof (ro_ext _ _ _ _ _ _ _ Hr) as Hext. destruct (so_world _ _ _ Hok) as (Hw & Hcb & _).
  assert (Hids : forall p s, p ∈ kept ++ vr_segments vr -> heap w3 !! p = Some s -> named w p (seg_id s)).
  { intros p s [Hp|Hp]%elem_of_app Hs.
    - destruct (kept_facts p Hp) as (s' & ? & H3 & _ & H1 & _). exists s'. split; congruence.
    - destruct (new_facts p Hp) as (s' & ? & H1 & H3 & _). exists s'. pose proof (rs_heap _ _ _ _ _ _ _ _ H1). split; congruence. }
  split; cbn.
  - apply NoDup_app. split_and!; [apply Hkept| |apply Hr]. intros p Hp Hq.
    destruct (kept_facts p Hp) as (? & ? & _ & _ & _ & _ & _ & _ & _ & _ & Hlt & _). destruct (new_facts p Hq) as (? & ? & H1 & _).
    pose proof (rs_new _ _ _ _ _ _ _ _ H1). lia.
  - apply elem_of_app. by left.
  - intros p Hpp. pose proof Hpp as [Hp|Hp]%elem_of_app.
    + destruct (kept_facts p Hp) as (s & log & H3 & Hs0 & H1 & Hl & Hl3 & Hh & Hlv & Hn & Hlt & Hpo). exists s, log. split_and!; try done.
      * destruct Hh. pose proof (ex_id _ _ Hext). split; cbn; try done; [rewrite (sw_id _ _ _ _ Hsw); lia|..].
        -- eapply sys3_catalog; [exact Hpp|by apply Hids|done|by left].
        -- apply Hby'. split; [done|by apply Hids].
      * by rewrite (kept_live p s Hp Hs0).
    + destruct (new_facts p Hp) as (s & log & Hs & H3 & Hl3 & Hst). exists s, log. pose proof Hs as []. pose proof (ex_u64 _ _ Hext) as Hu.
      pose proof (ex_id _ _ Hext). destruct (so_world _ _ _ Hok) as (_ & _ & Hu0).
      split_and!; try done. split; cbn; try done; [width; lia|rewrite (sw_id _ _ _ _ Hsw); lia|..].
      * eapply sys3_catalog; [exact Hpp|by apply Hids| |by right]. intros Hc. destruct (proj2 Hcands _ Hc) as (q & sq & Hq & Hsq & Eq & _).
        destruct (so_seg _ _ _ Hok q Hq) as (sq' & ? & Hsq' & _ & Hhq & _). simplify_eq. pose proof (sh_below _ _ _ Hhq). lia.
      * apply Hby'. split; [done|by apply Hids].
      * rewrite decide_False; [done|]. unfold active. cbn. intros ->.
        destruct (kept_facts _ Hact) as (? & ? & _ & _ & _ & _ & _ & _ & _ & _ & Hlt & _). unfold active in Hlt. lia.
  - intros id p (Hp & s & Hs & <-)%Hby'. split; [done|]. apply elem_of_app in Hp as [Hp|Hp].
    + destruct (kept_facts p Hp) as (s' & ? & H3 & _ & H1 & _). exists s'. split; congruence.
    + destruct (new_facts p Hp) as (s' & ? & H1 & H3 & _). exists s'. pose proof (rs_heap _ _ _ _ _ _ _ _ H1). split; congruence.
  - by apply sys3_world.
  - apply Hok.
Qed.
End swap.

Lemma active_not_candidate s : heap w0 !! active sys = Some s -> seg_id s ∉ cands.
Proof using Hok Hcands.
  intros Hs Hc. destruct (proj2 Hcands _ Hc) as (q & sq & Hq & Hsq & Eq & Hst).
  destruct (so_seg _ _ _ Hok _ (so_active _ _ _ Hok)) as (sa & ? & Hsa & _ & Hh & _). simplify_eq.
  assert (q = active sys) as -> by (eapply owned_id_inj; [exact Hok|done|apply Hok|done..]). simplify_eq.
  pose proof (sh_state _ _ _ Hh) as St. rewrite decide_True in St by done. congruence.
Qed.

Lemma kept_new_distinct w vr nlogs n kept : rebuilt w vr nlogs n -> distinct w kept ->
  (forall p, p ∈ kept -> p ∈ owned sys) -> distinct w (kept ++ vr_segments vr).
Proof using Hok.
  intros Hre Hkept Hin. apply distinct_two; [done|apply Hre|]. intros p q s s' Hp%Hin Hq Hs Hs'.
  destruct (repl_in _ _ _ _ _ _ _ _ (proj1 Hre) Hq) as (s2 & ? & Hs2). rewrite (rs_heap _ _ _ _ _ _ _ _ Hs2) in Hs'. injection Hs' as <-.
  pose proof (rs_id _ _ _ _ _ _ _ _ Hs2). destruct (so_seg _ _ _ Hok p Hp) as (s0 & ? & Hs0 & _ & Hh & _). pose proof (sh_below _ _ _ Hh).
  destruct (so_world _ _ _ Hok) as (Hw & _). pose proof (ro_ext _ _ _ _ _ _ _ (proj1 Hre)) as Hext.
  rewrite (ex_heap _ _ Hext) in Hs by by eapply Hw. simplify_eq. lia.
Qed.

(** The second half of [compact] cannot fail. *)
Lemma swap_in_spec w vr nlogs n : cands <> [] -> rebuilt w vr nlogs n ->
  exists sys', swap_in (sys_worker sys) cands vr (mkSys w (sys_worker sys)) = (Ok (Some (vr_stats vr)), sys') /\
    worker_ok routing seed sys' (kv3 n) /\ guarantee sys sys'.
Proof using Hok Hix Hcands.
  intros Hne Hre. pose proof (ro_ext _ _ _ _ _ _ _ (proj1 Hre)) as Hext. destruct (extends_worker w Hext) as (Hok1 & Hix1 & Hg1).
  unfold swap_in. fold (owned sys) (active sys).
  destruct (keep_owned_spec w (owned sys) (segs_distinct _ _ _ Hok1)) as (kept & Ek & Hkept & Hin).
  erewrite bindM_Ok by (unfold on_world; cbn [sys_world]; by rewrite Ek). cbn [sys_worker sys_world].
  pose proof (kept_new_distinct w vr nlogs n kept Hre Hkept ltac:(naive_solver)) as Hd2.
  destruct (map_owned_spec w (kept ++ vr_segments vr) [] ∅ Hd2 (names_nil _)) as (by' & Eb & Hby'). cbn [app] in Hby'.
  erewrite bindM_Ok by (unfold on_world; cbn [sys_world]; by rewrite Eb). cbn [sys_worker sys_world].
  destruct (so_seg _ _ _ Hok _ (so_active _ _ _ Hok)) as (sa & ? & Hsa & _). destruct (so_world _ _ _ Hok) as (Hw & _).
  assert (Hsa1 : heap w !! active sys = Some sa) by by rewrite (ex_heap _ _ Hext) by by eapply Hw.
  assert (Hact : active sys ∈ kept).
  { apply Hin. split; [apply Hok|]. exists sa. split; [done|by apply active_not_candidate]. }
  erewrite bindM_Ok by by apply deref_Ok.
  assert (by' !! seg_id sa = Some (active sys)) as ->.
  { apply Hby'. split; [apply elem_of_app; by left|by exists sa]. }
  destruct (entries_spec _ _ _ _ (io_table _ _ _ _ _ _ Hix)) as (l & -> & _ & Hl). steps.
  assert (Hm : marked w l (mkSys w (sys_worker sys))).
  { split; try done. eapply segs_live_ext; [|exact Hok1]. intros id. unfold marking. cbn.
    destruct (decide _); [by rewrite Hl|done]. }
  destruct (mark_sources_spec w l l _ 0 Hm) as (c' & sys2 & E2 & Hm2).
  { intros k r. rewrite Hl. apply elem_of_map_to_list. }
  rewrite (bindM_Ok _ _ _ _ _ E2). destruct (replace_swaps w _ nlogs _ sys2 Hne (proj1 Hre) Hm2) as (c & w3 & E3 & Hsw).
  erewrite bindM_Ok by by apply on_error_Ok. wsteps. eexists. split; [done|].
  split; [exists n, (logs3 nlogs); split|].
  - by apply (sys3_segs w w3 vr nlogs n Hre kept Hkept Hin by' c Hby' Hsw Hact).
  - by apply (sys3_index w w3 vr nlogs n Hre kept Hin by' c Hsw).
  - by apply (sys3_guarantee w w3 vr nlogs n Hre kept Hin by' c Hsw).
Qed.
End compact.

(** ** [compact] *)

(** The entries of [kv] that [kv'] lacks had expired at [now_ns]. *)
Definition only_expired (now_ns : Z) (kv kv' : kv_map) : Prop :=
  forall k v e, kv !! k = Some (v, e) -> kv' !! k = Some (v, e) \/ kv' !! k = None /\ e <> 0 /\ now_ns <> 0 /\ e <= now_ns.

Section compact_spec.
Context (sort : list Candidate -> list Candidate) (Hsort : forall cl, sort cl ≡ₚ cl).
Context (routing : WorkerRoutingState) (seed : Z).

(** What a run of [compact] leaves. *)
Definition compacted sys kv now_ns (st : option VacuumStats) sys' : Prop :=
  exists kv', worker_ok routing seed sys' kv' /\ guarantee sys sys' /\ kv' ⊆ kv /\ only_expired now_ns kv kv' /\
    (st = None -> kv' = kv).

Lemma compacted_same sys kv now_ns sys' : worker_ok routing seed sys' kv -> guarantee sys sys' -> compacted sys kv now_ns None sys'.
Proof. intros H1 H2. exists kv. split_and!; try done. intros k v e Hk. by left. Qed.

Lemma kv3_sub n kv : kv3 kv n ⊆ kv.
Proof. apply map_filter_subseteq. Qed.

Lemma compact_locked_spec sys kv now_ns policy : worker_ok routing seed sys kv ->
  runs (compact_locked sort debug now_ns policy sys) (compacted sys kv now_ns)
    (fun e sys' => e = arithmetic_overflow /\ worker_ok routing seed sys' kv /\ guarantee sys sys').
Proof using Hsort.
  intros (m & logs & Hok & Hix). assert (Hsame : worker_ok routing seed sys kv) by by exists m, logs.
  unfold compact_locked. wsteps. fold (owned sys).
  destruct (candidates_spec sort Hsort (sys_world sys) policy (owned sys) (segs_distinct _ _ _ Hok)) as (cands & Ec & Hcands).
  erewrite bindM_Ok by (unfold on_world; rewrite Ec; by destruct sys).
  destruct cands as [|c0 cs] eqn:Ecs; [by apply compacted_same; [|apply guarantee_refl]|]. rewrite <- Ecs in *.
  assert (Hne : cands <> []) by by rewrite Ecs. clear Ecs c0 cs.
  change (fun _ : () => _) with (prepare (w_id (sys_worker sys))) at 1.
  pose proof (rebuild_worker_spec routing seed sys m kv logs Hok Hix now_ns cands Hcands Hne) as Hre.
  unfold on_world at 1, bindM at 1.
  destruct (rebuild debug (w_index (sys_worker sys)) (owned sys) cands (Some (prepare (w_id (sys_worker sys)))) tt now_ns (sys_world sys))
    as [[vr|e|f] w]; [| |done].
  2:{ destruct Hre as [-> Hext]. destruct (extends_worker routing seed sys m kv logs Hok Hix w Hext) as (? & ? & ?). cbn. split_and!; [done| |done].
      by exists m, logs. }
  destruct Hre as (nlogs & n & Hre). pose proof (ro_ext _ _ _ _ _ _ _ (proj1 Hre)) as Hext.
  destruct (extends_worker routing seed sys m kv logs Hok Hix w Hext) as (Hok1 & Hix1 & Hg1).
  destruct (Z.geb_spec (zlen (vr_segments vr)) (zlen cands)); [apply compacted_same; [by exists m, logs|done]|].
  destruct (swap_in_spec routing seed sys m kv logs Hok Hix now_ns cands Hcands w vr nlogs n Hne Hre) as (sys' & -> & Hok' & Hg').
  exists (kv3 kv n). split_and!; try done; [apply kv3_sub|]. intros k v e Hk. exact (sys3_kept routing seed sys m kv logs Hix now_ns cands w vr nlogs n Hre k v e Hk).
Qed.

End compact_spec.
End builder.

(** ** Properties *)

Lemma with_flags_same (w : Worker) : with_flags w (w_exclusive_writer w) (w_index_quiesce_active w) = w.
Proof. by destruct w. Qed.

(** The guard around [compact] only changes the gate of the worker. *)
Lemma quiesce_runs {A} sys (f : Method Sys A) ok err :
  (forall b, let sys' := mkSys (sys_world sys) (with_flags (sys_worker sys) (w_exclusive_writer (sys_worker sys)) b) in
     runs (f sys') (fun x s => guarantee sys s /\
         forall b, ok x (mkSys (sys_world s) (with_flags (sys_worker s) (w_exclusive_writer (sys_worker s)) b)))
       (fun x s => guarantee sys s /\
         forall b, err x (mkSys (sys_world s) (with_flags (sys_worker s) (w_exclusive_writer (sys_worker s)) b)))) ->
  runs (exclusive_index_quiesce f sys) ok err.
Proof.
  intros H. unfold exclusive_index_quiesce. wsteps. destruct (w_exclusive_writer (sys_worker sys)) eqn:E; wsteps; unfold on_exit.
  - specialize (H true). cbv zeta in H. destruct (f _) as [[x|x|x] s]; cbn in *; [..|done];
      destruct H as [[Hg _] H]; specialize (H false); by rewrite Hg, E in H.
  - specialize (H (w_index_quiesce_active (sys_worker sys))). cbv zeta in H. rewrite <- E in H.
    destruct sys as [w wk]. cbn in *. rewrite with_flags_same in H.
    destruct (f _) as [[x|x|x] s]; cbn in *; [..|done]; destruct H as [_ H];
      specialize (H (w_index_quiesce_active (sys_worker s))); rewrite with_flags_same in H; by destruct s.
Qed.

(** C10. [compact] is invisible to readers.  On a worker that stands for [kv] it
    either changes nothing and answers [None] or a fault, or it leaves a worker
    that stands for [kv] without some entries that had expired at [now_ns]: every
    other entry keeps its value and its expiry, whichever segments the planner
    picks and however [std::ranges::sort] orders equal ratios.  The only fault is
    the exhaustion of segment identities or of the index, and the segments of
    other workers stay as they are. *)
Theorem worker_compact_refines sort debug routing seed sys kv now_ns policy :
  (forall cl, sort cl ≡ₚ cl) -> worker_ok routing seed sys kv ->
  runs (compact sort debug now_ns policy sys)
    (fun st sys' => exists kv', worker_ok routing seed sys' kv' /\ guarantee sys sys' /\ kv' ⊆ kv /\
       (forall k v e, kv !! k = Some (v, e) -> kv' !! k = Some (v, e) \/
          kv' !! k = None /\ e <> 0 /\ now_ns <> 0 /\ e <= now_ns) /\
       (st = None -> kv' = kv))
    (fun e sys' => e = arithmetic_overflow /\ worker_ok routing seed sys' kv /\ guarantee sys sys').
Proof.
  intros Hsort Hok. unfold compact. apply (quiesce_runs sys). intros b sys'.
  eapply runs_weaken; [apply (compact_locked_spec debug sort Hsort routing seed sys' kv now_ns policy (flags_ok _ _ _ _ _ _ Hok))|..].
  - intros st s (kv' & Hok' & Hg & Hrest). split; [exact Hg|]. intros x.
    exists kv'. split; [by apply flags_ok|]. split; [exact Hg|exact Hrest].
  - intros e s (-> & Hok' & Hg). split; [exact Hg|]. intros x. split; [done|]. split; [by apply flags_ok|exact Hg].
Qed.

Lemma worker_compact_refines_witness :
  runs (compact (fun cl => cl) true 20 default_policy expiring_sys)
    (fun st sys' => exists kv', worker_ok sample_routing 5 sys' kv' /\ guarantee expiring_sys sys' /\
       kv' ⊆ <[sample_key := (sample_value, 9)]> ∅ /\
       (forall k v e, (<[sample_key := (sample_value, 9)]> ∅ : kv_map) !! k = Some (v, e) -> kv' !! k = Some (v, e) \/
          kv' !! k = None /\ e <> 0 /\ 20 <> 0 /\ e <= 20) /\
       (st = None -> kv' = <[sample_key := (sample_value, 9)]> ∅))
    (fun e sys' => e = arithmetic_overflow /\ worker_ok sample_routing 5 sys' (<[sample_key := (sample_value, 9)]> ∅) /\
       guarantee expiring_sys sys').
Proof.
  apply (worker_compact_refines (fun cl => cl) true sample_routing 5 expiring_sys (<[sample_key := (sample_value, 9)]> ∅) 20 default_policy);
    [done|apply expiring_sys_ok].
Defined.
