(* ===== verification/QuiesceGate.v ===== *)
(** * The gate of the exclusive writer

    Models the three atomics of a Worker that keep its exclusive writer, which
    changes the index without the mutex, apart from the threads that quiesce the
    index (reads, compaction and verification): ExclusiveHotPathGuard,
    ExclusiveIndexQuiesce, arm_index_quiesce_gate and disarm_index_quiesce_gate of
    include/glifistore/worker/worker.hpp, and the test of the gate in
    put_locked_published and erase_locked_published of src/worker/worker.cpp.

    Every atomic access is one step, and a schedule says which thread goes next.
    With [buffered] a plain atomic store waits in the store buffer of its thread
    until the schedule flushes it, as on x86, where only the read-modify-write
    operations drain the buffer first; without it the machine is sequentially
    consistent. *)

From S2P Require Import Prelude.

(** The exclusive writer: it announces itself, tests the gate, changes the index or
    gives up, and leaves. *)
Inductive writer_pc := w_idle | w_announced | w_inside | w_refused.
(** A quiescing thread: it joins the holders, closes the gate if it is the first,
    waits for the writers, owns the index, and leaves; the last one opens the gate. *)
Inductive holder_pc := h_idle | h_first | h_draining | h_inside | h_last.

#[export] Instance writer_pc_eq_dec : EqDecision writer_pc.
Proof. solve_decision. Defined.
#[export] Instance holder_pc_eq_dec : EqDecision holder_pc.
Proof. solve_decision. Defined.

Record Gate := mkGate {
  hot_path_depth : Z;
  index_quiesce_active : bool;
  index_quiesce_holders : Z;
  writers : list writer_pc;
  (** Each with the store it has not made visible. *)
  holders : list (holder_pc * option bool)
}.

Definition set_writer (g : Gate) (i : nat) (pc : writer_pc) (depth : Z) : Gate :=
  mkGate depth (index_quiesce_active g) (index_quiesce_holders g) (<[i := pc]> (writers g)) (holders g).
Definition set_holder (g : Gate) (j : nat) (pc : holder_pc) (buffer : option bool) (active : bool) (count : Z) : Gate :=
  mkGate (hot_path_depth g) active count (writers g) (<[j := (pc, buffer)]> (holders g)).

(** A step of the writer: [fetch_add], the load of the gate, [fetch_sub]. *)
Definition writer_step (i : nat) (g : Gate) : Gate :=
  match writers g !! i with
  | Some w_idle => set_writer g i w_announced (u32 (hot_path_depth g + 1))
  | Some w_announced =>
      set_writer g i (if index_quiesce_active g then w_refused else w_inside) (hot_path_depth g)
  | Some w_inside | Some w_refused => set_writer g i w_idle (u32 (hot_path_depth g - 1))
  | None => g
  end.

Section machine.
Context (buffered : bool).

(** [index_quiesce_active_.store(v)] and the next step of the holder. *)
Definition store_gate (j : nat) (pc : holder_pc) (v : bool) (g : Gate) : Gate :=
  if buffered then set_holder g j pc (Some v) (index_quiesce_active g) (index_quiesce_holders g)
  else set_holder g j pc None v (index_quiesce_holders g).

(** A step of a holder.  A [fetch_add] or [fetch_sub] first drains its buffer. *)
Definition holder_step (j : nat) (g : Gate) : Gate :=
  match holders g !! j with
  | Some (h_idle, b) =>
      let active := default (index_quiesce_active g) b in
      set_holder g j (if index_quiesce_holders g =? 0 then h_first else h_draining) None active
        (u32 (index_quiesce_holders g + 1))
  | Some (h_first, _) => store_gate j h_draining true g
  | Some (h_draining, b) =>
      if hot_path_depth g =? 0
      then set_holder g j h_inside b (index_quiesce_active g) (index_quiesce_holders g)
      else g
  | Some (h_inside, b) =>
      let active := default (index_quiesce_active g) b in
      set_holder g j (if index_quiesce_holders g =? 1 then h_last else h_idle) None active
        (u32 (index_quiesce_holders g - 1))
  | Some (h_last, _) => store_gate j h_idle false g
  | None => g
  end.

(** The buffered store of a holder reaches the memory. *)
Definition flush_step (j : nat) (g : Gate) : Gate :=
  match holders g !! j with
  | Some (pc, Some v) => set_holder g j pc None v (index_quiesce_holders g)
  | _ => g
  end.

Inductive turn := turn_writer (i : nat) | turn_holder (j : nat) | turn_flush (j : nat).

Definition gate_step (g : Gate) (t : turn) : Gate :=
  match t with
  | turn_writer i => writer_step i g
  | turn_holder j => holder_step j g
  | turn_flush j => flush_step j g
  end.

Definition gate_run (g : Gate) (schedule : list turn) : Gate := foldl gate_step g schedule.
End machine.

(** Threads that have not started. *)
Definition gate_start (n h : nat) : Gate :=
  mkGate 0 false 0 (replicate n w_idle) (replicate h (h_idle, None)).

(** A writer and a quiescing thread both own the index. *)
Definition clash (g : Gate) : bool :=
  existsb (fun pc => bool_decide (pc = w_inside)) (writers g) &&
  existsb (fun h => bool_decide (h.1 = h_inside)) (holders g).

(** ** One quiescing thread *)

Definition announced (pc : writer_pc) : Z := match pc with w_idle => 0 | _ => 1 end.
Fixpoint busy (ws : list writer_pc) : Z :=
  match ws with [] => 0 | pc :: ws => announced pc + busy ws end.

Lemma busy_bounds ws : 0 <= busy ws <= zlen ws.
Proof. induction ws as [|pc ws IH]; cbn; [done|]. rewrite zlen_cons. destruct pc; cbn; lia. Qed.
Lemma busy_insert ws i pc pc' : ws !! i = Some pc -> busy (<[i := pc']> ws) = busy ws - announced pc + announced pc'.
Proof.
  revert i. induction ws as [|x ws IH]; intros [|i] Hi; cbn in Hi; [done..| |].
  - injection Hi as ->. cbn. lia.
  - change (<[S i := pc']> (x :: ws)) with (x :: <[i := pc']> ws). cbn [busy]. rewrite (IH i Hi). lia.
Qed.
Lemma busy_zero ws : busy ws = 0 -> Forall (fun pc => pc = w_idle) ws.
Proof.
  induction ws as [|pc ws IH]; cbn; [constructor|]. pose proof (busy_bounds ws). intros E.
  destruct pc; cbn in E; [constructor; [done|]; apply IH; lia|lia..].
Qed.

(** The gate is closed while the holder drains or owns the index, and then no
    writer is inside. *)
Definition gate_inv (g : Gate) : Prop :=
  zlen (writers g) < 2 ^ 32 /\ hot_path_depth g = busy (writers g) /\
  exists pc, holders g = [(pc, None)] /\
  match pc with
  | h_idle => index_quiesce_active g = false /\ index_quiesce_holders g = 0
  | h_first => index_quiesce_active g = false /\ index_quiesce_holders g = 1
  | h_draining => index_quiesce_active g = true /\ index_quiesce_holders g = 1
  | h_inside => index_quiesce_active g = true /\ index_quiesce_holders g = 1 /\ w_inside ∉ writers g
  | h_last => index_quiesce_active g = true /\ index_quiesce_holders g = 0 /\ w_inside ∉ writers g
  end.

Lemma set_writer_inv g i old pc depth : gate_inv g -> writers g !! i = Some old ->
  depth = hot_path_depth g - announced old + announced pc ->
  (pc = w_inside -> index_quiesce_active g = false) -> gate_inv (set_writer g i pc depth).
Proof.
  intros (Hn & Hd & hpc & Hh & Hinv) Hi -> Hpc. split_and!; cbn.
  - unfold zlen in *. by rewrite length_insert.
  - rewrite (busy_insert _ _ _ _ Hi), Hd. lia.
  - exists hpc. split; [done|].
    assert (Hnot : index_quiesce_active g = true -> w_inside ∉ writers g -> w_inside ∉ <[i := pc]> (writers g)).
    { intros Ha Hw (j & Hj)%list_elem_of_lookup. apply list_lookup_insert_Some in Hj as [(_ & E & _)|[_ Hj]].
      - specialize (Hpc E). congruence.
      - apply Hw. by eapply list_elem_of_lookup_2. }
    destruct hpc; naive_solver.
Qed.

Lemma gate_inv_step g t : gate_inv g -> gate_inv (gate_step false g t).
Proof.
  intros Hg. pose proof Hg as (Hn & Hd & pc & Hh & Hinv). pose proof (busy_bounds (writers g)) as Hb. destruct t as [i|j|j]; cbn.
  - unfold writer_step. destruct (writers g !! i) as [old|] eqn:Hi; [|done].
    pose proof (busy_insert _ _ _ w_idle Hi) as E0. pose proof (busy_insert _ _ _ w_announced Hi) as E1.
    pose proof (busy_bounds (<[i := w_idle]> (writers g))). pose proof (busy_bounds (<[i := w_announced]> (writers g))) as Hb1.
    unfold zlen in Hb1. rewrite length_insert in Hb1. fold (zlen (writers g)) in Hb1.
    destruct old; cbn in E0, E1.
    + eapply set_writer_inv; [done..| |done]. cbn. rewrite wrap_small; [lia|]. width. lia.
    + destruct (index_quiesce_active g) eqn:Ea; (eapply set_writer_inv; [done..| |]); cbn; (lia || done).
    + eapply set_writer_inv; [done..| |done]. cbn. rewrite wrap_small; [lia|]. width. lia.
    + eapply set_writer_inv; [done..| |done]. cbn. rewrite wrap_small; [lia|]. width. lia.
  - unfold holder_step. rewrite Hh. destruct j as [|j]; cbn; [|done].
    destruct pc; cbn in Hinv.
    + destruct Hinv as [Ha ->]. cbn. split_and!; [done..|]. exists h_first. cbn. by rewrite Hh.
    + destruct Hinv as [Ha Hc]. unfold store_gate. split_and!; [done..|]. exists h_draining. cbn. by rewrite Hh.
    + destruct (Z.eqb_spec (hot_path_depth g) 0) as [E|]; [|done]. split_and!; [done..|]. exists h_inside. cbn. rewrite Hh.
      split; [done|]. split_and!; [apply Hinv..|]. intros Hin. rewrite Hd in E. apply busy_zero in E.
      rewrite Forall_forall in E. by specialize (E _ Hin).
    + destruct Hinv as (Ha & -> & Hw). cbn. split_and!; [done..|]. exists h_last. cbn. by rewrite Hh.
    + destruct Hinv as (Ha & Hc & Hw). unfold store_gate. split_and!; [done..|]. exists h_idle. cbn. by rewrite Hh.
  - unfold flush_step. rewrite Hh. by destruct j.
Qed.

Lemma gate_inv_clash g : gate_inv g -> clash g = false.
Proof.
  intros (_ & _ & pc & Hh & Hinv). unfold clash. rewrite Hh. cbn.
  destruct (decide (pc = h_inside)) as [->|Hne]; [|by rewrite (bool_decide_eq_false_2 (pc = h_inside)), andb_false_r].
  destruct Hinv as (_ & _ & Hw). apply andb_false_intro1, not_true_iff_false. intros E.
  apply existsb_exists in E as (pc & Hin & ->%bool_decide_eq_true). apply Hw. by apply list_elem_of_In.
Qed.

(** ** Properties *)

(** C34. With one quiescing thread at a time, on a sequentially consistent machine,
    the gate keeps every writer out while that thread owns the index, for any
    number of writers and under every schedule. *)
Theorem gate_exclusive n schedule : Z.of_nat n < 2 ^ 32 ->
  clash (gate_run false (gate_start n 1) schedule) = false.
Proof.
  intros Hn. apply gate_inv_clash. unfold gate_run.
  assert (Hstart : gate_inv (gate_start n 1)).
  { split_and!; cbn.
    - unfold zlen. by rewrite length_replicate.
    - clear. induction n; cbn; lia.
    - by exists h_idle. }
  revert Hstart. generalize (gate_start n 1). induction schedule as [|t schedule IH]; intros g Hg; cbn; [done|].
  by apply IH, gate_inv_step.
Qed.

Lemma gate_exclusive_witness :
  clash (gate_run false (gate_start 2 1) [turn_holder 0; turn_writer 0; turn_writer 0; turn_holder 0]) = false.
Proof.
  exact (gate_exclusive 2 [turn_holder 0; turn_writer 0; turn_writer 0; turn_holder 0] ltac:(lia)).
Defined.

(** C35. Two quiescing threads break the gate: the one that leaves decides to open
    it, the one that arrives closes it and owns the index, the delayed store then
    opens it, and the writer enters.  The same happens when the second thread goes
    on before the first one has closed the gate.  With store buffers a single
    thread is enough: its load of the depth may come before its store of the gate
    is visible, which the release and acquire orders of the source allow. *)
Theorem gate_lost :
  clash (gate_run false (gate_start 1 2)
    [turn_holder 0; turn_holder 0; turn_holder 0; turn_holder 0;
     turn_holder 1; turn_holder 1; turn_holder 1; turn_holder 0; turn_writer 0; turn_writer 0]) = true /\
  clash (gate_run false (gate_start 1 2)
    [turn_holder 0; turn_holder 1; turn_holder 1; turn_writer 0; turn_writer 0]) = true /\
  clash (gate_run true (gate_start 1 1)
    [turn_holder 0; turn_holder 0; turn_holder 0; turn_writer 0; turn_writer 0]) = true.
Proof. vm_compute. auto. Qed.
