(* ===== verification/Manifest.v ===== *)
(** * Manifests

    Models src/persistence/manifest.cpp and its header: the catalog of a durable
    store, its checksummed encoding, its validation and the choice of the newest of
    several candidates.  The theorems show that validation accepts exactly the
    manifests with one active segment for every worker and strictly increasing
    segment identities, that decoding and encoding are inverse on them, that damage
    is detected, and that the newest candidate is chosen. *)

From Stdlib Require Import Sorted.
From S2P Require Import Prelude Core Crc32c Record SegmentHeader Routing.

Definition kManifestMagic : Z := 0x4D594C47.
Definition kManifestFormatVersion : Z := 1.
Definition kManifestHeaderBytes : Z := 128.
Definition kManifestSegmentEntryBytes : Z := 32.
Definition kMaximumManifestSegmentCount : Z := 1000000.
Definition kMaximumManifestBytes : Z :=
  kManifestHeaderBytes + kMaximumManifestSegmentCount * kManifestSegmentEntryBytes.
Definition kManifestWorkerHashSeedOffset : Z := 84.
Definition kManifestChecksumOffset : Z := 80.
Definition kMaximumWorkerCount : Z := 256.

(** [enum class ManifestSegmentRole : std::uint16_t] holds any 16-bit value. *)
Definition ManifestSegmentRole_active : Z := 1.
Definition ManifestSegmentRole_sealed : Z := 2.

Record ManifestSegmentEntry := mkEntry {
  me_segment_id : Z;
  me_generation : Z;
  me_owner_worker : Z;
  me_role : Z
}.

Record Manifest := mkManifest {
  m_store_id : list Z;
  m_manifest_generation : Z;
  m_routing_algorithm : Z;
  m_worker_count : Z;
  m_routing_epoch : Z;
  m_worker_hash_seed : Z;
  m_next_segment_id : Z;
  m_next_segment_generation : Z;
  m_segments : list ManifestSegmentEntry
}.

#[export] Instance ManifestSegmentEntry_eq_dec : EqDecision ManifestSegmentEntry.
Proof. solve_decision. Defined.
#[export] Instance Manifest_eq_dec : EqDecision Manifest.
Proof. solve_decision. Defined.

Definition worker_routing (m : Manifest) : WorkerRoutingState :=
  mkRouting (m_routing_algorithm m) (m_worker_hash_seed m).

Record SelectedManifest := mkSelectedManifest {
  candidate_index : Z;
  selected_generation : Z
}.

(** [checksum_with_zeroed_field]: the checksum of a copy whose field at [offset]
    is zero. *)
Definition zeroed_checksum (offset : Z) (bytes : list Z) : Result Z :=
  let? copy := memcpy bytes offset (zeros kChecksumBytes) in
  Ok (crc32c copy).

Definition manifest_size_for_count (segment_count : Z) : Result Z :=
  if segment_count >? kMaximumManifestSegmentCount then Err invalid_argument
  else if segment_count >? (size_max - kManifestHeaderBytes) / kManifestSegmentEntryBytes
  then Err arithmetic_overflow
  else
  let size := kManifestHeaderBytes + segment_count * kManifestSegmentEntryBytes in
  if size >? umax 32 then Err arithmetic_overflow else Ok size.

(** The loop over the entries; [active_workers] says which workers have an active
    segment already. *)
Fixpoint validate_entries (worker_count : Z) (error_code : ErrorCode) (active_workers : list bool)
    (previous_id : Z) (segments : list ManifestSegmentEntry) : Result (list bool) :=
  match segments with
  | [] => Ok active_workers
  | segment :: segments =>
      if (me_segment_id segment =? 0) || (me_generation segment =? 0) then Err error_code
      else if me_segment_id segment <=? previous_id then Err error_code
      else if me_owner_worker segment >=? worker_count then Err error_code
      else if negb (me_role segment =? ManifestSegmentRole_active) &&
              negb (me_role segment =? ManifestSegmentRole_sealed) then Err error_code
      else
      let? active_workers :=
        if me_role segment =? ManifestSegmentRole_active
        then let? taken := vec_get active_workers (me_owner_worker segment) in
             if (taken : bool) then Err error_code
             else vec_set active_workers (me_owner_worker segment) true
        else Ok active_workers in
      validate_entries worker_count error_code active_workers (me_segment_id segment) segments
  end.

Definition validate_manifest (manifest : Manifest) (error_code : ErrorCode) : Status :=
  if all_zero (m_store_id manifest) then Err error_code
  else if m_manifest_generation manifest =? 0 then Err error_code
  else
  or_fail (validate_worker_routing_state (worker_routing manifest)) error_code ;;?
  if (m_worker_count manifest =? 0) || (m_worker_count manifest >? kMaximumWorkerCount) then Err error_code
  else if m_routing_epoch manifest =? 0 then Err error_code
  else if (m_next_segment_id manifest =? 0) || (m_next_segment_generation manifest =? 0) then Err error_code
  else if zlen (m_segments manifest) >? kMaximumManifestSegmentCount then Err error_code
  else
  let active_workers := replicate (Z.to_nat (m_worker_count manifest)) false in
  let? active_workers :=
    validate_entries (m_worker_count manifest) error_code active_workers 0 (m_segments manifest) in
  if negb (forallb id active_workers) then Err error_code
  else
  match last (m_segments manifest) with
  | Some back => if m_next_segment_id manifest <=? me_segment_id back then Err error_code else Ok tt
  | None => Ok tt
  end.

Definition encoded_manifest_size (manifest : Manifest) : Result Z :=
  validate_manifest manifest invalid_argument ;;?
  manifest_size_for_count (zlen (m_segments manifest)).

(** [for (index = 0; index < manifest.segments.size(); ++index)] of the encoder. *)
Fixpoint encode_entries (encoded : list Z) (index : Z) (segments : list ManifestSegmentEntry) :
    Result (list Z) :=
  match segments with
  | [] => Ok encoded
  | segment :: segments =>
      let offset := kManifestHeaderBytes + index * kManifestSegmentEntryBytes in
      let? encoded := put_u64 encoded offset (me_segment_id segment) in
      let? encoded := put_u32 encoded (offset + 8) (me_generation segment) in
      let? encoded := put_u32 encoded (offset + 12) (me_owner_worker segment) in
      let? encoded := put_u16 encoded (offset + 16) (me_role segment) in
      let? encoded := put_u16 encoded (offset + 18) 0 in
      encode_entries encoded (index + 1) segments
  end.

(** [encode_manifest(out, manifest)] *)
Definition encode_manifest_into (out : list Z) (manifest : Manifest) : Result (list Z) :=
  let? size := encoded_manifest_size manifest in
  if zlen out <? size then Err invalid_argument
  else
  let encoded := zeros size in
  let? encoded := put_u32 encoded 0 kManifestMagic in
  let? encoded := put_u16 encoded 4 kManifestFormatVersion in
  let? encoded := put_u16 encoded 6 (u16 kManifestHeaderBytes) in
  let? encoded := put_u32 encoded 8 (u32 size) in
  let? encoded := put_u16 encoded 12 (u16 kManifestSegmentEntryBytes) in
  let? encoded := put_u16 encoded 14 0 in
  let? encoded := memcpy encoded 16 (m_store_id manifest) in
  let? encoded := put_u64 encoded 32 (m_manifest_generation manifest) in
  let? encoded := put_u32 encoded 40 (m_routing_algorithm manifest) in
  let? encoded := put_u32 encoded 44 (m_worker_count manifest) in
  let? encoded := put_u64 encoded 48 (m_routing_epoch manifest) in
  let? encoded := put_u32 encoded 56 (u32 (zlen (m_segments manifest))) in
  let? encoded := put_u16 encoded 60 kSegmentFormatVersion in
  let? encoded := put_u16 encoded 62 kRecordFormatVersion in
  let? encoded := put_u16 encoded 64 kSegmentHeaderFormatVersion in
  let? encoded := put_u16 encoded 66 kSegmentCommitFormatVersion in
  let? encoded := put_u64 encoded 68 (m_next_segment_id manifest) in
  let? encoded := put_u32 encoded 76 (m_next_segment_generation manifest) in
  let? encoded := put_u64 encoded kManifestWorkerHashSeedOffset (m_worker_hash_seed manifest) in
  let? encoded := put_u32 encoded kManifestChecksumOffset 0 in
  let? encoded := encode_entries encoded 0 (m_segments manifest) in
  let? sum := zeroed_checksum kManifestChecksumOffset encoded in
  let? encoded := put_u32 encoded kManifestChecksumOffset sum in
  memcpy out 0 encoded.

Definition encode_manifest (manifest : Manifest) : Result (list Z) :=
  let? size := encoded_manifest_size manifest in
  encode_manifest_into (zeros size) manifest.

(** [for (index = 0; index < segment_count; ++index)] of the decoder. *)
Fixpoint decode_entries (n : nat) (bytes : list Z) (index : Z) : Result (list ManifestSegmentEntry) :=
  match n with
  | O => Ok []
  | S n =>
      let offset := kManifestHeaderBytes + index * kManifestSegmentEntryBytes in
      let? bad := get_u16 bytes (offset + 18) <>? 0 ||?
                  nonzero_at bytes (offset + 20) (kManifestSegmentEntryBytes - 20) in
      if (bad : bool) then Err invalid_record
      else
      let? segment_id := get_u64 bytes offset in
      let? generation := get_u32 bytes (offset + 8) in
      let? owner := get_u32 bytes (offset + 12) in
      let? role := get_u16 bytes (offset + 16) in
      let? segments := decode_entries n bytes (index + 1) in
      Ok (mkEntry segment_id generation owner role :: segments)
  end.

Definition decode_manifest (bytes : list Z) : Result Manifest :=
  if zlen bytes <? kManifestHeaderBytes then Err invalid_record
  else
  let? bad := get_u32 bytes 0 <>? kManifestMagic ||? get_u16 bytes 4 <>? kManifestFormatVersion ||?
              get_u16 bytes 6 <>? kManifestHeaderBytes ||? get_u16 bytes 12 <>? kManifestSegmentEntryBytes ||?
              get_u16 bytes 14 <>? 0 ||? get_u16 bytes 60 <>? kSegmentFormatVersion ||?
              get_u16 bytes 62 <>? kRecordFormatVersion ||? get_u16 bytes 64 <>? kSegmentHeaderFormatVersion ||?
              get_u16 bytes 66 <>? kSegmentCommitFormatVersion ||?
              nonzero_at bytes (kManifestWorkerHashSeedOffset + 8) (44 - 8) in
  if (bad : bool) then Err invalid_record
  else
  let? segment_count := get_u32 bytes 56 in
  let? expected_size := or_fail (manifest_size_for_count segment_count) invalid_record in
  let? bad := get_u32 bytes 8 <>? expected_size in
  if bad || negb (zlen bytes =? expected_size) then Err invalid_record
  else
  let? sum := zeroed_checksum kManifestChecksumOffset bytes in
  let? bad := get_u32 bytes kManifestChecksumOffset <>? sum in
  if (bad : bool) then Err checksum_mismatch
  else
  let? generation := get_u64 bytes 32 in
  let? algorithm := get_u32 bytes 40 in
  let? worker_count := get_u32 bytes 44 in
  let? epoch := get_u64 bytes 48 in
  let? seed := get_u64 bytes kManifestWorkerHashSeedOffset in
  let? next_id := get_u64 bytes 68 in
  let? next_generation := get_u32 bytes 76 in
  let? store_id := subspan bytes 16 16 in
  let? segments := decode_entries (Z.to_nat segment_count) bytes 0 in
  let manifest := mkManifest store_id generation algorithm worker_count epoch seed next_id
                    next_generation segments in
  validate_manifest manifest corrupted_data ;;?
  Ok manifest.

(** The loop of [select_newest_manifest] over the candidates from [index] on. *)
Fixpoint select_manifest_loop (candidates : list Manifest) (selected : SelectedManifest) (index : Z)
    (rest : list Manifest) : Result SelectedManifest :=
  match rest with
  | [] => Ok selected
  | candidate :: rest =>
      validate_manifest candidate corrupted_data ;;?
      if m_manifest_generation candidate >? selected_generation selected
      then select_manifest_loop candidates (mkSelectedManifest index (m_manifest_generation candidate))
             (index + 1) rest
      else
      let? best := vec_get candidates (candidate_index selected) in
      if (m_manifest_generation candidate =? selected_generation selected) &&
         negb (bool_decide (candidate = best))
      then Err corrupted_data
      else select_manifest_loop candidates selected (index + 1) rest
  end.

Definition select_newest_manifest (candidates : list Manifest) : Result SelectedManifest :=
  match candidates with
  | [] => Err invalid_argument
  | front :: rest =>
      validate_manifest front corrupted_data ;;?
      select_manifest_loop candidates (mkSelectedManifest 0 (m_manifest_generation front)) 1 rest
  end.

(** ** What validation accepts *)

Definition entry_ok (e : ManifestSegmentEntry) : Prop :=
  is_u64 (me_segment_id e) /\ is_u32 (me_generation e) /\ is_u32 (me_owner_worker e) /\ is_u16 (me_role e).
Definition manifest_ok (m : Manifest) : Prop :=
  zlen (m_store_id m) = 16 /\ bytes_ok (m_store_id m) /\ is_u64 (m_manifest_generation m) /\
  is_u32 (m_routing_algorithm m) /\ is_u32 (m_worker_count m) /\ is_u64 (m_routing_epoch m) /\
  is_u64 (m_worker_hash_seed m) /\ is_u64 (m_next_segment_id m) /\ is_u32 (m_next_segment_generation m) /\
  Forall entry_ok (m_segments m).

(** The active segments of a worker. *)
Definition active_of (w : Z) (segments : list ManifestSegmentEntry) : list ManifestSegmentEntry :=
  filter (fun e => me_role e = ManifestSegmentRole_active /\ me_owner_worker e = w) segments.

Definition entry_valid (worker_count : Z) (e : ManifestSegmentEntry) : Prop :=
  me_generation e <> 0 /\ me_owner_worker e < worker_count /\
  (me_role e = ManifestSegmentRole_active \/ me_role e = ManifestSegmentRole_sealed).

(** Every worker has one active segment, and the identities increase from the first
    segment to the next one that will be made. *)
Record manifest_valid (m : Manifest) : Prop := {
  mv_store_id : m_store_id m <> zeros (zlen (m_store_id m));
  mv_generation : m_manifest_generation m <> 0;
  mv_routing : validate_worker_routing_state (worker_routing m) = Ok tt;
  mv_workers : 0 < m_worker_count m <= kMaximumWorkerCount;
  mv_epoch : m_routing_epoch m <> 0;
  mv_next_generation : m_next_segment_generation m <> 0;
  mv_count : zlen (m_segments m) <= kMaximumManifestSegmentCount;
  mv_entries : Forall (entry_valid (m_worker_count m)) (m_segments m);
  mv_ordered : Sorted Z.lt (0 :: map me_segment_id (m_segments m) ++ [m_next_segment_id m]);
  mv_active : forall w, 0 <= w < m_worker_count m -> length (active_of w (m_segments m)) = 1%nat
}.

Definition slot_count (taken : bool) : nat := if taken then 1 else 0.

(** What the entries must satisfy when the workers in [active] have their segment. *)
Definition entries_valid (worker_count : Z) (active : list bool) (previous : Z)
    (segments : list ManifestSegmentEntry) : Prop :=
  Forall (entry_valid worker_count) segments /\ Sorted Z.lt (previous :: map me_segment_id segments) /\
  forall i b, active !! i = Some b -> (slot_count b + length (active_of (Z.of_nat i) segments) <= 1)%nat.

Lemma active_of_cons w e segments :
  length (active_of w (e :: segments)) =
  ((if bool_decide (me_role e = ManifestSegmentRole_active /\ me_owner_worker e = w) then 1 else 0) +
   length (active_of w segments))%nat.
Proof.
  unfold active_of. rewrite filter_cons. case_decide as D;
    [rewrite bool_decide_eq_true_2 by done|rewrite bool_decide_eq_false_2 by done]; done.
Qed.

Lemma sorted_cons_iff a b l : Sorted Z.lt (a :: b :: l) <-> a < b /\ Sorted Z.lt (b :: l).
Proof.
  split.
  - intros H. inversion H as [|? ? Hs Hr]; subst. inversion Hr; subst. done.
  - intros [? ?]. constructor; [done|]. by constructor.
Qed.

Lemma vec_get_at {A} (v : list A) i : 0 <= i < zlen v -> exists x, vec_get v i = Ok x /\ v !! Z.to_nat i = Some x.
Proof.
  intros H. unfold zlen in H. destruct (lookup_lt_is_Some_2 v (Z.to_nat i)) as [x Hx]; [lia|].
  exists x. split; [|done]. unfold vec_get. destruct (Z.ltb_spec i 0); [lia|]. by rewrite Hx.
Qed.
Lemma vec_set_at {A} (v : list A) i x : 0 <= i < zlen v -> vec_set v i x = Ok (<[Z.to_nat i := x]> v).
Proof. intros H. unfold vec_set. destruct (Z.leb_spec 0 i), (Z.ltb_spec i (zlen v)); done || lia. Qed.

Lemma entries_valid_cons wc active active' prev s segments :
  (forall i b, active !! i = Some b -> exists b', active' !! i = Some b' /\
     slot_count b' = (slot_count b +
       if bool_decide (me_role s = ManifestSegmentRole_active /\ me_owner_worker s = Z.of_nat i) then 1 else 0)%nat) ->
  length active' = length active ->
  entries_valid wc active prev (s :: segments) <->
  entry_valid wc s /\ prev < me_segment_id s /\ entries_valid wc active' (me_segment_id s) segments.
Proof.
  intros Hact Hlen. unfold entries_valid. cbn [map]. rewrite Forall_cons, sorted_cons_iff.
  assert (Hc : (forall i b, active !! i = Some b -> (slot_count b + length (active_of (Z.of_nat i) (s :: segments)) <= 1)%nat) <->
    (forall i b, active' !! i = Some b -> (slot_count b + length (active_of (Z.of_nat i) segments) <= 1)%nat)); [|tauto].
  split; intros H i b Hi.
  - destruct (lookup_lt_is_Some_2 active i) as [b0 Hb0]; [rewrite <- Hlen; by eapply lookup_lt_Some|].
    specialize (H i b0 Hb0). destruct (Hact i b0 Hb0) as (b' & Hb' & E). rewrite active_of_cons in H. simplify_eq. lia.
  - destruct (Hact i b Hi) as (b' & Hb' & E). specialize (H i b' Hb'). rewrite active_of_cons. lia.
Qed.

Lemma validate_entries_cases wc e active prev segments :
  Forall entry_ok segments -> 0 <= prev -> zlen active = wc ->
  match validate_entries wc e active prev segments with
  | Ok active' => entries_valid wc active prev segments /\ length active' = length active /\
      forall i b, active !! i = Some b ->
        exists b', active' !! i = Some b' /\ slot_count b' = (slot_count b + length (active_of (Z.of_nat i) segments))%nat
  | Err e' => e' = e /\ ~ entries_valid wc active prev segments
  | Stuck _ => False
  end.
Proof.
  intros Hok. revert active prev. induction Hok as [|s segments Hs Hok IH]; intros active prev Hp Hwc; cbn [validate_entries].
  { split_and!; [|done|intros i b ->; exists b; cbn; split; [done|lia]].
    split_and!; [done|by repeat constructor|]. intros i b _. cbn. destruct b; cbn; lia. }
  destruct Hs as (Hid & _ & How & _).
  assert (Hbad : forall P : Prop, (entry_valid wc s -> prev < me_segment_id s -> P) ->
    entries_valid wc active prev (s :: segments) -> P).
  { intros P HP (Hf & Hso & _). inversion Hf; subst. apply sorted_cons_iff in Hso as [? _]. auto. }
  unfold entry_valid in Hbad at 1.
  head_if E1; [split; [done|]; refine (Hbad False _); apply orb_true_iff in E1; rewrite !Z.eqb_eq in E1; intros; lia|].
  head_if E2; [split; [done|]; refine (Hbad False _); intros; b2p; lia|].
  rewrite Z.geb_leb. head_if E3; [split; [done|]; refine (Hbad False _); intros; b2p; lia|].
  head_if E4; [split; [done|]; refine (Hbad False _); intros; b2p; lia|]. clear Hbad.
  b2p. apply andb_false_iff in E4. rewrite !negb_false_iff, !Z.eqb_eq in E4.
  assert (Hev : entry_valid wc s) by (unfold entry_valid; auto).
  assert (Hgo : forall active', length active' = length active ->
    (forall i b, active !! i = Some b -> exists b', active' !! i = Some b' /\ slot_count b' = (slot_count b +
       if bool_decide (me_role s = ManifestSegmentRole_active /\ me_owner_worker s = Z.of_nat i) then 1 else 0)%nat) ->
    match validate_entries wc e active' (me_segment_id s) segments with
    | Ok active'' => entries_valid wc active prev (s :: segments) /\ length active'' = length active /\
        forall i b, active !! i = Some b -> exists b', active'' !! i = Some b' /\
          slot_count b' = (slot_count b + length (active_of (Z.of_nat i) (s :: segments)))%nat
    | Err e' => e' = e /\ ~ entries_valid wc active prev (s :: segments)
    | Stuck _ => False
    end).
  { intros active' Hl Ha. specialize (IH active' (me_segment_id s) ltac:(lia) ltac:(unfold zlen in *; by rewrite Hl)).
    pose proof (entries_valid_cons wc active active' prev s segments Ha Hl) as Hc.
    destruct (validate_entries _ _ active' _ _) as [active''|e'|]; [|split; [apply IH|rewrite Hc; intros (_ & _ & ?); by apply IH]|done].
    destruct IH as (Hv & Hl' & Hn). split_and!; [apply Hc; split_and!; [done|lia|done]|congruence|].
    intros i b Hi. destruct (Ha i b Hi) as (b' & Hb' & E). destruct (Hn i b' Hb') as (b'' & ? & ?).
    exists b''. rewrite active_of_cons. split; [done|]. lia. }
  destruct (Z.eqb_spec (me_role s) ManifestSegmentRole_active) as [Er|Er].
  - destruct (vec_get_at active (me_owner_worker s) ltac:(unfold is_uint in How; lia)) as (taken & -> & Hx). cbn [bindR].
    destruct taken.
    + cbn. split; [done|]. intros (_ & _ & Hn). specialize (Hn _ _ Hx). rewrite active_of_cons, bool_decide_eq_true_2 in Hn.
      * cbn in Hn. lia.
      * split; [done|]. unfold is_uint in How. lia.
    + rewrite vec_set_at by (unfold is_uint in How; lia). cbn [bindR]. apply Hgo; [by rewrite length_insert|].
      intros i b Hi. destruct (decide (Z.to_nat (me_owner_worker s) = i)) as [<-|Hne].
      * exists true. rewrite list_lookup_insert_eq by (by eapply lookup_lt_Some). simplify_eq. split; [done|].
        rewrite bool_decide_eq_true_2; [done|]. split; [done|]. unfold is_uint in How. lia.
      * exists b. rewrite list_lookup_insert_ne by done. split; [done|].
        rewrite bool_decide_eq_false_2; [lia|]. intros [_ E]. apply Hne. lia.
  - cbn [bindR]. apply Hgo; [done|]. intros i b Hi. exists b. split; [done|].
    rewrite bool_decide_eq_false_2; [lia|]. by intros [? _].
Qed.

Lemma sorted_snoc a l n : Sorted Z.lt (a :: l ++ [n]) <-> Sorted Z.lt (a :: l) /\ default a (last l) < n.
Proof.
  revert a. induction l as [|b l IH]; intros a; cbn [app].
  - rewrite sorted_cons_iff. cbn. split; intros [? ?]; split; (done || by repeat constructor).
  - rewrite !sorted_cons_iff, IH. destruct l as [|c l]; cbn; [tauto|].
    change (last (b :: c :: l)) with (last (c :: l)). destruct (last (c :: l)) eqn:E; cbn; [tauto|].
    by apply last_None in E.
Qed.

Lemma forallb_id_true l : forallb id l = true <-> forall i b, l !! i = Some b -> b = true.
Proof.
  rewrite forallb_forall. split.
  - intros H i b Hi. apply H. apply list_elem_of_In. by eapply list_elem_of_lookup_2.
  - intros H b Hb. apply list_elem_of_In, list_elem_of_lookup in Hb as [i Hi]. by eapply H.
Qed.

Lemma routing_not_stuck state f : validate_worker_routing_state state <> Stuck f.
Proof. unfold validate_worker_routing_state. repeat case_match; congruence. Qed.

Lemma validate_manifest_cases m e : manifest_ok m ->
  validate_manifest m e = Ok tt /\ manifest_valid m \/ validate_manifest m e = Err e /\ ~ manifest_valid m.
Proof.
  intros (_ & _ & _ & _ & Hwc & _ & _ & Hnid & _ & Hent). unfold validate_manifest.
  destruct (all_zero (m_store_id m)) eqn:E1; [right; split; [done|]; intros []; by apply all_zero_true in E1|].
  apply not_true_iff_false in E1. rewrite all_zero_true in E1.
  destruct (Z.eqb_spec (m_manifest_generation m) 0); [right; split; [done|]; by intros []|].
  destruct (validate_worker_routing_state (worker_routing m)) as [[]|e'|] eqn:Er; cbn [or_fail bindR];
    [|right; split; [done|]; intros []; congruence|by apply routing_not_stuck in Er].
  rewrite !Z.gtb_ltb.
  destruct (orb _ _) eqn:E2; [right; split; [done|]; intros []; apply orb_true_iff in E2; rewrite Z.eqb_eq, Z.ltb_lt in E2; lia|].
  destruct (Z.eqb_spec (m_routing_epoch m) 0); [right; split; [done|]; by intros []|].
  assert (Hfirst : manifest_valid m -> 0 < m_next_segment_id m).
  { intros Hv. pose proof (mv_ordered m Hv) as Hs. apply Sorted_StronglySorted in Hs; [|intros ?; lia].
    inversion Hs as [|? ? _ Hf]. rewrite Forall_app, Forall_singleton in Hf. by destruct Hf. }
  destruct (orb (_ =? 0) (_ =? 0)) eqn:E3; [right; split; [done|]; intros Hv; specialize (Hfirst Hv); destruct Hv;
    apply orb_true_iff in E3; rewrite !Z.eqb_eq in E3; lia|]. clear Hfirst.
  destruct (Z.ltb_spec kMaximumManifestSegmentCount (zlen (m_segments m))); [right; split; [done|]; intros []; lia|]. b2p.
  set (k := Z.to_nat (m_worker_count m)). assert (Hn : Z.of_nat k = m_worker_count m) by (unfold is_uint in Hwc; lia).
  pose proof (validate_entries_cases (m_worker_count m) e (replicate k false) 0 (m_segments m) Hent ltac:(lia)
    ltac:(unfold zlen; rewrite length_replicate; lia)) as Hc.
  destruct (validate_entries _ _ _ _ _) as [active|e'|]; [| |done]; cbn [bindR].
  2:{ destruct Hc as [-> Hno]. right. split; [done|]. intros Hv. apply Hno. split_and!; [apply Hv| |].
      - pose proof (mv_ordered m Hv) as Hs. by apply sorted_snoc in Hs as [? _].
      - intros i b [-> Hi]%lookup_replicate. cbn. rewrite (mv_active m Hv); lia. }
  destruct Hc as ((Hf & Hso & Hone) & Hlen & Hact). rewrite length_replicate in Hlen.
  assert (Hb : forall i, (i < k)%nat -> exists b, active !! i = Some b /\
    slot_count b = length (active_of (Z.of_nat i) (m_segments m))).
  { intros i Hi. apply (Hact i false). by apply lookup_replicate_2. }
  destruct (forallb id active) eqn:Ea; cbn [negb].
  2:{ right. split; [done|]. intros Hv. apply not_true_iff_false in Ea. apply Ea, forallb_id_true. intros i b Hi.
      destruct (Hb i) as (b' & Hb' & E); [rewrite <- Hlen; by eapply lookup_lt_Some|].
      rewrite (mv_active m Hv) in E by (apply lookup_lt_Some in Hi; lia). simplify_eq. by destruct b. }
  assert (Hall : forall w, 0 <= w < m_worker_count m -> length (active_of w (m_segments m)) = 1%nat).
  { intros w Hw. destruct (Hb (Z.to_nat w)) as (b & Hi & E); [lia|]. rewrite Z2Nat.id in E by lia.
    apply (proj1 (forallb_id_true _) Ea) in Hi as ->. done. }
  assert (Hv : default 0 (last (map me_segment_id (m_segments m))) < m_next_segment_id m <-> manifest_valid m).
  { split; [|intros Hv; by pose proof (proj1 (sorted_snoc _ _ _) (mv_ordered m Hv)) as [_ ?]].
    intros Hl. split; try done; try lia. by apply sorted_snoc. }
  rewrite <- Hv. clear Hv. change (map me_segment_id (m_segments m)) with (me_segment_id <$> m_segments m). rewrite fmap_last.
  destruct (last (m_segments m)) as [back|]; cbn; [destruct (Z.leb_spec (m_next_segment_id m) (me_segment_id back))|].
  - right. split; [done|lia].
  - left. split; [done|lia].
  - left. unfold is_uint in Hnid. split; [done|lia].
Qed.

(** ** The encoding *)

Definition entry_bytes (e : ManifestSegmentEntry) : list Z :=
  le_bytes 8 (me_segment_id e) ++ le_bytes 4 (me_generation e) ++ le_bytes 4 (me_owner_worker e) ++
  le_bytes 2 (me_role e) ++ le_bytes 2 0 ++ zeros 12.
Definition entries_bytes (segments : list ManifestSegmentEntry) : list Z := concat (map entry_bytes segments).
Definition manifest_size (m : Manifest) : Z := 128 + 32 * zlen (m_segments m).

Definition manifest_front (m : Manifest) : list Z :=
  le_bytes 4 kManifestMagic ++ le_bytes 2 kManifestFormatVersion ++ le_bytes 2 kManifestHeaderBytes ++
  le_bytes 4 (manifest_size m) ++ le_bytes 2 kManifestSegmentEntryBytes ++ le_bytes 2 0 ++ m_store_id m ++
  le_bytes 8 (m_manifest_generation m) ++ le_bytes 4 (m_routing_algorithm m) ++
  le_bytes 4 (m_worker_count m) ++ le_bytes 8 (m_routing_epoch m) ++ le_bytes 4 (zlen (m_segments m)) ++
  le_bytes 2 kSegmentFormatVersion ++ le_bytes 2 kRecordFormatVersion ++
  le_bytes 2 kSegmentHeaderFormatVersion ++ le_bytes 2 kSegmentCommitFormatVersion ++
  le_bytes 8 (m_next_segment_id m) ++ le_bytes 4 (m_next_segment_generation m).
Definition manifest_back (m : Manifest) : list Z :=
  le_bytes 8 (m_worker_hash_seed m) ++ zeros 36 ++ entries_bytes (m_segments m).
Definition manifest_bytes (m : Manifest) : list Z :=
  manifest_front m ++ le_bytes 4 (crc32c (manifest_front m ++ zeros 4 ++ manifest_back m)) ++ manifest_back m.

Ltac unfold_manifest :=
  unfold kManifestMagic, kManifestFormatVersion, kManifestHeaderBytes, kManifestSegmentEntryBytes,
    kManifestWorkerHashSeedOffset, kManifestChecksumOffset, kMaximumManifestSegmentCount in *; unfold_header.

Lemma zlen_entry_bytes e : zlen (entry_bytes e) = 32.
Proof. unfold entry_bytes. zl. Qed.
#[export] Hint Rewrite zlen_entry_bytes : zlen.
Lemma zlen_entries_bytes segments : zlen (entries_bytes segments) = 32 * zlen segments.
Proof.
  induction segments as [|e segments IH]; [done|]. change (entries_bytes (e :: segments)) with (entry_bytes e ++ entries_bytes segments).
  rewrite zlen_app, zlen_entry_bytes, IH, zlen_cons. lia.
Qed.
#[export] Hint Rewrite zlen_entries_bytes : zlen.

Lemma zlen_manifest_front m : zlen (m_store_id m) = 16 -> zlen (manifest_front m) = 80.
Proof. intros H. unfold manifest_front. autorewrite with zlen. rewrite H. lia. Qed.
Lemma zlen_manifest_back m : zlen (manifest_back m) = 44 + 32 * zlen (m_segments m).
Proof. unfold manifest_back. zl. Qed.
#[export] Hint Rewrite zlen_manifest_back : zlen.
Lemma zlen_manifest_bytes m : zlen (m_store_id m) = 16 -> zlen (manifest_bytes m) = manifest_size m.
Proof. intros H. unfold manifest_bytes, manifest_size. rewrite zlen_app, zlen_manifest_front by done. zl. Qed.

Lemma manifest_front_ok m : bytes_ok (m_store_id m) -> bytes_ok (manifest_front m).
Proof.
  intros H. unfold manifest_front. repeat apply Forall_app_2; try done; apply le_bytes_ok; lia.
Qed.
Lemma entries_bytes_ok segments : bytes_ok (entries_bytes segments).
Proof.
  induction segments as [|e segments IH]; [constructor|]. apply Forall_app_2; [|done].
  unfold entry_bytes. repeat apply Forall_app_2; auto using bytes_ok_zeros; apply le_bytes_ok; lia.
Qed.
Lemma manifest_back_ok m : bytes_ok (manifest_back m).
Proof.
  unfold manifest_back. repeat apply Forall_app_2; auto using bytes_ok_zeros, entries_bytes_ok. apply le_bytes_ok; lia.
Qed.

Lemma zeroed_checksum_in bs off : 0 <= off -> off + 4 <= zlen bs ->
  zeroed_checksum off bs = Ok (crc32c (ztake off bs ++ zeros 4 ++ zdrop (off + 4) bs)).
Proof. intros. unfold zeroed_checksum, kChecksumBytes. by rewrite memcpy_in by zl. Qed.

Lemma zeroed_checksum_field p x s off : zlen p = off -> zlen x = 4 ->
  zeroed_checksum off (p ++ x ++ s) = Ok (crc32c (p ++ zeros 4 ++ s)).
Proof.
  intros Hp Hx. pose proof (zlen_nonneg s). pose proof (zlen_nonneg p). rewrite zeroed_checksum_in by zl.
  rewrite ztake_app_le, ztake_all, zdrop_app_ge, zdrop_app_ge by lia.
  replace (off + 4 - zlen p - zlen x) with 0 by lia. by rewrite zdrop_0.
Qed.

Lemma manifest_size_Ok n : 0 <= n <= kMaximumManifestSegmentCount ->
  manifest_size_for_count n = Ok (128 + 32 * n).
Proof.
  intros H. unfold manifest_size_for_count. unfold_manifest. rewrite !Z.gtb_ltb.
  destruct (Z.ltb_spec 1000000 n); [lia|].
  destruct (Z.ltb_spec ((size_max - 128) / 32) n) as [Hlt|_].
  { change ((size_max - 128) / 32) with 576460752303423483 in Hlt. lia. }
  destruct (Z.ltb_spec (umax 32) (128 + n * 32)) as [Hlt|_]; [width; lia|]. f_equal. lia.
Qed.
Lemma manifest_size_Err n e : manifest_size_for_count n = Err e -> kMaximumManifestSegmentCount < n \/ n < 0.
Proof.
  intros H. destruct (Z_le_dec 0 n), (Z_le_dec n kMaximumManifestSegmentCount); try lia.
  by rewrite manifest_size_Ok in H by lia.
Qed.

Lemma encode_entries_Ok segments p index : zlen p = 128 + index * 32 -> 0 <= index ->
  encode_entries (p ++ zeros (32 * zlen segments)) index segments = Ok (p ++ entries_bytes segments).
Proof.
  revert p index. induction segments as [|s segments IH]; intros p index Hp Hi; [done|].
  pose proof (zlen_nonneg segments). pose proof (zlen_nonneg p). cbn [encode_entries]. unfold_manifest. rewrite <- Hp.
  set (o := p ++ zeros (32 * zlen (s :: segments))).
  assert (Ho : zlen o = zlen p + 32 + 32 * zlen segments) by (unfold o; rewrite zlen_app, zlen_zeros, zlen_cons; zl).
  replace o with (p ++ zdrop (zlen p) o) by (unfold o; by rewrite zdrop_app_ge, Z.sub_diag, zdrop_0 by lia).
  rewrite (put_u64_fill p o (zlen p) (zlen p + 8)) by zl. cbn [bindR].
  rewrite (put_u32_fill _ o (zlen p + 8) (zlen p + 12)) by zl. cbn [bindR].
  rewrite (put_u32_fill _ o (zlen p + 12) (zlen p + 16)) by zl. cbn [bindR].
  rewrite (put_u16_fill _ o (zlen p + 16) (zlen p + 18)) by zl. cbn [bindR].
  rewrite (put_u16_fill _ o (zlen p + 18) (zlen p + 20)) by zl. cbn [bindR].
  replace (zdrop (zlen p + 20) o) with (zeros 12 ++ zeros (32 * zlen segments)).
  2:{ unfold o. rewrite zdrop_app_ge, zdrop_zeros, zeros_app by (rewrite ?zlen_cons; lia). f_equal. rewrite zlen_cons. lia. }
  rewrite app_assoc, IH by zl. change (entries_bytes (s :: segments)) with (entry_bytes s ++ entries_bytes segments).
  unfold entry_bytes. by rewrite <- !app_assoc.
Qed.

Lemma encoded_size_Ok m : manifest_ok m -> manifest_valid m -> encoded_manifest_size m = Ok (manifest_size m).
Proof.
  intros Hok Hv. unfold encoded_manifest_size.
  destruct (validate_manifest_cases m invalid_argument Hok) as [[-> _]|[_ ?]]; [|done]. cbn [bindR].
  apply manifest_size_Ok. pose proof (zlen_nonneg (m_segments m)). split; [lia|apply Hv].
Qed.

Lemma encode_manifest_into_Ok out m : manifest_ok m -> manifest_valid m -> manifest_size m <= zlen out ->
  encode_manifest_into out m = Ok (manifest_bytes m ++ zdrop (manifest_size m) out).
Proof.
  intros Hok Hv Hl. unfold encode_manifest_into. rewrite encoded_size_Ok by done. cbn [bindR].
  destruct (Z.ltb_spec (zlen out) (manifest_size m)); [lia|].
  destruct Hok as (Hst & Hsb & _). pose proof (mv_count m Hv) as Hcount.
  pose proof (zlen_nonneg (m_segments m)). set (size := manifest_size m) in *.
  assert (Hsize : size = 128 + 32 * zlen (m_segments m)) by done. unfold kMaximumManifestSegmentCount in Hcount.
  set (o := zeros size). assert (Ho : zlen o = size) by (unfold o; zl).
  change (u16 kManifestHeaderBytes) with kManifestHeaderBytes.
  change (u16 kManifestSegmentEntryBytes) with kManifestSegmentEntryBytes.
  rewrite !wrap_small by (width; lia).
  change o with ([] ++ zdrop 0 o). fill. rewrite (memcpy_fill _ o 16 32) by zl. cbn [bindR]. fill.
  replace (zdrop 80 o) with (zeros 4 ++ zdrop 84 o)
    by (unfold o; rewrite !zdrop_zeros, zeros_app by lia; f_equal; lia).
  rewrite app_assoc. unfold kManifestWorkerHashSeedOffset. rewrite (put_u64_fill _ o 84 92) by zl. cbn [bindR].
  replace (zdrop 92 o) with (zeros 36 ++ zeros (32 * zlen (m_segments m)))
    by (unfold o; rewrite zdrop_zeros, zeros_app by lia; f_equal; lia).
  rewrite <- !app_assoc. cbn [app].
  assert (Hf : forall x, le_bytes 4 kManifestMagic ++ le_bytes 2 kManifestFormatVersion ++ le_bytes 2 kManifestHeaderBytes ++
    le_bytes 4 size ++ le_bytes 2 kManifestSegmentEntryBytes ++ le_bytes 2 0 ++ m_store_id m ++
    le_bytes 8 (m_manifest_generation m) ++ le_bytes 4 (m_routing_algorithm m) ++
    le_bytes 4 (m_worker_count m) ++ le_bytes 8 (m_routing_epoch m) ++ le_bytes 4 (zlen (m_segments m)) ++
    le_bytes 2 kSegmentFormatVersion ++ le_bytes 2 kRecordFormatVersion ++
    le_bytes 2 kSegmentHeaderFormatVersion ++ le_bytes 2 kSegmentCommitFormatVersion ++
    le_bytes 8 (m_next_segment_id m) ++ le_bytes 4 (m_next_segment_generation m) ++ x = manifest_front m ++ x)
    by (intros; unfold manifest_front; by rewrite <- !app_assoc).
  rewrite Hf. pose proof (zlen_manifest_front m Hst) as Hfront. unfold kManifestChecksumOffset.
  rewrite put_u32_over by zl. cbn [bindR].
  pose proof (encode_entries_Ok (m_segments m) (manifest_front m ++ le_bytes 4 0 ++ le_bytes 8 (m_worker_hash_seed m) ++ zeros 36) 0)
    as He. rewrite <- !app_assoc in He. rewrite He by zl. cbn [bindR]. fold (manifest_back m).
  rewrite zeroed_checksum_field by zl. cbn [bindR]. rewrite put_u32_over by zl. cbn [bindR].
  fold (manifest_bytes m). change out with ([] ++ zdrop 0 out) at 1.
  by rewrite (memcpy_fill [] out 0 size (manifest_bytes m)) by (rewrite ?zlen_manifest_bytes; done).
Qed.

Lemma encode_manifest_Ok m : manifest_ok m -> manifest_valid m -> encode_manifest m = Ok (manifest_bytes m).
Proof.
  intros Hok Hv. pose proof (zlen_nonneg (m_segments m)). assert (0 <= manifest_size m) by (unfold manifest_size; lia).
  unfold encode_manifest. rewrite encoded_size_Ok by done. cbn [bindR].
  rewrite encode_manifest_into_Ok by (done || zl). by rewrite zdrop_all, app_nil_r by zl.
Qed.

Lemma encode_manifest_inv m bs : manifest_ok m -> encode_manifest m = Ok bs -> manifest_valid m /\ bs = manifest_bytes m.
Proof.
  intros Hok H. destruct (validate_manifest_cases m invalid_argument Hok) as [[_ Hv]|[E _]].
  - rewrite encode_manifest_Ok in H by done. apply Ok_inj in H as <-. done.
  - unfold encode_manifest, encoded_manifest_size in H. by rewrite E in H.
Qed.

(** ** Decoding *)

Ltac entry_field := unfold entry_bytes; known_field.

Lemma decode_entries_bytes segments p index : Forall entry_ok segments -> zlen p = 128 + index * 32 -> 0 <= index ->
  decode_entries (length segments) (p ++ entries_bytes segments) index = Ok segments.
Proof.
  intros Hok. revert p index. induction Hok as [|s segments (Hid & Hg & Hw & Hr) Hok IH]; intros p index Hp Hi; [done|].
  pose proof (zlen_nonneg segments). cbn [length decode_entries]. unfold_manifest. rewrite <- Hp.
  change (entries_bytes (s :: segments)) with (entry_bytes s ++ entries_bytes segments).
  set (bs := p ++ entry_bytes s ++ entries_bytes segments).
  assert (Hlen : zlen bs = zlen p + 32 + 32 * zlen segments) by (unfold bs; zl).
  assert (Hs : forall a n, 0 <= a -> 0 <= n -> a + n <= 32 -> slice (zlen p + a) n bs = slice a n (entry_bytes s)).
  { intros a n Ha Hn Han. unfold bs. rewrite slice_app_r by lia. replace (zlen p + a - zlen p) with a by lia.
    by rewrite slice_app_l by zl. }
  assert (Hs0 : slice (zlen p) 8 bs = slice 0 8 (entry_bytes s)) by (rewrite <- (Hs 0 8) by lia; f_equal; lia).
  pose proof (zlen_nonneg p). unfold nonzero_at. rewrite subspan_in by lia. reads. cbn [bindR neR orR].
  rewrite Hs0, !Hs by lia.
  assert (le_value (slice 0 8 (entry_bytes s)) = me_segment_id s) as -> by entry_field.
  assert (le_value (slice 8 4 (entry_bytes s)) = me_generation s) as -> by entry_field.
  assert (le_value (slice 12 4 (entry_bytes s)) = me_owner_worker s) as -> by entry_field.
  assert (le_value (slice 16 2 (entry_bytes s)) = me_role s) as -> by entry_field.
  assert (le_value (slice 18 2 (entry_bytes s)) = 0) as -> by entry_field.
  assert (slice 20 (32 - 20) (entry_bytes s) = zeros 12) as -> by (unfold entry_bytes; by locate_field).
  rewrite all_zero_zeros. checks. unfold bs. rewrite app_assoc, IH by zl. cbn [bindR]. by destruct s.
Qed.

Lemma decode_entries_cases n bs index : bytes_ok bs -> 0 <= index -> 128 + (index + Z.of_nat n) * 32 = zlen bs ->
  match decode_entries n bs index with
  | Ok segments => length segments = n /\ Forall entry_ok segments /\ zdrop (128 + index * 32) bs = entries_bytes segments
  | Err e => e = invalid_record
  | Stuck _ => False
  end.
Proof.
  intros Hbs. revert index. induction n as [|n IH]; intros index Hi Hlen; cbn [decode_entries].
  { split_and!; [done..|]. apply zdrop_all. lia. }
  unfold_manifest. set (off := 128 + index * 32). unfold nonzero_at. rewrite subspan_in by lia. reads. rewrite neR_Ok. cbn [bindR].
  rewrite orR_Ok. cbn [bindR]. head_if E; [done|]. b2p. specialize (IH (index + 1) ltac:(lia) ltac:(lia)).
  destruct (decode_entries n bs (index + 1)) as [segments|e|]; cbn [bindR]; [|done..].
  destruct IH as (Hl & Hok & Hd). split_and!; [by rewrite <- Hl| |].
  { constructor; [|done]. unfold entry_ok. cbn. split_and!;
      match goal with |- is_uint _ (le_value (slice ?a ?n bs)) => apply (is_uint_slice bs a n); (done || lia) end. }
  change (entries_bytes (?e :: segments)) with (entry_bytes e ++ entries_bytes segments). rewrite <- Hd.
  rewrite <- (ztake_zdrop 32 (zdrop off bs)), zdrop_zdrop by lia. f_equal; [|f_equal; lia].
  change (ztake 32 (zdrop off bs)) with (slice off 32 bs). unfold entry_bytes. cbn [me_segment_id me_generation me_owner_worker me_role].
  match goal with H : all_zero _ = true |- _ => apply all_zero_true in H; rewrite zlen_slice in H by lia; rename H into Hz end.
  apply (slice_match bs off 32 8); [lia|lia|apply slice_le_bytes; (done || lia)|].
  apply (slice_match bs _ _ 4); [lia|lia|apply slice_le_bytes; (done || lia)|].
  replace (off + 8 + 4) with (off + 12) by lia. apply (slice_match bs _ _ 4); [lia|lia|apply slice_le_bytes; (done || lia)|].
  replace (off + 12 + 4) with (off + 16) by lia. apply (slice_match bs _ _ 2); [lia|lia|apply slice_le_bytes; (done || lia)|].
  replace (off + 16 + 2) with (off + 18) by lia. apply (slice_match bs _ _ 2); [lia|lia|symmetry; apply field_bytes; (done || lia)|].
  replace (off + 18 + 2) with (off + 20) by lia. exact Hz.
Qed.

Ltac manifest_field bs := unfold bs, manifest_bytes, manifest_front, manifest_back; known_field.

Lemma decode_manifest_bytes m : manifest_ok m -> manifest_valid m -> decode_manifest (manifest_bytes m) = Ok m.
Proof.
  intros Hok Hv. pose proof (zlen_nonneg (m_segments m)). pose proof (mv_count m Hv) as Hcount.
  pose proof Hok as (Hst & Hsb & Hg & Ha & Hw & He & Hsd & Hn & Hng & Hent).
  set (bs := manifest_bytes m). assert (zlen bs = 128 + 32 * zlen (m_segments m)) as Hlen by (by apply zlen_manifest_bytes).
  assert (Hdec : decode_entries (length (m_segments m)) bs 0 = Ok (m_segments m)).
  { unfold bs, manifest_bytes, manifest_back. rewrite !app_assoc. apply decode_entries_bytes; [done| |lia].
    rewrite !zlen_app, zlen_manifest_front by done. zl. }
  set (crc := crc32c (manifest_front m ++ zeros 4 ++ manifest_back m)).
  assert (is_u32 crc) as Hcrc by (apply wrap_range; lia).
  assert (Hsum : zeroed_checksum 80 bs = Ok crc) by (apply zeroed_checksum_field; [by apply zlen_manifest_front|zl]).
  unfold decode_manifest, nonzero_at. unfold_manifest. destruct (Z.ltb_spec (zlen bs) 128); [lia|].
  change (84 + 8) with 92. change (44 - 8) with 36. rewrite !subspan_in, Hsum by lia. reads. cbn [bindR].
  assert (le_value (slice 0 4 bs) = 0x4D594C47) as -> by manifest_field bs.
  assert (le_value (slice 4 2 bs) = 1) as -> by manifest_field bs.
  assert (le_value (slice 6 2 bs) = 128) as -> by manifest_field bs.
  assert (le_value (slice 8 4 bs) = manifest_size m) as ->
    by (assert (is_u32 (manifest_size m)) by (unfold manifest_size; width; lia); manifest_field bs).
  assert (le_value (slice 12 2 bs) = 32) as -> by manifest_field bs.
  assert (le_value (slice 14 2 bs) = 0) as -> by manifest_field bs.
  assert (slice 16 16 bs = m_store_id m) as -> by
    (unfold bs, manifest_bytes, manifest_front; rewrite <- ?app_assoc; by locate_field).
  assert (le_value (slice 32 8 bs) = m_manifest_generation m) as -> by manifest_field bs.
  assert (le_value (slice 40 4 bs) = m_routing_algorithm m) as -> by manifest_field bs.
  assert (le_value (slice 44 4 bs) = m_worker_count m) as -> by manifest_field bs.
  assert (le_value (slice 48 8 bs) = m_routing_epoch m) as -> by manifest_field bs.
  assert (le_value (slice 56 4 bs) = zlen (m_segments m)) as -> by manifest_field bs.
  assert (le_value (slice 60 2 bs) = 1) as -> by manifest_field bs.
  assert (le_value (slice 62 2 bs) = 1) as -> by manifest_field bs.
  assert (le_value (slice 64 2 bs) = 1) as -> by manifest_field bs.
  assert (le_value (slice 66 2 bs) = 1) as -> by manifest_field bs.
  assert (le_value (slice 68 8 bs) = m_next_segment_id m) as -> by manifest_field bs.
  assert (le_value (slice 76 4 bs) = m_next_segment_generation m) as -> by manifest_field bs.
  assert (le_value (slice 80 4 bs) = crc) as -> by
    (unfold bs, manifest_bytes; fold crc; unfold manifest_front, manifest_back; known_field).
  assert (le_value (slice 84 8 bs) = m_worker_hash_seed m) as -> by manifest_field bs.
  assert (slice 92 36 bs = zeros 36) as -> by
    (unfold bs, manifest_bytes, manifest_front, manifest_back; rewrite <- ?app_assoc; by locate_field).
  rewrite manifest_size_Ok, all_zero_zeros by (unfold_manifest; lia). checks. rewrite Hlen. unfold manifest_size. checks.
  unfold zlen at 1. rewrite Nat2Z.id, Hdec. cbn [bindR]. destruct m; cbn in *.
  by destruct (validate_manifest_cases _ corrupted_data Hok) as [[-> _]|[_ ?]].
Qed.

(** What the decoder says of arbitrary bytes. *)
Lemma decode_manifest_cases bs : bytes_ok bs ->
  match decode_manifest bs with
  | Ok m => manifest_ok m /\ manifest_valid m /\ bs = manifest_bytes m
  | Err e => e = invalid_record \/ e = checksum_mismatch \/ e = corrupted_data
  | Stuck _ => False
  end.
Proof.
  intros Hbs. unfold decode_manifest, nonzero_at. unfold_manifest.
  destruct (Z.ltb_spec (zlen bs) 128) as [|Hl]; [auto|].
  change (84 + 8) with 92. change (44 - 8) with 36. rewrite !subspan_in by lia. reads. rewrite !neR_Ok. cbn [bindR].
  rewrite !orR_Ok. cbn [bindR]. head_if E1; [auto|]. b2p.
  assert (Hcount : is_u32 (le_value (slice 56 4 bs))) by (apply (is_uint_slice bs 56 4); done || lia).
  set (count := le_value (slice 56 4 bs)) in *.
  destruct (Z_le_dec count kMaximumManifestSegmentCount) as [Hmax|Hmax].
  2:{ unfold manifest_size_for_count. rewrite !Z.gtb_ltb. destruct (Z.ltb_spec kMaximumManifestSegmentCount count); [cbn; auto|lia]. }
  rewrite manifest_size_Ok by (unfold is_uint in Hcount; lia). cbn [or_fail bindR]. rewrite neR_Ok. cbn [bindR].
  head_if E2; [auto|]. b2p. unfold is_uint in Hcount. rewrite zeroed_checksum_in by lia. cbn [bindR]. rewrite neR_Ok. cbn [bindR].
  head_if E3; [auto|]. b2p. change (80 + 4) with 84 in *.
  pose proof (decode_entries_cases (Z.to_nat count) bs 0 Hbs ltac:(lia) ltac:(lia)) as Hent.
  destruct (decode_entries _ bs 0) as [segments|e|]; cbn [bindR]; [|naive_solver|done].
  destruct Hent as (Hlen & Hents & Htail). change (128 + 0 * 32) with 128 in Htail.
  set (m := mkManifest _ _ _ _ _ _ _ _ segments).
  assert (Hcnt : zlen segments = count) by (unfold zlen; lia).
  assert (Hok : manifest_ok m).
  { unfold manifest_ok, m. cbn. split_and!; try done; [zl|by apply bytes_ok_slice|..];
      match goal with |- is_uint _ (le_value (slice ?a ?n bs)) => apply (is_uint_slice bs a n); (done || lia) end. }
  destruct (validate_manifest_cases m corrupted_data Hok) as [[-> Hv]|[-> _]]; cbn [bindR]; [|auto].
  split_and!; [done..|].
  assert (slice 0 80 bs = manifest_front m) as Hfront.
  { assert (manifest_size m = 128 + 32 * count) as Hsz by (unfold manifest_size, m; cbn; lia).
    unfold manifest_front, m. fold m. rewrite Hsz. cbn [m_store_id m_manifest_generation m_routing_algorithm m_worker_count
      m_routing_epoch m_next_segment_id m_next_segment_generation m_segments m]. rewrite Hcnt. unfold_manifest. match_fields bs. }
  assert (zdrop 84 bs = manifest_back m) as Hback.
  { unfold manifest_back, m. cbn [m_worker_hash_seed m_segments]. rewrite <- Htail.
    rewrite (zdrop_field bs 84 8), (zdrop_field bs (84 + 8) 36) by lia. change (84 + 8 + 36) with 128. change (84 + 8) with 92.
    f_equal; [apply slice_le_bytes; (done || lia)|]. f_equal.
    match goal with H : all_zero _ = true |- _ => apply all_zero_true in H; by rewrite zlen_slice in H by lia end. }
  unfold manifest_bytes. rewrite <- Hfront, <- Hback. change (slice 0 80 bs) with (ztake 80 bs). rewrite <- E3.
  rewrite <- (slice_le_bytes bs 80 4) by (done || lia).
  rewrite <- (ztake_zdrop 80 bs) at 1. f_equal. by rewrite (zdrop_field bs 80 4) by lia.
Qed.

Lemma manifest_bytes_sealed m : manifest_ok m -> sealed (manifest_size m) 80 (manifest_bytes m).
Proof.
  intros (Hst & _). pose proof (zlen_manifest_front m Hst) as Hf. pose proof (zlen_nonneg (m_segments m)). unfold sealed, manifest_bytes.
  set (crc := crc32c _). assert (is_u32 crc) as Hcrc by (apply wrap_range; lia).
  rewrite (slice_app_r 80 4), Hf by lia. change (80 - 80) with 0.
  rewrite (slice_app_l 0), (slice_whole 4), le_value_field by (done || zl).
  unfold crc. do 2 f_equal; [by rewrite ztake_app_le, ztake_all by lia|].
  f_equal. rewrite slice_app_r, slice_app_r, Hf, zlen_le_bytes by zl. change (80 + 4 - 80 - 4) with 0.
  by rewrite slice_whole by (unfold manifest_size; zl).
Qed.

(** ** Selection *)

Lemma select_loop_cases candidates done_ rest selected best : candidates = done_ ++ rest -> Forall manifest_ok candidates ->
  Forall manifest_valid done_ -> done_ !! Z.to_nat (candidate_index selected) = Some best -> 0 <= candidate_index selected ->
  selected_generation selected = m_manifest_generation best ->
  (forall c, c ∈ done_ -> m_manifest_generation c < m_manifest_generation best \/ c = best) ->
  match select_manifest_loop candidates selected (zlen done_) rest with
  | Ok s => Forall manifest_valid candidates /\ exists m, candidates !! Z.to_nat (candidate_index s) = Some m /\
      selected_generation s = m_manifest_generation m /\
      forall c, c ∈ candidates -> m_manifest_generation c < m_manifest_generation m \/ c = m
  | Err e => e = corrupted_data /\ ((exists c, c ∈ candidates /\ ~ manifest_valid c) \/
      exists c c', c ∈ candidates /\ c' ∈ candidates /\ m_manifest_generation c = m_manifest_generation c' /\ c <> c')
  | Stuck _ => False
  end.
Proof.
  intros -> Hok. revert done_ selected best Hok.
  induction rest as [|c rest IH]; intros done_ selected best Hok Hv Hb Hi Hg Hmax; cbn [select_manifest_loop].
  { rewrite app_nil_r in *. eauto. }
  assert (Hc : manifest_ok c) by (rewrite Forall_app, Forall_cons in Hok; tauto).
  destruct (validate_manifest_cases c corrupted_data Hc) as [[-> Hvc]|[-> Hvc]]; cbn [bindR].
  2:{ split; [done|]. left. exists c. split; [|done]. set_solver. }
  assert (Hnext : forall selected' best', (done_ ++ [c]) !! Z.to_nat (candidate_index selected') = Some best' ->
    0 <= candidate_index selected' -> selected_generation selected' = m_manifest_generation best' ->
    (forall c0, c0 ∈ done_ ++ [c] -> m_manifest_generation c0 < m_manifest_generation best' \/ c0 = best') ->
    match select_manifest_loop (done_ ++ c :: rest) selected' (zlen done_ + 1) rest with
    | Ok s => Forall manifest_valid (done_ ++ c :: rest) /\ exists m, (done_ ++ c :: rest) !! Z.to_nat (candidate_index s) = Some m /\
        selected_generation s = m_manifest_generation m /\
        forall c0, c0 ∈ done_ ++ c :: rest -> m_manifest_generation c0 < m_manifest_generation m \/ c0 = m
    | Err e => e = corrupted_data /\ ((exists c0, c0 ∈ done_ ++ c :: rest /\ ~ manifest_valid c0) \/
        exists c0 c', c0 ∈ done_ ++ c :: rest /\ c' ∈ done_ ++ c :: rest /\ m_manifest_generation c0 = m_manifest_generation c' /\ c0 <> c')
    | Stuck _ => False
    end).
  { intros selected' best' H1 H2 H3 H4. replace (zlen done_ + 1) with (zlen (done_ ++ [c])) by (rewrite zlen_app, zlen_cons, zlen_nil; lia).
    change (done_ ++ c :: rest) with (done_ ++ [c] ++ rest) in *. rewrite (app_assoc done_ [c] rest) in *. apply (IH _ selected' best'); try done.
    apply Forall_app_2; [done|]. by constructor. }
  rewrite Z.gtb_ltb. destruct (Z.ltb_spec (selected_generation selected) (m_manifest_generation c)) as [Hlt|Hge].
  - apply (Hnext _ c); cbn; try done.
    + unfold zlen. rewrite Nat2Z.id. by rewrite lookup_app_r, Nat.sub_diag by lia.
    + apply zlen_nonneg.
    + intros c0 [Hc0|Hc0]%elem_of_app; [|right; by apply list_elem_of_singleton in Hc0]. left.
      destruct (Hmax c0 Hc0) as [?| ->]; lia.
  - assert (Hget : vec_get (done_ ++ c :: rest) (candidate_index selected) = Ok best).
    { rewrite <- (Z2Nat.id (candidate_index selected)) by done. apply vec_get_Some. by apply lookup_app_l_Some. }
    rewrite Hget. cbn [bindR]. destruct (Z.eqb_spec (m_manifest_generation c) (selected_generation selected)) as [E|Hne]; cbn [andb].
    + case_bool_decide as D; cbn [negb].
      * apply (Hnext _ best); try done; [by apply lookup_app_l_Some|]. intros c0 [Hc0|Hc0]%elem_of_app; [auto|].
        right. apply list_elem_of_singleton in Hc0. congruence.
      * split; [done|]. right. exists c, best. split_and!; [set_solver| |congruence|done].
        apply elem_of_app. left. by eapply list_elem_of_lookup_2.
    + apply (Hnext _ best); try done; [by apply lookup_app_l_Some|]. intros c0 [Hc0|Hc0]%elem_of_app; [auto|].
      left. apply list_elem_of_singleton in Hc0 as ->. lia.
Qed.

(** Up to four damaged bytes, not across the edge of the checksum, never decode. *)
Theorem manifest_damage_detected p w w' s m : decode_manifest (p ++ w ++ s) = Ok m ->
  bytes_ok p -> bytes_ok w -> bytes_ok w' -> bytes_ok s ->
  length w = length w' -> (length w <= 4)%nat -> w <> w' ->
  (zlen p + zlen w <= 80 \/ 84 <= zlen p \/ 80 <= zlen p /\ zlen p + zlen w <= 84) ->
  is_Ok (decode_manifest (p ++ w' ++ s)) = false.
Proof.
  intros Hd Hp Hw Hw' Hs Hlen H4 Hne Hpos.
  assert (Hb : bytes_ok (p ++ w ++ s)) by (by repeat apply Forall_app_2).
  assert (Hb' : bytes_ok (p ++ w' ++ s)) by (by repeat apply Forall_app_2).
  pose proof (decode_manifest_cases _ Hb) as Hc. rewrite Hd in Hc. destruct Hc as (Hok & Hv & Heq).
  pose proof (decode_manifest_cases _ Hb') as Hc'. destruct (decode_manifest (p ++ w' ++ s)) as [m'|e|]; [|done..].
  exfalso. destruct Hc' as (Hok' & Hv' & Heq'). pose proof (manifest_bytes_sealed m Hok) as S1.
  pose proof (manifest_bytes_sealed m' Hok') as S2. rewrite <- Heq in S1. rewrite <- Heq' in S2.
  assert (Hz : zlen (p ++ w ++ s) = manifest_size m) by (rewrite Heq; by apply zlen_manifest_bytes, Hok).
  assert (Hz' : zlen (p ++ w' ++ s) = manifest_size m') by (rewrite Heq'; by apply zlen_manifest_bytes, Hok').
  assert (E : manifest_size m' = manifest_size m) by (rewrite <- Hz, <- Hz', !zlen_app; unfold zlen; lia). rewrite E in S2.
  pose proof (zlen_nonneg (m_segments m)).
  exact (sealed_window (manifest_size m) 80 p w w' s Hp Hw Hw' Hs Hlen H4 Hne ltac:(lia) ltac:(unfold manifest_size; lia) Hz ltac:(lia) S1 S2).
Qed.

(** ** Properties *)

(** C18. Bytes decode to a manifest exactly when they are its encoding.  Decoding
    any bytes stays in bounds and fails with one of three codes. *)
Theorem manifest_exact bs : bytes_ok bs ->
  (forall m, manifest_ok m -> decode_manifest bs = Ok m <-> encode_manifest m = Ok bs) /\
  match decode_manifest bs with
  | Ok m => manifest_ok m
  | Err e => e = invalid_record \/ e = checksum_mismatch \/ e = corrupted_data
  | Stuck _ => False
  end.
Proof.
  intros Hbs. pose proof (decode_manifest_cases bs Hbs) as Hc. split; [|destruct (decode_manifest bs); tauto].
  intros m Hok. split.
  - intros E. rewrite E in Hc. destruct Hc as (_ & Hv & ->). by apply encode_manifest_Ok.
  - intros E. apply encode_manifest_inv in E as [Hv ->]; [|done]. by apply decode_manifest_bytes.
Qed.

(** Validation accepts exactly the manifests in which every worker has one
    active segment, the segment identities strictly increase up to the next one,
    owners and roles exist and the other fields are in range; it reports anything
    else with the code the caller gave. *)
Theorem manifest_validated m e : manifest_ok m ->
  (validate_manifest m e = Ok tt <-> manifest_valid m) /\
  (validate_manifest m e = Err e <-> ~ manifest_valid m).
Proof. intros Hok. destruct (validate_manifest_cases m e Hok) as [[-> Hv]|[-> Hv]]; split; split; done. Qed.

(** The selected manifest is a candidate of the highest generation, and every
    other candidate of that generation equals it.  Selection fails only when there
    is no candidate, when one is not valid, or when two of the same generation
    disagree. *)
Theorem select_newest_manifest_newest candidates : Forall manifest_ok candidates ->
  match select_newest_manifest candidates with
  | Ok s => Forall manifest_valid candidates /\ exists m, candidates !! Z.to_nat (candidate_index s) = Some m /\
      selected_generation s = m_manifest_generation m /\
      forall c, c ∈ candidates -> m_manifest_generation c < m_manifest_generation m \/ c = m
  | Err e => e = invalid_argument /\ candidates = [] \/
      e = corrupted_data /\ ((exists c, c ∈ candidates /\ ~ manifest_valid c) \/
        exists c c', c ∈ candidates /\ c' ∈ candidates /\ m_manifest_generation c = m_manifest_generation c' /\ c <> c')
  | Stuck _ => False
  end.
Proof.
  intros Hok. unfold select_newest_manifest. destruct candidates as [|front rest]; [by left|].
  destruct (validate_manifest_cases front corrupted_data) as [[-> Hv]|[-> Hv]]; [by inversion Hok| |]; cbn [bindR].
  2:{ right. split; [done|]. left. exists front. split; [set_solver|done]. }
  pose proof (select_loop_cases (front :: rest) [front] rest (mkSelectedManifest 0 (m_manifest_generation front)) front
    eq_refl Hok ltac:(by constructor) eq_refl ltac:(done) eq_refl) as Hc.
  change (zlen [front]) with 1 in Hc. destruct (select_manifest_loop _ _ _ _).
  - apply Hc. intros c Hc'. right. by apply list_elem_of_singleton in Hc'.
  - right. apply Hc. intros c Hc'. right. by apply list_elem_of_singleton in Hc'.
  - apply Hc. intros c Hc'. right. by apply list_elem_of_singleton in Hc'.
Qed.

(** ** Witnesses *)

Definition sample_manifest (generation : Z) : Manifest :=
  mkManifest (1 :: zeros 15) generation 2 2 1 77 9 1
    [mkEntry 3 1 0 ManifestSegmentRole_sealed; mkEntry 5 1 1 ManifestSegmentRole_active; mkEntry 8 2 0 ManifestSegmentRole_active].

Lemma sample_manifest_ok generation : is_u64 generation -> manifest_ok (sample_manifest generation).
Proof.
  intros H. unfold manifest_ok, sample_manifest. cbn [m_store_id m_manifest_generation m_routing_algorithm m_worker_count
    m_routing_epoch m_worker_hash_seed m_next_segment_id m_next_segment_generation m_segments].
  split_and!; try done; [bytes_eval|]. repeat (apply Forall_cons_2; [split_and!; done|]). constructor.
Qed.

Lemma manifest_exact_witness :
  encode_manifest (sample_manifest 4) = Ok (manifest_bytes (sample_manifest 4)) /\
  decode_manifest (manifest_bytes (sample_manifest 4)) = Ok (sample_manifest 4).
Proof.
  assert (Hok : manifest_ok (sample_manifest 4)) by (by apply sample_manifest_ok).
  assert (E : encode_manifest (sample_manifest 4) = Ok (manifest_bytes (sample_manifest 4))) by (vm_compute; reflexivity).
  split; [exact E|]. assert (Hb : bytes_ok (manifest_bytes (sample_manifest 4))) by bytes_eval.
  destruct (manifest_exact _ Hb) as [H _].
  destruct (H _ Hok) as [_ H']. exact (H' E).
Defined.

Lemma manifest_validated_witness :
  (validate_manifest (sample_manifest 4) corrupted_data = Ok tt <-> manifest_valid (sample_manifest 4)) /\
  (validate_manifest (sample_manifest 4) corrupted_data = Err corrupted_data <-> ~ manifest_valid (sample_manifest 4)).
Proof. apply (manifest_validated (sample_manifest 4) corrupted_data). by apply sample_manifest_ok. Defined.

Lemma select_newest_manifest_witness :
  let candidates := [sample_manifest 4; sample_manifest 6; sample_manifest 6] in
  select_newest_manifest candidates = Ok (mkSelectedManifest 1 6) /\ Forall manifest_valid candidates.
Proof.
  intros candidates.
  assert (E : select_newest_manifest candidates = Ok (mkSelectedManifest 1 6)) by (vm_compute; reflexivity).
  split; [exact E|].
  pose proof (select_newest_manifest_newest candidates ltac:(repeat (apply Forall_cons_2; [by apply sample_manifest_ok|]); constructor)) as H.
  rewrite E in H. apply H.
Defined.
