(* ===== verification/Protocol.v ===== *)
(** * The wire protocol

    Models src/server/protocol.cpp and its header: the frames of requests and
    responses, their validation and their incremental decoding from a stream.  The
    theorems show that a decoder and its encoder are inverse, that a prefix of a
    frame is never taken for a frame nor refused, and that decoding any input stays
    in bounds. *)

From S2P Require Import Prelude Core.

Definition kProtocolVersion : Z := 2.
Definition kRequestHeaderBytes : Z := 40.
Definition kResponseHeaderBytes : Z := 40.
Definition kMaxFrameBytes : Z := 2 * 1024 * 1024.
Definition kNoWorker : Z := 0xFFFFFFFF.

(** [enum class RequestOpcode : std::uint8_t] holds any 8-bit value. *)
Definition RequestOpcode_init : Z := 1.
Definition RequestOpcode_ping : Z := 2.
Definition RequestOpcode_get : Z := 3.
Definition RequestOpcode_put : Z := 4.
Definition RequestOpcode_erase : Z := 5.
Definition RequestOpcode_bind_worker : Z := 6.
Definition RequestOpcode_health : Z := 7.
Definition RequestOpcode_ready : Z := 8.
Definition RequestOpcode_stats : Z := 9.
Definition RequestOpcode_backup : Z := 10.

(** [enum class ResponseStatus : std::uint16_t] *)
Definition ResponseStatus_ok : Z := 0.
Definition ResponseStatus_invalid_request : Z := 1.
Definition ResponseStatus_unsupported : Z := 2.
Definition ResponseStatus_internal_error : Z := 3.
Definition ResponseStatus_not_found : Z := 4.
Definition ResponseStatus_overloaded : Z := 5.
Definition ResponseStatus_wrong_owner : Z := 6.
Definition ResponseStatus_not_bound : Z := 7.
Definition ResponseStatus_permission_denied : Z := 8.

Record RequestView := mkRequest {
  rq_opcode : Z;
  rq_flags : Z;
  rq_request_id : Z;
  rq_expire_at_ns : Z;
  rq_target_worker : Z;
  rq_key : list Z;
  rq_value : list Z
}.

Record ResponseView := mkResponse {
  rs_status : Z;
  rs_request_id : Z;
  rs_owner_worker : Z;
  rs_worker_count : Z;
  rs_routing_epoch : Z;
  rs_value : list Z
}.

(** [DecodedFrame<View>]: [None] is a frame that is not complete. *)
Definition DecodedFrame (View : Type) : Type := option (Z * View).

Definition request_opcode (encoded : Z) : Result Z :=
  if encoded =? RequestOpcode_init then Ok RequestOpcode_init
  else if encoded =? RequestOpcode_ping then Ok RequestOpcode_ping
  else if encoded =? RequestOpcode_get then Ok RequestOpcode_get
  else if encoded =? RequestOpcode_put then Ok RequestOpcode_put
  else if encoded =? RequestOpcode_erase then Ok RequestOpcode_erase
  else if encoded =? RequestOpcode_bind_worker then Ok RequestOpcode_bind_worker
  else if encoded =? RequestOpcode_health then Ok RequestOpcode_health
  else if encoded =? RequestOpcode_ready then Ok RequestOpcode_ready
  else if encoded =? RequestOpcode_stats then Ok RequestOpcode_stats
  else if encoded =? RequestOpcode_backup then Ok RequestOpcode_backup
  else Err invalid_record.

Definition response_status (encoded : Z) : Result Z :=
  if encoded =? ResponseStatus_ok then Ok ResponseStatus_ok
  else if encoded =? ResponseStatus_invalid_request then Ok ResponseStatus_invalid_request
  else if encoded =? ResponseStatus_unsupported then Ok ResponseStatus_unsupported
  else if encoded =? ResponseStatus_internal_error then Ok ResponseStatus_internal_error
  else if encoded =? ResponseStatus_not_found then Ok ResponseStatus_not_found
  else if encoded =? ResponseStatus_overloaded then Ok ResponseStatus_overloaded
  else if encoded =? ResponseStatus_wrong_owner then Ok ResponseStatus_wrong_owner
  else if encoded =? ResponseStatus_not_bound then Ok ResponseStatus_not_bound
  else if encoded =? ResponseStatus_permission_denied then Ok ResponseStatus_permission_denied
  else Err invalid_record.

Definition checked_frame_size (header_size first_size second_size : Z) : Result Z :=
  let? with_first := checked_add 64 header_size first_size in
  checked_add 64 with_first second_size.

Definition checked_u32 (value : Z) : Result Z :=
  if value >? umax 32 then Err record_too_large else Ok (u32 value).

Definition validate_request_fields (request : RequestView) : Status :=
  let has_key := negb (zlen (rq_key request) =? 0) in
  let has_value := negb (zlen (rq_value request) =? 0) in
  let has_expiry := negb (rq_expire_at_ns request =? 0) in
  let has_target := negb (rq_target_worker request =? kNoWorker) in
  let opcode := rq_opcode request in
  if (opcode =? RequestOpcode_init) || (opcode =? RequestOpcode_health) ||
     (opcode =? RequestOpcode_ready) || (opcode =? RequestOpcode_stats)
  then if has_key || has_value || has_expiry || has_target then Err invalid_argument else Ok tt
  else if opcode =? RequestOpcode_ping
  then if has_key || has_expiry || has_target then Err invalid_argument else Ok tt
  else if opcode =? RequestOpcode_backup
  then if negb has_key || has_value || has_expiry || has_target then Err invalid_argument else Ok tt
  else if opcode =? RequestOpcode_get
  then if negb has_key || has_value || has_expiry || has_target then Err invalid_argument else Ok tt
  else if opcode =? RequestOpcode_put
  then if negb has_key || has_target then Err invalid_argument else Ok tt
  else if opcode =? RequestOpcode_erase
  then if negb has_key || has_value || has_expiry || has_target then Err invalid_argument else Ok tt
  else if opcode =? RequestOpcode_bind_worker
  then if has_key || has_value || has_expiry then Err invalid_argument
       else if negb has_target then Err invalid_argument else Ok tt
  else Err invalid_argument.

Definition decode_request (input : list Z) (maximum_frame_bytes : Z) : Result (DecodedFrame RequestView) :=
  if zlen input <? 4 then Ok None
  else
  let? frame_size := get_u32 input 0 in
  if (frame_size <? kRequestHeaderBytes) || (frame_size >? maximum_frame_bytes) then Err invalid_record
  else if zlen input <? frame_size then Ok None
  else
  let? bad := get_u16 input 4 <>? kProtocolVersion in
  if (bad : bool) then Err invalid_record
  else
  let? bad := get_byte input 7 <>? 0 ||? get_u32 input 36 <>? 0 in
  if (bad : bool) then Err invalid_record
  else
  let? encoded := get_byte input 6 in
  let? opcode := request_opcode encoded in
  let? key_size := get_u32 input 16 in
  let? value_size := get_u32 input 20 in
  let? expected_size := checked_frame_size kRequestHeaderBytes key_size value_size in
  if negb (expected_size =? frame_size) then Err invalid_record
  else
  let? key := subspan input kRequestHeaderBytes key_size in
  let? value := subspan input (kRequestHeaderBytes + key_size) value_size in
  let? flags := get_byte input 7 in
  let? request_id := get_u64 input 8 in
  let? expire_at_ns := get_u64 input 24 in
  let? target_worker := get_u32 input 32 in
  let frame := mkRequest opcode flags request_id expire_at_ns target_worker key value in
  validate_request_fields frame ;;?
  Ok (Some (frame_size, frame)).

Definition decode_response (input : list Z) (maximum_frame_bytes : Z) : Result (DecodedFrame ResponseView) :=
  if zlen input <? 4 then Ok None
  else
  let? frame_size := get_u32 input 0 in
  if (frame_size <? kResponseHeaderBytes) || (frame_size >? maximum_frame_bytes) then Err invalid_record
  else if zlen input <? frame_size then Ok None
  else
  let? bad := get_u16 input 4 <>? kProtocolVersion in
  if (bad : bool) then Err invalid_record
  else
  let? bad := get_u32 input 28 <>? 0 in
  if (bad : bool) then Err invalid_record
  else
  let? encoded := get_u16 input 6 in
  let? status := response_status encoded in
  let? value_size := get_u32 input 16 in
  let? expected_size := or_fail (checked_frame_size kResponseHeaderBytes value_size 0) invalid_record in
  if negb (expected_size =? frame_size) then Err invalid_record
  else
  let? request_id := get_u64 input 8 in
  let? owner_worker := get_u32 input 20 in
  let? worker_count := get_u32 input 24 in
  let? routing_epoch := get_u64 input 32 in
  let? value := subspan input kResponseHeaderBytes value_size in
  Ok (Some (frame_size, mkResponse status request_id owner_worker worker_count routing_epoch value)).

Definition encoded_request_size (request : RequestView) : Result Z :=
  if negb (rq_flags request =? 0) then Err invalid_argument
  else
  validate_request_fields request ;;?
  let? frame_size :=
    or_fail (checked_frame_size kRequestHeaderBytes (zlen (rq_key request)) (zlen (rq_value request)))
      record_too_large in
  if frame_size >? kMaxFrameBytes then Err record_too_large else Ok frame_size.

(** A method that writes to the buffer of its caller unless it fails. *)
Definition writes {A} (r : list Z -> Result (A * list Z)) : Method (list Z) A := fun output =>
  match r output with
  | Ok (a, output') => (Ok a, output')
  | Err e => (Err e, output)
  | Stuck f => (Stuck f, output)
  end.

(** [encode_request(output, request)] *)
Definition encode_request_into (request : RequestView) : Method (list Z) Z := writes (fun output =>
  let? frame_size := encoded_request_size request in
  if zlen output <? frame_size then Err invalid_argument
  else
  let? encoded_frame_size := or_fail (checked_u32 frame_size) record_too_large in
  let? encoded_key_size := or_fail (checked_u32 (zlen (rq_key request))) record_too_large in
  let? encoded_value_size := or_fail (checked_u32 (zlen (rq_value request))) record_too_large in
  let? bytes := first output frame_size in
  let? bytes := put_u32 bytes 0 encoded_frame_size in
  let? bytes := put_u16 bytes 4 kProtocolVersion in
  let? bytes := set_byte bytes 6 (rq_opcode request) in
  let? bytes := set_byte bytes 7 (rq_flags request) in
  let? bytes := put_u64 bytes 8 (rq_request_id request) in
  let? bytes := put_u32 bytes 16 encoded_key_size in
  let? bytes := put_u32 bytes 20 encoded_value_size in
  let? bytes := put_u64 bytes 24 (rq_expire_at_ns request) in
  let? bytes := put_u32 bytes 32 (rq_target_worker request) in
  let? bytes := put_u32 bytes 36 0 in
  let? bytes := memcpy bytes kRequestHeaderBytes (rq_key request) in
  let? bytes := memcpy bytes (kRequestHeaderBytes + zlen (rq_key request)) (rq_value request) in
  let? output := memcpy output 0 bytes in
  Ok (frame_size, output)).

Definition encode_request (request : RequestView) : Result (list Z) :=
  let? frame_size := encoded_request_size request in
  let '(encoded, output) := encode_request_into request (zeros frame_size) in
  encoded ;;? Ok output.

Definition encoded_response_size (response : ResponseView) : Result Z :=
  let? frame_size :=
    or_fail (checked_frame_size kResponseHeaderBytes (zlen (rs_value response)) 0) record_too_large in
  if frame_size >? kMaxFrameBytes then Err record_too_large else Ok frame_size.

Definition encode_response_header (response : ResponseView) : Method (list Z) Z := writes (fun output =>
  let? frame_size := encoded_response_size response in
  if zlen output <? kResponseHeaderBytes then Err invalid_argument
  else
  let? encoded_frame_size := or_fail (checked_u32 frame_size) record_too_large in
  let? encoded_value_size := or_fail (checked_u32 (zlen (rs_value response))) record_too_large in
  let? bytes := first output kResponseHeaderBytes in
  let? bytes := put_u32 bytes 0 encoded_frame_size in
  let? bytes := put_u16 bytes 4 kProtocolVersion in
  let? bytes := put_u16 bytes 6 (rs_status response) in
  let? bytes := put_u64 bytes 8 (rs_request_id response) in
  let? bytes := put_u32 bytes 16 encoded_value_size in
  let? bytes := put_u32 bytes 20 (rs_owner_worker response) in
  let? bytes := put_u32 bytes 24 (rs_worker_count response) in
  let? bytes := put_u32 bytes 28 0 in
  let? bytes := put_u64 bytes 32 (rs_routing_epoch response) in
  let? output := memcpy output 0 bytes in
  Ok (frame_size, output)).

(** [encode_response(output, response)]: a buffer that is too small keeps the header. *)
Definition encode_response_into (response : ResponseView) : Method (list Z) Z :=
  let! frame_size := encode_response_header response in
  let! output := getM in
  if zlen output <? frame_size then failM invalid_argument
  else
  writes (fun output =>
    let? output := memcpy output kResponseHeaderBytes (rs_value response) in
    Ok (frame_size, output)).

Definition encode_response (response : ResponseView) : Result (list Z) :=
  let? frame_size := encoded_response_size response in
  let '(encoded, output) := encode_response_into response (zeros frame_size) in
  encoded ;;? Ok output.

(** ** Frames as sequences of fields *)

Lemma get_byte_in bs a : bytes_ok bs -> 0 <= a -> a + 1 <= zlen bs -> get_byte bs a = Ok (le_value (slice a 1 bs)).
Proof.
  intros Hbs Ha Hl. destruct (get_byte_lt bs a ltac:(lia)) as (b & -> & Hb).
  assert (Hok : byte_ok b) by (rewrite Forall_lookup in Hbs; by eapply Hbs).
  rewrite (slice_cons bs a 1 b) by (done || lia). rewrite slice_0.
  change (le_value [b]) with (Z.lor b (Z.shiftl 0 8)).
  by rewrite Z.shiftl_0_l, Z.lor_0_r.
Qed.

Lemma le_bytes_1 b : byte_ok b -> le_bytes 1 b = [b].
Proof.
  intros Hb. rewrite <- (le_bytes_le_value [b]) by (by constructor). change (zlen [b]) with 1. f_equal.
  change (le_value [b]) with (Z.lor b (Z.shiftl 0 8)). by rewrite Z.shiftl_0_l, Z.lor_0_r.
Qed.

Lemma set_byte_fill p o at_ at' b : byte_ok b -> zlen p = at_ -> at_ + 1 = at' -> at' <= zlen o ->
  set_byte (p ++ zdrop at_ o) at_ b = Ok ((p ++ le_bytes 1 b) ++ zdrop at' o).
Proof. intros Hb ???. rewrite set_byte_memcpy, le_bytes_1 by done. by apply memcpy_fill. Qed.

Definition request_ok (r : RequestView) : Prop :=
  is_u8 (rq_opcode r) /\ is_u8 (rq_flags r) /\ is_u64 (rq_request_id r) /\ is_u64 (rq_expire_at_ns r) /\
  is_u32 (rq_target_worker r) /\ bytes_ok (rq_key r) /\ bytes_ok (rq_value r).
Definition request_size (r : RequestView) : Z := 40 + zlen (rq_key r) + zlen (rq_value r).
Definition request_valid (r : RequestView) : Prop :=
  rq_flags r = 0 /\ validate_request_fields r = Ok tt.
Definition request_header (r : RequestView) : list Z :=
  le_bytes 4 (request_size r) ++ le_bytes 2 kProtocolVersion ++ le_bytes 1 (rq_opcode r) ++ le_bytes 1 0 ++
  le_bytes 8 (rq_request_id r) ++ le_bytes 4 (zlen (rq_key r)) ++ le_bytes 4 (zlen (rq_value r)) ++
  le_bytes 8 (rq_expire_at_ns r) ++ le_bytes 4 (rq_target_worker r) ++ le_bytes 4 0.
Definition request_bytes (r : RequestView) : list Z := request_header r ++ rq_key r ++ rq_value r.

Definition response_ok (r : ResponseView) : Prop :=
  is_u16 (rs_status r) /\ is_u64 (rs_request_id r) /\ is_u32 (rs_owner_worker r) /\ is_u32 (rs_worker_count r) /\
  is_u64 (rs_routing_epoch r) /\ bytes_ok (rs_value r).
Definition response_size (r : ResponseView) : Z := 40 + zlen (rs_value r).
Definition response_header (r : ResponseView) : list Z :=
  le_bytes 4 (response_size r) ++ le_bytes 2 kProtocolVersion ++ le_bytes 2 (rs_status r) ++
  le_bytes 8 (rs_request_id r) ++ le_bytes 4 (zlen (rs_value r)) ++ le_bytes 4 (rs_owner_worker r) ++
  le_bytes 4 (rs_worker_count r) ++ le_bytes 4 0 ++ le_bytes 8 (rs_routing_epoch r).
Definition response_bytes (r : ResponseView) : list Z := response_header r ++ rs_value r.

Lemma zlen_request_header r : zlen (request_header r) = 40.
Proof. unfold request_header. zl. Qed.
#[export] Hint Rewrite zlen_request_header : zlen.
Lemma zlen_request_bytes r : zlen (request_bytes r) = request_size r.
Proof. unfold request_bytes, request_size. zl. Qed.
Lemma zlen_response_header r : zlen (response_header r) = 40.
Proof. unfold response_header. zl. Qed.
#[export] Hint Rewrite zlen_response_header : zlen.
Lemma zlen_response_bytes r : zlen (response_bytes r) = response_size r.
Proof. unfold response_bytes, response_size. zl. Qed.

Lemma request_bytes_ok r : request_ok r -> bytes_ok (request_bytes r).
Proof.
  intros (_ & _ & _ & _ & _ & ? & ?). unfold request_bytes, request_header.
  repeat apply Forall_app_2; try done; apply le_bytes_ok; lia.
Qed.
Lemma response_bytes_ok r : response_ok r -> bytes_ok (response_bytes r).
Proof.
  intros (_ & _ & _ & _ & _ & ?). unfold response_bytes, response_header.
  repeat apply Forall_app_2; try done; apply le_bytes_ok; lia.
Qed.

(** A known code is decoded as itself, any other is refused. *)
Ltac code_cases f x :=
  unfold f; repeat match goal with |- context [if x =? ?k then _ else _] => destruct (Z.eqb_spec x k) as [->|] end.

Lemma request_opcode_cases x : request_opcode x = Ok x /\ 1 <= x <= 10 \/ request_opcode x = Err invalid_record.
Proof. code_cases request_opcode x; first [by left|by right]. Qed.
Lemma response_status_cases x :
  response_status x = Ok x /\ 0 <= x <= 8 \/ response_status x = Err invalid_record /\ ~ 0 <= x <= 8.
Proof.
  code_cases response_status x; try by left.
  right. split; [done|]. unfold ResponseStatus_ok, ResponseStatus_invalid_request, ResponseStatus_unsupported,
    ResponseStatus_internal_error, ResponseStatus_not_found, ResponseStatus_overloaded, ResponseStatus_wrong_owner,
    ResponseStatus_not_bound, ResponseStatus_permission_denied in *. lia.
Qed.

Lemma validate_fields_cases r :
  validate_request_fields r = Ok tt /\ request_opcode (rq_opcode r) = Ok (rq_opcode r) \/
  validate_request_fields r = Err invalid_argument.
Proof.
  unfold validate_request_fields, request_opcode. generalize (rq_opcode r). intros x.
  repeat match goal with |- context [x =? ?k] =>
    destruct (Z.eqb_spec x k) as [->|];
    [change (k =? k) with true; cbn [orb]; repeat (destruct (orb _ _) || destruct (negb _)); first [by left|by right]|]
  end; by right.
Qed.

Lemma checked_frame_size_Ok k v : 0 <= k < 2 ^ 62 -> 0 <= v < 2 ^ 62 -> checked_frame_size 40 k v = Ok (40 + k + v).
Proof.
  intros Hk Hv. change (2 ^ 62) with 4611686018427387904 in *. unfold checked_frame_size.
  rewrite checked_add_Ok by (width; lia). destruct (Z.ltb_spec (40 + k) (2 ^ 64)); [|width; lia]. cbn [bindR].
  rewrite checked_add_Ok by (width; lia). destruct (Z.ltb_spec (40 + k + v) (2 ^ 64)); [done|width; lia].
Qed.
Lemma checked_u32_Ok v : is_u32 v -> checked_u32 v = Ok v.
Proof.
  intros H. unfold checked_u32. rewrite Z.gtb_ltb. destruct (Z.ltb_spec (umax 32) v); [width; lia|]. by rewrite wrap_small.
Qed.

(** ** Encoding *)

Lemma request_size_Ok r : request_valid r -> request_size r <= kMaxFrameBytes -> encoded_request_size r = Ok (request_size r).
Proof.
  intros [Hf Hv] Hs. pose proof (zlen_nonneg (rq_key r)). pose proof (zlen_nonneg (rq_value r)).
  unfold encoded_request_size. rewrite Hf, Hv. cbn [negb Z.eqb bindR]. unfold kRequestHeaderBytes. unfold request_size, kMaxFrameBytes in *.
  rewrite checked_frame_size_Ok by lia. cbn [or_fail bindR]. rewrite Z.gtb_ltb.
  destruct (Z.ltb_spec (2 * 1024 * 1024) (40 + zlen (rq_key r) + zlen (rq_value r))); [lia|done].
Qed.

Lemma encode_request_into_Ok out r : request_ok r -> request_valid r -> request_size r <= kMaxFrameBytes ->
  request_size r <= zlen out ->
  encode_request_into r out = (Ok (request_size r), request_bytes r ++ zdrop (request_size r) out).
Proof.
  intros (Hop & _) Hv Hs Hl. pose proof (zlen_nonneg (rq_key r)). pose proof (zlen_nonneg (rq_value r)).
  unfold encode_request_into, writes. rewrite request_size_Ok by done. cbn [bindR].
  destruct (Z.ltb_spec (zlen out) (request_size r)); [lia|].
  assert (Hsz : request_size r = 40 + zlen (rq_key r) + zlen (rq_value r)) by done. unfold kMaxFrameBytes in Hs.
  rewrite !checked_u32_Ok by (width; lia). cbn [or_fail bindR]. rewrite first_in by lia. cbn [bindR].
  set (o := ztake (request_size r) out). assert (Ho : zlen o = request_size r) by (unfold o; zl).
  destruct Hv as [Hf Hv]. rewrite Hf. unfold kRequestHeaderBytes. change o with ([] ++ zdrop 0 o). fill.
  rewrite (set_byte_fill _ o 6 7) by (done || zl). cbn [bindR]. rewrite (set_byte_fill _ o 7 8) by (done || zl). cbn [bindR]. fill.
  rewrite (memcpy_fill _ o 40 (40 + zlen (rq_key r))) by zl. cbn [bindR].
  rewrite (memcpy_fill _ o (40 + zlen (rq_key r)) (request_size r)) by zl. cbn [bindR].
  rewrite (zdrop_all (request_size r) o), app_nil_r by lia.
  match goal with |- context [memcpy out 0 ?b] => assert (b = request_bytes r) as ->
    by (unfold request_bytes, request_header; by rewrite <- !app_assoc) end.
  change out with ([] ++ zdrop 0 out) at 1.
  by rewrite (memcpy_fill [] out 0 (request_size r) (request_bytes r)) by (rewrite ?zlen_request_bytes; done).
Qed.

Lemma encode_request_Ok r : request_ok r -> request_valid r -> request_size r <= kMaxFrameBytes ->
  encode_request r = Ok (request_bytes r).
Proof.
  intros Hok Hv Hs. pose proof (zlen_nonneg (rq_key r)). pose proof (zlen_nonneg (rq_value r)).
  unfold encode_request. rewrite request_size_Ok by done. cbn [bindR].
  assert (0 <= request_size r) by (unfold request_size; lia).
  rewrite encode_request_into_Ok by (done || zl). cbn [bindR]. by rewrite zdrop_all, app_nil_r by zl.
Qed.

Lemma encode_request_inv r frame : request_ok r -> zlen (rq_key r) < 2 ^ 62 -> zlen (rq_value r) < 2 ^ 62 ->
  encode_request r = Ok frame -> request_valid r /\ request_size r <= kMaxFrameBytes /\ frame = request_bytes r.
Proof.
  intros Hok Hk Hw H. pose proof (zlen_nonneg (rq_key r)). pose proof (zlen_nonneg (rq_value r)).
  assert (Hd : request_valid r /\ request_size r <= kMaxFrameBytes).
  { unfold encode_request, encoded_request_size in H. apply bindR_Ok in H as (size & H & _). peel H. b2p.
    unfold kRequestHeaderBytes in *. rewrite checked_frame_size_Ok in Hv0 by lia. cbn [or_fail] in Hv0. simplify_eq.
    destruct v. unfold request_valid, request_size. rewrite Z.gtb_ltb in *. b2p. split; [done|lia]. }
  destruct Hd as [Hv Hs]. rewrite encode_request_Ok in H by done. apply Ok_inj in H as <-. done.
Qed.

Lemma response_size_Ok r : response_size r <= kMaxFrameBytes -> encoded_response_size r = Ok (response_size r).
Proof.
  intros Hs. pose proof (zlen_nonneg (rs_value r)). unfold encoded_response_size, kResponseHeaderBytes.
  unfold response_size, kMaxFrameBytes in *. rewrite checked_frame_size_Ok by lia. cbn [or_fail bindR]. rewrite Z.gtb_ltb.
  destruct (Z.ltb_spec (2 * 1024 * 1024) (40 + zlen (rs_value r) + 0)); [lia|]. f_equal. lia.
Qed.

Lemma encode_response_into_Ok out r : response_size r <= kMaxFrameBytes -> response_size r <= zlen out ->
  encode_response_into r out = (Ok (response_size r), response_bytes r ++ zdrop (response_size r) out).
Proof.
  intros Hs Hl. pose proof (zlen_nonneg (rs_value r)).
  assert (Hsz : response_size r = 40 + zlen (rs_value r)) by done.
  assert (Hh : encode_response_header r out = (Ok (response_size r), response_header r ++ zdrop 40 out)).
  { unfold encode_response_header, writes. rewrite response_size_Ok by done. cbn [bindR]. unfold kResponseHeaderBytes.
    destruct (Z.ltb_spec (zlen out) 40); [lia|]. unfold kMaxFrameBytes in Hs.
    rewrite !checked_u32_Ok by (width; lia). cbn [or_fail bindR]. rewrite first_in by lia. cbn [bindR].
    set (o := ztake 40 out). assert (Ho : zlen o = 40) by (unfold o; zl). change o with ([] ++ zdrop 0 o). fill.
    rewrite (zdrop_all 40 o), app_nil_r by lia.
    match goal with |- context [memcpy out 0 ?b] => assert (b = response_header r) as ->
      by (unfold response_header; by rewrite <- !app_assoc) end.
    change out with ([] ++ zdrop 0 out) at 1. by rewrite (memcpy_fill [] out 0 40 (response_header r)) by zl. }
  unfold encode_response_into. rewrite (bindM_Ok _ _ _ _ _ Hh), bindM_get.
  destruct (Z.ltb_spec (zlen (response_header r ++ zdrop 40 out)) (response_size r)); [zl|].
  unfold writes, kResponseHeaderBytes. rewrite (memcpy_fill _ out 40 (response_size r)) by zl. cbn [bindR].
  unfold response_bytes. done.
Qed.

Lemma encode_response_Ok r : response_size r <= kMaxFrameBytes -> encode_response r = Ok (response_bytes r).
Proof.
  intros Hs. pose proof (zlen_nonneg (rs_value r)). unfold encode_response. rewrite response_size_Ok by done. cbn [bindR].
  assert (0 <= response_size r) by (unfold response_size; lia).
  rewrite encode_response_into_Ok by (done || zl). cbn [bindR]. by rewrite zdrop_all, app_nil_r by zl.
Qed.

Lemma encode_response_inv r frame : zlen (rs_value r) < 2 ^ 62 -> encode_response r = Ok frame ->
  response_size r <= kMaxFrameBytes /\ frame = response_bytes r.
Proof.
  intros Hk H. pose proof (zlen_nonneg (rs_value r)).
  assert (Hs : response_size r <= kMaxFrameBytes).
  { unfold encode_response, encoded_response_size in H. apply bindR_Ok in H as (size & H & _). peel H.
    unfold kResponseHeaderBytes in *. rewrite checked_frame_size_Ok in Hv by lia. cbn [or_fail] in Hv. simplify_eq.
    rewrite Z.gtb_ltb in *. b2p.
    unfold response_size. lia. }
  rewrite encode_response_Ok in H by done. apply Ok_inj in H as <-. done.
Qed.

(** ** Decoding *)

Ltac unfold_protocol := unfold kProtocolVersion, kRequestHeaderBytes, kResponseHeaderBytes, kMaxFrameBytes in *.
Ltac request_field bs := unfold bs, request_bytes, request_header; known_field.
Ltac response_field bs := unfold bs, response_bytes, response_header; known_field.

Lemma decode_request_bytes r tail max : request_ok r -> request_valid r -> request_size r <= max -> bytes_ok tail ->
  request_size r < 2 ^ 32 -> decode_request (request_bytes r ++ tail) max = Ok (Some (request_size r, r)).
Proof.
  intros Hok (Hf & Hv) Hmax Ht H32. pose proof (request_bytes_ok r Hok) as Hb.
  destruct Hok as (Hop & _ & Hid & Hx & Hw & Hkb & Hvb).
  pose proof (zlen_nonneg (rq_key r)). pose proof (zlen_nonneg (rq_value r)). pose proof (zlen_nonneg tail).
  set (bs := request_bytes r ++ tail). assert (Hsz : request_size r = 40 + zlen (rq_key r) + zlen (rq_value r)) by done.
  assert (Hlen : zlen bs = request_size r + zlen tail) by (unfold bs; by rewrite zlen_app, zlen_request_bytes).
  assert (Hbs : bytes_ok bs) by (by apply Forall_app_2). change (2 ^ 32) with 4294967296 in H32.
  unfold decode_request. unfold_protocol. destruct (Z.ltb_spec (zlen bs) 4); [lia|].
  rewrite !(get_byte_in bs) by (done || lia). reads. cbn [bindR].
  assert (le_value (slice 0 4 bs) = request_size r) as -> by (assert (is_u32 (request_size r)) by (width; lia); request_field bs).
  assert (le_value (slice 4 2 bs) = 2) as -> by request_field bs.
  assert (le_value (slice 6 1 bs) = rq_opcode r) as -> by request_field bs.
  assert (le_value (slice 7 1 bs) = 0) as -> by request_field bs.
  assert (le_value (slice 8 8 bs) = rq_request_id r) as -> by request_field bs.
  assert (le_value (slice 16 4 bs) = zlen (rq_key r)) as -> by request_field bs.
  assert (le_value (slice 20 4 bs) = zlen (rq_value r)) as -> by request_field bs.
  assert (le_value (slice 24 8 bs) = rq_expire_at_ns r) as -> by request_field bs.
  assert (le_value (slice 32 4 bs) = rq_target_worker r) as -> by request_field bs.
  assert (le_value (slice 36 4 bs) = 0) as -> by request_field bs.
  rewrite Z.gtb_ltb. destruct (Z.ltb_spec (request_size r) 40); [lia|]. destruct (Z.ltb_spec max (request_size r)); [lia|]. cbn [orb].
  destruct (Z.ltb_spec (zlen bs) (request_size r)); [lia|]. checks.
  destruct (validate_fields_cases r) as [[_ Eo]|E]; [|congruence]. rewrite Eo. cbn [bindR].
  rewrite checked_frame_size_Ok by lia. cbn [bindR]. rewrite <- Hsz. checks. rewrite !subspan_in by lia. cbn [bindR].
  assert (slice 40 (zlen (rq_key r)) bs = rq_key r) as ->.
  { unfold bs, request_bytes. rewrite <- !app_assoc, slice_app_r, slice_app_l by zl. apply slice_whole. zl. }
  assert (slice (40 + zlen (rq_key r)) (zlen (rq_value r)) bs = rq_value r) as ->.
  { unfold bs, request_bytes. rewrite <- !app_assoc, slice_app_r, slice_app_r, slice_app_l by zl.
    replace (_ - _ - _) with 0 by zl. by apply slice_whole. }
  destruct r; cbn in *. subst. by rewrite Hv.
Qed.

Lemma decode_response_bytes r tail max : response_ok r -> 0 <= rs_status r <= 8 -> response_size r <= max -> bytes_ok tail ->
  response_size r < 2 ^ 32 -> decode_response (response_bytes r ++ tail) max = Ok (Some (response_size r, r)).
Proof.
  intros (Hst & Hid & How & Hw & He & Hvb) Hs Hmax Ht H32. pose proof (zlen_nonneg (rs_value r)). pose proof (zlen_nonneg tail).
  set (bs := response_bytes r ++ tail). assert (Hsz : response_size r = 40 + zlen (rs_value r)) by done.
  assert (Hlen : zlen bs = response_size r + zlen tail) by (unfold bs; by rewrite zlen_app, zlen_response_bytes).
  change (2 ^ 32) with 4294967296 in H32.
  unfold decode_response. unfold_protocol. destruct (Z.ltb_spec (zlen bs) 4); [lia|]. reads. cbn [bindR].
  assert (le_value (slice 0 4 bs) = response_size r) as -> by (assert (is_u32 (response_size r)) by (width; lia); response_field bs).
  assert (le_value (slice 4 2 bs) = 2) as -> by response_field bs.
  assert (le_value (slice 6 2 bs) = rs_status r) as -> by response_field bs.
  assert (le_value (slice 8 8 bs) = rs_request_id r) as -> by response_field bs.
  assert (le_value (slice 16 4 bs) = zlen (rs_value r)) as -> by response_field bs.
  assert (le_value (slice 20 4 bs) = rs_owner_worker r) as -> by response_field bs.
  assert (le_value (slice 24 4 bs) = rs_worker_count r) as -> by response_field bs.
  assert (le_value (slice 28 4 bs) = 0) as -> by response_field bs.
  assert (le_value (slice 32 8 bs) = rs_routing_epoch r) as -> by response_field bs.
  rewrite Z.gtb_ltb. destruct (Z.ltb_spec (response_size r) 40); [lia|]. destruct (Z.ltb_spec max (response_size r)); [lia|]. cbn [orb].
  destruct (Z.ltb_spec (zlen bs) (response_size r)); [lia|]. checks.
  destruct (response_status_cases (rs_status r)) as [[-> _]|[_ ?]]; [|done]. cbn [bindR].
  rewrite checked_frame_size_Ok by lia. cbn [or_fail bindR]. rewrite Z.add_0_r, <- Hsz. checks. rewrite subspan_in by lia. cbn [bindR].
  assert (slice 40 (zlen (rs_value r)) bs = rs_value r) as ->.
  { unfold bs, response_bytes. rewrite <- !app_assoc, slice_app_r, slice_app_l by zl. apply slice_whole. zl. }
  by destruct r.
Qed.

(** What a decoder says of arbitrary bytes. *)
Lemma decode_request_cases bs max : bytes_ok bs ->
  match decode_request bs max with
  | Ok (Some (n, r)) => request_ok r /\ request_valid r /\ n = request_size r /\ n <= max /\
      n < 2 ^ 32 /\ bs = request_bytes r ++ zdrop n bs
  | Ok None => zlen bs < 4 \/ 40 <= le_value (slice 0 4 bs) <= max /\ zlen bs < le_value (slice 0 4 bs)
  | Err e => e = invalid_record \/ e = invalid_argument
  | Stuck _ => False
  end.
Proof.
  intros Hbs. unfold decode_request. unfold_protocol. destruct (Z.ltb_spec (zlen bs) 4) as [|H4]; [by left|].
  rewrite (get_u32_in bs 0) by lia. cbn [bindR]. set (size := le_value (slice 0 4 bs)).
  assert (Hsize : is_u32 size) by (apply (is_uint_slice bs 0 4); done || lia).
  rewrite Z.gtb_ltb. head_if E1; [by left|]. b2p. destruct (Z.ltb_spec (zlen bs) size) as [|Hl]; [right; lia|].
  rewrite !(get_byte_in bs) by (done || lia). reads. rewrite !neR_Ok. cbn [bindR]. rewrite orR_Ok. cbn [bindR].
  head_if E2; [by left|]. head_if E3; [by left|]. b2p.
  destruct (request_opcode_cases (le_value (slice 6 1 bs))) as [[-> _]| ->]; [|by left]. cbn [bindR].
  assert (Hk : is_u32 (le_value (slice 16 4 bs))) by (apply (is_uint_slice bs 16 4); done || lia).
  assert (Hv : is_u32 (le_value (slice 20 4 bs))) by (apply (is_uint_slice bs 20 4); done || lia).
  set (ks := le_value (slice 16 4 bs)) in *. set (vs := le_value (slice 20 4 bs)) in *.
  rewrite checked_frame_size_Ok by (width; lia). cbn [bindR]. head_if E4; [by left|]. b2p. width.
  rewrite !subspan_in by lia. cbn [bindR]. set (r := mkRequest _ _ _ _ _ _ _).
  assert (Hkz : zlen (rq_key r) = ks) by (unfold r; cbn; zl). assert (Hvz : zlen (rq_value r) = vs) by (unfold r; cbn; zl).
  assert (Hok : request_ok r).
  { unfold request_ok, r. cbn. split_and!; try (by apply bytes_ok_slice);
      match goal with |- is_uint _ (le_value (slice ?a ?n bs)) => apply (is_uint_slice bs a n); (done || lia) end. }
  destruct (validate_fields_cases r) as [[E5 _]|E5]; rewrite E5; cbn [bindR]; [|by right].
  assert (Hn : request_size r = size) by (unfold request_size; lia).
  split_and!; [done..|lia|lia|lia|].
  rewrite <- (ztake_zdrop size bs) at 1. f_equal. change (ztake size bs) with (slice 0 size bs).
  unfold request_bytes, request_header. rewrite Hkz, Hvz, Hn, <- !app_assoc.
  unfold r. cbn [rq_opcode rq_request_id rq_expire_at_ns rq_target_worker rq_key rq_value]. clear r Hkz Hvz Hok E5 Hn.
  unfold_protocol.
  replace size with (40 + (size - 40)) at 1 by lia. rewrite slice_split by lia. change (0 + 40) with 40.
  replace (size - 40) with (ks + vs) by lia. rewrite (slice_split 40 ks vs) by lia. rewrite !app_assoc. do 2 f_equal.
  rewrite <- !app_assoc. match_fields bs.
Qed.

Lemma decode_response_cases bs max : bytes_ok bs ->
  match decode_response bs max with
  | Ok (Some (n, r)) => response_ok r /\ 0 <= rs_status r <= 8 /\ n = response_size r /\ n <= max /\
      n < 2 ^ 32 /\ bs = response_bytes r ++ zdrop n bs
  | Ok None => zlen bs < 4 \/ 40 <= le_value (slice 0 4 bs) <= max /\ zlen bs < le_value (slice 0 4 bs)
  | Err e => e = invalid_record
  | Stuck _ => False
  end.
Proof.
  intros Hbs. unfold decode_response. unfold_protocol. destruct (Z.ltb_spec (zlen bs) 4) as [|H4]; [by left|].
  rewrite (get_u32_in bs 0) by lia. cbn [bindR]. set (size := le_value (slice 0 4 bs)).
  assert (Hsize : is_u32 size) by (apply (is_uint_slice bs 0 4); done || lia).
  rewrite Z.gtb_ltb. head_if E1; [done|]. b2p. destruct (Z.ltb_spec (zlen bs) size) as [|Hl]; [right; lia|].
  reads. rewrite !neR_Ok. cbn [bindR]. head_if E2; [done|]. head_if E3; [done|]. b2p.
  destruct (response_status_cases (le_value (slice 6 2 bs))) as [[-> Hst]|[-> _]]; [|done]. cbn [bindR].
  assert (Hv : is_u32 (le_value (slice 16 4 bs))) by (apply (is_uint_slice bs 16 4); done || lia).
  set (vs := le_value (slice 16 4 bs)) in *.
  rewrite checked_frame_size_Ok by (width; lia). cbn [or_fail bindR]. head_if E4; [done|]. b2p. width.
  rewrite !subspan_in by lia. cbn [bindR]. set (r := mkResponse _ _ _ _ _ _).
  assert (Hvz : zlen (rs_value r) = vs) by (unfold r; cbn; zl).
  assert (Hok : response_ok r).
  { unfold response_ok, r. cbn. split_and!; try (by apply bytes_ok_slice);
      match goal with |- is_uint _ (le_value (slice ?a ?n bs)) => apply (is_uint_slice bs a n); (done || lia) end. }
  assert (Hn : response_size r = size) by (unfold response_size; lia).
  split; [done|]. split; [exact Hst|]. split_and!; [lia|lia|lia|].
  rewrite <- (ztake_zdrop size bs) at 1. f_equal. change (ztake size bs) with (slice 0 size bs).
  unfold response_bytes, response_header. rewrite Hvz, Hn.
  unfold r. cbn [rs_status rs_request_id rs_owner_worker rs_worker_count rs_routing_epoch rs_value]. clear r Hvz Hok Hn Hst.
  unfold_protocol.
  replace size with (40 + vs) at 1 by lia. rewrite slice_split by lia. change (0 + 40) with 40. f_equal. match_fields bs.
Qed.

(** The size field of a frame, read from a prefix that holds it. *)
Lemma frame_size_prefix k v rest p s : is_u32 v -> le_bytes 4 v ++ rest = p ++ s -> 4 <= zlen p -> k = 4 ->
  le_value (slice 0 k p) = v.
Proof.
  intros Hv E Hp ->. rewrite <- (slice_app_l 0 4 p s) by lia. rewrite <- E, slice_le_hit by lia. by apply le_value_field.
Qed.

Lemma request_prefix_incomplete r p s max : request_ok r -> request_size r <= max -> request_size r < 2 ^ 32 ->
  request_bytes r = p ++ s -> s <> [] -> decode_request p max = Ok None.
Proof.
  intros Hok Hmax H32 E Hs. pose proof (zlen_nonneg (rq_key r)). pose proof (zlen_nonneg (rq_value r)).
  assert (Hlen : zlen p + zlen s = request_size r) by (rewrite <- zlen_app, <- E; apply zlen_request_bytes).
  assert (0 < zlen s) by (destruct s; [done|]; rewrite zlen_cons; pose proof (zlen_nonneg s); lia).
  unfold decode_request. unfold_protocol. destruct (Z.ltb_spec (zlen p) 4) as [|H4]; [done|].
  rewrite (get_u32_in p 0) by lia. cbn [bindR]. unfold request_bytes, request_header in E. rewrite <- !app_assoc in E.
  erewrite frame_size_prefix; [| |exact E|done|done]; [|unfold is_uint; unfold request_size in *; lia].
  rewrite Z.gtb_ltb. destruct (Z.ltb_spec (request_size r) 40); [unfold request_size in *; lia|].
  destruct (Z.ltb_spec max (request_size r)); [lia|]. cbn [orb]. destruct (Z.ltb_spec (zlen p) (request_size r)); [done|lia].
Qed.

Lemma response_prefix_incomplete r p s max : response_size r <= max -> response_size r < 2 ^ 32 ->
  response_bytes r = p ++ s -> s <> [] -> decode_response p max = Ok None.
Proof.
  intros Hmax H32 E Hs. pose proof (zlen_nonneg (rs_value r)).
  assert (Hlen : zlen p + zlen s = response_size r) by (rewrite <- zlen_app, <- E; apply zlen_response_bytes).
  assert (0 < zlen s) by (destruct s; [done|]; rewrite zlen_cons; pose proof (zlen_nonneg s); lia).
  unfold decode_response. unfold_protocol. destruct (Z.ltb_spec (zlen p) 4) as [|H4]; [done|].
  rewrite (get_u32_in p 0) by lia. cbn [bindR]. unfold response_bytes, response_header in E. rewrite <- !app_assoc in E.
  erewrite frame_size_prefix; [| |exact E|done|done]; [|unfold is_uint; unfold response_size in *; lia].
  rewrite Z.gtb_ltb. destruct (Z.ltb_spec (response_size r) 40); [unfold response_size in *; lia|].
  destruct (Z.ltb_spec max (response_size r)); [lia|]. cbn [orb]. destruct (Z.ltb_spec (zlen p) (response_size r)); [done|lia].
Qed.

(** A request as a program holds it: its fields have their widths, and a span is
    shorter than the address space. *)
Definition is_request (r : RequestView) : Prop :=
  request_ok r /\ zlen (rq_key r) < 2 ^ 62 /\ zlen (rq_value r) < 2 ^ 62.
Definition is_response (r : ResponseView) : Prop := response_ok r /\ zlen (rs_value r) < 2 ^ 62.

(** ** Properties *)

(** The size of a frame that starts with these bytes. *)
Definition announced (input : list Z) : Z := le_value (slice 0 4 input).

(** The input does not hold the size field, or it announces a frame of a possible
    size and ends before the frame does. *)
Definition incomplete (input : list Z) (max : Z) : Prop :=
  zlen input < 4 \/ 40 <= announced input <= max /\ zlen input < announced input.

Lemma incomplete_request bs max : bytes_ok bs -> incomplete bs max -> decode_request bs max = Ok None.
Proof.
  intros Hbs Hi. unfold decode_request. unfold_protocol. destruct (Z.ltb_spec (zlen bs) 4) as [|H4]; [done|].
  rewrite (get_u32_in bs 0) by lia. cbn [bindR]. fold (announced bs). destruct Hi as [?|[Hsize Hlen]]; [lia|].
  replace ((announced bs <? 40) || (announced bs >? max)) with false by lia.
  by replace (zlen bs <? announced bs) with true by lia.
Qed.
Lemma incomplete_response bs max : bytes_ok bs -> incomplete bs max -> decode_response bs max = Ok None.
Proof.
  intros Hbs Hi. unfold decode_response. unfold_protocol. destruct (Z.ltb_spec (zlen bs) 4) as [|H4]; [done|].
  rewrite (get_u32_in bs 0) by lia. cbn [bindR]. fold (announced bs). destruct Hi as [?|[Hsize Hlen]]; [lia|].
  replace ((announced bs <? 40) || (announced bs >? max)) with false by lia.
  by replace (zlen bs <? announced bs) with true by lia.
Qed.

(** The input starts with the frame of a request, or of a response. *)
Definition starts_with_request (input : list Z) (max : Z) (r : RequestView) (n : Z) : Prop :=
  exists frame rest, encode_request r = Ok frame /\ input = frame ++ rest /\ n = zlen frame /\ n <= max.
Definition starts_with_response (input : list Z) (max : Z) (r : ResponseView) (n : Z) : Prop :=
  0 <= rs_status r <= 8 /\
  exists frame rest, encode_response r = Ok frame /\ input = frame ++ rest /\ n = zlen frame /\ n <= max.

Lemma decode_request_iff input max r n : bytes_ok input -> max <= kMaxFrameBytes -> is_request r ->
  decode_request input max = Ok (Some (n, r)) <-> starts_with_request input max r n.
Proof.
  intros Hbs Hmax (Hok & Hk & Hv). unfold kMaxFrameBytes in Hmax. split.
  - intros E. pose proof (decode_request_cases input max Hbs) as Hc. rewrite E in Hc.
    destruct Hc as (_ & Hval & -> & Hn & _ & Heq). exists (request_bytes r), (zdrop (request_size r) input).
    rewrite zlen_request_bytes. split_and!; [|done..]. apply encode_request_Ok; [done..|]. unfold kMaxFrameBytes. lia.
  - intros (frame & rest & E & -> & -> & Hn). apply encode_request_inv in E as (Hval & _ & ->); [|done..].
    rewrite zlen_request_bytes in *. apply Forall_app in Hbs as [_ ?].
    apply decode_request_bytes; [exact Hok|exact Hval|lia|assumption|lia].
Qed.

Lemma decode_response_iff input max r n : bytes_ok input -> max <= kMaxFrameBytes -> is_response r ->
  decode_response input max = Ok (Some (n, r)) <-> starts_with_response input max r n.
Proof.
  intros Hbs Hmax (Hok & Hv). unfold kMaxFrameBytes in Hmax. split.
  - intros E. pose proof (decode_response_cases input max Hbs) as Hc. rewrite E in Hc.
    destruct Hc as (_ & Hst & -> & Hn & _ & Heq). split; [done|].
    exists (response_bytes r), (zdrop (response_size r) input). rewrite zlen_response_bytes. split_and!; [|done..].
    apply encode_response_Ok. unfold kMaxFrameBytes. lia.
  - intros (Hst & frame & rest & E & -> & -> & Hn). apply encode_response_inv in E as (_ & ->); [|done].
    rewrite zlen_response_bytes in *. apply Forall_app in Hbs as [_ ?].
    apply decode_response_bytes; [exact Hok|exact Hst|lia|assumption|lia].
Qed.

(** What a decoder answers. *)
Lemma decode_request_answers input max : bytes_ok input ->
  match decode_request input max with
  | Ok (Some (_, r)) => is_request r
  | Ok None => incomplete input max
  | Err e => e = invalid_record \/ e = invalid_argument
  | Stuck _ => False
  end.
Proof.
  intros Hbs. pose proof (decode_request_cases input max Hbs) as Hc. destruct (decode_request input max) as [[[n r]|]|e|f]; try done.
  destruct Hc as (Hok & _ & Hn & _ & Hmax & _). unfold request_size in Hn.
  pose proof (zlen_nonneg (rq_key r)). pose proof (zlen_nonneg (rq_value r)). split; [done|lia].
Qed.
Lemma decode_response_answers input max : bytes_ok input ->
  match decode_response input max with
  | Ok (Some (_, r)) => is_response r
  | Ok None => incomplete input max
  | Err e => e = invalid_record
  | Stuck _ => False
  end.
Proof.
  intros Hbs. pose proof (decode_response_cases input max Hbs) as Hc. destruct (decode_response input max) as [[[n r]|]|e|f]; try done.
  destruct Hc as (Hok & _ & Hn & _ & Hmax & _). unfold response_size in Hn. pose proof (zlen_nonneg (rs_value r)). split; [done|lia].
Qed.


(** C22. Responses on a stream, in the same way; a status that is not one of the
    nine is never decoded. *)
Theorem response_exact input max : bytes_ok input -> max <= kMaxFrameBytes ->
  (forall r n, is_response r -> decode_response input max = Ok (Some (n, r)) <-> starts_with_response input max r n) /\
  (decode_response input max = Ok None <-> incomplete input max) /\
  (forall r frame rest, is_response r -> encode_response r = Ok frame -> zlen frame <= max ->
     frame = input ++ rest -> rest <> [] -> decode_response input max = Ok None) /\
  (~ incomplete input max -> (forall r n, is_response r -> ~ starts_with_response input max r n) ->
     decode_response input max = Err invalid_record) /\
  match decode_response input max with
  | Ok (Some (_, r)) => is_response r
  | Ok None => True
  | Err e => e = invalid_record
  | Stuck _ => False
  end.
Proof.
  intros Hbs Hmax. pose proof (decode_response_answers input max Hbs) as Hc. split_and!.
  - intros r n Hr. by apply decode_response_iff.
  - split; [|by apply incomplete_response]. intros E. by rewrite E in Hc.
  - intros r frame rest (Hok & Hv) E Hn Heq Hrest. apply encode_response_inv in E as (Hs & ->); [|done].
    rewrite zlen_response_bytes in Hn. unfold kMaxFrameBytes in *. clear Hc.
    apply (response_prefix_incomplete r input rest); [lia|lia|exact Heq|exact Hrest].
  - intros Hi Hno. destruct (decode_response input max) as [[[n r]|]|e|f] eqn:E; [|done| |done]; [exfalso|congruence].
    by apply (Hno r n Hc), decode_response_iff.
  - by destruct (decode_response input max) as [[[n r]|]|e|f].
Qed.

(** ** Witnesses *)

Definition sample_request : RequestView := mkRequest RequestOpcode_put 0 7 0 kNoWorker [107; 49] [118].

Lemma sample_request_ok : is_request sample_request.
Proof. unfold is_request, request_ok. split_and!; try done; bytes_eval. Qed.


Definition sample_response : ResponseView := mkResponse ResponseStatus_not_found 7 1 4 2 [].

Lemma sample_response_ok : is_response sample_response.
Proof. unfold is_response, response_ok. split_and!; try done; bytes_eval. Qed.

Lemma response_exact_witness :
  decode_response (response_bytes sample_response) kMaxFrameBytes = Ok (Some (40, sample_response)).
Proof.
  assert (Hb : bytes_ok (response_bytes sample_response)) by bytes_eval.
  destruct (response_exact (response_bytes sample_response) kMaxFrameBytes Hb (Z.le_refl _)) as [H _].
  destruct (H sample_response 40 sample_response_ok) as [_ H']. apply H'. split; [done|].
  exists (response_bytes sample_response), []. split_and!; vm_compute; (reflexivity || discriminate).
Defined.
