(* ===== verification/Compaction.v ===== *)
(** * Durable compaction: budgets, layout, plan and manifest transition

    Models src/persistence/resource_limits.cpp and the files layout.cpp,
    resource_estimator.cpp, planner.cpp and manifest_transition.cpp of
    src/persistence/compaction.  The theorems show that a plan is accepted by the
    validation of transitions, touches only the sealed segments of its worker and
    stays within its budgets, and that the layout places records in segments
    without overlap.

    The answers of the operating system are arguments: [getrlimit] is the soft
    limit of open files, [None] when it is infinite, and [available] the free space
    of the data directory.  Limits that these functions do not read are left out of
    [DurableResourceLimits]. *)

From stdpp Require Import sorting.
From S2P Require Import Prelude Core Crc32c Record SegmentHeader Routing Manifest.

Record DurableResourceLimits := mkLimits {
  max_store_bytes : Z;
  reserved_free_bytes : Z;
  max_segment_count : Z;
  max_manifest_bytes : Z;
  max_open_files : Z;
  max_recovery_memory_bytes : Z;
  max_live_keys : Z;
  max_temporary_compaction_bytes : Z;
  max_write_amplification : Z;
  max_hot_cache_value_bytes : Z
}.

Definition checked_multiply (left right : Z) : Result Z :=
  if negb (left =? 0) && (right >? umax 64 / left) then Err arithmetic_overflow
  else Ok (u64 (left * right)).

Definition segment_bytes (count : Z) : Result Z := checked_multiply count kSegmentSizeBytes.

Definition kNonWorkerDescriptors : Z := 4.

Definition durable_manifest_bytes (segment_count : Z) : Result Z :=
  if segment_count >? kMaximumManifestSegmentCount then Err arithmetic_overflow
  else
  let? entries := checked_multiply segment_count kManifestSegmentEntryBytes in
  checked_add 64 kManifestHeaderBytes entries.

Definition validate_durable_resource_limits (limits : DurableResourceLimits) : Status :=
  if (max_store_bytes limits <? kSegmentSizeBytes) || (max_segment_count limits =? 0) ||
     (max_segment_count limits >? kMaximumManifestSegmentCount) ||
     (max_manifest_bytes limits <? kManifestHeaderBytes + kManifestSegmentEntryBytes) ||
     (max_manifest_bytes limits >? kMaximumManifestBytes) || (max_open_files limits <? 4) ||
     (max_recovery_memory_bytes limits =? 0) || (max_live_keys limits =? 0) ||
     (max_temporary_compaction_bytes limits =? 0) ||
     (max_temporary_compaction_bytes limits >? max_store_bytes limits) ||
     (max_write_amplification limits =? 0) || (max_write_amplification limits >? 64) ||
     (max_hot_cache_value_bytes limits >? kMaxNormalRecordSize)
  then Err invalid_argument
  else Ok tt.

Definition validate_count_and_manifest (segment_count : Z) (limits : DurableResourceLimits) : Result Z :=
  if (segment_count =? 0) || (segment_count >? max_segment_count limits) then Err storage_exhausted
  else
  let? manifest_bytes := durable_manifest_bytes segment_count in
  if manifest_bytes >? max_manifest_bytes limits then Err storage_exhausted else Ok manifest_bytes.

Section limits.
Context (getrlimit : Result (option Z)).

Definition validate_descriptor_budget (worker_count segment_count : Z) (limits : DurableResourceLimits) : Status :=
  if (worker_count >? size_max - segment_count) ||
     (u64 (worker_count + segment_count) >? size_max - kNonWorkerDescriptors)
  then Err arithmetic_overflow
  else
  let required := u64 (worker_count + segment_count + kNonWorkerDescriptors) in
  if required >? max_open_files limits then Err descriptor_exhausted
  else
  let? process_limit := getrlimit in
  match process_limit with
  | Some rlim_cur => if required >? rlim_cur then Err descriptor_exhausted else Ok tt
  | None => Ok tt
  end.

Definition validate_durable_bootstrap_resources (worker_count : Z) (limits : DurableResourceLimits) : Status :=
  validate_durable_resource_limits limits ;;?
  let? manifest_bytes := validate_count_and_manifest worker_count limits in
  let? segments := segment_bytes worker_count in
  let? peak := checked_add 64 segments manifest_bytes in
  let? peak := checked_add 64 peak manifest_bytes in
  if peak >? max_store_bytes limits then Err storage_exhausted
  else if max_live_keys limits <? worker_count then Err resource_exhausted
  else validate_descriptor_budget worker_count worker_count limits.

Definition validate_durable_manifest_resources (manifest : Manifest) (limits : DurableResourceLimits) : Status :=
  validate_durable_resource_limits limits ;;?
  let? manifest_bytes := validate_count_and_manifest (zlen (m_segments manifest)) limits in
  let? segments := segment_bytes (zlen (m_segments manifest)) in
  let? total := checked_add 64 segments manifest_bytes in
  if total >? max_store_bytes limits then Err storage_exhausted
  else if max_live_keys limits <? m_worker_count manifest then Err resource_exhausted
  else validate_descriptor_budget (m_worker_count manifest) (zlen (m_segments manifest)) limits.
End limits.

Definition validate_durable_rotation_resources (current_segment_count : Z) (limits : DurableResourceLimits) : Status :=
  if current_segment_count =? size_max then Err arithmetic_overflow
  else
  let next_segment_count := current_segment_count + 1 in
  let? current_manifest := durable_manifest_bytes current_segment_count in
  let? next_manifest := validate_count_and_manifest next_segment_count limits in
  let? segments := segment_bytes next_segment_count in
  let? peak := checked_add 64 segments current_manifest in
  let? peak := checked_add 64 peak next_manifest in
  if peak >? max_store_bytes limits then Err storage_exhausted else Ok tt.

Definition require_durable_available_space (available : Result Z) (additional_bytes : Z)
    (limits : DurableResourceLimits) : Status :=
  let? required := checked_add 64 additional_bytes (reserved_free_bytes limits) in
  let? available := available in
  if available <? required then Err storage_exhausted else Ok tt.

Definition durable_worker_live_key_limit (worker_index worker_count total_limit : Z) : Z :=
  if (worker_count =? 0) || (worker_index >=? worker_count) then 0
  else total_limit / worker_count + (if worker_index <? total_limit mod worker_count then 1 else 0).

(** ** Layout *)

Record DurableCompactionPlacement := mkPlacement { segment_index : Z; placement_offset : Z }.

Record DurableCompactionLayout := mkLayout {
  segment_count : Z;
  encoded_bytes : Z;
  current_payload_bytes : Z
}.

Definition new_layout : DurableCompactionLayout := mkLayout 0 0 0.
Definition kPayloadBytes : Z := kSegmentSizeBytes - kSegmentHeaderReservedBytes.

Definition add_record (encoded_size : Z) : Method DurableCompactionLayout DurableCompactionPlacement :=
  let! layout := getM in
  if (encoded_size <? kEncodedRecordHeaderSize) || (encoded_size >? kMaxNormalRecordSize) ||
     negb (encoded_size mod kRecordAlignment =? 0) || (encoded_size >? kPayloadBytes)
  then failM invalid_record
  else if encoded_size >? umax 64 - encoded_bytes layout then failM arithmetic_overflow
  else
  (if (segment_count layout =? 0) || (encoded_size >? u32 (kPayloadBytes - current_payload_bytes layout))
   then if segment_count layout =? size_max then failM arithmetic_overflow
        else putM (mkLayout (segment_count layout + 1) (encoded_bytes layout) 0)
   else retM tt) ;;!
  let! layout := getM in
  let placement := mkPlacement (u64 (segment_count layout - 1))
                     (u32 (u32 kSegmentHeaderReservedBytes + current_payload_bytes layout)) in
  putM (mkLayout (segment_count layout) (u64 (encoded_bytes layout + encoded_size))
          (u32 (current_payload_bytes layout + encoded_size))) ;;!
  retM placement.

Definition durable_compaction_output_segments (live_encoded_bytes : Z) : Result Z :=
  if live_encoded_bytes =? 0 then Ok 0
  else
  let quotient := live_encoded_bytes / kPayloadBytes in
  let remainder := live_encoded_bytes mod kPayloadBytes in
  let extra := if remainder =? 0 then 0 else 1 in
  if quotient >? size_max - extra then Err arithmetic_overflow else Ok (quotient + extra).

(** ** The transition between two manifests *)

Definition is_source (worker_id : Z) (entry : ManifestSegmentEntry) : bool :=
  (me_owner_worker entry =? worker_id) && (me_role entry =? ManifestSegmentRole_sealed).

(** The loop over the entries of the current manifest: the new entries, and those
    of them that are replacements. *)
Fixpoint replace_entries (worker_id remaining : Z) (entries : list ManifestSegmentEntry) :
    Result (list ManifestSegmentEntry * list ManifestSegmentEntry) :=
  match entries with
  | [] => Ok ([], [])
  | entry :: entries =>
      if negb (is_source worker_id entry)
      then let? r := replace_entries worker_id remaining entries in Ok (entry :: r.1, r.2)
      else if remaining =? 0 then replace_entries worker_id remaining entries
      else if me_generation entry =? umax 32 then Err arithmetic_overflow
      else
      let replacement := mkEntry (me_segment_id entry) (me_generation entry + 1) (me_owner_worker entry) (me_role entry) in
      let? r := replace_entries worker_id (remaining - 1) entries in
      Ok (replacement :: r.1, replacement :: r.2)
  end.

Definition next_catalog (m : Manifest) (generation : Z) (segments : list ManifestSegmentEntry) : Manifest :=
  mkManifest (m_store_id m) generation (m_routing_algorithm m) (m_worker_count m) (m_routing_epoch m)
    (m_worker_hash_seed m) (m_next_segment_id m) (m_next_segment_generation m) segments.

Definition validate_durable_compaction_transition (current next : Manifest) (worker_id : Z) : Result Z :=
  or_fail (encoded_manifest_size current) invalid_argument ;;?
  or_fail (encoded_manifest_size next) invalid_argument ;;?
  if (worker_id >=? m_worker_count current) || negb (bool_decide (m_store_id current = m_store_id next)) ||
     negb (m_worker_count current =? m_worker_count next) ||
     negb (m_routing_algorithm current =? m_routing_algorithm next) ||
     negb (m_routing_epoch current =? m_routing_epoch next) ||
     negb (m_worker_hash_seed current =? m_worker_hash_seed next) ||
     negb (m_next_segment_id current =? m_next_segment_id next) ||
     negb (m_next_segment_generation current =? m_next_segment_generation next) ||
     (m_manifest_generation current =? umax 64) ||
     negb (m_manifest_generation next =? u64 (m_manifest_generation current + 1))
  then Err invalid_argument
  else
  let sources := List.filter (is_source worker_id) (m_segments current) in
  if (zlen sources =? 0) || (zlen (m_segments next) >? zlen (m_segments current)) then Err invalid_argument
  else
  let retained_entries := zlen (m_segments current) - zlen sources in
  if zlen (m_segments next) <? retained_entries then Err invalid_argument
  else
  let output_count := zlen (m_segments next) - retained_entries in
  let? expected := replace_entries worker_id output_count (m_segments current) in
  if negb (bool_decide (next_catalog current (m_manifest_generation next) expected.1 = next))
  then Err invalid_argument
  else Ok output_count.

(** ** Resources and the plan *)

Definition validate_compaction_write_amplification (source_count output_count : Z) (limits : DurableResourceLimits) :
    Status :=
  let? temporary := segment_bytes output_count in
  let? reclaimed := segment_bytes (u64 (source_count - output_count)) in
  if temporary =? 0 then Ok tt
  else if reclaimed =? 0 then Err storage_exhausted
  else if max_write_amplification limits =? 0 then Stuck division_by_zero
  else if (reclaimed <=? umax 64 / max_write_amplification limits) &&
          (temporary >? u64 (reclaimed * max_write_amplification limits))
  then Err storage_exhausted
  else Ok tt.

Record CompactionResourceEstimate := mkEstimate {
  temporary_bytes : Z;
  reclaimed_bytes : Z;
  peak_store_bytes : Z;
  intent_bytes : Z
}.

Definition kCompactionIntentHeaderBytes : Z := 128.

Definition estimate_compaction_resources (current next : Manifest) (source_count output_count : Z) :
    Result CompactionResourceEstimate :=
  let? temporary := segment_bytes output_count in
  let? reclaimed := segment_bytes (u64 (source_count - output_count)) in
  let? current_segments := segment_bytes (zlen (m_segments current)) in
  let? current_manifest := durable_manifest_bytes (zlen (m_segments current)) in
  let? next_manifest := durable_manifest_bytes (zlen (m_segments next)) in
  let peak := checked_add 64 current_segments temporary in
  let peak := let? peak := peak in checked_add 64 peak current_manifest in
  let peak := let? peak := peak in checked_add 64 peak next_manifest in
  let intent_bytes := checked_add 64 kCompactionIntentHeaderBytes current_manifest in
  let intent_bytes := let? intent_bytes := intent_bytes in checked_add 64 intent_bytes next_manifest in
  let peak := match peak, intent_bytes with Ok p, Ok i => checked_add 64 p i | _, _ => peak end in
  let? intent_bytes := intent_bytes in
  let? peak := peak in
  Ok (mkEstimate temporary reclaimed peak intent_bytes).

Definition validate_compaction_resources (estimate : CompactionResourceEstimate) (limits : DurableResourceLimits) :
    Status :=
  if temporary_bytes estimate >? max_temporary_compaction_bytes limits then Err storage_exhausted
  else if peak_store_bytes estimate >? max_store_bytes limits then Err storage_exhausted
  else Ok tt.

Record DurableCompactionPlan := mkPlan {
  plan_worker_id : Z;
  plan_next_manifest : Manifest;
  plan_sources : list ManifestSegmentEntry;
  plan_replacements : list ManifestSegmentEntry;
  plan_temporary_bytes : Z;
  plan_reclaimed_bytes : Z
}.

Definition plan_durable_worker_compaction (getrlimit : Result (option Z)) (current : Manifest)
    (worker_id output_segment_count : Z) (limits : DurableResourceLimits) : Result DurableCompactionPlan :=
  validate_durable_manifest_resources getrlimit current limits ;;?
  if worker_id >=? m_worker_count current then Err invalid_argument
  else if m_manifest_generation current =? umax 64 then Err arithmetic_overflow
  else
  let sources := List.filter (is_source worker_id) (m_segments current) in
  if zlen sources =? 0 then Err not_found
  else if output_segment_count >? zlen sources then Err invalid_argument
  else
  validate_compaction_write_amplification (zlen sources) output_segment_count limits ;;?
  let? r := replace_entries worker_id output_segment_count (m_segments current) in
  let next_manifest := next_catalog current (u64 (m_manifest_generation current + 1)) r.1 in
  let? estimate := estimate_compaction_resources current next_manifest (zlen sources) output_segment_count in
  validate_compaction_resources estimate limits ;;?
  encoded_manifest_size next_manifest ;;?
  let? transition := validate_durable_compaction_transition current next_manifest worker_id in
  if negb (transition =? output_segment_count) then Err internal_error
  else Ok (mkPlan worker_id next_manifest sources r.2 (temporary_bytes estimate) (reclaimed_bytes estimate)).

(** ** Budgets *)

Lemma checked_multiply_Ok l r : 0 <= l -> 0 <= r -> l * r < 2 ^ 64 -> checked_multiply l r = Ok (l * r).
Proof.
  intros Hl Hr H. unfold checked_multiply. rewrite Z.gtb_ltb.
  destruct (Z.eqb_spec l 0) as [->|Hne]; cbn [negb andb]; [by rewrite wrap_small|].
  destruct (Z.ltb_spec (umax 64 / l) r) as [Hlt|_]; [|rewrite wrap_small; [done|split; [nia|done]]].
  exfalso. assert (umax 64 < l * r) by (apply Z.div_lt_upper_bound in Hlt || (apply Z.lt_nge; intros Hge;
    apply (Z.div_le_lower_bound (umax 64) l r) in Hge; lia)). width. lia.
Qed.

Lemma segment_bytes_Ok n : 0 <= n <= 2 ^ 37 -> segment_bytes n = Ok (n * kSegmentSizeBytes).
Proof.
  intros H. change (2 ^ 37) with 137438953472 in H. unfold segment_bytes, kSegmentSizeBytes. apply checked_multiply_Ok; width; lia.
Qed.

Lemma durable_manifest_bytes_Ok n : 0 <= n <= kMaximumManifestSegmentCount -> durable_manifest_bytes n = Ok (128 + 32 * n).
Proof.
  intros H. unfold durable_manifest_bytes, kMaximumManifestSegmentCount, kManifestSegmentEntryBytes, kManifestHeaderBytes in *.
  rewrite Z.gtb_ltb. destruct (Z.ltb_spec 1000000 n); [lia|]. rewrite checked_multiply_Ok by (width; lia). cbn [bindR].
  rewrite checked_add_Ok by (width; lia). destruct (Z.ltb_spec (128 + n * 32) (2 ^ 64)); [f_equal; lia|width; lia].
Qed.

(** The live-key budget is shared out completely and evenly. *)
Lemma live_key_limits_sum n total : 0 < Z.of_nat n -> 0 <= total ->
  foldr Z.add 0 (map (fun i => durable_worker_live_key_limit (Z.of_nat i) (Z.of_nat n) total) (seq 0 n)) = total.
Proof.
  intros Hn Ht. set (q := total / Z.of_nat n). set (r := total mod Z.of_nat n).
  assert (Hr : 0 <= r < Z.of_nat n) by (apply Z.mod_pos_bound; lia).
  assert (Hsum : forall m, (m <= n)%nat ->
    foldr Z.add 0 (map (fun i => durable_worker_live_key_limit (Z.of_nat i) (Z.of_nat n) total) (seq 0 m)) =
    q * Z.of_nat m + Z.min r (Z.of_nat m)).
  { induction m as [|m IH]; intros Hm; [cbn; lia|]. rewrite seq_S, map_app, foldr_app. cbn [map foldr Nat.add].
    assert (Hf : forall x l, foldr Z.add x l = x + foldr Z.add 0 l) by (intros x l; induction l as [|y l IHl]; cbn; lia).
    rewrite Hf, IH by lia. unfold durable_worker_live_key_limit. fold q r. rewrite Z.geb_leb.
    destruct (Z.eqb_spec (Z.of_nat n) 0); [lia|]. destruct (Z.leb_spec (Z.of_nat n) (Z.of_nat m)); [lia|]. cbn [orb].
    destruct (Z.ltb_spec (Z.of_nat m) r); lia. }
  rewrite Hsum, Z.min_l by lia. unfold q, r. rewrite Z.mul_comm. symmetry. apply Z.div_mod. lia.
Qed.

(** ** The entries of the next manifest *)

Abbreviation sources_of w es := (List.filter (is_source w) es).
Abbreviation others_of w es := (List.filter (fun e => negb (is_source w e)) es).

Definition bump (e : ManifestSegmentEntry) : ManifestSegmentEntry :=
  mkEntry (me_segment_id e) (me_generation e + 1) (me_owner_worker e) (me_role e).

Lemma sorted_skip a b l : Sorted Z.lt (a :: b :: l) -> Sorted Z.lt (a :: l).
Proof.
  intros [Hab H]%sorted_cons_iff. destruct l as [|c l]; [by repeat constructor|].
  apply sorted_cons_iff in H as [? ?]. apply sorted_cons_iff. split; [lia|done].
Qed.

Lemma is_source_bump w e : is_source w (bump e) = is_source w e.
Proof. done. Qed.

Lemma replace_entries_cases w k es : 0 <= k ->
  match replace_entries w k es with
  | Ok (new, repl) =>
      sources_of w new = repl /\ others_of w new = others_of w es /\
      repl = map bump (ztake k (sources_of w es)) /\ Forall (fun e => me_generation e <> umax 32) (ztake k (sources_of w es))
  | Err e => e = arithmetic_overflow /\ Exists (fun e => me_generation e = umax 32) (ztake k (sources_of w es))
  | Stuck _ => False
  end.
Proof.
  revert k. induction es as [|e es IH]; intros k Hk; cbn [replace_entries].
  { cbn [List.filter]. replace (ztake k []) with (@nil ManifestSegmentEntry) by (unfold ztake; by rewrite take_nil).
    split_and!; (done || constructor). }
  cbn [List.filter]. destruct (is_source w e) eqn:Es; cbn [negb].
  2:{ specialize (IH k Hk). destruct (replace_entries w k es) as [[new repl]|e'|]; cbn; [|done..].
      rewrite Es. cbn. destruct IH as (? & ? & ? & ?). split_and!; congruence. }
  destruct (Z.eqb_spec k 0) as [->|Hk0].
  { specialize (IH 0 ltac:(done)). destruct (replace_entries w 0 es) as [[new repl]|e'|]; [done|done|done]. }
  assert (Ht : ztake k (e :: sources_of w es) = e :: ztake (k - 1) (sources_of w es)).
  { unfold ztake. replace (Z.to_nat k) with (S (Z.to_nat (k - 1))) by lia. done. }
  rewrite Ht. destruct (Z.eqb_spec (me_generation e) (umax 32)) as [Eg|Hg]; [split; [done|by constructor]|].
  specialize (IH (k - 1) ltac:(lia)). destruct (replace_entries w (k - 1) es) as [[new repl]|e'|]; cbn; [|naive_solver|done].
  fold (bump e). rewrite is_source_bump, Es. cbn. destruct IH as (? & ? & ? & ?). split_and!; [congruence..|]. by constructor.
Qed.

Lemma entries_split w es : zlen (sources_of w es) + zlen (others_of w es) = zlen es.
Proof. unfold zlen. rewrite <- (List.filter_length (is_source w) es). lia. Qed.

Lemma replace_entries_length w k es new repl : 0 <= k <= zlen (sources_of w es) ->
  replace_entries w k es = Ok (new, repl) -> zlen new = zlen es - zlen (sources_of w es) + k.
Proof.
  intros Hk E. pose proof (replace_entries_cases w k es ltac:(lia)) as Hc. rewrite E in Hc. destruct Hc as (Hs & Ho & Hr & _).
  pose proof (entries_split w es). pose proof (entries_split w new) as Hn. rewrite Hs, Ho, Hr in Hn. unfold zlen in Hn at 1.
  rewrite length_map in Hn. fold (zlen (ztake k (sources_of w es))) in Hn. rewrite zlen_ztake in Hn by lia. lia.
Qed.

Lemma replace_entries_keep w k es new repl : 0 <= k -> replace_entries w k es = Ok (new, repl) -> Forall entry_ok es ->
  Forall entry_ok new /\ (forall wc, Forall (entry_valid wc) es -> Forall (entry_valid wc) new) /\
  (forall a n, Sorted Z.lt (a :: map me_segment_id es ++ [n]) -> Sorted Z.lt (a :: map me_segment_id new ++ [n])) /\
  (forall x, active_of x new = active_of x es).
Proof.
  intros Hk E Hok. revert k new repl Hk E. induction Hok as [|e es He Hok IH]; intros k new repl Hk E; cbn [replace_entries] in E.
  { simplify_eq. done. }
  destruct (is_source w e) eqn:Es; cbn [negb] in E.
  2:{ apply bindR_Ok in E as ([new0 repl0] & E & [= <- <-]). destruct (IH k new0 repl0 Hk E) as (I1 & I2 & I3 & I4). cbn [fst snd map app]. split_and!.
      - by constructor.
      - intros wc [? ?]%Forall_cons. constructor; auto.
      - intros a n [? ?]%sorted_cons_iff. apply sorted_cons_iff. auto.
      - intros x. unfold active_of in *. by rewrite !filter_cons, I4. }
  unfold is_source in Es. b2p.
  assert (Hact : forall x g es', active_of x (mkEntry (me_segment_id e) g (me_owner_worker e) (me_role e) :: es') = active_of x es').
  { intros x g es'. unfold active_of. rewrite filter_cons_False; [done|]. cbn [me_role]. intros [? _].
    unfold ManifestSegmentRole_active, ManifestSegmentRole_sealed in *. lia. }
  assert (Hact0 : forall x, active_of x (e :: es) = active_of x es) by (intros x; destruct e; apply Hact).
  destruct (Z.eqb_spec k 0) as [_|Hk0]; [destruct (IH k new repl Hk E) as (I1 & I2 & I3 & I4); split_and!|].
  - done.
  - intros wc [? ?]%Forall_cons. auto.
  - intros a n Hs. cbn [map app] in Hs. apply I3. by eapply sorted_skip.
  - intros x. by rewrite Hact0.
  - destruct (Z.eqb_spec (me_generation e) (umax 32)) as [|Hg]; [done|].
    apply bindR_Ok in E as ([new0 repl0] & E & [= <- <-]). destruct (IH (k - 1) new0 repl0 ltac:(lia) E) as (I1 & I2 & I3 & I4).
    cbn [fst snd map app me_segment_id]. destruct He as (? & ? & ? & ?). split_and!.
    + constructor; [|done]. unfold entry_ok. cbn. width. split_and!; lia.
    + intros wc [(? & ? & ?) ?]%Forall_cons. constructor; [|auto]. unfold entry_valid. cbn. width. split_and!; (done || lia).
    + intros a n [? ?]%sorted_cons_iff. apply sorted_cons_iff. auto.
    + intros x. by rewrite Hact, Hact0.
Qed.

Lemma next_manifest_ok w k m new repl : 0 <= k -> replace_entries w k (m_segments m) = Ok (new, repl) ->
  manifest_ok m -> manifest_valid m -> m_manifest_generation m <> umax 64 -> zlen new <= zlen (m_segments m) ->
  let next := next_catalog m (m_manifest_generation m + 1) new in manifest_ok next /\ manifest_valid next.
Proof.
  intros Hk E Hok Hv Hg Hlen next. pose proof Hok as (H1 & H2 & H3 & H4 & H5 & H6 & H7 & H8 & H9 & H10).
  destruct (replace_entries_keep w k _ new repl Hk E H10) as (I1 & I2 & I3 & I4). split.
  - unfold manifest_ok, next. cbn. split_and!; try done; width; lia.
  - destruct Hv. split; cbn; try done; [width; lia|lia|auto|by apply I3|]. intros x Hx.
    change (length (active_of x new) = 1%nat). rewrite I4. auto.
Qed.

Lemma encoded_size_cases m : manifest_ok m ->
  encoded_manifest_size m = Ok (manifest_size m) /\ manifest_valid m \/
  encoded_manifest_size m = Err invalid_argument /\ ~ manifest_valid m.
Proof.
  intros Hok. destruct (validate_manifest_cases m invalid_argument Hok) as [[_ Hv]|[E Hv]].
  - left. split; [by apply encoded_size_Ok|done].
  - right. unfold encoded_manifest_size. by rewrite E.
Qed.

(** ** What a compaction of a worker may do to the catalog *)

(** The next manifest keeps everything but the sealed segments of the worker; the
    first [k] of those stay, with the next generation, and the others are gone. *)
Record compacts (w k : Z) (current next : Manifest) : Prop := {
  co_current : manifest_valid current;
  co_next : manifest_valid next;
  co_worker : w < m_worker_count current;
  co_metadata : next = next_catalog current (m_manifest_generation current + 1) (m_segments next);
  co_generation : m_manifest_generation current <> umax 64;
  co_some : sources_of w (m_segments current) <> [];
  co_count : 0 <= k <= zlen (sources_of w (m_segments current));
  co_others : others_of w (m_segments next) = others_of w (m_segments current);
  co_replaced : sources_of w (m_segments next) = map bump (ztake k (sources_of w (m_segments current)));
  co_fresh : Forall (fun e => me_generation e <> umax 32) (ztake k (sources_of w (m_segments current)))
}.

Definition by_id (a b : ManifestSegmentEntry) : Prop := me_segment_id a < me_segment_id b.

Lemma valid_sorted m : manifest_valid m -> StronglySorted by_id (m_segments m).
Proof.
  intros Hv. pose proof (mv_ordered m Hv) as Hs. apply sorted_snoc in Hs as [Hs _].
  apply Sorted_StronglySorted in Hs; [|intros ?; lia]. inversion Hs as [|? ? H _]; subst. clear Hs Hv.
  induction (m_segments m) as [|e es IH]; [constructor|]. inversion H as [|? ? H1 H2]; subst. constructor; [auto|].
  rewrite Forall_map in H2. done.
Qed.

Lemma by_parts_unique w l1 l2 : StronglySorted by_id l1 -> StronglySorted by_id l2 ->
  sources_of w l1 = sources_of w l2 -> others_of w l1 = others_of w l2 -> l1 = l2.
Proof.
  intros H1 H2 Hs Ho. assert (Hp : forall l, l ≡ₚ sources_of w l ++ others_of w l).
  { induction l as [|e l IH]; [done|]. cbn [List.filter]. destruct (is_source w e); cbn [negb app].
    - by constructor.
    - by rewrite <- Permutation_middle, <- IH. }
  apply (StronglySorted_unique_strong by_id); [|done|done|by rewrite (Hp l1), (Hp l2), Hs, Ho].
  intros x y _ _ Hxy Hyx. unfold by_id in *. lia.
Qed.

(** The fields that a transition must not change. *)
Lemma metadata_kept w (current next : Manifest) : manifest_ok current ->
  ((w >=? m_worker_count current) || negb (bool_decide (m_store_id current = m_store_id next)) ||
     negb (m_worker_count current =? m_worker_count next) ||
     negb (m_routing_algorithm current =? m_routing_algorithm next) ||
     negb (m_routing_epoch current =? m_routing_epoch next) ||
     negb (m_worker_hash_seed current =? m_worker_hash_seed next) ||
     negb (m_next_segment_id current =? m_next_segment_id next) ||
     negb (m_next_segment_generation current =? m_next_segment_generation next) ||
     (m_manifest_generation current =? umax 64) ||
     negb (m_manifest_generation next =? u64 (m_manifest_generation current + 1))) = false <->
  w < m_worker_count current /\ m_manifest_generation current <> umax 64 /\
  next = next_catalog current (m_manifest_generation current + 1) (m_segments next).
Proof.
  intros (_ & _ & Hg & _). rewrite !orb_false_iff, !negb_false_iff, !Z.eqb_eq, Z.eqb_neq, bool_decide_eq_true, Z.geb_leb, Z.leb_gt.
  assert (Hu : m_manifest_generation current <> umax 64 ->
    u64 (m_manifest_generation current + 1) = m_manifest_generation current + 1) by (intros; apply wrap_small; width; lia).
  split.
  - intros [[[[[[[[[? ?] ?] ?] ?] ?] ?] ?] Hmax] Hn]. rewrite (Hu Hmax) in Hn. split_and!; [done..|].
    destruct next; cbn in *. by subst.
  - intros (? & Hmax & ->). cbn. rewrite (Hu Hmax). done.
Qed.

Lemma compacts_length w k current next : compacts w k current next ->
  zlen (m_segments next) = zlen (m_segments current) - zlen (sources_of w (m_segments current)) + k.
Proof.
  intros Hco. pose proof (entries_split w (m_segments current)). pose proof (entries_split w (m_segments next)) as Hs.
  pose proof (co_count _ _ _ _ Hco) as Hk. rewrite (co_others _ _ _ _ Hco), (co_replaced _ _ _ _ Hco) in Hs.
  unfold zlen in Hs at 1. rewrite length_map in Hs. fold (zlen (ztake k (sources_of w (m_segments current)))) in Hs.
  rewrite zlen_ztake in Hs by lia. lia.
Qed.

(** Validation of a transition decides [compacts], and counts the replacements. *)
Lemma transition_cases w current next : manifest_ok current -> manifest_ok next ->
  match validate_durable_compaction_transition current next w with
  | Ok k => compacts w k current next
  | Err e => (e = invalid_argument \/ e = arithmetic_overflow) /\ forall k, ~ compacts w k current next
  | Stuck _ => False
  end.
Proof.
  intros Hc Hn. unfold validate_durable_compaction_transition.
  destruct (encoded_size_cases current Hc) as [[-> Hvc]|[-> Hvc]]; cbn [or_fail bindR]; [|split; [auto|]; by intros k []].
  destruct (encoded_size_cases next Hn) as [[-> Hvn]|[-> Hvn]]; cbn [or_fail bindR]; [|split; [auto|]; by intros k []].
  pose proof (metadata_kept w current next Hc) as Hmeta.
  match type of Hmeta with ?b = false <-> _ => destruct b eqn:Eb end.
  { split; [auto|]. intros k []. assert (true = false); [|done]. by apply Hmeta. }
  destruct (proj1 Hmeta eq_refl) as (Hw & Hmax & Hkeep). clear Hmeta Eb.
  set (src := sources_of w (m_segments current)). pose proof (entries_split w (m_segments current)) as Hsplit. fold src in Hsplit.
  set (ret := zlen (m_segments current) - zlen src).
  assert (Hlen : forall k, compacts w k current next -> zlen (m_segments next) = ret + k) by (intros; by apply compacts_length).
  rewrite Z.gtb_ltb. destruct (Z.eqb_spec (zlen src) 0) as [E0|Hsome]; cbn [orb].
  { split; [auto|]. intros k Hco. apply (co_some _ _ _ _ Hco). fold src. by destruct src. }
  destruct (Z.ltb_spec (zlen (m_segments current)) (zlen (m_segments next))).
  { split; [auto|]. intros k Hco. pose proof (co_count _ _ _ _ Hco) as Hk. fold src in Hk. specialize (Hlen k Hco). lia. }
  destruct (Z.ltb_spec (zlen (m_segments next)) ret).
  { split; [auto|]. intros k Hco. pose proof (co_count _ _ _ _ Hco). specialize (Hlen k Hco). lia. }
  set (k := zlen (m_segments next) - ret). assert (Hk : 0 <= k <= zlen src) by lia.
  assert (Hkk : forall k', compacts w k' current next -> k' = k) by (intros k' Hco; specialize (Hlen k' Hco); lia).
  pose proof (replace_entries_cases w k (m_segments current) ltac:(lia)) as Hr. fold src in Hr.
  destruct (replace_entries w k (m_segments current)) as [[new repl]|e|] eqn:Er; cbn [bindR fst]; [| |done].
  2:{ destruct Hr as [-> Hex]. split; [auto|]. intros k' Hco. rewrite (Hkk k' Hco) in Hco.
      pose proof (co_fresh _ _ _ _ Hco) as Hf. fold src in Hf. rewrite Exists_exists in Hex. destruct Hex as (x & Hx & Ex).
      rewrite Forall_forall in Hf. by apply (Hf x). }
  assert (Hgen : m_manifest_generation next = m_manifest_generation current + 1) by (by rewrite Hkeep).
  destruct (next_manifest_ok w k current new repl ltac:(lia) Er Hc Hvc Hmax) as [_ Hvnew].
  { rewrite (replace_entries_length w k _ new repl Hk Er). fold src. lia. }
  destruct Hr as (Hs & Ho & -> & Hf). case_bool_decide as D; cbn [negb].
  - assert (En : m_segments next = new) by (by rewrite <- D). split; try done; [|by rewrite En..].
    fold src. intros E. apply Hsome. by rewrite E.
  - split; [auto|]. intros k' Hco. rewrite (Hkk k' Hco) in Hco. apply D. rewrite Hgen.
    etrans; [|symmetry; exact Hkeep]. f_equal. apply (by_parts_unique w).
    + exact (valid_sorted _ Hvnew).
    + by apply valid_sorted.
    + rewrite (co_replaced _ _ _ _ Hco). exact Hs.
    + by rewrite (co_others _ _ _ _ Hco).
Qed.

(** ** The planner *)

Definition limits_valid (limits : DurableResourceLimits) : Prop :=
  0 < max_segment_count limits <= kMaximumManifestSegmentCount /\ 0 < max_write_amplification limits <= 64 /\
  0 < max_live_keys limits /\ 0 < max_temporary_compaction_bytes limits <= max_store_bytes limits.
Definition limits_ok (limits : DurableResourceLimits) : Prop :=
  0 <= max_segment_count limits /\ 0 <= max_write_amplification limits /\ 0 <= max_live_keys limits /\
  0 <= max_temporary_compaction_bytes limits.

(** The space a compaction needs while both catalogs and its intent are on disk. *)
Definition compaction_peak (n n' k : Z) : Z :=
  (n + k) * kSegmentSizeBytes + 2 * (128 + 32 * n) + 2 * (128 + 32 * n') + 128.

Lemma limits_valid_Ok limits : limits_ok limits -> validate_durable_resource_limits limits = Ok tt -> limits_valid limits.
Proof.
  intros (? & ? & ? & ?) Hv. unfold validate_durable_resource_limits in Hv. rewrite !Z.gtb_ltb in Hv.
  destruct (orb _ _) eqn:E in Hv; [done|]. b2p. unfold limits_valid. lia.
Qed.

Lemma manifest_resources_Ok getrlimit m limits : limits_ok limits ->
  match validate_durable_manifest_resources getrlimit m limits with
  | Ok _ => limits_valid limits /\ zlen (m_segments m) <= kMaximumManifestSegmentCount
  | Err e => e <> internal_error \/ getrlimit = Err e
  | Stuck f => getrlimit = Stuck f
  end.
Proof.
  intros Hl. unfold validate_durable_manifest_resources. pose proof (limits_valid_Ok limits Hl) as Hv.
  assert (Hres : validate_durable_resource_limits limits = Ok tt \/ validate_durable_resource_limits limits = Err invalid_argument)
    by (unfold validate_durable_resource_limits; destruct (orb _ _); auto).
  destruct Hres as [E| ->]; [|by left]. specialize (Hv E). rewrite E. cbn [bindR]. clear E.
  unfold validate_count_and_manifest. rewrite Z.gtb_ltb. pose proof (zlen_nonneg (m_segments m)).
  destruct (orb _ _) eqn:E1; [by left|]. b2p. pose proof Hv as ((? & ?) & _). rewrite durable_manifest_bytes_Ok by lia. cbn [bindR].
  destruct (128 + _ >? _); [by left|]. cbn [bindR]. unfold kMaximumManifestSegmentCount in *.
  rewrite segment_bytes_Ok by lia. cbn [bindR]. unfold kSegmentSizeBytes.
  rewrite checked_add_Ok by (width; lia). destruct (Z.ltb_spec (zlen (m_segments m) * (64 * 1024 * 1024) + (128 + 32 * zlen (m_segments m))) (2 ^ 64)); [|by left].
  cbn [bindR]. destruct (_ >? max_store_bytes limits); [by left|]. destruct (_ <? _); [by left|].
  unfold validate_descriptor_budget. destruct (orb _ _); [by left|]. destruct (_ >? max_open_files limits); [by left|].
  destruct getrlimit as [[rlim|]|e|f]; cbn [bindR]; [|split; [done|lia]|by right|done].
  destruct (_ >? rlim); [by left|]. split; [done|lia].
Qed.

Lemma amplification_Ok n k limits : limits_valid limits -> 0 <= k <= n -> n <= kMaximumManifestSegmentCount ->
  match validate_compaction_write_amplification n k limits with
  | Ok _ => k = 0 \/ k < n /\ k <= (n - k) * max_write_amplification limits
  | Err e => e = storage_exhausted
  | Stuck _ => False
  end.
Proof.
  intros (_ & Ha & _) Hk Hn. unfold kMaximumManifestSegmentCount in Hn. unfold validate_compaction_write_amplification.
  rewrite (wrap_small 64) by (width; lia). rewrite !segment_bytes_Ok by lia. cbn [bindR]. unfold kSegmentSizeBytes.
  destruct (Z.eqb_spec (k * (64 * 1024 * 1024)) 0); [left; lia|].
  destruct (Z.eqb_spec ((n - k) * (64 * 1024 * 1024)) 0); [done|].
  destruct (Z.eqb_spec (max_write_amplification limits) 0); [lia|].
  assert (Hb : (n - k) * (64 * 1024 * 1024) * max_write_amplification limits < 2 ^ 64) by (width; nia).
  destruct (Z.leb_spec ((n - k) * (64 * 1024 * 1024)) (umax 64 / max_write_amplification limits)) as [_|Hgt].
  2:{ exfalso. pose proof (Z.mul_succ_div_gt (umax 64) (max_write_amplification limits) ltac:(lia)) as Hs.
      change (2 ^ 64) with (umax 64 + 1) in Hb. nia. }
  rewrite wrap_small by (split; [nia|done]). rewrite Z.gtb_ltb. cbn [andb].
  destruct (Z.ltb_spec ((n - k) * (64 * 1024 * 1024) * max_write_amplification limits) (k * (64 * 1024 * 1024))); [done|].
  right. split; [lia|nia].
Qed.

Lemma estimate_Ok current next n k : zlen (m_segments current) <= kMaximumManifestSegmentCount ->
  zlen (m_segments next) <= kMaximumManifestSegmentCount -> 0 <= k <= n -> n <= kMaximumManifestSegmentCount ->
  exists i, estimate_compaction_resources current next n k =
    Ok (mkEstimate (k * kSegmentSizeBytes) ((n - k) * kSegmentSizeBytes)
          (compaction_peak (zlen (m_segments current)) (zlen (m_segments next)) k) i).
Proof.
  intros Hc Hx Hk Hn. pose proof (zlen_nonneg (m_segments current)). pose proof (zlen_nonneg (m_segments next)).
  unfold kMaximumManifestSegmentCount in *. unfold estimate_compaction_resources, kCompactionIntentHeaderBytes.
  rewrite (wrap_small 64 (n - k)) by (width; lia). rewrite !segment_bytes_Ok by lia. cbn [bindR].
  rewrite !durable_manifest_bytes_Ok by (unfold kMaximumManifestSegmentCount; lia). cbn [bindR].
  assert (Hadd : forall a b, 0 <= a -> 0 <= b -> a + b < 2 ^ 64 -> checked_add 64 a b = Ok (a + b)).
  { intros a b Ha Hb Hab. rewrite checked_add_Ok by (width; lia). by destruct (Z.ltb_spec (a + b) (2 ^ 64)); [|lia]. }
  unfold compaction_peak, kSegmentSizeBytes. width. rewrite !Hadd by (cbn [bindR]; lia). cbn [bindR].
  repeat (rewrite !Hadd by lia; cbn [bindR]). eexists. do 2 f_equal. lia.
Qed.

(** What a plan promises. *)
Record plan_ok (w k : Z) (limits : DurableResourceLimits) (current : Manifest) (p : DurableCompactionPlan) : Prop := {
  po_compacts : compacts w k current (plan_next_manifest p);
  po_worker : plan_worker_id p = w;
  po_sources : plan_sources p = sources_of w (m_segments current);
  po_replacements : plan_replacements p = sources_of w (m_segments (plan_next_manifest p));
  po_temporary : plan_temporary_bytes p = k * kSegmentSizeBytes;
  po_budget : plan_temporary_bytes p <= max_temporary_compaction_bytes limits;
  po_reclaimed : plan_reclaimed_bytes p = (zlen (plan_sources p) - k) * kSegmentSizeBytes;
  po_amplification : k = 0 \/ plan_temporary_bytes p <= plan_reclaimed_bytes p * max_write_amplification limits;
  po_peak : compaction_peak (zlen (m_segments current)) (zlen (m_segments (plan_next_manifest p))) k <= max_store_bytes limits
}.

Lemma plan_cases getrlimit current w k limits : manifest_ok current -> manifest_valid current -> limits_ok limits -> 0 <= k ->
  (forall f, getrlimit <> Stuck f) ->
  match plan_durable_worker_compaction getrlimit current w k limits with
  | Ok p => plan_ok w k limits current p
  | Err e => e <> internal_error \/ getrlimit = Err e
  | Stuck _ => False
  end.
Proof.
  intros Hok Hv Hl Hk Hos. unfold plan_durable_worker_compaction.
  pose proof (manifest_resources_Ok getrlimit current limits Hl) as Hr.
  destruct (validate_durable_manifest_resources getrlimit current limits) as [[]|e|f]; cbn [bindR]; [|done|by apply Hos in Hr].
  destruct Hr as [Hlim Hcount]. rewrite Z.geb_leb. destruct (Z.leb_spec (m_worker_count current) w) as [|Hw]; [by left|].
  destruct (Z.eqb_spec (m_manifest_generation current) (umax 64)) as [|Hg]; [by left|].
  set (src := sources_of w (m_segments current)). pose proof (entries_split w (m_segments current)) as Hsplit. fold src in Hsplit.
  pose proof (zlen_nonneg (others_of w (m_segments current))). destruct (Z.eqb_spec (zlen src) 0) as [|Hsome]; [by left|].
  rewrite Z.gtb_ltb. destruct (Z.ltb_spec (zlen src) k) as [|Hks]; [by left|].
  pose proof (amplification_Ok (zlen src) k limits Hlim ltac:(lia) ltac:(lia)) as Ha.
  destruct (validate_compaction_write_amplification (zlen src) k limits) as [[]|e|f]; cbn [bindR]; [|by left; subst|done].
  pose proof (replace_entries_cases w k (m_segments current) Hk) as Hc. fold src in Hc.
  destruct (replace_entries w k (m_segments current)) as [[new repl]|e|f] eqn:Er; cbn [bindR fst snd]; [|left; by destruct Hc as [-> _]|done].
  destruct Hc as (Hs & Ho & Hrep & Hf).
  pose proof (replace_entries_length w k _ new repl (conj Hk Hks) Er) as Hnew. fold src in Hnew.
  assert (Hu : u64 (m_manifest_generation current + 1) = m_manifest_generation current + 1).
  { destruct Hok as (_ & _ & Hgen & _). apply wrap_small. width. lia. }
  rewrite Hu. set (next := next_catalog current (m_manifest_generation current + 1) new).
  assert (Hle : zlen new <= zlen (m_segments current)) by lia.
  destruct (next_manifest_ok w k current new repl Hk Er Hok Hv Hg Hle) as [Hnok Hnv]. fold next in Hnok, Hnv.
  change (m_segments next) with new.
  destruct (estimate_Ok current next (zlen src) k) as (i & ->); [done|change (m_segments next) with new; lia|lia|lia|].
  change (m_segments next) with new. cbn [bindR]. unfold validate_compaction_resources. cbn [temporary_bytes peak_store_bytes].
  rewrite !Z.gtb_ltb. destruct (Z.ltb_spec (max_temporary_compaction_bytes limits) (k * kSegmentSizeBytes)) as [|Ht]; [by left|].
  destruct (Z.ltb_spec (max_store_bytes limits) (compaction_peak (zlen (m_segments current)) (zlen new) k)) as [|Hp]; [by left|]. cbn [bindR].
  rewrite encoded_size_Ok by done. cbn [bindR].
  assert (Hco : compacts w k current next).
  { split; try done; [|change (sources_of w new = map bump (ztake k src)); by rewrite Hs, Hrep]. fold src. intros E. apply Hsome. by rewrite E. }
  pose proof (transition_cases w current next Hok Hnok) as Ht'.
  destruct (validate_durable_compaction_transition current next w) as [k'|e|f]; cbn [bindR]; [|by destruct (proj2 Ht' k)|done].
  assert (k' = k) as -> by (apply compacts_length in Ht', Hco; lia). rewrite Z.eqb_refl. cbn [negb].
  split; cbn; try done. destruct Ha as [->|[_ Ha]]; [by left|]. right. unfold kSegmentSizeBytes. nia.
Qed.

(** ** The layout *)

(** Records added in order, each with its placement. *)
Fixpoint add_records (sizes : list Z) : Method DurableCompactionLayout (list (DurableCompactionPlacement * Z)) :=
  match sizes with
  | [] => retM []
  | size :: sizes =>
      let! placement := add_record size in
      let! rest := add_records sizes in
      retM ((placement, size) :: rest)
  end.

Definition size_ok (size : Z) : Prop :=
  kEncodedRecordHeaderSize <= size <= kMaxNormalRecordSize /\ size mod kRecordAlignment = 0.

Record layout_ok (l : DurableCompactionLayout) : Prop := {
  lo_count : 0 <= segment_count l < 2 ^ 62;
  lo_payload : 0 <= current_payload_bytes l <= kPayloadBytes;
  lo_aligned : current_payload_bytes l mod kRecordAlignment = 0;
  lo_bytes : 0 <= encoded_bytes l;
  lo_filled : 0 < segment_count l ->
    encoded_bytes l <= (segment_count l - 1) * kPayloadBytes + current_payload_bytes l;
  lo_empty : segment_count l = 0 -> current_payload_bytes l = 0 /\ encoded_bytes l = 0
}.

(** Where the next record may go. *)
Definition after_cursor (l : DurableCompactionLayout) (p : DurableCompactionPlacement) : Prop :=
  segment_count l <= segment_index p \/
  segment_index p = segment_count l - 1 /\ kSegmentHeaderReservedBytes + current_payload_bytes l <= placement_offset p.

Definition placed_inside (x : DurableCompactionPlacement * Z) : Prop :=
  kSegmentHeaderReservedBytes <= placement_offset x.1 /\ placement_offset x.1 + x.2 <= kSegmentSizeBytes /\
  placement_offset x.1 mod kRecordAlignment = 0 /\ 0 <= segment_index x.1.
Definition placed_before (x y : DurableCompactionPlacement * Z) : Prop :=
  segment_index x.1 < segment_index y.1 \/
  segment_index x.1 = segment_index y.1 /\ placement_offset x.1 + x.2 <= placement_offset y.1.

Ltac unfold_layout := unfold kPayloadBytes, kSegmentSizeBytes, kSegmentHeaderReservedBytes, kRecordAlignment,
  kEncodedRecordHeaderSize, kMaxNormalRecordSize in *.

Lemma add_record_spec l size : layout_ok l -> segment_count l < 2 ^ 62 - 1 -> encoded_bytes l + size < 2 ^ 64 -> size_ok size ->
  exists p l', add_record size l = (Ok p, l') /\ layout_ok l' /\ placed_inside (p, size) /\ after_cursor l p /\
    segment_count l <= segment_count l' <= segment_count l + 1 /\ segment_index p = segment_count l' - 1 /\
    placement_offset p + size = kSegmentHeaderReservedBytes + current_payload_bytes l' /\
    encoded_bytes l' = encoded_bytes l + size.
Proof.
  intros [Hc Hp Ha Hb Hf He] Hmax Hsum [Hs Hal]. unfold add_record. rewrite bindM_get, !Z.gtb_ltb. unfold_layout.
  destruct (orb (orb (orb _ _) _) _) eqn:E1.
  { exfalso. rewrite !orb_true_iff, !Z.ltb_lt, negb_true_iff, Z.eqb_neq in E1. lia. }
  clear E1. destruct (Z.ltb_spec (umax 64 - encoded_bytes l) size); [width; lia|].
  set (space := 64 * 1024 * 1024 - 4096) in *. assert (Hspace : space = 67104768) by done.
  rewrite (wrap_small 32 (space - current_payload_bytes l)) by (width; lia).
  destruct (orb (segment_count l =? 0) (space - current_payload_bytes l <? size)) eqn:E2.
  - destruct (Z.eqb_spec (segment_count l) size_max) as [E|_]; [width; lia|].
    unfold bindM, putM, getM, retM. cbn. eexists _, _. split; [reflexivity|].
    repeat rewrite wrap_small by (repeat rewrite wrap_small by (width; lia); width; lia).
    unfold after_cursor, placed_inside. unfold_layout. cbn.
    split_and!; try lia; try done. split; unfold_layout; cbn; lia || divlia.
  - apply orb_false_iff in E2 as [E2 E3]. b2p.
    unfold bindM, putM, getM, retM. cbn. eexists _, _. split; [reflexivity|].
    repeat rewrite wrap_small by (repeat rewrite wrap_small by (width; lia); width; lia).
    unfold after_cursor, placed_inside. unfold_layout. cbn.
    split_and!; try lia; try divlia. split; unfold_layout; cbn; lia || divlia.
Qed.

Definition total_size (sizes : list Z) : Z := foldr Z.add 0 sizes.

Lemma add_records_spec sizes l : layout_ok l -> Forall size_ok sizes -> segment_count l + zlen sizes < 2 ^ 62 - 1 ->
  encoded_bytes l + total_size sizes < 2 ^ 64 ->
  exists placed l', add_records sizes l = (Ok placed, l') /\ layout_ok l' /\ map snd placed = sizes /\
    Forall placed_inside placed /\ StronglySorted placed_before placed /\
    Forall (fun x => after_cursor l x.1) placed /\ Forall (fun x => segment_index x.1 < segment_count l') placed /\
    segment_count l <= segment_count l' /\ encoded_bytes l' = encoded_bytes l + total_size sizes.
Proof.
  intros Hl Hs. revert l Hl. induction Hs as [|size sizes Hs1 Hs IH]; intros l Hl Hc Hb; cbn [add_records].
  { exists [], l. unfold total_size in *. cbn in *. split_and!; try done; try constructor; lia. }
  change (total_size (size :: sizes)) with (size + total_size sizes) in *.
  rewrite zlen_cons in Hc. pose proof (zlen_nonneg sizes).
  assert (Ht : 0 <= total_size sizes).
  { clear -Hs. induction Hs as [|x xs [Hx _] _ IH]; [done|]. unfold kEncodedRecordHeaderSize in Hx. unfold total_size in *. cbn. lia. }
  destruct (add_record_spec l size Hl ltac:(lia) ltac:(lia) Hs1) as (p & l1 & E & Hl1 & Hin & Hcur & Hcnt & Hidx & Hend & Henc).
  rewrite (bindM_Ok _ _ _ _ _ E).
  destruct (IH l1 Hl1 ltac:(lia) ltac:(lia)) as (placed & l2 & E2 & Hl2 & Hm & Hf & Hso & Haf & Hlt & Hc2 & Hb2).
  rewrite (bindM_Ok _ _ _ _ _ E2). exists ((p, size) :: placed), l2. split_and!; try done.
  - cbn. by rewrite Hm.
  - by constructor.
  - constructor; [done|]. eapply Forall_impl; [exact Haf|]. intros x Hx. unfold after_cursor, placed_before in *. cbn. lia.
  - constructor; [done|]. eapply Forall_impl; [exact Haf|]. intros x Hx. unfold after_cursor, size_ok, kEncodedRecordHeaderSize in *. lia.
  - constructor; [cbn; lia|done].
  - lia.
  - lia.
Qed.

(** The number of segments is at least the lower bound on aggregate bytes. *)
Lemma output_segments_bound l n : layout_ok l -> durable_compaction_output_segments (encoded_bytes l) = Ok n -> n <= segment_count l.
Proof.
  intros [Hc Hp Ha Hb Hf He] E. unfold durable_compaction_output_segments in E. rewrite Z.gtb_ltb in E.
  destruct (Z.eqb_spec (encoded_bytes l) 0); [simplify_eq; lia|].
  destruct (Z.ltb_spec (size_max - (if encoded_bytes l mod kPayloadBytes =? 0 then 0 else 1)) (encoded_bytes l / kPayloadBytes)); [done|].
  apply Ok_inj in E as <-. assert (Hpos : 0 < segment_count l) by lia. specialize (Hf Hpos). clear He.
  assert (Hk : kPayloadBytes = 67104768) by done. rewrite Hk in *.
  destruct (Z.eqb_spec (encoded_bytes l mod 67104768) 0); divlia.
Qed.

(** ** Properties *)

(** C17. A plan of a compaction is a legal transition: it keeps every entry but the
    sealed segments of its worker, replaces the first [k] of those and drops the
    rest, and respects the temporary, write-amplification and peak budgets of the
    limits.  The planner does not fail with an internal error, and does not divide
    by zero, whatever the operating system answers. *)
Theorem plan_compaction_correct getrlimit current w k limits :
  manifest_ok current -> manifest_valid current -> limits_ok limits -> 0 <= k -> (forall f, getrlimit <> Stuck f) ->
  match plan_durable_worker_compaction getrlimit current w k limits with
  | Ok p => plan_ok w k limits current p
  | Err e => e <> internal_error \/ getrlimit = Err e
  | Stuck _ => False
  end.
Proof. apply plan_cases. Qed.

(** C26. The validation of a transition accepts exactly the pairs of manifests that
    a compaction of that worker relates, and returns the number of replacements. *)
Theorem compaction_transition_exact w current next k : manifest_ok current -> manifest_ok next ->
  validate_durable_compaction_transition current next w = Ok k <-> compacts w k current next.
Proof.
  intros Hc Hn. pose proof (transition_cases w current next Hc Hn) as Ht. split.
  - intros E. by rewrite E in Ht.
  - intros Hco. destruct (validate_durable_compaction_transition current next w) as [k'|e|f]; [|by destruct (proj2 Ht k)|done].
    f_equal. apply compacts_length in Ht, Hco. lia.
Qed.

(** C36. The layout puts every record inside a segment, aligned and behind the
    header, and keeps the records in order without overlap; it needs at least the
    number of segments that the aggregate bound gives. *)
Theorem compaction_layout_sound sizes : Forall size_ok sizes -> zlen sizes < 2 ^ 62 - 1 -> total_size sizes < 2 ^ 64 ->
  exists placed l, add_records sizes new_layout = (Ok placed, l) /\ map snd placed = sizes /\
    Forall placed_inside placed /\ StronglySorted placed_before placed /\
    Forall (fun x => segment_index x.1 < segment_count l) placed /\ encoded_bytes l = total_size sizes /\
    forall n, durable_compaction_output_segments (total_size sizes) = Ok n -> n <= segment_count l.
Proof.
  intros Hs Hn Ht. assert (H0 : layout_ok new_layout) by (split; done).
  destruct (add_records_spec sizes new_layout H0 Hs Hn Ht) as (placed & l & E & Hl & Hm & Hin & Hso & _ & Hlt & _ & Hb).
  exists placed, l. split_and!; try done. intros n En. apply output_segments_bound; [done|]. by rewrite Hb.
Qed.

(** ** Witnesses *)

Definition sample_limits : DurableResourceLimits :=
  mkLimits (1024 * 64 * 1024 * 1024) 0 100 8192 100 1 2 (64 * 1024 * 1024) 4 0.
Definition sample_current : Manifest :=
  mkManifest (1 :: zeros 15) 4 2 1 1 77 9 1
    [mkEntry 3 1 0 ManifestSegmentRole_sealed; mkEntry 5 1 0 ManifestSegmentRole_sealed; mkEntry 8 2 0 ManifestSegmentRole_active].
Definition sample_next : Manifest :=
  mkManifest (1 :: zeros 15) 5 2 1 1 77 9 1
    [mkEntry 3 2 0 ManifestSegmentRole_sealed; mkEntry 8 2 0 ManifestSegmentRole_active].

Lemma sample_current_ok : manifest_ok sample_current.
Proof.
  unfold manifest_ok, sample_current. cbn [m_store_id m_manifest_generation m_routing_algorithm m_worker_count
    m_routing_epoch m_worker_hash_seed m_next_segment_id m_next_segment_generation m_segments].
  split_and!; try done; [bytes_eval|]. repeat (apply Forall_cons_2; [split_and!; done|]). constructor.
Qed.
Lemma sample_next_ok : manifest_ok sample_next.
Proof.
  unfold manifest_ok, sample_next. cbn [m_store_id m_manifest_generation m_routing_algorithm m_worker_count
    m_routing_epoch m_worker_hash_seed m_next_segment_id m_next_segment_generation m_segments].
  split_and!; try done; [bytes_eval|]. repeat (apply Forall_cons_2; [split_and!; done|]). constructor.
Qed.
Lemma sample_current_valid : manifest_valid sample_current.
Proof.
  destruct (validate_manifest_cases sample_current corrupted_data sample_current_ok) as [[_ H]|[E _]]; [exact H|].
  vm_compute in E. discriminate E.
Qed.

Lemma plan_compaction_witness :
  match plan_durable_worker_compaction (Ok None) sample_current 0 1 sample_limits with
  | Ok p => plan_ok 0 1 sample_limits sample_current p
  | Err e => e <> internal_error \/ Ok (None : option Z) = Err e
  | Stuck _ => False
  end /\ is_Ok (plan_durable_worker_compaction (Ok None) sample_current 0 1 sample_limits) = true.
Proof.
  split; [|vm_compute; reflexivity].
  apply (plan_compaction_correct (Ok None) sample_current 0 1 sample_limits sample_current_ok sample_current_valid);
    [split_and!; done|done|done].
Defined.

Lemma compaction_transition_witness : compacts 0 1 sample_current sample_next.
Proof.
  apply (compaction_transition_exact 0 sample_current sample_next 1 sample_current_ok sample_next_ok). vm_compute. reflexivity.
Defined.

Lemma compaction_layout_witness :
  exists placed l, add_records [64; 1024; 56] new_layout = (Ok placed, l) /\ StronglySorted placed_before placed.
Proof.
  destruct (compaction_layout_sound [64; 1024; 56]) as (placed & l & E & _ & _ & Hso & _).
  - repeat (apply Forall_cons_2; [split_and!; (done || reflexivity)|]). constructor.
  - done.
  - done.
  - by exists placed, l.
Defined.
