(* ===== verification/CompactionIntent.v ===== *)
(** * The intent of a compaction

    Models src/persistence/compaction_intent.cpp and its header: the checksummed
    record of a compaction in progress, with the manifests before and after it.
    The theorem shows that decoding and encoding are inverse on legal transitions. *)

From S2P Require Import Prelude Core Crc32c Record SegmentHeader Routing Manifest Compaction.

Definition kCompactionIntentMagic : Z := 0x43594C47.
Definition kCompactionIntentFormatVersion : Z := 1.
Definition kMaximumCompactionIntentBytes : Z := kCompactionIntentHeaderBytes + 2 * kMaximumManifestBytes.
Definition kIntentChecksumOffset : Z := 56.

Record DurableCompactionIntent := mkIntent {
  i_worker_id : Z;
  i_old_manifest : Manifest;
  i_next_manifest : Manifest
}.

Definition validate_intent (intent : DurableCompactionIntent) : Status :=
  validate_durable_compaction_transition (i_old_manifest intent) (i_next_manifest intent) (i_worker_id intent) ;;?
  Ok tt.

Definition encoded_compaction_intent_size (intent : DurableCompactionIntent) : Result Z :=
  validate_intent intent ;;?
  let? old_size := encoded_manifest_size (i_old_manifest intent) in
  let? next_size := encoded_manifest_size (i_next_manifest intent) in
  if (old_size >? size_max - kCompactionIntentHeaderBytes) ||
     (next_size >? size_max - kCompactionIntentHeaderBytes - old_size)
  then Err arithmetic_overflow
  else
  let total := kCompactionIntentHeaderBytes + old_size + next_size in
  if total >? kMaximumCompactionIntentBytes then Err arithmetic_overflow else Ok total.

(** [encode_compaction_intent(out, intent)] *)
Definition encode_compaction_intent_into (out : list Z) (intent : DurableCompactionIntent) : Result (list Z) :=
  let? total := encoded_compaction_intent_size intent in
  let? old_manifest := encode_manifest (i_old_manifest intent) in
  let? next_manifest := encode_manifest (i_next_manifest intent) in
  if zlen out <? total then Err invalid_argument
  else
  let encoded := zeros total in
  let? encoded := put_u32 encoded 0 kCompactionIntentMagic in
  let? encoded := put_u16 encoded 4 kCompactionIntentFormatVersion in
  let? encoded := put_u16 encoded 6 (u16 kCompactionIntentHeaderBytes) in
  let? encoded := put_u32 encoded 8 (u32 total) in
  let? encoded := put_u32 encoded 12 (i_worker_id intent) in
  let? encoded := memcpy encoded 16 (m_store_id (i_old_manifest intent)) in
  let? encoded := put_u64 encoded 32 (m_manifest_generation (i_old_manifest intent)) in
  let? encoded := put_u64 encoded 40 (m_manifest_generation (i_next_manifest intent)) in
  let? encoded := put_u32 encoded 48 (u32 (zlen old_manifest)) in
  let? encoded := put_u32 encoded 52 (u32 (zlen next_manifest)) in
  let? encoded := memcpy encoded kCompactionIntentHeaderBytes old_manifest in
  let? encoded := memcpy encoded (kCompactionIntentHeaderBytes + zlen old_manifest) next_manifest in
  let? sum := zeroed_checksum kIntentChecksumOffset encoded in
  let? encoded := put_u32 encoded kIntentChecksumOffset sum in
  memcpy out 0 encoded.

Definition encode_compaction_intent (intent : DurableCompactionIntent) : Result (list Z) :=
  let? size := encoded_compaction_intent_size intent in
  encode_compaction_intent_into (zeros size) intent.

Definition decode_compaction_intent (bytes : list Z) : Result DurableCompactionIntent :=
  if zlen bytes <? kCompactionIntentHeaderBytes then Err invalid_record
  else
  let? bad := get_u32 bytes 0 <>? kCompactionIntentMagic ||? get_u16 bytes 4 <>? kCompactionIntentFormatVersion ||?
              get_u16 bytes 6 <>? kCompactionIntentHeaderBytes ||? nonzero_at bytes 60 68 in
  if (bad : bool) then Err invalid_record
  else
  let? old_size := get_u32 bytes 48 in
  let? next_size := get_u32 bytes 52 in
  if (old_size <? kManifestHeaderBytes) || (next_size <? kManifestHeaderBytes) ||
     (old_size >? kMaximumManifestBytes) || (next_size >? kMaximumManifestBytes) ||
     (old_size >? size_max - kCompactionIntentHeaderBytes) ||
     (next_size >? size_max - kCompactionIntentHeaderBytes - old_size)
  then Err invalid_record
  else
  let expected := kCompactionIntentHeaderBytes + old_size + next_size in
  if negb (zlen bytes =? expected) then Err invalid_record
  else
  let? bad := get_u32 bytes 8 <>? expected in
  if (bad : bool) then Err invalid_record
  else
  let? sum := zeroed_checksum kIntentChecksumOffset bytes in
  let? bad := get_u32 bytes kIntentChecksumOffset <>? sum in
  if (bad : bool) then Err checksum_mismatch
  else
  let? old_bytes := subspan bytes kCompactionIntentHeaderBytes old_size in
  let? next_bytes := subspan bytes (kCompactionIntentHeaderBytes + old_size) next_size in
  let? old_manifest := decode_manifest old_bytes in
  let? next_manifest := decode_manifest next_bytes in
  let? worker_id := get_u32 bytes 12 in
  let intent := mkIntent worker_id old_manifest next_manifest in
  let? encoded_store := subspan bytes 16 16 in
  let? old_generation := get_u64 bytes 32 in
  let? next_generation := get_u64 bytes 40 in
  if negb (bool_decide (encoded_store = m_store_id old_manifest)) ||
     negb (old_generation =? m_manifest_generation old_manifest) ||
     negb (next_generation =? m_manifest_generation next_manifest)
  then Err corrupted_data
  else
  or_fail (validate_intent intent) corrupted_data ;;?
  Ok intent.

(** ** The encoding *)

Definition intent_ok (i : DurableCompactionIntent) : Prop :=
  is_u32 (i_worker_id i) /\ manifest_ok (i_old_manifest i) /\ manifest_ok (i_next_manifest i).
(** The two manifests are related by a compaction of the worker. *)
Definition intent_valid (i : DurableCompactionIntent) : Prop :=
  exists k, compacts (i_worker_id i) k (i_old_manifest i) (i_next_manifest i).

Definition intent_size (i : DurableCompactionIntent) : Z :=
  128 + manifest_size (i_old_manifest i) + manifest_size (i_next_manifest i).
Definition intent_front (i : DurableCompactionIntent) : list Z :=
  le_bytes 4 kCompactionIntentMagic ++ le_bytes 2 kCompactionIntentFormatVersion ++
  le_bytes 2 kCompactionIntentHeaderBytes ++ le_bytes 4 (intent_size i) ++ le_bytes 4 (i_worker_id i) ++
  m_store_id (i_old_manifest i) ++ le_bytes 8 (m_manifest_generation (i_old_manifest i)) ++
  le_bytes 8 (m_manifest_generation (i_next_manifest i)) ++ le_bytes 4 (manifest_size (i_old_manifest i)) ++
  le_bytes 4 (manifest_size (i_next_manifest i)).
Definition intent_back (i : DurableCompactionIntent) : list Z :=
  zeros 68 ++ manifest_bytes (i_old_manifest i) ++ manifest_bytes (i_next_manifest i).
Definition intent_encoding (i : DurableCompactionIntent) : list Z :=
  intent_front i ++ le_bytes 4 (crc32c (intent_front i ++ zeros 4 ++ intent_back i)) ++ intent_back i.

Lemma zlen_intent_front i : zlen (m_store_id (i_old_manifest i)) = 16 -> zlen (intent_front i) = 56.
Proof. intros H. unfold intent_front. autorewrite with zlen. rewrite H. lia. Qed.
Lemma zlen_intent_back i : intent_ok i -> zlen (intent_back i) = intent_size i - 60.
Proof.
  intros (_ & (Ho & _) & (Hn & _)). unfold intent_back, intent_size. rewrite !zlen_app, !zlen_manifest_bytes, zlen_zeros by (done || lia). lia.
Qed.
Lemma zlen_intent_encoding i : intent_ok i -> zlen (intent_encoding i) = intent_size i.
Proof.
  intros Hok. pose proof Hok as (_ & (Ho & _) & _). unfold intent_encoding.
  rewrite !zlen_app, zlen_intent_front, zlen_intent_back, zlen_le_bytes by (done || lia). lia.
Qed.

Lemma validate_intent_cases i : intent_ok i ->
  validate_intent i = Ok tt /\ intent_valid i \/ exists e, validate_intent i = Err e /\ ~ intent_valid i.
Proof.
  intros (_ & Ho & Hn). unfold validate_intent, intent_valid. pose proof (transition_cases (i_worker_id i) _ _ Ho Hn) as Ht.
  destruct (validate_durable_compaction_transition _ _ _) as [k|e|f]; cbn [bindR]; [left; eauto| |done].
  right. exists e. split; [done|]. intros [k Hk]. by destruct (proj2 Ht k).
Qed.

(** The sizes of legal intents. *)
Lemma intent_bounds i : intent_valid i ->
  128 <= manifest_size (i_old_manifest i) <= kMaximumManifestBytes /\ 128 <= manifest_size (i_next_manifest i) <= kMaximumManifestBytes.
Proof.
  intros [k Hk]. pose proof (mv_count _ (co_current _ _ _ _ Hk)). pose proof (mv_count _ (co_next _ _ _ _ Hk)).
  pose proof (zlen_nonneg (m_segments (i_old_manifest i))). pose proof (zlen_nonneg (m_segments (i_next_manifest i))).
  unfold kMaximumManifestBytes, kManifestHeaderBytes, kManifestSegmentEntryBytes, manifest_size. lia.
Qed.

Ltac unfold_intent := unfold kMaximumCompactionIntentBytes, kMaximumManifestBytes, kMaximumManifestSegmentCount, kManifestHeaderBytes,
  kManifestSegmentEntryBytes, kCompactionIntentHeaderBytes, kCompactionIntentMagic, kCompactionIntentFormatVersion, kIntentChecksumOffset in *.

Lemma intent_size_Ok i : intent_ok i -> intent_valid i -> encoded_compaction_intent_size i = Ok (intent_size i).
Proof.
  intros Hok Hv. pose proof (intent_bounds i Hv) as [Hbo Hbn]. unfold encoded_compaction_intent_size.
  destruct (validate_intent_cases i Hok) as [[-> _]|(e & _ & ?)]; [|done]. cbn [bindR].
  pose proof Hok as (_ & Ho & Hn). destruct Hv as [k Hk].
  pose proof (co_current _ _ _ _ Hk). pose proof (co_next _ _ _ _ Hk). rewrite !encoded_size_Ok by done. cbn [bindR]. unfold_intent. rewrite !Z.gtb_ltb.
  destruct (Z.ltb_spec (size_max - 128) (manifest_size (i_old_manifest i))); [width; lia|].
  destruct (Z.ltb_spec (size_max - 128 - manifest_size (i_old_manifest i)) (manifest_size (i_next_manifest i))); [width; lia|]. cbn [orb].
  fold (intent_size i). destruct (Z.ltb_spec (128 + 2 * (128 + 1000000 * 32)) (intent_size i)); [unfold intent_size in *; lia|done].
Qed.

Lemma encode_intent_Ok i : intent_ok i -> intent_valid i -> encode_compaction_intent i = Ok (intent_encoding i).
Proof.
  intros Hok Hv. pose proof (intent_bounds i Hv) as [Hbo Hbn]. unfold encode_compaction_intent, encode_compaction_intent_into.
  rewrite intent_size_Ok by done. cbn [bindR]. pose proof Hok as (_ & Ho & Hn). destruct Hv as [k Hk].
  pose proof (co_current _ _ _ _ Hk). pose proof (co_next _ _ _ _ Hk). rewrite !encode_manifest_Ok by done. cbn [bindR].
  pose proof Ho as (Hst & _). pose proof Hn as (Hst' & _). set (old := manifest_bytes (i_old_manifest i)). set (nxt := manifest_bytes (i_next_manifest i)).
  assert (Hlo : zlen old = manifest_size (i_old_manifest i)) by (by apply zlen_manifest_bytes).
  assert (Hln : zlen nxt = manifest_size (i_next_manifest i)) by (by apply zlen_manifest_bytes).
  assert (Hsz : intent_size i = 128 + zlen old + zlen nxt) by (unfold intent_size; lia). unfold_intent.
  rewrite zlen_zeros by lia. destruct (Z.ltb_spec (intent_size i) (intent_size i)); [lia|].
  set (o := zeros (intent_size i)). assert (Hlen : zlen o = intent_size i) by (unfold o; zl).
  change (u16 128) with 128. rewrite !wrap_small by (width; lia). change o with ([] ++ zdrop 0 o) at 1. fill.
  rewrite (memcpy_fill _ o 16 32) by zl. cbn [bindR]. fill.
  replace (zdrop 56 o) with ((zeros 4 ++ zeros 68) ++ zdrop 128 o).
  2:{ unfold o. rewrite !zdrop_zeros, !zeros_app by lia. f_equal. lia. }
  rewrite !app_assoc. rewrite (memcpy_fill _ o 128 (128 + zlen old)) by zl. cbn [bindR].
  rewrite (memcpy_fill _ o (128 + zlen old) (intent_size i)) by zl. cbn [bindR].
  rewrite (zdrop_all (intent_size i) o), app_nil_r by lia. rewrite <- !app_assoc. cbn [app]. rewrite Hlo, Hln.
  match goal with |- context [zeroed_checksum 56 ?e] => assert (e = intent_front i ++ zeros 4 ++ intent_back i) as ->
    by (unfold intent_front, intent_back; unfold_intent; by rewrite <- !app_assoc) end.
  pose proof (zlen_intent_front i Hst) as Hfront.
  rewrite zeroed_checksum_field by zl. cbn [bindR]. rewrite put_u32_over by zl. cbn [bindR]. fold (intent_encoding i).
  change o with ([] ++ zdrop 0 o) at 1.
  rewrite (memcpy_fill [] o 0 (intent_size i) (intent_encoding i)) by (rewrite ?zlen_intent_encoding; done || lia).
  by rewrite (zdrop_all (intent_size i) o), app_nil_r by lia.
Qed.

Lemma encode_intent_inv i bs : intent_ok i -> encode_compaction_intent i = Ok bs -> intent_valid i /\ bs = intent_encoding i.
Proof.
  intros Hok H. destruct (validate_intent_cases i Hok) as [[_ Hv]|(e & E & _)].
  - rewrite encode_intent_Ok in H by done. apply Ok_inj in H as <-. done.
  - unfold encode_compaction_intent, encoded_compaction_intent_size in H. by rewrite E in H.
Qed.

(** ** Decoding *)

Lemma slice_mid {A} (p x s : list A) a n : zlen p = a -> zlen x = n -> slice a n (p ++ x ++ s) = x.
Proof.
  intros <- <-. pose proof (zlen_nonneg x). rewrite slice_app_r, Z.sub_diag, slice_app_l by lia. by apply slice_whole.
Qed.

Ltac intent_field bs := unfold bs, intent_front; known_field.

Lemma decode_intent_bytes i : intent_ok i -> intent_valid i -> decode_compaction_intent (intent_encoding i) = Ok i.
Proof.
  intros Hok Hv. pose proof (intent_bounds i Hv) as [Hbo Hbn]. pose proof Hok as (Hw & Ho & Hn).
  pose proof Ho as (Hst & Hsb & Hgo & _). pose proof Hn as (Hst' & _ & Hgn & _).
  set (old := manifest_bytes (i_old_manifest i)). set (nxt := manifest_bytes (i_next_manifest i)).
  assert (Hlo : zlen old = manifest_size (i_old_manifest i)) by (by apply zlen_manifest_bytes).
  assert (Hln : zlen nxt = manifest_size (i_next_manifest i)) by (by apply zlen_manifest_bytes).
  set (crc := crc32c (intent_front i ++ zeros 4 ++ intent_back i)). assert (is_u32 crc) as Hcrc by (apply wrap_range; lia).
  assert (Heq : intent_encoding i = intent_front i ++ le_bytes 4 crc ++ zeros 68 ++ old ++ nxt) by done.
  assert (Hsum : zeroed_checksum 56 (intent_encoding i) = Ok crc) by (apply zeroed_checksum_field; [by apply zlen_intent_front|zl]).
  pose proof (zlen_intent_encoding i Hok) as Hlen. clearbody crc. rewrite Heq in *.
  set (bs := intent_front i ++ le_bytes 4 crc ++ zeros 68 ++ old ++ nxt) in *.
  unfold intent_size in Hlen. pose proof (zlen_intent_front i Hst) as Hf.
  unfold decode_compaction_intent, nonzero_at. unfold_intent. destruct (Z.ltb_spec (zlen bs) 128); [lia|].
  rewrite (subspan_in bs 60), (subspan_in bs 16), Hsum by lia. reads. cbn [bindR].
  assert (le_value (slice 0 4 bs) = 0x43594C47) as -> by intent_field bs.
  assert (le_value (slice 4 2 bs) = 1) as -> by intent_field bs.
  assert (le_value (slice 6 2 bs) = 128) as -> by intent_field bs.
  assert (le_value (slice 8 4 bs) = intent_size i) as ->
    by (assert (is_u32 (intent_size i)) by (unfold intent_size; width; lia); intent_field bs).
  assert (le_value (slice 12 4 bs) = i_worker_id i) as -> by intent_field bs.
  assert (slice 16 16 bs = m_store_id (i_old_manifest i)) as -> by
    (unfold bs, intent_front; rewrite <- ?app_assoc; by locate_field).
  assert (le_value (slice 32 8 bs) = m_manifest_generation (i_old_manifest i)) as -> by intent_field bs.
  assert (le_value (slice 40 8 bs) = m_manifest_generation (i_next_manifest i)) as -> by intent_field bs.
  assert (le_value (slice 48 4 bs) = manifest_size (i_old_manifest i)) as -> by intent_field bs.
  assert (le_value (slice 52 4 bs) = manifest_size (i_next_manifest i)) as -> by intent_field bs.
  assert (le_value (slice 56 4 bs) = crc) as -> by intent_field bs.
  assert (slice 60 68 bs = zeros 68) as -> by
    (unfold bs; rewrite app_assoc; apply slice_mid; zl).
  rewrite all_zero_zeros. checks. rewrite !Z.gtb_ltb. destruct (orb _ _) eqn:E.
  { exfalso. rewrite !orb_true_iff, !Z.ltb_lt in E. width. lia. }
  clear E. rewrite Hlen. unfold intent_size. checks. rewrite !subspan_in by lia. cbn [bindR].
  assert (slice 128 (manifest_size (i_old_manifest i)) bs = old) as ->.
  { unfold bs. rewrite app_assoc, app_assoc. apply slice_mid; zl. }
  assert (slice (128 + manifest_size (i_old_manifest i)) (manifest_size (i_next_manifest i)) bs = nxt) as ->.
  { unfold bs. rewrite !app_assoc, <- (app_nil_r nxt) at 1. apply slice_mid; zl. }
  destruct Hv as [k Hk]. unfold old, nxt. pose proof (co_current _ _ _ _ Hk). pose proof (co_next _ _ _ _ Hk).
  rewrite !decode_manifest_bytes by done. cbn [bindR]. rewrite bool_decide_eq_true_2 by done. checks.
  destruct i as [w om nm]. cbn [i_worker_id i_old_manifest i_next_manifest] in *.
  destruct (validate_intent_cases (mkIntent w om nm) Hok) as [[-> _]|(e & _ & Hno)]; [done|]. destruct Hno. by exists k.
Qed.

(** What the decoder says of arbitrary bytes. *)
Lemma decode_intent_cases bs : bytes_ok bs ->
  match decode_compaction_intent bs with
  | Ok i => intent_ok i /\ intent_valid i /\ bs = intent_encoding i
  | Err e => e = invalid_record \/ e = checksum_mismatch \/ e = corrupted_data
  | Stuck _ => False
  end.
Proof.
  intros Hbs. unfold decode_compaction_intent, nonzero_at. unfold_intent.
  destruct (Z.ltb_spec (zlen bs) 128) as [|Hl]; [auto|]. rewrite (subspan_in bs 60), (subspan_in bs 16) by lia.
  reads. rewrite !neR_Ok. cbn [bindR]. rewrite !orR_Ok. cbn [bindR]. head_if E1; [auto|]. b2p.
  assert (Ho : is_u32 (le_value (slice 48 4 bs))) by (apply (is_uint_slice bs 48 4); done || lia).
  assert (Hn : is_u32 (le_value (slice 52 4 bs))) by (apply (is_uint_slice bs 52 4); done || lia).
  set (os := le_value (slice 48 4 bs)) in *. set (ns := le_value (slice 52 4 bs)) in *. rewrite !Z.gtb_ltb.
  head_if E2; [auto|]. b2p. head_if E3; [auto|]. b2p. rewrite neR_Ok. cbn [bindR]. head_if E4; [auto|]. b2p.
  rewrite zeroed_checksum_in by lia. cbn [bindR]. rewrite neR_Ok. cbn [bindR]. head_if E5; [auto|]. b2p. change (56 + 4) with 60 in *.
  rewrite !subspan_in by lia. cbn [bindR].
  pose proof (decode_manifest_cases (slice 128 os bs) (bytes_ok_slice _ _ _ Hbs)) as Hom.
  destruct (decode_manifest (slice 128 os bs)) as [om|e|]; cbn [bindR]; [|done..]. destruct Hom as (Homk & Homv & Hob).
  pose proof (decode_manifest_cases (slice (128 + os) ns bs) (bytes_ok_slice _ _ _ Hbs)) as Hnm.
  destruct (decode_manifest (slice (128 + os) ns bs)) as [nm|e|]; cbn [bindR]; [|done..]. destruct Hnm as (Hnmk & Hnmv & Hnb).
  head_if E6; [auto|]. b2p. set (i := mkIntent (le_value (slice 12 4 bs)) om nm).
  assert (Hok : intent_ok i) by (split; [apply (is_uint_slice bs 12 4); done || lia|done]).
  destruct (validate_intent_cases i Hok) as [[-> Hv]|(e & -> & _)]; cbn [or_fail bindR]; [|auto]. split_and!; [done..|].
  assert (Hos : os = manifest_size om).
  { rewrite <- zlen_manifest_bytes, <- Hob by apply Homk. by rewrite zlen_slice by lia. }
  assert (Hns : ns = manifest_size nm).
  { rewrite <- zlen_manifest_bytes, <- Hnb by apply Hnmk. by rewrite zlen_slice by lia. }
  assert (slice 0 56 bs = intent_front i) as Hfront.
  { unfold intent_front, intent_size, i. cbn [i_worker_id i_old_manifest i_next_manifest]. rewrite <- Hos, <- Hns. unfold_intent.
    match goal with H : slice 16 16 bs = _ |- _ => rewrite <- H end. match_fields bs. }
  assert (zdrop 60 bs = intent_back i) as Hback.
  { unfold intent_back, i. cbn [i_old_manifest i_next_manifest]. rewrite <- Hob, <- Hnb.
    rewrite (zdrop_field bs 60 68), (zdrop_field bs (60 + 68) os) by lia. change (60 + 68) with 128.
    rewrite (slice_rest (128 + os)) by lia. do 2 f_equal.
    match goal with H : all_zero _ = true |- _ => apply all_zero_true in H; by rewrite zlen_slice in H by lia end. }
  unfold intent_encoding. rewrite <- Hfront, <- Hback. change (slice 0 56 bs) with (ztake 56 bs). rewrite <- E5.
  rewrite <- (slice_le_bytes bs 56 4) by (done || lia).
  rewrite <- (ztake_zdrop 56 bs) at 1. f_equal. by rewrite (zdrop_field bs 56 4) by lia.
Qed.

(** ** Properties *)

(** C37. Bytes decode to an intent exactly when they are its encoding, and then its
    two manifests are related by a compaction of its worker.  Decoding any bytes
    stays in bounds and fails with one of three codes. *)
Theorem compaction_intent_exact bs : bytes_ok bs ->
  (forall i, intent_ok i -> decode_compaction_intent bs = Ok i <-> encode_compaction_intent i = Ok bs) /\
  match decode_compaction_intent bs with
  | Ok i => intent_ok i /\ exists k, compacts (i_worker_id i) k (i_old_manifest i) (i_next_manifest i)
  | Err e => e = invalid_record \/ e = checksum_mismatch \/ e = corrupted_data
  | Stuck _ => False
  end.
Proof.
  intros Hbs. pose proof (decode_intent_cases bs Hbs) as Hc. split.
  - intros i Hok. split.
    + intros E. rewrite E in Hc. destruct Hc as (_ & Hv & ->). by apply encode_intent_Ok.
    + intros E. apply encode_intent_inv in E as [Hv ->]; [|done]. by apply decode_intent_bytes.
  - destruct (decode_compaction_intent bs); [|done..]. by destruct Hc as (? & ? & _).
Qed.

(** ** Witnesses *)

Definition sample_intent : DurableCompactionIntent := mkIntent 0 sample_current sample_next.

Lemma sample_intent_ok : intent_ok sample_intent.
Proof. split; [done|]. split; [apply sample_current_ok|apply sample_next_ok]. Qed.

Lemma compaction_intent_witness : decode_compaction_intent (intent_encoding sample_intent) = Ok sample_intent.
Proof.
  assert (Hb : bytes_ok (intent_encoding sample_intent)) by bytes_eval.
  destruct (compaction_intent_exact (intent_encoding sample_intent) Hb) as [H _].
  destruct (H sample_intent sample_intent_ok) as [_ H']. apply H'. vm_compute. reflexivity.
Defined.
