(* ===== verification/Namespace.v ===== *)
(** * The names of a data directory

    Models src/persistence/namespace_audit.cpp and the segment names of
    segment_file.cpp and segment_file_detail.hpp: printing and parsing of segment
    file names, the audit that classifies every entry of a data directory against
    the manifest, and the two checks that decide whether recovery may go on.  The
    directory listing is an argument. *)

From Stdlib Require Import String Ascii.
From stdpp Require Import sorting.
From S2P Require Import Prelude Core Crc32c Record SegmentHeader Segment Routing Manifest Compaction CompactionIntent File SegmentFile.

(** ** Names *)

(** The bytes of a string. *)
Definition text (s : string) : list Z := (fun c => Z.of_N (N_of_ascii c)) <$> list_ascii_of_string s.

Definition kManifestFilename : list Z := text "manifest.glifi".
Definition kManifestTemporaryFilename : list Z := text ".manifest.glifi.tmp".
Definition kStoreLockFilename : list Z := text ".glifistore.lock".
Definition kCompactionIntentFilename : list Z := text ".glifistore.compaction".
Definition kCompactionTemporaryFilename : list Z := text ".glifistore.compaction.tmp".
Definition kSegmentPrefix : list Z := text "segment-".
Definition kSegmentSuffix : list Z := text ".glifi".
Definition kTemporaryPrefix : list Z := text ".segment-".
Definition kTemporarySuffix : list Z := text ".glifi.tmp".
Definition kFinalSegmentFilenameBytes : Z := zlen kSegmentPrefix + 16 + 1 + 8 + zlen kSegmentSuffix.
Definition kTemporarySegmentFilenameBytes : Z := zlen kTemporaryPrefix + 16 + 1 + 8 + zlen kTemporarySuffix.

Definition has_prefix (name prefix : list Z) : bool := bool_decide (take (length prefix) name = prefix).
Definition has_suffix (name suffix : list Z) : bool :=
  (length suffix <=? length name)%nat && bool_decide (drop (length name - length suffix) name = suffix).

(** [std::to_chars(value, 16)]; sixteen digits hold 64 bits. *)
Definition hex_digit (d : Z) : Z := if d <? 10 then 48 + d else 97 + (d - 10).
Fixpoint to_chars_hex (fuel : nat) (value : Z) : list Z :=
  match fuel with
  | O => []
  | S fuel => if value <? 16 then [hex_digit value]
              else to_chars_hex fuel (value / 16) ++ [hex_digit (value mod 16)]
  end.
Definition fixed_hex (value width : Z) : list Z :=
  let digits := to_chars_hex 16 value in
  replicate (Z.to_nat (u64 (width - zlen digits))) 48 ++ digits.

Definition segment_filename (identity : SegmentHeaderIdentity) : list Z :=
  kSegmentPrefix ++ fixed_hex (id_segment_id identity) 16 ++ text "-" ++
  fixed_hex (id_generation identity) 8 ++ kSegmentSuffix.
(** ['.' + segment_filename + ".tmp"] *)
Definition temporary_filename (identity : SegmentHeaderIdentity) : list Z :=
  text "." ++ segment_filename identity ++ text ".tmp".

Definition is_lower_hex (value : Z) : bool :=
  ((value >=? 48) && (value <=? 57)) || ((value >=? 97) && (value <=? 102)).

(** [parse_fixed_hex<Integer>] for a [w]-bit integer. *)
Fixpoint parse_fixed_hex (w : Z) (characters : list Z) (value : Z) : option Z :=
  match characters with
  | [] => Some value
  | character :: characters =>
      if negb (is_lower_hex character) then None
      else
      let digit := if character <=? 57 then character - 48 else character - 97 + 10 in
      parse_fixed_hex w characters (wrap w (Z.lor (Z.shiftl value 4) digit))
  end.

Record ParsedSegmentFilename := mkParsedName {
  pn_segment_id : Z;
  pn_generation : Z;
  pn_temporary : bool
}.

Definition parse_segment_filename (name : list Z) : Result ParsedSegmentFilename :=
  let temporary := (zlen name =? kTemporarySegmentFilenameBytes) && has_prefix name kTemporaryPrefix &&
                   has_suffix name kTemporarySuffix in
  let final := (zlen name =? kFinalSegmentFilenameBytes) && has_prefix name kSegmentPrefix &&
               has_suffix name kSegmentSuffix in
  if negb temporary && negb final then Err invalid_argument
  else
  let id_offset := if temporary then zlen kTemporaryPrefix else zlen kSegmentPrefix in
  let separator := id_offset + 16 in
  let? character := get_byte name separator in
  if negb (character =? 45) then Err invalid_argument
  else
  match parse_fixed_hex 64 (slice id_offset 16 name) 0, parse_fixed_hex 32 (slice (separator + 1) 8 name) 0 with
  | Some id, Some generation =>
      if (id =? 0) || (generation =? 0) then Err invalid_argument
      else Ok (mkParsedName id generation temporary)
  | _, _ => Err invalid_argument
  end.

Definition looks_engine_owned (name : list Z) : bool :=
  has_prefix name (text "segment-") || has_prefix name (text ".segment-") ||
  has_prefix name (text "manifest") || has_prefix name (text ".manifest") ||
  has_prefix name (text ".glifistore").

(** ** Issues *)

Inductive NamespaceIssueKind :=
  | stale_manifest_temporary
  | stale_segment_temporary
  | stale_compaction_temporary
  | compaction_intent_issue
  | unlisted_segment
  | malformed_engine_name
  | unknown_entry
  | unsafe_entry
  | missing_catalog_segment
  | missing_required_entry.

#[export] Instance NamespaceIssueKind_eq_dec : EqDecision NamespaceIssueKind.
Proof. solve_decision. Defined.

Record NamespaceIssue := mkIssue {
  issue_kind : NamespaceIssueKind;
  issue_name : list Z;
  issue_segment_id : option Z;
  issue_generation : option Z
}.

Definition blocking_for_recovery (kind : NamespaceIssueKind) : bool :=
  match kind with
  | stale_manifest_temporary | stale_segment_temporary | stale_compaction_temporary => false
  | _ => true
  end.

Definition kNamespaceAnomalyBudget : Z := 4096.
Definition kMaximumNamespaceIssueCount : Z := kMaximumManifestSegmentCount + kNamespaceAnomalyBudget.

(** The position of a constructor in the enumeration. *)
Definition kind_order (kind : NamespaceIssueKind) : Z :=
  match kind with
  | stale_manifest_temporary => 0
  | stale_segment_temporary => 1
  | stale_compaction_temporary => 2
  | compaction_intent_issue => 3
  | unlisted_segment => 4
  | malformed_engine_name => 5
  | unknown_entry => 6
  | unsafe_entry => 7
  | missing_catalog_segment => 8
  | missing_required_entry => 9
  end.

(** [std::string::operator<] *)
Fixpoint string_less (l r : list Z) : bool :=
  match l, r with
  | _, [] => false
  | [], _ :: _ => true
  | x :: l, y :: r => (x <? y) || ((x =? y) && string_less l r)
  end.

Definition issue_less (l r : NamespaceIssue) : bool :=
  if negb (bool_decide (issue_name l = issue_name r)) then string_less (issue_name l) (issue_name r)
  else kind_order (issue_kind l) <? kind_order (issue_kind r).

(** [std::sort] with [issue_less]. *)
Definition sort_issues : list NamespaceIssue -> list NamespaceIssue :=
  merge_sort (fun l r => Is_true (negb (issue_less r l))).

(** The report and the local variables of the audit. *)
Record Audit := mkAudit {
  entries_scanned : Z;
  catalog_segments_seen : Z;
  issues : list NamespaceIssue;
  catalog_seen : list bool;
  manifest_seen : bool;
  lock_seen : bool
}.

Definition append_issue (a : Audit) (issue : NamespaceIssue) : Result Audit :=
  if zlen (issues a) >=? kMaximumNamespaceIssueCount then Err corrupted_data
  else Ok (mkAudit (entries_scanned a) (catalog_segments_seen a) (issues a ++ [issue]) (catalog_seen a)
             (manifest_seen a) (lock_seen a)).

Definition plain_issue (kind : NamespaceIssueKind) (name : list Z) : NamespaceIssue := mkIssue kind name None None.

(** ** The audit *)

(** What [fstatat] says of an entry. *)
Inductive StatAnswer := stat_is (st : FileStat) | stat_gone | stat_failed (errno : Errno).

Definition status_at (answer : StatAnswer) : Result FileStat :=
  match answer with
  | stat_is st => Ok st
  | stat_gone => Err corrupted_data
  | stat_failed errno => Err (persistence_system_error errno)
  end.

Definition private_regular (st : FileStat) : bool :=
  st_regular st && (st_nlink st =? 1) && st_owned st && negb (st_shared_mode st).

(** An entry of the directory: its name and the answer of [fstatat] for it. *)
Abbreviation Dirent := (list Z * StatAnswer)%type.

Definition canonical_segment_name (manifest : Manifest) (entry : ManifestSegmentEntry) : list Z :=
  segment_filename (mkIdentity (m_store_id manifest) (me_segment_id entry) (me_generation entry)
                      (me_owner_worker entry)).

(** [std::lower_bound] over the segments, which are ordered by their id. *)
Fixpoint lower_bound (segments : list ManifestSegmentEntry) (id : Z) : nat :=
  match segments with
  | [] => 0
  | entry :: segments => if me_segment_id entry <? id then S (lower_bound segments id) else 0
  end.

Definition count_entry (a : Audit) : Audit :=
  mkAudit (u64 (entries_scanned a + 1)) (catalog_segments_seen a) (issues a) (catalog_seen a)
    (manifest_seen a) (lock_seen a).
Definition see_required (name : list Z) (a : Audit) : Audit :=
  mkAudit (entries_scanned a) (catalog_segments_seen a) (issues a) (catalog_seen a)
    (manifest_seen a || bool_decide (name = kManifestFilename))
    (lock_seen a || bool_decide (name = kStoreLockFilename)).
Definition see_segment (index : nat) (a : Audit) : Audit :=
  match catalog_seen a !! index with
  | Some false => mkAudit (entries_scanned a) (u64 (catalog_segments_seen a + 1)) (issues a)
                    (<[index := true]> (catalog_seen a)) (manifest_seen a) (lock_seen a)
  | _ => a
  end.

(** The names of the engine that are not segments. *)
Definition is_engine_file (name : list Z) : bool :=
  bool_decide (name = kManifestFilename) || bool_decide (name = kStoreLockFilename) ||
  bool_decide (name = kManifestTemporaryFilename) || bool_decide (name = kCompactionIntentFilename) ||
  bool_decide (name = kCompactionTemporaryFilename).

Definition audit_engine_file (entry : Dirent) (a : Audit) : Result Audit :=
  let name := entry.1 in
  let? st := status_at entry.2 in
  let a := see_required name a in
  if negb (private_regular st) then append_issue a (plain_issue unsafe_entry name)
  else if bool_decide (name = kManifestTemporaryFilename) then append_issue a (plain_issue stale_manifest_temporary name)
  else if bool_decide (name = kCompactionTemporaryFilename)
  then append_issue a (plain_issue stale_compaction_temporary name)
  else if bool_decide (name = kCompactionIntentFilename) then append_issue a (plain_issue compaction_intent_issue name)
  else Ok a.

Definition audit_segment_file (manifest : Manifest) (parsed : ParsedSegmentFilename) (entry : Dirent) (a : Audit) :
    Result Audit :=
  let name := entry.1 in
  let? st := status_at entry.2 in
  let index := lower_bound (m_segments manifest) (pn_segment_id parsed) in
  let listed := match m_segments manifest !! index with
                | Some found => (me_segment_id found =? pn_segment_id parsed) &&
                                (me_generation found =? pn_generation parsed)
                | None => false
                end in
  let a := if negb (pn_temporary parsed) && listed then see_segment index a else a in
  let issue kind := mkIssue kind name (Some (pn_segment_id parsed)) (Some (pn_generation parsed)) in
  if negb (private_regular st) then append_issue a (issue unsafe_entry)
  else if pn_temporary parsed then append_issue a (issue stale_segment_temporary)
  else if negb listed then append_issue a (issue unlisted_segment)
  else Ok a.

Definition audit_other_file (entry : Dirent) (a : Audit) : Result Audit :=
  let name := entry.1 in
  let? st := status_at entry.2 in
  if negb (private_regular st) then append_issue a (plain_issue unsafe_entry name)
  else append_issue a (plain_issue (if looks_engine_owned name then malformed_engine_name else unknown_entry) name).

(** One turn of the loop over [readdir]. *)
Definition audit_entry (manifest : Manifest) (entry : Dirent) (a : Audit) : Result Audit :=
  let name := entry.1 in
  if bool_decide (name = text ".") || bool_decide (name = text "..") then Ok a
  else
  let a := count_entry a in
  if entries_scanned a >? u64 (zlen (m_segments manifest) + kNamespaceAnomalyBudget + 4) then Err corrupted_data
  else if is_engine_file name then audit_engine_file entry a
  else match parse_segment_filename name with
       | Ok parsed => audit_segment_file manifest parsed entry a
       | Err _ => audit_other_file entry a
       | Stuck f => Stuck f
       end.

Fixpoint audit_entries (manifest : Manifest) (entries : list Dirent) (a : Audit) : Result Audit :=
  match entries with
  | [] => Ok a
  | entry :: entries => let? a := audit_entry manifest entry a in audit_entries manifest entries a
  end.

(** The loop over the catalog; [seen] runs along the entries. *)
Fixpoint audit_missing (manifest : Manifest) (segments : list ManifestSegmentEntry) (seen : list bool) (a : Audit) :
    Result Audit :=
  match segments, seen with
  | entry :: segments, s :: seen =>
      let? a := (if (s : bool) then Ok a
                 else append_issue a (mkIssue missing_catalog_segment (canonical_segment_name manifest entry)
                        (Some (me_segment_id entry)) (Some (me_generation entry)))) in
      audit_missing manifest segments seen a
  | _, _ => Ok a
  end.

(** The listing: errors of the calls that open it, its entries, and an error of
    [readdir] after them. *)
Record Listing := mkListing {
  list_opened : option ErrorCode;
  list_entries : list Dirent;
  list_error : option Errno
}.

Definition audit_data_directory (listing : Listing) (manifest : Manifest) : Result Audit :=
  encoded_manifest_size manifest ;;?
  answered (list_opened listing) ;;?
  let? a := audit_entries manifest (list_entries listing)
              (mkAudit 0 0 [] (replicate (length (m_segments manifest)) false) false false) in
  answered_errno (list_error listing) ;;?
  let? a := (if manifest_seen a then Ok a else append_issue a (plain_issue missing_required_entry kManifestFilename)) in
  let? a := (if lock_seen a then Ok a else append_issue a (plain_issue missing_required_entry kStoreLockFilename)) in
  let? a := audit_missing manifest (m_segments manifest) (catalog_seen a) a in
  Ok (mkAudit (entries_scanned a) (catalog_segments_seen a) (sort_issues (issues a)) (catalog_seen a)
        (manifest_seen a) (lock_seen a)).

Definition recovery_safe (a : Audit) : bool :=
  forallb (fun issue => negb (blocking_for_recovery (issue_kind issue))) (issues a).

Definition validate_namespace_for_recovery (a : Audit) : Status :=
  match List.find (fun issue => blocking_for_recovery (issue_kind issue)) (issues a) with
  | None => Ok tt
  | Some _ => Err corrupted_data
  end.

(** [allowed_unlisted]; [std::ranges::binary_search] in it after it is sorted is
    membership. *)
Definition allowed_unlisted (intent : DurableCompactionIntent) (old_authority : bool) : list (list Z) :=
  let obsolete := if old_authority then i_next_manifest intent else i_old_manifest intent in
  let listed := if old_authority then i_old_manifest intent else i_next_manifest intent in
  canonical_segment_name obsolete <$>
    List.filter (fun entry => negb (bool_decide (entry ∈ m_segments listed))) (m_segments obsolete).

(** The loop over the issues; the result says whether the intent was seen. *)
Fixpoint check_issues (allowed : list (list Z)) (l : list NamespaceIssue) (saw_intent : bool) : Result bool :=
  match l with
  | [] => Ok saw_intent
  | issue :: l =>
      match issue_kind issue with
      | stale_manifest_temporary | stale_segment_temporary | stale_compaction_temporary =>
          check_issues allowed l saw_intent
      | kind =>
          if bool_decide (kind = compaction_intent_issue) && bool_decide (issue_name issue = kCompactionIntentFilename) &&
             negb saw_intent
          then check_issues allowed l true
          else if bool_decide (kind = unlisted_segment) && bool_decide (issue_name issue ∈ allowed)
          then check_issues allowed l saw_intent
          else Err corrupted_data
      end
  end.

Definition validate_namespace_for_compaction_recovery (a : Audit) (authority : Manifest)
    (intent : DurableCompactionIntent) : Status :=
  let old_authority := bool_decide (authority = i_old_manifest intent) in
  let next_authority := bool_decide (authority = i_next_manifest intent) in
  if negb old_authority && negb next_authority then Err corrupted_data
  else
  let? saw_intent := check_issues (allowed_unlisted intent old_authority) (issues a) false in
  if negb saw_intent then Err corrupted_data else Ok tt.

(** ** Printing and parsing of names *)

(** The [n] hexadecimal digits of a number. *)
Fixpoint hexpad (n : nat) (value : Z) : list Z :=
  match n with
  | O => []
  | S n => hexpad n (value / 16) ++ [hex_digit (value mod 16)]
  end.

Lemma hexpad_length n v : length (hexpad n v) = n.
Proof. revert v. induction n as [|n IH]; intros v; simpl; [done|]. rewrite length_app, IH. simpl. lia. Qed.
Lemma hexpad_zero n : hexpad n 0 = replicate n 48.
Proof.
  induction n as [|n IH]; [done|]. cbn [hexpad]. change (0 / 16) with 0. rewrite IH.
  rewrite replicate_S_end. done.
Qed.

Lemma to_chars_hexpad fuel n v : 0 <= v < 16 ^ Z.of_nat fuel -> v < 16 ^ Z.of_nat n -> (0 < n)%nat ->
  (length (to_chars_hex fuel v) <= n)%nat /\
  hexpad n v = replicate (n - length (to_chars_hex fuel v)) 48 ++ to_chars_hex fuel v.
Proof.
  revert n v. induction fuel as [|fuel IH]; intros n v Hv Hn Hpos.
  { cbn in Hv. replace v with 0 by lia. rewrite hexpad_zero. cbn. rewrite Nat.sub_0_r, app_nil_r. split; [lia|done]. }
  destruct n as [|n]; [lia|]. cbn [to_chars_hex hexpad]. destruct (Z.ltb_spec v 16) as [H16|H16].
  - rewrite Z.div_small, Z.mod_small, hexpad_zero by lia. cbn. rewrite Nat.sub_0_r. split; [lia|done].
  - rewrite Nat2Z.inj_succ, Z.pow_succ_r in Hv, Hn by lia.
    assert (n <> 0%nat) by (intros ->; cbn in Hn; lia).
    destruct (IH n (v / 16)) as [Hl E]; [divlia..|lia|]. rewrite E, length_app. simpl.
    split; [lia|]. rewrite app_assoc. do 3 f_equal. lia.
Qed.

Lemma fixed_hex_eq n v : (0 < n <= 16)%nat -> 0 <= v < 16 ^ Z.of_nat n -> fixed_hex v (Z.of_nat n) = hexpad n v.
Proof.
  intros Hn Hv. unfold fixed_hex.
  destruct (to_chars_hexpad 16 n v) as [Hl ->]; [|lia..|].
  { split; [lia|]. eapply Z.lt_le_trans; [apply Hv|]. apply Z.pow_le_mono_r; lia. }
  do 2 f_equal. unfold zlen. rewrite wrap_small by (unfold is_uint; change (2 ^ 64) with 18446744073709551616; lia).
  lia.
Qed.

Lemma is_lower_hex_digit d : 0 <= d < 16 -> is_lower_hex (hex_digit d) = true /\
  (if hex_digit d <=? 57 then hex_digit d - 48 else hex_digit d - 97 + 10) = d.
Proof.
  intros H. unfold is_lower_hex, hex_digit. destruct (Z.ltb_spec d 10).
  - destruct (Z.leb_spec (48 + d) 57); lia.
  - destruct (Z.leb_spec (97 + (d - 10)) 57); lia.
Qed.
Lemma is_lower_hex_inv c : is_lower_hex c = true ->
  exists d, 0 <= d < 16 /\ c = hex_digit d /\ (if c <=? 57 then c - 48 else c - 97 + 10) = d.
Proof.
  intros H. exists (if c <=? 57 then c - 48 else c - 97 + 10). unfold is_lower_hex, hex_digit in *.
  destruct (Z.leb_spec c 57); (split; [lia|split; [|done]]).
  - destruct (Z.ltb_spec (c - 48) 10); lia.
  - destruct (Z.ltb_spec (c - 97 + 10) 10); lia.
Qed.

Lemma push_digit w acc d : 0 <= d < 16 -> 0 <= acc -> acc * 16 + 15 < 2 ^ w ->
  wrap w (Z.lor (Z.shiftl acc 4) d) = acc * 16 + d.
Proof.
  intros Hd Ha Hw. rewrite Z.lor_comm, lor_shiftl_add by lia. rewrite wrap_small; [lia|]. unfold is_uint. lia.
Qed.

Lemma parse_hexpad w n v acc rest : 0 <= acc -> 0 <= v < 16 ^ Z.of_nat n -> (acc + 1) * 16 ^ Z.of_nat n <= 2 ^ w ->
  parse_fixed_hex w (hexpad n v ++ rest) acc = parse_fixed_hex w rest (acc * 16 ^ Z.of_nat n + v).
Proof.
  revert v acc rest. induction n as [|n IH]; intros v acc rest Ha Hv Hw.
  { cbn in *. f_equal. lia. }
  rewrite Nat2Z.inj_succ, Z.pow_succ_r in * by lia. cbn [hexpad].
  rewrite <- app_assoc, IH; [|lia|divlia|]. 2:{ nia. }
  cbn [app parse_fixed_hex]. destruct (is_lower_hex_digit (v mod 16)) as [-> ->]; [divlia|]. cbn [negb].
  rewrite push_digit by divlia. f_equal. divlia.
Qed.

Lemma parse_fixed_hex_app w a b acc : parse_fixed_hex w (a ++ b) acc =
  match parse_fixed_hex w a acc with Some v => parse_fixed_hex w b v | None => None end.
Proof. revert acc. induction a as [|c a IH]; intros acc; [done|]. cbn [app parse_fixed_hex]. by destruct (negb _). Qed.

Lemma parse_fixed_hex_inv w cs acc v : 0 <= acc -> (acc + 1) * 16 ^ Z.of_nat (length cs) <= 2 ^ w ->
  parse_fixed_hex w cs acc = Some v ->
  exists x, 0 <= x < 16 ^ Z.of_nat (length cs) /\ v = acc * 16 ^ Z.of_nat (length cs) + x /\ cs = hexpad (length cs) x.
Proof.
  revert acc v. induction cs as [|c cs IH] using rev_ind; intros acc v Ha.
  { cbn. intros _ [= <-]. exists 0. split; [lia|split; [lia|done]]. }
  rewrite length_app, Nat.add_1_r, parse_fixed_hex_app, Nat2Z.inj_succ, Z.pow_succ_r by lia. intros Hw.
  destruct (parse_fixed_hex w cs acc) as [u|] eqn:Hu; [|done].
  destruct (IH acc u Ha ltac:(nia) Hu) as (x & Hx & -> & ->). cbn [parse_fixed_hex].
  destruct (is_lower_hex c) eqn:Hc; [|done]. cbn [negb].
  destruct (is_lower_hex_inv c Hc) as (d & Hd & -> & ->). rewrite hexpad_length in *.
  rewrite push_digit by nia. intros [= <-]. exists (x * 16 + d). split; [lia|split; [lia|]].
  cbn [hexpad]. replace ((x * 16 + d) / 16) with x by divlia. by replace ((x * 16 + d) mod 16) with d by divlia.
Qed.

(** The name of a segment file. *)
Definition segment_name (p : ParsedSegmentFilename) : list Z :=
  let identity := mkIdentity [] (pn_segment_id p) (pn_generation p) 0 in
  if pn_temporary p then temporary_filename identity else segment_filename identity.

Definition parsed_ok (p : ParsedSegmentFilename) : Prop :=
  is_u64 (pn_segment_id p) /\ pn_segment_id p <> 0 /\ is_u32 (pn_generation p) /\ pn_generation p <> 0.

Lemma segment_name_eq p : parsed_ok p -> segment_name p =
  (if pn_temporary p then kTemporaryPrefix else kSegmentPrefix) ++ hexpad 16 (pn_segment_id p) ++ [45] ++
  hexpad 8 (pn_generation p) ++ (if pn_temporary p then kTemporarySuffix else kSegmentSuffix).
Proof.
  intros (H1 & _ & H2 & _). unfold segment_name, temporary_filename, segment_filename.
  cbn [id_segment_id id_generation].
  rewrite (fixed_hex_eq 16), (fixed_hex_eq 8); [|lia|exact H2|lia|exact H1].
  destruct (pn_temporary p); [|done]. unfold kTemporaryPrefix, kTemporarySuffix.
  change (text ".segment-") with (text "." ++ kSegmentPrefix).
  change (text ".glifi.tmp") with (kSegmentSuffix ++ text ".tmp"). by rewrite <- !app_assoc.
Qed.

(** The parts of a name of one of the two shapes. *)
Lemma name_parts (name prefix suffix : list Z) : zlen name = zlen prefix + 25 + zlen suffix ->
  has_prefix name prefix = true -> has_suffix name suffix = true ->
  name = prefix ++ slice (zlen prefix) 16 name ++ slice (zlen prefix + 16) 1 name ++
         slice (zlen prefix + 17) 8 name ++ suffix.
Proof.
  intros Hl Hp Hs. unfold has_prefix in Hp. apply bool_decide_eq_true in Hp.
  unfold has_suffix in Hs. apply andb_true_iff in Hs as [_ Hs%bool_decide_eq_true].
  pose proof (zlen_nonneg prefix). pose proof (zlen_nonneg suffix).
  rewrite <- (slice_whole (zlen prefix + 25 + zlen suffix) name) at 1 by done.
  apply (slice_match name 0 _ (zlen prefix)); [lia..| |].
  { unfold slice, ztake, zdrop, zlen. by rewrite Nat2Z.id, drop_0. }
  apply (slice_match name _ _ 16); [lia..|done|].
  apply (slice_match name _ _ 1); [lia..|done|].
  apply (slice_match name _ _ 8); [lia..|f_equal; lia|].
  rewrite slice_rest by lia. unfold zdrop. etransitivity; [|exact Hs]. f_equal. unfold zlen in *. lia.
Qed.

(** Whether a name has one of the two shapes. *)
Definition shaped (t : bool) (name : list Z) : bool :=
  (zlen name =? if t then kTemporarySegmentFilenameBytes else kFinalSegmentFilenameBytes) &&
  has_prefix name (if t then kTemporaryPrefix else kSegmentPrefix) &&
  has_suffix name (if t then kTemporarySuffix else kSegmentSuffix).

Lemma shaped_app t mid : zlen mid = 25 ->
  shaped t ((if t then kTemporaryPrefix else kSegmentPrefix) ++ mid ++
            (if t then kTemporarySuffix else kSegmentSuffix)) = true.
Proof.
  intros H. unfold shaped, has_prefix, has_suffix. rewrite !zlen_app, H.
  rewrite take_app_length. rewrite bool_decide_eq_true_2 by done.
  rewrite app_assoc, drop_app_length'; [|rewrite !length_app; lia].
  rewrite bool_decide_eq_true_2 by done. rewrite !length_app.
  replace (length mid) with 25%nat by (unfold zlen in H; lia). by destruct t.
Qed.

Lemma parse_shaped name : parse_segment_filename name =
  if shaped true name || shaped false name then
  let off := if shaped true name then 9 else 8 in
  let? character := get_byte name (off + 16) in
  if negb (character =? 45) then Err invalid_argument
  else match parse_fixed_hex 64 (slice off 16 name) 0, parse_fixed_hex 32 (slice (off + 17) 8 name) 0 with
       | Some id, Some generation => if (id =? 0) || (generation =? 0) then Err invalid_argument
                                     else Ok (mkParsedName id generation (shaped true name))
       | _, _ => Err invalid_argument
       end
  else Err invalid_argument.
Proof.
  unfold parse_segment_filename. fold (shaped true name). fold (shaped false name).
  change (zlen kTemporaryPrefix) with 9. change (zlen kSegmentPrefix) with 8.
  destruct (shaped true name), (shaped false name); done.
Qed.

Lemma shaped_one name : shaped true name = true -> shaped false name = true -> False.
Proof.
  unfold shaped. intros [[H1%Z.eqb_eq _]%andb_true_iff _]%andb_true_iff [[H2%Z.eqb_eq _]%andb_true_iff _]%andb_true_iff.
  rewrite H1 in H2. done.
Qed.

Lemma parse_name_inv name p : parse_segment_filename name = Ok p -> parsed_ok p /\ name = segment_name p.
Proof.
  rewrite parse_shaped.
  destruct (shaped true name || shaped false name) eqn:Hs; [|done].
  set (t := shaped true name) in *. assert (Ht : shaped t name = true).
  { destruct t eqn:E; [done|]. by rewrite orb_false_l in Hs. }
  unfold shaped in Ht. apply andb_true_iff in Ht as [[Hl%Z.eqb_eq Hp]%andb_true_iff Hx].
  assert (Hlen : zlen name = zlen (if t then kTemporaryPrefix else kSegmentPrefix) + 25 +
                             zlen (if t then kTemporarySuffix else kSegmentSuffix)) by (rewrite Hl; by destruct t).
  pose proof (name_parts _ _ _ Hlen Hp Hx) as E. clear Hp Hx.
  replace (zlen (if t then kTemporaryPrefix else kSegmentPrefix)) with (if t then 9 else 8) in E by by destruct t.
  set (off := if t then 9 else 8) in *. cbn zeta.
  assert (Hb : 0 <= off /\ off + 25 <= zlen name) by (rewrite Hl; subst off; destruct t; vm_compute; split; congruence).
  destruct (get_byte_lt name (off + 16)) as (c & -> & Hc); [lia|]. cbn [bindR].
  destruct (Z.eqb_spec c 45) as [->|]; [|done]. cbn [negb].
  destruct (parse_fixed_hex 64 _ 0) as [id|] eqn:H1; [|done].
  destruct (parse_fixed_hex 32 _ 0) as [gen|] eqn:H2; [|done].
  destruct (Z.eqb_spec id 0); [done|]. destruct (Z.eqb_spec gen 0); [done|]. intros [= <-].
  assert (L1 : length (slice off 16 name) = 16%nat) by (pose proof (zlen_slice off 16 name); unfold zlen in *; lia).
  assert (L2 : length (slice (off + 17) 8 name) = 8%nat)
    by (pose proof (zlen_slice (off + 17) 8 name); unfold zlen in *; lia).
  apply parse_fixed_hex_inv in H1 as (x & Hx & -> & E1); [|lia|by rewrite L1].
  apply parse_fixed_hex_inv in H2 as (y & Hy & -> & E2); [|lia|by rewrite L2].
  rewrite L1 in *. rewrite L2 in *. rewrite !Z.mul_0_l, !Z.add_0_l in *.
  assert (Hok : parsed_ok (mkParsedName x y t)) by (repeat split; cbn; done || lia).
  split; [done|]. rewrite segment_name_eq by done. cbn [pn_temporary pn_segment_id pn_generation].
  rewrite E at 1. rewrite E1, E2. do 3 f_equal.
  rewrite (slice_cons name (off + 16) 1 45) by (done || lia). by rewrite slice_0.
Qed.

Lemma parse_name p : parsed_ok p -> parse_segment_filename (segment_name p) = Ok p.
Proof.
  intros Hok. rewrite parse_shaped, segment_name_eq by done. destruct Hok as (H1 & N1 & H2 & N2).
  set (t := pn_temporary p). set (mid := hexpad 16 (pn_segment_id p) ++ [45] ++ hexpad 8 (pn_generation p)).
  set (pre := if t then _ else _). set (suf := if t then kTemporarySuffix else _).
  replace (pre ++ _) with (pre ++ mid ++ suf) by (unfold mid; by rewrite <- !app_assoc).
  assert (Hm : zlen mid = 25) by (unfold mid, zlen; rewrite !length_app, !hexpad_length; done).
  assert (Hsh : shaped t (pre ++ mid ++ suf) = true) by by apply shaped_app.
  assert (E : shaped true (pre ++ mid ++ suf) = t).
  { destruct t; [done|]. destruct (shaped true _) eqn:Ht; [|done]. by destruct (shaped_one _ Ht Hsh). }
  rewrite E. replace (t || _) with true by (destruct t; [done|by rewrite Hsh]). cbn zeta.
  replace (if t then 9 else 8) with (zlen pre) by by destruct t.
  assert (Hg : forall o n, 0 <= o -> o + n <= 25 -> slice (zlen pre + o) n (pre ++ mid ++ suf) = slice o n mid).
  { intros o n Ho Hn. rewrite slice_app_r, slice_app_l by lia. f_equal. lia. }
  destruct (get_byte_lt (pre ++ mid ++ suf) (zlen pre + 16)) as (c & -> & Hc).
  { pose proof (zlen_nonneg pre). pose proof (zlen_nonneg suf). rewrite !zlen_app. lia. }
  assert (Hz : forall n v, zlen (hexpad n v) = Z.of_nat n) by (intros; unfold zlen; by rewrite hexpad_length).
  assert (c = 45) as ->.
  { pose proof (Hg 16 1 ltac:(lia) ltac:(lia)) as Hgc.
    replace (slice 16 1 mid) with [45] in Hgc by (unfold mid; rewrite slice_app_r by (rewrite Hz; lia); by rewrite Hz).
    rewrite (slice_cons _ _ 1 c) in Hgc by (done || (pose proof (zlen_nonneg pre); lia)). congruence. }
  cbn [bindR].
  cbn [negb Z.eqb Pos.eqb]. rewrite <- (Z.add_0_r (zlen pre)) at 1. rewrite !Hg by lia. unfold mid.
  rewrite slice_app_l, (slice_whole 16) by (rewrite ?Hz; lia).
  rewrite slice_app_r, slice_app_r by (rewrite ?Hz; done || lia). rewrite Hz.
  change (17 - Z.of_nat 16 - zlen [45]) with 0. rewrite (slice_whole 8) by by rewrite Hz.
  rewrite <- (app_nil_r (hexpad 16 _)), <- (app_nil_r (hexpad 8 _)), !parse_hexpad by (done || lia).
  cbn [parse_fixed_hex]. rewrite !Z.mul_0_l, !Z.add_0_l.
  destruct (Z.eqb_spec (pn_segment_id p) 0); [done|]. destruct (Z.eqb_spec (pn_generation p) 0); [done|].
  by destruct p.
Qed.

(** The names of segment files are read back exactly: a name parses to a segment
    id, a generation and a temporary mark if and only if the two numbers are nonzero
    numbers of their widths and the name is the one printed for them. *)
Theorem segment_name_exact name p :
  parse_segment_filename name = Ok p <-> parsed_ok p /\ name = segment_name p.
Proof. split; [apply parse_name_inv|]. intros [? ->]. by apply parse_name. Qed.
