(* ===== verification/NamespaceSpec.v ===== *)
(** * When recovery accepts a data directory

    The audit of Namespace.v accepts a directory exactly when its entries are the
    manifest, the lock, the segments of the manifest and temporary files, all of
    them private; during the recovery of a compaction, also the intent and the
    segments of the other manifest. *)

From stdpp Require Import sorting.
From S2P Require Import Prelude Core Crc32c Record SegmentHeader Segment Routing Manifest Compaction CompactionIntent File SegmentFile Namespace.

Section namespace.
Context (m : Manifest).
Implicit Types (a : Audit) (e : Dirent) (es : list Dirent).

(** ** The audit as a pure function *)

Definition is_dot (name : list Z) : bool := bool_decide (name = text ".") || bool_decide (name = text "..").
(** The entries the audit looks at. *)
Definition visible es : list Dirent := List.filter (fun e => negb (is_dot e.1)) es.

(** The position of the catalog entry of a parsed name. *)
Definition catalog_index (p : ParsedSegmentFilename) : option nat :=
  let index := lower_bound (m_segments m) (pn_segment_id p) in
  match m_segments m !! index with
  | Some found => if (me_segment_id found =? pn_segment_id p) && (me_generation found =? pn_generation p)
                  then Some index else None
  | None => None
  end.

Definition see (name : list Z) a : Audit :=
  if is_engine_file name then see_required name a
  else match parse_segment_filename name with
       | Ok p => match catalog_index p with
                 | Some index => if pn_temporary p then a else see_segment index a
                 | None => a
                 end
       | _ => a
       end.

Definition verdict (name : list Z) (st : FileStat) : option NamespaceIssue :=
  if is_engine_file name then
    if negb (private_regular st) then Some (plain_issue unsafe_entry name)
    else if bool_decide (name = kManifestTemporaryFilename) then Some (plain_issue stale_manifest_temporary name)
    else if bool_decide (name = kCompactionTemporaryFilename) then Some (plain_issue stale_compaction_temporary name)
    else if bool_decide (name = kCompactionIntentFilename) then Some (plain_issue compaction_intent_issue name)
    else None
  else
  match parse_segment_filename name with
  | Ok p =>
      let issue kind := mkIssue kind name (Some (pn_segment_id p)) (Some (pn_generation p)) in
      if negb (private_regular st) then Some (issue unsafe_entry)
      else if pn_temporary p then Some (issue stale_segment_temporary)
      else match catalog_index p with None => Some (issue unlisted_segment) | Some _ => None end
  | _ =>
      if negb (private_regular st) then Some (plain_issue unsafe_entry name)
      else Some (plain_issue (if looks_engine_owned name then malformed_engine_name else unknown_entry) name)
  end.

Definition record_issue a (issue : option NamespaceIssue) : Result Audit :=
  match issue with Some issue => append_issue a issue | None => Ok a end.

Definition entry_limit : Z := zlen (m_segments m) + kNamespaceAnomalyBudget + 4.

Lemma shaped_length t name : shaped t name = true -> zlen name = if t then 44 else 39.
Proof.
  unfold shaped. intros [[Hl%Z.eqb_eq _]%andb_true_iff _]%andb_true_iff. rewrite Hl. by destruct t.
Qed.

Lemma parse_not_stuck name f : parse_segment_filename name <> Stuck f.
Proof.
  rewrite parse_shaped. destruct (shaped true name || shaped false name) eqn:Hs; [|done]. cbn zeta.
  destruct (get_byte_lt name ((if shaped true name then 9 else 8) + 16)) as (c & -> & _).
  { destruct (shaped true name) eqn:Ht.
    - rewrite (shaped_length true) by done. lia.
    - rewrite (shaped_length false) by done. lia. }
  cbn [bindR]. repeat case_match; congruence.
Qed.

Lemma audit_entry_eq e a : is_dot e.1 = false -> 0 <= entries_scanned a <= entry_limit ->
  zlen (m_segments m) <= kMaximumManifestSegmentCount ->
  audit_entry m e a =
    if entries_scanned a <? entry_limit then
      match e.2 with
      | stat_is st => record_issue (see e.1 (count_entry a)) (verdict e.1 st)
      | answer => let? st := status_at answer in Ok a
      end
    else Err corrupted_data.
Proof.
  intros Hd Ha Hm. unfold audit_entry. fold (is_dot e.1). rewrite Hd. pose proof (zlen_nonneg (m_segments m)).
  unfold entry_limit, kNamespaceAnomalyBudget, kMaximumManifestSegmentCount in *. cbn [entries_scanned count_entry].
  rewrite !wrap_small by (unfold is_uint; change (2 ^ 64) with 18446744073709551616; lia). rewrite Z.gtb_ltb.
  destruct (Z.ltb_spec (entries_scanned a) (zlen (m_segments m) + 4096 + 4)) as [H1|H1];
    destruct (Z.ltb_spec (zlen (m_segments m) + 4096 + 4) (entries_scanned a + 1)); [lia| |done|lia].
  unfold see, verdict, audit_engine_file, audit_other_file, audit_segment_file. destruct e as [name answer]. cbn [fst snd].
  destruct (is_engine_file name).
  { destruct answer; cbn [status_at bindR]; [|done..]. by repeat case_match. }
  destruct (parse_segment_filename name) as [p| |] eqn:Hp; [| |by apply parse_not_stuck in Hp].
  - destruct answer; cbn [status_at bindR]; [|done..]. unfold catalog_index.
    destruct (m_segments m !! _) as [found|]; [destruct (andb (_ =? _) (_ =? _))|];
      destruct (pn_temporary p), (private_regular st); done.
  - destruct answer; cbn [status_at bindR]; [|done..]. by repeat case_match.
Qed.

(** ** The loop over the entries *)

Definition names es : list (list Z) := (visible es).*1.
Definition issues_of es : list NamespaceIssue :=
  omap (fun e => match e.2 with stat_is st => verdict e.1 st | _ => None end) (visible es).
Definition has_stat e : Prop := exists st, e.2 = stat_is st.

(** A name that marks the [i]-th segment of the catalog. *)
Definition marks (name : list Z) (i : nat) : Prop := is_engine_file name = false /\
  exists p, parse_segment_filename name = Ok p /\ pn_temporary p = false /\ catalog_index p = Some i.

Record audited es a a' : Prop := {
  au_scanned : entries_scanned a' = entries_scanned a + zlen (visible es);
  au_issues : issues a' = issues a ++ issues_of es;
  au_manifest : manifest_seen a' = true <-> manifest_seen a = true \/ kManifestFilename ∈ names es;
  au_lock : lock_seen a' = true <-> lock_seen a = true \/ kStoreLockFilename ∈ names es;
  au_length : length (catalog_seen a') = length (catalog_seen a);
  au_seen : forall i, catalog_seen a' !! i = Some true <->
    catalog_seen a !! i = Some true \/ (i < length (catalog_seen a))%nat /\ exists name, name ∈ names es /\ marks name i
}.

Lemma eq_comm {A} (x y : A) : x = y <-> y = x.
Proof. split; by intros ->. Qed.

Lemma see_scanned name a : entries_scanned (see name a) = entries_scanned a /\ issues (see name a) = issues a.
Proof. unfold see, see_required, see_segment. by repeat case_match. Qed.
Lemma see_required_seen name a :
  (manifest_seen (see name a) = true <-> manifest_seen a = true \/ kManifestFilename = name) /\
  (lock_seen (see name a) = true <-> lock_seen a = true \/ kStoreLockFilename = name).
Proof.
  unfold see. destruct (is_engine_file name) eqn:He.
  - unfold see_required. cbn [manifest_seen lock_seen]. rewrite !orb_true_iff, !bool_decide_eq_true.
    rewrite (eq_comm name kManifestFilename), (eq_comm name kStoreLockFilename). tauto.
  - assert (Hno : kManifestFilename <> name /\ kStoreLockFilename <> name).
    { split; intros <-; done. }
    assert (E : forall b, manifest_seen b = manifest_seen a -> lock_seen b = lock_seen a ->
      (manifest_seen b = true <-> manifest_seen a = true \/ kManifestFilename = name) /\
      (lock_seen b = true <-> lock_seen a = true \/ kStoreLockFilename = name)).
    { intros b -> ->. tauto. }
    apply E; unfold see_segment; by repeat case_match.
Qed.

Lemma see_catalog name a : length (catalog_seen (see name a)) = length (catalog_seen a) /\
  forall i, catalog_seen (see name a) !! i = Some true <->
    catalog_seen a !! i = Some true \/ (i < length (catalog_seen a))%nat /\ marks name i.
Proof.
  unfold see. destruct (is_engine_file name) eqn:He.
  { split; [done|]. intros i. cbn [see_required catalog_seen].
    split; [by left|]. intros [?|[_ [? _]]]; [done|congruence]. }
  assert (Hno : forall b, catalog_seen b = catalog_seen a -> (forall i, ~ marks name i) ->
    length (catalog_seen b) = length (catalog_seen a) /\ forall i, catalog_seen b !! i = Some true <->
    catalog_seen a !! i = Some true \/ (i < length (catalog_seen a))%nat /\ marks name i).
  { intros b -> H. split; [done|]. intros i. specialize (H i). tauto. }
    destruct (parse_segment_filename name) as [p| |] eqn:Hp; [|apply Hno; [done|]; intros i (_ & q & Hq & _); congruence..].
  destruct (catalog_index p) as [k|] eqn:Hk; [|apply Hno; [done|]; intros i (_ & q & Hq & _ & ?); congruence].
  destruct (pn_temporary p) eqn:Ht; [apply Hno; [done|]; intros i (_ & q & Hq & ? & _); congruence|].
  assert (Hm : forall i, marks name i <-> i = k).
  { intros i. split; [intros (_ & q & Hq & _ & ?); congruence|]. intros ->. split; [done|]. by exists p. }
  unfold see_segment. destruct (catalog_seen a !! k) as [[]|] eqn:Hs; cbn [catalog_seen].
  - split; [done|]. intros i. rewrite Hm. naive_solver.
  - rewrite length_insert. split; [done|]. intros i. rewrite Hm, list_lookup_insert_Some. apply lookup_lt_Some in Hs.
    split; [naive_solver|]. intros [Hi|[Hi ->]]; [|by left].
    destruct (decide (k = i)) as [->|]; [by left|by right].
  - split; [done|]. intros i. rewrite Hm. apply lookup_ge_None in Hs. split; [naive_solver|]. intros [?|[? ->]]; [done|lia].
Qed.

Definition in_bounds a : Prop :=
  0 <= entries_scanned a <= entry_limit /\ zlen (issues a) <= kMaximumNamespaceIssueCount.

Lemma visible_cons e es : visible (e :: es) = if is_dot e.1 then visible es else e :: visible es.
Proof. unfold visible. cbn [List.filter]. by destruct (is_dot e.1). Qed.

Lemma record_issue_Ok a o a' : record_issue a o = Ok a' -> zlen (issues a) <= kMaximumNamespaceIssueCount ->
  zlen (issues a') <= kMaximumNamespaceIssueCount /\
  a' = mkAudit (entries_scanned a) (catalog_segments_seen a) (issues a ++ option_list o) (catalog_seen a)
         (manifest_seen a) (lock_seen a).
Proof.
  unfold record_issue. destruct o as [issue|]; cbn [option_list].
  - unfold append_issue. rewrite Z.geb_leb. destruct (Z.leb_spec kMaximumNamespaceIssueCount (zlen (issues a))); [done|].
    intros <-%Ok_inj _. cbn [issues]. rewrite zlen_app. change (zlen [issue]) with 1. split; [lia|done].
  - intros <-%Ok_inj ?. rewrite app_nil_r. split; [done|by destruct a].
Qed.
Lemma record_issue_total a o : zlen (issues a) + zlen (option_list o) <= kMaximumNamespaceIssueCount ->
  exists a', record_issue a o = Ok a'.
Proof.
  unfold record_issue. destruct o as [issue|]; cbn [option_list]; [|by eauto].
  change (zlen (option_list (Some issue))) with 1. intros H. unfold append_issue. rewrite Z.geb_leb.
  destruct (Z.leb_spec kMaximumNamespaceIssueCount (zlen (issues a))); [lia|]. by eauto.
Qed.

(** One visible entry. *)
Lemma audit_one st name a a' : is_dot name = false -> in_bounds a -> zlen (m_segments m) <= kMaximumManifestSegmentCount ->
  record_issue (see name (count_entry a)) (verdict name st) = Ok a' -> entries_scanned a < entry_limit ->
  in_bounds a' /\ audited [(name, stat_is st)] a a'.
Proof.
  intros Hd [Hb Hi] Hm H Hlt. destruct (see_scanned name (count_entry a)) as [Hs1 Hs2].
  apply record_issue_Ok in H as [Hi' ->]; [|by rewrite Hs2]. cbn [issues] in Hi'.
  destruct (see_required_seen name (count_entry a)) as [Hr1 Hr2]. destruct (see_catalog name (count_entry a)) as [Hc1 Hc2].
  assert (E : entries_scanned (count_entry a) = entries_scanned a + 1).
  { cbn. rewrite wrap_small; [done|]. unfold is_uint, entry_limit, kNamespaceAnomalyBudget, kMaximumManifestSegmentCount in *.
    change (2 ^ 64) with 18446744073709551616. lia. }
  split; [split; cbn [entries_scanned issues]; [lia|done]|].
  assert (Hv : visible [(name, stat_is st)] = [(name, stat_is st)]) by (rewrite visible_cons; cbn [fst]; by rewrite Hd).
  split; cbn [entries_scanned issues manifest_seen lock_seen catalog_seen].
  - rewrite Hv, Hs1, E. done.
  - unfold issues_of. rewrite Hv, Hs2. cbn. by destruct (verdict name st).
  - unfold names. rewrite Hv, Hr1. cbn [fmap list_fmap fst]. by rewrite list_elem_of_singleton.
  - unfold names. rewrite Hv, Hr2. cbn [fmap list_fmap fst]. by rewrite list_elem_of_singleton.
  - done.
  - intros i. rewrite Hc2. unfold names. rewrite Hv. cbn [fmap list_fmap fst].
    setoid_rewrite list_elem_of_singleton. naive_solver.
Qed.

Lemma audited_trans e es a b c : audited [e] a b -> audited es b c -> audited (e :: es) a c.
Proof.
  intros [A1 A2 A3 A4 A5 A6] [B1 B2 B3 B4 B5 B6].
  assert (Hv : visible (e :: es) = visible [e] ++ visible es) by (rewrite !visible_cons; by destruct (is_dot e.1)).
  assert (Hn : forall x, x ∈ names (e :: es) <-> x ∈ names [e] \/ x ∈ names es).
  { intros x. unfold names. by rewrite Hv, fmap_app, elem_of_app. }
  split.
  - rewrite B1, A1, Hv, zlen_app. lia.
  - rewrite B2, A2. unfold issues_of. rewrite Hv, omap_app. by rewrite app_assoc.
  - rewrite B3, A3, Hn. tauto.
  - rewrite B4, A4, Hn. tauto.
  - by rewrite B5.
  - intros i. rewrite B6, A6, A5. setoid_rewrite Hn. naive_solver.
Qed.
Lemma audited_skip e es a b : is_dot e.1 = true -> audited es a b -> audited (e :: es) a b.
Proof.
  intros Hd H. assert (Hv : visible (e :: es) = visible es) by (rewrite visible_cons; by rewrite Hd).
  destruct H. split; unfold names, issues_of in *; [by rewrite ?Hv..|].
  intros i. by rewrite Hv.
Qed.
Lemma audited_nil a : audited [] a a.
Proof.
  split; cbn; [unfold zlen; simpl; lia|by rewrite app_nil_r| | |done|]; intros; unfold names; cbn; set_solver.
Qed.

Lemma audit_entries_Ok es a a' : in_bounds a -> zlen (m_segments m) <= kMaximumManifestSegmentCount ->
  audit_entries m es a = Ok a' -> in_bounds a' /\ audited es a a' /\ Forall has_stat (visible es).
Proof.
  intros Hb Hm. revert a Hb. induction es as [|e es IH]; intros a Hb H.
  { apply Ok_inj in H as <-. split; [done|]. split; [apply audited_nil|constructor]. }
  cbn [audit_entries] in H. destruct (is_dot e.1) eqn:Hd.
  { unfold audit_entry in H. fold (is_dot e.1) in H. rewrite Hd in H. cbn [bindR] in H.
    destruct (IH a Hb H) as (B & Au & F). split; [done|]. rewrite visible_cons, Hd. split; [by apply audited_skip|done]. }
  rewrite audit_entry_eq in H by (done || apply Hb).
  destruct (Z.ltb_spec (entries_scanned a) entry_limit) as [Hlt|]; [|done].
  destruct e as [name answer]. cbn [fst snd] in *. destruct answer as [st| |]; [|done..].
  destruct (record_issue _ _) as [b| |] eqn:Hr; [|done..]. cbn [bindR] in H.
  destruct (audit_one _ _ _ _ Hd Hb Hm Hr Hlt) as [Hb' Hone]. destruct (IH b Hb' H) as (B & Au & F).
  split; [done|]. split; [by eapply audited_trans|]. rewrite visible_cons. cbn [fst]. rewrite Hd.
  constructor; [by exists st|done].
Qed.

Lemma audit_entries_total es a : in_bounds a -> zlen (m_segments m) <= kMaximumManifestSegmentCount ->
  Forall has_stat (visible es) -> entries_scanned a + zlen (visible es) <= entry_limit ->
  zlen (issues a) + zlen (issues_of es) <= kMaximumNamespaceIssueCount ->
  exists a', audit_entries m es a = Ok a'.
Proof.
  intros Hb Hm. revert a Hb. induction es as [|e es IH]; intros a Hb Hf He Hi; [by eexists|].
  cbn [audit_entries]. rewrite visible_cons in Hf, He. unfold issues_of in Hi. rewrite visible_cons in Hi.
  destruct (is_dot e.1) eqn:Hd.
  { unfold audit_entry. fold (is_dot e.1). rewrite Hd. cbn [bindR]. by apply IH. }
  rewrite audit_entry_eq by (done || apply Hb). rewrite zlen_cons in He.
  pose proof (zlen_nonneg (visible es)). destruct (Z.ltb_spec (entries_scanned a) entry_limit) as [Hlt|]; [|lia].
  apply Forall_cons in Hf as [[st Est] Hf]. destruct e as [name answer]. cbn [fst snd] in *. subst answer.
  assert (Hi' : zlen (issues a) + (zlen (option_list (verdict name st)) + zlen (issues_of es)) <=
    kMaximumNamespaceIssueCount).
  { etransitivity; [|exact Hi]. apply Z.add_le_mono_l. cbn. unfold issues_of.
    destruct (verdict name st); [rewrite zlen_cons|]; cbn; unfold zlen; simpl; lia. }
  pose proof (zlen_nonneg (issues_of es)). pose proof (zlen_nonneg (option_list (verdict name st))).
  destruct (see_scanned name (count_entry a)) as [_ Hs2].
  destruct (record_issue_total (see name (count_entry a)) (verdict name st)) as [b Hr].
  { rewrite Hs2. cbn [count_entry issues]. lia. }
  rewrite Hr. cbn [bindR]. destruct (audit_one _ _ _ _ Hd Hb Hm Hr Hlt) as [Hb' Hone].
  apply IH; [done|done| |].
  - rewrite (au_scanned _ _ _ Hone), visible_cons. cbn [fst]. rewrite Hd. unfold zlen in *. simpl. lia.
  - rewrite (au_issues _ _ _ Hone), zlen_app. unfold issues_of at 1. rewrite visible_cons. cbn [fst]. rewrite Hd. cbn.
    destruct (verdict name st); cbn in Hi' |- *; unfold zlen in *; simpl in *; lia.
Qed.

Lemma audit_missing_seen segments seen a : Forall (fun s => s = true) seen -> audit_missing m segments seen a = Ok a.
Proof.
  intros H. revert segments. induction H as [|? seen -> _ IH]; intros [|entry segments]; [done..|]. cbn. apply IH.
Qed.
Lemma audit_missing_prefix segments seen a a' : audit_missing m segments seen a = Ok a' ->
  issues a `prefix_of` issues a'.
Proof.
  revert seen a. induction segments as [|entry segments IH]; intros [|s seen] a; cbn; [by intros <-%Ok_inj..|].
  destruct s; cbn; [apply IH|]. unfold append_issue. destruct (_ >=? _); [done|]. cbn. intros H%IH. cbn in H.
  etransitivity; [|exact H]. by apply prefix_app_r.
Qed.
Lemma audit_missing_Ok segments seen a a' : length segments = length seen -> audit_missing m segments seen a = Ok a' ->
  Forall (fun issue => issue_kind issue <> missing_catalog_segment) (issues a') ->
  Forall (fun s => s = true) seen /\ a' = a.
Proof.
  revert seen a.
  induction segments as [|entry segments IH]; intros [|s seen] a Hl H Hf; [|done..|].
  { apply Ok_inj in H as <-. done. }
  cbn in H. destruct s; cbn in H.
  - destruct (IH seen a) as [? ->]; [by injection Hl|done..|]. split; [by constructor|done].
  - exfalso. unfold append_issue in H. destruct (_ >=? _); [done|]. cbn in H. apply audit_missing_prefix in H as [k Hk']. cbn in Hk'.
    rewrite Hk', <- app_assoc in Hf. apply Forall_app in Hf as [_ Hf]. by apply Forall_cons in Hf as [? _].
Qed.

Definition initial : Audit := mkAudit 0 0 [] (replicate (length (m_segments m)) false) false false.
Lemma initial_in_bounds : in_bounds initial.
Proof.
  split; cbn; [|done]. unfold entry_limit, kNamespaceAnomalyBudget. pose proof (zlen_nonneg (m_segments m)). lia.
Qed.

(** What the directory must hold for the audit to report nothing missing. *)
Record present (l : Listing) : Prop := {
  pr_valid : manifest_valid m;
  pr_opened : list_opened l = None;
  pr_error : list_error l = None;
  pr_limit : zlen (visible (list_entries l)) <= entry_limit;
  pr_stat : Forall has_stat (visible (list_entries l));
  pr_manifest : kManifestFilename ∈ names (list_entries l);
  pr_lock : kStoreLockFilename ∈ names (list_entries l);
  pr_catalog : forall i, (i < length (m_segments m))%nat -> exists name, name ∈ names (list_entries l) /\ marks name i
}.

Definition nothing_missing (issue : NamespaceIssue) : Prop :=
  issue_kind issue <> missing_catalog_segment /\ issue_kind issue <> missing_required_entry.

Lemma require_seen (seen : bool) a name a' :
  (if seen then Ok a else append_issue a (plain_issue missing_required_entry name)) = Ok a' ->
  issues a `prefix_of` issues a' /\ (Forall nothing_missing (issues a') -> seen = true /\ a' = a).
Proof.
  destruct seen; [by intros <-%Ok_inj|]. unfold append_issue. destruct (_ >=? _); [done|].
  intros <-%Ok_inj. cbn [issues]. split; [by apply prefix_app_r|].
  intros [_ H]%Forall_app. by apply Forall_cons in H as [[_ H] _].
Qed.

Lemma audit_present l r : manifest_ok m -> audit_data_directory l m = Ok r -> Forall nothing_missing (issues r) ->
  present l /\ issues r ≡ₚ issues_of (list_entries l).
Proof.
  intros Hok H Hf. unfold audit_data_directory, encoded_manifest_size in H.
  destruct (validate_manifest_cases m invalid_argument Hok) as [[E Hv]|[E _]]; rewrite E in H; [|done].
  cbn [bindR] in H. destruct (manifest_size_for_count _) as [sz| |]; [|done..]. cbn [bindR] in H.
  destruct (list_opened l) eqn:Ho; [done|]. cbn [answered bindR] in H. fold initial in H.
  destruct (audit_entries _ _ _) as [a1| |] eqn:H1; [|done..]. cbn [bindR] in H.
  destruct (list_error l) eqn:He; [done|]. cbn [answered_errno answered fmap option_fmap option_map bindR] in H.
  destruct (if manifest_seen a1 then _ else _) as [a2| |] eqn:H2; [|done..]. cbn [bindR] in H.
  destruct (if lock_seen a2 then _ else _) as [a3| |] eqn:H3; [|done..]. cbn [bindR] in H.
  destruct (audit_missing _ _ _ a3) as [a4| |] eqn:H4; [|done..]. cbn [bindR] in H. apply Ok_inj in H as <-.
  cbn [issues] in *. unfold sort_issues in *. rewrite merge_sort_Permutation in Hf |- *.
  apply require_seen in H2 as [P2 R2], H3 as [P3 R3]. pose proof (audit_missing_prefix _ _ _ _ H4) as P4.
  assert (Hpre : forall x y : list NamespaceIssue, x `prefix_of` y -> Forall nothing_missing y -> Forall nothing_missing x).
  { intros x y [k ->] [? _]%Forall_app. done. }
  pose proof (Hpre _ _ P4 Hf) as Hf3. destruct (R3 Hf3) as [Hls ->]. pose proof (Hpre _ _ P3 Hf3) as Hf2.
  destruct (R2 Hf2) as [Hms ->].
  destruct (audit_entries_Ok _ _ _ initial_in_bounds (mv_count m Hv) H1) as ([B _] & Au & Hst).
  assert (Hlen : length (m_segments m) = length (catalog_seen a1)).
  { rewrite (au_length _ _ _ Au). cbn. by rewrite length_replicate. }
  destruct (audit_missing_Ok _ _ _ _ Hlen H4) as [Hseen ->].
  { eapply Forall_impl; [exact Hf|]. by intros ? [? _]. }
  rewrite (au_issues _ _ _ Au). split; [|done]. rewrite (au_scanned _ _ _ Au) in B. cbn in B.
  split; try done; [lia|by apply (au_manifest _ _ _ Au) in Hms as [|]|by apply (au_lock _ _ _ Au) in Hls as [|]|].
  intros i Hi. assert (Hi' : catalog_seen a1 !! i = Some true).
  { destruct (lookup_lt_is_Some_2 (catalog_seen a1) i) as [b Hb].
    { by rewrite <- Hlen. }
    rewrite Forall_lookup in Hseen. by rewrite (Hseen _ _ Hb) in Hb. }
  apply (au_seen _ _ _ Au) in Hi' as [Hi'|[_ ?]]; [|done]. cbn in Hi'. by apply lookup_replicate in Hi' as [? _].
Qed.

Lemma audit_total l : manifest_ok m -> present l -> zlen (issues_of (list_entries l)) <= kMaximumNamespaceIssueCount ->
  exists r, audit_data_directory l m = Ok r /\ issues r ≡ₚ issues_of (list_entries l).
Proof.
  intros Hok Hp Hi. pose proof (pr_valid _ Hp) as Hv. unfold audit_data_directory. rewrite encoded_size_Ok by done.
  cbn [bindR]. rewrite (pr_opened _ Hp). cbn [answered bindR]. fold initial.
  destruct (audit_entries_total (list_entries l) initial initial_in_bounds (mv_count m Hv) (pr_stat _ Hp)) as [a1 H1];
    [cbn; apply Hp|cbn; done|].
  rewrite H1. cbn [bindR]. rewrite (pr_error _ Hp). cbn [answered_errno answered fmap option_fmap option_map bindR].
  destruct (audit_entries_Ok _ _ _ initial_in_bounds (mv_count m Hv) H1) as (_ & Au & _).
  rewrite (proj2 (au_manifest _ _ _ Au)) by (right; apply Hp). cbn [bindR].
  rewrite (proj2 (au_lock _ _ _ Au)) by (right; apply Hp). cbn [bindR].
  rewrite audit_missing_seen.
  - cbn [bindR]. eexists. split; [done|]. cbn [issues]. unfold sort_issues.
    rewrite merge_sort_Permutation, (au_issues _ _ _ Au). done.
  - apply Forall_lookup. intros i b Hb. pose proof (lookup_lt_Some _ _ _ Hb) as Hlt.
    rewrite (au_length _ _ _ Au) in Hlt. cbn in Hlt. rewrite length_replicate in Hlt.
    assert (Ht : catalog_seen a1 !! i = Some true); [|congruence]. apply (au_seen _ _ _ Au). right.
    cbn. rewrite length_replicate. split; [done|]. by apply Hp.
Qed.

(** ** Names of the catalog *)

Lemma engine_not_segment name p : is_engine_file name = true -> parse_segment_filename name <> Ok p.
Proof.
  unfold is_engine_file. rewrite !orb_true_iff, !bool_decide_eq_true.
  intros [[[[->| ->]| ->]| ->]| ->]; vm_compute; congruence.
Qed.

Lemma lower_bound_at segments i entry : StronglySorted by_id segments -> segments !! i = Some entry ->
  lower_bound segments (me_segment_id entry) = i.
Proof.
  intros Hs. revert i. induction Hs as [|e segments _ IH Hlt]; intros i Hi; [done|]. destruct i as [|i]; cbn in Hi |- *.
  - injection Hi as ->. by rewrite Z.ltb_irrefl.
  - rewrite Forall_lookup in Hlt. pose proof (Hlt _ _ Hi) as H. unfold by_id in H.
    destruct (Z.ltb_spec (me_segment_id e) (me_segment_id entry)); [|lia]. f_equal. by apply IH.
Qed.

Definition listed_name (entry : ManifestSegmentEntry) : ParsedSegmentFilename :=
  mkParsedName (me_segment_id entry) (me_generation entry) false.

Lemma listed_name_ok m' entry : manifest_ok m' -> manifest_valid m' -> entry ∈ m_segments m' -> parsed_ok (listed_name entry).
Proof.
  intros Hok Hv He. pose proof (mv_entries _ Hv) as Hf. rewrite Forall_forall in Hf.
  destruct (Hf _ He) as [Hg _]. destruct Hok as (_ & _ & _ & _ & _ & _ & _ & _ & _ & Hent).
  rewrite Forall_forall in Hent. destruct (Hent _ He) as (H1 & H2 & _).
  split; [done|split; [|done]]. cbn. pose proof (mv_ordered _ Hv) as Hs.
  apply Sorted_StronglySorted in Hs; [|intros ?; lia]. inversion Hs as [|? ? _ Hpos]; subst.
  rewrite Forall_app, Forall_map, Forall_forall in Hpos. destruct Hpos as [Hpos _]. specialize (Hpos _ He). lia.
Qed.

Lemma parse_listed m' entry : manifest_ok m' -> manifest_valid m' -> entry ∈ m_segments m' ->
  parse_segment_filename (canonical_segment_name m' entry) = Ok (listed_name entry).
Proof. intros Hok Hv He. apply (parse_name (listed_name entry)). by eapply listed_name_ok. Qed.

Lemma listed_not_engine m' entry : manifest_ok m' -> manifest_valid m' -> entry ∈ m_segments m' ->
  is_engine_file (canonical_segment_name m' entry) = false.
Proof.
  intros Hok Hv He. destruct (is_engine_file _) eqn:E; [|done].
  by apply (engine_not_segment _ (listed_name entry)) in E; rewrite ?parse_listed in E.
Qed.

Lemma catalog_index_Some p i : manifest_valid m -> catalog_index p = Some i <->
  exists entry, m_segments m !! i = Some entry /\ me_segment_id entry = pn_segment_id p /\
    me_generation entry = pn_generation p.
Proof.
  intros Hv. unfold catalog_index. split.
  - destruct (m_segments m !! _) as [entry|] eqn:He; [|done]. destruct (Z.eqb_spec (me_segment_id entry) (pn_segment_id p)); [|done].
    destruct (Z.eqb_spec (me_generation entry) (pn_generation p)); [|done]. intros [= <-]. by exists entry.
  - intros (entry & He & <- & <-). rewrite (lower_bound_at _ _ _ (valid_sorted _ Hv) He), He, !Z.eqb_refl. done.
Qed.

Lemma marks_iff name i entry : manifest_ok m -> manifest_valid m -> m_segments m !! i = Some entry ->
  marks name i <-> name = canonical_segment_name m entry.
Proof.
  intros Hok Hv Hi. pose proof (list_elem_of_lookup_2 _ _ _ Hi) as He. split.
  - intros (_ & p & Hp & Ht & Hc). apply catalog_index_Some in Hc as (entry' & Hi' & H1 & H2); [|done].
    rewrite Hi in Hi'. injection Hi' as <-. apply parse_name_inv in Hp as [_ ->].
    change (canonical_segment_name m entry) with (segment_name (listed_name entry)). f_equal.
    destruct p. cbn in *. unfold listed_name. by subst.
  - intros ->. split; [by apply listed_not_engine|]. exists (listed_name entry). split; [by apply parse_listed|].
    split; [done|]. apply catalog_index_Some; [done|]. by exists entry.
Qed.

(** ** Which names pass *)

Definition stale (kind : NamespaceIssueKind) : bool := negb (blocking_for_recovery kind).

(** The issues that stop nothing: stale temporaries, the intent when a compaction is
    being recovered, and unlisted segments of [allowed]. *)
Definition passes (intent : bool) (allowed : list (list Z)) (x : NamespaceIssue) : Prop :=
  stale (issue_kind x) = true \/
  intent = true /\ issue_kind x = compaction_intent_issue /\ issue_name x = kCompactionIntentFilename \/
  issue_kind x = unlisted_segment /\ issue_name x ∈ allowed.

Inductive known_name (intent : bool) (allowed : list (list Z)) : list Z -> Prop :=
  | known_manifest : known_name intent allowed kManifestFilename
  | known_lock : known_name intent allowed kStoreLockFilename
  | known_manifest_temporary : known_name intent allowed kManifestTemporaryFilename
  | known_compaction_temporary : known_name intent allowed kCompactionTemporaryFilename
  | known_segment_temporary p : parsed_ok p -> pn_temporary p = true -> known_name intent allowed (segment_name p)
  | known_segment entry : entry ∈ m_segments m -> known_name intent allowed (canonical_segment_name m entry)
  | known_intent : intent = true -> known_name intent allowed kCompactionIntentFilename
  | known_allowed name : name ∈ allowed -> known_name intent allowed name.

Definition final_name (name : list Z) : Prop := exists p, parse_segment_filename name = Ok p /\ pn_temporary p = false.

Lemma final_not_engine name : final_name name -> is_engine_file name = false.
Proof. intros (p & Hp & _). destruct (is_engine_file name) eqn:E; [|done]. by destruct (engine_not_segment _ p E). Qed.

Lemma verdict_engine name st : is_engine_file name = true -> verdict name st =
  if private_regular st then
    if bool_decide (name = kManifestTemporaryFilename) then Some (plain_issue stale_manifest_temporary name)
    else if bool_decide (name = kCompactionTemporaryFilename) then Some (plain_issue stale_compaction_temporary name)
    else if bool_decide (name = kCompactionIntentFilename) then Some (plain_issue compaction_intent_issue name)
    else None
  else Some (plain_issue unsafe_entry name).
Proof. intros E. unfold verdict. rewrite E. by destruct (private_regular st). Qed.

Lemma verdict_segment name p st : parse_segment_filename name = Ok p -> verdict name st =
  let issue kind := mkIssue kind name (Some (pn_segment_id p)) (Some (pn_generation p)) in
  if private_regular st then
    if pn_temporary p then Some (issue stale_segment_temporary)
    else match catalog_index p with None => Some (issue unlisted_segment) | Some _ => None end
  else Some (issue unsafe_entry).
Proof.
  intros E. unfold verdict. destruct (is_engine_file name) eqn:He; [by apply engine_not_segment in E|].
  rewrite E. by destruct (private_regular st).
Qed.

Lemma verdict_other name st : is_engine_file name = false -> (forall p, parse_segment_filename name <> Ok p) ->
  exists kind, verdict name st = Some (plain_issue kind name) /\
    (kind = unsafe_entry \/ kind = malformed_engine_name \/ kind = unknown_entry).
Proof.
  intros He Hp. unfold verdict. rewrite He. destruct (parse_segment_filename name) as [p| |] eqn:E; [by destruct (Hp p)|..];
    destruct (private_regular st), (looks_engine_owned name); cbn; eauto 6.
Qed.

Lemma blocked_kind intent allowed x : issue_kind x = unsafe_entry \/ issue_kind x = malformed_engine_name \/
  issue_kind x = unknown_entry -> ~ passes intent allowed x.
Proof. intros Hk [H|[(_ & H & _)|[H _]]]; destruct Hk as [E|[E|E]]; rewrite E in H; done. Qed.

Lemma known_intent_inv intent allowed name : Forall final_name allowed -> manifest_ok m -> manifest_valid m ->
  known_name intent allowed name -> name = kCompactionIntentFilename -> intent = true.
Proof.
  intros Hf Hok Hv. assert (Hi : is_engine_file kCompactionIntentFilename = true) by done.
  destruct 1 as [| | | |p Hp _|entry Hin|?|name Hin]; intros Hn; [exfalso; revert Hn; vm_compute; congruence..| | |done|].
  - exfalso. apply parse_name in Hp. rewrite Hn in Hp. by apply engine_not_segment in Hp.
  - exfalso. apply (listed_not_engine m) in Hin; [|done..]. rewrite Hn in Hin. congruence.
  - exfalso. rewrite Forall_forall in Hf. apply Hf, final_not_engine in Hin. rewrite Hn in Hin. congruence.
Qed.

Lemma engine_known intent allowed name : is_engine_file name = true -> name <> kCompactionIntentFilename \/ intent = true ->
  known_name intent allowed name.
Proof.
  unfold is_engine_file. rewrite !orb_true_iff, !bool_decide_eq_true.
  intros [[[[->| ->]| ->]| ->]| ->] Hi; [constructor..| |constructor].
  destruct Hi as [?|?]; [congruence|by constructor].
Qed.

(** A known name that is not an engine file is the name of a segment. *)
Lemma known_cases intent allowed name : Forall final_name allowed -> manifest_ok m -> manifest_valid m ->
  is_engine_file name = false -> known_name intent allowed name ->
  exists p, parse_segment_filename name = Ok p /\
    (pn_temporary p = true \/ (exists i, catalog_index p = Some i) \/ name ∈ allowed).
Proof.
  intros Hf Hok Hv He. destruct 1 as [| | | |p Hp Ht|entry Hin|?|name Hin]; [by vm_compute in He..| | |by vm_compute in He|].
  - exists p. split; [by apply parse_name|by left].
  - exists (listed_name entry). split; [by apply parse_listed|]. right. left.
    apply list_elem_of_lookup in Hin as [i Hi]. exists i. apply catalog_index_Some; [done|]. by exists entry.
  - rewrite Forall_forall in Hf. destruct (Hf _ Hin) as (p & Hp & _). exists p. split; [done|]. by right; right.
Qed.

Lemma segment_passes intent allowed name p st : Forall final_name allowed -> manifest_ok m -> manifest_valid m ->
  is_engine_file name = false -> parse_segment_filename name = Ok p ->
  (forall x, verdict name st = Some x -> passes intent allowed x) <->
  private_regular st = true /\ known_name intent allowed name.
Proof.
  intros Hf Hok Hv He Hp. rewrite (verdict_segment _ _ _ Hp). cbn zeta. destruct (private_regular st).
  2:{ split; [|by intros [? _]]. intros H. exfalso. eapply blocked_kind; [|by apply H]. by left. }
  destruct (parse_name_inv _ _ Hp) as [Hpok Hname]. destruct (pn_temporary p) eqn:Ht.
  { split; [|intros _ x [= <-]; by left]. intros _. split; [done|]. rewrite Hname. by apply known_segment_temporary. }
  destruct (catalog_index p) as [i|] eqn:Hc.
  { split; [|done]. intros _. split; [done|]. apply catalog_index_Some in Hc as (entry & Hi & H1 & H2); [|done].
    rewrite (proj1 (marks_iff name i entry Hok Hv Hi)).
    - apply known_segment. by eapply list_elem_of_lookup_2.
    - split; [done|]. exists p. split; [done|]. split; [done|]. apply catalog_index_Some; [done|]. by exists entry. }
  split.
  - intros H. split; [done|]. destruct (H _ eq_refl) as [?|[(_ & ? & _)|[_ ?]]]; [done..|]. by apply known_allowed.
  - intros [_ Hk] x [= <-]. apply (known_cases _ _ _ Hf Hok Hv He) in Hk as (q & Hq & Hcase).
    assert (q = p) as -> by congruence. destruct Hcase as [?|[[i ?]|?]]; [congruence..|]. by right; right.
Qed.

(** The issue of an entry passes exactly when the entry is private and known. *)
Lemma verdict_passes intent allowed name st : Forall final_name allowed -> manifest_ok m -> manifest_valid m ->
  (forall x, verdict name st = Some x -> passes intent allowed x) <->
  private_regular st = true /\ known_name intent allowed name.
Proof.
  intros Hf Hok Hv. destruct (is_engine_file name) eqn:He.
  - rewrite verdict_engine by done. destruct (private_regular st).
    2:{ split; [|by intros [? _]]. intros H. exfalso. apply (blocked_kind intent allowed (plain_issue unsafe_entry name)); auto. }
    assert (Hk : known_name intent allowed name <-> name <> kCompactionIntentFilename \/ intent = true).
    { split; [|by apply engine_known]. intros Hk. destruct (decide (name = kCompactionIntentFilename)); [|by left].
      right. by eapply known_intent_inv. }
    rewrite Hk. case_bool_decide as D1; [|case_bool_decide as D2; [|case_bool_decide as D3]].
    + subst. split; [|intros _ x [= <-]; by left]. intros _. split; [done|]. left. vm_compute. congruence.
    + subst. split; [|intros _ x [= <-]; by left]. intros _. split; [done|]. left. vm_compute. congruence.
    + split.
      * intros H. split; [done|]. right. by destruct (H _ eq_refl) as [?|[(? & _)|[? _]]].
      * intros [_ [?|Hi]] x [= <-]; [done|]. right. left. by subst.
    + split; [|done]. intros _. split; [done|by left].
  - destruct (parse_segment_filename name) as [p| |] eqn:Hp; [by eapply segment_passes|..].
    all: destruct (verdict_other name st He) as (kind & E & Hkind); [intros ?; by rewrite Hp|]; rewrite E.
    all: split; [intros H; exfalso; by apply (blocked_kind intent allowed (plain_issue kind name)); auto|].
    all: intros [_ Hk]; exfalso; by apply (known_cases _ _ _ Hf Hok Hv He) in Hk as (p & Hq & _); rewrite Hp in Hq.
Qed.

(** ** The accepted directories *)

(** A directory that recovery accepts: every entry can be examined, is private and
    is known, nothing is missing and there are not too many entries. *)
Record recoverable (intent : bool) (allowed : list (list Z)) (l : Listing) : Prop := {
  rc_valid : manifest_valid m;
  rc_opened : list_opened l = None;
  rc_error : list_error l = None;
  rc_limit : zlen (visible (list_entries l)) <= entry_limit;
  rc_private : forall e, e ∈ visible (list_entries l) -> exists st, e.2 = stat_is st /\ private_regular st = true;
  rc_known : forall name, name ∈ names (list_entries l) -> known_name intent allowed name;
  rc_manifest : kManifestFilename ∈ names (list_entries l);
  rc_lock : kStoreLockFilename ∈ names (list_entries l);
  rc_catalog : forall entry, entry ∈ m_segments m -> canonical_segment_name m entry ∈ names (list_entries l)
}.

Lemma issues_of_iff es x : x ∈ issues_of es <->
  exists name st, (name, stat_is st) ∈ visible es /\ verdict name st = Some x.
Proof.
  unfold issues_of. rewrite list_elem_of_omap. split.
  - intros ([name answer] & Hin & H). cbn in H. destruct answer as [st| |]; [|done..]. by exists name, st.
  - intros (name & st & Hin & H). by exists (name, stat_is st).
Qed.

Lemma passes_recoverable intent allowed l : manifest_ok m -> Forall final_name allowed ->
  present l /\ Forall (passes intent allowed) (issues_of (list_entries l)) <-> recoverable intent allowed l.
Proof.
  intros Hok Hf. split.
  - intros [[] Hp]. rewrite Forall_forall in Hp. rewrite Forall_forall in pr_stat0.
    assert (Hall : forall e, e ∈ visible (list_entries l) ->
      (exists st, e.2 = stat_is st /\ private_regular st = true) /\ known_name intent allowed e.1).
    { intros e He. destruct (pr_stat0 _ He) as [st Est]. destruct (verdict_passes intent allowed e.1 st) as [Hv _]; [done..|].
      destruct Hv as [? ?]; [|by eauto]. intros x Hx. apply Hp, issues_of_iff. exists e.1, st. split; [|done].
      rewrite <- Est. by destruct e. }
    split; try done.
    + intros e He. by apply Hall.
    + intros name (e & -> & He)%list_elem_of_fmap. by apply Hall.
    + intros entry [i Hi]%list_elem_of_lookup. destruct (pr_catalog0 i) as (name & Hin & Hm); [by eapply lookup_lt_Some|].
      by apply (marks_iff _ _ _ Hok pr_valid0 Hi) in Hm as <-.
  - intros []. split.
    + split; try done.
      * apply Forall_forall. intros e He. destruct (rc_private0 e He) as (st & ? & _). by exists st.
      * intros i [entry Hi]%lookup_lt_is_Some_2. exists (canonical_segment_name m entry).
        split; [by eapply rc_catalog0, list_elem_of_lookup_2|]. by apply (marks_iff _ _ entry).
    + apply Forall_forall. intros x (name & st & Hin & Hx)%issues_of_iff.
      revert x Hx. apply verdict_passes; [done..|]. destruct (rc_private0 _ Hin) as (st' & E & ?).
      cbn in E. injection E as <-. split; [done|]. apply rc_known0. apply list_elem_of_fmap. by exists (name, stat_is st).
Qed.

Definition issue_of e : option NamespaceIssue := match e.2 with stat_is st => verdict e.1 st | _ => None end.
Definition settled es : list Dirent := List.filter (fun e => match issue_of e with None => true | Some _ => false end) es.

Lemma settled_length es : (length (omap issue_of es) + length (settled es) = length es)%nat.
Proof.
  induction es as [|e es IH]; [done|]. unfold settled in *. cbn. destruct (issue_of e); cbn; lia.
Qed.

(** The names that must be there. *)
Definition required : list (list Z) :=
  kManifestFilename :: kStoreLockFilename :: (canonical_segment_name m <$> m_segments m).

Lemma required_nodup : manifest_ok m -> manifest_valid m -> NoDup required.
Proof.
  intros Hok Hv. assert (Hne : forall name, is_engine_file name = true -> name ∉ canonical_segment_name m <$> m_segments m).
  { intros name He (entry & -> & Hin)%list_elem_of_fmap. by rewrite listed_not_engine in He. }
  constructor; [|constructor; [by apply Hne|]].
  { rewrite not_elem_of_cons. split; [by vm_compute|by apply Hne]. }
  pose proof (valid_sorted m Hv) as Hs. apply NoDup_fmap_2_strong.
  - intros x y Hx Hy E. pose proof (parse_listed m x Hok Hv Hx) as P. rewrite E, parse_listed in P by done.
    unfold listed_name in P. apply Ok_inj in P. injection P as H1 _.
    apply list_elem_of_lookup in Hx as [i Hi], Hy as [j Hj].
    pose proof (lower_bound_at _ _ _ Hs Hi). pose proof (lower_bound_at _ _ _ Hs Hj). congruence.
  - clear -Hs. induction Hs as [|e es _ IH Hlt]; [constructor|]. constructor; [|done].
    intros Hin. rewrite Forall_forall in Hlt. specialize (Hlt _ Hin). unfold by_id in Hlt. lia.
Qed.

Lemma required_settled intent allowed l name : manifest_ok m -> recoverable intent allowed l -> name ∈ required ->
  name ∈ (settled (visible (list_entries l))).*1.
Proof.
  intros Hok Hr Hin. pose proof (rc_valid _ _ _ Hr) as Hv.
  assert (Hn : name ∈ names (list_entries l)).
  { apply elem_of_cons in Hin as [->|[->|Hin]%elem_of_cons]; [apply Hr..|].
    apply list_elem_of_fmap in Hin as (entry & -> & Hin). by apply Hr. }
  apply list_elem_of_fmap in Hn as (e & -> & He). apply list_elem_of_fmap. exists e. split; [done|].
  destruct (rc_private _ _ _ Hr e He) as (st & Est & Hst).
  apply list_elem_of_In, filter_In. split; [by apply list_elem_of_In|]. unfold issue_of. rewrite Est.
  apply elem_of_cons in Hin as [E|[E|Hin]%elem_of_cons].
  - rewrite verdict_engine, E, Hst by (rewrite E; done). done.
  - rewrite verdict_engine, E, Hst by (rewrite E; done). done.
  - apply list_elem_of_fmap in Hin as (entry & E & Hin). rewrite E.
    rewrite (verdict_segment _ (listed_name entry)) by by apply parse_listed. rewrite Hst. cbn.
    apply list_elem_of_lookup in Hin as [i Hi].
    replace (catalog_index (listed_name entry)) with (Some i); [done|]. symmetry. apply catalog_index_Some; [done|].
    by exists entry.
Qed.

Lemma few_issues intent allowed l : manifest_ok m -> recoverable intent allowed l ->
  zlen (issues_of (list_entries l)) <= kMaximumNamespaceIssueCount.
Proof.
  intros Hok Hr. pose proof (rc_valid _ _ _ Hr) as Hv. pose proof (settled_length (visible (list_entries l))) as Hl.
  assert (H : (length required <= length (settled (visible (list_entries l))).*1)%nat).
  { apply submseteq_length, NoDup_submseteq; [by apply required_nodup|]. intros name. by eapply required_settled. }
  rewrite length_fmap in H. unfold required in H. cbn [length] in H. rewrite length_fmap in H.
  pose proof (rc_limit _ _ _ Hr) as Hlim.
  unfold entry_limit, kMaximumNamespaceIssueCount, kNamespaceAnomalyBudget, kMaximumManifestSegmentCount in *.
  unfold issues_of. fold issue_of. unfold zlen in *. lia.
Qed.

Lemma validate_recovery_iff a : validate_namespace_for_recovery a = Ok tt <-> Forall (passes false []) (issues a).
Proof.
  unfold validate_namespace_for_recovery. split.
  - destruct (List.find _ _) as [x|] eqn:E; [done|]. intros _. apply Forall_forall. intros x Hx. left.
    unfold stale. by rewrite (find_none _ _ E) by by apply list_elem_of_In.
  - intros H. destruct (List.find _ _) as [x|] eqn:E; [|done]. exfalso. apply find_some in E as [Hin Hb].
    rewrite Forall_forall in H. destruct (H x) as [Hs|[[? _]|[_ ?]]]; [by apply list_elem_of_In| |done|].
    + unfold stale in Hs. by rewrite Hb in Hs.
    + by apply not_elem_of_nil in H0.
Qed.

Lemma passes_nothing_missing intent allowed x : passes intent allowed x -> nothing_missing x.
Proof. intros [H|[(_ & H & _)|[H _]]]; split; intros E; rewrite E in H; done. Qed.

(** C25. Recovery accepts a data directory exactly when its manifest is valid, every
    entry can be examined and is a private regular file, the manifest, the lock and
    every segment of the manifest are there, every other entry is a temporary file
    of the engine, and the entries are not more than the limit. *)
Theorem recovery_namespace_exact l : manifest_ok m ->
  (exists r, audit_data_directory l m = Ok r /\ validate_namespace_for_recovery r = Ok tt) <-> recoverable false [] l.
Proof.
  intros Hok. rewrite <- passes_recoverable by (done || constructor). split.
  - intros (r & Hr & Hv). apply validate_recovery_iff in Hv.
    destruct (audit_present l r Hok Hr) as [Hp Hi].
    { eapply Forall_impl; [exact Hv|]. intros x. apply passes_nothing_missing. }
    split; [done|]. by rewrite <- Hi.
  - intros [Hp Hf]. destruct (audit_total l Hok Hp) as (r & Hr & Hi).
    { eapply (few_issues false []); [done|]. by apply passes_recoverable; [|constructor|]. }
    exists r. split; [done|]. apply validate_recovery_iff. by rewrite Hi.
Qed.

(** ** While a compaction is being recovered *)

Definition is_intent (x : NamespaceIssue) : bool := bool_decide (issue_kind x = compaction_intent_issue).

Lemma check_issues_cons allowed x l saw : check_issues allowed (x :: l) saw =
  if stale (issue_kind x) then check_issues allowed l saw
  else if is_intent x && bool_decide (issue_name x = kCompactionIntentFilename) && negb saw then check_issues allowed l true
  else if bool_decide (issue_kind x = unlisted_segment) && bool_decide (issue_name x ∈ allowed)
  then check_issues allowed l saw
  else Err corrupted_data.
Proof. cbn [check_issues]. unfold is_intent. by destruct (issue_kind x). Qed.

(** Only the intent may appear once. *)
Lemma check_issues_spec allowed l saw b :
  check_issues allowed l saw = Ok b <->
  Forall (passes true allowed) l /\ (length (List.filter is_intent l) + (if saw then 1 else 0) <= 1)%nat /\
  b = saw || existsb is_intent l.
Proof.
  revert saw. induction l as [|x l IH]; intros saw.
  { cbn. rewrite orb_false_r. split; [intros <-%Ok_inj|by intros (_ & _ & ->)].
    split; [constructor|]. split; [|done]. destruct saw; lia. }
  rewrite check_issues_cons, Forall_cons. cbn [List.filter existsb]. unfold passes at 1.
  destruct (stale (issue_kind x)) eqn:Hs.
  { assert (Hi : is_intent x = false) by (unfold is_intent; by destruct (issue_kind x)).
    rewrite Hi, IH. cbn [orb]. tauto. }
  destruct (is_intent x) eqn:Hi.
  - assert (Hk : issue_kind x = compaction_intent_issue) by by apply bool_decide_eq_true in Hi.
    rewrite Hk. cbn [andb orb length]. rewrite (bool_decide_eq_false_2 (compaction_intent_issue = unlisted_segment)) by done.
    cbn [andb]. case_bool_decide as Hn; cbn [andb].
    + destruct saw; cbn [negb]; [split; [done|]; intros (_ & ? & _); lia|].
      rewrite IH. cbn [orb]. replace (length (List.filter is_intent l) + 1)%nat with
        (S (length (List.filter is_intent l)) + 0)%nat by lia. intuition congruence.
    + split; [done|]. intros ([[?|[(_ & _ & ?)|[? _]]] _] & _); congruence.
  - assert (Hk : issue_kind x <> compaction_intent_issue) by by apply bool_decide_eq_false in Hi.
    cbn [andb orb]. case_bool_decide as Hu; cbn [andb]; [case_bool_decide as Ha|].
    + rewrite IH. intuition congruence.
    + split; [done|]. intros ([[?|[(_ & ? & _)|[_ ?]]] _] & _); congruence.
    + split; [done|]. intros ([[?|[(_ & ? & _)|[? _]]] _] & _); congruence.
Qed.

(** An issue carries the name of its entry, so distinct names give one intent at most. *)
Lemma verdict_name name st x : verdict name st = Some x -> issue_name x = name.
Proof. unfold verdict. repeat case_match; by intros [= <-]. Qed.

Lemma verdict_intent name st x : verdict name st = Some x -> is_intent x = true -> name = kCompactionIntentFilename.
Proof.
  unfold verdict. repeat case_match; intros [= <-]; cbn; try done; intros _.
  match goal with H : bool_decide (name = kCompactionIntentFilename) = true |- _ => exact (bool_decide_eq_true_1 _ H) end.
Qed.

Lemma issues_nodup es : NoDup (names es) -> NoDup (issue_name <$> issues_of es).
Proof.
  unfold names, issues_of. fold issue_of. induction (visible es) as [|e l IH]; cbn; [constructor|].
  intros [Hn Hnd]%NoDup_cons. destruct (issue_of e) as [x|] eqn:Hx; [|by apply IH]. cbn. constructor; [|by apply IH].
  intros (y & E & Hy)%list_elem_of_fmap. apply Hn. apply list_elem_of_omap in Hy as (e' & He' & Hy).
  unfold issue_of in Hx, Hy. destruct e as [name [st| |]]; [|done..]. destruct e' as [name' [st'| |]]; [|done..].
  cbn in *. apply verdict_name in Hx, Hy. apply list_elem_of_fmap. exists (name', stat_is st'). cbn. split; [congruence|done].
Qed.

Lemma one_intent l : NoDup (issue_name <$> l) ->
  Forall (fun x => is_intent x = true -> issue_name x = kCompactionIntentFilename) l ->
  (length (List.filter is_intent l) <= 1)%nat.
Proof.
  induction l as [|x l IH]; cbn; [lia|]. intros [Hn Hnd]%NoDup_cons [Hx Hl]%Forall_cons. specialize (IH Hnd Hl).
  destruct (is_intent x) eqn:Hi; cbn; [|done]. destruct (List.filter is_intent l) as [|y k] eqn:Hy; cbn; [lia|].
  exfalso. assert (Hin : y ∈ l /\ is_intent y = true).
  { rewrite list_elem_of_In. apply filter_In. rewrite Hy. by left. }
  apply Hn. rewrite (Hx eq_refl). rewrite Forall_forall in Hl. rewrite <- (Hl y) by apply Hin.
  apply list_elem_of_fmap. exists y. split; [done|apply Hin].
Qed.

Lemma issues_intent_names es : Forall (fun x => is_intent x = true -> issue_name x = kCompactionIntentFilename) (issues_of es).
Proof.
  apply Forall_forall. intros x (name & st & _ & Hx)%issues_of_iff Hi.
  rewrite (verdict_name _ _ _ Hx). by eapply verdict_intent.
Qed.

Lemma intent_seen intent allowed l : recoverable intent allowed l ->
  existsb is_intent (issues_of (list_entries l)) = true <-> kCompactionIntentFilename ∈ names (list_entries l).
Proof.
  intros Hr. rewrite existsb_exists. split.
  - intros (x & Hx%list_elem_of_In & Hi). apply issues_of_iff in Hx as (name & st & Hin & Hx).
    rewrite <- (verdict_intent _ _ _ Hx Hi). apply list_elem_of_fmap. by exists (name, stat_is st).
  - intros (e & E & Hin)%list_elem_of_fmap. destruct (rc_private _ _ _ Hr e Hin) as (st & Est & Hst).
    exists (plain_issue compaction_intent_issue kCompactionIntentFilename). split; [|done].
    apply list_elem_of_In, issues_of_iff. exists kCompactionIntentFilename, st. split; [rewrite E, <- Est; by destruct e|].
    rewrite verdict_engine, Hst by done. done.
Qed.

Lemma allowed_final intent old : manifest_ok (i_old_manifest intent) -> manifest_valid (i_old_manifest intent) ->
  manifest_ok (i_next_manifest intent) -> manifest_valid (i_next_manifest intent) ->
  Forall final_name (allowed_unlisted intent old).
Proof.
  intros O1 V1 O2 V2. apply Forall_forall. intros name (entry & -> & Hin)%list_elem_of_fmap.
  apply list_elem_of_In, filter_In in Hin as [Hin%list_elem_of_In _]. exists (listed_name entry).
  split; [|done]. by destruct old; apply parse_listed.
Qed.

Lemma validate_compaction_iff r intent : validate_namespace_for_compaction_recovery r m intent = Ok tt <->
  (m = i_old_manifest intent \/ m = i_next_manifest intent) /\
  check_issues (allowed_unlisted intent (bool_decide (m = i_old_manifest intent))) (issues r) false = Ok true.
Proof.
  unfold validate_namespace_for_compaction_recovery. case_bool_decide as D1; [|case_bool_decide as D2]; cbn [negb andb].
  - destruct (check_issues _ _ _) as [[]| |]; cbn; intuition congruence.
  - destruct (check_issues _ _ _) as [[]| |]; cbn; intuition congruence.
  - intuition congruence.
Qed.

(** While a compaction is being recovered, a data directory is accepted exactly
    when the manifest is one of the two of the intent, the intent is there, and the
    directory is otherwise one that recovery accepts, except that the segments only
    the other manifest lists may also be there. *)
Theorem compaction_namespace_exact l intent : manifest_ok m ->
  manifest_ok (i_old_manifest intent) -> manifest_valid (i_old_manifest intent) ->
  manifest_ok (i_next_manifest intent) -> manifest_valid (i_next_manifest intent) -> NoDup (names (list_entries l)) ->
  (exists r, audit_data_directory l m = Ok r /\ validate_namespace_for_compaction_recovery r m intent = Ok tt) <->
  (m = i_old_manifest intent \/ m = i_next_manifest intent) /\ kCompactionIntentFilename ∈ names (list_entries l) /\
  recoverable true (allowed_unlisted intent (bool_decide (m = i_old_manifest intent))) l.
Proof.
  intros Hok O1 V1 O2 V2 Hnd. set (old := bool_decide _).
  pose proof (allowed_final intent old O1 V1 O2 V2) as Hf. setoid_rewrite validate_compaction_iff. fold old. split.
  - intros (r & Hr & Hm & (Hp & _ & Hi)%check_issues_spec). split; [done|].
    destruct (audit_present l r Hok Hr) as [Hpr HP].
    { eapply Forall_impl; [exact Hp|]. intros x. apply passes_nothing_missing. }
    assert (Hrec : recoverable true (allowed_unlisted intent old) l).
    { apply passes_recoverable; [done..|]. split; [done|]. by rewrite <- HP. }
    split; [|done]. apply (intent_seen _ _ _ Hrec). symmetry in Hi. cbn in Hi. apply existsb_exists in Hi as (x & Hx & Hxi).
    apply existsb_exists. exists x. split; [|done]. apply list_elem_of_In. rewrite <- HP. by apply list_elem_of_In.
  - intros (Hm & Hin & Hrec). destruct (proj2 (passes_recoverable true _ l Hok Hf) Hrec) as [Hp HF].
    destruct (audit_total l Hok Hp) as (r & Hr & HP); [by eapply few_issues|]. exists r. split; [done|]. split; [done|].
    apply check_issues_spec. split; [by rewrite HP|]. split.
    + rewrite Nat.add_0_r. apply one_intent; [|rewrite HP; apply issues_intent_names].
      rewrite HP. by apply issues_nodup.
    + cbn. symmetry. apply (intent_seen _ _ _ Hrec), existsb_exists in Hin as (x & Hx & Hxi). apply existsb_exists.
      exists x. split; [|done]. apply list_elem_of_In. rewrite HP. by apply list_elem_of_In.
Qed.
End namespace.

(** ** Samples *)

Definition private_stat : FileStat := mkStat true 1 true false 0.
Definition sample_listing (m : Manifest) (others : list (list Z)) : Listing :=
  mkListing None ((fun name => (name, stat_is private_stat)) <$>
    [text "."; text ".."] ++ required m ++ others) None.

Lemma sample_next_valid : manifest_valid sample_next.
Proof.
  destruct (validate_manifest_cases sample_next corrupted_data sample_next_ok) as [[_ H]|[E _]]; [exact H|].
  exfalso. revert E. vm_compute. congruence.
Qed.

(** The temporary manifest of an interrupted publication does not stop recovery. *)
Lemma recovery_namespace_witness :
  recoverable sample_current false [] (sample_listing sample_current [kManifestTemporaryFilename]).
Proof.
  apply (proj1 (recovery_namespace_exact sample_current _ sample_current_ok)).
  eexists. split; [vm_compute; reflexivity|vm_compute; reflexivity].
Defined.

(** After the manifest has been replaced, the segments of the old one may remain. *)
Lemma compaction_namespace_witness :
  let others := kCompactionIntentFilename :: allowed_unlisted sample_intent false in
  recoverable sample_next true (allowed_unlisted sample_intent false) (sample_listing sample_next others).
Proof.
  intros others. assert (E : bool_decide (sample_next = i_old_manifest sample_intent) = false) by by vm_compute.
  pose proof (compaction_namespace_exact sample_next (sample_listing sample_next others) sample_intent sample_next_ok
    sample_current_ok sample_current_valid sample_next_ok sample_next_valid) as H.
  rewrite E in H. apply H.
  - apply (bool_decide_eq_true_1 (NoDup _)). vm_compute. reflexivity.
  - eexists. split; [vm_compute; reflexivity|vm_compute; reflexivity].
Defined.
