(* ===== verification/Directory.v ===== *)
(** * The data directory

    Models the class DataDirectory of src/persistence/filesystem_directory.cpp and
    the helpers of filesystem_detail.hpp: how manifests and intents are published,
    read and removed.  A directory maps names to files; what is on the medium is
    known only up to the last synchronization. *)

From stdpp Require Import gmap.
From S2P Require Import Prelude Core Crc32c Record SegmentHeader Segment Routing Manifest Compaction CompactionIntent File SegmentFile Namespace.

Definition kBootstrapIntentFilename : list Z := text ".glifistore.bootstrap".
Definition kBootstrapTemporaryFilename : list Z := text ".glifistore.bootstrap.tmp".

(** ** State *)

(** A file and what [fstat] says of it. *)
Record Node := mkNode { n_file : File; n_stat : FileStat }.

(** [d_names] is what calls see.  [d_past] holds the names as they were at every
    moment since the directory was last synchronized; after a failed
    synchronization a later one that succeeds promises nothing ([d_lost]).  The
    calls of the process are counted. *)
Record Directory := mkDirectory {
  d_names : gmap (list Z) nat;
  d_past : list (gmap (list Z) nat);
  d_nodes : list Node;
  d_lost : bool;
  d_health : bool;
  d_calls : nat
}.

Definition recount (calls : nat) (d : Directory) : Directory :=
  mkDirectory (d_names d) (d_past d) (d_nodes d) (d_lost d) (d_health d) calls.
Definition count_dir_call (d : Directory) : Directory := recount (S (d_calls d)) d.
Definition set_names (names : gmap (list Z) nat) (d : Directory) : Directory :=
  mkDirectory names (d_names d :: d_past d) (d_nodes d) (d_lost d) (d_health d) (d_calls d).
Definition set_node (i : nat) (n : Node) (calls : nat) (d : Directory) : Directory :=
  mkDirectory (d_names d) (d_past d) (<[i := n]> (d_nodes d)) (d_lost d) (d_health d) calls.
Definition add_node (n : Node) (d : Directory) : Directory :=
  mkDirectory (d_names d) (d_past d) (d_nodes d ++ [n]) (d_lost d) (d_health d) (d_calls d).
(** [health_->store(false)] *)
Definition poison_directory (d : Directory) : Directory :=
  mkDirectory (d_names d) (d_past d) (d_nodes d) (d_lost d) false (d_calls d).

(** ** Opening *)

(** What [fstat] says of a directory. *)
Record DirectoryStat := mkDirectoryStat { ds_directory : bool; ds_owned : bool; ds_shared_write : bool }.

Definition validate_directory_descriptor (answer : DirectoryStat + Errno) : Status :=
  match answer with
  | inr errno => Err (persistence_system_error errno)
  | inl st => if negb (ds_directory st) then Err invalid_argument
              else if negb (ds_owned st) then Err invalid_argument
              else if ds_shared_write st then Err invalid_argument
              else Ok tt
  end.

Inductive LockAnswer := locked | lock_taken | lock_failed (errno : Errno).
Definition lock_exclusive_nonblocking (answer : LockAnswer) : Status :=
  match answer with
  | locked => Ok tt
  | lock_taken => Err io_error
  | lock_failed errno => Err (persistence_system_error errno)
  end.

Inductive DataDirectoryOpenMode := existing | open_or_create | create_new.
Inductive MkdirAnswer := mkdir_made | mkdir_exists | mkdir_failed (errno : Errno).

(** What the path looks like and the answers of the calls, in their order. *)
Record OpeningDirectory := mkOpeningDirectory {
  od_empty_path : bool;
  od_canonical_leaf : bool;
  od_open_parent : option Errno;
  od_inspect : LookupAnswer;
  od_before_create : option ErrorCode;
  od_mkdir : MkdirAnswer;
  od_before_sync : option ErrorCode;
  od_sync_parent : option Errno;
  od_open : option Errno;
  od_stat : DirectoryStat + Errno;
  od_open_lock : option Errno;
  od_lock_stat : FileStat + Errno;
  od_lock : LockAnswer
}.

(** The branch for a directory that may have to be made. *)
Definition create_data_directory (mode : DataDirectoryOpenMode) (o : OpeningDirectory) : Status :=
  if negb (od_canonical_leaf o) then Err invalid_argument
  else
  answered_errno (od_open_parent o) ;;?
  match od_inspect o with
  | name_present => match mode with create_new => Err sequence_conflict | _ => Ok tt end
  | lookup_failed errno => Err (persistence_system_error errno)
  | name_absent =>
      answered (od_before_create o) ;;?
      match od_mkdir o with
      | mkdir_made => answered (od_before_sync o) ;;? answered_errno (od_sync_parent o)
      | mkdir_exists => match mode with create_new => Err sequence_conflict | _ => Ok tt end
      | mkdir_failed errno => Err (persistence_system_error errno)
      end
  end.

(** A file that [openat(O_CREAT)] makes. *)
Definition new_stat : FileStat := mkStat true 1 true false 0.
Definition make_file (name : list Z) (d : Directory) : Directory :=
  set_names (<[name := length (d_nodes d)]> (d_names d)) (add_node (mkNode (file_on (fun _ => 0)) new_stat) d).

Definition make_lock_file (d : Directory) : Directory :=
  match d_names d !! kStoreLockFilename with
  | Some _ => d
  | None => make_file kStoreLockFilename d
  end.

(** [DataDirectory::open_and_lock], on the directory it finds or makes.  The lock
    file stays when a later step fails. *)
Definition open_and_lock (mode : DataDirectoryOpenMode) (o : OpeningDirectory) : Method Directory unit :=
  if od_empty_path o then failM invalid_argument
  else
  liftM (match mode with existing => Ok tt | _ => create_data_directory mode o end) ;;!
  liftM (answered_errno (od_open o)) ;;!
  liftM (validate_directory_descriptor (od_stat o)) ;;!
  liftM (answered_errno (od_open_lock o)) ;;!
  modifyM make_lock_file ;;!
  liftM match od_lock_stat o with
        | inr errno => Err (persistence_system_error errno)
        | inl st => if negb (private_regular st) then Err invalid_argument else Ok tt
        end ;;!
  liftM (lock_exclusive_nonblocking (od_lock o)) ;;!
  modifyM (fun d => mkDirectory (d_names d) (d_past d) (d_nodes d) (d_lost d) true (d_calls d)).

Definition open_directory_for_enumeration (health : bool) (open : option Errno) (stat : DirectoryStat + Errno) : Status :=
  if negb health then Err io_error
  else answered_errno open ;;? validate_directory_descriptor stat.

(** [available_space_bytes]: the answer of the hook, or [f_frsize], [f_bsize] and
    [f_bavail]. *)
Definition available_space_bytes (hook : option (Result Z)) (status : Z * Z * Z + Errno) : Result Z :=
  match hook with
  | Some answer => answer
  | None =>
      match status with
      | inr errno => Err (persistence_system_error errno)
      | inl (frsize, bsize, available_blocks) =>
          let block_size := if negb (frsize =? 0) then frsize else bsize in
          if negb (block_size =? 0) && (available_blocks >? umax 64 / block_size) then Ok (umax 64)
          else Ok (u64 (available_blocks * block_size))
      end
  end.

(** Only the lock and the temporary of an unfinished bootstrap are there. *)
Definition pristine_for_bootstrap (listing : Listing) : Result bool :=
  answered (list_opened listing) ;;?
  let foreign entry := negb (bool_decide ((entry : Dirent).1 ∈
    [text "."; text ".."; kStoreLockFilename; kBootstrapTemporaryFilename])) in
  if existsb foreign (list_entries listing) then Ok false
  else answered_errno (list_error listing) ;;? Ok true.

(** ** The operating system *)

(** The answer to a call that names a file.  A call that fails may have been
    carried out. *)
Inductive NameAnswer := name_done | name_error (applied : bool) (errno : Errno).

Record DirectorySystem := mkDirectorySystem {
  ds_file : System;
  ds_name : nat -> NameAnswer
}.

Section directory.
Variable sys : DirectorySystem.

(** A call that applies [change] and returns [a]. *)
Definition name_call {A} (change : Directory -> Directory) (a : A) : Method Directory A := fun d =>
  match ds_name sys (d_calls d) with
  | name_done => (Ok a, change (count_dir_call d))
  | name_error applied errno =>
      (Err (persistence_system_error errno), if applied then change (count_dir_call d) else count_dir_call d)
  end.

(** [do ... while (result < 0 && errno == EINTR)] around a call. *)
Definition name_interrupted : Method Directory bool := fun d =>
  if answer_signal (ds_file sys) (d_calls d) then (Ok true, count_dir_call d) else (Ok false, d).
Fixpoint repeat_call {A} (fuel : nat) (call : Method Directory A) : Method Directory A :=
  match fuel with
  | O => liftM (Stuck out_of_fuel)
  | S fuel =>
      let! eintr := name_interrupted in
      if (eintr : bool) then repeat_call fuel call else call
  end.
Definition uninterrupted {A} (call : Method Directory A) : Method Directory A :=
  repeat_call (S (patience (ds_file sys))) call.

(** [interrupted_open_at] of a file that exists; [None] is [ENOENT]. *)
Definition openat_existing (name : list Z) : Method Directory (option nat) :=
  uninterrupted (fun d => name_call id (d_names d !! name) d).

(** [interrupted_open_at(O_CREAT | O_EXCL)] *)
Definition openat_new (name : list Z) : Method Directory nat :=
  uninterrupted (fun d =>
    match d_names d !! name with
    | Some _ => (Err io_error, count_dir_call d)
    | None => name_call (make_file name) (length (d_nodes d)) d
    end).

(** [unlinkat]; [false] is [ENOENT]. *)
Definition unlinkat (name : list Z) : Method Directory bool := fun d =>
  match d_names d !! name with
  | None => name_call id false d
  | Some _ => name_call (fun d => set_names (delete name (d_names d)) d) true d
  end.

Definition renameat (from to : list Z) : Method Directory unit := fun d =>
  match d_names d !! from with
  | None => (Err io_error, count_dir_call d)
  | Some i => name_call (fun d => set_names (<[to := i]> (delete from (d_names d))) d) tt d
  end.

(** [fstatat]; [false] is [ENOENT]. *)
Definition fstatat (name : list Z) : Method Directory bool := fun d =>
  name_call id (match d_names d !! name with Some _ => true | None => false end) d.

(** A method of an open descriptor. *)
Definition on_node {A} (i : nat) (m : Method File A) : Method Directory A := fun d =>
  match d_nodes d !! i with
  | None => (Stuck out_of_bounds, d)
  | Some n =>
      let f := n_file n in
      let '(r, f') := m (mkFile (f_base f) (f_closed f) (f_open f) (f_lost f) (d_calls d)) in
      let size := foldr (fun w size => Z.max size (w_offset w + zlen (take (w_done w) (w_data w))))
                    (st_size (n_stat n)) (f_open f') in
      let st := n_stat n in
      (r, set_node i (mkNode f' (mkStat (st_regular st) (st_nlink st) (st_owned st) (st_shared_mode st) size))
            (f_calls f') d)
  end.

(** [fstat] *)
Definition descriptor_stat (i : nat) : Method Directory FileStat := fun d =>
  match d_nodes d !! i with
  | None => (Stuck out_of_bounds, d)
  | Some n => name_call id (n_stat n) d
  end.

Definition before_directory (operation : FilesystemOperation) : Method Directory unit := fun d =>
  match answer_before (ds_file sys) (d_calls d) operation with
  | Some e => (Err e, count_dir_call d)
  | None => (Ok tt, count_dir_call d)
  end.

(** [directory_.sync(FileSyncMode::full)] *)
Definition sync_directory : Method Directory unit := uninterrupted (fun d =>
  match answer_sync (ds_file sys) (d_calls d) sync_full with
  | Some errno => (Err (persistence_system_error errno),
                   mkDirectory (d_names d) (d_past d) (d_nodes d) true (d_health d) (S (d_calls d)))
  | None => (Ok tt, mkDirectory (d_names d) (if d_lost d then d_past d else []) (d_nodes d) (d_lost d) (d_health d)
                      (S (d_calls d)))
  end).

(** ** Reading *)

Definition validate_private_regular_file (i : nat) : Method Directory unit :=
  let! st := descriptor_stat i in
  if negb (st_regular st) || negb (st_nlink st =? 1) || negb (st_owned st) || st_shared_mode st
  then failM invalid_argument else retM tt.

(** [FileDescriptor::size] *)
Definition descriptor_size (i : nat) : Method Directory Z :=
  let! st := descriptor_stat i in
  if st_size st <? 0 then failM io_error else retM (st_size st).

(** The bytes of a private file of acceptable size. *)
Definition read_private_file (name : list Z) (minimum maximum max_bytes : Z) : Method Directory (list Z) :=
  let! file := openat_existing name in
  match file with
  | None => failM not_found
  | Some i =>
      let! _ := validate_private_regular_file i in
      let! size := descriptor_size i in
      if (size <? minimum) || (size >? maximum) then failM invalid_record
      else if size >? max_bytes then failM storage_exhausted
      else
      let! bytes := on_node i (read_exact_at (ds_file sys) size 0) in
      try! size_after_read := descriptor_size i otherwise _ => failM corrupted_data in
      if negb (size_after_read =? size) then failM corrupted_data else retM bytes
  end.

Definition read_private_manifest_file (name : list Z) (max_bytes : Z) : Method Directory Manifest :=
  let! bytes := read_private_file name kManifestHeaderBytes kMaximumManifestBytes max_bytes in
  liftM (decode_manifest bytes).

Definition read_private_compaction_intent_file (max_manifest_bytes : Z) : Method Directory DurableCompactionIntent :=
  if max_manifest_bytes >? kMaximumManifestBytes then failM invalid_argument
  else
  let max_bytes := kCompactionIntentHeaderBytes + 2 * max_manifest_bytes in
  let! bytes := read_private_file kCompactionIntentFilename kCompactionIntentHeaderBytes
                  kMaximumCompactionIntentBytes max_bytes in
  liftM (decode_compaction_intent bytes).

(** The methods that read refuse to go on after the directory was poisoned. *)
Definition if_healthy {A} (m : Method Directory A) : Method Directory A :=
  let! d := getM in if negb (d_health d) then failM io_error else m.

Definition read_manifest (max_bytes : Z) : Method Directory Manifest :=
  if_healthy (read_private_manifest_file kManifestFilename max_bytes).
Definition read_bootstrap_intent (max_bytes : Z) : Method Directory Manifest :=
  if_healthy (read_private_manifest_file kBootstrapIntentFilename max_bytes).
Definition read_compaction_intent (max_manifest_bytes : Z) : Method Directory DurableCompactionIntent :=
  if_healthy (read_private_compaction_intent_file max_manifest_bytes).

(** ** Publishing *)

(** The outcomes of the publications and removals; [error] is set with the last
    two. *)
Inductive Outcome := outcome_durable | outcome_unchanged | outcome_indeterminate.
Record Publication := mkPublication { pub_outcome : Outcome; pub_error : option ErrorCode }.

Definition published : Publication := mkPublication outcome_durable None.
(** [publication_failure] and its likes. *)
Definition unchanged (e : ErrorCode) : Method Directory Publication :=
  retM (mkPublication outcome_unchanged (Some e)).
Definition poisoned (e : ErrorCode) : Method Directory Publication :=
  modifyM poison_directory ;;! retM (mkPublication outcome_indeterminate (Some e)).

Definition unlink_named (name : list Z) : Method Directory unit := let! _ := unlinkat name in retM tt.

(** Write [encoded] to the open temporary file, synchronize it, give it its name
    and synchronize the directory. *)
Definition publish_as {R} (temporary final : list Z) (encoded : list Z) (w s r : FilesystemOperation)
    (failed lost : ErrorCode -> Method Directory R) (success : R) (i : nat) : Method Directory R :=
  try! _ := before_directory w otherwise e => failed e in
  try! _ := on_node i (write_all_at (ds_file sys) encoded 0) otherwise e => failed e in
  try! _ := before_directory s otherwise e => failed e in
  try! _ := on_node i (sync (ds_file sys) sync_full) otherwise e => failed e in
  try! _ := before_directory r otherwise e => failed e in
  try! _ := renameat temporary final otherwise e => lost e in
  try! _ := before_directory fs_sync_directory otherwise e => lost e in
  try! _ := sync_directory otherwise e => lost e in
  retM success.

Definition publish_manifest (manifest : Manifest) (max_bytes : Z) : Method Directory Publication :=
  let! d := getM in
  if negb (d_health d) then retM (mkPublication outcome_indeterminate (Some io_error))
  else
  try! encoded := liftM (encode_manifest manifest) otherwise e => unchanged e in
  if zlen encoded >? max_bytes then unchanged storage_exhausted
  else
  let publish :=
    try! _ := unlink_named kManifestTemporaryFilename otherwise e => unchanged e in
    try! i := openat_new kManifestTemporaryFilename otherwise e => unchanged e in
    publish_as kManifestTemporaryFilename kManifestFilename encoded
      fs_write_manifest fs_sync_manifest fs_rename_manifest
      (fun e => ignoreM (unlink_named kManifestTemporaryFilename) ;;! unchanged e) poisoned published i in
  try! current := read_manifest max_bytes
    otherwise e => (if bool_decide (e = not_found) then publish else unchanged e) in
  if m_manifest_generation manifest <=? m_manifest_generation current then unchanged sequence_conflict
  else publish.

(** [cleanup] of the two publications of intents. *)
Definition cleanup_temporary (temporary : list Z) : Method Directory unit :=
  unlink_named temporary ;;! sync_directory.

Definition publish_bootstrap_intent (manifest : Manifest) (max_bytes : Z) : Method Directory unit :=
  if_healthy (
  let! encoded := liftM (encode_manifest manifest) in
  if zlen encoded >? max_bytes then failM storage_exhausted
  else
  let! found := fstatat kBootstrapIntentFilename in
  if (found : bool) then failM sequence_conflict
  else
  unlink_named kBootstrapTemporaryFilename ;;!
  let! i := openat_new kBootstrapTemporaryFilename in
  publish_as kBootstrapTemporaryFilename kBootstrapIntentFilename encoded
    fs_write_bootstrap fs_sync_bootstrap fs_rename_bootstrap
    (fun e => try! _ := cleanup_temporary kBootstrapTemporaryFilename
                otherwise e' => (modifyM poison_directory ;;! failM e') in failM e)
    (fun e => modifyM poison_directory ;;! failM e) tt i).

Definition publish_compaction_intent (intent : DurableCompactionIntent) (max_manifest_bytes : Z) :
    Method Directory Publication :=
  let! d := getM in
  if negb (d_health d) then retM (mkPublication outcome_indeterminate (Some io_error))
  else if max_manifest_bytes >? kMaximumManifestBytes then unchanged invalid_argument
  else
  try! old_size := liftM (encoded_manifest_size (i_old_manifest intent)) otherwise e => unchanged e in
  try! next_size := liftM (encoded_manifest_size (i_next_manifest intent)) otherwise e => unchanged e in
  try! encoded := liftM (encode_compaction_intent intent) otherwise e => unchanged e in
  if (old_size >? max_manifest_bytes) || (next_size >? max_manifest_bytes) then unchanged storage_exhausted
  else
  try! found := uninterrupted (fstatat kCompactionIntentFilename) otherwise e => unchanged e in
  if (found : bool) then unchanged sequence_conflict
  else
  try! _ := unlink_named kCompactionTemporaryFilename otherwise e => unchanged e in
  try! i := openat_new kCompactionTemporaryFilename otherwise e => unchanged e in
  publish_as kCompactionTemporaryFilename kCompactionIntentFilename encoded
    fs_write_compaction_intent fs_sync_compaction_intent fs_rename_compaction_intent
    (fun e => try! _ := cleanup_temporary kCompactionTemporaryFilename otherwise e' => poisoned e' in unchanged e)
    poisoned published i.

(** ** Removing *)

(** The end of every removal. *)
Definition sync_removal : Method Directory Publication :=
  try! _ := before_directory fs_sync_directory otherwise e => poisoned e in
  try! _ := sync_directory otherwise e => poisoned e in
  retM published.

Definition finish_bootstrap : Method Directory unit :=
  if_healthy (
  before_directory fs_remove_bootstrap ;;!
  let! removed := unlinkat kBootstrapIntentFilename in
  if negb removed then failM not_found
  else
  try! _ := before_directory fs_sync_directory otherwise e => (modifyM poison_directory ;;! failM e) in
  try! _ := sync_directory otherwise e => (modifyM poison_directory ;;! failM e) in
  retM tt).

Definition remove_compaction_intent : Method Directory Publication :=
  let! d := getM in
  if negb (d_health d) then retM (mkPublication outcome_indeterminate (Some io_error))
  else
  try! _ := unlink_named kCompactionTemporaryFilename otherwise e => poisoned e in
  try! _ := before_directory fs_remove_compaction_intent otherwise e => unchanged e in
  try! removed := unlinkat kCompactionIntentFilename otherwise e => poisoned e in
  if negb removed then unchanged not_found else sync_removal.

(** The loop of [retire_compaction_segments]; it ends with what the method returns
    early, or whether something was removed. *)
Fixpoint retire_loop (store_id : list Z) (segments : list ManifestSegmentEntry) (removed_any : bool) :
    Method Directory (option Publication) :=
  match segments with
  | [] => retM None
  | entry :: segments =>
      let identity := mkIdentity store_id (me_segment_id entry) (me_generation entry) (me_owner_worker entry) in
      let stop e := let! p := e in retM (Some p) in
      try! _ := before_directory fs_remove_compaction_segment
        otherwise e => stop (if removed_any then poisoned e else unchanged e) in
      try! removed_identity := unlinkat (temporary_filename identity) otherwise e => stop (poisoned e) in
      try! removed := unlinkat (segment_filename identity) otherwise e => stop (poisoned e) in
      if negb removed && negb removed_identity then retire_loop store_id segments removed_any
      else retire_loop store_id segments true
  end.

Definition retire_compaction_segments (store_id : list Z) (segments : list ManifestSegmentEntry) :
    Method Directory Publication :=
  let! d := getM in
  if negb (d_health d) then retM (mkPublication outcome_indeterminate (Some io_error))
  else
  let! stopped := retire_loop store_id segments false in
  match stopped with
  | Some publication => retM publication
  | None => sync_removal
  end.

(** The two loops of [cleanup_recovery_temporaries]. *)
Fixpoint check_temporaries (names : list (list Z)) : Method Directory unit :=
  match names with
  | [] => retM tt
  | name :: names =>
      let recognized := bool_decide (name = kManifestTemporaryFilename) ||
                        bool_decide (name = kCompactionTemporaryFilename) ||
                        match parse_segment_filename name with Ok parsed => pn_temporary parsed | _ => false end in
      if negb recognized then failM invalid_argument
      else
      let! file := openat_existing name in
      match file with
      | None => failM sequence_conflict
      | Some i => validate_private_regular_file i ;;! check_temporaries names
      end
  end.

Fixpoint remove_temporaries (names : list (list Z)) (removed_any : bool) : Method Directory unit :=
  match names with
  | [] => retM tt
  | name :: names =>
      try! _ := before_directory fs_remove_compaction_segment
        otherwise e => ((if removed_any then modifyM poison_directory else retM tt) ;;! failM e) in
      try! removed := unlinkat name otherwise e => (modifyM poison_directory ;;! failM e) in
      if negb removed then modifyM poison_directory ;;! failM io_error
      else remove_temporaries names true
  end.

Definition cleanup_recovery_temporaries (names : list (list Z)) : Method Directory unit :=
  if_healthy (
  match names with
  | [] => retM tt
  | _ =>
      check_temporaries names ;;!
      remove_temporaries names false ;;!
      try! _ := before_directory fs_sync_directory otherwise e => (modifyM poison_directory ;;! failM e) in
      try! _ := sync_directory otherwise e => (modifyM poison_directory ;;! failM e) in
      retM tt
  end).
End directory.
