(* ===== verification/DirectorySpec.v ===== *)
(** * Publication survives power failures

    Between two synchronizations of a directory a power failure may leave every
    name as it was at any moment in between.  Whatever the system answers, the name
    of a manifest or of an intent then stands for the old contents or for all of
    the new ones; it stands for the new ones when the publication was reported as
    durable, and for the old ones when it was reported as not published. *)

From stdpp Require Import gmap.
From S2P Require Import Prelude Core Crc32c Record SegmentHeader Segment Routing Manifest Compaction CompactionIntent File SegmentFile Namespace Directory.

(** ** What a name may stand for *)

Definition states (d : Directory) : list (gmap (list Z) nat) := d_names d :: d_past d.

(** Everything written to the file is on the medium. *)
Definition clean (f : File) : Prop := f_closed f = [] /\ f_open f = [].

(** A private file that holds [bs]. *)
Definition content (n : Node) (bs : list Z) : Prop :=
  clean (n_file n) /\ private_regular (n_stat n) = true /\ st_size (n_stat n) = zlen bs /\
  bytes_at (f_base (n_file n)) 0 (zlen bs) = bs.

(** A name that is absent or stands for a file with these contents. *)
Definition resolves (d : Directory) (target : option nat) (contents : option (list Z)) : Prop :=
  match target, contents with
  | None, None => True
  | Some i, Some bs => exists n, d_nodes d !! i = Some n /\ content n bs
  | _, _ => False
  end.

(** Whatever moment a power failure picks, [name] satisfies [P]. *)
Definition may_hold (d : Directory) (name : list Z) (P : option (list Z) -> Prop) : Prop :=
  forall e, e ∈ states d -> exists contents, resolves d (e !! name) contents /\ P contents.

(** The contents of a name are certain. *)
Definition settled (d : Directory) (name : list Z) (contents : option (list Z)) : Prop :=
  may_hold d name (fun x => x = contents).

(** Every name has a file. *)
Definition linked (d : Directory) : Prop := forall e name i, e ∈ states d -> e !! name = Some i -> (i < length (d_nodes d))%nat.

(** Power failure and restart: every name is as it was at some moment since the
    last synchronization, files without unsynchronized writes are unchanged, and
    nothing is known of the others. *)
Record crash (d d' : Directory) : Prop := {
  cr_names : forall name, exists e, e ∈ states d /\ d_names d' !! name = e !! name;
  cr_past : d_past d' = [];
  cr_lost : d_lost d' = false;
  cr_health : d_health d' = true;
  cr_nodes : forall i n, d_nodes d !! i = Some n -> clean (n_file n) ->
    exists n', d_nodes d' !! i = Some n' /\ n_stat n' = n_stat n /\ f_base (n_file n') = f_base (n_file n) /\
      clean (n_file n');
  cr_length : length (d_nodes d') = length (d_nodes d)
}.

Lemma crash_linked d d' : linked d -> crash d d' -> linked d'.
Proof.
  intros H Hc e name i He Hi. unfold states in He. rewrite (cr_past _ _ Hc) in He. apply list_elem_of_singleton in He as ->.
  destruct (cr_names _ _ Hc name) as (e & He & E). rewrite E in Hi. rewrite (cr_length _ _ Hc). by eapply H.
Qed.

Lemma content_same n n' bs : content n bs -> n_stat n' = n_stat n -> f_base (n_file n') = f_base (n_file n) ->
  clean (n_file n') -> content n' bs.
Proof. intros (_ & H2 & H3 & H4) E1 E2 Hc. unfold content. rewrite E1, E2. done. Qed.

Lemma resolves_same d d' target contents :
  (forall i n, d_nodes d !! i = Some n -> clean (n_file n) -> exists n', d_nodes d' !! i = Some n' /\
     n_stat n' = n_stat n /\ f_base (n_file n') = f_base (n_file n) /\ clean (n_file n')) ->
  resolves d target contents -> resolves d' target contents.
Proof.
  intros Hn. destruct target as [i|], contents as [bs|]; try done. intros (n & Hi & Hc).
  destruct (Hn i n Hi (proj1 Hc)) as (n' & Hi' & E1 & E2 & Hcl). exists n'. split; [done|]. by eapply content_same.
Qed.

Lemma crash_may_hold d d' name P : may_hold d name P -> crash d d' -> may_hold d' name P.
Proof.
  intros H Hc e He. unfold states in He. rewrite (cr_past _ _ Hc) in He. apply list_elem_of_singleton in He as ->.
  destruct (cr_names _ _ Hc name) as (e & He & ->). destruct (H e He) as (contents & Hr & HP).
  exists contents. split; [|done]. eapply resolves_same; [apply Hc|done].
Qed.

Lemma may_hold_mono d name (P Q : option (list Z) -> Prop) : (forall x, P x -> Q x) -> may_hold d name P -> may_hold d name Q.
Proof. intros HPQ H e He. destruct (H e He) as (x & Hr & HP). eauto. Qed.

Lemma resolves_fun d target x y : resolves d target x -> resolves d target y -> x = y.
Proof.
  destruct target as [i|], x as [bx|], y as [b|]; try done. intros (n & Hi & Hx) (n' & Hi' & Hy). simplify_eq.
  destruct Hx as (_ & _ & Sx & Bx), Hy as (_ & _ & Sy & By). rewrite Sx in Sy. rewrite Sy in Bx. congruence.
Qed.

(** ** What an operation leaves alone *)

(** [d] comes from [d0] by calls that touch only the names [N] and files made since. *)
Record leaves (N : list (list Z)) (d0 d : Directory) : Prop := {
  lv_names : forall name e, name ∉ N -> e ∈ states d -> exists e0, e0 ∈ states d0 /\ e !! name = e0 !! name;
  lv_current : forall name, name ∉ N -> d_names d !! name = d_names d0 !! name;
  lv_nodes : forall i n, d_nodes d0 !! i = Some n -> clean (n_file n) -> exists n', d_nodes d !! i = Some n' /\
    n_stat n' = n_stat n /\ f_base (n_file n') = f_base (n_file n) /\ clean (n_file n');
  lv_length : (length (d_nodes d0) <= length (d_nodes d))%nat;
  lv_linked : linked d0 -> linked d
}.

Lemma leaves_refl N d : leaves N d d.
Proof. split; eauto. Qed.
Lemma leaves_trans N d0 d1 d2 : leaves N d0 d1 -> leaves N d1 d2 -> leaves N d0 d2.
Proof.
  intros A B. split.
  - intros name e Hn He. destruct (lv_names _ _ _ B name e Hn He) as (e1 & He1 & ->). by apply A.
  - intros name Hn. rewrite (lv_current _ _ _ B) by done. by apply A.
  - intros i n Hi Hc. destruct (lv_nodes _ _ _ A i n Hi Hc) as (n1 & Hi1 & E1 & E2 & Hc1).
    destruct (lv_nodes _ _ _ B i n1 Hi1 Hc1) as (n2 & Hi2 & E3 & E4 & Hc2). exists n2. rewrite E3, E4. done.
  - etransitivity; [apply A|apply B].
  - intros H. by apply B, A.
Qed.
Lemma leaves_mono N N' d d' : N ⊆ N' -> leaves N d d' -> leaves N' d d'.
Proof. intros H []. split; try done; intros; [apply lv_names0|apply lv_current0]; set_solver. Qed.

Lemma leaves_may_hold N d d' name P : leaves N d d' -> name ∉ N -> may_hold d name P -> may_hold d' name P.
Proof.
  intros L Hn H e He. destruct (lv_names _ _ _ L name e Hn He) as (e0 & He0 & ->).
  destruct (H e0 He0) as (x & Hr & HP). exists x. split; [|done]. eapply resolves_same; [apply L|done].
Qed.

(** Calls that do not synchronize the directory or give up its health. *)
Definition calm (N : list (list Z)) (d0 d : Directory) : Prop :=
  leaves N d0 d /\ d_lost d = d_lost d0 /\ d_health d = d_health d0.

Lemma calm_refl N d : calm N d d.
Proof. split; [apply leaves_refl|done]. Qed.
Lemma calm_trans N d0 d1 d2 : calm N d0 d1 -> calm N d1 d2 -> calm N d0 d2.
Proof. intros (A & E1 & E2) (B & E3 & E4). split; [by eapply leaves_trans|]. split; congruence. Qed.
Lemma calm_mono N N' d d' : N ⊆ N' -> calm N d d' -> calm N' d d'.
Proof. intros H [L ?]. split; [by eapply leaves_mono|done]. Qed.
Lemma calm_recount N calls d : calm N d (recount calls d).
Proof. split; [|done]. split; try done; eauto. Qed.
Lemma calm_count N d : calm N d (count_dir_call d).
Proof. apply calm_recount. Qed.

(** A change of one name. *)
Lemma calm_set_names N d names : (forall name, name ∉ N -> names !! name = d_names d !! name) ->
  (forall name i, names !! name = Some i -> (i < length (d_nodes d))%nat \/ exists name', d_names d !! name' = Some i) ->
  calm N d (set_names names d).
Proof.
  intros H Hl. split; [|done]. split; cbn; try done; [|eauto|].
  - intros name e Hn [->|He]%elem_of_cons; [|eauto]. exists (d_names d). split; [by left|by apply H].
  - intros Hlk e name i [->|He]%elem_of_cons Hi; [|by eapply Hlk]. cbn in Hi |- *.
    destruct (Hl name i Hi) as [?|[name' Hi']]; [done|]. eapply (Hlk (d_names d)); [by left|done].
Qed.
Lemma calm_add_node N d n : calm N d (add_node n d).
Proof.
  split; [|done]. split; cbn; try done; [eauto|..].
  - intros i n' Hi Hc. exists n'. split; [by apply lookup_app_l_Some|done].
  - rewrite length_app. lia.
  - intros Hlk e name i He Hi. cbn. rewrite length_app. specialize (Hlk e name i He Hi). lia.
Qed.

(** ** The size of a written file *)

Definition extent (size : Z) (ws : list Write) : Z :=
  foldr (fun w size => Z.max size (w_offset w + zlen (take (w_done w) (w_data w)))) size ws.

Lemma extent_le off bytes size ws : Forall (piece off bytes) ws -> extent size ws <= Z.max size (off + zlen bytes).
Proof.
  induction 1 as [|w ws (j & Hj & Ho & Hd) _ IH]; cbn; [lia|]. rewrite Ho, Hd.
  fold (extent size ws). assert (zlen (take (w_done w) (zdrop j bytes)) <= zlen bytes - j); [|lia].
  rewrite <- zlen_zdrop by lia. unfold zlen. rewrite length_take. lia.
Qed.
Lemma extent_ge size ws w o : w ∈ ws -> o < w_offset w + zlen (take (w_done w) (w_data w)) -> o < extent size ws.
Proof.
  unfold extent. induction 1 as [w ws|w x ws _ IH]; intros H; cbn [foldr]; [lia|]. specialize (IH H). lia.
Qed.
Lemma extent_base size ws : size <= extent size ws.
Proof. unfold extent. induction ws; cbn; lia. Qed.

(** Writes that turn every image into one with [bytes] at 0 reach their end. *)
Lemma extent_eq bytes ws : Forall (piece 0 bytes) ws -> (forall g o, after ws g o = overwrite g 0 bytes o) ->
  extent 0 ws = zlen bytes.
Proof.
  intros Hp Hv. pose proof (extent_le 0 bytes 0 ws Hp). pose proof (extent_base 0 ws). pose proof (zlen_nonneg bytes).
  destruct (decide (zlen bytes = 0)); [lia|]. assert (zlen bytes - 1 < extent 0 ws); [|lia].
  set (o := zlen bytes - 1). set (b := byte_of bytes (o - 0)). destruct (decide (Exists (fun w =>
    o < w_offset w + zlen (take (w_done w) (w_data w))) ws)) as [(w & Hw & Ho)%Exists_exists|Hno]; [by eapply extent_ge|].
  exfalso. specialize (Hv (fun _ => b + 1) o). rewrite overwrite_in in Hv by (unfold o; lia). fold b in Hv.
  assert (Hout : forall ws', ws' ⊆ ws -> forall g, after ws' g o = g o).
  { intros ws'. induction ws' as [|w ws' IH]; intros Hsub g; [done|]. cbn. change (foldl apply_write ?x ws') with (after ws' x).
    rewrite IH by set_solver. unfold apply_write. apply overwrite_out. intros [_ Ho]. apply Hno, Exists_exists.
    exists w. split; [apply Hsub; by left|done]. }
  rewrite (Hout ws) in Hv by done. lia.
Qed.

(** ** Opening *)

Lemma make_lock_file_names d : is_Some (d_names (make_lock_file d) !! kStoreLockFilename) /\
  forall name, name <> kStoreLockFilename -> d_names (make_lock_file d) !! name = d_names d !! name.
Proof.
  unfold make_lock_file. destruct (d_names d !! kStoreLockFilename) as [i|] eqn:E; [split; [by rewrite E; exists i|done]|].
  cbn. split; [rewrite lookup_insert_eq; by eexists|]. intros name Hn. by apply lookup_insert_ne.
Qed.

(** Opening locks the directory, leaves a lock file, and touches no other name, whether
    it succeeds or not. *)
Lemma open_and_lock_spec mode o d : runs (open_and_lock mode o d)
  (fun _ d' => od_lock o = locked /\ d_health d' = true /\ is_Some (d_names d' !! kStoreLockFilename) /\
     forall name, name <> kStoreLockFilename -> d_names d' !! name = d_names d !! name)
  (fun _ d' => forall name, name <> kStoreLockFilename -> d_names d' !! name = d_names d !! name).
Proof.
  unfold open_and_lock. destruct (od_empty_path o); [done|].
  assert (Hlift : forall (r : Status) (k : unit -> Method Directory unit) d1 ok err, (forall f, r <> Stuck f) ->
    (forall e, err e d1) -> runs (k tt d1) ok err -> runs (bindM (liftM r) k d1) ok err).
  { intros r k d1 ok err Hr He Hk. destruct r as [[]|e|f]; [exact Hk|apply He|by destruct (Hr f)]. }
  assert (Ha : forall e f, answered_errno e <> Stuck f) by by intros [e|] f.
  apply Hlift; [|done|].
  { intros f. destruct mode; [done|..]; unfold create_data_directory, answered_errno, answered;
      repeat (case_match; simplify_eq/=; try done). }
  apply Hlift; [apply Ha|done|]. apply Hlift; [|done|].
  { intros f. unfold validate_directory_descriptor. by repeat case_match. }
  apply Hlift; [apply Ha|done|]. rewrite bindM_modify. pose proof (make_lock_file_names d) as [Hl Hn].
  apply Hlift; [|done|]; [intros f; by repeat case_match|]. destruct (od_lock o) eqn:E; cbn; done.
Qed.

Section calls.
Context (sys : DirectorySystem).

(** A system without failures. *)
Definition obliging : Prop := (forall calls, ds_name sys calls = name_done) /\ reads_progress (ds_file sys).

Lemma name_call_calm {A} N (change : Directory -> Directory) (a : A) d :
  calm N (count_dir_call d) (change (count_dir_call d)) ->
  runs (name_call sys change a d) (fun x d' => x = a /\ d' = change (count_dir_call d)) (fun _ d' => calm N d d').
Proof.
  intros H. unfold name_call. destruct (ds_name _ _) as [|[] errno]; cbn; [done| |apply calm_count].
  eapply calm_trans; [apply calm_count|apply H].
Qed.

(** A call that is repeated is answered at some count. *)
Lemma uninterrupted_spec {A} (call : Method Directory A) d ok err :
  (forall calls, runs (call (recount calls d)) ok err) -> runs (uninterrupted sys call d) ok err.
Proof.
  intros Hcall. unfold uninterrupted. destruct (signals_end (ds_file sys) (d_calls d)) as (k & Hk & E).
  assert (Hl : forall fuel calls k, (k < fuel)%nat -> answer_signal (ds_file sys) (calls + k) = false ->
    runs (repeat_call sys fuel call (recount calls d)) ok err).
  { clear k Hk E. induction fuel as [|fuel IH]; intros calls k Hk E; [lia|]. cbn [repeat_call]. unfold bindM, name_interrupted.
    cbn [recount d_calls]. destruct (answer_signal (ds_file sys) calls) eqn:Es; [|apply Hcall].
    destruct k as [|k]; [rewrite Nat.add_0_r in E; congruence|]. apply (IH (S calls) k); [lia|]. by rewrite Nat.add_succ_comm. }
  specialize (Hl (S (patience (ds_file sys))) (d_calls d) k ltac:(lia) E). by destruct d.
Qed.

Lemma openat_existing_spec name d : runs (openat_existing sys name d)
  (fun x d' => x = d_names d !! name /\ exists calls, d' = recount calls d)
  (fun e d' => (exists calls, d' = recount calls d) /\ e <> not_found /\ ~ obliging).
Proof.
  apply uninterrupted_spec. intros calls. unfold name_call.
  destruct (ds_name sys _) as [|applied errno] eqn:E; cbn; [split; [done|by eexists]|].
  split; [destruct applied; by eexists|]. split; [by destruct errno|]. intros [H _]. rewrite H in E. done.
Qed.

Lemma fstatat_spec name d : runs (fstatat sys name d)
  (fun x d' => (x = true <-> is_Some (d_names d !! name)) /\ calm [] d d') (fun _ d' => calm [] d d').
Proof.
  unfold fstatat. eapply runs_weaken; [apply (name_call_calm []), calm_refl| |done].
  intros x d' [-> ->]. split; [|apply calm_count]. destruct (d_names d !! name); [by split|]. split; [done|by intros []].
Qed.

Lemma again_fstatat_spec name d : runs (uninterrupted sys (fstatat sys name) d)
  (fun x d' => (x = true <-> is_Some (d_names d !! name)) /\ calm [] d d') (fun _ d' => calm [] d d').
Proof.
  apply uninterrupted_spec. intros calls. eapply runs_weaken; [apply fstatat_spec| |]; cbn [recount d_names].
  - intros x d' [Hx Hc]. split; [done|]. eapply calm_trans; [apply (calm_recount _ calls)|exact Hc].
  - intros e d' Hc. eapply calm_trans; [apply (calm_recount _ calls)|exact Hc].
Qed.

Lemma unlinkat_spec name d : runs (unlinkat sys name d)
  (fun x d' => calm [name] d d' /\ d_names d' !! name = None /\ (x = true <-> is_Some (d_names d !! name)))
  (fun _ d' => calm [name] d d').
Proof.
  unfold unlinkat. destruct (d_names d !! name) as [i|] eqn:Hi.
  - assert (Hc : forall d, calm [name] d (set_names (delete name (d_names d)) d)).
    { intros d1. apply calm_set_names; [intros n Hn; apply lookup_delete_ne; set_solver|].
      intros n j [_ Hj]%lookup_delete_Some. by eauto. }
    eapply runs_weaken; [by apply (name_call_calm [name])| |done]. intros x d' [-> ->].
    split; [eapply calm_trans; [apply calm_count|apply Hc]|]. split; [apply lookup_delete_eq|by split].
  - eapply runs_weaken; [apply (name_call_calm [name]), calm_refl| |done]. intros x d' [-> ->].
    split; [apply calm_count|]. split; [done|]. split; [done|by intros []].
Qed.

Lemma unlink_named_spec name d : runs (unlink_named sys name d)
  (fun _ d' => calm [name] d d' /\ d_names d' !! name = None) (fun _ d' => calm [name] d d').
Proof.
  unfold unlink_named. eapply runs_bindM; [apply unlinkat_spec|]. intros x d' (H1 & H2 & _). done.
Qed.

(** A new file: nothing else stands for it. *)
Definition fresh_node (i : nat) (d : Directory) : Prop := exists n, d_nodes d !! i = Some n /\
  clean (n_file n) /\ f_lost (n_file n) = false /\ n_stat n = new_stat.

Lemma openat_new_spec name d : runs (openat_new sys name d)
  (fun i d' => calm [name] d d' /\ i = length (d_nodes d) /\ d_names d' !! name = Some i /\ fresh_node i d')
  (fun _ d' => calm [name] d d').
Proof.
  apply uninterrupted_spec. intros calls. cbn [recount d_names d_nodes].
  destruct (d_names d !! name) eqn:Hn; [apply (calm_recount _ (S calls))|]. set (d1 := recount calls d).
  assert (Hc : calm [name] (count_dir_call d1) (make_file name (count_dir_call d1))).
  { eapply calm_trans; [apply calm_add_node|]. apply calm_set_names.
    - intros n Hnn. cbn. apply lookup_insert_ne. set_solver.
    - intros n j [[_ Hj]|[_ Hj]]%lookup_insert_Some; cbn in *; [left; rewrite length_app; cbn; lia|by eauto]. }
  assert (Hd : calm [name] d d1) by apply calm_recount.
  eapply runs_weaken; [by apply (name_call_calm [name])| |intros e d'; by apply calm_trans]. intros x d' [-> ->].
  split; [eapply calm_trans; [exact Hd|]; eapply calm_trans; [apply calm_count|apply Hc]|]. split; [done|].
  split; [apply lookup_insert_eq|].
  exists (mkNode (file_on (fun _ => 0)) new_stat). split; [by apply list_lookup_middle|done].
Qed.

Lemma before_directory_spec op d : runs (before_directory sys op d)
  (fun _ d' => d' = count_dir_call d) (fun _ d' => d' = count_dir_call d).
Proof. unfold before_directory. by destruct (answer_before _ _ _). Qed.
Lemma calm_after_recount N d0 d calls : calm N d0 d -> calm N d0 (recount calls d).
Proof. intros H. eapply calm_trans; [exact H|apply calm_recount]. Qed.
Lemma calm_after_count N d0 d : calm N d0 d -> calm N d0 (count_dir_call d).
Proof. apply calm_after_recount. Qed.

(** A method of a file made since [d0]. *)
Lemma on_node_new {A} N d0 d i (m : Method File A) (ok : A -> File -> Prop) (err : ErrorCode -> File -> Prop) n :
  calm N d0 d -> (length (d_nodes d0) <= i)%nat -> d_nodes d !! i = Some n ->
  (forall calls, let f := n_file n in runs (m (mkFile (f_base f) (f_closed f) (f_open f) (f_lost f) calls)) ok err) ->
  let size f' := foldr (fun w size => Z.max size (w_offset w + zlen (take (w_done w) (w_data w))))
                   (st_size (n_stat n)) (f_open f') in
  let node f' := mkNode f' (mkStat (st_regular (n_stat n)) (st_nlink (n_stat n)) (st_owned (n_stat n))
                   (st_shared_mode (n_stat n)) (size f')) in
  runs (on_node i m d)
    (fun a d' => calm N d0 d' /\ d_names d' = d_names d /\ d_past d' = d_past d /\
       exists f', ok a f' /\ d_nodes d' !! i = Some (node f'))
    (fun e d' => calm N d0 d' /\ d_names d' = d_names d /\ d_past d' = d_past d).
Proof.
  intros (L & E1 & E2) Hi Hn Hm size node. unfold on_node. rewrite Hn. specialize (Hm (d_calls d)). cbn zeta in Hm.
  assert (Hset : forall n' calls, calm N d0 (set_node i n' calls d)).
  { intros n' calls. split; [|done]. split; cbn; [apply L|apply L|..].
    - intros j nj Hj Hc. assert (j <> i) by (intros ->; apply lookup_lt_Some in Hj; lia).
      rewrite list_lookup_insert_ne by done. by apply L.
    - rewrite length_insert. apply L.
    - intros Hlk e name j He Hj. cbn. rewrite length_insert. by eapply (lv_linked _ _ _ L Hlk). }
  destruct (m _) as [[a|e|fault] f']; cbn in Hm |- *; [|split; [apply Hset|done]|done].
  split; [apply Hset|]. split; [done|]. split; [done|]. exists f'. split; [done|].
  apply list_lookup_insert_eq. by eapply lookup_lt_Some.
Qed.

(** ** Publishing a new file *)

(** A file whose contents are written but not synchronized, then one that is. *)
Definition written_node (i : nat) (bs : list Z) (d : Directory) : Prop := exists n, d_nodes d !! i = Some n /\
  f_lost (n_file n) = false /\ private_regular (n_stat n) = true /\ st_size (n_stat n) = zlen bs /\
  bytes_at (f_view (n_file n)) 0 (zlen bs) = bs.
Definition synced_node (i : nat) (bs : list Z) (d : Directory) : Prop := exists n, d_nodes d !! i = Some n /\ content n bs.

Lemma write_node_spec N d0 d i encoded : calm N d0 d -> (length (d_nodes d0) <= i)%nat -> fresh_node i d ->
  zlen encoded <= kMaximumOffset ->
  runs (on_node i (write_all_at (ds_file sys) encoded 0) d)
    (fun _ d' => calm N d0 d' /\ d_names d' = d_names d /\ written_node i encoded d')
    (fun _ d' => calm N d0 d').
Proof.
  intros Hc Hi (n & Hn & [Hcl Hop] & Hlost & Hst) Hmax. pose proof (zlen_nonneg encoded).
  eapply runs_weaken.
  - apply (on_node_new N d0 d i _ (fun _ f' => f_lost f' = false /\ extent 0 (f_open f') = zlen encoded /\
      bytes_at (f_view f') 0 (zlen encoded) = encoded) (fun _ _ => True) n); [done..|].
    intros calls f. eapply runs_weaken; [by apply (write_all_at_pieces _ encoded 0)| |done].
    intros _ f' (ws & He & Hp & Hv').
    pose proof He as (_ & _ & Ho & Hl). cbn [f_open f_lost] in Ho, Hl. unfold f in Ho, Hl. rewrite Hop in Ho. cbn in Ho.
    split; [congruence|]. split; [rewrite Ho; by apply extent_eq|].
    rewrite (extends_view _ _ _ He). etransitivity; [apply bytes_at_ext; intros o _; apply Hv'|apply bytes_at_overwrite].
  - intros _ d' (Hc' & E1 & _ & f' & (H1 & H2 & H3) & Hn'). split; [done|]. split; [done|].
    eexists. split; [exact Hn'|]. cbn [n_file n_stat]. rewrite Hst. cbn. split; [done|]. split; [done|]. by split.
  - by intros _ d' (Hc' & _).
Qed.

Lemma sync_node_spec N d0 d i bs : calm N d0 d -> (length (d_nodes d0) <= i)%nat -> written_node i bs d ->
  runs (on_node i (sync (ds_file sys) sync_full) d)
    (fun _ d' => calm N d0 d' /\ d_names d' = d_names d /\ synced_node i bs d')
    (fun _ d' => calm N d0 d').
Proof.
  intros Hc Hi (n & Hn & Hlost & Hpriv & Hsize & Hbs). eapply runs_weaken.
  - apply (on_node_new N d0 d i _ (fun _ f' => clean f' /\ bytes_at (f_base f') 0 (zlen bs) = bs) (fun _ _ => True) n); [done..|].
    intros calls f. eapply runs_weaken; [apply sync_spec| |done]. intros _ f' (f1 & He & ->).
    pose proof (extends_nil _ _ He) as Hv. destruct He as (_ & _ & _ & Hl). unfold persist. rewrite Hl. unfold f. cbn [f_lost].
    rewrite Hlost. split; [done|]. cbn [f_base]. rewrite Hv. exact Hbs.
  - intros _ d' (Hc' & E1 & _ & f' & ([F1 F2] & Hb) & Hn'). split; [done|]. split; [done|].
    eexists. split; [exact Hn'|]. split; [done|]. cbn [n_file n_stat st_size]. rewrite F2. cbn. done.
  - by intros _ d' (Hc' & _).
Qed.

(** The new file has taken, or is about to take, its name. *)
Definition moved (temporary final : list Z) (encoded : list Z) (d0 d : Directory) : Prop :=
  leaves [temporary; final] d0 d /\
  forall P, may_hold d0 final P -> may_hold d final (fun x => P x \/ x = Some encoded).

Lemma calm_moved temporary final encoded d0 d : temporary <> final -> calm [temporary] d0 d -> moved temporary final encoded d0 d.
Proof.
  intros Hne [L _]. split; [eapply leaves_mono; [|exact L]; set_solver|]. intros P HP.
  eapply may_hold_mono; [|eapply leaves_may_hold; [exact L| |exact HP]]; [by left|set_solver].
Qed.

Lemma moved_calm temporary final encoded d0 d d' : moved temporary final encoded d0 d -> calm [] d d' ->
  moved temporary final encoded d0 d'.
Proof.
  intros [L H] [L' _]. split; [eapply leaves_trans; [exact L|]; eapply leaves_mono; [|exact L']; set_solver|].
  intros P HP. eapply leaves_may_hold; [exact L'|set_solver|by apply H].
Qed.

Lemma rename_spec temporary final encoded d0 d i : temporary <> final -> calm [temporary] d0 d ->
  d_names d !! temporary = Some i -> synced_node i encoded d ->
  runs (renameat sys temporary final d)
    (fun _ d' => moved temporary final encoded d0 d' /\ d_lost d' = d_lost d0 /\ d_health d' = d_health d0 /\
       d_names d' !! final = Some i /\ synced_node i encoded d')
    (fun _ d' => moved temporary final encoded d0 d').
Proof.
  intros Hne Hc Ht (n & Hn & Hcont). unfold renameat. rewrite Ht.
  assert (Hcount : calm [temporary] d0 (count_dir_call d)) by (eapply calm_trans; [exact Hc|apply calm_count]).
  set (d1 := set_names (<[final:=i]> (delete temporary (d_names (count_dir_call d)))) (count_dir_call d)).
  assert (Hm : moved temporary final encoded d0 d1).
  { split.
    - eapply leaves_trans; [eapply leaves_mono; [|apply Hcount]; set_solver|]. apply calm_set_names.
      + intros name Hnm. rewrite lookup_insert_ne, lookup_delete_ne by set_solver. done.
      + intros name j [[_ <-]|[_ [_ Hj]%lookup_delete_Some]]%lookup_insert_Some; cbn; by eauto.
    - intros P HP e [->|He]%elem_of_cons.
      + exists (Some encoded). split; [|by right]. unfold d1. cbn [set_names d_names]. rewrite lookup_insert_eq. by exists n.
      + destruct (leaves_may_hold _ _ _ final P (proj1 Hc) ltac:(set_solver) HP e He) as (x & Hr & Hx). by eauto. }
  unfold name_call. destruct Hc as (_ & E1 & E2). destruct (ds_name _ _) as [|[] errno]; cbn [runs]; [|done|].
  - split; [done|]. split; [done|]. split; [done|]. split; [apply lookup_insert_eq|]. by exists n.
  - by apply calm_moved.
Qed.

Lemma sync_directory_spec d : runs (sync_directory sys d)
  (fun _ d' => leaves [] d d' /\ d_lost d' = d_lost d /\ d_health d' = d_health d /\ d_names d' = d_names d /\
     d_nodes d' = d_nodes d /\ (d_lost d = false -> states d' = [d_names d]))
  (fun _ d' => leaves [] d d' /\ d_health d' = d_health d).
Proof.
  apply uninterrupted_spec. intros calls. cbn [recount d_names d_past d_nodes d_lost d_health d_calls].
  destruct (answer_sync _ _ _); cbn.
  - split; [|done]. split; cbn; try done; eauto.
  - split; [|do 4 (split; [done|]); intros ->; done].
    split; cbn; try done; [|eauto|].
    2:{ intros Hlk e name i He. cbn. destruct (d_lost d); [by apply Hlk|].
        intros Hi. apply list_elem_of_singleton in He as ->. eapply (Hlk (d_names d)); [by left|done]. }
    intros name e _ He. destruct (d_lost d); [by eauto|]. apply list_elem_of_singleton in He as ->.
    exists (d_names d). split; [by left|done].
Qed.

Lemma moved_leaves temporary final encoded d0 d d' : moved temporary final encoded d0 d -> leaves [] d d' ->
  moved temporary final encoded d0 d'.
Proof.
  intros [L H] L'. split; [eapply leaves_trans; [exact L|]; eapply leaves_mono; [|exact L']; set_solver|].
  intros P HP. eapply leaves_may_hold; [exact L'|set_solver|by apply H].
Qed.

Lemma publish_as_spec {R} temporary final encoded w s r (failed lost : ErrorCode -> Method Directory R) success i d0 d ok err :
  temporary <> final -> zlen encoded <= kMaximumOffset -> calm [temporary] d0 d -> (length (d_nodes d0) <= i)%nat ->
  fresh_node i d -> d_names d !! temporary = Some i ->
  (forall e d', calm [temporary] d0 d' -> runs (failed e d') ok err) ->
  (forall e d', moved temporary final encoded d0 d' -> runs (lost e d') ok err) ->
  (forall d', moved temporary final encoded d0 d' -> d_lost d' = d_lost d0 -> d_health d' = d_health d0 ->
     (d_lost d0 = false -> settled d' final (Some encoded)) -> ok success d') ->
  runs (publish_as sys temporary final encoded w s r failed lost success i d) ok err.
Proof.
  intros Hne Hmax Hc Hi Hf Ht Hfail Hlost Hok. unfold publish_as.
  eapply runs_attempt; [apply before_directory_spec| |intros e d1 ->; by apply Hfail, calm_after_count].
  intros _ d1 ->. eapply runs_attempt;
    [apply (write_node_spec [temporary] d0 _ i encoded); [by apply calm_after_count|done..]| |by intros e d2; apply Hfail].
  intros _ d2 (C2 & E2 & W2). cbn in E2. rewrite <- E2 in Ht.
  eapply runs_attempt; [apply before_directory_spec| |intros e d3 ->; by apply Hfail, calm_after_count].
  intros _ d3 ->. eapply runs_attempt;
    [apply (sync_node_spec [temporary] d0 _ i encoded); [by apply calm_after_count|done..]| |by intros e d4; apply Hfail].
  intros _ d4 (C4 & E4 & S4). cbn in E4. rewrite <- E4 in Ht.
  eapply runs_attempt; [apply before_directory_spec| |intros e d5 ->; by apply Hfail, calm_after_count].
  intros _ d5 ->. eapply runs_attempt;
    [apply (rename_spec temporary final encoded d0 _ i); [done|by apply calm_after_count|done..]| |by intros e d6; apply Hlost].
  intros _ d6 (M6 & L6 & H6 & F6 & S6).
  assert (M6' : moved temporary final encoded d0 (count_dir_call d6)) by (eapply moved_calm; [exact M6|apply calm_count]).
  eapply runs_attempt; [apply before_directory_spec| |intros e d7 ->; by apply Hlost].
  intros _ d7 ->. eapply runs_attempt; [apply sync_directory_spec| |intros e d8 [L8 _]; apply Hlost; by eapply moved_leaves].
  intros _ d8 (L8 & E8 & E8' & N8 & O8 & St8). cbn in *. apply Hok; [by eapply moved_leaves|congruence..|].
  intros Hl e He. rewrite St8 in He by congruence. apply list_elem_of_singleton in He as ->. exists (Some encoded).
  split; [|done]. rewrite F6. destruct S6 as (n & Hn & Hcn). exists n. by rewrite O8.
Qed.

(** ** Reading a file *)

Lemma descriptor_stat_spec i n d : d_nodes d !! i = Some n -> runs (descriptor_stat sys i d)
  (fun st d' => st = n_stat n /\ d' = count_dir_call d)
  (fun e d' => d' = count_dir_call d /\ e <> not_found /\ ~ obliging).
Proof.
  intros Hn. unfold descriptor_stat. rewrite Hn. unfold name_call.
  destruct (ds_name sys (d_calls d)) as [|applied errno] eqn:E; cbn; [done|].
  split; [by destruct applied|]. split; [by destruct errno|]. intros [H _]. rewrite H in E. done.
Qed.

Lemma read_never_absent size off f : (read_exact_at (ds_file sys) size off f).1 <> Err not_found.
Proof.
  unfold read_exact_at. destruct (orb _ _); [done|]. generalize (@nil Z) as bytes. revert f.
  generalize (S (patience (ds_file sys)) * S (Z.to_nat size))%nat as fuel. intros fuel.
  induction fuel as [|fuel IH]; intros f bytes; cbn [read_loop]; [by destruct (negb _)|].
  destruct (negb _); [done|]. unfold bindM, interrupted. destruct (answer_signal _ _); [apply IH|].
  unfold pread. destruct (answer_read _ _ _ _) as [m|errno]; [|by destruct errno].
  destruct (_ =? 0); [done|]. destruct (_ >? _); [done|]. apply IH.
Qed.

Lemma read_node_spec i n bs d : d_nodes d !! i = Some n -> content n bs -> zlen bs <= kMaximumOffset ->
  runs (on_node i (read_exact_at (ds_file sys) (zlen bs) 0) d)
    (fun x d' => x = bs /\ calm [] d d' /\ exists n', d_nodes d' !! i = Some n' /\ content n' bs)
    (fun e d' => calm [] d d' /\ e <> not_found /\ ~ obliging).
Proof.
  intros Hn Hc Hmax. pose proof Hc as ([Hcl Hop] & _ & _ & Hbs). pose proof (zlen_nonneg bs).
  unfold on_node. rewrite Hn. set (f := mkFile _ _ _ _ _).
  pose proof (read_never_absent (zlen bs) 0 f) as Hna.
  pose proof (read_exact_at_spec (ds_file sys) (zlen bs) 0 f ltac:(lia) ltac:(lia) ltac:(lia)) as Hr.
  assert (Hset : forall f', extends f [] f' -> let n' := mkNode f' (mkStat (st_regular (n_stat n)) (st_nlink (n_stat n))
    (st_owned (n_stat n)) (st_shared_mode (n_stat n)) (extent (st_size (n_stat n)) (f_open f'))) in
    content n' bs /\ calm [] d (set_node i n' (f_calls f') d)).
  { intros f' (E1 & E2 & E3 & _) n'. cbn in E1, E2, E3. rewrite Hop in E3. rewrite Hcl in E2.
    assert (Hst : n_stat n' = n_stat n) by (unfold n'; cbn; rewrite E3; cbn; by destruct (n_stat n)).
    assert (Hcl' : clean (n_file n')) by done. split; [by eapply content_same|]. split; [|done]. split; cbn; try done; [eauto|..].
    - intros j nj Hj Hcj. destruct (decide (j = i)) as [->|Hne].
      + simplify_eq. exists n'. rewrite list_lookup_insert_eq by by eapply lookup_lt_Some. done.
      + exists nj. by rewrite list_lookup_insert_ne.
    - by rewrite length_insert.
    - intros Hlk e name j He Hj. cbn. rewrite length_insert. by eapply Hlk. }
  destruct (read_exact_at _ _ _ f) as [[x|e|fault] f']; cbn in Hr, Hna |- *; [|..|done].
  - destruct Hr as [-> He]. destruct (Hset f' He) as [H1 H2]. split; [|split; [exact H2|]].
    + unfold f, f_view. cbn [f_open f_closed f_base]. rewrite Hop, Hcl. exact Hbs.
    + eexists. split; [apply list_lookup_insert_eq; by eapply lookup_lt_Some|exact H1].
  - destruct Hr as [He Hno]. destruct (Hset f' He) as [_ H2]. split; [exact H2|]. split; [congruence|]. by intros [_ ?].
Qed.

Lemma private_check_spec i n d : d_nodes d !! i = Some n -> private_regular (n_stat n) = true ->
  runs (validate_private_regular_file sys i d) (fun _ d' => d' = count_dir_call d)
    (fun e d' => d' = count_dir_call d /\ e <> not_found /\ ~ obliging).
Proof.
  intros Hn Hp. unfold validate_private_regular_file. eapply runs_bindM; [by apply descriptor_stat_spec|].
  intros st d' [-> ->]. unfold private_regular in Hp. repeat rewrite andb_true_iff in Hp. destruct Hp as [[[-> ->] ->] Hs].
  apply negb_true_iff in Hs as ->. done.
Qed.
Lemma size_spec i n bs d : d_nodes d !! i = Some n -> content n bs ->
  runs (descriptor_size sys i d) (fun size d' => size = zlen bs /\ d' = count_dir_call d)
    (fun e d' => d' = count_dir_call d /\ e <> not_found /\ ~ obliging).
Proof.
  intros Hn (_ & _ & Hs & _). unfold descriptor_size. eapply runs_bindM; [by apply descriptor_stat_spec|].
  intros st d' [-> ->]. rewrite Hs. pose proof (zlen_nonneg bs). destruct (Z.ltb_spec (zlen bs) 0); [lia|done].
Qed.

(** The bytes read are those the name stands for, and a file that is there is not
    reported as absent. *)
Lemma read_private_file_spec name minimum maximum max_bytes contents d :
  resolves d (d_names d !! name) contents -> maximum <= kMaximumOffset ->
  runs (read_private_file sys name minimum maximum max_bytes d)
    (fun bs d' => contents = Some bs /\ calm [] d d')
    (fun e d' => calm [] d d' /\ (e = not_found -> contents = None) /\
       (obliging -> forall bs, contents = Some bs -> ~ (minimum <= zlen bs <= Z.min maximum max_bytes))).
Proof.
  intros Hr Hmax. unfold read_private_file.
  assert (Hbad : forall e d', calm [] d d' /\ e <> not_found /\ ~ obliging -> calm [] d d' /\ (e = not_found -> contents = None) /\
    (obliging -> forall bs, contents = Some bs -> ~ (minimum <= zlen bs <= Z.min maximum max_bytes))) by (by intros e d' (? & ? & ?)).
  eapply runs_bindM_err; [apply openat_existing_spec| |].
  2:{ intros e d' ([calls ->] & ? & ?). apply Hbad. split; [apply calm_recount|done]. }
  intros target d1 (-> & calls & ->). destruct (d_names d !! name) as [i|], contents as [bs|]; try done.
  2:{ split; [apply calm_recount|]. split; [done|]. intros _ ? [=]. }
  destruct Hr as (n & Hn & Hc).
  assert (C2 : calm [] d (count_dir_call (recount calls d))) by apply calm_after_count, calm_recount.
  eapply runs_bindM_err; [apply (private_check_spec i n); [done|apply Hc]| |].
  2:{ intros e d' (-> & ? & ?). by apply Hbad. }
  intros _ d2 ->. eapply runs_bindM_err; [by apply (size_spec i n bs)| |].
  2:{ intros e d' (-> & ? & ?). apply Hbad. split; [by apply calm_after_count|done]. }
  intros size d3 [-> ->]. apply calm_after_count in C2. rewrite !Z.gtb_ltb.
  destruct (Z.ltb_spec (zlen bs) minimum); [split; [exact C2|]; split; [done|]; intros _ ? [= <-]; lia|].
  destruct (Z.ltb_spec maximum (zlen bs)); [split; [exact C2|]; split; [done|]; intros _ ? [= <-]; lia|]. cbn [orb].
  destruct (Z.ltb_spec max_bytes (zlen bs)); [split; [exact C2|]; split; [done|]; intros _ ? [= <-]; lia|].
  eapply runs_bindM_err; [apply (read_node_spec i n bs); [done..|lia]| |].
  2:{ intros e d' (? & ? & ?). apply Hbad. split; [by eapply calm_trans|done]. }
  intros x d4 (-> & C4 & n' & Hn' & Hc'). assert (C4' : calm [] d d4) by by eapply calm_trans.
  eapply runs_attempt; [by apply (size_spec i n' bs)| |].
  - intros size d5 [-> ->]. rewrite Z.eqb_refl. cbn. split; [done|by apply calm_after_count].
  - intros e d5 (-> & _ & Hno). apply Hbad. split; [by apply calm_after_count|done].
Qed.

(** ** Whole operations *)

(** An operation touches the names [N], and gives up the health of the directory
    when it no longer knows what is on the medium. *)
Definition tidy (N : list (list Z)) (d d' : Directory) : Prop :=
  leaves N d d' /\ (d_health d' = true -> d_health d = true /\ d_lost d' = d_lost d).

Lemma calm_tidy N d d' : calm N d d' -> tidy N d d'.
Proof. intros (L & E1 & E2). split; [done|]. rewrite E2. done. Qed.
Lemma tidy_trans N d0 d1 d2 : tidy N d0 d1 -> tidy N d1 d2 -> tidy N d0 d2.
Proof.
  intros [L1 H1] [L2 H2]. split; [by eapply leaves_trans|]. intros H. destruct (H2 H) as [H1' E]. destruct (H1 H1') as [? ?].
  split; [done|congruence].
Qed.
Lemma tidy_poisoned N d d' : leaves N d d' -> tidy N d (poison_directory d').
Proof. intros []. by split; [split|]. Qed.

(** What a publication may leave when it takes [final] from [contents] to [target]. *)
Definition publication_done (temporary final : list Z) (contents target : option (list Z)) (d : Directory)
    (p : Publication) (d' : Directory) : Prop :=
  tidy [temporary; final] d d' /\
  (forall d'', crash d' d'' -> may_hold d'' final (fun x => x = contents \/ x = target)) /\
  match pub_outcome p with
  | outcome_durable => settled d' final target /\ d_health d' = true
  | outcome_unchanged => settled d' final contents /\ d_health d' = true
  | outcome_indeterminate => d_health d' = false
  end.

Lemma done_unchanged temporary final contents target d d' e : temporary <> final -> settled d final contents ->
  calm [temporary] d d' -> d_health d = true ->
  runs (unchanged e d') (publication_done temporary final contents target d) (fun _ _ => False).
Proof.
  intros Hne Hs Hc Hh. pose proof Hc as (L & E1 & E2).
  assert (Hs' : settled d' final contents) by (eapply leaves_may_hold; [exact L|set_solver|done]).
  cbn. split; [apply calm_tidy; eapply calm_mono; [|exact Hc]; set_solver|]. split.
  - intros d'' Hcr. eapply crash_may_hold; [|exact Hcr]. eapply may_hold_mono; [|exact Hs']. by left.
  - split; [done|congruence].
Qed.

Lemma done_poisoned temporary final contents encoded d d' e : settled d final contents -> moved temporary final encoded d d' ->
  runs (poisoned e d') (publication_done temporary final contents (Some encoded) d) (fun _ _ => False).
Proof.
  intros Hs [L M]. cbn. split; [by apply tidy_poisoned|]. split; [|done]. intros d'' Hcr.
  eapply crash_may_hold; [|exact Hcr]. specialize (M _ Hs). intros x Hx. exact (M x Hx).
Qed.

Lemma done_published temporary final contents encoded d d' : settled d final contents -> moved temporary final encoded d d' ->
  d_lost d' = d_lost d -> d_health d' = d_health d -> d_health d = true -> settled d' final (Some encoded) ->
  publication_done temporary final contents (Some encoded) d published d'.
Proof.
  intros Hs [L M] E1 E2 Hh Hs'. split; [split; [done|]; by rewrite E1, Hh|]. split.
  - intros d'' Hcr. eapply crash_may_hold; [by apply M|done].
  - split; [done|congruence].
Qed.

Lemma names_apart : kManifestTemporaryFilename <> kManifestFilename /\ kCompactionTemporaryFilename <> kCompactionIntentFilename /\
  kBootstrapTemporaryFilename <> kBootstrapIntentFilename.
Proof. split; [|split]; vm_compute; congruence. Qed.

Lemma encode_manifest_cases m : manifest_ok m ->
  encode_manifest m = Ok (manifest_bytes m) /\ manifest_valid m \/ encode_manifest m = Err invalid_argument.
Proof.
  intros Hok. destruct (validate_manifest_cases m invalid_argument Hok) as [[_ Hv]|[E _]].
  - left. split; [by apply encode_manifest_Ok|done].
  - right. unfold encode_manifest, encoded_manifest_size. by rewrite E.
Qed.
Lemma manifest_bytes_small m : manifest_ok m -> manifest_valid m -> zlen (manifest_bytes m) <= kMaximumOffset.
Proof.
  intros (Hs & _) Hv. rewrite zlen_manifest_bytes by done. pose proof (mv_count m Hv).
  unfold manifest_size, kMaximumManifestSegmentCount, kMaximumOffset in *. lia.
Qed.

Lemma manifest_size_returns m f : manifest_ok m -> encoded_manifest_size m <> Stuck f.
Proof.
  intros Hok. unfold encoded_manifest_size. destruct (validate_manifest_cases m invalid_argument Hok) as [[E Hv]|[E _]]; rewrite E; [|done].
  cbn [bindR]. rewrite manifest_size_Ok; [done|]. pose proof (zlen_nonneg (m_segments m)). split; [lia|apply Hv].
Qed.
Lemma encode_intent_cases intent : intent_ok intent ->
  encode_compaction_intent intent = Ok (intent_encoding intent) /\ intent_valid intent \/
  exists e, encode_compaction_intent intent = Err e.
Proof.
  intros Hok. destruct (validate_intent_cases intent Hok) as [[_ Hv]|(e & E & _)].
  - left. split; [by apply encode_intent_Ok|done].
  - right. exists e. unfold encode_compaction_intent, encoded_compaction_intent_size. by rewrite E.
Qed.

(** From an absent temporary to the end of a publication. *)
Lemma publish_from {R} temporary final encoded w s r (failed lost : ErrorCode -> Method Directory R) (early : ErrorCode -> Method Directory R)
    success d0 d ok err : temporary <> final -> zlen encoded <= kMaximumOffset -> calm [temporary] d0 d ->
  (forall e d', calm [temporary] d0 d' -> runs (early e d') ok err) ->
  (forall e d', calm [temporary] d0 d' -> runs (failed e d') ok err) ->
  (forall e d', moved temporary final encoded d0 d' -> runs (lost e d') ok err) ->
  (forall d', moved temporary final encoded d0 d' -> d_lost d' = d_lost d0 -> d_health d' = d_health d0 ->
     (d_lost d0 = false -> settled d' final (Some encoded)) -> ok success d') ->
  runs ((try! _ := unlink_named sys temporary otherwise e => early e in
         try! i := openat_new sys temporary otherwise e => early e in
         publish_as sys temporary final encoded w s r failed lost success i) d) ok err.
Proof.
  intros Hne Hmax Hc Hearly Hfail Hlost Hok.
  eapply runs_attempt; [apply unlink_named_spec| |]; cycle 1.
  { intros e d1 H1. apply Hearly. by eapply calm_trans. }
  intros _ d1 [H1 Habs]. assert (C1 : calm [temporary] d0 d1) by by eapply calm_trans.
  eapply runs_attempt; [apply openat_new_spec| |]; cycle 1.
  { intros e d2 H2. apply Hearly. by eapply calm_trans. }
  intros i d2 (H2 & -> & Hn & Hf). apply (publish_as_spec _ _ _ _ _ _ _ _ _ _ d0); try done; [by eapply calm_trans|apply C1].
Qed.

(** ** The manifest *)

Definition contents_ok (contents : option (list Z)) : Prop := forall bs, contents = Some bs -> bytes_ok bs.

Lemma manifest_bytes_ok m : bytes_ok (m_store_id m) -> bytes_ok (manifest_bytes m).
Proof.
  intros H. unfold manifest_bytes. apply Forall_app_2; [by apply manifest_front_ok|].
  apply Forall_app_2; [apply le_bytes_ok; lia|apply manifest_back_ok].
Qed.

Lemma settled_now d name contents : settled d name contents -> resolves d (d_names d !! name) contents.
Proof. intros H. destruct (H (d_names d)) as (x & Hr & ->); [by left|done]. Qed.

Lemma read_manifest_file_spec name max_bytes contents d : settled d name contents -> contents_ok contents ->
  runs (read_private_manifest_file sys name max_bytes d)
    (fun m d' => calm [] d d' /\ manifest_ok m /\ manifest_valid m /\ contents = Some (manifest_bytes m))
    (fun e d' => calm [] d d' /\ (e = not_found -> contents = None) /\
       (obliging -> forall m, manifest_ok m -> manifest_valid m -> contents = Some (manifest_bytes m) -> max_bytes < manifest_size m)).
Proof.
  intros Hs Hok. unfold read_private_manifest_file.
  eapply runs_bindM_err; [apply read_private_file_spec; [by apply settled_now|done]| |].
  - intros bs d' [-> Hc]. pose proof (decode_manifest_cases bs (Hok bs eq_refl)) as Hd.
    destruct (decode_manifest bs) as [m|e|] eqn:E; cbn; [|..|done].
    + destruct Hd as (? & ? & ->). done.
    + split; [done|]. split; [intros ->; destruct Hd as [?|[?|?]]; done|].
      intros _ m Hm Hv [= ->]. by rewrite decode_manifest_bytes in E.
  - intros e d' (Hc & He & Hob). split; [done|]. split; [done|]. intros Ho m Hm Hv Eb.
    specialize (Hob Ho _ Eb). rewrite zlen_manifest_bytes in Hob by apply Hm. pose proof (mv_count m Hv).
    pose proof (zlen_nonneg (m_segments m)).
    unfold manifest_size, kManifestHeaderBytes, kMaximumManifestBytes, kMaximumManifestSegmentCount in *.
    unfold kManifestHeaderBytes, kManifestSegmentEntryBytes in Hob. lia.
Qed.

Lemma publish_manifest_spec m max_bytes contents d : manifest_ok m -> d_health d = true -> d_lost d = false ->
  settled d kManifestFilename contents -> contents_ok contents ->
  runs (publish_manifest sys m max_bytes d)
    (fun p d' => publication_done kManifestTemporaryFilename kManifestFilename contents (Some (manifest_bytes m)) d p d' /\
       (pub_outcome p = outcome_durable \/ pub_outcome p = outcome_indeterminate -> manifest_valid m /\
          forall old, contents = Some (manifest_bytes old) -> manifest_ok old -> manifest_valid old ->
            m_manifest_generation old < m_manifest_generation m)) (fun _ _ => False).
Proof.
  intros Hok Hh Hl Hs Hcok. destruct names_apart as (Hne & _ & _). unfold publish_manifest. rewrite bindM_get, Hh. cbn [negb].
  set (post := fun p d' => _ /\ _).
  assert (Hun : forall e d', calm [kManifestTemporaryFilename] d d' -> runs (unchanged e d') post (fun _ _ => False)).
  { intros e d' Hc. split; [by apply (done_unchanged _ _ contents (Some (manifest_bytes m)) d d' e)|]. by intros [[=]|[=]]. }
  assert (Hun0 : forall e d', calm [] d d' -> runs (unchanged e d') post (fun _ _ => False)).
  { intros e d' Hc. apply Hun. eapply calm_mono; [|exact Hc]. set_solver. }
  destruct (encode_manifest_cases m Hok) as [[He Hv]|He]; rewrite He; [|by apply Hun, calm_refl].
  cbn [attempt liftM]. change (attempt (liftM (Ok ?x)) ?h ?k d) with (k x d). cbn beta.
  destruct (_ >? _); [by apply Hun, calm_refl|]. set (publish := attempt (unlink_named _ _) _ _).
  assert (Hpub : forall d1, calm [] d d1 -> (forall old, contents = Some (manifest_bytes old) -> manifest_ok old ->
    manifest_valid old -> m_manifest_generation old < m_manifest_generation m) -> runs (publish d1) post (fun _ _ => False)).
  { intros d1 C1 Hgen. apply (publish_from _ _ _ _ _ _ _ _ _ _ d); [done|by apply manifest_bytes_small| |done|..].
    - eapply calm_mono; [|exact C1]. set_solver.
    - intros e d' Hc. unfold ignoreM, bindM. pose proof (unlink_named_spec kManifestTemporaryFilename d') as Hu.
      destruct (unlink_named _ _ _) as [[[]|e'|f] d'']; cbn in Hu; [|..|done]; (apply Hun; eapply calm_trans; [exact Hc|apply Hu]).
    - intros e d' Hm. pose proof (done_poisoned _ _ contents (manifest_bytes m) d d' e Hs Hm) as Hp. split; [exact Hp|done].
    - intros d' Hm E1 E2 Hset. split; [apply done_published; auto|done]. }
  eapply runs_attempt; [unfold read_manifest, if_healthy; rewrite bindM_get, Hh; by apply read_manifest_file_spec| |].
  - intros current d1 (C1 & Hok' & Hv' & Ec). destruct (Z.leb_spec (m_manifest_generation m) (m_manifest_generation current)).
    + by apply Hun0.
    + apply Hpub; [done|]. intros old Eo Hoo Hvo. rewrite Ec in Eo. apply (inj Some) in Eo.
      pose proof (decode_manifest_bytes old Hoo Hvo) as D. rewrite <- Eo, decode_manifest_bytes in D by done. congruence.
  - intros e d1 (C1 & Hnf & _). case_bool_decide as E; [|by apply Hun0]. apply Hpub; [done|].
    intros old Eo. rewrite (Hnf E) in Eo. done.
Qed.

(** ** Intents *)

Lemma cleanup_spec N temporary d0 d : temporary ∈ N -> calm N d0 d -> runs (cleanup_temporary sys temporary d)
  (fun _ d' => calm N d0 d') (fun _ d' => leaves N d0 d').
Proof.
  intros Hin Hc. unfold cleanup_temporary. eapply runs_bindM_err; [apply unlink_named_spec| |].
  - intros _ d1 [H1 _]. assert (C1 : calm N d0 d1) by (eapply calm_trans; [exact Hc|]; eapply calm_mono; [|exact H1]; set_solver).
    eapply runs_weaken; [apply sync_directory_spec|..].
    + intros _ d2 (L2 & E1 & E2 & _). destruct C1 as (L1 & ? & ?). split; [|split; congruence].
      eapply leaves_trans; [exact L1|]. eapply leaves_mono; [|exact L2]. set_solver.
    + intros _ d2 [L2 _]. eapply leaves_trans; [apply C1|]. eapply leaves_mono; [|exact L2]. set_solver.
  - intros e d1 H1. eapply leaves_trans; [apply Hc|]. eapply leaves_mono; [|apply H1]. set_solver.
Qed.

Lemma leaves_moved temporary final encoded d0 d : temporary <> final -> leaves [temporary] d0 d -> moved temporary final encoded d0 d.
Proof.
  intros Hne L. split; [eapply leaves_mono; [|exact L]; set_solver|]. intros P HP.
  eapply may_hold_mono; [|eapply leaves_may_hold; [exact L| |exact HP]]; [by left|set_solver].
Qed.

Lemma publish_compaction_intent_spec intent max_bytes contents d : intent_ok intent -> d_health d = true -> d_lost d = false ->
  settled d kCompactionIntentFilename contents ->
  runs (publish_compaction_intent sys intent max_bytes d)
    (fun p d' => publication_done kCompactionTemporaryFilename kCompactionIntentFilename contents (Some (intent_encoding intent)) d p d' /\
       (pub_outcome p = outcome_durable \/ pub_outcome p = outcome_indeterminate -> intent_valid intent /\ contents = None))
    (fun _ _ => False).
Proof.
  intros Hok Hh Hl Hs. destruct names_apart as (_ & Hne & _). unfold publish_compaction_intent. rewrite bindM_get, Hh. cbn [negb].
  set (post := fun p d' => _ /\ _).
  assert (Hun : forall e d', calm [kCompactionTemporaryFilename] d d' -> runs (unchanged e d') post (fun _ _ => False)).
  { intros e d' Hc. split; [by apply (done_unchanged _ _ contents (Some (intent_encoding intent)) d d' e)|]. by intros [[=]|[=]]. }
  destruct (_ >? _); [by apply Hun, calm_refl|].
  destruct (encoded_manifest_size (i_old_manifest intent)) as [old_size| |] eqn:E1; [|by apply Hun, calm_refl|].
  2:{ exfalso. revert E1. apply manifest_size_returns, Hok. }
  change (attempt (liftM (Ok ?x)) ?h ?k d) with (k x d). cbn beta.
  destruct (encoded_manifest_size (i_next_manifest intent)) as [next_size| |] eqn:E2; [|by apply Hun, calm_refl|].
  2:{ exfalso. revert E2. apply manifest_size_returns, Hok. }
  change (attempt (liftM (Ok ?x)) ?h ?k d) with (k x d). cbn beta.
  destruct (encode_intent_cases intent Hok) as [[He Hv]|[e He]]; rewrite He; [|by apply Hun, calm_refl].
  change (attempt (liftM (Ok ?x)) ?h ?k d) with (k x d). cbn beta.
  destruct (orb _ _); [by apply Hun, calm_refl|].
  eapply runs_attempt; [apply again_fstatat_spec| |]; cycle 1.
  { intros e d' Hc. apply Hun. eapply calm_mono; [|exact Hc]. set_solver. }
  intros found d1 [Hfound C1]. assert (C1' : calm [kCompactionTemporaryFilename] d d1) by (eapply calm_mono; [|exact C1]; set_solver).
  destruct found; [by apply Hun|]. assert (contents = None) as ->.
  { pose proof (settled_now _ _ _ Hs) as Hr. destruct (d_names d !! _) as [i|]; [|by destruct contents].
    by assert (false = true) by (apply Hfound; by exists i). }
  apply (publish_from _ _ _ _ _ _ _ _ _ _ d); [done| |done|done|..].
  - rewrite zlen_intent_encoding by done. pose proof (intent_bounds _ Hv).
    unfold intent_size, kMaximumManifestBytes, kMaximumManifestSegmentCount, kManifestHeaderBytes, kManifestSegmentEntryBytes, kMaximumOffset in *. lia.
  - intros e d' Hc. eapply runs_attempt; [apply (cleanup_spec [kCompactionTemporaryFilename] _ d); [set_solver|done]| |].
    + intros u d2 C2. by apply Hun.
    + intros e' d2 L2. pose proof (done_poisoned _ _ None (intent_encoding intent) d d2 e' Hs (leaves_moved _ _ _ _ _ Hne L2)) as Hp.
      split; [exact Hp|done].
  - intros e d' Hm. pose proof (done_poisoned _ _ None (intent_encoding intent) d d' e Hs Hm) as Hp. split; [exact Hp|done].
  - intros d' Hm E3 E4 Hset. split; [apply done_published; auto|done].
Qed.

(** A removal: the name is gone, still there, or one of the two. *)
Lemma sync_removal_spec N name d0 d : leaves N d0 d -> d_lost d = d_lost d0 -> d_health d = d_health d0 -> d_health d0 = true ->
  d_lost d0 = false -> d_names d !! name = None ->
  runs (sync_removal sys d)
    (fun p d' => tidy N d0 d' /\ leaves [] d d' /\
       match pub_outcome p with
       | outcome_durable => d_health d' = true /\ settled d' name None
       | outcome_unchanged => False
       | outcome_indeterminate => d_health d' = false
       end) (fun _ _ => False).
Proof.
  intros L E1 E2 Hh Hl Hn. unfold sync_removal.
  eapply runs_attempt; [apply before_directory_spec| |]; cycle 1.
  { intros e d1 ->. split; [apply tidy_poisoned; eapply leaves_trans; [exact L|]; apply calm_count|].
    split; [|done]. destruct (calm_count [] d) as [Lc _]. by destruct Lc; split. }
  intros _ d1 ->. eapply runs_attempt; [apply sync_directory_spec| |].
  - intros u d2 (L2 & E3 & E4 & N2 & O2 & S2). cbn in *.
    assert (L2' : leaves [] d d2) by (eapply leaves_trans; [apply calm_count|exact L2]).
    split; [split; [eapply leaves_trans; [exact L|]; eapply leaves_mono; [|exact L2']; set_solver|]; intros _; split; congruence|].
    split; [done|]. split; [congruence|]. intros e He. rewrite S2 in He by congruence. apply list_elem_of_singleton in He as ->.
    exists None. by rewrite Hn.
  - intros e d2 [L2 _]. assert (L2' : leaves [] d d2) by (eapply leaves_trans; [apply calm_count|exact L2]).
    split; [apply tidy_poisoned; eapply leaves_trans; [exact L|]; eapply leaves_mono; [|exact L2']; set_solver|].
    split; [by destruct L2'; split|done].
Qed.

(** A name from which entries are only removed keeps what it held or is absent. *)
Definition only_removed (name : list Z) (d0 d : Directory) : Prop :=
  forall P, may_hold d0 name P -> may_hold d name (fun x => P x \/ x = None).

Lemma unlinkat_removed name d0 d : leaves [name] d0 d -> only_removed name d0 d ->
  runs (unlinkat sys name d)
    (fun x d' => leaves [name] d0 d' /\ d_lost d' = d_lost d /\ d_health d' = d_health d /\ only_removed name d0 d' /\ d_names d' !! name = None /\
       (x = false -> d' = count_dir_call d))
    (fun e d' => leaves [name] d0 d' /\ only_removed name d0 d').
Proof.
  intros L R. unfold unlinkat.
  assert (Hcount : forall P, may_hold d name P -> may_hold (count_dir_call d) name P) by done.
  destruct (d_names d !! name) as [i|] eqn:Hi; unfold name_call.
  - set (d1 := set_names _ _). assert (H1 : leaves [name] d0 d1 /\ only_removed name d0 d1).
    { split.
      - eapply leaves_trans; [exact L|]. eapply leaves_trans; [apply (calm_count [name])|]. apply calm_set_names;
          [intros n Hn; apply lookup_delete_ne; set_solver|]. intros n j [_ Hj]%lookup_delete_Some. by eauto.
      - intros P HP e [->|He]%elem_of_cons.
        + exists None. split; [|by right]. unfold d1. cbn [set_names d_names]. by rewrite lookup_delete_eq.
        + exact (R P HP e He). }
    destruct (ds_name _ _) as [|[] errno]; cbn [runs].
    + split; [apply H1|]. do 2 (split; [done|]). split; [apply H1|]. split; [apply lookup_delete_eq|done].
    + exact H1.
    + split; [eapply leaves_trans; [exact L|apply calm_count]|exact R].
  - assert (H1 : leaves [name] d0 (count_dir_call d)) by (eapply leaves_trans; [exact L|apply calm_count]).
    destruct (ds_name _ _) as [|[] errno]; cbn [runs]; [|by split..]. by split.
Qed.

Lemma leaves_poison N d0 d : leaves N d0 d -> leaves N d0 (poison_directory d).
Proof. intros []. by split. Qed.

Lemma remove_compaction_intent_spec contents d : d_health d = true -> d_lost d = false ->
  settled d kCompactionIntentFilename contents ->
  runs (remove_compaction_intent sys d)
    (publication_done kCompactionTemporaryFilename kCompactionIntentFilename contents None d) (fun _ _ => False).
Proof.
  intros Hh Hl Hs. destruct names_apart as (_ & Hne & _). unfold remove_compaction_intent. rewrite bindM_get, Hh. cbn [negb].
  set (final := kCompactionIntentFilename) in *. set (temporary := kCompactionTemporaryFilename) in *.
  assert (Hpois : forall e d1 d', calm [temporary] d d1 -> leaves [final] d1 d' -> only_removed final d1 d' ->
    runs (poisoned e d') (publication_done temporary final contents None d) (fun _ _ => False)).
  { intros e d1 d' [L1 _] L R. cbn. split; [apply tidy_poisoned; eapply leaves_trans;
      [eapply leaves_mono; [|exact L1]|eapply leaves_mono; [|exact L]]; set_solver|]. split; [|done].
    intros d'' Hcr. eapply crash_may_hold; [|exact Hcr]. intros x Hx.
    assert (H1 : settled d1 final contents) by (eapply leaves_may_hold; [exact L1|set_solver|done]). exact (R _ H1 x Hx). }
  eapply runs_attempt; [apply unlink_named_spec| |]; cycle 1.
  { intros e d1 H1. apply (Hpois e d1); [done|apply leaves_refl|]. intros P HP. eapply may_hold_mono; [|exact HP]. by left. }
  intros _ d1 [C1 _]. eapply runs_attempt; [apply before_directory_spec| |].
  2:{ intros e d2 ->. apply done_unchanged; [done..| |done]. by apply calm_after_count. }
  intros _ d2 ->. set (d2 := count_dir_call d1). assert (C2 : calm [temporary] d d2) by by apply calm_after_count.
  assert (R2 : only_removed final d2 d2) by (intros P HP; eapply may_hold_mono; [|exact HP]; by left).
  assert (H2 : settled d2 final contents) by (eapply leaves_may_hold; [apply C2|set_solver|done]).
  eapply runs_attempt; [apply (unlinkat_removed final d2 d2); [apply leaves_refl|done]| |].
  2:{ intros e d3 [L3 R3]. by apply (Hpois e d2). }
  intros removed d3 (L3 & E3 & E3' & R3 & N3 & F3). destruct C2 as (L2 & E2 & E2').
  destruct removed; cbn [negb].
  2:{ rewrite (F3 eq_refl). apply done_unchanged; [done..| |done]. apply calm_after_count. by split. }
  assert (L3' : leaves [temporary; final] d d3).
  { eapply leaves_trans; [eapply leaves_mono; [|exact L2]|eapply leaves_mono; [|exact L3]]; set_solver. }
  eapply runs_weaken; [apply (sync_removal_spec [temporary; final] final d d3); congruence| |done].
  intros p d4 (T4 & L4 & Ho). assert (H4 : may_hold d4 final (fun x => x = contents \/ x = None)).
  { eapply leaves_may_hold; [exact L4|set_solver|]. exact (R3 _ H2). }
  split; [done|]. split; [intros d'' Hcr; by eapply crash_may_hold|]. destruct (pub_outcome p); [|done..]. by destruct Ho.
Qed.

(** ** Removing files *)

(** Operations that only remove names of [N]. *)
Lemma unlinkat_in N name d0 d : name ∈ N -> calm N d0 d ->
  runs (unlinkat sys name d) (fun _ d' => calm N d0 d') (fun _ d' => calm N d0 d').
Proof.
  intros Hin Hc. assert (Hm : forall d', calm [name] d d' -> calm N d0 d').
  { intros d' H. eapply calm_trans; [exact Hc|]. eapply calm_mono; [|exact H]. set_solver. }
  eapply runs_weaken; [apply unlinkat_spec|..]; [intros x d' [H _]; by apply Hm|intros e d' H; by apply Hm].
Qed.

Definition segment_names (store_id : list Z) (segments : list ManifestSegmentEntry) : list (list Z) :=
  flat_map (fun entry => let identity := mkIdentity store_id (me_segment_id entry) (me_generation entry) (me_owner_worker entry) in
    [temporary_filename identity; segment_filename identity]) segments.

Lemma retire_loop_spec store_id segments all removed_any d0 d : segment_names store_id segments ⊆ all -> calm all d0 d ->
  runs (retire_loop sys store_id segments removed_any d)
    (fun stopped d' => match stopped with
       | None => calm all d0 d'
       | Some p => tidy all d0 d' /\ pub_outcome p <> outcome_durable
       end) (fun _ _ => False).
Proof.
  revert removed_any d. induction segments as [|entry segments IH]; intros removed_any d Hsub Hc; [exact Hc|].
  cbn [retire_loop]. set (identity := mkIdentity _ _ _ _). change (segment_names store_id (entry :: segments)) with
    (temporary_filename identity :: segment_filename identity :: segment_names store_id segments) in Hsub.
  assert (Hpois : forall e d', calm all d0 d' -> runs ((let! p := poisoned e in retM (Some p)) d')
    (fun stopped d' => match stopped with None => calm all d0 d' | Some p => tidy all d0 d' /\ pub_outcome p <> outcome_durable end)
    (fun _ _ => False)).
  { intros e d' [L _]. cbn. split; [by apply tidy_poisoned|done]. }
  eapply runs_attempt; [apply before_directory_spec| |].
  2:{ intros e d1 ->. apply calm_after_count in Hc. destruct removed_any; [by apply Hpois|]. cbn. split; [by apply calm_tidy|done]. }
  intros _ d1 ->. eapply runs_attempt; [apply (unlinkat_in all _ d0); [set_solver|by apply calm_after_count]| |by apply Hpois].
  intros removed_identity d2 C2. eapply runs_attempt; [apply (unlinkat_in all _ d0); [set_solver|exact C2]| |by apply Hpois].
  intros removed d3 C3. destruct (_ && _); apply IH; set_solver.
Qed.

Lemma retire_spec store_id segments d : d_health d = true -> d_lost d = false ->
  runs (retire_compaction_segments sys store_id segments d)
    (fun p d' => tidy (segment_names store_id segments) d d' /\
       match pub_outcome p with outcome_durable => d_health d' = true | _ => True end) (fun _ _ => False).
Proof.
  intros Hh Hl. unfold retire_compaction_segments. rewrite bindM_get, Hh. cbn [negb].
  eapply runs_bindM; [apply (retire_loop_spec _ _ (segment_names store_id segments) _ d); [done|apply calm_refl]|].
  intros [p|] d1 H1; [destruct H1 as [? ?]; cbn; split; [done|by destruct (pub_outcome p)]|]. destruct H1 as (L & E1 & E2).
  unfold sync_removal. eapply runs_attempt; [apply before_directory_spec| |].
  2:{ intros e d2 ->. cbn. split; [apply tidy_poisoned; eapply leaves_trans; [exact L|apply calm_count]|done]. }
  intros _ d2 ->. eapply runs_attempt; [apply sync_directory_spec| |].
  - intros u d3 (L3 & E3 & E4 & _). cbn in *. split; [split|congruence]; [|intros _; split; congruence].
    eapply leaves_trans; [exact L|]. eapply leaves_trans; [apply (calm_count)|]. eapply leaves_mono; [|exact L3]. set_solver.
  - intros e d3 [L3 _]. cbn. split; [|done]. apply tidy_poisoned. eapply leaves_trans; [exact L|].
    eapply leaves_trans; [apply (calm_count)|]. eapply leaves_mono; [|exact L3]. set_solver.
Qed.

(** The names cleaning may touch. *)
Definition is_temporary (name : list Z) : bool :=
  bool_decide (name = kManifestTemporaryFilename) || bool_decide (name = kCompactionTemporaryFilename) ||
  match parse_segment_filename name with Ok parsed => pn_temporary parsed | _ => false end.

Lemma check_temporaries_spec files d0 d : linked d0 -> calm [] d0 d ->
  runs (check_temporaries sys files d)
    (fun _ d' => calm [] d0 d' /\ Forall (fun name => is_temporary name = true) files) (fun _ d' => calm [] d0 d').
Proof.
  intros Hlk. revert d. induction files as [|name files IH]; intros d Hc; [by split|]. cbn [check_temporaries].
  fold (is_temporary name). destruct (is_temporary name) eqn:Ht; cbn [negb]; [|exact Hc].
  eapply runs_bindM_err; [apply openat_existing_spec| |].
  2:{ intros e d' ([calls ->] & _). by apply calm_after_recount. }
  intros target d1 (-> & calls & ->). apply (calm_after_recount _ _ _ calls) in Hc.
  destruct (d_names d !! name) as [i|] eqn:Hi; [|exact Hc].
  assert (Hn : exists n, d_nodes (recount calls d) !! i = Some n).
  { apply lookup_lt_is_Some_2. eapply (lv_linked _ _ _ (proj1 Hc) Hlk); [by left|exact Hi]. }
  destruct Hn as [n Hn]. unfold validate_private_regular_file. rewrite bindM_assoc.
  eapply runs_bindM_err; [by apply descriptor_stat_spec| |].
  2:{ intros e d' (-> & _). by apply calm_after_count. }
  intros st d2 [_ ->]. apply calm_after_count in Hc. destruct (orb _ _); [exact Hc|]. rewrite bindM_ret.
  eapply runs_weaken; [by apply IH| |done]. intros u d3 [C3 F3]. split; [done|by constructor].
Qed.

Lemma remove_temporaries_spec files N removed_any d0 d : files ⊆ N -> calm N d0 d ->
  runs (remove_temporaries sys files removed_any d) (fun _ d' => calm N d0 d') (fun _ d' => tidy N d0 d').
Proof.
  revert removed_any d. induction files as [|name files IH]; intros removed_any d Hsub Hc; [exact Hc|]. cbn [remove_temporaries].
  assert (Hp : forall e d', calm N d0 d' -> runs ((modifyM poison_directory ;;! failM e) d') (fun (_ : unit) d' => calm N d0 d')
    (fun _ d' => tidy N d0 d')) by (intros e d' [L _]; by apply tidy_poisoned).
  eapply runs_attempt; [apply before_directory_spec| |].
  2:{ intros e d1 ->. apply calm_after_count in Hc. destruct removed_any; [by apply Hp|]. by apply calm_tidy. }
  intros _ d1 ->. eapply runs_attempt; [apply (unlinkat_in N _ d0); [set_solver|by apply calm_after_count]| |by apply Hp].
  intros removed d2 C2. destruct removed; cbn [negb]; [apply IH; [set_solver|done]|by apply Hp].
Qed.

Lemma final_sync_spec N d0 d : calm N d0 d -> d_health d0 = true -> d_lost d0 = false ->
  runs ((try! _ := before_directory sys fs_sync_directory otherwise e => (modifyM poison_directory ;;! failM e) in
         try! _ := sync_directory sys otherwise e => (modifyM poison_directory ;;! failM e) in retM tt) d)
    (fun _ d' => tidy N d0 d' /\ d_health d' = true /\ d_lost d' = false /\ d_names d' = d_names d /\ states d' = [d_names d] /\
       leaves [] d d')
    (fun _ d' => tidy N d0 d' /\ d_health d' = false /\ leaves [] d d').
Proof.
  intros (L & E1 & E2) Hh Hl. eapply runs_attempt; [apply before_directory_spec| |].
  2:{ intros e d1 ->. cbn. split; [apply tidy_poisoned; eapply leaves_trans; [exact L|apply calm_count]|].
      split; [done|]. apply leaves_poison, calm_count. }
  intros _ d1 ->. eapply runs_attempt; [apply sync_directory_spec| |].
  - intros u d3 (L3 & E3 & E4 & N3 & _ & S3). cbn in *. assert (L3' : leaves [] d d3) by (eapply leaves_trans; [apply calm_count|exact L3]).
    split; [split; [eapply leaves_trans; [exact L|]; eapply leaves_mono; [|exact L3']; set_solver|]; intros _; split; congruence|].
    split; [congruence|]. split; [congruence|]. split; [done|]. split; [apply S3; congruence|done].
  - intros e d3 [L3 _]. assert (L3' : leaves [] d d3) by (eapply leaves_trans; [apply calm_count|exact L3]). cbn.
    split; [apply tidy_poisoned; eapply leaves_trans; [exact L|]; eapply leaves_mono; [|exact L3']; set_solver|].
    split; [done|by apply leaves_poison].
Qed.

Lemma cleanup_temporaries_spec files d : d_health d = true -> d_lost d = false -> linked d ->
  runs (cleanup_recovery_temporaries sys files d)
    (fun _ d' => tidy (List.filter is_temporary files) d d' /\ d_health d' = true)
    (fun _ d' => tidy (List.filter is_temporary files) d d').
Proof.
  intros Hh Hl Hlk. unfold cleanup_recovery_temporaries, if_healthy. rewrite bindM_get, Hh. cbn [negb].
  destruct files as [|name rest]; [split; [apply calm_tidy, calm_refl|done]|]. set (files := name :: rest).
  eapply runs_bindM_err; [apply (check_temporaries_spec _ d); [done|apply calm_refl]| |].
  2:{ intros e d' Hc. apply calm_tidy. eapply calm_mono; [|exact Hc]. set_solver. }
  intros u d1 [C1 F1]. assert (Hfil : List.filter is_temporary files = files).
  { clear -F1. induction F1 as [|x l Hx _ IH]; [done|]. cbn. by rewrite Hx, IH. }
  rewrite Hfil. eapply runs_bindM_err; [apply (remove_temporaries_spec files files _ d); [done|]| |done].
  { eapply calm_mono; [|exact C1]. set_solver. }
  intros v d2 C2. eapply runs_weaken; [by apply (final_sync_spec files d)|..].
  - intros x d3 (T & H & _). by split.
  - intros e d3 [T _]. exact T.
Qed.

(** ** Bootstrap *)

Lemma tidy_may_hold N d d' name contents : tidy N d d' -> name ∉ N -> settled d name contents -> settled d' name contents.
Proof. intros [L _]. by apply leaves_may_hold. Qed.

Lemma publish_bootstrap_intent_spec m max_bytes contents d : manifest_ok m -> d_health d = true -> d_lost d = false ->
  settled d kBootstrapIntentFilename contents ->
  runs (publish_bootstrap_intent sys m max_bytes d)
    (fun _ d' => tidy [kBootstrapTemporaryFilename; kBootstrapIntentFilename] d d' /\ d_health d' = true /\
       settled d' kBootstrapIntentFilename (Some (manifest_bytes m)) /\ contents = None /\ manifest_valid m)
    (fun _ d' => tidy [kBootstrapTemporaryFilename; kBootstrapIntentFilename] d d' /\
       (d_health d' = true -> settled d' kBootstrapIntentFilename contents) /\
       may_hold d' kBootstrapIntentFilename (fun x => x = contents \/ x = Some (manifest_bytes m))).
Proof.
  intros Hok Hh Hl Hs. destruct names_apart as (_ & _ & Hne). unfold publish_bootstrap_intent, if_healthy. rewrite bindM_get, Hh. cbn [negb].
  set (final := kBootstrapIntentFilename) in *. set (temporary := kBootstrapTemporaryFilename) in *.
  set (ok := fun _ _ => _). set (err := fun _ _ => tidy _ _ _ /\ _ /\ _).
  assert (Hun : forall e d', calm [temporary] d d' -> err e d').
  { intros e d' Hc. assert (Hs' : settled d' final contents) by (eapply leaves_may_hold; [apply Hc|set_solver|done]).
    split; [apply calm_tidy; eapply calm_mono; [|exact Hc]; set_solver|]. split; [done|].
    eapply may_hold_mono; [|exact Hs']. by left. }
  assert (Hpois : forall e d', moved temporary final (manifest_bytes m) d d' -> err e (poison_directory d')).
  { intros e d' [L M]. split; [by apply tidy_poisoned|]. split; [done|]. exact (M _ Hs). }
  destruct (encode_manifest_cases m Hok) as [[He Hv]|He]; rewrite He; [|by apply (Hun io_error d), calm_refl].
  rewrite bindM_lift. destruct (_ >? _); [by apply (Hun io_error d), calm_refl|].
  eapply runs_bindM_err; [apply fstatat_spec| |].
  2:{ intros e d' Hc. apply Hun. eapply calm_mono; [|exact Hc]. set_solver. }
  intros found d1 [Hfound C1]. assert (C1' : calm [temporary] d d1) by (eapply calm_mono; [|exact C1]; set_solver).
  destruct found; [by apply (Hun io_error d1)|]. assert (contents = None) as ->.
  { pose proof (settled_now _ _ _ Hs) as Hr. fold final in Hr. destruct (d_names d !! final) as [i|]; [|by destruct contents].
    by assert (false = true) by (apply Hfound; by exists i). }
  apply (publish_from temporary final (manifest_bytes m) _ _ _ _ _ (fun e => failM e) tt d); try done; [by apply manifest_bytes_small|..].
  - intros e d' Hc. eapply runs_attempt; [apply (cleanup_spec [temporary] _ d); [set_solver|done]| |].
    + intros u d2 C2. by apply (Hun io_error d2).
    + intros e' d2 L2. apply (Hpois e' d2). by apply leaves_moved.
  - intros d' Hm E1 E2 Hset. split; [split; [apply Hm|]; intros _; split; congruence|]. split; [congruence|]. auto.
Qed.

Lemma finish_bootstrap_spec contents d : d_health d = true -> d_lost d = false -> settled d kBootstrapIntentFilename contents ->
  runs (finish_bootstrap sys d)
    (fun _ d' => tidy [kBootstrapIntentFilename] d d' /\ d_health d' = true /\ settled d' kBootstrapIntentFilename None)
    (fun _ d' => leaves [kBootstrapIntentFilename] d d' /\ may_hold d' kBootstrapIntentFilename (fun x => x = contents \/ x = None)).
Proof.
  intros Hh Hl Hs. unfold finish_bootstrap, if_healthy. rewrite bindM_get, Hh. cbn [negb]. set (name := kBootstrapIntentFilename) in *.
  assert (Hheld : forall d', leaves [name] d d' -> only_removed name d d' -> may_hold d' name (fun x => x = contents \/ x = None)).
  { intros d' _ R. exact (R _ Hs). }
  assert (Hkeep : only_removed name d (count_dir_call d)) by (intros P HP; eapply may_hold_mono; [|exact HP]; by left).
  eapply runs_bindM_err; [apply before_directory_spec| |].
  2:{ intros e d' ->. split; [apply calm_count|]. by apply Hheld; [apply calm_count|]. }
  intros _ d1 ->. eapply runs_bindM_err; [apply (unlinkat_removed name d); [apply calm_count|done]| |].
  2:{ intros e d' [L R]. auto. }
  intros removed d1 (L1 & E1 & E2 & R1 & N1 & _). destruct removed; cbn [negb]; [|cbn; auto].
  eapply runs_weaken; [apply (final_sync_spec [name] d d1); [split; [done|by split]|done|done]|..].
  - intros _ d2 (T & H2 & _ & E & S2 & L2). split; [done|]. split; [done|]. intros e He. rewrite S2 in He.
    apply list_elem_of_singleton in He as ->. exists None. by rewrite N1.
  - intros e d2 ([L _] & _ & L2). split; [done|].
    eapply leaves_may_hold; [exact L2|set_solver|by apply Hheld].
Qed.
End calls.
