(* ===== verification/DirectoryHistory.v ===== *)
(** * Histories of a data directory

    Publications, removals, cleaning and power failures in any order, with any
    answers of the operating system.  What a restart finds under the name of the
    manifest is a manifest that was given to be published, and none older than the
    last one reported as durable; the intent it finds, if any, is one that was given. *)

From stdpp Require Import gmap.
From S2P Require Import Prelude Core Crc32c Record SegmentHeader Segment Routing Manifest Compaction CompactionIntent File SegmentFile Namespace Directory DirectorySpec.

(** ** What else the operations leave alone *)

Section frames.
Variable sys : DirectorySystem.

Definition bootstrap_names : list (list Z) := [kBootstrapTemporaryFilename; kBootstrapIntentFilename].

Lemma publish_bootstrap_frame m max_bytes d : manifest_ok m -> d_health d = true -> d_lost d = false ->
  runs (publish_bootstrap_intent sys m max_bytes d) (fun _ d' => tidy bootstrap_names d d') (fun _ d' => tidy bootstrap_names d d').
Proof.
  intros Hok Hh Hl. destruct names_apart as (_ & _ & Hne). unfold publish_bootstrap_intent, if_healthy. rewrite bindM_get, Hh. cbn [negb].
  assert (Hc : forall d', calm [kBootstrapTemporaryFilename] d d' -> tidy bootstrap_names d d').
  { intros d' Hc. apply calm_tidy. eapply calm_mono; [|exact Hc]. set_solver. }
  destruct (encode_manifest_cases m Hok) as [[He Hv]|He]; rewrite He; [|apply Hc, calm_refl].
  rewrite bindM_lift. destruct (_ >? _); [apply Hc, calm_refl|].
  eapply runs_bindM_err; [apply fstatat_spec| |].
  2:{ intros e d' H. apply Hc. eapply calm_mono; [|exact H]. set_solver. }
  intros found d1 [_ C1]. assert (C1' : calm [kBootstrapTemporaryFilename] d d1) by (eapply calm_mono; [|exact C1]; set_solver).
  destruct found; [by apply Hc|].
  apply (publish_from sys kBootstrapTemporaryFilename kBootstrapIntentFilename (manifest_bytes m) _ _ _ _ _ (fun e => failM e) tt d);
    [done|by apply manifest_bytes_small|done|..].
  - intros e d' H. by apply Hc.
  - intros e d' H. eapply runs_attempt; [apply (cleanup_spec sys [kBootstrapTemporaryFilename] _ d); [set_solver|done]| |].
    + intros u d2 C2. by apply Hc.
    + intros e' d2 L2. apply tidy_poisoned. eapply leaves_mono; [|exact L2]. set_solver.
  - intros e d' [L _]. by apply tidy_poisoned.
  - intros d' [L _] E1 E2 _. split; [done|]. intros _. split; congruence.
Qed.

Lemma finish_bootstrap_frame d : d_health d = true -> d_lost d = false ->
  runs (finish_bootstrap sys d) (fun _ d' => tidy bootstrap_names d d') (fun _ d' => tidy bootstrap_names d d').
Proof.
  intros Hh Hl. unfold finish_bootstrap, if_healthy. rewrite bindM_get, Hh. cbn [negb].
  eapply runs_bindM_err; [apply before_directory_spec| |].
  2:{ intros e d' ->. apply calm_tidy, calm_count. }
  intros _ d1 ->. eapply runs_bindM_err; [apply (unlinkat_in sys bootstrap_names _ d); [set_solver|apply calm_count]| |].
  2:{ intros e d' H. by apply calm_tidy. }
  intros removed d1 C1. destruct removed; cbn [negb]; [|by apply calm_tidy].
  eapply runs_weaken; [by apply (final_sync_spec sys bootstrap_names d d1)|..].
  - intros u d2 H. apply H.
  - intros e d2 H. apply H.
Qed.
End frames.

(** ** Histories *)

(** The directory, the last manifest reported as durable, and everything that was
    given to be published. *)
Record History := mkHistory {
  h_directory : Directory;
  h_durable : option Manifest;
  h_manifests : list Manifest;
  h_intents : list DurableCompactionIntent
}.

(** One call, with any operating system, or a power failure and restart. *)
Inductive happens (h : History) : History -> Prop :=
| happens_publish_manifest sys m max_bytes p d' : manifest_ok m ->
    publish_manifest sys m max_bytes (h_directory h) = (Ok p, d') ->
    happens h (mkHistory d' (match pub_outcome p with outcome_durable => Some m | _ => h_durable h end)
                 (m :: h_manifests h) (h_intents h))
| happens_publish_intent sys intent max_bytes p d' : intent_ok intent ->
    publish_compaction_intent sys intent max_bytes (h_directory h) = (Ok p, d') ->
    happens h (mkHistory d' (h_durable h) (h_manifests h) (intent :: h_intents h))
| happens_remove_intent sys p d' :
    remove_compaction_intent sys (h_directory h) = (Ok p, d') ->
    happens h (mkHistory d' (h_durable h) (h_manifests h) (h_intents h))
| happens_retire sys store_id segments p d' :
    retire_compaction_segments sys store_id segments (h_directory h) = (Ok p, d') ->
    happens h (mkHistory d' (h_durable h) (h_manifests h) (h_intents h))
| happens_cleanup sys files r d' :
    cleanup_recovery_temporaries sys files (h_directory h) = (r, d') ->
    happens h (mkHistory d' (h_durable h) (h_manifests h) (h_intents h))
| happens_publish_bootstrap sys m max_bytes r d' : manifest_ok m ->
    publish_bootstrap_intent sys m max_bytes (h_directory h) = (r, d') ->
    happens h (mkHistory d' (h_durable h) (h_manifests h) (h_intents h))
| happens_finish_bootstrap sys r d' :
    finish_bootstrap sys (h_directory h) = (r, d') ->
    happens h (mkHistory d' (h_durable h) (h_manifests h) (h_intents h))
| happens_crash d' : crash (h_directory h) d' ->
    happens h (mkHistory d' (h_durable h) (h_manifests h) (h_intents h)).

(** What may be found under the name of the manifest, and under that of the intent. *)
Definition manifest_found (durable : option Manifest) (given : list Manifest) (contents : option (list Z)) : Prop :=
  match contents with
  | None => durable = None
  | Some bs => exists m, m ∈ given /\ manifest_ok m /\ manifest_valid m /\ bs = manifest_bytes m /\
      forall a, durable = Some a -> m_manifest_generation a <= m_manifest_generation m
  end.
Definition intent_found (given : list DurableCompactionIntent) (contents : option (list Z)) : Prop :=
  forall bs, contents = Some bs -> exists i, i ∈ given /\ intent_ok i /\ intent_valid i /\ bs = intent_encoding i.

(** While the directory is healthy the contents of [name] are certain; a restart
    finds contents that satisfy [P]. *)
Definition tracked (d : Directory) (name : list Z) (P : option (list Z) -> Prop) : Prop :=
  (d_health d = true -> exists contents, P contents /\ settled d name contents) /\
  forall d', crash d d' -> may_hold d' name P.

Record history_ok (h : History) : Prop := {
  ho_linked : linked (h_directory h);
  ho_lost : d_health (h_directory h) = true -> d_lost (h_directory h) = false;
  ho_manifest : tracked (h_directory h) kManifestFilename (manifest_found (h_durable h) (h_manifests h));
  ho_intent : tracked (h_directory h) kCompactionIntentFilename (intent_found (h_intents h))
}.

Lemma tracked_settled d name contents (P : option (list Z) -> Prop) : P contents -> settled d name contents -> tracked d name P.
Proof.
  intros HP Hs. split; [eauto|]. intros d' Hc. eapply crash_may_hold; [|exact Hc]. eapply may_hold_mono; [|exact Hs]. by intros x ->.
Qed.

Lemma tracked_mono d name (P Q : option (list Z) -> Prop) : (forall x, P x -> Q x) -> tracked d name P -> tracked d name Q.
Proof.
  intros HPQ [H1 H2]. split; [intros Hh; destruct (H1 Hh) as (c & ? & ?); eauto|]. intros d' Hc. eapply may_hold_mono; eauto.
Qed.

Lemma tracked_leaves N d d' name P : d_health d = true -> leaves N d d' -> name ∉ N -> tracked d name P -> tracked d' name P.
Proof.
  intros Hh L Hn [H _]. destruct (H Hh) as (c & HP & Hs). apply (tracked_settled _ _ c); [done|]. by eapply leaves_may_hold.
Qed.

Lemma may_hold_single d name P : d_past d = [] -> may_hold d name P -> exists contents, P contents /\ settled d name contents.
Proof.
  intros Hp H. destruct (H (d_names d)) as (c & Hr & HP); [by left|]. exists c. split; [done|].
  intros e He. unfold states in He. rewrite Hp in He. apply list_elem_of_singleton in He as ->. eauto.
Qed.

Lemma tracked_crash d d' name P : crash d d' -> tracked d name P -> tracked d' name P.
Proof.
  intros Hc [_ H]. destruct (may_hold_single d' name P (cr_past _ _ Hc) (H _ Hc)) as (c & HP & Hs). by apply (tracked_settled _ _ c).
Qed.

Lemma tracked_done temporary final contents target d p d' (P : option (list Z) -> Prop) :
  publication_done temporary final contents target d p d' ->
  (pub_outcome p <> outcome_durable -> P contents) -> (pub_outcome p <> outcome_unchanged -> P target) -> tracked d' final P.
Proof.
  intros (_ & Hcr & Ho) H1 H2. destruct (pub_outcome p).
  - eapply tracked_settled; [|apply Ho]. by apply H2.
  - eapply tracked_settled; [|apply Ho]. by apply H1.
  - split; [congruence|]. intros d'' Hc. eapply may_hold_mono; [|by apply Hcr]. intros x [-> | ->]; auto.
Qed.

(** ** Every operation keeps the invariant *)

(** Operations that touch neither name. *)
Lemma history_ok_frame N h d' : history_ok h -> d_health (h_directory h) = true -> tidy N (h_directory h) d' ->
  kManifestFilename ∉ N -> kCompactionIntentFilename ∉ N ->
  history_ok (mkHistory d' (h_durable h) (h_manifests h) (h_intents h)).
Proof.
  intros [Hlk Hl Hm Hi] Hh [L T] N1 N2. split; cbn.
  - by apply L.
  - intros H. destruct (T H) as [_ ->]. auto.
  - by eapply tracked_leaves.
  - by eapply tracked_leaves.
Qed.

Lemma segment_names_apart store_id segments : kManifestFilename ∉ segment_names store_id segments /\
  kCompactionIntentFilename ∉ segment_names store_id segments.
Proof.
  unfold segment_names. split; intros (entry & _ & H)%list_elem_of_In%in_flat_map; destruct H as [H|[H|[]]]; discriminate H.
Qed.

Lemma temporaries_apart files : kManifestFilename ∉ List.filter is_temporary files /\
  kCompactionIntentFilename ∉ List.filter is_temporary files.
Proof.
  split; intros [_ H]%list_elem_of_In%List.filter_In; revert H; (replace (is_temporary _) with false; [done|vm_compute; reflexivity]).
Qed.

Lemma not_in_two {A} (x a b : A) : x <> a -> x <> b -> x ∉ [a; b].
Proof. set_solver. Qed.
Lemma publication_names : kCompactionIntentFilename ∉ [kManifestTemporaryFilename; kManifestFilename] /\
  kManifestFilename ∉ [kCompactionTemporaryFilename; kCompactionIntentFilename] /\
  kManifestFilename ∉ bootstrap_names /\ kCompactionIntentFilename ∉ bootstrap_names.
Proof. split_and!; apply not_in_two; discriminate. Qed.

(** A poisoned directory answers and changes nothing. *)
Lemma unhealthy_still {A} (m : Method Directory A) d : d_health d = false -> if_healthy m d = (Err io_error, d).
Proof. intros H. unfold if_healthy. by rewrite bindM_get, H. Qed.

Lemma found_more durable m given x : manifest_found durable given x -> manifest_found durable (m :: given) x.
Proof.
  destruct x as [bs|]; [|done]. intros (m' & H & ?). exists m'. split; [by right|done].
Qed.
Lemma intent_found_more i given x : intent_found given x -> intent_found (i :: given) x.
Proof. intros H bs E. destruct (H bs E) as (i' & ? & ?). exists i'. split; [by right|done]. Qed.

Lemma history_ok_given h m i : history_ok h ->
  history_ok (mkHistory (h_directory h) (h_durable h) (option_list m ++ h_manifests h) (option_list i ++ h_intents h)).
Proof.
  intros [Hlk Hl Hm Hi]. split; [done|done|..]; cbn.
  - eapply tracked_mono; [|exact Hm]. intros x. destruct m; [apply found_more|done].
  - eapply tracked_mono; [|exact Hi]. intros x. destruct i; [apply intent_found_more|done].
Qed.

Lemma found_bytes_ok durable given contents : manifest_found durable given contents -> contents_ok contents.
Proof.
  destruct contents as [bs|]; [|done]. intros (m & _ & (_ & Hb & _) & _ & -> & _) bs' [= <-].
  by apply manifest_bytes_ok.
Qed.

Lemma publish_manifest_keeps sys m max_bytes h p d' : history_ok h -> manifest_ok m ->
  publish_manifest sys m max_bytes (h_directory h) = (Ok p, d') ->
  history_ok (mkHistory d' (match pub_outcome p with outcome_durable => Some m | _ => h_durable h end)
                (m :: h_manifests h) (h_intents h)).
Proof.
  intros Hh Hok E. destruct (d_health (h_directory h)) eqn:Hhe; cycle 1.
  { unfold publish_manifest in E. rewrite bindM_get, Hhe in E. cbn in E. injection E as <- <-. apply (history_ok_given h (Some m) None Hh). }
  destruct Hh as [Hlk Hl Hm Hi]. destruct (proj1 Hm Hhe) as (c & Hc & Hs).
  pose proof (publish_manifest_spec sys m max_bytes c _ Hok Hhe (Hl Hhe) Hs (found_bytes_ok _ _ _ Hc)) as H.
  rewrite E in H. cbn in H. destruct H as [Hd Hgen]. pose proof Hd as ([L T] & _ & _). split; cbn.
  - by apply L.
  - intros H. destruct (T H) as [_ ->]. auto.
  - eapply tracked_done; [exact Hd|..].
    + intros Ho. apply found_more. by destruct (pub_outcome p).
    + intros Ho. assert (Ho' : pub_outcome p = outcome_durable \/ pub_outcome p = outcome_indeterminate) by (destruct (pub_outcome p); auto; congruence).
      destruct (Hgen Ho') as [Hv Hlt]. exists m. split; [by left|]. do 3 (split; [done|]). intros a Ha.
      destruct (pub_outcome p); [by injection Ha as <-; lia|congruence|]. destruct c as [bs|]; cbn in Hc; [|congruence].
      destruct Hc as (m' & _ & Hok' & Hv' & -> & Hge). specialize (Hge a Ha). specialize (Hlt m' eq_refl Hok' Hv'). lia.
  - by eapply tracked_leaves; [exact Hhe|exact L|apply publication_names|exact Hi].
Qed.

Lemma publish_intent_keeps sys intent max_bytes h p d' : history_ok h -> intent_ok intent ->
  publish_compaction_intent sys intent max_bytes (h_directory h) = (Ok p, d') ->
  history_ok (mkHistory d' (h_durable h) (h_manifests h) (intent :: h_intents h)).
Proof.
  intros Hh Hok E. destruct (d_health (h_directory h)) eqn:Hhe; cycle 1.
  { unfold publish_compaction_intent in E. rewrite bindM_get, Hhe in E. cbn in E. injection E as <- <-.
    apply (history_ok_given h None (Some intent) Hh). }
  destruct Hh as [Hlk Hl Hm Hi]. destruct (proj1 Hi Hhe) as (c & Hc & Hs).
  pose proof (publish_compaction_intent_spec sys intent max_bytes c _ Hok Hhe (Hl Hhe) Hs) as H.
  rewrite E in H. cbn in H. destruct H as [Hd Hgen]. pose proof Hd as ([L T] & _ & _). split; cbn.
  - by apply L.
  - intros H. destruct (T H) as [_ ->]. auto.
  - by eapply tracked_leaves; [exact Hhe|exact L|apply publication_names|exact Hm].
  - eapply tracked_done; [exact Hd|..].
    + intros _. by apply intent_found_more.
    + intros Ho. assert (Ho' : pub_outcome p = outcome_durable \/ pub_outcome p = outcome_indeterminate) by (destruct (pub_outcome p); auto; congruence).
      destruct (Hgen Ho') as [Hv _]. intros bs Eb. apply (inj Some) in Eb as <-. exists intent. split; [by left|done].
Qed.

Lemma remove_intent_keeps sys h p d' : history_ok h -> remove_compaction_intent sys (h_directory h) = (Ok p, d') ->
  history_ok (mkHistory d' (h_durable h) (h_manifests h) (h_intents h)).
Proof.
  intros Hh E. destruct (d_health (h_directory h)) eqn:Hhe; cycle 1.
  { unfold remove_compaction_intent in E. rewrite bindM_get, Hhe in E. cbn in E. injection E as <- <-. by destruct h. }
  destruct Hh as [Hlk Hl Hm Hi]. destruct (proj1 Hi Hhe) as (c & Hc & Hs).
  pose proof (remove_compaction_intent_spec sys c _ Hhe (Hl Hhe) Hs) as H.
  rewrite E in H. cbn in H. pose proof H as ([L T] & _ & _). split; cbn.
  - by apply L.
  - intros H'. destruct (T H') as [_ ->]. auto.
  - by eapply tracked_leaves; [exact Hhe|exact L|apply publication_names|exact Hm].
  - eapply tracked_done; [exact H|done|]. intros _ bs [=].
Qed.

(** The other calls: what they do when the directory is healthy, or nothing. *)
Lemma frame_keeps {A} (m : Method Directory A) N h r d' : history_ok h ->
  (d_health (h_directory h) = false -> (m (h_directory h)).2 = h_directory h) ->
  (d_health (h_directory h) = true -> d_lost (h_directory h) = false ->
   runs (m (h_directory h)) (fun _ d' => tidy N (h_directory h) d') (fun _ d' => tidy N (h_directory h) d')) ->
  kManifestFilename ∉ N /\ kCompactionIntentFilename ∉ N -> m (h_directory h) = (r, d') ->
  history_ok (mkHistory d' (h_durable h) (h_manifests h) (h_intents h)).
Proof.
  intros Hh Hsick Hwell [N1 N2] E. rewrite E in Hsick, Hwell. destruct (d_health (h_directory h)) eqn:Hhe.
  - apply (history_ok_frame N); [done..| |done|done]. specialize (Hwell eq_refl (ho_lost _ Hh Hhe)). by destruct r.
  - cbn in Hsick. rewrite (Hsick eq_refl). by destruct h.
Qed.

Lemma happens_keeps h h' : history_ok h -> happens h h' -> history_ok h'.
Proof.
  intros Hh [sys m max_bytes p d' Hok E|sys intent max_bytes p d' Hok E|sys p d' E|sys store_id segments p d' E|sys files r d' E|
    sys m max_bytes r d' Hok E|sys r d' E|d' Hc].
  - by eapply publish_manifest_keeps.
  - by eapply publish_intent_keeps.
  - by eapply remove_intent_keeps.
  - eapply frame_keeps; [exact Hh| | |apply (segment_names_apart store_id segments)|exact E].
    + intros H. unfold retire_compaction_segments. by rewrite bindM_get, H.
    + intros H1 H2. eapply runs_weaken; [by apply retire_spec| |done]. by intros q d1 [? _].
  - eapply frame_keeps; [exact Hh| | |apply (temporaries_apart files)|exact E].
    + intros H. exact (f_equal snd (unhealthy_still _ _ H)).
    + intros H1 H2. eapply runs_weaken; [apply cleanup_temporaries_spec; [done..|apply Hh]| |done]. by intros q d1 [? _].
  - eapply frame_keeps; [exact Hh| | |apply publication_names|exact E].
    + intros H. exact (f_equal snd (unhealthy_still _ _ H)).
    + intros H1 H2. by apply publish_bootstrap_frame.
  - eapply frame_keeps; [exact Hh| | |apply publication_names|exact E].
    + intros H. exact (f_equal snd (unhealthy_still _ _ H)).
    + intros H1 H2. by apply finish_bootstrap_frame.
  - destruct Hh as [Hlk Hl Hm Hi]. split; cbn; [by eapply crash_linked|by rewrite (cr_lost _ _ Hc)|by eapply tracked_crash..].
Qed.

Lemma history_keeps h h' : history_ok h -> rtc happens h h' -> history_ok h'.
Proof. intros Hh. induction 1; [done|]. eauto using happens_keeps. Qed.

(** ** Reading after a restart *)

Lemma intent_encoding_ok i : intent_ok i -> bytes_ok (intent_encoding i).
Proof.
  intros (_ & (_ & Ho & _) & (_ & Hn & _)). unfold intent_encoding, intent_back.
  apply Forall_app_2.
  - unfold intent_front. repeat apply Forall_app_2; try done; apply le_bytes_ok; lia.
  - apply Forall_app_2; [apply le_bytes_ok; lia|]. apply Forall_app_2; [apply bytes_ok_zeros|].
    apply Forall_app_2; by apply manifest_bytes_ok.
Qed.

Lemma read_intent_file_spec sys contents d : settled d kCompactionIntentFilename contents -> contents_ok contents ->
  runs (read_private_compaction_intent_file sys kMaximumManifestBytes d)
    (fun i d' => intent_ok i /\ intent_valid i /\ contents = Some (intent_encoding i))
    (fun e d' => obliging sys -> forall i, intent_ok i -> intent_valid i -> contents <> Some (intent_encoding i)).
Proof.
  intros Hs Hok. unfold read_private_compaction_intent_file. rewrite Z.gtb_ltb, Z.ltb_irrefl.
  eapply runs_bindM_err; [apply read_private_file_spec; [by apply settled_now|done]| |].
  - intros bs d' [-> Hc]. pose proof (decode_intent_cases bs (Hok bs eq_refl)) as Hd.
    destruct (decode_compaction_intent bs) as [i|e|] eqn:E; cbn; [|..|done].
    + destruct Hd as (? & ? & ->). done.
    + intros _ i Hi Hv [= ->]. by rewrite decode_intent_bytes in E.
  - intros e d' (_ & _ & Hob) Ho i Hi Hv Eb. apply (Hob Ho _ Eb). rewrite zlen_intent_encoding by done.
    pose proof (intent_bounds i Hv). unfold intent_size, kCompactionIntentHeaderBytes, kMaximumCompactionIntentBytes,
      kCompactionIntentHeaderBytes in *. lia.
Qed.

Lemma restart_reads_manifest sys d' durable given : may_hold d' kManifestFilename (manifest_found durable given) -> d_past d' = [] ->
  d_health d' = true -> obliging sys ->
  match fst (read_manifest sys kMaximumManifestBytes d') with
  | Ok m => m ∈ given /\ forall a, durable = Some a -> m_manifest_generation a <= m_manifest_generation m
  | Err _ => durable = None
  | Stuck _ => False
  end.
Proof.
  intros Hm Hp Hh Ho. destruct (may_hold_single _ _ _ Hp Hm) as (c & Hc & Hs).
  unfold read_manifest, if_healthy. rewrite bindM_get, Hh. cbn [negb].
  pose proof (read_manifest_file_spec sys kManifestFilename kMaximumManifestBytes c d' Hs (found_bytes_ok _ _ _ Hc)) as H.
  destruct (read_private_manifest_file _ _ _ _) as [[m|e|] d'']; cbn in H |- *; [|..|done].
  - destruct H as (_ & Hok & Hv & ->). destruct Hc as (m' & Hin & Hok' & Hv' & Eb & Hge).
    assert (m = m') as ->; [|done]. pose proof (decode_manifest_bytes m Hok Hv) as D. rewrite Eb, decode_manifest_bytes in D by done. congruence.
  - destruct H as (_ & _ & H). destruct c as [bs|]; [|done]. destruct Hc as (m & _ & Hok & Hv & -> & _).
    specialize (H Ho m Hok Hv eq_refl). pose proof (mv_count m Hv). exfalso.
    unfold manifest_size, kMaximumManifestBytes, kManifestHeaderBytes, kManifestSegmentEntryBytes, kMaximumManifestSegmentCount in *. lia.
Qed.

Lemma restart_reads_intent sys d' given : may_hold d' kCompactionIntentFilename (intent_found given) -> d_past d' = [] ->
  d_health d' = true -> obliging sys ->
  match fst (read_compaction_intent sys kMaximumManifestBytes d') with
  | Ok i => i ∈ given
  | Err _ => settled d' kCompactionIntentFilename None
  | Stuck _ => False
  end.
Proof.
  intros Hm Hp Hh Ho. destruct (may_hold_single _ _ _ Hp Hm) as (c & Hc & Hs).
  assert (Hb : contents_ok c) by (intros bs ->; destruct (Hc bs eq_refl) as (i & _ & ? & _ & ->); by apply intent_encoding_ok).
  unfold read_compaction_intent, if_healthy. rewrite bindM_get, Hh. cbn [negb].
  pose proof (read_intent_file_spec sys c d' Hs Hb) as H.
  destruct (read_private_compaction_intent_file _ _ _) as [[i|e|] d'']; cbn in H |- *; [|..|done].
  - destruct H as (Hok & Hv & ->). destruct (Hc _ eq_refl) as (i' & Hin & Hok' & Hv' & Eb).
    assert (i = i') as ->; [|done]. pose proof (decode_intent_bytes i Hok Hv) as D. rewrite Eb, decode_intent_bytes in D by done. congruence.
  - destruct c as [bs|]; [|done]. destruct (Hc _ eq_refl) as (i & _ & Hok & Hv & ->). by destruct (H Ho i Hok Hv).
Qed.

(** ** The directory *)

(** C11. The publication of a manifest is atomic and durable, whatever the operating
    system answers: after a power failure at its end the name of the manifest holds
    all of the old contents or all of the new; the new ones when the publication was
    reported as durable, the old ones when it was reported as not published; when the
    outcome is unknown the directory refuses to go on.  Only manifests newer than the
    one that is there are published, and no other name or file changes but the
    temporary one. *)
Theorem publish_manifest_atomic sys m max_bytes contents d :
  manifest_ok m -> d_health d = true -> d_lost d = false -> settled d kManifestFilename contents -> contents_ok contents ->
  exists p d', publish_manifest sys m max_bytes d = (Ok p, d') /\
    (forall d'', crash d' d'' -> match pub_outcome p with
       | outcome_durable => settled d'' kManifestFilename (Some (manifest_bytes m))
       | outcome_unchanged => settled d'' kManifestFilename contents
       | outcome_indeterminate => settled d'' kManifestFilename contents \/ settled d'' kManifestFilename (Some (manifest_bytes m))
       end) /\
    (pub_outcome p = outcome_indeterminate <-> d_health d' = false) /\
    (pub_outcome p <> outcome_unchanged -> manifest_valid m /\
       forall old, contents = Some (manifest_bytes old) -> manifest_ok old -> manifest_valid old ->
         m_manifest_generation old < m_manifest_generation m) /\
    forall name c, name ∉ [kManifestTemporaryFilename; kManifestFilename] -> settled d name c -> settled d' name c.
Proof.
  intros Hok Hh Hl Hs Hc. pose proof (publish_manifest_spec sys m max_bytes contents d Hok Hh Hl Hs Hc) as H.
  destruct (publish_manifest sys m max_bytes d) as [[p|e|f] d']; [|done..]. exists p, d'. split; [done|].
  cbn in H. destruct H as [(T & Hcr & Ho) Hgen]. split; [|split; [|split]].
  - intros d'' Hd. destruct (pub_outcome p); [by eapply crash_may_hold; [apply Ho|]..|].
    destruct (may_hold_single _ _ _ (cr_past _ _ Hd) (Hcr _ Hd)) as (c & [-> | ->] & Hset); auto.
  - destruct (pub_outcome p); [destruct Ho..|]; split; congruence.
  - intros Hne. apply Hgen. destruct (pub_outcome p); auto; congruence.
  - intros name c Hn. by eapply tidy_may_hold.
Qed.

(** C4. Over any history of publications, removals, cleaning and power failures, with
    any answers of the operating system, a restart that can read finds under the name
    of the manifest a manifest that was given to be published and not older than the
    last one reported as durable; it finds none only when none was reported as durable.
    A compaction intent it finds is one that was given, and when it finds none there
    is none. *)
Theorem directory_history d0 h d' sys :
  linked d0 -> d_health d0 = true -> d_lost d0 = false ->
  settled d0 kManifestFilename None -> settled d0 kCompactionIntentFilename None ->
  rtc happens (mkHistory d0 None [] []) h -> crash (h_directory h) d' -> obliging sys ->
  match fst (read_manifest sys kMaximumManifestBytes d') with
  | Ok m => m ∈ h_manifests h /\ forall a, h_durable h = Some a -> m_manifest_generation a <= m_manifest_generation m
  | Err _ => h_durable h = None
  | Stuck _ => False
  end /\
  match fst (read_compaction_intent sys kMaximumManifestBytes d') with
  | Ok i => i ∈ h_intents h
  | Err _ => settled d' kCompactionIntentFilename None
  | Stuck _ => False
  end.
Proof.
  intros Hlk Hh Hl Hm Hi Hr Hc Ho. assert (Hok : history_ok h).
  { eapply history_keeps; [|exact Hr]. split; cbn; [done|done|by eapply tracked_settled; [|exact Hm]|].
    by eapply tracked_settled; [|exact Hi]; intros bs [=]. }
  split; [apply restart_reads_manifest|apply restart_reads_intent]; try done; try apply Hc; by apply Hok.
Qed.

(** ** A directory *)

Definition good_directory_system : DirectorySystem :=
  mkDirectorySystem (quiet_system (fun _ n _ => wrote (Z.to_nat n)) (fun _ n _ => got (Z.to_nat n)) (fun _ _ => None) (fun _ _ => None))
    (fun _ => name_done).
Definition empty_directory : Directory := mkDirectory ∅ [] [] false true 0.
Definition first_publication : Result Publication * Directory :=
  publish_manifest good_directory_system (sample_manifest 4) kMaximumManifestBytes empty_directory.

Lemma empty_settled name : settled empty_directory name None.
Proof. intros e He. apply list_elem_of_singleton in He as ->. exists None. cbn [d_names empty_directory]. by rewrite lookup_empty. Qed.

Lemma crash_refl d : d_past d = [] -> d_lost d = false -> d_health d = true -> crash d d.
Proof. intros H1 H2 H3. split; try done; [|eauto]. intros name. exists (d_names d). split; [by left|done]. Qed.

Lemma publish_manifest_atomic_witness :
  exists p d', publish_manifest good_directory_system (sample_manifest 4) kMaximumManifestBytes empty_directory = (Ok p, d') /\
    pub_outcome p = outcome_durable /\
    forall d'', crash d' d'' -> settled d'' kManifestFilename (Some (manifest_bytes (sample_manifest 4))).
Proof.
  destruct (publish_manifest_atomic good_directory_system (sample_manifest 4) kMaximumManifestBytes None empty_directory)
    as (p & d' & E & H & _); [by apply sample_manifest_ok|done|done|apply empty_settled|done|].
  assert (Ep : p = published).
  { assert (Ef : fst first_publication = Ok published) by (vm_compute; reflexivity). unfold first_publication in Ef. rewrite E in Ef.
    cbn in Ef. congruence. }
  exists p, d'. split; [exact E|]. rewrite Ep in H |- *. split; [done|exact H].
Defined.

Lemma directory_history_witness :
  exists m, fst (read_manifest good_directory_system kMaximumManifestBytes (snd first_publication)) = Ok m /\ m ∈ [sample_manifest 4].
Proof.
  assert (Hok : manifest_ok (sample_manifest 4)) by by apply sample_manifest_ok.
  assert (Hg : obliging good_directory_system).
  { split; [done|]. intros calls n off Hn. exists (Z.to_nat n). split; [done|lia]. }
  assert (Ef : fst first_publication = Ok published) by (vm_compute; reflexivity).
  assert (E : publish_manifest good_directory_system (sample_manifest 4) kMaximumManifestBytes
    (h_directory (mkHistory empty_directory None [] [])) = (Ok published, snd first_publication)).
  { cbn [h_directory]. fold first_publication. rewrite <- Ef. apply surjective_pairing. }
  set (h := mkHistory (snd first_publication) (Some (sample_manifest 4)) [sample_manifest 4] []).
  destruct (directory_history empty_directory h (snd first_publication) good_directory_system) as [H _].
  - intros e name i He Hi. apply list_elem_of_singleton in He as ->. cbn [d_names empty_directory] in Hi. rewrite lookup_empty in Hi. discriminate Hi.
  - reflexivity.
  - reflexivity.
  - apply empty_settled.
  - apply empty_settled.
  - apply rtc_once. exact (happens_publish_manifest (mkHistory empty_directory None [] []) good_directory_system (sample_manifest 4)
      kMaximumManifestBytes published (snd first_publication) Hok E).
  - apply crash_refl; vm_compute; reflexivity.
  - exact Hg.
  - destruct (fst (read_manifest _ _ _)) as [m|e|f]; [exists m; split; [reflexivity|apply H]|discriminate H|destruct H].
Defined.
