(* ===== verification/Recovery.v ===== *)
(** * Recovery of a durable store

    Models src/persistence/recovery/: the memory budget, the scan of the segments of
    a worker, the construction of its index, the catalog that is read from the
    directory, and [recover_durable_state], which puts them together. *)

From stdpp Require Import gmap.
From S2P Require Import Prelude Core Crc32c Record SegmentHeader Segment Routing Probing SwissTable Index Manifest Compaction CompactionIntent File SegmentFile Namespace Directory.

(** ** The memory budget *)

Definition kRecoveryBytesPerSegment : Z := 256.
Definition kRecoveryBytesPerWorker : Z := 1024.
Definition kRecoveryBytesPerKey : Z := 256.

Record RecoveryMemoryBudget := mkBudget { budget_maximum : Z; budget_retained : Z }.

Definition ensure_peak (b : RecoveryMemoryBudget) (additional : Z) : Status :=
  if additional >? u64 (budget_maximum b - budget_retained b) then Err resource_exhausted else Ok tt.

Definition retain (b : RecoveryMemoryBudget) (additional : Z) : Result RecoveryMemoryBudget :=
  ensure_peak b additional ;;?
  Ok (mkBudget (budget_maximum b) (u64 (budget_retained b + additional))).

Definition retain_repeated (b : RecoveryMemoryBudget) (unit count : Z) : Result RecoveryMemoryBudget :=
  if negb (unit =? 0) && (count >? umax 64 / unit) then Err arithmetic_overflow
  else retain b (u64 (unit * count)).

(** ** Scanning *)

(** [recovery::LatestRecord] *)
Record RecoveryLatest := mkRecoveryLatest {
  latest_reference : RecordRef;
  latest_key_hash : Z;
  latest_deleted : bool;
  latest_expired : bool
}.

Record WorkerScanContext := mkScanContext {
  scan_worker_id : Z;
  scan_worker_count : Z;
  scan_routing : WorkerRoutingState;
  scan_now_ns : Z;
  scan_maximum : Z;
  scan_latest : gmap (list Z) RecoveryLatest;
  scan_stats : RebuildStats;
  scan_budget : RecoveryMemoryBudget
}.

Definition set_scanned (maximum : Z) (stats : RebuildStats) (c : WorkerScanContext) : WorkerScanContext :=
  mkScanContext (scan_worker_id c) (scan_worker_count c) (scan_routing c) (scan_now_ns c) maximum (scan_latest c) stats
    (scan_budget c).
Definition set_latest (latest : gmap (list Z) RecoveryLatest) (budget : RecoveryMemoryBudget) (c : WorkerScanContext) :
    WorkerScanContext :=
  mkScanContext (scan_worker_id c) (scan_worker_count c) (scan_routing c) (scan_now_ns c) (scan_maximum c) latest
    (scan_stats c) budget.

Definition visit_recovery_record (reference : RecordRef) (record : RecordView) : Method WorkerScanContext unit :=
  let! c := getM in
  let! computed_hash := liftM (hash_key_routing (rv_key record) (scan_routing c)) in
  if negb (computed_hash =? rv_key_hash record) then failM corrupted_data
  else if negb (route_worker (rv_key_hash record) (scan_worker_count c) =? scan_worker_id c) then failM corrupted_data
  else
  modifyM (set_scanned (if rv_sequence record >? scan_maximum c then rv_sequence record else scan_maximum c)
             (count_scanned (scan_stats c))) ;;!
  let key_bytes := zlen (rv_key record) in
  if key_bytes >? (umax 64 - kRecoveryBytesPerKey) / 2 then failM arithmetic_overflow
  else
  let entry_bytes := kRecoveryBytesPerKey + key_bytes * 2 in
  let! _ := liftM (ensure_peak (scan_budget c) entry_bytes) in
  let key := rv_key record in
  let candidate := mkRecoveryLatest reference (rv_key_hash record) (rv_opcode record =? Opcode_erase)
                     (expired record (scan_now_ns c)) in
  match scan_latest c !! key with
  | Some current =>
      if ref_sequence (latest_reference current) =? rv_sequence record then failM sequence_conflict
      else if ref_sequence (latest_reference current) <? rv_sequence record
      then modifyM (set_latest (<[key := candidate]> (scan_latest c)) (scan_budget c))
      else retM tt
  | None =>
      let! budget := liftM (retain (scan_budget c) entry_bytes) in
      modifyM (set_latest (<[key := candidate]> (scan_latest c)) budget)
  end.

(** Whether an active segment has to be rotated. *)
Definition validate_lifecycle (entry : ManifestSegmentEntry) (commit : SegmentCommit) : Result bool :=
  if me_role entry =? ManifestSegmentRole_sealed
  then if negb (commit_state commit =? PersistedSegmentState_sealed) then Err corrupted_data else Ok false
  else Ok (commit_state commit =? PersistedSegmentState_sealed).

(** A segment the manifest lists must be there. *)
Definition segment_error {A} (r : Result A) : Result A :=
  match r with
  | Err e => Err (if bool_decide (e = not_found) then corrupted_data else e)
  | _ => r
  end.

(** What a listed segment is found to be: the answers to opening it, and the file. *)
Definition Disk : Type := SegmentHeaderIdentity -> Opening * File.

Record WorkerScan := mkWorkerScan {
  ws_active_segment : Z;
  ws_requires_rotation : bool;
  ws_segments : list (Z * SelectedSegmentCommit);
  ws_context : WorkerScanContext
}.

Definition segment_identity (m : Manifest) (entry : ManifestSegmentEntry) : SegmentHeaderIdentity :=
  mkIdentity (m_store_id m) (me_segment_id entry) (me_generation entry) (me_owner_worker entry).

Section scanner.
Variable sys : System.
Variable disk : Disk.
Variable healthy : bool.
Variable manifest : Manifest.

(** The body of the loop of [scan_worker]. *)
Definition scan_segment (catalog_index : Z) (w : WorkerScan) : Result WorkerScan :=
  let? entry := vec_get (m_segments manifest) catalog_index in
  let expected := segment_identity manifest entry in
  let '(opening, f) := disk expected in
  let? file := segment_error (open_segment sys opening healthy expected false f) in
  let commit := selected_commit (persisted_ file) in
  let? rotation := segment_error (validate_lifecycle entry commit) in
  let active := me_role entry =? ManifestSegmentRole_active in
  let c := ws_context w in
  if negb (record_count commit =? 0) && negb (scan_maximum c =? 0) && (first_sequence commit <=? scan_maximum c)
  then segment_error (Err corrupted_data)
  else
  let '(scanned, (_, c)) := visit_committed_records sys visit_recovery_record (file, c) in
  let? _ := segment_error scanned in
  Ok (mkWorkerScan (if active then me_segment_id entry else ws_active_segment w)
        (if active then rotation else ws_requires_rotation w)
        (ws_segments w ++ [(catalog_index, persisted_ file)]) c).

Fixpoint scan_segments (catalog_indices : list Z) (w : WorkerScan) : Result WorkerScan :=
  match catalog_indices with
  | [] => Ok w
  | index :: rest => let? w := scan_segment index w in scan_segments rest w
  end.

Definition scan_worker (now_ns : Z) (worker : Z) (catalog_indices : list Z) (budget : RecoveryMemoryBudget) :
    Result WorkerScan :=
  scan_segments catalog_indices
    (mkWorkerScan 0 false []
       (mkScanContext worker (m_worker_count manifest) (worker_routing manifest) now_ns 0 ∅
          (mkRebuildStats 0 0 0 0) budget)).
End scanner.

(** ** The index of a worker *)

Record DurableRecoveryStats := mkRecoveryStats {
  rebuild : RebuildStats;
  segments_scanned : Z;
  workers_requiring_rotation : Z
}.

Record RecoveredWorkerState := mkRecoveredWorker {
  rw_worker_id : Z;
  rw_index : SwissTableIndex;
  rw_next_sequence : Z;
  rw_active_segment : Z;
  rw_active_requires_rotation : bool;
  rw_active_live_record_bytes : Z;
  rw_sealed_live_record_bytes : Z
}.

Definition visible (record : RecoveryLatest) : bool := negb (latest_deleted record) && negb (latest_expired record).

(** The loop of [build] over the entries of the map, with the bytes of the live
    records in the active segment and in the others. *)
Fixpoint build_loop (active_segment : Z) (l : list (list Z * RecoveryLatest)) (live : Z * Z) (stats : RebuildStats) :
    Method SwissTableIndex (Z * Z * RebuildStats) :=
  match l with
  | [] => retM (live, stats)
  | (key, record) :: l =>
      if latest_deleted record then build_loop active_segment l live (count_tombstone stats)
      else if latest_expired record then build_loop active_segment l live (count_expired stats)
      else
      let reference := latest_reference record in
      let! _ := insert_or_assign (mkHashedKey key (latest_key_hash record)) reference in
      let active := ref_segment_id reference =? active_segment in
      let live_bytes := if active then live.1 else live.2 in
      if ref_size reference >? umax 64 - live_bytes then failM arithmetic_overflow
      else
      let live_bytes := live_bytes + ref_size reference in
      build_loop active_segment l (if active then (live_bytes, live.2) else (live.1, live_bytes)) (count_visible stats)
  end.

Section builder.
(** The order in which a [std::unordered_map] gives its entries. *)
Context (iterate : gmap (list Z) RecoveryLatest -> list (list Z * RecoveryLatest)).

(** [RecoveryIndexBuilder::build]; [seed] is the one the new index draws. *)
Definition build (worker worker_index worker_count : Z) (routing : WorkerRoutingState) (limits : DurableResourceLimits)
    (seed : Z) (scan : WorkerScan) (stats : DurableRecoveryStats) : Result (RecoveredWorkerState * DurableRecoveryStats) :=
  let c := ws_context scan in
  if scan_maximum c =? umax 64 then Err arithmetic_overflow
  else
  let live_key_limit := durable_worker_live_key_limit worker_index worker_count (max_live_keys limits) in
  let visible_keys := zlen (List.filter (fun e => visible e.2) (iterate (scan_latest c))) in
  if visible_keys >? live_key_limit then Err resource_exhausted
  else
  let '(built, index) := (reserve (Z.of_nat (size (scan_latest c))) ;;!
      build_loop (ws_active_segment scan) (iterate (scan_latest c)) (0, 0) (rebuild stats)) (new_table routing seed) in
  let? built := built in
  let '(live, rebuilt) := built in
  let rotations := if ws_requires_rotation scan then u64 (workers_requiring_rotation stats + 1)
                   else workers_requiring_rotation stats in
  Ok (mkRecoveredWorker worker index (scan_maximum c + 1) (ws_active_segment scan) (ws_requires_rotation scan)
        live.1 live.2,
      mkRecoveryStats rebuilt (segments_scanned stats) rotations).

(** ** The workers *)

Record RecoveryCatalog := mkRecoveryCatalog {
  catalog_manifest : Manifest;
  catalog_audit : Audit;
  segments_by_worker : list (list Z)
}.

Record RecoveredWorkers := mkRecoveredWorkers {
  recovered_segments : list (option SelectedSegmentCommit);
  recovered_workers : list RecoveredWorkerState;
  recovered_stats : DurableRecoveryStats
}.

(** [recovered.segments[segment.catalog_index] = segment.state] *)
Fixpoint place_segments (segments : list (Z * SelectedSegmentCommit)) (v : list (option SelectedSegmentCommit)) :
    Result (list (option SelectedSegmentCommit)) :=
  match segments with
  | [] => Ok v
  | (index, selected) :: segments => let? v := vec_set v index (Some selected) in place_segments segments v
  end.

Section workers.
Variable sys : System.
Variable disk : Disk.
Variable healthy : bool.
Variable now_ns : Z.
Variable limits : DurableResourceLimits.
(** The seed each new index draws. *)
Variable seeds : Z -> Z.
Variable catalog : RecoveryCatalog.

(** One pass of the loop of [recover_workers]. *)
Definition recover_worker (worker_index : Z) (r : RecoveredWorkers * RecoveryMemoryBudget) :
    Result (RecoveredWorkers * RecoveryMemoryBudget) :=
  let '(recovered, budget) := r in
  let manifest := catalog_manifest catalog in
  let? indices := vec_get (segments_by_worker catalog) worker_index in
  let? scan := scan_worker sys disk healthy manifest now_ns (u32 worker_index) indices budget in
  let stats := recovered_stats recovered in
  let rebuilt := rebuild stats in
  let stats := mkRecoveryStats
    (mkRebuildStats (u64 (records_scanned rebuilt + records_scanned (scan_stats (ws_context scan))))
       (records_visible rebuilt) (rs_tombstones rebuilt) (rs_expired rebuilt))
    (u64 (segments_scanned stats + zlen (ws_segments scan))) (workers_requiring_rotation stats) in
  let? segments := place_segments (ws_segments scan) (recovered_segments recovered) in
  let? built := build (u32 worker_index) worker_index (m_worker_count manifest) (worker_routing manifest) limits
                  (seeds worker_index) scan stats in
  Ok (mkRecoveredWorkers segments (recovered_workers recovered ++ [built.1]) built.2, scan_budget (ws_context scan)).

Fixpoint recover_workers_from (todo : nat) (worker_index : Z) (r : RecoveredWorkers * RecoveryMemoryBudget) :
    Result (RecoveredWorkers * RecoveryMemoryBudget) :=
  match todo with
  | O => Ok r
  | S todo => let? r := recover_worker worker_index r in recover_workers_from todo (worker_index + 1) r
  end.

Definition recover_workers (budget : RecoveryMemoryBudget) : Result (RecoveredWorkers * RecoveryMemoryBudget) :=
  recover_workers_from (Z.to_nat (m_worker_count (catalog_manifest catalog))) 0
    (mkRecoveredWorkers (replicate (length (m_segments (catalog_manifest catalog))) None) []
       (mkRecoveryStats (mkRebuildStats 0 0 0 0) 0 0), budget).
End workers.

(** ** The catalog *)

(** [segments_by_worker[owner].push_back(index)] for every segment. *)
Fixpoint group_by_owner (segments : list ManifestSegmentEntry) (index : Z) (groups : list (list Z)) :
    Result (list (list Z)) :=
  match segments with
  | [] => Ok groups
  | entry :: segments =>
      let? group := vec_get groups (me_owner_worker entry) in
      let? groups := vec_set groups (me_owner_worker entry) (group ++ [index]) in
      group_by_owner segments (index + 1) groups
  end.

Section recovery.
Variable sys : DirectorySystem.
Variable getrlimit : Result (option Z).
Variable disk : Disk.
(** What enumerating the directory gives, before and after cleaning. *)
Variables listing clean_listing : Listing.
Variable now_ns : Z.
Variable limits : DurableResourceLimits.
Variable compaction_intent : option DurableCompactionIntent.
Variable seeds : Z -> Z.

Definition load_recovery_catalog (budget : RecoveryMemoryBudget) :
    Method Directory (RecoveryCatalog * RecoveryMemoryBudget) :=
  liftM (validate_durable_resource_limits limits) ;;!
  let! manifest := read_manifest sys (max_manifest_bytes limits) in
  liftM (
    validate_durable_manifest_resources getrlimit manifest limits ;;?
    let? manifest_memory := durable_manifest_bytes (zlen (m_segments manifest)) in
    let? budget := retain budget manifest_memory in
    let? budget := retain_repeated budget kRecoveryBytesPerSegment (zlen (m_segments manifest)) in
    let? budget := retain_repeated budget kRecoveryBytesPerWorker (m_worker_count manifest) in
    let? audit := audit_data_directory listing manifest in
    match compaction_intent with
    | Some intent => validate_namespace_for_compaction_recovery audit manifest intent
    | None => validate_namespace_for_recovery audit
    end ;;?
    let? groups := group_by_owner (m_segments manifest) 0 (replicate (Z.to_nat (m_worker_count manifest)) []) in
    Ok (mkRecoveryCatalog manifest audit groups, budget)).

Record DurableRecoveryState := mkRecoveryState {
  recovered_manifest : Manifest;
  recovered_audit : Audit;
  recovered : RecoveredWorkers
}.

Definition stale (issue : NamespaceIssue) : bool :=
  bool_decide (issue_kind issue = stale_manifest_temporary \/ issue_kind issue = stale_segment_temporary \/
               issue_kind issue = stale_compaction_temporary).

Definition recover_durable_state : Method Directory DurableRecoveryState :=
  let! loaded := load_recovery_catalog (mkBudget (max_recovery_memory_bytes limits) 0) in
  let '(catalog, budget) := loaded in
  let manifest := catalog_manifest catalog in
  let! d := getM in
  let! workers := liftM (recover_workers (ds_file sys) disk (d_health d) now_ns limits seeds catalog budget) in
  match compaction_intent with
  | Some _ => retM (mkRecoveryState manifest (catalog_audit catalog) workers.1)
  | None =>
      let stale_temporaries := issue_name <$> List.filter stale (issues (catalog_audit catalog)) in
      cleanup_recovery_temporaries sys stale_temporaries ;;!
      match stale_temporaries with
      | [] => retM (mkRecoveryState manifest (catalog_audit catalog) workers.1)
      | _ =>
          let! audit := liftM (audit_data_directory clean_listing manifest) in
          liftM (validate_namespace_for_recovery audit) ;;!
          retM (mkRecoveryState manifest audit workers.1)
      end
  end.
End recovery.
End builder.
