(* ===== verification/RecoverySpec.v ===== *)
(** * Recovery finds the store that was written

    The segments a manifest lists hold logs.  When the logs of every worker are
    consistent (the keys are hashed and routed to the worker, the sequences increase
    over the segments, sealed segments are sealed), recovery gives every worker the
    index of exactly the newest live record of each key and the next sequence; when
    they are not it says so. *)

From stdpp Require Import gmap sorting.
From Stdlib Require Import ZifyBool.
From S2P Require Import Prelude Core Crc32c Record SegmentHeader Segment Routing Probing SwissTable SwissTableSpec Index Manifest Compaction CompactionIntent File SegmentFile SegmentFileSpec Namespace Directory DirectorySpec Recovery.

(** ** The budget *)

Definition budget_ok (b : RecoveryMemoryBudget) : Prop :=
  0 <= budget_retained b <= budget_maximum b /\ is_u64 (budget_maximum b).

Lemma ensure_peak_spec b n : budget_ok b ->
  ensure_peak b n = Ok tt /\ budget_retained b + n <= budget_maximum b \/
  ensure_peak b n = Err resource_exhausted /\ budget_maximum b < budget_retained b + n.
Proof.
  intros [H1 H2]. unfold ensure_peak. rewrite wrap_small by (width; lia). rewrite Z.gtb_ltb.
  destruct (Z.ltb_spec (budget_maximum b - budget_retained b) n); [right|left]; (split; [done|lia]).
Qed.

Lemma retain_spec b n : budget_ok b -> 0 <= n ->
  retain b n = Ok (mkBudget (budget_maximum b) (budget_retained b + n)) /\
    budget_ok (mkBudget (budget_maximum b) (budget_retained b + n)) \/
  retain b n = Err resource_exhausted /\ budget_maximum b < budget_retained b + n.
Proof.
  intros Hb Hn. unfold retain. destruct (ensure_peak_spec b n Hb) as [[-> H]|[-> H]]; [left|right; done].
  destruct Hb as [H1 H2]. cbn [bindR]. rewrite wrap_small by (width; lia). split; [done|]. split; [cbn; lia|done].
Qed.

(** ** The scan of a worker *)

(** What a scan retains for a record. *)
Definition key_cost (e : Index.entry) : Z := kRecoveryBytesPerKey + 2 * zlen (in_key e.2).
Definition cost (l : list Index.entry) : Z := foldr (fun e n => key_cost e + n) 0 l.

Lemma cost_app l k : cost (l ++ k) = cost l + cost k.
Proof. unfold cost. induction l as [|e l IH]; cbn [app foldr]; [done|]. rewrite IH. lia. Qed.
Lemma cost_snoc l e : cost (l ++ [e]) = cost l + key_cost e.
Proof. rewrite cost_app. unfold cost at 2. cbn [foldr]. lia. Qed.
Lemma key_cost_pos e : 0 < key_cost e.
Proof. unfold key_cost, kRecoveryBytesPerKey. pose proof (zlen_nonneg (in_key e.2)). lia. Qed.
Lemma cost_nonneg l : 0 <= cost l.
Proof. unfold cost. induction l as [|e l IH]; cbn [foldr]; [done|]. pose proof (key_cost_pos e). lia. Qed.

(** What the index of [Index] knows of a record found by recovery. *)
Definition plain (r : RecoveryLatest) : LatestRecord := mkLatest (latest_reference r) (latest_deleted r) (latest_expired r).

Section scan.
Variables (worker worker_count : Z) (routing : WorkerRoutingState) (now_ns : Z) (budget : RecoveryMemoryBudget).

(** The record belongs to the worker. *)
Definition placed (e : Index.entry) : Prop :=
  in_key_hash e.2 = hash_of routing (in_key e.2) /\ route_worker (in_key_hash e.2) worker_count = worker.

(** The context after a scan of [seen]. *)
Record scan_ok (seen : list Index.entry) (c : WorkerScanContext) : Prop := {
  so_worker : scan_worker_id c = worker;
  so_count : scan_worker_count c = worker_count;
  so_routing : scan_routing c = routing;
  so_now : scan_now_ns c = now_ns;
  so_maximum : scan_maximum c = last_seq seen.*2;
  so_latest : latest_ok now_ns seen (plain <$> scan_latest c);
  so_hash : forall k r, scan_latest c !! k = Some r -> latest_key_hash r = hash_of routing k;
  so_placed : Forall placed seen;
  so_inputs : Forall (fun e => input_ok e.2) seen;
  so_sequenced : Forall sequenced seen;
  so_increasing : increasing 0 seen.*2;
  so_budget : budget_ok (scan_budget c);
  so_budget_max : budget_maximum (scan_budget c) = budget_maximum budget;
  so_retained : budget_retained (scan_budget c) <= budget_retained budget + cost seen;
  so_scanned : records_scanned (scan_stats c) = u64 (zlen seen)
}.

Lemma increasing_bound p log x : increasing p log -> x ∈ log -> in_sequence x <= foldl (fun _ i => in_sequence i) p log.
Proof.
  revert p. induction log as [|y log IH]; intros p H Hx; [by apply not_elem_of_nil in Hx|]. cbn in *.
  destruct H as [H1 H2]. apply elem_of_cons in Hx as [->|Hx]; [|by apply IH]. by apply increasing_last.
Qed.

Lemma seen_below seen c e' : scan_ok seen c -> e' ∈ seen -> in_sequence e'.2 <= last_seq seen.*2.
Proof.
  intros H He. apply (increasing_bound 0); [by apply H|]. apply list_elem_of_fmap. eauto.
Qed.

Lemma visit_record_spec seen c e : scan_ok seen c -> input_ok e.2 -> sequenced e -> last_seq seen.*2 < in_sequence e.2 ->
  runs (visit_recovery_record e.1 (view_of e.2) c) (fun _ c' => scan_ok (seen ++ [e]) c')
    (fun err _ => err = corrupted_data /\ ~ placed e \/
       err = resource_exhausted /\ budget_maximum budget < budget_retained budget + cost (seen ++ [e])).
Proof.
  intros Hok Hi Hs Hlt. pose proof Hi as [Hrec Henc]. pose proof (encodable_bounds _ Henc) as Hbound.
  assert (Hkey : bytes_ok (in_key e.2)) by apply Hrec. unfold visit_recovery_record. rewrite bindM_get.
  cbn [view_of rv_key rv_key_hash rv_sequence rv_opcode]. rewrite (so_routing _ _ Hok), (hash_of_Ok routing _ Hkey), bindM_lift.
  rewrite (so_count _ _ Hok), (so_worker _ _ Hok), (so_now _ _ Hok), (so_maximum _ _ Hok).
  destruct (Z.eqb_spec (hash_of routing (in_key e.2)) (in_key_hash e.2)) as [Eh|Eh]; cbn [negb]; [|left; split; [done|]; intros [? _]; congruence].
  destruct (Z.eqb_spec (route_worker (in_key_hash e.2) worker_count) worker) as [Er|Er]; cbn [negb]; [|left; split; [done|]; by intros [_ ?]].
  assert (Hp : placed e) by by split. rewrite bindM_modify.
  replace (in_sequence e.2 >? last_seq seen.*2) with true by lia.
  set (c1 := set_scanned _ _ c). rewrite Z.gtb_ltb.
  destruct (Z.ltb_spec ((umax 64 - kRecoveryBytesPerKey) / 2) (zlen (in_key e.2))) as [Hbig|_].
  { exfalso. revert Hbig Hbound. unfold kRecoveryBytesPerKey, kMaxNormalRecordSize, umax. intros. divlia. }
  set (n := kRecoveryBytesPerKey + zlen (in_key e.2) * 2). assert (En : n = key_cost e) by (unfold n, key_cost; lia).
  pose proof (so_retained _ _ Hok) as Hret. pose proof (so_budget_max _ _ Hok) as Hmax.
  destruct (ensure_peak_spec (scan_budget c) n (so_budget _ _ Hok)) as [[-> Hpeak]|[-> Hpeak]].
  2:{ right. split; [done|]. rewrite cost_snoc. cbn. lia. }
  rewrite bindM_lift. assert (Hnew : forall e', e' ∈ seen -> in_key e'.2 = in_key e.2 -> in_sequence e'.2 < in_sequence e.2).
  { intros e' He' _. pose proof (seen_below _ _ _ Hok He'). lia. }
  set (candidate := mkRecoveryLatest _ _ _ _).
  assert (Hins : latest_ok now_ns (seen ++ [e]) (plain <$> <[in_key e.2 := candidate]> (scan_latest c))).
  { rewrite fmap_insert. apply (latest_ok_new _ _ _ e); [apply Hok|done]. }
  assert (Hfin : forall b, budget_ok b -> budget_maximum b = budget_maximum budget ->
    budget_retained b <= budget_retained budget + cost (seen ++ [e]) ->
    scan_ok (seen ++ [e]) (set_latest (<[in_key e.2 := candidate]> (scan_latest c)) b c1)).
  { intros b Hb1 Hb2 Hb3. pose proof Hok as []. split; cbn; try done; rewrite ?fmap_app; try (apply Forall_app; split; [done|by apply Forall_singleton]).
    - unfold last_seq. rewrite foldl_app. done.
    - intros k r [[<- <-]|[_ Hk]]%lookup_insert_Some; [|by eauto]. cbn. congruence.
    - by apply increasing_snoc.
    - rewrite so_scanned0, zlen_app. unfold wrap. rewrite Zplus_mod_idemp_l. done. }
  destruct (scan_latest c !! in_key e.2) as [current|] eqn:Hcur.
  - pose proof (so_latest _ _ Hok (in_key e.2)) as Hl. rewrite lookup_fmap, Hcur in Hl. cbn in Hl.
    destruct Hl as (e0 & (Hin & Hk & _) & Epl). assert (Eseq : ref_sequence (latest_reference current) = in_sequence e0.2).
    { apply (f_equal lr_ref) in Epl. cbn in Epl. rewrite Epl. pose proof (so_sequenced _ _ Hok) as Hsq. rewrite Forall_forall in Hsq. by apply Hsq. }
    rewrite Eseq. specialize (Hnew e0 Hin Hk). destruct (Z.eqb_spec (in_sequence e0.2) (in_sequence e.2)); [lia|].
    destruct (Z.ltb_spec (in_sequence e0.2) (in_sequence e.2)); [|lia]. apply Hfin; [apply Hok|done|].
    rewrite cost_snoc. pose proof (key_cost_pos e). lia.
  - destruct (retain_spec (scan_budget c) n (so_budget _ _ Hok)) as [[-> Hb]|[-> Hb]].
    + unfold n, kRecoveryBytesPerKey. pose proof (zlen_nonneg (in_key e.2)). lia.
    + rewrite bindM_lift. apply Hfin; [done|done|]. rewrite cost_snoc. cbn. lia.
    + lia.
Qed.
End scan.

(** ** The segments of a manifest *)

Section store.
Variables (sys : System) (disk : Disk) (m : Manifest).
(** What the segments hold: the slot and generation of their newest commit, its
    state, and the log it names. *)
Variables (slot_of generation_of state_of : ManifestSegmentEntry -> Z) (log_of : ManifestSegmentEntry -> list RecordInput).

Definition stored (e : ManifestSegmentEntry) : Prop :=
  img (segment_identity m e) (f_view (disk (segment_identity m e)).2) (slot_of e) (generation_of e) (state_of e) (log_of e).
Definition opens (e : ManifestSegmentEntry) : Prop := opening_ok (disk (segment_identity m e)).1.

Definition segment_records (e : ManifestSegmentEntry) : list Index.entry :=
  seg_records (seg_of (segment_identity m e)) (log_of e).
Definition segments_records (es : list ManifestSegmentEntry) : list Index.entry := concat (map segment_records es).
Definition commit_found (e : ManifestSegmentEntry) : SelectedSegmentCommit :=
  mkSelected (slot_of e) (commit_of (generation_of e) (state_of e) (log_of e)).

(** A segment that is listed as sealed is sealed. *)
Definition lifecycle_ok (e : ManifestSegmentEntry) : Prop :=
  me_role e = ManifestSegmentRole_sealed -> state_of e = PersistedSegmentState_sealed.

Definition entry_identified (e : ManifestSegmentEntry) : Prop :=
  identity_ok (segment_identity m e) /\ identity_valid (segment_identity m e).

Lemma visit_each_spec worker worker_count routing now_ns budget i before log seen c :
  scan_ok worker worker_count routing now_ns budget seen c -> Forall input_ok log -> increasing (last_seq seen.*2) log ->
  let todo := zip (log_refs_from (seg_of i) before log) log in
  runs (visit_each visit_recovery_record i before log c)
    (fun _ c' => scan_ok worker worker_count routing now_ns budget (seen ++ todo) c')
    (fun err _ => err = corrupted_data /\ ~ Forall (placed worker worker_count routing) todo \/
       err = resource_exhausted /\ budget_maximum budget < budget_retained budget + cost (seen ++ todo)).
Proof.
  revert before seen c. induction log as [|x log IH]; intros before seen c Hok Hin Hinc; cbn [visit_each log_refs_from zip zip_with].
  { by rewrite app_nil_r. }
  apply Forall_cons in Hin as [Hx Hin]. destruct Hinc as [Hlt Hinc]. set (e := (ref_after (seg_of i) before x, x) : Index.entry).
  eapply runs_bindM_err; [by apply (visit_record_spec worker worker_count routing now_ns budget seen c e)| |].
  - intros [] c' Hok'. assert (Hlast : last_seq (seen ++ [e]).*2 = in_sequence x).
    { unfold last_seq. by rewrite fmap_app, foldl_app. }
    specialize (IH (before ++ [x]) (seen ++ [e]) c' Hok' Hin). rewrite Hlast in IH. specialize (IH Hinc). cbn zeta in IH.
    rewrite <- app_assoc in IH. cbn [app] in IH. eapply runs_weaken; [exact IH|done|].
    intros err c2 [[-> H]|[-> H]]; [left|right]; (split; [done|]); [|done]. intros Hf. apply Forall_cons in Hf as [_ ?]. by apply H.
  - intros err c2 [[-> H]|[-> H]]; [left|right]; (split; [done|]).
    + intros Hf. by apply Forall_cons in Hf as [? _].
    + fold e. replace (seen ++ e :: zip (log_refs_from (seg_of i) (before ++ [x]) log) log)
        with ((seen ++ [e]) ++ zip (log_refs_from (seg_of i) (before ++ [x]) log) log) by by rewrite <- app_assoc.
      rewrite cost_app. pose proof (cost_nonneg (zip (log_refs_from (seg_of i) (before ++ [x]) log) log)). lia.
Qed.

Lemma log_refs_length s before log : length (log_refs_from s before log) = length log.
Proof. revert before. induction log as [|x log IH]; intros before; cbn; [done|]. by rewrite IH. Qed.

Lemma segment_records_inputs e : (segment_records e).*2 = log_of e.
Proof. unfold segment_records, seg_records. apply snd_zip. unfold log_refs. rewrite log_refs_length. lia. Qed.

(** What opening a listed segment gives. *)
Lemma open_listed health e : stored e -> entry_identified e ->
  let d := disk (segment_identity m e) in
  match open_segment sys d.1 health (segment_identity m e) false d.2 with
  | Ok file => reads_log (segment_identity m e) file (slot_of e) (generation_of e) (state_of e) (log_of e)
  | Err _ => ~ (health = true /\ reads_progress sys /\ opens e)
  | Stuck _ => False
  end.
Proof.
  intros Himg [Hi Hv] d. unfold open_segment, opens. fold d. destruct (injected d.1) eqn:Einj.
  { intros (_ & _ & (E & _)). congruence. }
  destruct health; cbn [negb]; [|by intros [? _]].
  pose proof (load_spec _ Hi Hv sys d.1 d.2 _ _ _ _ Himg) as Hl. unfold handle_on.
  destruct (load_segment sys d.1 (Some (segment_identity m e)) d.2) as [[r|err|f] f']; cbn in Hl |- *; [|tauto|done].
  destruct Hl as [-> He]. split; cbn; try done; [apply Himg|].
  pose proof (img_records _ _ _ _ _ _ Himg) as Hh. by rewrite (extends_nil _ _ He).
Qed.

(** The segment continues the records the scan has seen. *)
Definition continues (worker : Z) (seen : list Index.entry) (e : ManifestSegmentEntry) : Prop :=
  lifecycle_ok e /\ increasing (last_seq seen.*2) (log_of e) /\
  Forall (placed worker (m_worker_count m) (worker_routing m)) (segment_records e).

Definition next_active (a : Z) (e : ManifestSegmentEntry) : Z :=
  if me_role e =? ManifestSegmentRole_active then me_segment_id e else a.
Definition next_rotation (r : bool) (e : ManifestSegmentEntry) : bool :=
  if me_role e =? ManifestSegmentRole_active then state_of e =? PersistedSegmentState_sealed else r.

Section worker_scan.
Variables (worker now_ns : Z) (budget : RecoveryMemoryBudget) (health : bool).
Abbreviation scan_ok := (scan_ok worker (m_worker_count m) (worker_routing m) now_ns budget).

Definition exceeded (l : list Index.entry) : Prop := budget_maximum budget < budget_retained budget + cost l.
(** Nothing in the system stands in the way of reading [e]. *)
Definition accessible (e : ManifestSegmentEntry) : Prop := health = true /\ reads_progress sys /\ opens e.

Lemma overlap_check c seen e : scan_ok seen c -> log_ok (log_of e) ->
  negb (record_count (commit_of (generation_of e) (state_of e) (log_of e)) =? 0) && negb (scan_maximum c =? 0) &&
    (first_sequence (commit_of (generation_of e) (state_of e) (log_of e)) <=? scan_maximum c) = false <->
  increasing (last_seq seen.*2) (log_of e).
Proof.
  intros Hok Hl. rewrite (so_maximum _ _ _ _ _ _ _ Hok). pose proof (log_increasing _ Hl) as Hinc.
  pose proof (increasing_last 0 _ (so_increasing _ _ _ _ _ _ _ Hok)) as Hpos. fold (last_seq seen.*2) in Hpos.
  destruct (log_of e) as [|x log] eqn:El; [by cbn|]. cbn [commit_of record_count first_sequence].
  change (default 0 (in_sequence <$> head (x :: log))) with (in_sequence x). cbn in Hinc. destruct Hinc as [Hx Hinc]. assert (zlen (x :: log) <> 0) by (rewrite zlen_cons; pose proof (zlen_nonneg log); lia).
  cbn [increasing]. destruct (Z.eqb_spec (zlen (x :: log)) 0); [lia|]. cbn [negb andb].
  split; [intros H'; split; [lia|done]|intros [H' _]; lia].
Qed.

Lemma lifecycle_check e gen :
  (exists r, validate_lifecycle e (commit_of gen (state_of e) (log_of e)) = Ok r /\ lifecycle_ok e /\
     (me_role e = ManifestSegmentRole_active -> r = (state_of e =? PersistedSegmentState_sealed))) \/
  validate_lifecycle e (commit_of gen (state_of e) (log_of e)) = Err corrupted_data /\ ~ lifecycle_ok e.
Proof.
  unfold validate_lifecycle, lifecycle_ok. cbn [commit_of commit_state].
  destruct (Z.eqb_spec (me_role e) ManifestSegmentRole_sealed) as [E|E].
  - destruct (Z.eqb_spec (state_of e) PersistedSegmentState_sealed) as [E'|E']; cbn [negb]; [left|right; split; [done|tauto]].
    exists false. split_and!; [done|done|]. rewrite E. done.
  - left. eexists. split_and!; [done|done|done].
Qed.

Lemma scan_segment_spec seen idx e w : stored e -> entry_identified e -> vec_get (m_segments m) idx = Ok e ->
  scan_ok seen (ws_context w) ->
  match scan_segment sys disk health m idx w with
  | Ok w' => scan_ok (seen ++ segment_records e) (ws_context w') /\ continues worker seen e /\
      ws_active_segment w' = next_active (ws_active_segment w) e /\
      ws_requires_rotation w' = next_rotation (ws_requires_rotation w) e /\
      ws_segments w' = ws_segments w ++ [(idx, commit_found e)]
  | Err err => ~ accessible e \/ err = corrupted_data /\ ~ continues worker seen e \/
      err = resource_exhausted /\ exceeded (seen ++ segment_records e)
  | Stuck _ => False
  end.
Proof.
  intros Himg Hid Hget Hok. unfold scan_segment. rewrite Hget. cbn [bindR].
  pose proof (open_listed health e Himg Hid) as Hopen. destruct (disk (segment_identity m e)) as [o f]. cbn [fst snd] in Hopen.
  destruct (open_segment sys o health _ false f) as [file|err|x]; cbn [segment_error bindR]; [|left; exact Hopen|done].
  pose proof Hopen as [Hfi Hfh Hfp Hlog _]. rewrite Hfp. cbn [selected_commit].
  destruct (lifecycle_check e (generation_of e)) as [(r & -> & Hlc & Hr)|[-> Hlc]]; cbn [segment_error bindR].
  2:{ rewrite bool_decide_eq_false_2 by done. right. left. split; [done|]. by intros [? _]. }
  pose proof (overlap_check (ws_context w) seen e Hok Hlog) as Hov.
  destruct (_ && _ && _); cbn [segment_error].
  { right. left. rewrite bool_decide_eq_false_2 by done. split; [done|]. intros (_ & H & _). by apply Hov in H. }
  apply proj1 in Hov. specialize (Hov eq_refl).
  pose proof (visit_committed_spec visit_recovery_record (segment_identity m e) sys file _ _ _ _ (ws_context w) Hopen) as Hv.
  pose proof (visit_each_spec worker (m_worker_count m) (worker_routing m) now_ns budget (segment_identity m e) [] (log_of e) seen
    (ws_context w) Hok (log_inputs _ Hlog) Hov) as He. cbn zeta in He. fold (log_refs (seg_of (segment_identity m e)) (log_of e)) in He.
  fold (seg_records (seg_of (segment_identity m e)) (log_of e)) in He. fold (segment_records e) in He.
  destruct (visit_committed_records sys visit_recovery_record (file, ws_context w)) as [vr [s' c']] eqn:Ev.
  destruct Hv as [[_ Hv]|(err & s2 & Hv & Hn)].
  2:{ injection Hv as -> -> ->. cbn [segment_error bindR]. left. intros (_ & ? & _). done. }
  rewrite <- Hv in He. destruct vr as [[]|err|x]; cbn [runs segment_error bindR] in He |- *; [|right|done].
  - split; [done|]. split; [split; [done|]; split; [done|]|].
    + apply so_placed in He. by apply Forall_app in He as [_ ?].
    + cbn [ws_active_segment ws_requires_rotation ws_segments]. unfold next_active, next_rotation.
      destruct (Z.eqb_spec (me_role e) ManifestSegmentRole_active) as [E|E]; [rewrite (Hr E)|]; done.
  - destruct He as [[-> H]|[-> H]]; (rewrite bool_decide_eq_false_2 by done); [left|right]; (split; [done|]); [|done].
    intros (_ & _ & ?). done.
Qed.

(** The segments of a worker, in the order of the manifest, continue each other. *)
Fixpoint continue_all (seen : list Index.entry) (es : list ManifestSegmentEntry) : Prop :=
  match es with
  | [] => True
  | e :: es => continues worker seen e /\ continue_all (seen ++ segment_records e) es
  end.

Lemma scan_segments_spec idxs es : Forall2 (fun idx e => vec_get (m_segments m) idx = Ok e) idxs es ->
  Forall stored es -> Forall entry_identified es -> forall seen w, scan_ok seen (ws_context w) ->
  match scan_segments sys disk health m idxs w with
  | Ok w' => scan_ok (seen ++ segments_records es) (ws_context w') /\ continue_all seen es /\
      ws_active_segment w' = foldl next_active (ws_active_segment w) es /\
      ws_requires_rotation w' = foldl next_rotation (ws_requires_rotation w) es /\
      ws_segments w' = ws_segments w ++ zip idxs (commit_found <$> es)
  | Err err => ~ Forall accessible es \/ err = corrupted_data /\ ~ continue_all seen es \/
      err = resource_exhausted /\ exceeded (seen ++ segments_records es)
  | Stuck _ => False
  end.
Proof.
  unfold segments_records. induction 1 as [|idx e idxs es Hget _ IH]; intros Hst Hid seen w Hok; cbn [scan_segments map concat foldl continue_all].
  { rewrite !app_nil_r. done. }
  apply Forall_cons in Hst as [Hse Hst]. apply Forall_cons in Hid as [Hie Hid].
  pose proof (scan_segment_spec seen idx e w Hse Hie Hget Hok) as H.
  destruct (scan_segment sys disk health m idx w) as [w'|err|f]; cbn [bindR]; [| |done].
  - destruct H as (Hok' & Hco & Ea & Er & Es). specialize (IH Hst Hid _ w' Hok'). rewrite <- app_assoc in IH.
    destruct (scan_segments sys disk health m idxs w') as [w2|err|f]; [| |done].
    + destruct IH as (? & ? & Ea' & Er' & Es'). rewrite Ea', Ea, Er', Er, Es', Es, <- app_assoc. done.
    + destruct IH as [H|[[-> H]|[-> H]]]; [left|right; left|right; right; done].
      * intros Hf. apply Forall_cons in Hf as [_ ?]. done.
      * split; [done|]. by intros [_ ?].
  - destruct H as [H|[[-> H]|[-> H]]]; [left|right; left|right; right].
    + intros Hf. apply Forall_cons in Hf as [? _]. done.
    + split; [done|]. by intros [? _].
    + split; [done|]. unfold exceeded in *. rewrite app_assoc, cost_app. pose proof (cost_nonneg (concat (map segment_records es))). lia.
Qed.

(** The records of a worker are consistent. *)
Definition consistent (es : list ManifestSegmentEntry) : Prop :=
  increasing 0 (segments_records es).*2 /\ Forall (placed worker (m_worker_count m) (worker_routing m)) (segments_records es) /\
  Forall lifecycle_ok es.

Lemma continue_all_app seen es : continue_all seen es <->
  increasing (last_seq seen.*2) (segments_records es).*2 /\
  Forall (placed worker (m_worker_count m) (worker_routing m)) (segments_records es) /\ Forall lifecycle_ok es.
Proof.
  unfold segments_records. revert seen. induction es as [|e es IH]; intros seen; cbn [continue_all map concat]; [cbn; naive_solver|].
  assert (E : last_seq (seen ++ segment_records e).*2 = foldl (fun _ i => in_sequence i) (last_seq seen.*2) (log_of e)).
  { unfold last_seq. rewrite fmap_app, foldl_app, segment_records_inputs. done. }
  rewrite IH, E, fmap_app, increasing_app, Forall_app, Forall_cons, segment_records_inputs. unfold continues. tauto.
Qed.

Lemma continue_all_consistent es : continue_all [] es <-> consistent es.
Proof. apply continue_all_app. Qed.

Lemma scan_worker_spec idxs es : budget_ok budget -> Forall2 (fun idx e => vec_get (m_segments m) idx = Ok e) idxs es ->
  Forall stored es -> Forall entry_identified es ->
  match scan_worker sys disk health m now_ns worker idxs budget with
  | Ok w => scan_ok (segments_records es) (ws_context w) /\ consistent es /\
      ws_active_segment w = foldl next_active 0 es /\ ws_requires_rotation w = foldl next_rotation false es /\
      ws_segments w = zip idxs (commit_found <$> es)
  | Err err => ~ Forall accessible es \/ err = corrupted_data /\ ~ consistent es \/
      err = resource_exhausted /\ exceeded (segments_records es)
  | Stuck _ => False
  end.
Proof.
  intros Hb Hget Hst Hid. unfold scan_worker. set (w := mkWorkerScan _ _ _ _).
  assert (Hok : scan_ok [] (ws_context w)).
  { split; cbn; try done; try lia. intros k. rewrite fmap_empty, lookup_empty. by intros e ?%not_elem_of_nil. }
  pose proof (scan_segments_spec idxs es Hget Hst Hid [] w Hok) as H.
  destruct (scan_segments _ _ _ _ _ _) as [w'|err|f]; [| |done]; rewrite <- continue_all_consistent; exact H.
Qed.
End worker_scan.
End store.

(** ** The index of a worker *)

Definition revealed (r : RecoveryLatest) : option RecordRef := if visible r then Some (latest_reference r) else None.

(** The bytes of the live records inside or outside of a segment. *)
Definition live_bytes (segment : Z) (inside : bool) (index : gmap (list Z) RecordRef) : Z :=
  map_fold (fun _ r n => (if Bool.eqb (ref_segment_id r =? segment) inside then ref_size r else 0) + n) 0 index.

Lemma live_bytes_insert segment inside index k r : index !! k = None ->
  live_bytes segment inside (<[k := r]> index) =
  (if Bool.eqb (ref_segment_id r =? segment) inside then ref_size r else 0) + live_bytes segment inside index.
Proof. intros H. unfold live_bytes. rewrite map_fold_insert_L; [done|lia|done]. Qed.

Lemma shown_plain r : shown (plain r) = revealed r.
Proof. unfold shown, revealed, visible. destruct r as [ref h [] []]; done. Qed.

Section build.
Variables (routing : WorkerRoutingState) (seed : Z).

Definition insertable (x : list Z * RecoveryLatest) : Prop :=
  bytes_ok x.1 /\ zlen x.1 < kInlineKeyMask /\ latest_key_hash x.2 = hash_of routing x.1.

(** The entries as the rebuild of an index has them. *)
Definition plain_entries (l : list (list Z * RecoveryLatest)) : list (list Z * LatestRecord) := prod_map id plain <$> l.
Definition entry_of (l : list (list Z * RecoveryLatest)) (k : list Z) : option RecordRef :=
  (list_to_map l : gmap (list Z) RecoveryLatest) !! k ≫= revealed.

(** Why the loop may overflow: the keys exceed the arena, or the bytes of live records in
    the active segment or outside it exceed 64 bits. *)
Definition loop_exceeds (active : Z) (l : list (list Z * RecoveryLatest)) (t : SwissTableIndex) (index : gmap (list Z) RecordRef) : Prop :=
  umax 32 < t_heap_live_bytes t + keys_use (shown_keys (plain_entries l)) \/
  exists inside index', (forall k r, index' !! k = Some r -> entry_of l k = Some r \/ index !! k = Some r) /\
    umax 64 < live_bytes active inside index'.

Lemma build_loop_spec active l : NoDup l.*1 -> Forall insertable l -> forall base live stats t index,
  fresh_table routing seed t index -> live = (live_bytes active true index, live_bytes active false index) ->
  records_visible stats = u64 (base + Z.of_nat (size index)) -> (forall k, k ∈ l.*1 -> index !! k = None) ->
  Z.of_nat (size index) + zlen l <= t_capacity t - t_capacity t / 8 ->
  runs (build_loop active l live stats t)
    (fun r t' => exists index', table_ok routing seed t' index' /\
       r.1 = (live_bytes active true index', live_bytes active false index') /\
       records_visible r.2 = u64 (base + Z.of_nat (size index')) /\
       forall k, index' !! k = match (list_to_map l : gmap (list Z) RecoveryLatest) !! k with Some r => revealed r | None => index !! k end)
    (fun e _ => e = arithmetic_overflow /\ loop_exceeds active l t index).
Proof.
  induction l as [|[key record] l IH]; intros Hnd Hall base live stats t index Hok Hlive Hst Hm Hroom; cbn [build_loop].
  { exists index. split_and!; [apply Hok|done|done|]. intros k. by rewrite list_to_map_nil, lookup_empty. }
  cbn [fmap list_fmap fst] in Hnd, Hm. apply NoDup_cons in Hnd as [Hni Hnd].
  apply Forall_cons in Hall as [(Hk & Hlen & Hh) Hall]. cbn [fst snd] in *. rewrite zlen_cons in Hroom. pose proof (zlen_nonneg l).
  assert (Hnone : index !! key = None) by (apply Hm; left).
  assert (Hin : forall k, k ∈ l.*1 -> index !! k = None) by (intros k Hin; apply Hm; by right).
  assert (Hentry : forall k r, entry_of l k = Some r -> entry_of ((key, record) :: l) k = Some r).
  { intros k r. unfold entry_of. rewrite list_to_map_cons. destruct (decide (key = k)) as [<-|Hne]; [|by rewrite lookup_insert_ne].
    by rewrite not_elem_of_list_to_map_1. }
  assert (Hskip : revealed record = None -> forall st', records_visible st' = records_visible stats ->
    runs (build_loop active l live st' t) (fun r t' => exists index', table_ok routing seed t' index' /\
       r.1 = (live_bytes active true index', live_bytes active false index') /\
       records_visible r.2 = u64 (base + Z.of_nat (size index')) /\
       forall k, index' !! k = match (list_to_map ((key, record) :: l) : gmap (list Z) RecoveryLatest) !! k with Some r => revealed r | None => index !! k end)
      (fun e _ => e = arithmetic_overflow /\ loop_exceeds active ((key, record) :: l) t index)).
  { intros Hs st' Est. eapply runs_weaken; [apply (IH Hnd Hall base live st' t index Hok Hlive); [congruence|done|lia]|..].
    - intros r t2 (m2 & ? & ? & ? & Hm2). exists m2. split_and!; [done..|]. intros k. rewrite Hm2. rewrite list_to_map_cons.
      destruct (decide (key = k)) as [<-|Hne]; [|by rewrite lookup_insert_ne].
      rewrite lookup_insert_eq, not_elem_of_list_to_map_1 by done. by rewrite Hs, Hnone.
    - intros e t2 [-> [Hbig|(inside & index' & Hi & Hbig)]]; (split; [done|]).
      + left. unfold plain_entries, shown_keys. cbn [fmap list_fmap omap list_omap prod_map fst snd]. by rewrite shown_plain, Hs.
      + right. exists inside, index'. split; [|done]. intros k r Hr. destruct (Hi k r Hr); auto. }
  assert (Hkeys : revealed record <> None -> keys_use (shown_keys (plain_entries ((key, record) :: l))) =
    key_use key + keys_use (shown_keys (plain_entries l))).
  { intros Hs. unfold plain_entries, shown_keys. cbn [fmap list_fmap omap list_omap prod_map fst snd]. rewrite shown_plain.
    by destruct (revealed record). }
  assert (Hrev : forall r, revealed record = Some r -> entry_of ((key, record) :: l) key = Some r).
  { intros r Hs. unfold entry_of. by rewrite list_to_map_cons, lookup_insert_eq. }
  unfold revealed, visible in Hskip, Hkeys, Hrev. destruct (latest_deleted record) eqn:Ed; [by apply Hskip|].
  destruct (latest_expired record) eqn:Ee; [by apply Hskip|]. clear Hskip. rewrite Hh. specialize (Hkeys ltac:(done)).
  specialize (Hrev (latest_reference record) eq_refl).
  eapply runs_bindM_err; [apply (insert_fresh routing seed t index key (latest_reference record) Hok); [done..|lia]| |].
  2:{ intros e t' [-> Hbig]. split; [done|]. left. rewrite Hkeys. pose proof (keys_use_nonneg (shown_keys (plain_entries l))). lia. }
  intros x t1 (Hok1 & Hcap & Hheap). set (r := latest_reference record) in *.
  assert (Hmore : forall k r', <[key := r]> index !! k = Some r' -> entry_of ((key, record) :: l) k = Some r' \/ index !! k = Some r').
  { intros k r' [[<- <-]|[_ ?]]%lookup_insert_Some; auto. }
  destruct (_ >? _) eqn:Eo.
  { split; [done|]. right. exists (ref_segment_id r =? active), (<[key := r]> index). split; [done|].
    rewrite live_bytes_insert, Bool.eqb_reflx by done. rewrite Hlive in Eo. cbn [fst snd] in Eo.
    rewrite Z.gtb_lt in Eo. destruct (ref_segment_id r =? active); lia. }
  eapply runs_weaken; [apply (IH Hnd Hall base _ (count_visible stats) t1 _ Hok1)|..].
  - rewrite !live_bytes_insert by done. rewrite Hlive. cbn [fst snd]. destruct (ref_segment_id r =? active); cbn [Bool.eqb]; f_equal; lia.
  - cbn. rewrite Hst, map_size_insert_None by done. unfold wrap. rewrite Zplus_mod_idemp_l. f_equal. lia.
  - intros k Hkin. rewrite lookup_insert_ne by (intros <-; done). auto.
  - rewrite map_size_insert_None, Hcap by done. lia.
  - intros r2 t2 (m2 & ? & ? & ? & Hm2). exists m2. split_and!; [done..|]. intros k. rewrite Hm2. rewrite list_to_map_cons.
    destruct (decide (key = k)) as [<-|Hne]; [|by rewrite !lookup_insert_ne].
    rewrite !lookup_insert_eq, not_elem_of_list_to_map_1 by done. unfold revealed, visible. by rewrite Ed, Ee.
  - intros e t2 [-> [Hbig|(inside & index' & Hi & Hbig)]]; (split; [done|]).
    + left. rewrite Hkeys. lia.
    + right. exists inside, index'. split; [|done]. intros k r' Hr. destruct (Hi k r' Hr); auto.
Qed.
End build.

(** The live record of a key: its newest one, if that is not a tombstone and has not
    expired. *)
Definition live (seen : list Index.entry) (now_ns : Z) (k : list Z) (r : RecordRef) : Prop := shows seen now_ns k r.
Definition live_index (seen : list Index.entry) (now_ns : Z) (index : gmap (list Z) RecordRef) : Prop :=
  forall k r, index !! k = Some r <-> live seen now_ns k r.

(** Why the records of a worker may overflow: the sequences are used up, an index of them
    cannot be made, or the bytes of live records exceed 64 bits. *)
Definition overflows (seen : list Index.entry) (now_ns active : Z) : Prop :=
  last_seq seen.*2 = umax 64 \/ exceeds seen now_ns \/
  exists inside index, (forall k r, index !! k = Some r -> live seen now_ns k r) /\ umax 64 < live_bytes active inside index.

Lemma live_index_unique seen now_ns index index' : live_index seen now_ns index -> live_index seen now_ns index' -> index = index'.
Proof.
  intros H H'. apply map_eq. intros k. apply option_eq. intros r. by rewrite (H k r), (H' k r).
Qed.

Lemma filter_length_perm {A} (f : A -> bool) l l' : l ≡ₚ l' -> length (List.filter f l) = length (List.filter f l').
Proof. induction 1; cbn; repeat destruct (f _); cbn; congruence. Qed.

Lemma visible_size (latest : gmap (list Z) RecoveryLatest) l : l ≡ₚ map_to_list latest ->
  length (List.filter (fun e => visible e.2) l) = size (omap revealed latest).
Proof.
  intros H. rewrite (filter_length_perm _ _ _ H). clear. induction latest as [|k r latest Hk IH] using map_ind.
  { by rewrite map_to_list_empty, omap_empty, map_size_empty. }
  rewrite (filter_length_perm _ _ _ (map_to_list_insert _ _ _ Hk)). cbn [List.filter snd].
  destruct (visible r) eqn:Ev.
  - rewrite (omap_insert_Some _ _ _ _ (latest_reference r)) by (unfold revealed; by rewrite Ev).
    rewrite map_size_insert_None by (rewrite lookup_omap, Hk; done). cbn. by rewrite IH.
  - rewrite omap_insert_None by (unfold revealed; by rewrite Ev). rewrite delete_id by (rewrite lookup_omap, Hk; done). done.
Qed.

Section build_worker.
Variables (iterate : gmap (list Z) RecoveryLatest -> list (list Z * RecoveryLatest)).
Hypothesis iterate_perm : forall latest, iterate latest ≡ₚ map_to_list latest.
Variables (worker worker_count : Z) (routing : WorkerRoutingState) (now_ns : Z) (budget : RecoveryMemoryBudget) (seed : Z).
Abbreviation scan_ok := (scan_ok worker worker_count routing now_ns budget).

Lemma scan_live seen c : scan_ok seen c -> live_index seen now_ns (omap revealed (scan_latest c)).
Proof.
  intros H k r. unfold live, shows. rewrite lookup_omap. rewrite <- (shown_latest _ _ _ _ _ (so_latest _ _ _ _ _ _ _ H)).
  rewrite lookup_fmap. destruct (scan_latest c !! k) as [x|]; [|done]. cbn. by rewrite shown_plain.
Qed.

Lemma scan_insertable seen c : scan_ok seen c -> Forall (insertable routing) (iterate (scan_latest c)).
Proof.
  intros H. rewrite iterate_perm. apply Forall_forall. intros [k r] Hin%elem_of_map_to_list.
  destruct (latest_key now_ns seen (plain <$> scan_latest c) k (plain r)) as [? ?]; [apply H|apply H|by rewrite lookup_fmap, Hin|].
  split_and!; [done|done|]. by apply (so_hash _ _ _ _ _ _ _ H).
Qed.

Lemma index_built active stats seen c : scan_ok seen c -> zlen seen < 2 ^ 64 -> is_u64 (records_visible stats) ->
  let index := omap revealed (scan_latest c) in
  runs ((reserve (Z.of_nat (size (scan_latest c))) ;;! build_loop active (iterate (scan_latest c)) (0, 0) stats) (new_table routing seed))
    (fun r t => table_ok routing seed t index /\ r.1 = (live_bytes active true index, live_bytes active false index) /\
       is_u64 (records_visible r.2))
    (fun e _ => e = arithmetic_overflow /\ overflows seen now_ns active).
Proof using iterate_perm.
  intros Hok Hlen Hst index. assert (Hnd : NoDup (iterate (scan_latest c)).*1) by (rewrite iterate_perm; apply NoDup_fst_map_to_list).
  pose proof (latest_size _ _ _ (so_latest _ _ _ _ _ _ _ Hok)) as Hsize. rewrite map_size_fmap in Hsize.
  assert (Hll : zlen (iterate (scan_latest c)) = Z.of_nat (size (scan_latest c)))
    by (unfold zlen; by rewrite iterate_perm, length_map_to_list).
  assert (Hplain : plain_entries (iterate (scan_latest c)) ≡ₚ map_to_list (plain <$> scan_latest c)).
  { unfold plain_entries. by rewrite iterate_perm, map_to_list_fmap. }
  assert (Hex : forall P, exceeds seen now_ns \/ P -> last_seq seen.*2 = umax 64 \/ exceeds seen now_ns \/ P) by tauto.
  eapply runs_bindM_err; [apply (reserve_fresh routing seed _ ∅ _ (empty_fresh routing seed 3 ltac:(lia)))|..].
  - unfold zlen in Hlen. width. lia.
  - intros [] t1 [Hok1 Hroom]. eapply runs_weaken; [eapply (build_loop_spec routing seed _ _ Hnd (scan_insertable _ _ Hok) (records_visible stats)); [exact Hok1|..]|..].
    + done.
    + rewrite map_size_empty, Z.add_0_r, wrap_small; done.
    + intros k _. apply lookup_empty.
    + rewrite map_size_empty, Hll. lia.
    + intros r t2 (m2 & Hok2 & Hl2 & Hv & Hm2). assert (m2 = index) as ->; [|split; [done|]; split; [done|]; rewrite Hv; apply wrap_range; lia].
      apply map_eq. intros k. unfold index. rewrite Hm2, (list_to_map_proper _ (map_to_list (scan_latest c))), list_to_map_to_list, lookup_empty, lookup_omap
        by (done || apply iterate_perm). by destruct (scan_latest c !! k).
    + intros e t2 [-> Hbig]. split; [done|]. apply Hex. destruct Hbig as [Hbig|(inside & index' & Hi & Hbig)].
      * left. apply (exceeds_latest now_ns seen _ _ (so_latest _ _ _ _ _ _ _ Hok) Hplain). right.
        rewrite (empty_live _ _ _ (proj1 Hok1)) in Hbig. lia.
      * right. exists inside, index'. split; [|done]. intros k r Hr. apply (scan_live _ _ Hok).
        destruct (Hi k r Hr) as [Hl|Hl]; [|by rewrite lookup_empty in Hl]. unfold entry_of in Hl.
        rewrite (list_to_map_proper _ (map_to_list (scan_latest c))), list_to_map_to_list in Hl by (done || apply iterate_perm).
        by rewrite lookup_omap.
  - intros e t' [-> Hbig]. split; [done|]. apply Hex. left.
    apply (exceeds_latest now_ns seen _ _ (so_latest _ _ _ _ _ _ _ Hok) Hplain). left.
    unfold plain_entries, zlen. rewrite length_fmap. fold (zlen (iterate (scan_latest c))). by rewrite Hll.
Qed.

(** The worker a scan that saw [seen] gives. *)
Record worker_built (seen : list Index.entry) (limit active : Z) (rotation : bool) (rw : RecoveredWorkerState) : Prop := {
  wb_id : rw_worker_id rw = worker;
  wb_next : rw_next_sequence rw = last_seq seen.*2 + 1;
  wb_fits : is_u64 (rw_next_sequence rw);
  wb_active : rw_active_segment rw = active;
  wb_rotation : rw_active_requires_rotation rw = rotation;
  wb_index : exists index, table_ok routing seed (rw_index rw) index /\ live_index seen now_ns index /\
    rw_active_live_record_bytes rw = live_bytes active true index /\
    rw_sealed_live_record_bytes rw = live_bytes active false index /\ Z.of_nat (size index) <= limit
}.

Lemma build_spec worker_index limits stats seen w : scan_ok seen (ws_context w) -> zlen seen < 2 ^ 64 ->
  is_u64 (records_visible (rebuild stats)) ->
  let limit := durable_worker_live_key_limit worker_index worker_count (max_live_keys limits) in
  match build iterate worker worker_index worker_count routing limits seed w stats with
  | Ok (rw, stats') => worker_built seen limit (ws_active_segment w) (ws_requires_rotation w) rw /\
      segments_scanned stats' = segments_scanned stats /\ is_u64 (records_visible (rebuild stats'))
  | Err e => e = arithmetic_overflow /\ overflows seen now_ns (ws_active_segment w) \/ e = resource_exhausted /\
      forall index, live_index seen now_ns index -> limit < Z.of_nat (size index)
  | Stuck _ => False
  end.
Proof using iterate_perm.
  intros Hok Hlen Hst limit. unfold build. set (c := ws_context w) in *. pose proof (scan_live _ _ Hok) as Hlive.
  destruct (Z.eqb_spec (scan_maximum c) (umax 64)) as [Em|Em].
  { left. split; [done|]. left. by rewrite <- (so_maximum _ _ _ _ _ _ _ Hok). }
  fold limit.
  set (index := omap revealed (scan_latest c)) in *.
  assert (Ev : zlen (List.filter (fun e => visible e.2) (iterate (scan_latest c))) = Z.of_nat (size index)).
  { unfold zlen. f_equal. apply visible_size, iterate_perm. }
  rewrite Ev, Z.gtb_ltb. destruct (Z.ltb_spec limit (Z.of_nat (size index))) as [Hl|Hl].
  { right. split; [done|]. intros index' Hi. by rewrite (live_index_unique _ _ _ _ Hi Hlive). }
  pose proof (index_built (ws_active_segment w) (rebuild stats) seen c Hok Hlen Hst) as Hrun. fold index in Hrun.
  destruct ((reserve _ ;;! build_loop _ _ _ _) _) as [[[lv st]|e|f] t]; cbn [runs bindR fst snd] in Hrun |- *; [|by left|done].
  destruct Hrun as (Ht & -> & Hvis). split; [|done]. pose proof (so_maximum _ _ _ _ _ _ _ Hok) as Hmax. split; cbn; try done; [lia| |by exists index].
  pose proof (so_inputs _ _ _ _ _ _ _ Hok) as Hin. assert (is_u64 (scan_maximum c)) as Hu; [|unfold umax in Em; width; lia].
  rewrite Hmax. apply last_seq_u64. by apply Forall_fmap.
Qed.
End build_worker.

(** ** The catalog *)

Fixpoint indices_of (w : Z) (segments : list ManifestSegmentEntry) (index : Z) : list Z :=
  match segments with
  | [] => []
  | e :: segments => (if me_owner_worker e =? w then [index] else []) ++ indices_of w segments (index + 1)
  end.
Definition owned (w : Z) (segments : list ManifestSegmentEntry) : list ManifestSegmentEntry :=
  List.filter (fun e => me_owner_worker e =? w) segments.

Lemma indices_get w before segments :
  Forall2 (fun i e => vec_get (before ++ segments) i = Ok e) (indices_of w segments (zlen before)) (owned w segments).
Proof.
  revert before. induction segments as [|e segments IH]; intros before; cbn [indices_of owned List.filter]; [constructor|].
  specialize (IH (before ++ [e])). rewrite <- app_assoc, zlen_app in IH. cbn [app] in IH. change (zlen [e]) with 1 in IH.
  destruct (me_owner_worker e =? w); cbn [app]; [|exact IH]. constructor; [|exact IH].
  unfold zlen. apply vec_get_Some. by rewrite lookup_app_r, Nat.sub_diag by lia.
Qed.

Lemma indices_in w segments index i : i ∈ indices_of w segments index <->
  exists j e, segments !! j = Some e /\ me_owner_worker e = w /\ i = index + Z.of_nat j.
Proof.
  revert index. induction segments as [|e segments IH]; intros index; cbn [indices_of].
  { split; [by intros ?%not_elem_of_nil|]. by intros (j & e & H & _). }
  rewrite elem_of_app, IH. split.
  - intros [H|(j & e' & Hj & Ho & ->)].
    + destruct (Z.eqb_spec (me_owner_worker e) w) as [E|]; [|by apply not_elem_of_nil in H].
      apply list_elem_of_singleton in H as ->. exists 0%nat, e. split_and!; [done|done|lia].
    + exists (S j), e'. split_and!; [done|done|lia].
  - intros ([|j] & e' & Hj & Ho & ->); cbn in Hj.
    + left. simplify_eq. rewrite Z.eqb_refl. apply list_elem_of_singleton. lia.
    + right. exists j, e'. split_and!; [done|done|lia].
Qed.

Lemma group_spec segments index groups : Forall (fun e => 0 <= me_owner_worker e < zlen groups) segments ->
  exists groups', group_by_owner segments index groups = Ok groups' /\ length groups' = length groups /\
    forall w g, groups !! w = Some g -> groups' !! w = Some (g ++ indices_of (Z.of_nat w) segments index).
Proof.
  revert index groups. induction segments as [|e segments IH]; intros index groups Hall; cbn [group_by_owner indices_of].
  { exists groups. split_and!; [done..|]. intros w g ->. by rewrite app_nil_r. }
  apply Forall_cons in Hall as [He Hall]. destruct (vec_get_at groups _ He) as (g0 & -> & Hg0). cbn [bindR].
  rewrite vec_set_at by done. cbn [bindR]. set (groups1 := <[_ := _]> groups).
  assert (E1 : length groups1 = length groups) by apply length_insert.
  destruct (IH (index + 1) groups1) as (groups' & -> & El & Hg); [unfold zlen; by rewrite E1|].
  exists groups'. split_and!; [done|congruence|]. intros w g Hw. destruct (decide (Z.to_nat (me_owner_worker e) = w)) as [<-|Hne].
  - rewrite Z2Nat.id, Z.eqb_refl by lia. rewrite Hg0 in Hw. injection Hw as <-.
    specialize (Hg (Z.to_nat (me_owner_worker e)) (g0 ++ [index])). rewrite Z2Nat.id, <- app_assoc in Hg by lia. apply Hg.
    apply list_lookup_insert_eq. unfold zlen in He. lia.
  - destruct (Z.eqb_spec (me_owner_worker e) (Z.of_nat w)); [lia|]. apply Hg. unfold groups1. by rewrite list_lookup_insert_ne.
Qed.

Lemma place_segments_spec segments v : Forall (fun x : Z * SelectedSegmentCommit => 0 <= x.1 < zlen v) segments ->
  exists v', place_segments segments v = Ok v' /\ length v' = length v /\
    (forall i, i ∉ segments.*1 -> v' !! Z.to_nat i = v !! Z.to_nat i \/ i < 0) /\
    forall i sel, (forall sel', (i, sel') ∈ segments -> sel' = sel) -> i ∈ segments.*1 -> v' !! Z.to_nat i = Some (Some sel).
Proof.
  revert v. induction segments as [|[i0 sel0] segments IH]; intros v Hall; cbn [place_segments].
  { exists v. split_and!; [done|done|by left|]. by intros i sel _ ?%not_elem_of_nil. }
  apply Forall_cons in Hall as [Hi0 Hall]. cbn [fst] in Hi0. rewrite vec_set_at by done. cbn [bindR].
  set (v1 := <[Z.to_nat i0 := Some sel0]> v). assert (E1 : length v1 = length v) by apply length_insert.
  destruct (IH v1) as (v' & -> & El & Hout & Hin); [unfold zlen; by rewrite E1|].
  exists v'. split_and!; [done|congruence|..].
  - intros i Hi. cbn in Hi. apply not_elem_of_cons in Hi as [Hne Hi]. destruct (Hout i Hi) as [E|E]; [|by right].
    destruct (decide (i < 0)); [by right|]. left. rewrite E. unfold v1. apply list_lookup_insert_ne. lia.
  - intros i sel Hsel Hi. destruct (decide (i ∈ segments.*1)) as [Hd|Hd].
    + apply Hin; [|done]. intros sel' H. apply Hsel. by right.
    + cbn in Hi. apply elem_of_cons in Hi as [->|Hi]; [|done]. destruct (Hout i0 Hd) as [E|E]; [|lia]. rewrite E. unfold v1.
      rewrite list_lookup_insert_eq by (unfold zlen in Hi0; lia). do 2 f_equal. apply Hsel. by left.
Qed.

(** ** The workers *)

Section workers.
Variables (iterate : gmap (list Z) RecoveryLatest -> list (list Z * RecoveryLatest)).
Hypothesis iterate_perm : forall latest, iterate latest ≡ₚ map_to_list latest.
Variables (sys : System) (disk : Disk) (m : Manifest).
Variables (slot_of generation_of state_of : ManifestSegmentEntry -> Z) (log_of : ManifestSegmentEntry -> list RecordInput).
Variables (health : bool) (now_ns : Z) (limits : DurableResourceLimits) (seeds : Z -> Z).
Hypothesis m_ok : manifest_ok m.
Hypothesis m_valid : manifest_valid m.
Hypothesis m_stored : Forall (stored disk m slot_of generation_of state_of log_of) (m_segments m).

Abbreviation commit_found := (commit_found slot_of generation_of state_of log_of).
Abbreviation consistent := (consistent m state_of log_of).
Abbreviation accessible := (accessible sys disk m health).

(** What a worker left in its segments. *)
Definition records_of (w : Z) : list Index.entry := segments_records m log_of (owned w (m_segments m)).
Definition live_limit (w : Z) : Z := durable_worker_live_key_limit w (m_worker_count m) (max_live_keys limits).

Lemma manifest_identified : Forall (entry_identified m) (m_segments m).
Proof using m_ok m_valid.
  destruct m_ok as (H1 & H2 & _ & _ & _ & _ & _ & _ & _ & Hes). pose proof (mv_entries m m_valid) as Hev.
  pose proof (mv_ordered m m_valid) as Hs. apply Forall_forall. intros e He. rewrite Forall_forall in Hes, Hev.
  destruct (Hes e He) as (E1 & E2 & E3 & _), (Hev e He) as (V1 & _). unfold entry_identified, identity_ok, identity_valid. cbn.
  split_and!; try done; [apply m_valid|].
  apply Sorted_StronglySorted in Hs; [|intros ?; lia]. inversion Hs as [|? ? _ Hf]; subst. clear Hs.
  rewrite Forall_forall in Hf. specialize (Hf (me_segment_id e)). enough (0 < me_segment_id e) by lia. apply Hf.
  apply elem_of_app. left. apply list_elem_of_In, in_map, list_elem_of_In, He.
Qed.

(** The state of the loop when the workers below [w] are done. *)
Definition worker_recovered (w : Z) (rw : RecoveredWorkerState) : Prop :=
  worker_built w (worker_routing m) now_ns (seeds w) (records_of w) (live_limit w)
    (foldl next_active 0 (owned w (m_segments m))) (foldl (next_rotation state_of) false (owned w (m_segments m))) rw.

Definition segments_placed (w : Z) (v : list (option SelectedSegmentCommit)) : Prop :=
  length v = length (m_segments m) /\
  forall i e, m_segments m !! i = Some e -> v !! i = Some (if me_owner_worker e <? w then Some (commit_found e) else None).

(** Why recovery may refuse the records of a worker. *)
Definition refused (w : Z) (e : ErrorCode) : Prop :=
  ~ Forall accessible (owned w (m_segments m)) \/ e = corrupted_data /\ ~ consistent w (owned w (m_segments m)) \/
  e = arithmetic_overflow /\ overflows (records_of w) now_ns (foldl next_active 0 (owned w (m_segments m))) \/
  e = resource_exhausted /\ forall index, live_index (records_of w) now_ns index -> live_limit w < Z.of_nat (size index).

Lemma owned_forall (P : ManifestSegmentEntry -> Prop) w : Forall P (m_segments m) -> Forall P (owned w (m_segments m)).
Proof. intros H. unfold owned. rewrite Forall_forall in H |- *. intros e He%list_elem_of_In%List.filter_In. apply H, list_elem_of_In, He. Qed.

Lemma placed_next w v : 0 <= w -> segments_placed w v ->
  exists v', place_segments (zip (indices_of w (m_segments m) 0) (commit_found <$> owned w (m_segments m))) v = Ok v' /\
    segments_placed (w + 1) v'.
Proof.
  intros Hw [Hlen Hv]. pose proof (indices_get w [] (m_segments m)) as Hget. cbn [app] in Hget. change (zlen []) with 0 in Hget.
  set (idxs := indices_of w (m_segments m) 0) in *. set (es := owned w (m_segments m)) in *.
  assert (El : length idxs = length es) by by apply Forall2_length in Hget.
  assert (Efst : (zip idxs (commit_found <$> es)).*1 = idxs) by (apply fst_zip; rewrite length_fmap; lia).
  assert (Hrange : forall i, i ∈ idxs -> 0 <= i < zlen v).
  { intros i (j & e & Hj & _ & ->)%indices_in. apply lookup_lt_Some in Hj. unfold zlen. lia. }
  assert (Hval : forall i sel, (i, sel) ∈ zip idxs (commit_found <$> es) -> exists e, vec_get (m_segments m) i = Ok e /\ sel = commit_found e).
  { clear -Hget. induction Hget as [|i e idxs es Hi _ IH]; cbn; intros j sel Hin; [by apply not_elem_of_nil in Hin|].
    apply elem_of_cons in Hin as [[= -> ->]|Hin]; eauto. }
  destruct (place_segments_spec (zip idxs (commit_found <$> es)) v) as (v' & Hp & El' & Hout & Hin).
  { apply Forall_forall. intros [i sel] H. apply Hrange. rewrite <- Efst. apply list_elem_of_fmap. by exists (i, sel). }
  exists v'. split; [done|]. split; [congruence|]. intros i e Hi. rewrite Efst in Hout, Hin.
  destruct (decide (me_owner_worker e = w)) as [Ho|Ho].
  - replace (me_owner_worker e <? w + 1) with true by lia. rewrite <- (Nat2Z.id i). apply Hin.
    + intros sel' (e' & He' & ->)%Hval. rewrite (vec_get_Some _ _ _ Hi) in He'. congruence.
    + apply indices_in. exists i, e. split_and!; [done|done|lia].
  - replace (me_owner_worker e <? w + 1) with (me_owner_worker e <? w) by lia. rewrite <- (Hv i e Hi).
    destruct (Hout (Z.of_nat i)) as [E|E]; [|by rewrite Nat2Z.id in E|lia].
    intros (j & e' & Hj & Ho' & Ej)%indices_in. assert (j = i) as -> by lia. congruence.
Qed.

Variables (audit : Audit) (groups : list (list Z)).
Hypothesis groups_owned : forall w, 0 <= w < m_worker_count m -> groups !! Z.to_nat w = Some (indices_of w (m_segments m) 0).
Abbreviation catalog := (mkRecoveryCatalog m audit groups).
Hypothesis records_few : forall w, zlen (records_of w) < 2 ^ 64.

Definition recovering (w : Z) (r : RecoveredWorkers * RecoveryMemoryBudget) : Prop :=
  segments_placed w (recovered_segments r.1) /\ budget_ok r.2 /\ is_u64 (records_visible (rebuild (recovered_stats r.1))).

Lemma recover_worker_spec w r : 0 <= w < m_worker_count m -> recovering w r ->
  match recover_worker iterate sys disk health now_ns limits seeds catalog w r with
  | Ok r' => recovering (w + 1) r' /\ consistent w (owned w (m_segments m)) /\
      (exists rw, recovered_workers r'.1 = recovered_workers r.1 ++ [rw] /\ worker_recovered w rw) /\
      budget_maximum r'.2 = budget_maximum r.2 /\ budget_retained r'.2 <= budget_retained r.2 + cost (records_of w)
  | Err e => refused w e \/ e = resource_exhausted /\ budget_maximum r.2 < budget_retained r.2 + cost (records_of w)
  | Stuck _ => False
  end.
Proof using iterate_perm m_ok m_valid m_stored groups_owned records_few.
  intros Hw (Hpl & Hb & Hst). destruct r as [rec budget]. cbn [fst snd] in *. unfold recover_worker. cbn [catalog_manifest segments_by_worker].
  pose proof (mv_workers m m_valid) as Hwc. unfold kMaximumWorkerCount in Hwc.
  assert (Hg : vec_get groups w = Ok (indices_of w (m_segments m) 0)).
  { rewrite <- (Z2Nat.id w) by lia. apply vec_get_Some. rewrite Z2Nat.id by lia. by apply groups_owned. }
  rewrite Hg. cbn [bindR]. rewrite !(wrap_small 32) by (width; lia).
  pose proof (scan_worker_spec sys disk m slot_of generation_of state_of log_of w now_ns budget health
    (indices_of w (m_segments m) 0) (owned w (m_segments m)) Hb (indices_get w [] (m_segments m))
    (owned_forall _ w m_stored) (owned_forall _ w manifest_identified)) as Hs.
  destruct (scan_worker _ _ _ _ _ _ _ _) as [scan|e|f]; cbn [bindR]; [| |done].
  2:{ unfold refused. destruct Hs as [?|[?|?]]; [left; by left|left; right; by left|by right]. }
  destruct Hs as (Hok & Hco & Ea & Er & Es). rewrite Es.
  destruct (placed_next w (recovered_segments rec) (proj1 Hw) Hpl) as (v' & Hv' & Hpl'). rewrite Hv'. cbn [bindR].
  set (stats := mkRecoveryStats _ _ _).
  pose proof (build_spec iterate iterate_perm w (m_worker_count m) (worker_routing m) now_ns budget (seeds w) w limits stats
    (records_of w) scan Hok (records_few w) Hst) as Hbu. cbn zeta in Hbu. fold (live_limit w) in Hbu.
  destruct (build _ _ _ _ _ _ _ _ _) as [[rw st']|e|f]; cbn [bindR fst snd]; [| |done].
  2:{ left. unfold refused. right. right. rewrite Ea in Hbu. exact Hbu. }
  destruct Hbu as (Hrw & _ & Hvis). rewrite Ea, Er in Hrw. split_and!.
  - split_and!; [done|apply Hok|done].
  - done.
  - by exists rw.
  - by rewrite (so_budget_max _ _ _ _ _ _ _ Hok).
  - apply (so_retained _ _ _ _ _ _ _ Hok).
Qed.

(** The memory the scans of the workers may take. *)
Definition scan_cost (ws : list Z) : Z := foldr (fun w n => cost (records_of w) + n) 0 ws.
Lemma scan_cost_nonneg ws : 0 <= scan_cost ws.
Proof. unfold scan_cost. induction ws as [|w ws IH]; cbn [foldr]; [done|]. pose proof (cost_nonneg (records_of w)). lia. Qed.

Lemma recover_from_spec todo w r : 0 <= w -> w + Z.of_nat todo <= m_worker_count m -> recovering w r ->
  match recover_workers_from iterate sys disk health now_ns limits seeds catalog todo w r with
  | Ok r' => recovering (w + Z.of_nat todo) r' /\
      Forall (fun w => consistent w (owned w (m_segments m))) (seqZ w (Z.of_nat todo)) /\
      exists rws, recovered_workers r'.1 = recovered_workers r.1 ++ rws /\ Forall2 worker_recovered (seqZ w (Z.of_nat todo)) rws
  | Err e => (exists w', w <= w' < w + Z.of_nat todo /\ refused w' e) \/
      e = resource_exhausted /\ budget_maximum r.2 < budget_retained r.2 + scan_cost (seqZ w (Z.of_nat todo))
  | Stuck _ => False
  end.
Proof using iterate_perm m_ok m_valid m_stored groups_owned records_few.
  revert w r. induction todo as [|todo IH]; intros w r Hw Hle Hr; cbn [recover_workers_from].
  { rewrite Z.add_0_r. split_and!; [done|constructor|]. exists []. rewrite app_nil_r. done. }
  rewrite seqZ_cons by lia. replace (Z.pred (Z.of_nat (S todo))) with (Z.of_nat todo) by lia. change (Z.succ w) with (w + 1).
  pose proof (recover_worker_spec w r ltac:(lia) Hr) as H. destruct (recover_worker _ _ _ _ _ _ _ _ _ _) as [r1|e|f]; cbn [bindR]; [| |done].
  - destruct H as (Hr1 & Hco & (rw & Erw & Hrw) & Emax & Eret).
    specialize (IH (w + 1) r1 ltac:(lia) ltac:(lia) Hr1). destruct (recover_workers_from _ _ _ _ _ _ _ _ _ _ _) as [r2|e|f]; [| |done].
    + destruct IH as (Hr2 & Hc2 & rws & E2 & F2). replace (w + Z.of_nat (S todo)) with (w + 1 + Z.of_nat todo) by lia.
      split_and!; [done|by constructor|]. exists (rw :: rws). rewrite E2, Erw, <- app_assoc. split; [done|by constructor].
    + destruct IH as [(w' & Hw' & Href)|[-> Hm]]; [left; exists w'; split; [lia|done]|right]. split; [done|]. cbn [scan_cost foldr]. fold (scan_cost (seqZ (w + 1) (Z.of_nat todo))). lia.
  - destruct H as [H|[-> H]]; [left; exists w; split; [lia|done]|right]. split; [done|]. cbn [scan_cost foldr].
    fold (scan_cost (seqZ (w + 1) (Z.of_nat todo))). pose proof (scan_cost_nonneg (seqZ (w + 1) (Z.of_nat todo))). lia.
Qed.

Lemma segments_done v : segments_placed (m_worker_count m) v -> v = (fun e => Some (commit_found e)) <$> m_segments m.
Proof using m_valid.
  intros [Hl Hv]. apply list_eq. intros i. rewrite list_lookup_fmap. destruct (m_segments m !! i) as [e|] eqn:Hi; cbn.
  - rewrite (Hv i e Hi). pose proof (mv_entries m m_valid) as Hev. rewrite Forall_forall in Hev.
    destruct (Hev e) as (_ & Ho & _); [by eapply list_elem_of_lookup_2|]. by rewrite (proj2 (Z.ltb_lt _ _) Ho).
  - apply lookup_ge_None in Hi. apply lookup_ge_None. lia.
Qed.

Lemma recover_workers_spec budget : budget_ok budget ->
  match recover_workers iterate sys disk health now_ns limits seeds catalog budget with
  | Ok (rec, _) => Forall (fun w => consistent w (owned w (m_segments m))) (seqZ 0 (m_worker_count m)) /\
      Forall2 worker_recovered (seqZ 0 (m_worker_count m)) (recovered_workers rec) /\
      recovered_segments rec = (fun e => Some (commit_found e)) <$> m_segments m
  | Err e => (exists w, 0 <= w < m_worker_count m /\ refused w e) \/
      e = resource_exhausted /\ budget_maximum budget < budget_retained budget + scan_cost (seqZ 0 (m_worker_count m))
  | Stuck _ => False
  end.
Proof using iterate_perm m_ok m_valid m_stored groups_owned records_few.
  intros Hb. pose proof (mv_workers m m_valid) as Hwc. unfold recover_workers. cbn [catalog_manifest]. set (r := (_, budget)).
  assert (Hr : recovering 0 r).
  { split_and!; [|done|by width]. split; [apply length_replicate|]. intros i e Hi. cbn [fst r recovered_segments].
    rewrite (proj2 (lookup_replicate _ _ _ _)) by (split; [done|by eapply lookup_lt_Some]).
    destruct m_ok as (_ & _ & _ & _ & _ & _ & _ & _ & _ & Hes). rewrite Forall_forall in Hes.
    destruct (Hes e) as (_ & _ & Ho & _); [by eapply list_elem_of_lookup_2|]. by rewrite (proj2 (Z.ltb_ge _ _)) by (unfold is_uint in Ho; lia). }
  pose proof (recover_from_spec (Z.to_nat (m_worker_count m)) 0 r ltac:(lia) ltac:(lia) Hr) as H. rewrite Z2Nat.id, Z.add_0_l in H by lia.
  destruct (recover_workers_from _ _ _ _ _ _ _ _ _ _ _) as [[rec b']|e|f]; [| |done].
  - destruct H as ((Hp & _) & Hc & rws & E & F2). cbn [fst] in *. split_and!; [done|by rewrite E|by apply segments_done].
  - exact H.
Qed.
End workers.
