(* ===== verification/RecoveryState.v ===== *)
(** * Recovery of the whole store

    [recover_durable_state] over a directory whose manifest is known and whose
    segments hold logs: what it returns when it succeeds, and why it may refuse. *)

From stdpp Require Import gmap.
From Stdlib Require Import ZifyBool.
From S2P Require Import Prelude Core Crc32c Record SegmentHeader Segment Routing Probing SwissTable SwissTableSpec Index Manifest Compaction CompactionIntent File SegmentFile SegmentFileSpec Namespace NamespaceSpec Directory DirectorySpec Recovery RecoverySpec.

(** ** Steps that always return *)

Definition returns {A} (r : Result A) : Prop := match r with Stuck _ => False | _ => True end.

Lemma returns_bind {A B} (r : Result A) (k : A -> Result B) : returns r -> (forall a, returns (k a)) -> returns (bindR r k).
Proof. destruct r; cbn; auto. Qed.
Lemma returns_not_stuck {A} (r : Result A) : (forall f, r <> Stuck f) -> returns r.
Proof. destruct r; cbn; [done..|]. intros H. by destruct (H f). Qed.

Lemma append_issue_returns a issue : returns (append_issue a issue).
Proof. unfold append_issue. by destruct (_ >=? _). Qed.
Lemma status_returns st : returns (status_at st).
Proof. by destruct st. Qed.

(** Both branches of every test. *)
Ltac returning := repeat first [exact I | apply append_issue_returns | case_match].

Lemma audit_entry_returns m e a : returns (audit_entry m e a).
Proof.
  unfold audit_entry. destruct (_ || _); [done|]. destruct (_ >? _); [done|]. destruct (is_engine_file _).
  - unfold audit_engine_file. apply returns_bind; [apply status_returns|]. intros st. returning.
  - destruct (parse_segment_filename e.1) as [p|err|f] eqn:E; [| |by apply parse_not_stuck in E].
    + unfold audit_segment_file. apply returns_bind; [apply status_returns|]. intros st. cbn zeta. returning.
    + unfold audit_other_file. apply returns_bind; [apply status_returns|]. intros st. returning.
Qed.

Lemma audit_returns l m : manifest_ok m -> returns (audit_data_directory l m).
Proof.
  intros Hok. unfold audit_data_directory.
  apply returns_bind; [apply returns_not_stuck; intros f; by apply manifest_size_returns|]. intros _.
  apply returns_bind; [by destruct (list_opened l)|]. intros _. apply returns_bind.
  { generalize (mkAudit 0 0 [] (replicate (length (m_segments m)) false) false false).
    induction (list_entries l) as [|e es IH]; intros a; cbn [audit_entries]; [done|]. apply returns_bind; [apply audit_entry_returns|done]. }
  intros a. apply returns_bind; [by destruct (list_error l)|]. intros _.
  apply returns_bind; [returning|]. intros a1.
  apply returns_bind; [returning|]. intros a2. apply returns_bind; [|done].
  generalize (catalog_seen a2) as seen. revert a2. induction (m_segments m) as [|e es IH]; intros a2 seen; cbn [audit_missing]; [done|].
  destruct seen as [|s seen]; [done|]. apply returns_bind; [returning|]. intros a3. apply IH.
Qed.

Lemma validate_returns a m intent : returns (validate_namespace_for_recovery a) /\ returns (validate_namespace_for_compaction_recovery a m intent).
Proof.
  split; [unfold validate_namespace_for_recovery; by destruct (List.find _ _)|].
  unfold validate_namespace_for_compaction_recovery. destruct (_ && _); [done|]. apply returns_bind; [|by intros []].
  generalize false as saw. induction (issues a) as [|x l IH]; intros saw; cbn [check_issues]; [done|].
  destruct (issue_kind x); auto; repeat (case_match; auto; try done).
Qed.

Lemma limits_returns limits : returns (validate_durable_resource_limits limits).
Proof. unfold validate_durable_resource_limits. by destruct (_ || _). Qed.

(** ** The catalog *)

Section state.
Variables (iterate : gmap (list Z) RecoveryLatest -> list (list Z * RecoveryLatest)).
Hypothesis iterate_perm : forall latest, iterate latest ≡ₚ map_to_list latest.
Variables (sys : DirectorySystem) (getrlimit : Result (option Z)) (disk : Disk) (listing clean_listing : Listing).
Hypothesis getrlimit_returns : forall f, getrlimit <> Stuck f.
Variables (now_ns : Z) (limits : DurableResourceLimits) (compaction_intent : option DurableCompactionIntent) (seeds : Z -> Z).
Hypothesis limits_width : limits_ok limits /\ is_u64 (max_recovery_memory_bytes limits).
Variables (m : Manifest).
Hypothesis m_ok : manifest_ok m.
Hypothesis m_valid : manifest_valid m.

(** The catalog is within the limits and the directory holds what it should. *)
Record admitted (audit : Audit) : Prop := {
  ad_limits : validate_durable_resource_limits limits = Ok tt;
  ad_resources : validate_durable_manifest_resources getrlimit m limits = Ok tt;
  ad_audit : audit_data_directory listing m = Ok audit;
  ad_safe : match compaction_intent with
            | Some intent => validate_namespace_for_compaction_recovery audit m intent
            | None => validate_namespace_for_recovery audit
            end = Ok tt
}.

(** What recovery retains before it scans. *)
Definition fixed_memory : Z :=
  manifest_size m + kRecoveryBytesPerSegment * zlen (m_segments m) + kRecoveryBytesPerWorker * m_worker_count m.

Lemma manifest_counts : 0 <= zlen (m_segments m) <= 1000000 /\ 0 < m_worker_count m < 2 ^ 32.
Proof using m_valid.
  pose proof (mv_count m m_valid). pose proof (mv_workers m m_valid). pose proof (zlen_nonneg (m_segments m)).
  unfold kMaximumManifestSegmentCount, kMaximumWorkerCount in *. lia.
Qed.

Lemma retain_fixed b : budget_ok b -> budget_retained b = 0 ->
  match (let? b := retain b (manifest_size m) in
         let? b := retain_repeated b kRecoveryBytesPerSegment (zlen (m_segments m)) in
         retain_repeated b kRecoveryBytesPerWorker (m_worker_count m)) with
  | Ok b' => budget_ok b' /\ budget_maximum b' = budget_maximum b /\ budget_retained b' = fixed_memory
  | Err _ => budget_maximum b < fixed_memory
  | Stuck _ => False
  end.
Proof using m_valid.
  intros Hb H0. destruct manifest_counts as [Hn Hw]. unfold fixed_memory, manifest_size.
  assert (Hrep : forall b u c, budget_ok b -> 0 < u <= 1024 -> 0 <= c < 2 ^ 32 ->
    retain_repeated b u c = Ok (mkBudget (budget_maximum b) (budget_retained b + u * c)) /\
      budget_ok (mkBudget (budget_maximum b) (budget_retained b + u * c)) \/
    retain_repeated b u c = Err resource_exhausted /\ budget_maximum b < budget_retained b + u * c).
  { clear. intros b u c Hb Hu Hc. unfold retain_repeated. rewrite (wrap_small 64) by (width; nia).
    replace (negb (u =? 0) && (c >? umax 64 / u)) with false; [apply retain_spec; [done|nia]|].
    symmetry. apply andb_false_iff. right. rewrite Z.gtb_ltb, Z.ltb_ge. apply Z.div_le_lower_bound; [lia|]. unfold umax. nia. }
  destruct (retain_spec b (128 + 32 * zlen (m_segments m)) Hb ltac:(lia)) as [[-> Hb1]|[-> Hl1]]; cbn [bindR].
  2:{ unfold kRecoveryBytesPerSegment, kRecoveryBytesPerWorker. lia. }
  destruct (Hrep _ kRecoveryBytesPerSegment (zlen (m_segments m)) Hb1) as [[-> Hb2]|[-> Hl2]]; [done|lia|cbn [bindR]..].
  2:{ cbn in Hl2. unfold kRecoveryBytesPerSegment, kRecoveryBytesPerWorker in *. lia. }
  destruct (Hrep _ kRecoveryBytesPerWorker (m_worker_count m) Hb2) as [[-> Hb3]|[-> Hl3]]; [done|lia|..].
  - split_and!; [done|done|]. cbn. rewrite H0. lia.
  - cbn in Hl3. lia.
Qed.

Definition catalog_groups (groups : list (list Z)) : Prop :=
  forall w, 0 <= w < m_worker_count m -> groups !! Z.to_nat w = Some (indices_of w (m_segments m) 0).

Lemma groups_found : exists groups,
  group_by_owner (m_segments m) 0 (replicate (Z.to_nat (m_worker_count m)) []) = Ok groups /\ catalog_groups groups.
Proof using m_ok m_valid.
  destruct manifest_counts as [_ Hw]. destruct m_ok as (_ & _ & _ & _ & _ & _ & _ & _ & _ & Hes). pose proof (mv_entries m m_valid) as Hev.
  destruct (group_spec (m_segments m) 0 (replicate (Z.to_nat (m_worker_count m)) [])) as (groups & E & _ & Hg).
  { rewrite Forall_forall in Hes, Hev |- *. intros e He. destruct (Hes e He) as (_ & _ & Ho & _), (Hev e He) as (_ & Ho' & _).
    unfold zlen. rewrite length_replicate. unfold is_uint in Ho. lia. }
  exists groups. split; [done|]. intros w Hw'. specialize (Hg (Z.to_nat w) []). rewrite Z2Nat.id in Hg by lia. apply Hg.
  apply lookup_replicate. split; [done|lia].
Qed.

Lemma resources_fit : validate_durable_manifest_resources getrlimit m limits = Ok tt -> manifest_size m <= max_manifest_bytes limits.
Proof using m_valid.
  destruct manifest_counts as [Hn _]. unfold validate_durable_manifest_resources, validate_count_and_manifest.
  destruct (validate_durable_resource_limits limits); cbn [bindR]; [|done..]. destruct (_ || _); [done|].
  rewrite durable_manifest_bytes_Ok by (unfold kMaximumManifestSegmentCount; lia). cbn [bindR]. unfold manifest_size.
  rewrite Z.gtb_ltb. destruct (Z.ltb_spec (max_manifest_bytes limits) (128 + 32 * zlen (m_segments m))); [done|]. lia.
Qed.

(** The part of [load_recovery_catalog] after the manifest was read. *)
Lemma admission b : budget_ok b -> budget_retained b = 0 ->
  match (validate_durable_manifest_resources getrlimit m limits ;;?
    let? manifest_memory := durable_manifest_bytes (zlen (m_segments m)) in
    let? budget := retain b manifest_memory in
    let? budget := retain_repeated budget kRecoveryBytesPerSegment (zlen (m_segments m)) in
    let? budget := retain_repeated budget kRecoveryBytesPerWorker (m_worker_count m) in
    let? audit := audit_data_directory listing m in
    match compaction_intent with
    | Some intent => validate_namespace_for_compaction_recovery audit m intent
    | None => validate_namespace_for_recovery audit
    end ;;?
    let? groups := group_by_owner (m_segments m) 0 (replicate (Z.to_nat (m_worker_count m)) []) in
    Ok (mkRecoveryCatalog m audit groups, budget)) with
  | Ok (c, b') => catalog_manifest c = m /\ (validate_durable_resource_limits limits = Ok tt -> admitted (catalog_audit c)) /\
      catalog_groups (segments_by_worker c) /\ budget_ok b' /\ budget_maximum b' = budget_maximum b /\ budget_retained b' = fixed_memory
  | Err _ => ~ ((exists audit, admitted audit) /\ fixed_memory <= budget_maximum b)
  | Stuck _ => False
  end.
Proof using getrlimit_returns limits_width m_ok m_valid.
  intros Hb H0. pose proof (manifest_resources_Ok getrlimit m limits (proj1 limits_width)) as Hr.
  destruct (validate_durable_manifest_resources getrlimit m limits) as [[]|e|f] eqn:Er; cbn [bindR].
  2:{ intros [[audit [_ H _ _]] _]. congruence. }
  2:{ by destruct (getrlimit_returns f). }
  destruct manifest_counts as [Hn _]. rewrite durable_manifest_bytes_Ok by (unfold kMaximumManifestSegmentCount; lia). cbn [bindR].
  fold (manifest_size m). pose proof (retain_fixed b Hb H0) as Hf.
  destruct (retain b (manifest_size m)) as [b1|e|f]; cbn [bindR] in Hf |- *; [|intros [_ ?]; lia|done].
  destruct (retain_repeated b1 _ _) as [b2|e|f]; cbn [bindR] in Hf |- *; [|intros [_ ?]; lia|done].
  destruct (retain_repeated b2 _ _) as [b3|e|f]; cbn [bindR] in Hf |- *; [|intros [_ ?]; lia|done].
  pose proof (audit_returns listing m m_ok) as Ha. destruct (audit_data_directory listing m) as [audit|e|f] eqn:Ea; cbn [bindR]; [| |done].
  2:{ intros [[audit [_ _ H _]] _]. congruence. }
  set (safe := match compaction_intent with Some _ => _ | None => _ end).
  assert (Hs : returns safe) by (unfold safe; destruct compaction_intent as [intent|];
    [apply (validate_returns audit m intent)|apply (proj1 (validate_returns audit m (mkIntent 0 m m)))]).
  destruct safe as [[]|e|f] eqn:Es; cbn [bindR]; [| |done].
  2:{ intros [[audit' [_ _ H H']] _]. assert (audit' = audit) as -> by congruence. unfold safe in Es. congruence. }
  destruct groups_found as (groups & -> & Hg). cbn [bindR]. split_and!; [done| |done|apply Hf..]. intros Hl. by split.
Qed.

Lemma catalog_spec d : d_health d = true -> settled d kManifestFilename (Some (manifest_bytes m)) ->
  runs (load_recovery_catalog sys getrlimit listing limits compaction_intent (mkBudget (max_recovery_memory_bytes limits) 0) d)
    (fun r d' => calm [] d d' /\ catalog_manifest r.1 = m /\ admitted (catalog_audit r.1) /\ catalog_groups (segments_by_worker r.1) /\
       budget_ok r.2 /\ budget_maximum r.2 = max_recovery_memory_bytes limits /\ budget_retained r.2 = fixed_memory)
    (fun _ d' => calm [] d d' /\ (obliging sys ->
       ~ ((exists audit, admitted audit) /\ fixed_memory <= max_recovery_memory_bytes limits))).
Proof using getrlimit_returns limits_width m_ok m_valid.
  intros Hh Hs. unfold load_recovery_catalog. pose proof (limits_returns limits) as Hl.
  destruct (validate_durable_resource_limits limits) as [[]|e|f] eqn:El; [rewrite bindM_lift| |done].
  2:{ cbn. split; [apply calm_refl|]. intros _ [[audit [H _ _ _]] _]. congruence. }
  assert (Hc : contents_ok (Some (manifest_bytes m))).
  { intros bs [= <-]. destruct m_ok as (_ & Hb & _). by apply manifest_bytes_ok. }
  eapply runs_bindM_err; [unfold read_manifest, if_healthy; rewrite bindM_get, Hh; by apply read_manifest_file_spec| |].
  2:{ intros e d' (C & _ & Ho). split; [done|]. intros Hob [[audit [_ H _ _]] _]. specialize (Ho Hob m m_ok m_valid eq_refl).
      pose proof (resources_fit H). lia. }
  intros m' d' (C & Hok' & Hv' & Eb). assert (m' = m) as ->.
  { apply (inj Some) in Eb. pose proof (decode_manifest_bytes m m_ok m_valid) as D. rewrite Eb, decode_manifest_bytes in D by done. congruence. }
  assert (Hb : budget_ok (mkBudget (max_recovery_memory_bytes limits) 0)) by (destruct limits_width as [_ ?]; split; [cbn; width; lia|done]).
  pose proof (admission _ Hb eq_refl) as Ha.
  destruct (validate_durable_manifest_resources _ _ _ ;;? _) as [[c b]|e|f]; cbn [liftM runs]; [| |done].
  - destruct Ha as (E & Had & Hg & Hb' & Em & Er). split_and!; auto.
  - split; [done|]. intros _. exact Ha.
Qed.

(** ** The state *)

Variables (slot_of generation_of state_of : ManifestSegmentEntry -> Z) (log_of : ManifestSegmentEntry -> list RecordInput).
Hypothesis m_stored : Forall (stored disk m slot_of generation_of state_of log_of) (m_segments m).

Abbreviation records_of := (records_of m log_of).
Abbreviation workers := (seqZ 0 (m_worker_count m)).

Lemma records_bound es : Forall (stored disk m slot_of generation_of state_of log_of) es ->
  zlen (segments_records m log_of es) <= 1198372 * zlen es.
Proof.
  unfold segments_records. induction 1 as [|e es He _ IH]; cbn [map concat]; [done|]. rewrite zlen_app, zlen_cons.
  assert (E : zlen (segment_records m log_of e) = zlen (log_of e)).
  { pose proof (f_equal length (segment_records_inputs m log_of e)) as El. rewrite length_fmap in El. unfold zlen. by rewrite El. }
  pose proof (log_count _ (img_log _ _ _ _ _ _ He)). lia.
Qed.

Lemma records_few w : zlen (records_of w) < 2 ^ 64.
Proof using m_valid m_stored.
  destruct manifest_counts as [Hn _]. pose proof (records_bound _ (owned_forall m _ w m_stored)) as H. unfold records_of.
  assert (zlen (owned w (m_segments m)) <= zlen (m_segments m)); [|lia].
  unfold zlen, owned. apply inj_le, List.filter_length_le.
Qed.

Definition worker_state (w : Z) (rw : RecoveredWorkerState) : Prop :=
  worker_recovered m state_of log_of now_ns limits seeds w rw.
Definition worker_consistent (w : Z) : Prop := consistent m state_of log_of w (owned w (m_segments m)).
Definition worker_refused (w : Z) (e : ErrorCode) : Prop :=
  refused (ds_file sys) disk m state_of log_of true now_ns limits w e.

(** What recovery gives. *)
Record recovered_ok (st : DurableRecoveryState) : Prop := {
  rs_manifest : recovered_manifest st = m;
  rs_segments : recovered_segments (recovered st) =
    (fun e => Some (commit_found slot_of generation_of state_of log_of e)) <$> m_segments m;
  rs_workers : Forall2 worker_state workers (recovered_workers (recovered st));
  rs_consistent : Forall worker_consistent workers;
  rs_admitted : exists audit, admitted audit
}.

Definition has_stale (audit : Audit) : Prop := List.filter stale (issues audit) <> [].

(** Why it may refuse. *)
Definition recovery_refused (e : ErrorCode) : Prop :=
  ~ (obliging sys /\ (exists audit, admitted audit) /\
     fixed_memory + scan_cost m log_of workers <= max_recovery_memory_bytes limits) \/
  (exists w, 0 <= w < m_worker_count m /\ worker_refused w e) \/
  compaction_intent = None /\ exists audit, admitted audit /\ has_stale audit.

(** Nothing but temporary files of the engine may be gone. *)
Definition leaves_files (d d' : Directory) : Prop :=
  forall name contents, is_temporary name = false -> settled d name contents -> settled d' name contents.

Lemma tidy_files names d d' : tidy (List.filter is_temporary names) d d' -> leaves_files d d'.
Proof.
  intros T name contents Hn. eapply tidy_may_hold; [exact T|]. intros [_ H]%list_elem_of_In%List.filter_In. congruence.
Qed.
Lemma calm_files d d' : calm [] d d' -> leaves_files d d'.
Proof. intros C name contents _. eapply tidy_may_hold; [by apply calm_tidy|]. apply not_elem_of_nil. Qed.
Lemma leaves_files_trans d d1 d2 : leaves_files d d1 -> leaves_files d1 d2 -> leaves_files d d2.
Proof. intros H1 H2 name contents Hn Hs. by apply H2, H1. Qed.

Lemma recover_state_spec d : d_health d = true -> d_lost d = false -> linked d ->
  settled d kManifestFilename (Some (manifest_bytes m)) ->
  runs (recover_durable_state iterate sys getrlimit disk listing clean_listing now_ns limits compaction_intent seeds d)
    (fun st d' => recovered_ok st /\ leaves_files d d')
    (fun e d' => recovery_refused e /\ leaves_files d d').
Proof using iterate_perm getrlimit_returns limits_width m_ok m_valid m_stored.
  intros Hh Hl Hlk Hs. unfold recover_durable_state. pose proof (scan_cost_nonneg m log_of workers) as Hc0.
  eapply runs_bindM_err; [by apply catalog_spec| |].
  2:{ intros e d' [C H]. split; [|by apply calm_files]. left. intros (Ho & Ha & Hm). apply (H Ho). split; [done|lia]. }
  intros [c b] d1 (C & Em & Ha & Hg & Hb & Eb & Er). cbn [fst snd] in *. rewrite bindM_get, Em.
  destruct c as [m' audit groups]. cbn in Em, Ha, Hg. subst m'. pose proof C as (L1 & E1 & E2). rewrite E2, Hh.
  pose proof (recover_workers_spec iterate iterate_perm (ds_file sys) disk m slot_of generation_of state_of log_of true now_ns limits
    seeds m_ok m_valid m_stored audit groups Hg records_few b Hb) as Hw.
  destruct (recover_workers _ _ _ _ _ _ _ _ _) as [[rec b']|e|f]; [rewrite bindM_lift; cbn [fst snd catalog_audit]| |done].
  2:{ cbn. split; [|by apply calm_files]. destruct Hw as [Hw|[-> Hw]]; [right; left; exact Hw|]. left. intros (_ & _ & Hm). lia. }
  destruct Hw as (Hco & Hwk & Hseg).
  assert (Hdone : forall a, recovered_ok (mkRecoveryState m a rec)) by (intros a; split; [done|done|exact Hwk|exact Hco|by exists audit]).
  destruct compaction_intent as [intent|] eqn:Ei; [split; [done|by apply calm_files]|].
  pose proof (calm_files _ _ C) as HC. set (names := issue_name <$> List.filter stale (issues audit)).
  destruct (decide (names = [])) as [En|En].
  { rewrite En. unfold bindM, cleanup_recovery_temporaries, if_healthy, getM. cbn. rewrite E2, Hh. cbn. by split. }
  assert (Hst : forall e, recovery_refused e).
  { intros e. right. right. split; [done|]. exists audit. split; [done|]. intros E. apply En. unfold names. by rewrite E. }
  eapply runs_bindM_err; [apply (cleanup_temporaries_spec sys names d1); [congruence|congruence|by apply (lv_linked _ _ _ L1)]| |].
  2:{ intros e d' T. split; [done|]. eapply leaves_files_trans; [exact HC|]. exact (tidy_files names _ _ T). }
  intros [] d2 [T _]. apply tidy_files in T. pose proof (leaves_files_trans _ _ _ HC T) as HT.
  destruct names as [|name names']; [done|]. pose proof (audit_returns clean_listing m m_ok) as Hr.
  destruct (audit_data_directory clean_listing m) as [audit2|e|f]; [rewrite bindM_lift|by split|done].
  pose proof (proj1 (validate_returns audit2 m (mkIntent 0 m m))) as Hr2.
  destruct (validate_namespace_for_recovery audit2) as [[]|e|f]; [rewrite bindM_lift|by split|done]. by split.
Qed.
End state.

(** ** Power failure and recovery *)

(** The image a power failure leaves of a segment whose handle went through a history
    of the calls [op_allowed] permits; [acked] was acknowledged as durable and
    [appended] accepted. *)
Definition left_by (i : SegmentHeaderIdentity) (acked appended : list RecordInput) (g : image) : Prop :=
  exists sys s out, history i sys s acked appended out /\ SegmentFileSpec.crash (file_ s) g.

Lemma finite_choice {A B} `{EqDecision A} (b0 : B) (P : A -> B -> Prop) l :
  Forall (fun a => exists b, P a b) l -> exists f, Forall (fun a => P a (f a)) l.
Proof.
  induction 1 as [|a l [b Hb] _ [f IH]]; [by exists (fun _ => b0)|].
  exists (fun x => if decide (x = a) then b else f x). constructor; [by rewrite decide_True|].
  eapply Forall_impl; [exact IH|]. intros x Hx. cbn beta in *. by destruct (decide (x = a)) as [->|].
Qed.

(** Every listed segment is what a power failure left. *)
Definition survived (disk : Disk) (m : Manifest) (acked appended : ManifestSegmentEntry -> list RecordInput) : Prop :=
  Forall (fun e => exists g, (disk (segment_identity m e)).2 = file_on g /\
                    left_by (segment_identity m e) (acked e) (appended e) g) (m_segments m).

Definition kept (m : Manifest) (acked appended log_of : ManifestSegmentEntry -> list RecordInput) : Prop :=
  Forall (fun e => acked e `prefix_of` log_of e /\ log_of e `prefix_of` appended e) (m_segments m).

Lemma survived_stored disk m acked appended : manifest_ok m -> manifest_valid m -> survived disk m acked appended ->
  exists slot_of generation_of state_of log_of,
    Forall (stored disk m slot_of generation_of state_of log_of) (m_segments m) /\ kept m acked appended log_of.
Proof.
  intros Hok Hv Hs. pose proof (manifest_identified m Hok Hv) as Hid. unfold survived, kept in *.
  destruct (finite_choice (0, 0, 0, []) (fun e (x : Z * Z * Z * list RecordInput) =>
    img (segment_identity m e) (f_view (disk (segment_identity m e)).2) x.1.1.1 x.1.1.2 x.1.2 x.2 /\
    acked e `prefix_of` x.2 /\ x.2 `prefix_of` appended e) (m_segments m)) as [f Hf].
  { rewrite Forall_forall in Hs, Hid |- *. intros e He. destruct (Hs e He) as (g & E & sys & s & out & Hh & Hc), (Hid e He) as [Hi Hi'].
    apply history_rel in Hh; [|done..]. destruct (rel_crash _ _ _ _ _ _ Hh Hc) as (k & gen & st & log & Himg & H1 & H2).
    exists (k, gen, st, log). cbn. by rewrite E. }
  exists (fun e => (f e).1.1.1), (fun e => (f e).1.1.2), (fun e => (f e).1.2), (fun e => (f e).2). split.
  - eapply Forall_impl; [exact Hf|]. intros e H. apply H.
  - eapply Forall_impl; [exact Hf|]. intros e H. apply H.
Qed.

(** C2. Recovery returns the store its segments hold.  When the manifest of the
    directory is known and every segment it lists holds a log, recovery gives the
    manifest, the commit of every segment, and for every worker the index of exactly
    the newest live record of each of its keys, its next sequence, its active segment
    and the bytes of its live records; and the logs of every worker are consistent.
    Otherwise it fails, and then the system does not read, the catalog or the
    directory is not admitted, the memory is not enough, a worker is refused, or
    stale temporary files had to be removed.  It loses no file but temporary ones. *)
Theorem recovery_exact iterate sys getrlimit disk listing clean_listing now_ns limits compaction_intent seeds m
    slot_of generation_of state_of log_of d :
  (forall latest, iterate latest ≡ₚ map_to_list latest) -> (forall f, getrlimit <> Stuck f) ->
  limits_ok limits -> is_u64 (max_recovery_memory_bytes limits) -> manifest_ok m -> manifest_valid m ->
  Forall (stored disk m slot_of generation_of state_of log_of) (m_segments m) ->
  d_health d = true -> d_lost d = false -> linked d -> settled d kManifestFilename (Some (manifest_bytes m)) ->
  match recover_durable_state iterate sys getrlimit disk listing clean_listing now_ns limits compaction_intent seeds d with
  | (Ok st, d') =>
      recovered_ok getrlimit listing now_ns limits compaction_intent seeds m slot_of generation_of state_of log_of st /\
      leaves_files d d'
  | (Err e, d') =>
      recovery_refused sys getrlimit disk listing now_ns limits compaction_intent m state_of log_of e /\ leaves_files d d'
  | (Stuck _, _) => False
  end.
Proof.
  intros H1 H2 H3 H4 H5 H6 H7 H8 H9 H10 H11.
  pose proof (recover_state_spec iterate H1 sys getrlimit disk listing clean_listing H2 now_ns limits compaction_intent seeds
    (conj H3 H4) m H5 H6 slot_of generation_of state_of log_of H7 d H8 H9 H10 H11) as H.
  destruct (recover_durable_state _ _ _ _ _ _ _ _ _ _ _) as [[st|e|f] d']; exact H.
Qed.


(** ** A store *)

Definition small_manifest : Manifest :=
  mkManifest (Z.of_nat <$> seq 1 16) 4 2 1 1 77 9 1 [mkEntry 5 1 0 ManifestSegmentRole_active].
Definition small_input : RecordInput :=
  mkRecordInput 7 Opcode_put ValueType_bytes 0 (hash_of (worker_routing small_manifest) [107; 101; 121]) 0 [107; 101; 121] [1; 2; 3].
Definition small_created : DurableSegmentFile := snd (create good_system good_creation (temporary_handle sample_identity true)).
Definition small_appended : DurableSegmentFile := snd (run_op good_system (do_append_record small_input None) small_created).
Definition small_flushed : DurableSegmentFile := snd (run_op good_system (do_flush immediate) small_appended).
Definition small_disk : Disk := fun _ => (good_opening, file_on (f_base (file_ small_flushed))).
Definition small_limits : DurableResourceLimits :=
  mkLimits (2 ^ 30) 0 16 4096 16 1000000 100 (2 ^ 30) 4 1024.
Definition small_directory : Directory :=
  mkDirectory {[ kManifestFilename := 0%nat ]} []
    [mkNode (file_on (fun o => nth (Z.to_nat o) (manifest_bytes small_manifest) 0)) (mkStat true 1 true false (manifest_size small_manifest))]
    false true 0.
Definition small_recovery : Result DurableRecoveryState * Directory :=
  recover_durable_state map_to_list (mkDirectorySystem good_system (fun _ => name_done)) (Ok None) small_disk
    (sample_listing small_manifest []) (sample_listing small_manifest []) 0 small_limits None (fun _ => 3) small_directory.

Lemma small_manifest_ok : manifest_ok small_manifest.
Proof.
  unfold manifest_ok, small_manifest. cbn [m_store_id m_manifest_generation m_routing_algorithm m_worker_count
    m_routing_epoch m_worker_hash_seed m_next_segment_id m_next_segment_generation m_segments].
  split_and!; try done; [bytes_eval|]. repeat (apply Forall_cons_2; [split_and!; done|]). constructor.
Qed.

Lemma small_manifest_valid : manifest_valid small_manifest.
Proof.
  destruct (validate_manifest_cases small_manifest invalid_argument small_manifest_ok) as [[_ H]|[E _]]; [exact H|].
  vm_compute in E. discriminate E.
Qed.

Lemma small_input_ok : input_ok small_input.
Proof.
  split; [|split_and!; [by left|done..]].
  unfold RecordInput_ok. split_and!; try (vm_compute; split; discriminate || reflexivity); bytes_eval.
Qed.

Lemma small_history : history sample_identity good_system small_flushed [small_input] [small_input] false.
Proof.
  assert (history sample_identity good_system small_appended [] [small_input] false) as H.
  { unfold small_appended. refine (history_success _ _ _ (do_append_record small_input None) commit_success 0 _ _ _
      created_history small_input_ok _ _ _); vm_compute; reflexivity. }
  unfold small_flushed. refine (history_success _ _ _ (do_flush immediate) commit_success 1 _ _ _ H _ _ _ _);
    vm_compute; reflexivity.
Qed.

Lemma small_survived : survived small_disk small_manifest (fun _ => [small_input]) (fun _ => [small_input]).
Proof.
  apply Forall_singleton. exists (f_base (file_ small_flushed)). split; [reflexivity|].
  exists good_system, small_flushed, false. split; [exact small_history|apply crash_nothing].
Qed.

Lemma small_linked : linked small_directory.
Proof.
  intros e name i He Hi. apply list_elem_of_singleton in He as ->. cbn [d_names small_directory] in Hi.
  apply lookup_singleton_Some in Hi as [_ <-]. cbn. lia.
Qed.

Lemma small_settled : settled small_directory kManifestFilename (Some (manifest_bytes small_manifest)).
Proof.
  intros e He. apply list_elem_of_singleton in He as ->. exists (Some (manifest_bytes small_manifest)). split; [|reflexivity].
  cbn [d_names small_directory]. rewrite lookup_singleton_eq. eexists. split; [reflexivity|].
  split; [by split|]. split; [reflexivity|]. split; vm_compute; reflexivity.
Qed.

Lemma small_permutation (latest : gmap (list Z) RecoveryLatest) : map_to_list latest ≡ₚ map_to_list latest.
Proof. reflexivity. Qed.
Lemma small_getrlimit f : Ok (@None Z) <> Stuck f.
Proof. discriminate. Qed.
Lemma small_limits_ok : limits_ok small_limits /\ is_u64 (max_recovery_memory_bytes small_limits).
Proof. unfold limits_ok. cbn. width. lia. Qed.

Lemma recovery_exact_witness : exists slot_of generation_of state_of log_of st,
  fst small_recovery = Ok st /\
  recovered_ok (Ok None) (sample_listing small_manifest []) 0 small_limits None (fun _ => 3) small_manifest
    slot_of generation_of state_of log_of st.
Proof.
  destruct (survived_stored small_disk small_manifest _ _ small_manifest_ok small_manifest_valid small_survived)
    as (slot_of & generation_of & state_of & log_of & Hst & _).
  assert (Hr : match fst small_recovery with Ok _ => true | _ => false end = true) by (vm_compute; reflexivity).
  pose proof (recovery_exact map_to_list (mkDirectorySystem good_system (fun _ => name_done)) (Ok None) small_disk
    (sample_listing small_manifest []) (sample_listing small_manifest []) 0 small_limits None (fun _ => 3) small_manifest
    slot_of generation_of state_of log_of small_directory small_permutation small_getrlimit (proj1 small_limits_ok)
    (proj2 small_limits_ok) small_manifest_ok small_manifest_valid Hst eq_refl eq_refl small_linked small_settled) as H.
  fold small_recovery in H. destruct small_recovery as [[st|e|f] d']; [|discriminate Hr..].
  exists slot_of, generation_of, state_of, log_of, st. split; [reflexivity|apply H].
Defined.

