(* ===== verification/Atomic.v ===== *)
(** * Atomics and rings shared by the lock-free queues

    Holds the memory model of the queues and what their two implementations have in
    common: the capacity and the index of a cell, from
    include/glifistore/store/paired/bounded_spsc_queue.hpp and
    include/glifistore/server/bounded_mpsc_queue.hpp.

    An atomic is the list of the values it has had, oldest first, its modification
    order.  A load may return an old value: it returns some value of the list, not
    older than the one the thread has read before, which is read coherence.  A
    read-modify-write acts on the last value.  *)

From S2P Require Import Prelude.

Abbreviation Atomic := (list Z).

(** [a.load()] by a thread that has seen the [seen]-th value, [lag] stores behind the
    newest one unless coherence says otherwise; with the place of the value. *)
Definition load (seen lag : nat) (a : Atomic) : Z * nat :=
  let i := Nat.max seen (length a - 1 - lag) in (nth i a 0, i).
(** [a.store(v)] *)
Definition store (v : Z) (a : Atomic) : Atomic := a ++ [v].
Definition newest (a : Atomic) : Z := nth (length a - 1) a 0.
#[global] Arguments load : simpl never.
#[global] Arguments store : simpl never.
#[global] Arguments newest : simpl never.

(** [std::bit_ceil] of a positive number: the least power of two not below it. *)
Definition bit_ceil (x : Z) : Z := 2 ^ Z.log2_up x.

Definition kMaximumCapacity : Z := Z.shiftl 1 62.
Definition normalized_capacity (requested : Z) : Result Z :=
  if requested >? kMaximumCapacity then Err invalid_argument else Ok (bit_ceil (Z.max 2 requested)).

(** ** Lemmas *)

Definition capacity_ok (capacity : Z) : Prop := exists k, 1 <= k <= 62 /\ capacity = 2 ^ k.

Lemma normalized_capacity_spec requested : 0 <= requested ->
  match normalized_capacity requested with
  | Ok capacity => capacity_ok capacity /\ Z.max 2 requested <= capacity /\ capacity < 2 * Z.max 2 requested
  | Err e => e = invalid_argument /\ kMaximumCapacity < requested
  | Stuck _ => False
  end.
Proof.
  intros H0. unfold normalized_capacity. destruct (requested >? kMaximumCapacity) eqn:E.
  - split; [done|]. apply Z.gtb_lt in E. lia.
  - rewrite Z.gtb_ltb in E. apply Z.ltb_ge in E. unfold bit_ceil. set (m := Z.max 2 requested).
    assert (Hm : 1 < m <= 2 ^ 62) by (change kMaximumCapacity with (2 ^ 62) in E; unfold m; lia).
    destruct (Z.log2_up_spec m) as [Hl Hu]; [lia|].
    assert (1 <= Z.log2_up m <= 62).
    { split; [pose proof (Z.log2_up_pos m); lia|]. rewrite <- (Z.log2_up_pow2 62) by lia. apply Z.log2_up_le_mono, Hm. }
    split_and!; [by eexists|lia|].
    rewrite <- Z.sub_1_r in Hl. replace (2 ^ Z.log2_up m) with (2 * 2 ^ (Z.log2_up m - 1)); [lia|].
    rewrite <- Z.pow_succ_r by lia. f_equal. lia.
Qed.

Lemma capacity_bounds capacity : capacity_ok capacity -> 2 <= capacity <= 2 ^ 62.
Proof.
  intros (k & Hk & ->). split; [|apply Z.pow_le_mono_r; lia].
  change 2 with (2 ^ 1) at 1. apply Z.pow_le_mono_r; lia.
Qed.

(** [cells_[position & mask_]]: the mask keeps the remainder, also of a position that
    has wrapped around. *)
Lemma ring_index capacity p : capacity_ok capacity -> 0 <= p ->
  Z.land (u64 p) (capacity - 1) = p mod capacity.
Proof.
  intros (k & Hk & ->) Hp. replace (2 ^ k - 1) with (Z.ones k) by (rewrite Z.ones_equiv; lia).
  rewrite Z.land_ones by lia. unfold wrap. symmetry. apply Znumtheory.Zmod_div_mod; [lia..|].
  exists (2 ^ (64 - k)). rewrite <- Z.pow_add_r by lia. f_equal. lia.
Qed.

Lemma length_store v a : length (store v a) = S (length a).
Proof. unfold store. rewrite length_app. simpl. lia. Qed.

(** A load returns a value of the modification order. *)
Lemma load_index seen lag a : (seen < length a)%nat ->
  let '(v, i) := load seen lag a in a !! i = Some v /\ (seen <= i < length a)%nat.
Proof.
  intros H. unfold load. set (i := Nat.max _ _). assert (i < length a)%nat by (unfold i; lia).
  split; [|unfold i in *; lia].
  destruct (lookup_lt_is_Some_2 a i) as [v E]; [done|]. by rewrite E, (nth_lookup_Some a i 0 v E).
Qed.

Lemma newest_store v a : newest (store v a) = v.
Proof. unfold newest, store. rewrite length_app, app_nth2; simpl; [|lia]. by replace (_ - _)%nat with 0%nat by lia. Qed.

(** The values of a cursor count up from zero and wrap around. *)
Definition counts (a : Atomic) : Prop := a <> [] /\ forall i v, a !! i = Some v -> v = u64 (Z.of_nat i).

Lemma counts_newest a : counts a -> newest a = u64 (Z.of_nat (length a - 1)).
Proof.
  intros [Hne Hv]. unfold newest. apply Hv. destruct a as [|x a] using rev_ind; [done|].
  rewrite length_app, Nat.add_sub. simpl. rewrite nth_middle. by apply list_lookup_middle.
Qed.

Lemma counts_store a : counts a -> counts (store (u64 (newest a + 1)) a).
Proof.
  intros Ha. split; [by destruct a|]. intros i v. unfold store. intros [Hi|[Hi Hv]]%lookup_app_Some; [by apply Ha|].
  apply list_lookup_singleton_Some in Hv as [Hi0 <-]. rewrite counts_newest by done. unfold wrap.
  rewrite Zplus_mod_idemp_l. f_equal. destruct Ha as [Hne _]. destruct a; [done|]. simpl in *. lia.
Qed.

Lemma counts_load a seen lag : counts a -> (seen < length a)%nat ->
  exists i, load seen lag a = (u64 (Z.of_nat i), i) /\ (seen <= i < length a)%nat.
Proof.
  intros Ha Hs. pose proof (load_index seen lag a Hs) as H. destruct (load seen lag a) as [v i]. destruct H as [Hi Hl].
  exists i. split; [|done]. by rewrite (proj2 Ha _ _ Hi).
Qed.

(** Two cursors less than a lap apart. *)
Lemma cursor_difference (a b : nat) : 0 <= Z.of_nat a - Z.of_nat b < 2 ^ 64 ->
  u64 (u64 (Z.of_nat a) - u64 (Z.of_nat b)) = Z.of_nat a - Z.of_nat b.
Proof.
  intros H. unfold wrap. rewrite <- Zminus_mod. by apply Z.mod_small.
Qed.
Lemma cursor_equal (a b : nat) : 0 <= Z.of_nat a - Z.of_nat b < 2 ^ 64 ->
  (u64 (Z.of_nat a) =? u64 (Z.of_nat b)) = (a =? b)%nat.
Proof.
  intros H. pose proof (cursor_difference a b H) as E. destruct (Nat.eqb_spec a b) as [->|Hne]; [by rewrite Z.eqb_refl|].
  apply Z.eqb_neq. intros E'. rewrite E', Z.sub_diag in E. change (u64 0) with 0 in E. lia.
Qed.

Lemma cell_index (capacity : Z) (i : nat) : 0 < capacity ->
  (Z.to_nat (Z.of_nat i mod capacity) < Z.to_nat capacity)%nat /\
  Z.of_nat (Z.to_nat (Z.of_nat i mod capacity)) = Z.of_nat i mod capacity.
Proof. intros H. pose proof (Z.mod_pos_bound (Z.of_nat i) capacity H). lia. Qed.

(** Positions less than a lap apart have cells of their own. *)
Lemma cell_index_inj (capacity : Z) (i j : nat) : 0 < capacity -> Z.abs (Z.of_nat i - Z.of_nat j) < capacity ->
  Z.to_nat (Z.of_nat i mod capacity) = Z.to_nat (Z.of_nat j mod capacity) -> i = j.
Proof.
  intros Hc Hd He. pose proof (Z.mod_pos_bound (Z.of_nat i) capacity Hc). pose proof (Z.mod_pos_bound (Z.of_nat j) capacity Hc).
  assert (E : Z.of_nat i mod capacity = Z.of_nat j mod capacity) by lia.
  pose proof (Z.div_mod (Z.of_nat i) capacity). pose proof (Z.div_mod (Z.of_nat j) capacity).
  assert (Z.of_nat i / capacity = Z.of_nat j / capacity) by nia. nia.
Qed.

(** Reading and writing the cell of the [i]-th position. *)
Lemma ring_get {A} (cells : list A) (capacity : Z) (i : nat) c : 0 < capacity ->
  cells !! Z.to_nat (Z.of_nat i mod capacity) = Some c -> vec_get cells (Z.of_nat i mod capacity) = Ok c.
Proof. intros Hc H. destruct (cell_index capacity i Hc) as [_ <-]. by apply vec_get_Some. Qed.

Lemma ring_set {A} (cells : list A) (capacity : Z) (i : nat) x : 0 < capacity -> zlen cells = capacity ->
  exists cells', vec_set cells (Z.of_nat i mod capacity) x = Ok cells' /\ length cells' = length cells /\
    cells' !! Z.to_nat (Z.of_nat i mod capacity) = Some x /\
    (forall n, n <> Z.to_nat (Z.of_nat i mod capacity) -> cells' !! n = cells !! n) /\
    forall j, j <> i -> Z.abs (Z.of_nat i - Z.of_nat j) < capacity ->
      cells' !! Z.to_nat (Z.of_nat j mod capacity) = cells !! Z.to_nat (Z.of_nat j mod capacity).
Proof.
  intros Hc Hl. destruct (cell_index capacity i) as [Hi Ei]; [lia|]. unfold zlen in Hl.
  exists (<[Z.to_nat (Z.of_nat i mod capacity) := x]> cells). split_and!.
  - rewrite <- Ei at 1. apply vec_set_in. lia.
  - apply length_insert.
  - apply list_lookup_insert_eq. lia.
  - intros n Hn. by apply list_lookup_insert_ne.
  - intros j Hj Hd. apply list_lookup_insert_ne. intros E. apply Hj. symmetry.
    by apply (cell_index_inj capacity); [lia|..].
Qed.
