(* ===== verification/SpscQueue.v ===== *)
(** * The single-producer single-consumer ring

    Models BoundedSpscQueue of include/glifistore/store/paired/bounded_spsc_queue.hpp,
    which carries the tasks and the completions of a shard pair, on the memory model
    of [Atomic].  The producer and the consumer take turns in any order; a turn is
    one access to memory that the other thread can see, with the local work before
    it.  A turn says how stale the value of its load is. *)

From S2P Require Import Prelude Atomic.

Section spsc.
Context {T : Type}.

(** What the producer is about to do: nothing, [emplace] the value or [head.store]. *)
Inductive producer_pc := p_idle | p_emplace (value : T) | p_publish (value : T).
(** What the consumer is about to do: nothing, move the value out, or [tail.store]. *)
Inductive consumer_pc := c_idle | c_take | c_free (value : option T).

(** What a call answered, in the order of their last steps. *)
Inductive answer := pushed (value : T) | refused (value : T) | popped (value : option T) | nothing.

Record Spsc := mkSpsc {
  capacity_ : Z;
  cells_ : list (option T);
  (** ProducerState; the producer has seen the [seen_tail]-th value of [tail]. *)
  head : Atomic;
  cached_tail : Z;
  seen_tail : nat;
  (** ConsumerState *)
  tail : Atomic;
  cached_head : Z;
  seen_head : nat;
  producer : producer_pc;
  consumer : consumer_pc;
  (** The answers of the calls that have returned, not part of the code. *)
  answers : list answer
}.

Definition mask_ (q : Spsc) : Z := capacity_ q - 1.

(** The constructor. *)
Definition new_spsc (requested_capacity : Z) : Result Spsc :=
  let? capacity := normalized_capacity requested_capacity in
  Ok (mkSpsc capacity (replicate (Z.to_nat capacity) None) [0] 0 0 [0] 0 0 p_idle c_idle []).

Definition set_producer (q : Spsc) (pc : producer_pc) (cached : Z) (seen : nat) : Spsc :=
  mkSpsc (capacity_ q) (cells_ q) (head q) cached seen (tail q) (cached_head q) (seen_head q) pc (consumer q) (answers q).
Definition set_consumer (q : Spsc) (pc : consumer_pc) (cached : Z) (seen : nat) : Spsc :=
  mkSpsc (capacity_ q) (cells_ q) (head q) (cached_tail q) (seen_tail q) (tail q) cached seen (producer q) pc (answers q).
Definition set_cells (q : Spsc) (cells : list (option T)) : Spsc :=
  mkSpsc (capacity_ q) cells (head q) (cached_tail q) (seen_tail q) (tail q) (cached_head q) (seen_head q) (producer q) (consumer q) (answers q).
Definition answered (a : answer) (q : Spsc) : Spsc :=
  mkSpsc (capacity_ q) (cells_ q) (head q) (cached_tail q) (seen_tail q) (tail q) (cached_head q) (seen_head q) (producer q) (consumer q)
    (answers q ++ [a]).
Definition store_head (v : Z) (q : Spsc) : Spsc :=
  mkSpsc (capacity_ q) (cells_ q) (store v (head q)) (cached_tail q) (seen_tail q) (tail q) (cached_head q) (seen_head q) p_idle (consumer q) (answers q).
Definition store_tail (v : Z) (q : Spsc) : Spsc :=
  mkSpsc (capacity_ q) (cells_ q) (head q) (cached_tail q) (seen_tail q) (store v (tail q)) (cached_head q) (seen_head q) (producer q) c_idle (answers q).

(** A turn of [try_push(value)]: the test for room, which loads [tail] only when the
    cached value leaves none, then [emplace], then the store of [head]. *)
Definition push_turn (value : T) (lag : nat) (q : Spsc) : Result Spsc :=
  let h := newest (head q) in
  match producer q with
  | p_idle =>
      if u64 (h - cached_tail q) =? capacity_ q then
        let '(t, seen) := load (seen_tail q) lag (tail q) in
        if u64 (h - t) =? capacity_ q then Ok (answered (refused value) (set_producer q p_idle t seen))
        else Ok (set_producer q (p_emplace value) t seen)
      else Ok (set_producer q (p_emplace value) (cached_tail q) (seen_tail q))
  | p_emplace v =>
      let? cells := vec_set (cells_ q) (Z.land h (mask_ q)) (Some v) in
      Ok (set_producer (set_cells q cells) (p_publish v) (cached_tail q) (seen_tail q))
  | p_publish v => Ok (answered (pushed v) (store_head (u64 (h + 1)) q))
  end.

(** A turn of [try_pop()]. *)
Definition pop_turn (lag : nat) (q : Spsc) : Result Spsc :=
  let t := newest (tail q) in
  match consumer q with
  | c_idle =>
      if cached_head q =? t then
        let '(h, seen) := load (seen_head q) lag (head q) in
        if h =? t then Ok (answered nothing (set_consumer q c_idle h seen))
        else Ok (set_consumer q c_take h seen)
      else Ok (set_consumer q c_take (cached_head q) (seen_head q))
  | c_take =>
      let? value := vec_get (cells_ q) (Z.land t (mask_ q)) in
      let? cells := vec_set (cells_ q) (Z.land t (mask_ q)) None in
      Ok (set_consumer (set_cells q cells) (c_free value) (cached_head q) (seen_head q))
  | c_free value => Ok (answered (popped value) (store_tail (u64 (t + 1)) q))
  end.

Inductive spsc_turn := turn_push (value : T) (lag : nat) | turn_pop (lag : nat).

Definition spsc_step (turn : spsc_turn) (q : Spsc) : Result Spsc :=
  match turn with turn_push value lag => push_turn value lag q | turn_pop lag => pop_turn lag q end.

Fixpoint spsc_run (schedule : list spsc_turn) (q : Spsc) : Result Spsc :=
  match schedule with
  | [] => Ok q
  | turn :: schedule => let? q' := spsc_step turn q in spsc_run schedule q'
  end.

(** [size()] of a thread with these views of the two cursors. *)
Definition spsc_size (head_seen head_lag tail_seen tail_lag : nat) (q : Spsc) : Z :=
  u64 ((load head_seen head_lag (head q)).1 - (load tail_seen tail_lag (tail q)).1).

(** ** The invariant *)

Definition sent (l : list answer) : list T := omap (fun a => match a with pushed v => Some v | _ => None end) l.
Definition received (l : list answer) : list (option T) :=
  omap (fun a => match a with popped v => Some v | _ => None end) l.

Abbreviation P q := (length (head q) - 1)%nat.
Abbreviation C q := (length (tail q) - 1)%nat.

(** What the cell of the [i]-th value holds, for the [i] that share the ring. *)
Definition cell_of (q : Spsc) (i : nat) : option (option T) := cells_ q !! Z.to_nat (Z.of_nat i mod capacity_ q).

Record spsc_ok (q : Spsc) : Prop := {
  so_capacity : capacity_ok (capacity_ q);
  so_cells : zlen (cells_ q) = capacity_ q;
  so_head : counts (head q);
  so_tail : counts (tail q);
  so_cached_tail : cached_tail q = u64 (Z.of_nat (seen_tail q));
  so_cached_head : cached_head q = u64 (Z.of_nat (seen_head q));
  so_seen_tail : (seen_tail q <= C q)%nat;
  so_room : Z.of_nat (P q) - Z.of_nat (seen_tail q) <= capacity_ q;
  so_seen_head : (C q <= seen_head q <= P q)%nat;
  so_sent : length (sent (answers q)) = P q;
  so_received : received (answers q) = Some <$> take (C q) (sent (answers q));
  so_producer : match producer q with
    | p_idle => True
    | p_emplace v => Z.of_nat (P q) - Z.of_nat (seen_tail q) < capacity_ q
    | p_publish v => Z.of_nat (P q) - Z.of_nat (seen_tail q) < capacity_ q /\ cell_of q (P q) = Some (Some v)
    end;
  so_consumer : match consumer q with
    | c_idle => True
    | c_take => (C q < seen_head q)%nat
    | c_free v => (C q < seen_head q)%nat /\ v = sent (answers q) !! C q
    end;
  (** Every value between the cursors is in its cell, but the one just taken. *)
  so_queued : forall i v, sent (answers q) !! i = Some v -> (C q <= i)%nat ->
    (match consumer q with c_free _ => i <> C q | _ => True end) -> cell_of q i = Some (Some v)
}.

(** ** Its preservation *)

#[local] Arguments sent : simpl never.
#[local] Arguments received : simpl never.

Lemma sent_snoc l a : sent (l ++ [a]) = sent l ++ match a with pushed v => [v] | _ => [] end.
Proof. unfold sent. rewrite omap_app. by destruct a. Qed.
Lemma received_snoc l a : received (l ++ [a]) = received l ++ match a with popped v => [v] | _ => [] end.
Proof. unfold received. rewrite omap_app. by destruct a. Qed.

Lemma capacity_wide q : spsc_ok q -> 2 <= capacity_ q < 2 ^ 64.
Proof.
  intros H. pose proof (capacity_bounds _ (so_capacity q H)). assert (2 ^ 62 < 2 ^ 64) by reflexivity. lia.
Qed.


Section step.
Context (q : Spsc) (Hq : spsc_ok q).

Lemma index_head : Z.land (newest (head q)) (mask_ q) = Z.of_nat (P q) mod capacity_ q.
Proof. rewrite counts_newest by apply Hq. apply ring_index; [apply Hq|lia]. Qed.
Lemma index_tail : Z.land (newest (tail q)) (mask_ q) = Z.of_nat (C q) mod capacity_ q.
Proof. rewrite counts_newest by apply Hq. apply ring_index; [apply Hq|lia]. Qed.

Lemma cell_set i x : exists cells,
  vec_set (cells_ q) (Z.of_nat i mod capacity_ q) x = Ok cells /\ length cells = length (cells_ q) /\
  cells !! Z.to_nat (Z.of_nat i mod capacity_ q) = Some x /\
  forall j, j <> i -> Z.abs (Z.of_nat i - Z.of_nat j) < capacity_ q ->
    cells !! Z.to_nat (Z.of_nat j mod capacity_ q) = cell_of q j.
Proof.
  pose proof (capacity_wide q Hq) as Hc.
  destruct (ring_set (cells_ q) (capacity_ q) i x) as (cells & H1 & H2 & H3 & _ & H4); [lia|apply Hq|eauto].
Qed.

(** The producer finds room. *)
Lemma push_test value seen : (seen_tail q <= seen <= C q)%nat -> producer q = p_idle ->
  Z.of_nat (P q) - Z.of_nat seen < capacity_ q ->
  spsc_ok (set_producer q (p_emplace value) (u64 (Z.of_nat seen)) seen).
Proof.
  intros Hs Hp Hr. destruct Hq. constructor; cbn; try done; try lia.
Qed.

Lemma push_refused value lag : producer q = p_idle -> u64 (newest (head q) - cached_tail q) = capacity_ q ->
  exists seen, load (seen_tail q) lag (tail q) = (u64 (Z.of_nat seen), seen) /\ (seen_tail q <= seen <= C q)%nat /\
    u64 (newest (head q) - u64 (Z.of_nat seen)) = Z.of_nat (P q) - Z.of_nat seen /\
    spsc_ok (answered (refused value) (set_producer q p_idle (u64 (Z.of_nat seen)) seen)).
Proof.
  intros Hp He. pose proof (capacity_wide q Hq) as Hc. rewrite counts_newest in * by apply Hq.
  destruct (counts_load (tail q) (seen_tail q) lag) as (i & El & Hi); [apply Hq| |].
  { pose proof (so_seen_tail q Hq). destruct (so_tail q Hq) as [Hne _]. destruct (tail q); [done|]. simpl in *. lia. }
  exists i. split; [done|]. destruct Hq.
  split_and!; [lia|lia|apply cursor_difference; lia|].
  constructor; cbn; rewrite ?sent_snoc, ?received_snoc, ?app_nil_r; try done; lia.
Qed.

Lemma push_emplaced v : producer q = p_emplace v -> exists cells,
  vec_set (cells_ q) (Z.of_nat (P q) mod capacity_ q) (Some v) = Ok cells /\
  spsc_ok (set_producer (set_cells q cells) (p_publish v) (cached_tail q) (seen_tail q)).
Proof.
  intros Hp. destruct (cell_set (P q) (Some v)) as (cells & Ec & Hl & Heq & Hne). exists cells. split; [done|].
  destruct Hq. rewrite Hp in *. unfold zlen in *. constructor; cbn; unfold cell_of, zlen in *; cbn; try done; try congruence.
  intros i w Hi Hci Hx. rewrite Hne; [by eapply so_queued0|..]; apply lookup_lt_Some in Hi; lia.
Qed.

Lemma push_published v : producer q = p_publish v -> spsc_ok (answered (pushed v) (store_head (u64 (newest (head q) + 1)) q)).
Proof.
  intros Hp. pose proof (counts_store _ (so_head q Hq)) as Hst. destruct Hq. rewrite Hp in *.
  constructor; cbn; rewrite ?length_store, ?sent_snoc, ?received_snoc, ?app_nil_r; try done; try lia.
  - rewrite length_app. cbn. destruct (so_head0) as [? _]. destruct (head q); [done|]. cbn in *. lia.
  - rewrite take_app_le; [done|lia].
  - destruct (consumer q) as [| |w]; try done. destruct so_consumer0 as [? ->]. split; [done|].
    rewrite lookup_app_l; [done|lia].
  - intros i w Hi Hci Hx. apply lookup_app_Some in Hi as [Hi|[Hi Hw]]; [by eapply so_queued0|].
    apply list_lookup_singleton_Some in Hw as [Hw ->]. replace i with (P q) by lia. apply so_producer0.
Qed.
End step.

Lemma push_turn_ok value lag q : spsc_ok q -> exists q', push_turn value lag q = Ok q' /\ spsc_ok q' /\ capacity_ q' = capacity_ q.
Proof.
  intros Hq. unfold push_turn. rewrite index_head by done. destruct (producer q) as [|v|v] eqn:Hp.
  - destruct (_ =? _) eqn:E.
    + apply Z.eqb_eq in E. destruct (push_refused q Hq value lag Hp E) as (seen & -> & Hs & -> & Hok).
      destruct (_ =? _) eqn:E'; [eauto|]. apply Z.eqb_neq in E'. eexists. split_and!; [done|apply push_test; try done|done].
      pose proof (so_room q Hq). lia.
    + apply Z.eqb_neq in E. rewrite (so_cached_tail q Hq) in *. eexists. split_and!; [done|apply push_test; try done|done].
      * pose proof (so_seen_tail q Hq). lia.
      * rewrite counts_newest, cursor_difference in E by (apply Hq || (pose proof (so_room q Hq); pose proof (capacity_wide q Hq); pose proof (so_seen_tail q Hq); pose proof (so_seen_head q Hq); lia)).
        pose proof (so_room q Hq). lia.
  - destruct (push_emplaced q Hq v Hp) as (cells & -> & Hok). cbn. eauto.
  - eexists. split_and!; [done|by apply push_published|done].
Qed.

Lemma pop_test q seen : spsc_ok q -> consumer q = c_idle -> (seen_head q <= seen <= P q)%nat -> (C q < seen)%nat ->
  spsc_ok (set_consumer q c_take (u64 (Z.of_nat seen)) seen).
Proof. intros Hq Hc Hs Hr. destruct Hq. rewrite Hc in *. constructor; cbn; try done; lia. Qed.

Lemma pop_nothing q lag : spsc_ok q -> consumer q = c_idle -> cached_head q = newest (tail q) ->
  exists seen, load (seen_head q) lag (head q) = (u64 (Z.of_nat seen), seen) /\ (C q <= seen <= P q)%nat /\
    (seen_head q <= seen)%nat /\ (u64 (Z.of_nat seen) =? newest (tail q)) = (seen =? C q)%nat /\
    spsc_ok (answered nothing (set_consumer q c_idle (u64 (Z.of_nat seen)) seen)).
Proof.
  intros Hq Hc He. pose proof (capacity_wide q Hq) as Hw.
  destruct (counts_load (head q) (seen_head q) lag) as (i & El & Hi); [apply Hq| |].
  { pose proof (so_seen_head q Hq). destruct (so_head q Hq) as [Hne _]. destruct (head q); [done|]. simpl in *. lia. }
  exists i. split; [done|]. rewrite (counts_newest (tail q)) by apply Hq. destruct Hq. rewrite Hc in *.
  split_and!; [lia|lia|lia|apply cursor_equal; lia|].
  constructor; cbn; rewrite ?sent_snoc, ?received_snoc, ?app_nil_r; try done; lia.
Qed.

Lemma pop_taken q : spsc_ok q -> consumer q = c_take -> exists v cells,
  sent (answers q) !! C q = Some v /\
  vec_get (cells_ q) (Z.of_nat (C q) mod capacity_ q) = Ok (Some v) /\
  vec_set (cells_ q) (Z.of_nat (C q) mod capacity_ q) None = Ok cells /\
  spsc_ok (set_consumer (set_cells q cells) (c_free (Some v)) (cached_head q) (seen_head q)).
Proof.
  intros Hq Hc. pose proof (capacity_wide q Hq) as Hw.
  destruct (cell_set q Hq (C q) None) as (cells & Ec & Hl & Heq & Hne).
  pose proof (so_consumer q Hq) as Hlt. rewrite Hc in Hlt. pose proof (so_seen_head q Hq) as Hsh.
  destruct (lookup_lt_is_Some_2 (sent (answers q)) (C q)) as [v Hv]; [rewrite (so_sent q Hq); lia|].
  exists v, cells. split_and!; [done| |done|].
  - apply ring_get; [lia|]. apply (so_queued q Hq); [done|lia|by rewrite Hc].
  - destruct Hq. rewrite Hc in *. constructor; cbn; unfold cell_of, zlen in *; cbn; try done; try congruence.
    + destruct (producer q); try done. rewrite Hne by lia. apply so_producer0.
    + intros i w Hi Hci Hx. pose proof (lookup_lt_Some _ _ _ Hi). rewrite Hne by lia. by apply so_queued0.
Qed.

Lemma pop_freed q v : spsc_ok q -> consumer q = c_free v -> spsc_ok (answered (popped v) (store_tail (u64 (newest (tail q) + 1)) q)).
Proof.
  intros Hq Hc. pose proof (counts_store _ (so_tail q Hq)) as Hst. destruct Hq. rewrite Hc in *.
  destruct so_consumer0 as [Hlt ->]. destruct (lookup_lt_is_Some_2 (sent (answers q)) (C q)) as [w Hw]; [lia|].
  assert (Hlen : (S (length (tail q)) - 1 = S (C q))%nat).
  { destruct so_tail0 as [? _]. destruct (tail q); [done|]. cbn. lia. }
  constructor; cbn; rewrite ?length_store, ?sent_snoc, ?received_snoc, ?app_nil_r, ?Hlen; try done; try lia.
  - rewrite so_received0, (take_S_r _ _ w), fmap_app by done. by rewrite Hw.
  - intros i x Hi Hci _. apply so_queued0; [done|lia..].
Qed.

Lemma pop_turn_ok lag q : spsc_ok q -> exists q', pop_turn lag q = Ok q' /\ spsc_ok q' /\ capacity_ q' = capacity_ q.
Proof.
  intros Hq. unfold pop_turn. rewrite index_tail by done. destruct (consumer q) as [| |v] eqn:Hc.
  - destruct (_ =? _) eqn:E.
    + apply Z.eqb_eq in E. destruct (pop_nothing q lag Hq Hc E) as (seen & -> & Hs & Hs' & -> & Hok).
      destruct (_ =? _)%nat eqn:E'; [eauto|]. apply Nat.eqb_neq in E'. eexists. split_and!; [done|apply pop_test; try done|done]; lia.
    + pose proof (so_seen_head q Hq). rewrite (so_cached_head q Hq), counts_newest, cursor_equal in E
        by (apply Hq || (pose proof (so_room q Hq); pose proof (capacity_wide q Hq); pose proof (so_seen_tail q Hq); lia)).
      apply Nat.eqb_neq in E. rewrite (so_cached_head q Hq). eexists. split_and!; [done|apply pop_test; try done|done]; lia.
  - destruct (pop_taken q Hq Hc) as (v & cells & Hv & -> & Hs & Hok). cbn. rewrite Hs. cbn. eauto.
  - eexists. split_and!; [done|by apply pop_freed|done].
Qed.

Lemma spsc_run_ok schedule q : spsc_ok q -> exists q', spsc_run schedule q = Ok q' /\ spsc_ok q' /\ capacity_ q' = capacity_ q.
Proof.
  revert q. induction schedule as [|turn schedule IH]; intros q Hq; [by exists q|]. cbn.
  assert (exists q', spsc_step turn q = Ok q' /\ spsc_ok q' /\ capacity_ q' = capacity_ q) as (q1 & -> & Hq1 & Hc1).
  { destruct turn; [by apply push_turn_ok|by apply pop_turn_ok]. }
  destruct (IH q1 Hq1) as (q' & Hr & Hq' & Hc'). exists q'. by rewrite Hc', Hc1.
Qed.

Lemma new_spsc_ok requested q : 0 <= requested -> new_spsc requested = Ok q -> spsc_ok q /\ requested <= capacity_ q.
Proof.
  intros Hr H. unfold new_spsc in H. pose proof (normalized_capacity_spec requested Hr) as Hn.
  destruct (normalized_capacity requested) as [c|e|f]; [|done..]. injection H as <-. destruct Hn as (Hok & Hle & _).
  split; [|cbn; lia]. pose proof (capacity_bounds _ Hok).
  assert (counts [0]). { split; [done|]. by intros [|i] v Hi; [injection Hi as <-|destruct i]. }
  constructor; cbn; try done; try lia. unfold zlen. rewrite length_replicate. lia.
Qed.

(** The two threads are about to access one cell. *)
Definition spsc_race (q : Spsc) : Prop :=
  (exists v, producer q = p_emplace v) /\ consumer q = c_take /\
  Z.land (newest (head q)) (mask_ q) = Z.land (newest (tail q)) (mask_ q).

Definition queued (q : Spsc) : Z := zlen (sent (answers q)) - zlen (received (answers q)).

Lemma queued_cursors q : spsc_ok q -> queued q = Z.of_nat (P q) - Z.of_nat (C q) /\ 0 <= queued q <= capacity_ q.
Proof.
  intros Hq. unfold queued, zlen. destruct Hq. rewrite so_received0, length_fmap, length_take, so_sent0. lia.
Qed.

Lemma spsc_no_race q : spsc_ok q -> ~ spsc_race q.
Proof.
  intros Hq ([v Hp] & Hc & E). rewrite index_head, index_tail in E by done. pose proof (capacity_wide q Hq).
  destruct Hq. rewrite Hp, Hc in *. enough (P q = C q) by lia. apply (cell_index_inj (capacity_ q)); [lia..|by rewrite E].
Qed.

Lemma received_count q : spsc_ok q -> length (received (answers q)) = C q.
Proof. intros Hq. destruct Hq. rewrite so_received0, length_fmap, length_take, so_sent0. lia. Qed.

(** With any load a push is refused exactly when the ring is full for the pops the
    producer has seen, and a pop finds nothing exactly when it is empty for the pushes
    the consumer has seen. *)
Lemma push_stale q value lag : spsc_ok q -> producer q = p_idle ->
  match push_turn value lag q with
  | Ok q' => (seen_tail q <= seen_tail q' <= length (received (answers q)))%nat /\
      ((answers q' = answers q ++ [refused value] /\ zlen (sent (answers q)) - Z.of_nat (seen_tail q') = capacity_ q) \/
       (producer q' = p_emplace value /\ zlen (sent (answers q)) - Z.of_nat (seen_tail q') < capacity_ q))
  | _ => False
  end.
Proof.
  intros Hq Hp. rewrite (received_count q Hq). unfold zlen. rewrite (so_sent q Hq).
  pose proof (capacity_wide q Hq) as Hw. unfold push_turn. rewrite Hp. destruct (_ =? _) eqn:E.
  - apply Z.eqb_eq in E. destruct (push_refused q Hq value lag Hp E) as (seen & El & Hs & Ed & _). rewrite El, Ed.
    pose proof (so_room q Hq). destruct (_ =? _) eqn:E'; b2p; (split; [cbn; lia|]); [left|right]; (split; [done|cbn; lia]).
  - b2p. rewrite (so_cached_tail q Hq), counts_newest, cursor_difference in E by (apply Hq || (destruct Hq; lia)).
    cbn. destruct Hq. split; [lia|]. right. split; [done|lia].
Qed.

Lemma pop_stale q lag : spsc_ok q -> consumer q = c_idle ->
  match pop_turn lag q with
  | Ok q' => (seen_head q <= seen_head q' <= length (sent (answers q)))%nat /\
      ((answers q' = answers q ++ [nothing] /\ seen_head q' = length (received (answers q))) \/
       (consumer q' = c_take /\ (length (received (answers q)) < seen_head q')%nat))
  | _ => False
  end.
Proof.
  intros Hq Hc. rewrite (received_count q Hq), (so_sent q Hq).
  pose proof (capacity_wide q Hq) as Hw. unfold pop_turn. rewrite Hc. destruct (_ =? _) eqn:E.
  - apply Z.eqb_eq in E. destruct (pop_nothing q lag Hq Hc E) as (seen & El & Hs & Hs' & Ed & _). rewrite El, Ed.
    destruct (_ =? _)%nat eqn:E'; [apply Nat.eqb_eq in E'|apply Nat.eqb_neq in E']; (split; [cbn; lia|]); [left|right];
      (split; [done|cbn; lia]).
  - rewrite (so_cached_head q Hq), counts_newest, cursor_equal in E by (apply Hq || (destruct Hq; lia)).
    apply Nat.eqb_neq in E. cbn. destruct Hq. split; [lia|]. right. split; [done|lia].
Qed.

(** With a fresh load a push is refused exactly when the ring is full, and a pop finds
    nothing exactly when it is empty. *)
Lemma push_fresh q value : spsc_ok q -> producer q = p_idle ->
  match push_turn value 0 q with
  | Ok q' => (answers q' = answers q ++ [refused value] /\ queued q = capacity_ q) \/
             (producer q' = p_emplace value /\ queued q < capacity_ q)
  | _ => False
  end.
Proof.
  intros Hq Hp. destruct (queued_cursors q Hq) as [-> Hb]. pose proof (capacity_wide q Hq) as Hw. unfold push_turn. rewrite Hp.
  destruct (_ =? _) eqn:E.
  - apply Z.eqb_eq in E. destruct (push_refused q Hq value 0 Hp E) as (seen & El & Hs & Ed & _). rewrite El, Ed.
    assert (seen = C q) as ->.
    { unfold load in El. injection El as _ El. pose proof (so_seen_tail q Hq). lia. }
    destruct (_ =? _) eqn:E'; b2p; [left|right]; split; try done; lia.
  - right. split; [done|]. b2p. rewrite (so_cached_tail q Hq), counts_newest, cursor_difference in E by
      (apply Hq || (destruct Hq; lia)). destruct Hq. lia.
Qed.

Lemma pop_fresh q : spsc_ok q -> consumer q = c_idle ->
  match pop_turn 0 q with
  | Ok q' => (answers q' = answers q ++ [nothing] /\ queued q = 0) \/ (consumer q' = c_take /\ 0 < queued q)
  | _ => False
  end.
Proof.
  intros Hq Hc. destruct (queued_cursors q Hq) as [-> Hb]. pose proof (capacity_wide q Hq) as Hw. unfold pop_turn. rewrite Hc.
  destruct (_ =? _) eqn:E.
  - apply Z.eqb_eq in E. destruct (pop_nothing q 0 Hq Hc E) as (seen & El & Hs & _ & Ed & _). rewrite El, Ed.
    assert (seen = P q) as ->.
    { unfold load in El. injection El as _ El. pose proof (so_seen_head q Hq). lia. }
    destruct (_ =? _)%nat eqn:E'; [left; apply Nat.eqb_eq in E'|right; apply Nat.eqb_neq in E']; split; try done; lia.
  - right. split; [done|]. rewrite (so_cached_head q Hq), counts_newest, cursor_equal in E by (apply Hq || (destruct Hq; lia)).
    apply Nat.eqb_neq in E. destruct Hq. lia.
Qed.

(** What the two threads of the queue read as its size is true of a moment of the call. *)
Lemma size_owner q lag : spsc_ok q ->
  queued q <= spsc_size 0 0 (seen_tail q) lag q <= capacity_ q /\ 0 <= spsc_size (seen_head q) lag 0 0 q <= queued q.
Proof.
  intros Hq. destruct (queued_cursors q Hq) as [-> Hb]. pose proof (capacity_wide q Hq) as Hw. unfold spsc_size.
  assert (Hn : forall a, (load 0 0 a).1 = newest a) by (intros a; unfold load, newest; cbn; do 2 f_equal; lia).
  rewrite !Hn, !counts_newest by apply Hq.
  destruct (counts_load (tail q) (seen_tail q) lag) as (i & -> & Hi); [apply Hq| |].
  { pose proof (so_seen_tail q Hq). destruct (so_tail q Hq) as [Hne _]. destruct (tail q); [done|]. simpl in *. lia. }
  destruct (counts_load (head q) (seen_head q) lag) as (j & -> & Hj); [apply Hq| |].
  { pose proof (so_seen_head q Hq). destruct (so_head q Hq) as [Hne _]. destruct (head q); [done|]. simpl in *. lia. }
  cbn [fst]. rewrite !cursor_difference by (destruct Hq; lia). destruct Hq. lia.
Qed.
End spsc.
Arguments Spsc : clear implicits.
Arguments spsc_turn : clear implicits.


(** A ring of two cells; the consumer sees the first value only at its second attempt. *)
Definition sample_schedule : list (spsc_turn Z) :=
  [turn_push 7 0; turn_push 7 0; turn_pop 0; turn_push 7 0; turn_pop 1; turn_push 8 0; turn_pop 0; turn_push 8 0;
   turn_pop 0; turn_push 8 0; turn_pop 0].


(** A third thread loads [head], then [tail]: when values pass in between, the size it
    computes is below zero and wraps around. *)
Lemma spsc_size_torn : exists q0 q, new_spsc 1 = Ok q0 /\ spsc_run sample_schedule q0 = Ok q /\
  queued q = 1 /\ spsc_size 0 2 0 0 q = 2 ^ 64 - 1.
Proof. eexists _, _. split; [reflexivity|]. split; [vm_compute; reflexivity|]. split; reflexivity. Qed.
