(* ===== verification/MpscQueue.v ===== *)
(** * The multi-producer single-consumer ring

    Models BoundedMpscQueue of include/glifistore/server/bounded_mpsc_queue.hpp, which
    hands accepted connections to the reactors, on the memory model of [Atomic]:
    every load of a position or of the sequence of a cell may return any value the
    atomic has had, [compare_exchange_weak] acts on the last one and may fail for no
    reason.  Any number of producers and the consumer take turns in any order; a turn
    is one access to memory that other threads can see. *)

From S2P Require Import Prelude Atomic.

(** Unsigned modular ordering. *)
Definition sequence_precedes_position (sequence position : Z) : bool :=
  u64 (sequence - position) >? size_max / 2.

Section mpsc.
Context {T : Type}.

Record Cell := mkCell { sequence : Atomic; value : option T }.

(** What a producer is about to do in [try_push(value)]: load the position, load the
    sequence of the cell, exchange the position, [emplace], store the sequence. *)
Inductive producer_pc :=
  | p_idle
  | p_position (v : T)
  | p_sequence (v : T) (position : Z)
  | p_exchange (v : T) (position : Z)
  | p_emplace (v : T) (position : Z)
  | p_publish (v : T) (position : Z).
(** What the consumer is about to do in [try_pop()]. *)
Inductive consumer_pc := c_idle | c_take | c_free (v : option T).

Inductive answer := pushed (j : nat) (v : T) | refused (j : nat) (v : T) | popped (v : option T) | nothing.

Record Mpsc := mkMpsc {
  capacity_ : Z;
  cells_ : list Cell;
  enqueue_position_ : Atomic;
  dequeue_position_ : Z;
  producers : list producer_pc;
  consumer : consumer_pc;
  (** Not part of the code: the values in the order in which their cells were
      reserved, each with its producer, and the answers of the calls. *)
  order : list (nat * T);
  answers : list answer
}.

Definition mask_ (q : Mpsc) : Z := capacity_ q - 1.

(** The constructor: the sequence of every cell is its index. *)
Definition new_mpsc (requested_capacity : Z) (threads : nat) : Result Mpsc :=
  let? capacity := normalized_capacity requested_capacity in
  Ok (mkMpsc capacity ((fun index => mkCell [Z.of_nat index] None) <$> seq 0 (Z.to_nat capacity)) [0] 0
        (replicate threads p_idle) c_idle [] []).

Definition set_pc (q : Mpsc) (j : nat) (pc : producer_pc) : Mpsc :=
  mkMpsc (capacity_ q) (cells_ q) (enqueue_position_ q) (dequeue_position_ q) (<[j := pc]> (producers q)) (consumer q)
    (order q) (answers q).
Definition set_cell (q : Mpsc) (cells : list Cell) : Mpsc :=
  mkMpsc (capacity_ q) cells (enqueue_position_ q) (dequeue_position_ q) (producers q) (consumer q) (order q) (answers q).
Definition set_consumer (q : Mpsc) (pc : consumer_pc) (dequeue : Z) : Mpsc :=
  mkMpsc (capacity_ q) (cells_ q) (enqueue_position_ q) dequeue (producers q) pc (order q) (answers q).
Definition reserve (q : Mpsc) (j : nat) (v : T) (position : Z) : Mpsc :=
  mkMpsc (capacity_ q) (cells_ q) (store (u64 (position + 1)) (enqueue_position_ q)) (dequeue_position_ q)
    (producers q) (consumer q) (order q ++ [(j, v)]) (answers q).
Definition answered (a : answer) (q : Mpsc) : Mpsc :=
  mkMpsc (capacity_ q) (cells_ q) (enqueue_position_ q) (dequeue_position_ q) (producers q) (consumer q) (order q)
    (answers q ++ [a]).

(** A turn of producer [j]; an idle one calls [try_push(v)].  [spurious] is a failure
    of the weak exchange without a reason. *)
Definition push_turn (j : nat) (v : T) (lag : nat) (spurious : bool) (q : Mpsc) : Result Mpsc :=
  match producers q !! j with
  | None => Ok q
  | Some p_idle => Ok (set_pc q j (p_sequence v (load 0 lag (enqueue_position_ q)).1))
  | Some (p_position v) => Ok (set_pc q j (p_sequence v (load 0 lag (enqueue_position_ q)).1))
  | Some (p_sequence v position) =>
      let? cell := vec_get (cells_ q) (Z.land position (mask_ q)) in
      let s := (load 0 lag (sequence cell)).1 in
      let difference := u64 (s - position) in
      if difference =? 0 then Ok (set_pc q j (p_exchange v position))
      else if sequence_precedes_position s position then Ok (answered (refused j v) (set_pc q j p_idle))
      else Ok (set_pc q j (p_position v))
  | Some (p_exchange v position) =>
      let current := newest (enqueue_position_ q) in
      if (current =? position) && negb spurious then Ok (set_pc (reserve q j v position) j (p_emplace v position))
      else Ok (set_pc q j (p_sequence v current))
  | Some (p_emplace v position) =>
      let? cell := vec_get (cells_ q) (Z.land position (mask_ q)) in
      let? cells := vec_set (cells_ q) (Z.land position (mask_ q)) (mkCell (sequence cell) (Some v)) in
      Ok (set_pc (set_cell q cells) j (p_publish v position))
  | Some (p_publish v position) =>
      let? cell := vec_get (cells_ q) (Z.land position (mask_ q)) in
      let? cells := vec_set (cells_ q) (Z.land position (mask_ q))
                      (mkCell (store (u64 (position + 1)) (sequence cell)) (value cell)) in
      Ok (answered (pushed j v) (set_pc (set_cell q cells) j p_idle))
  end.

(** A turn of the consumer. *)
Definition pop_turn (lag : nat) (q : Mpsc) : Result Mpsc :=
  let at_ := Z.land (dequeue_position_ q) (mask_ q) in
  let? cell := vec_get (cells_ q) at_ in
  match consumer q with
  | c_idle =>
      if negb ((load 0 lag (sequence cell)).1 =? u64 (dequeue_position_ q + 1)) then Ok (answered nothing q)
      else Ok (set_consumer q c_take (dequeue_position_ q))
  | c_take =>
      let? cells := vec_set (cells_ q) at_ (mkCell (sequence cell) None) in
      Ok (set_consumer (set_cell q cells) (c_free (value cell)) (dequeue_position_ q))
  | c_free v =>
      let? cells := vec_set (cells_ q) at_
                      (mkCell (store (u64 (dequeue_position_ q + capacity_ q)) (sequence cell)) (value cell)) in
      Ok (answered (popped v) (set_consumer (set_cell q cells) c_idle (u64 (dequeue_position_ q + 1))))
  end.

Inductive mpsc_turn := turn_push (j : nat) (v : T) (lag : nat) (spurious : bool) | turn_pop (lag : nat).

Definition mpsc_step (turn : mpsc_turn) (q : Mpsc) : Result Mpsc :=
  match turn with turn_push j v lag spurious => push_turn j v lag spurious q | turn_pop lag => pop_turn lag q end.

Fixpoint mpsc_run (schedule : list mpsc_turn) (q : Mpsc) : Result Mpsc :=
  match schedule with
  | [] => Ok q
  | turn :: schedule => let? q' := mpsc_step turn q in mpsc_run schedule q'
  end.

(** ** The invariant *)

Definition received (l : list answer) : list (option T) := omap (fun a => match a with popped v => Some v | _ => None end) l.
(** The values producer [j] has pushed, and those of it that have a place in the ring. *)
Definition pushed_by (j : nat) (l : list answer) : list T :=
  omap (fun a => match a with pushed i v => if decide (i = j) then Some v else None | _ => None end) l.
Definition own (j : nat) (l : list (nat * T)) : list T := omap (fun x => if decide (x.1 = j) then Some x.2 else None) l.

Abbreviation E q := (length (order q)).
Abbreviation D q := (length (received (answers q))).

(** The cell a producer has reserved and not yet published, with its value. *)
Definition holding (pc : producer_pc) : option (T * Z) :=
  match pc with p_emplace v position | p_publish v position => Some (v, position) | _ => None end.
Definition held (q : Mpsc) (p : nat) : Prop :=
  exists j pc v, producers q !! j = Some pc /\ holding pc = Some (v, Z.of_nat p).

Definition cell_of (q : Mpsc) (p : nat) : option Cell := cells_ q !! Z.to_nat (Z.of_nat p mod capacity_ q).
(** The cell of the [p]-th value has sequence [s] and holds [v]. *)
Definition cell_is (q : Mpsc) (p : nat) (s : nat) (v : option T) : Prop :=
  exists c, cell_of q p = Some c /\ newest (sequence c) = Z.of_nat s /\ value c = v.

Definition reserved (q : Mpsc) (j : nat) (position : Z) (v : T) (content : option T) : Prop :=
  exists p, position = Z.of_nat p /\ (D q <= p < E q)%nat /\ order q !! p = Some (j, v) /\ cell_is q p p content.

Definition pc_ok (q : Mpsc) (j : nat) (pc : producer_pc) : Prop :=
  match pc with
  | p_idle | p_position _ => True
  | p_sequence _ position => exists p, position = Z.of_nat p /\ (p <= E q)%nat
  | p_exchange _ position => exists p, position = Z.of_nat p /\ (p <= E q)%nat /\ Z.of_nat p < Z.of_nat (D q) + capacity_ q
  | p_emplace v position => reserved q j position v None
  | p_publish v position => reserved q j position v (Some v)
  end.

(** A value the sequence of a cell has had: the cell was free for a position, or a
    value had been published in it. *)
Definition past (q : Mpsc) (i : nat) (s : Z) : Prop :=
  exists p, Z.to_nat (Z.of_nat p mod capacity_ q) = i /\
    (s = Z.of_nat p /\ Z.of_nat p < Z.of_nat (D q) + capacity_ q \/
     s = Z.of_nat p + 1 /\ (p < E q)%nat /\ ~ held q p).

Record mpsc_ok (q : Mpsc) : Prop := {
  mo_capacity : capacity_ok (capacity_ q);
  mo_cells : zlen (cells_ q) = capacity_ q;
  mo_enqueue : counts (enqueue_position_ q) /\ length (enqueue_position_ q) = S (E q);
  mo_dequeue : dequeue_position_ q = Z.of_nat (D q);
  mo_window : (D q <= E q)%nat /\ Z.of_nat (E q) <= Z.of_nat (D q) + capacity_ q;
  mo_received : received (answers q) = (Some ∘ snd) <$> take (D q) (order q);
  mo_own : forall j, own j (order q) = pushed_by j (answers q) ++
    match producers q !! j with Some pc => match holding pc with Some (v, _) => [v] | None => [] end | None => [] end;
  mo_producers : forall j pc, producers q !! j = Some pc -> pc_ok q j pc;
  mo_past : forall i c, cells_ q !! i = Some c -> sequence c <> [] /\ forall s, s ∈ sequence c -> past q i s;
  mo_free : forall p, (E q <= p)%nat -> Z.of_nat p < Z.of_nat (D q) + capacity_ q -> cell_is q p p None;
  mo_ready : forall p j v, order q !! p = Some (j, v) -> (D q <= p)%nat -> ~ held q p ->
    cell_is q p (S p) (match consumer q with c_free _ => if decide (p = D q) then None else Some v | _ => Some v end);
  mo_consumer : match consumer q with
    | c_idle => True
    | c_take => (D q < E q)%nat /\ ~ held q (D q)
    | c_free v => (D q < E q)%nat /\ ~ held q (D q) /\ v = snd <$> order q !! D q
    end
}.

(** Few enough values for the positions not to wrap around. *)
Definition bounded (q : Mpsc) : Prop := Z.of_nat (E q) + capacity_ q <= 2 ^ 64.

(** ** Its preservation *)

#[local] Arguments received : simpl never.
#[local] Arguments pushed_by : simpl never.
#[local] Arguments own : simpl never.

Lemma mpsc_received_snoc l a : received (l ++ [a]) = received l ++ match a with popped v => [v] | _ => [] end.
Proof. unfold received. rewrite omap_app. by destruct a. Qed.
Lemma pushed_by_snoc j l a : pushed_by j (l ++ [a]) =
  pushed_by j l ++ match a with pushed i v => if decide (i = j) then [v] else [] | _ => [] end.
Proof. unfold pushed_by. rewrite omap_app. destruct a; cbn; try done. by destruct (decide _). Qed.
Lemma own_snoc j l x : own j (l ++ [x]) = own j l ++ if decide (x.1 = j) then [x.2] else [].
Proof. unfold own. rewrite omap_app. cbn. by destruct (decide _). Qed.

Lemma mpsc_capacity_wide q : mpsc_ok q -> 2 <= capacity_ q < 2 ^ 64.
Proof.
  intros H. pose proof (capacity_bounds _ (mo_capacity q H)). assert (2 ^ 62 < 2 ^ 64) by reflexivity. lia.
Qed.

Lemma set_pc_lookup q j pc pc0 i pc' : producers q !! j = Some pc0 -> <[j := pc]> (producers q) !! i = Some pc' ->
  i = j /\ pc' = pc \/ i <> j /\ producers q !! i = Some pc'.
Proof.
  intros Hj Hi. apply list_lookup_insert_Some in Hi as [(-> & -> & _)|[Hne Hi]]; auto.
Qed.

(** A producer that neither has a cell nor takes one. *)
Lemma held_set_pc q j pc pc0 p : producers q !! j = Some pc0 -> holding pc0 = None -> holding pc = None ->
  held (set_pc q j pc) p <-> held q p.
Proof.
  intros Hj H0 H1. split; intros (i & pc' & v & Hi & Hh).
  - apply (set_pc_lookup _ _ _ _ _ _ Hj) in Hi as [[-> ->]|[Hne Hi]]; [congruence|]. by exists i, pc', v.
  - exists i, pc', v. split; [|done]. cbn. rewrite list_lookup_insert_ne; [done|]. intros ->. congruence.
Qed.

Lemma set_pc_ok q j pc pc0 : mpsc_ok q -> producers q !! j = Some pc0 -> holding pc0 = None -> holding pc = None ->
  pc_ok q j pc -> mpsc_ok (set_pc q j pc).
Proof.
  intros Hq Hj H0 H1 Hpc. pose proof (fun p => held_set_pc q j pc pc0 p Hj H0 H1) as Hh. destruct Hq.
  constructor; cbn; try done.
  - intros i. rewrite mo_own0. f_equal. destruct (decide (i = j)) as [->|Hne].
    + rewrite Hj, list_lookup_insert_eq by (by eapply lookup_lt_Some). by rewrite H0, H1.
    + by rewrite list_lookup_insert_ne.
  - intros i pc' Hi. apply (set_pc_lookup _ _ _ _ _ _ Hj) in Hi as [[-> ->]|[Hne Hi]]; [done|]. by apply mo_producers0.
  - intros i c Hc. destruct (mo_past0 i c Hc) as [Hne Hp]. split; [done|]. intros s Hs.
    destruct (Hp s Hs) as (p & Hi & [Hc1|(Hs1 & He & Hn)]); exists p; split; [done|by left|done|right].
    split_and!; [done|done|]. by rewrite Hh.
  - intros p i v Hp Hd Hn. apply (mo_ready0 p i v Hp Hd). by rewrite <- Hh.
  - destruct (consumer q); [done|..]; change (D (set_pc q j pc)) with (D q); rewrite Hh; done.
Qed.

(** An answer that moves no value. *)
Lemma answered_ok q a : mpsc_ok q -> match a with refused _ _ | nothing => True | _ => False end -> mpsc_ok (answered a q).
Proof.
  intros Hq Ha. assert (Hr : received (answers q ++ [a]) = received (answers q)).
  { rewrite mpsc_received_snoc. destruct a; try done; apply app_nil_r. }
  assert (Hp : forall j, pushed_by j (answers q ++ [a]) = pushed_by j (answers q)).
  { intros j. rewrite pushed_by_snoc. destruct a; try done; apply app_nil_r. }
  destruct Hq. constructor; unfold pc_ok, past, reserved in *; cbn; rewrite ?Hr; try done. intros j. by rewrite Hp.
Qed.

Section step.
Context (q : Mpsc) (Hq : mpsc_ok q) (Hb : bounded q).

Lemma cell_index_of (p : nat) : (p <= E q)%nat -> Z.land (Z.of_nat p) (mask_ q) = Z.of_nat p mod capacity_ q.
Proof.
  intros Hp. pose proof (mpsc_capacity_wide q Hq) as Hw. rewrite <- (wrap_small 64 (Z.of_nat p)) at 1.
  - apply ring_index; [apply Hq|lia].
  - unfold bounded, is_uint in *. lia.
Qed.

Lemma load_position lag : exists p, (load 0 lag (enqueue_position_ q)).1 = Z.of_nat p /\ (p <= E q)%nat.
Proof.
  pose proof (mpsc_capacity_wide q Hq) as Hw. destruct (mo_enqueue q Hq) as [Hc Hl].
  destruct (counts_load (enqueue_position_ q) 0 lag Hc) as (i & -> & Hi); [lia|]. exists i. cbn.
  split; [|lia]. apply wrap_small. unfold bounded, is_uint in *. lia.
Qed.

Lemma newest_position : newest (enqueue_position_ q) = Z.of_nat (E q).
Proof.
  pose proof (mpsc_capacity_wide q Hq) as Hw. destruct (mo_enqueue q Hq) as [Hc Hl]. rewrite counts_newest by done.
  rewrite Hl. replace (S (E q) - 1)%nat with (E q) by lia. apply wrap_small. unfold bounded, is_uint in *. lia.
Qed.

(** Every load of the sequence of a cell returns a past value of it. *)
Lemma load_sequence lag i c : cells_ q !! i = Some c ->
  past q i (load 0 lag (sequence c)).1 /\ 0 <= (load 0 lag (sequence c)).1 < 2 ^ 64.
Proof.
  intros Hc. destruct (mo_past q Hq i c Hc) as [Hne Hp]. pose proof (load_index 0 lag (sequence c)) as Hl.
  destruct (load 0 lag (sequence c)) as [s n]. cbn. destruct Hl as [Hs _].
  { destruct (sequence c); [done|]. cbn. lia. }
  apply list_elem_of_lookup_2 in Hs. pose proof (Hp s Hs) as H. split; [done|].
  pose proof (mpsc_capacity_wide q Hq). pose proof (mo_window q Hq). unfold bounded in Hb.
  destruct H as (p & _ & [[-> H]|(-> & H & _)]); lia.
Qed.

Lemma cell_exists (p : nat) : exists c, cell_of q p = Some c.
Proof.
  pose proof (mpsc_capacity_wide q Hq) as Hw. pose proof (mo_cells q Hq) as Hl. unfold zlen in Hl.
  destruct (cell_index (capacity_ q) p) as [Hi _]; [lia|]. apply lookup_lt_is_Some_2. lia.
Qed.

(** A cell seen free for [p], then or earlier, is free as long as [p] is not reserved. *)
Lemma seen_free p s : past q (Z.to_nat (Z.of_nat p mod capacity_ q)) s -> s = Z.of_nat p ->
  Z.of_nat p < Z.of_nat (D q) + capacity_ q.
Proof.
  intros (p' & Hi & [[-> H]|(-> & H & _)]) Hs; [lia|]. exfalso. pose proof (mpsc_capacity_wide q Hq).
  assert (p' = p); [|lia]. apply (cell_index_inj (capacity_ q)); [lia|lia|done].
Qed.

Lemma push_tested j v position lag : producers q !! j = Some (p_sequence v position) -> exists c,
  vec_get (cells_ q) (Z.land position (mask_ q)) = Ok c /\
  (u64 ((load 0 lag (sequence c)).1 - position) = 0 -> mpsc_ok (set_pc q j (p_exchange v position))).
Proof.
  intros Hj. destruct (mo_producers q Hq j _ Hj) as (p & -> & Hp). destruct (cell_exists p) as [c Hc].
  pose proof (mpsc_capacity_wide q Hq) as Hw. exists c. rewrite cell_index_of by done. split; [apply ring_get; [lia|done]|].
  intros H0. destruct (load_sequence lag _ c Hc) as [Hpast Hs].
  assert (Es : (load 0 lag (sequence c)).1 = Z.of_nat p).
  { unfold bounded, wrap in *. apply Z.mod_divide in H0; [|done]. destruct H0 as [k Hk].
    assert (k = 0) by nia. nia. }
  eapply set_pc_ok; try done. exists p. split_and!; [done|done|]. by eapply seen_free.
Qed.

Lemma held_reserve j v : producers q !! j = Some (p_exchange v (Z.of_nat (E q))) -> forall p,
  held (set_pc (reserve q j v (Z.of_nat (E q))) j (p_emplace v (Z.of_nat (E q)))) p <-> p = E q \/ held q p.
Proof.
  intros Hj p. split.
  - intros (i & pc & w & Hi & Hw). apply (set_pc_lookup (reserve q j v (Z.of_nat (E q))) _ _ _ _ _ Hj) in Hi as [[-> ->]|[Hne Hi]].
    + left. injection Hw as _ Hw. lia.
    + right. by exists i, pc, w.
  - intros [->|(i & pc & w & Hi & Hw)].
    + exists j, (p_emplace v (Z.of_nat (E q))), v. split; [|done]. cbn. apply list_lookup_insert_eq. by eapply lookup_lt_Some.
    + exists i, pc, w. split; [|done]. cbn. rewrite list_lookup_insert_ne; [done|]. intros ->. rewrite Hj in Hi. by injection Hi as <-.
Qed.

(** The exchange succeeds only when no one else has reserved the cell meanwhile. *)
Lemma push_reserved j v position : producers q !! j = Some (p_exchange v position) -> position = newest (enqueue_position_ q) ->
  mpsc_ok (set_pc (reserve q j v position) j (p_emplace v position)).
Proof.
  intros Hj Hn. pose proof (mo_producers q Hq j _ Hj) as (p & -> & Hp & Hfree). rewrite newest_position in Hn.
  assert (p = E q) as -> by lia. clear Hn Hp. set (q' := set_pc _ _ _).
  assert (Hlen : length (order q ++ [(j, v)]) = S (E q)) by (rewrite length_app; cbn; lia).
  pose proof (held_reserve j v Hj : forall p, held q' p <-> _) as Hh.
  pose proof (counts_store _ (proj1 (mo_enqueue q Hq))) as Hst. rewrite newest_position in Hst.
  pose proof (mo_free q Hq (E q) ltac:(lia) Hfree) as Hcell.
  destruct Hq. constructor; cbn; rewrite ?Hlen; try done; try lia.
  - split; [done|]. rewrite length_store. lia.
  - rewrite mo_received0 at 1. f_equal. rewrite take_app_le by lia. done.
  - intros i. rewrite own_snoc, mo_own0. cbn. destruct (decide (j = i)) as [<-|Hne].
    + rewrite Hj, list_lookup_insert_eq by (by eapply lookup_lt_Some). cbn. by rewrite app_nil_r.
    + by rewrite list_lookup_insert_ne, app_nil_r.
  - intros i pc Hi. apply (set_pc_lookup (reserve q j v (Z.of_nat (E q))) _ _ _ _ _ Hj) in Hi as [[-> ->]|[Hne Hi]].
    + exists (E q). cbn. rewrite Hlen. split_and!; [done|lia|lia|by apply list_lookup_middle|done].
    + specialize (mo_producers0 i pc Hi). destruct pc; cbn in *; try done.
      * destruct mo_producers0 as (p & ? & ?). exists p. rewrite Hlen. split; [done|lia].
      * destruct mo_producers0 as (p & ? & ? & ?). exists p. rewrite Hlen. split_and!; [done|lia|done].
      * destruct mo_producers0 as (p & ? & ? & ? & ?). exists p. cbn. rewrite Hlen, lookup_app_l by lia. split_and!; [done|lia|lia|done..].
      * destruct mo_producers0 as (p & ? & ? & ? & ?). exists p. cbn. rewrite Hlen, lookup_app_l by lia. split_and!; [done|lia|lia|done..].
  - intros i c Hc. destruct (mo_past0 i c Hc) as [Hne Hp]. split; [done|]. intros s Hs.
    destruct (Hp s Hs) as (p & Hi & [Hc1|(Hs1 & He & Hn)]); exists p; split; [done|by left|done|right].
    cbn. rewrite Hlen, Hh. split_and!; [done|lia|]. intros [->|?]; [lia|done].
  - intros p He Hd. apply mo_free0; [lia|done].
  - intros p i w Hp Hd Hn. rewrite Hh in Hn. apply mo_ready0 with i; [|done|tauto].
    apply lookup_app_Some in Hp as [Hp|[? Hp]]; [done|]. apply lookup_lt_Some in Hp. cbn in Hp. exfalso. apply Hn. left. lia.
  - destruct (consumer q) as [| |w]; [done|..]; change (D q') with (D q); rewrite Hh.
    + split; [lia|]. intros [?|?]; [lia|tauto].
    + destruct mo_consumer0 as (? & ? & ->). split_and!; [lia| |by rewrite lookup_app_l]. intros [?|?]; [lia|done].
Qed.

Lemma cell_write p c c' : cell_of q p = Some c -> exists cells,
  vec_get (cells_ q) (Z.of_nat p mod capacity_ q) = Ok c /\ vec_set (cells_ q) (Z.of_nat p mod capacity_ q) c' = Ok cells /\
  zlen cells = capacity_ q /\
  (forall q', cells_ q' = cells -> capacity_ q' = capacity_ q ->
     cell_of q' p = Some c' /\
     (forall i x, cells !! i = Some x -> cells_ q !! i = Some x \/ i = Z.to_nat (Z.of_nat p mod capacity_ q) /\ x = c') /\
     forall p' s v, p' <> p -> Z.abs (Z.of_nat p - Z.of_nat p') < capacity_ q -> cell_is q p' s v -> cell_is q' p' s v).
Proof.
  intros Hc. pose proof (mpsc_capacity_wide q Hq) as Hw. pose proof (mo_cells q Hq) as Hl.
  destruct (ring_set (cells_ q) (capacity_ q) p c') as (cells & H1 & H2 & H3 & H4 & H5); [lia|done|].
  exists cells. split_and!; [by apply ring_get; [lia|]|done|unfold zlen in *; lia|]. intros q' Ec Eq.
  unfold cell_is, cell_of. rewrite Ec, Eq. split_and!; [done| |].
  - intros i x Hx. destruct (decide (i = Z.to_nat (Z.of_nat p mod capacity_ q))) as [->|Hne].
    + right. split; [done|]. congruence.
    + left. by rewrite <- H4.
  - intros p' s v Hne Hd. by rewrite H5.
Qed.

Lemma held_replace j pc pc0 v position : producers q !! j = Some pc0 -> holding pc0 = Some (v, position) ->
  holding pc = Some (v, position) -> forall p, held (set_pc q j pc) p <-> held q p.
Proof.
  intros Hj H0 H1 p. split; intros (i & pc' & w & Hi & Hw).
  - apply (set_pc_lookup _ _ _ _ _ _ Hj) in Hi as [[-> ->]|[Hne Hi]]; [|by exists i, pc', w].
    exists j, pc0, w. split; [done|congruence].
  - destruct (decide (i = j)) as [->|Hne].
    + exists j, pc, w. cbn. rewrite list_lookup_insert_eq by (by eapply lookup_lt_Some). split; [done|congruence].
    + exists i, pc', w. cbn. by rewrite list_lookup_insert_ne.
Qed.

Lemma mpsc_push_emplaced j v position : producers q !! j = Some (p_emplace v position) -> exists c cells,
  vec_get (cells_ q) (Z.land position (mask_ q)) = Ok c /\
  vec_set (cells_ q) (Z.land position (mask_ q)) (mkCell (sequence c) (Some v)) = Ok cells /\
  mpsc_ok (set_pc (set_cell q cells) j (p_publish v position)).
Proof.
  intros Hj. destruct (mo_producers q Hq j _ Hj) as (p & -> & Hp & Ho & c & Hc & Hn & Hv).
  destruct (cell_write p c (mkCell (sequence c) (Some v)) Hc) as (cells & Hg & Hs & Hl & Hw).
  exists c, cells. rewrite cell_index_of by lia. split_and!; [done..|]. set (q' := set_pc _ _ _).
  destruct (Hw q' eq_refl eq_refl) as (Hnew & Hcells & Hother).
  assert (Hh : forall p, held q' p <-> held q p) by by apply (held_replace j _ (p_emplace v (Z.of_nat p)) v (Z.of_nat p)).
  assert (Hself : held q p) by by exists j, (p_emplace v (Z.of_nat p)), v.
  pose proof (mpsc_capacity_wide q Hq). destruct Hq. constructor; cbn; try done.
  - intros i. rewrite mo_own0. f_equal. destruct (decide (i = j)) as [->|Hne].
    + by rewrite Hj, list_lookup_insert_eq by (by eapply lookup_lt_Some).
    + by rewrite list_lookup_insert_ne.
  - intros i pc Hi. apply (set_pc_lookup (set_cell q cells) _ _ _ _ _ Hj) in Hi as [[-> ->]|[Hne Hi]].
    + exists p. split_and!; [done|cbn; lia|cbn; lia|done|]. by exists (mkCell (sequence c) (Some v)).
    + specialize (mo_producers0 i pc Hi). destruct pc; try done; destruct mo_producers0 as (p' & ? & ? & Ho' & ?);
        exists p'; (split_and!; [done|cbn; lia|cbn; lia|done|]); apply Hother; try done; try lia; intros ->; congruence.
  - intros i x Hx. destruct (Hcells i x Hx) as [Hx'|[-> ->]].
    + destruct (mo_past0 i x Hx') as [Hne Hpast]. split; [done|]. intros s Hs'. unfold past. setoid_rewrite Hh. by apply Hpast.
    + destruct (mo_past0 _ c Hc) as [Hne Hpast]. split; [done|]. intros s Hs'. unfold past. setoid_rewrite Hh. by apply Hpast.
  - intros p' He Hd. apply Hother; [lia..|]. by apply mo_free0.
  - intros p' i w Hp' Hd Hn'. rewrite Hh in Hn'. pose proof (lookup_lt_Some _ _ _ Hp').
    apply Hother; [by intros ->|lia|]. by apply (mo_ready0 p' i).
  - destruct (consumer q); [done|..]; change (D q') with (D q); by rewrite Hh.
Qed.

Lemma held_release j pc0 v p : producers q !! j = Some pc0 -> holding pc0 = Some (v, Z.of_nat p) -> order q !! p = Some (j, v) ->
  forall p', held (set_pc q j p_idle) p' <-> p' <> p /\ held q p'.
Proof.
  intros Hj H0 Ho p'. split.
  - intros (i & pc & w & Hi & Hw). apply (set_pc_lookup _ _ _ _ _ _ Hj) in Hi as [[-> ->]|[Hne Hi]]; [done|].
    split; [|by exists i, pc, w]. intros ->. pose proof (mo_producers q Hq i pc Hi) as Hpc.
    destruct pc; try done; destruct Hpc as (p1 & -> & _ & Ho1 & _); injection Hw as -> Hw; assert (p1 = p) as -> by lia; congruence.
  - intros [Hne (i & pc & w & Hi & Hw)]. exists i, pc, w. split; [|done]. cbn. rewrite list_lookup_insert_ne; [done|].
    intros ->. rewrite Hj in Hi. injection Hi as <-. apply Hne. rewrite H0 in Hw. injection Hw. lia.
Qed.

Lemma mpsc_push_published j v position : producers q !! j = Some (p_publish v position) -> exists c cells,
  vec_get (cells_ q) (Z.land position (mask_ q)) = Ok c /\
  vec_set (cells_ q) (Z.land position (mask_ q)) (mkCell (store (u64 (position + 1)) (sequence c)) (value c)) = Ok cells /\
  mpsc_ok (answered (pushed j v) (set_pc (set_cell q cells) j p_idle)).
Proof.
  intros Hj. destruct (mo_producers q Hq j _ Hj) as (p & -> & Hp & Ho & c & Hc & Hn & Hv).
  destruct (cell_write p c (mkCell (store (u64 (Z.of_nat p + 1)) (sequence c)) (value c)) Hc) as (cells & Hg & Hs & Hl & Hw).
  exists c, cells. rewrite cell_index_of by lia. split_and!; [done..|]. set (q' := answered _ _).
  destruct (Hw q' eq_refl eq_refl) as (Hnew & Hcells & Hother).
  pose proof (held_release j _ v p Hj eq_refl Ho : forall p', held q' p' <-> _) as Hh.
  assert (Hself : held q p) by by exists j, (p_publish v (Z.of_nat p)), v.
  assert (Hu : u64 (Z.of_nat p + 1) = Z.of_nat p + 1).
  { apply wrap_small. pose proof (mpsc_capacity_wide q Hq). unfold bounded, is_uint in *. lia. }
  assert (Hr : received (answers q ++ [pushed j v]) = received (answers q)) by (rewrite mpsc_received_snoc; apply app_nil_r).
  assert (Hpast : forall i s, past q i s -> past q' i s).
  { intros i s (p' & Hi & [H|(? & ? & ?)]); exists p'; cbn; rewrite ?Hr; (split; [done|]); [by left|right].
    split_and!; [done..|]. rewrite Hh. tauto. }
  pose proof (mpsc_capacity_wide q Hq). destruct Hq. constructor; cbn; rewrite ?Hr; try done.
  - intros i. rewrite pushed_by_snoc, mo_own0. destruct (decide (j = i)) as [<-|Hne].
    + rewrite Hj, list_lookup_insert_eq by (by eapply lookup_lt_Some). cbn. by rewrite app_nil_r.
    + by rewrite list_lookup_insert_ne, app_nil_r.
  - intros i pc Hi. apply (set_pc_lookup (set_cell q cells) _ _ _ _ _ Hj) in Hi as [[-> ->]|[Hne Hi]]; [done|].
    specialize (mo_producers0 i pc Hi). destruct pc; cbn -[reserved] in *; rewrite ?Hr; try done;
      destruct mo_producers0 as (p' & ? & ? & Ho' & ?); exists p'; cbn; rewrite Hr;
      (split_and!; [done|lia|lia|done|]); apply Hother; try done; try lia; intros ->; congruence.
  - intros i x Hx. destruct (Hcells i x Hx) as [Hx'|[-> ->]].
    + destruct (mo_past0 i x Hx') as [Hne Hp']. split; [done|]. intros s Hs'. by apply Hpast, Hp'.
    + destruct (mo_past0 _ c Hc) as [Hne Hp']. split; [by destruct (sequence c)|]. cbn. intros s.
      unfold store. rewrite elem_of_app, list_elem_of_singleton. intros [Hs'| ->]; [by apply Hpast, Hp'|].
      exists p. split; [done|]. right. rewrite Hh, Hu. split_and!; [done|cbn; lia|tauto].
  - intros p' He Hd. apply Hother; [lia..|]. by apply mo_free0.
  - intros p' i w Hp' Hd Hn'. rewrite Hh in Hn'. pose proof (lookup_lt_Some _ _ _ Hp'). destruct (decide (p' = p)) as [->|Hne].
    + rewrite Ho in Hp'. injection Hp' as <- <-. exists (mkCell (store (u64 (Z.of_nat p + 1)) (sequence c)) (value c)).
      split_and!; [done|cbn; rewrite newest_store; lia|]. cbn. destruct (consumer q) as [| |x]; [done..|].
      destruct (decide _) as [->|]; [tauto|done].
    + apply Hother; [done|lia|]. apply (mo_ready0 p' i w); [done..|tauto].
  - destruct (consumer q); [done|..]; rewrite Hh; tauto.
Qed.

Lemma pop_tested lag : exists c, vec_get (cells_ q) (Z.land (dequeue_position_ q) (mask_ q)) = Ok c /\ cell_of q (D q) = Some c /\
  ((load 0 lag (sequence c)).1 = u64 (dequeue_position_ q + 1) -> consumer q = c_idle ->
   mpsc_ok (set_consumer q c_take (dequeue_position_ q))).
Proof.
  pose proof (mpsc_capacity_wide q Hq) as Hw. pose proof (mo_window q Hq) as Hwin. rewrite (mo_dequeue q Hq), cell_index_of by lia.
  destruct (cell_exists (D q)) as [c Hc]. exists c. split_and!; [apply ring_get; [lia|done]|done|]. intros Hs Hidle.
  destruct (load_sequence lag _ c Hc) as [Hpast Hrange]. rewrite Hs in Hpast.
  rewrite wrap_small in Hpast by (unfold bounded, is_uint in *; lia).
  assert (Hready : (D q < E q)%nat /\ ~ held q (D q)).
  { destruct Hpast as (p & Hi & [[Hp Hlt]|(Hp & Hlt & Hn)]).
    - exfalso. assert (p = D q); [|lia]. by apply (cell_index_inj (capacity_ q)); [lia..|].
    - by assert (p = D q) as -> by lia. }
  pose proof (mo_dequeue q Hq) as Hdq. destruct Hq. rewrite Hidle in *. constructor; cbn; rewrite ?Hidle; done.
Qed.

(** The cell the consumer is at. *)
Lemma front_cell : (D q < E q)%nat -> ~ held q (D q) -> exists j v, order q !! D q = Some (j, v) /\
  cell_is q (D q) (S (D q)) (match consumer q with c_free _ => None | _ => Some v end).
Proof.
  intros Hlt Hn. destruct (lookup_lt_is_Some_2 (order q) (D q) Hlt) as [[j v] Hv]. exists j, v. split; [done|].
  pose proof (mo_ready q Hq _ _ _ Hv ltac:(lia) Hn) as H. destruct (consumer q); [done..|]. by rewrite decide_True in H.
Qed.

Lemma mpsc_pop_taken c : consumer q = c_take -> cell_of q (D q) = Some c -> exists cells,
  vec_set (cells_ q) (Z.land (dequeue_position_ q) (mask_ q)) (mkCell (sequence c) None) = Ok cells /\
  mpsc_ok (set_consumer (set_cell q cells) (c_free (value c)) (dequeue_position_ q)).
Proof.
  intros Hc Hcell. pose proof (mpsc_capacity_wide q Hq) as Hw. pose proof (mo_window q Hq) as Hwin.
  rewrite (mo_dequeue q Hq), cell_index_of by lia. pose proof (mo_consumer q Hq) as Hf. rewrite Hc in Hf. destruct Hf as [Hlt Hn].
  destruct (front_cell Hlt Hn) as (j & v & Ho & c' & Hc' & Hs & Hv). rewrite Hcell in Hc'. injection Hc' as <-.
  destruct (cell_write (D q) c (mkCell (sequence c) None) Hcell) as (cells & _ & Hset & Hl & Hwr).
  exists cells. split; [done|]. set (q' := set_consumer _ _ _). destruct (Hwr q' eq_refl eq_refl) as (Hnew & Hcells & Hother).
  destruct Hq. rewrite Hc in *. constructor; cbn; try done.
  - intros i pc Hi. specialize (mo_producers0 i pc Hi). destruct pc; try done; destruct mo_producers0 as (p & -> & ? & Ho' & ?);
      exists p; (split_and!; [done|cbn; lia|cbn; lia|done|]); apply Hother; try done; try lia;
      intros ->; apply Hn; eexists i, _, _; by split.
  - intros i x Hx. destruct (Hcells i x Hx) as [Hx'|[-> ->]]; [by apply mo_past0|by apply (mo_past0 _ c)].
  - intros p He Hd. apply Hother; [lia..|]. by apply mo_free0.
  - intros p i w Hp Hd Hn'. pose proof (lookup_lt_Some _ _ _ Hp). destruct (decide (p = D q)) as [->|Hne].
    + by exists (mkCell (sequence c) None).
    + apply Hother; [done|lia|]. by apply (mo_ready0 p i w).
  - split_and!; [done..|]. rewrite Ho. by rewrite Hv.
Qed.

Lemma mpsc_pop_freed v c : consumer q = c_free v -> cell_of q (D q) = Some c -> exists cells,
  vec_set (cells_ q) (Z.land (dequeue_position_ q) (mask_ q))
    (mkCell (store (u64 (dequeue_position_ q + capacity_ q)) (sequence c)) (value c)) = Ok cells /\
  mpsc_ok (answered (popped v) (set_consumer (set_cell q cells) c_idle (u64 (dequeue_position_ q + 1)))).
Proof.
  intros Hc Hcell. pose proof (mpsc_capacity_wide q Hq) as Hw. pose proof (mo_window q Hq) as Hwin.
  rewrite (mo_dequeue q Hq), cell_index_of by lia. pose proof (mo_consumer q Hq) as Hf. rewrite Hc in Hf. destruct Hf as (Hlt & Hn & Hval).
  destruct (front_cell Hlt Hn) as (j & w & Ho & c' & Hc' & Hs & Hv). rewrite Hc in Hv. rewrite Hcell in Hc'. injection Hc' as <-.
  rewrite !wrap_small by (unfold bounded, is_uint in *; lia). set (p' := (D q + Z.to_nat (capacity_ q))%nat).
  replace (Z.of_nat (D q) + capacity_ q) with (Z.of_nat p') by lia.
  destruct (cell_write (D q) c (mkCell (store (Z.of_nat p') (sequence c)) (value c)) Hcell) as (cells & _ & Hset & Hl & Hwr).
  exists cells. split; [done|]. set (q' := answered _ _). destruct (Hwr q' eq_refl eq_refl) as (Hnew & Hcells & Hother).
  assert (Hr : received (answers q ++ [popped v]) = received (answers q) ++ [v]) by apply mpsc_received_snoc.
  assert (HD : D q' = S (D q)) by (cbn; rewrite Hr, length_app; cbn; lia).
  assert (Hidx : Z.to_nat (Z.of_nat p' mod capacity_ q) = Z.to_nat (Z.of_nat (D q) mod capacity_ q)).
  { f_equal. replace (Z.of_nat p') with (Z.of_nat (D q) + 1 * capacity_ q) by lia. apply Z.mod_add. lia. }
  assert (Hpast : forall i s, past q i s -> past q' i s).
  { intros i s (p & Hi & [[-> H]|H]); exists p; rewrite HD; (split; [done|]); [left|right; done]. split; [done|cbn; lia]. }
  destruct Hq. rewrite Hc in *. constructor; rewrite ?HD; try done; try (cbn; lia).
  - change (order q') with (order q). rewrite (take_S_r _ _ _ Ho), fmap_app, <- mo_received0. cbn. by rewrite Hr, Hval, Ho.
  - intros i. cbn. by rewrite pushed_by_snoc, app_nil_r.
  - intros i pc Hi. specialize (mo_producers0 i pc Hi). destruct pc; try done; unfold pc_ok, reserved; rewrite ?HD.
    + destruct mo_producers0 as (p & ? & ? & ?). exists p. split_and!; [done|done|cbn; lia].
    + destruct mo_producers0 as (p & -> & ? & Ho' & ?). assert (p <> D q) by (intros ->; apply Hn; by eexists i, _, _).
      exists p. split_and!; [done|cbn; lia|cbn; lia|done|]. apply Hother; [done|lia|done].
    + destruct mo_producers0 as (p & -> & ? & Ho' & ?). assert (p <> D q) by (intros ->; apply Hn; by eexists i, _, _).
      exists p. split_and!; [done|cbn; lia|cbn; lia|done|]. apply Hother; [done|lia|done].
  - intros i x Hx. destruct (Hcells i x Hx) as [Hx'|[-> ->]].
    + destruct (mo_past0 i x Hx') as [Hne Hp']. split; [done|]. intros s Hs'. by apply Hpast, Hp'.
    + destruct (mo_past0 _ c Hcell) as [Hne Hp']. split; [by destruct (sequence c)|]. cbn. intros s.
      unfold store. rewrite elem_of_app, list_elem_of_singleton. intros [Hs'| ->]; [by apply Hpast, Hp'|].
      exists p'. split; [done|]. left. rewrite HD. split; [done|cbn; lia].
  - intros p He Hd. cbn in He, Hd. destruct (decide (p = p')) as [->|Hne].
    + exists (mkCell (store (Z.of_nat p') (sequence c)) (value c)). cbn. rewrite newest_store. split_and!; [|done..].
      unfold cell_of in *. cbn in *. by rewrite Hidx.
    + apply Hother; [lia..|]. apply mo_free0; lia.
  - intros p i x Hp Hd Hn'. pose proof (lookup_lt_Some _ _ _ Hp) as Hlt'. cbn in Hp, Hlt'. apply Hother; [lia..|].
    specialize (mo_ready0 p i x Hp ltac:(lia) Hn'). rewrite decide_False in mo_ready0 by lia. done.
Qed.
End step.

Lemma mpsc_push_turn_ok j v lag spurious q : mpsc_ok q -> bounded q ->
  exists q', push_turn j v lag spurious q = Ok q' /\ mpsc_ok q' /\ capacity_ q' = capacity_ q /\ (E q' <= S (E q))%nat.
Proof.
  intros Hq Hb. unfold push_turn. destruct (producers q !! j) as [pc|] eqn:Hj; [|exists q; split_and!; (done || lia)]. destruct pc as [|w|w p|w p|w p|w p].
  - destruct (load_position q Hq Hb lag) as (i & -> & Hi). eexists. split_and!; [done| |done|cbn; lia]. eapply set_pc_ok; try done. by exists i.
  - destruct (load_position q Hq Hb lag) as (i & -> & Hi). eexists. split_and!; [done| |done|cbn; lia]. eapply set_pc_ok; try done. by exists i.
  - destruct (push_tested q Hq Hb j w p lag Hj) as (c & -> & Hok). cbn [bindR]. destruct (_ =? 0) eqn:E0.
    + eexists. split_and!; [done|apply Hok; by apply Z.eqb_eq|done|cbn; lia].
    + destruct (sequence_precedes_position _ _); eexists; (split_and!; [done| |done|cbn; lia]).
      * apply answered_ok; [|done]. by eapply set_pc_ok.
      * by eapply set_pc_ok.
  - destruct (_ && _) eqn:Ec; eexists; (split_and!; [done| |done|]).
    + apply push_reserved; [done..|]. apply andb_true_iff in Ec as [Ec _]. by apply Z.eqb_eq in Ec.
    + cbn. rewrite length_app. cbn. lia.
    + eapply set_pc_ok; try done. exists (E q). split; [by apply newest_position|done].
    + cbn. lia.
  - destruct (mpsc_push_emplaced q Hq Hb j w p Hj) as (c & cells & -> & Hs & Hok). cbn [bindR]. rewrite Hs.
    eexists. split_and!; [done|done|done|cbn; lia].
  - destruct (mpsc_push_published q Hq Hb j w p Hj) as (c & cells & -> & Hs & Hok). cbn [bindR]. rewrite Hs.
    eexists. split_and!; [done|done|done|cbn; lia].
Qed.

Lemma mpsc_pop_turn_ok lag q : mpsc_ok q -> bounded q ->
  exists q', pop_turn lag q = Ok q' /\ mpsc_ok q' /\ capacity_ q' = capacity_ q /\ (E q' <= S (E q))%nat.
Proof.
  intros Hq Hb. unfold pop_turn. destruct (pop_tested q Hq Hb lag) as (c & -> & Hc & Hok). cbn [bindR].
  destruct (consumer q) as [| |v] eqn:Hcon.
  - destruct (negb _) eqn:En; eexists; (split_and!; [done| |done|cbn; lia]).
    + by apply answered_ok.
    + apply Hok; [|done]. apply negb_false_iff in En. by apply Z.eqb_eq.
  - destruct (mpsc_pop_taken q Hq Hb c Hcon Hc) as (cells & -> & Hok'). eexists. split_and!; [done|done|done|cbn; lia].
  - destruct (mpsc_pop_freed q Hq Hb v c Hcon Hc) as (cells & -> & Hok'). eexists. split_and!; [done|done|done|cbn; lia].
Qed.

Lemma mpsc_run_ok schedule q : mpsc_ok q -> Z.of_nat (E q) + zlen schedule + capacity_ q <= 2 ^ 64 ->
  exists q', mpsc_run schedule q = Ok q' /\ mpsc_ok q' /\ capacity_ q' = capacity_ q /\ (E q' <= E q + length schedule)%nat.
Proof.
  revert q. induction schedule as [|turn schedule IH]; intros q Hq Hb; [exists q; cbn; split_and!; (done || lia)|].
  rewrite zlen_cons in Hb. pose proof (zlen_nonneg schedule). assert (bounded q) by (unfold bounded; lia).
  assert (exists q', mpsc_step turn q = Ok q' /\ mpsc_ok q' /\ capacity_ q' = capacity_ q /\ (E q' <= S (E q))%nat)
    as (q1 & Hs & Hq1 & Hc1 & He1). { destruct turn; [by apply mpsc_push_turn_ok|by apply mpsc_pop_turn_ok]. }
  destruct (IH q1 Hq1) as (q' & Hr & Hq' & Hc' & He'); [lia|]. exists q'. cbn. rewrite Hs. cbn. split_and!; [done|done|congruence|lia].
Qed.

Lemma new_mpsc_ok requested threads q : 0 <= requested -> new_mpsc requested threads = Ok q ->
  mpsc_ok q /\ requested <= capacity_ q /\ order q = [].
Proof.
  intros Hr H. unfold new_mpsc in H. pose proof (normalized_capacity_spec requested Hr) as Hn.
  destruct (normalized_capacity requested) as [cap|e|f]; [|done..]. injection H as <-. destruct Hn as (Hok & Hle & _).
  split; [|cbn; split; [lia|done]]. pose proof (capacity_bounds _ Hok) as Hcb. set (q := mkMpsc _ _ _ _ _ _ _ _).
  assert (Hidle : forall j pc, producers q !! j = Some pc -> pc = p_idle).
  { intros j pc Hj. by apply lookup_replicate in Hj as [-> _]. }
  assert (Hcells : forall i, (i < Z.to_nat cap)%nat -> cells_ q !! i = Some (mkCell [Z.of_nat i] None)).
  { intros i Hi. cbn. rewrite list_lookup_fmap, lookup_seq_lt by lia. done. }
  assert (HD : D q = 0%nat) by done. constructor; try done; rewrite ?HD; try (cbn; lia).
  - cbn. unfold zlen. rewrite length_fmap, length_seq. lia.
  - cbn. split; [|done]. split; [done|]. by intros [|i] v Hi; [injection Hi as <-|destruct i].
  - intros j. cbn. destruct (replicate threads p_idle !! j) as [pc|] eqn:Hj; [|done].
    by rewrite (Hidle j pc Hj).
  - intros j pc Hj. by rewrite (Hidle j pc Hj).
  - intros i c Hc. pose proof (lookup_lt_Some _ _ _ Hc) as Hi. cbn in Hi. rewrite length_fmap, length_seq in Hi.
    rewrite Hcells in Hc by done. injection Hc as <-. split; [done|]. cbn. intros s ->%list_elem_of_singleton.
    exists i. rewrite HD. cbn. rewrite Z.mod_small by lia. split; [lia|]. left. lia.
  - intros p _ Hp. cbn in Hp. exists (mkCell [Z.of_nat p] None). split_and!; [|done..]. unfold cell_of.
    change (capacity_ q) with cap. rewrite Z.mod_small, Nat2Z.id by lia. apply Hcells. lia.
Qed.

(** ** Progress *)

Definition queued (q : Mpsc) : Z := zlen (order q) - zlen (received (answers q)).

Lemma load_fresh (a : Atomic) : (load 0 0 a).1 = newest a.
Proof. unfold load, newest. cbn. do 2 f_equal. lia. Qed.

(** A cell that a producer has reserved. *)
Lemma held_cell q : mpsc_ok q -> forall p, held q p -> exists j pc v content,
  producers q !! j = Some pc /\ holding pc = Some (v, Z.of_nat p) /\ order q !! p = Some (j, v) /\ cell_is q p p content.
Proof.
  intros Hq p (j & pc & v & Hj & Hh). pose proof (mo_producers q Hq j pc Hj) as Hpc. destruct pc as [| | | |w x|w x]; try done;
    injection Hh as -> ->; destruct Hpc as (p' & Hp & _ & Ho & Hc); assert (p' = p) as -> by lia; by eexists j, _, v, _.
Qed.

Lemma held_or q : mpsc_ok q -> forall p, held q p \/ ~ held q p.
Proof.
  intros Hq p. destruct (order q !! p) as [[j v]|] eqn:Ho.
  - destruct (decide (snd <$> (producers q !! j ≫= holding) = Some (Z.of_nat p))) as [Hh|Hh].
    + left. apply fmap_Some in Hh as ([w x] & (pc & Hj & Hh)%bind_Some & Hx). cbn in Hx. subst x. by exists j, pc, w.
    + right. intros H. destruct (held_cell q Hq p H) as (i & pc & w & _ & Hi & Hw & Ho' & _). rewrite Ho in Ho'.
      injection Ho' as <- <-. apply Hh. by rewrite Hi; cbn; rewrite Hw.
  - right. intros H. destruct (held_cell q Hq p H) as (j & pc & v & _ & _ & _ & Ho' & _). congruence.
Qed.

(** The cell at the end of the ring, for a producer with a fresh position. *)
Lemma tail_cell q : mpsc_ok q -> bounded q -> exists c, cell_of q (E q) = Some c /\
  (queued q < capacity_ q -> newest (sequence c) = Z.of_nat (E q)) /\
  (queued q = capacity_ q -> newest (sequence c) = Z.of_nat (D q) \/ newest (sequence c) = Z.of_nat (D q) + 1).
Proof.
  intros Hq Hb. pose proof (mpsc_capacity_wide q Hq) as Hw. pose proof (mo_window q Hq) as Hwin. unfold queued, zlen.
  destruct (decide (Z.of_nat (E q) < Z.of_nat (D q) + capacity_ q)) as [Hlt|Hge].
  - destruct (mo_free q Hq (E q) ltac:(lia) Hlt) as (c & Hc & Hs & _). exists c. split_and!; [done|done|lia].
  - assert (Hidx : cell_of q (E q) = cell_of q (D q)).
    { unfold cell_of. do 2 f_equal. replace (Z.of_nat (E q)) with (Z.of_nat (D q) + 1 * capacity_ q) by lia. apply Z.mod_add. lia. }
    rewrite Hidx. destruct (cell_exists q Hq (D q)) as [c Hc]. exists c. split_and!; [done|lia|]. intros _.
    assert (Hn : newest (sequence c) = Z.of_nat (D q) \/ newest (sequence c) = Z.of_nat (S (D q))); [|lia].
    destruct (held_or q Hq (D q)) as [Hh|Hh].
    + destruct (held_cell q Hq _ Hh) as (j & pc & v & x & _ & _ & _ & c' & Hc' & Hs & _). left. congruence.
    + destruct (front_cell q Hq ltac:(lia) Hh) as (j & v & _ & c' & Hc' & Hs & _). right. congruence.
Qed.

Lemma push_full q j v : mpsc_ok q -> bounded q -> producers q !! j = Some p_idle -> queued q = capacity_ q ->
  exists q', mpsc_run [turn_push j v 0 false; turn_push j v 0 false] q = Ok q' /\ answers q' = answers q ++ [refused j v].
Proof.
  intros Hq Hb Hj Hfull. destruct (tail_cell q Hq Hb) as (c & Hc & _ & Hs). specialize (Hs Hfull).
  pose proof (mpsc_capacity_wide q Hq) as Hw. pose proof (mo_window q Hq) as Hwin. unfold queued, zlen in Hfull.
  cbn. unfold push_turn at 1. rewrite Hj, load_fresh, newest_position by done. cbn. unfold push_turn. cbn.
  rewrite list_lookup_insert_eq by (by eapply lookup_lt_Some). change (mask_ (set_pc q j _)) with (mask_ q).
  rewrite (cell_index_of q Hq Hb), (ring_get _ _ _ c) by (done || lia). cbn. rewrite load_fresh.
  set (s := newest (sequence c)) in *. unfold sequence_precedes_position.
  assert (Hu : u64 (s - Z.of_nat (E q)) = 2 ^ 64 + s - Z.of_nat (E q)).
  { unfold wrap. symmetry. apply (Z.mod_unique_pos _ _ (-1)); unfold bounded in Hb; lia. }
  assert (2 ^ 62 + 2 ^ 63 <= 2 ^ 64) by (vm_compute; discriminate). pose proof (capacity_bounds _ (mo_capacity q Hq)).
  assert (Hmax : size_max / 2 < 2 ^ 63) by reflexivity. rewrite Hu.
  destruct (Z.eqb_spec (2 ^ 64 + s - Z.of_nat (E q)) 0) as [Hz|Hz]; [lia|].
  destruct (Z.gtb_spec (2 ^ 64 + s - Z.of_nat (E q)) (size_max / 2)) as [Hg|Hg]; [eauto|lia].
Qed.

Lemma push_alone q j v : mpsc_ok q -> Z.of_nat (E q) + 1 + capacity_ q <= 2 ^ 64 -> producers q !! j = Some p_idle -> queued q < capacity_ q ->
  exists q', mpsc_run (replicate 5 (turn_push j v 0 false)) q = Ok q' /\ answers q' = answers q ++ [pushed j v].
Proof.
  intros Hq Hb Hj Hroom. assert (Hb1 : bounded q) by (unfold bounded; lia). destruct (tail_cell q Hq Hb1) as (c & Hc & Hs & _). specialize (Hs Hroom).
  pose proof (mpsc_capacity_wide q Hq) as Hw. pose proof (mo_window q Hq) as Hwin. unfold queued, zlen in Hroom.
  set (q1 := set_pc q j (p_sequence v (Z.of_nat (E q)))).
  assert (T1 : push_turn j v 0 false q = Ok q1). { unfold push_turn. by rewrite Hj, load_fresh, newest_position. }
  assert (H1 : mpsc_ok q1). { eapply set_pc_ok; try done. by exists (E q). }
  assert (L1 : producers q1 !! j = Some (p_sequence v (Z.of_nat (E q)))) by (apply list_lookup_insert_eq; by eapply lookup_lt_Some).
  destruct (push_tested q1 H1 Hb1 j v _ 0 L1) as (c' & G2 & H2). assert (c' = c) as ->.
  { change (mask_ q1) with (mask_ q) in G2. rewrite (cell_index_of q Hq Hb1) in G2 by lia.
    change (cells_ q1) with (cells_ q) in G2. rewrite (ring_get _ _ _ c) in G2 by (done || lia). congruence. }
  rewrite load_fresh, Hs, Z.sub_diag in H2. specialize (H2 eq_refl). set (q2 := set_pc q1 j _) in H2.
  assert (T2 : push_turn j v 0 false q1 = Ok q2). { unfold push_turn. rewrite L1, G2. cbn [bindR]. by rewrite load_fresh, Hs, Z.sub_diag. }
  assert (L2 : producers q2 !! j = Some (p_exchange v (Z.of_nat (E q)))) by (apply list_lookup_insert_eq; by eapply lookup_lt_Some).
  pose proof (newest_position q2 H2 Hb1) as N2. pose proof (push_reserved q2 H2 Hb1 j v _ L2 (eq_sym N2)) as H3.
  set (q3 := set_pc (reserve q2 j v _) j _) in H3.
  assert (T3 : push_turn j v 0 false q2 = Ok q3). { unfold push_turn. rewrite L2, N2. change (Z.of_nat (E q2)) with (Z.of_nat (E q)). by rewrite (Z.eqb_refl (Z.of_nat (E q))). }
  assert (L3 : producers q3 !! j = Some (p_emplace v (Z.of_nat (E q)))) by (apply list_lookup_insert_eq; by eapply lookup_lt_Some).
  assert (B3 : bounded q3) by (unfold bounded in *; cbn; rewrite length_app; cbn; lia).
  destruct (mpsc_push_emplaced q3 H3 B3 j v _ L3) as (c4 & cells4 & G4 & S4 & H4). set (q4 := set_pc _ j _) in H4.
  assert (T4 : push_turn j v 0 false q3 = Ok q4). { unfold push_turn. rewrite L3, G4. cbn [bindR]. by rewrite S4. }
  assert (L4 : producers q4 !! j = Some (p_publish v (Z.of_nat (E q)))) by (apply list_lookup_insert_eq; by eapply lookup_lt_Some).
  destruct (mpsc_push_published q4 H4 B3 j v _ L4) as (c5 & cells5 & G5 & S5 & H5). eexists. split.
  - cbn -[push_turn]. rewrite T1. cbn -[push_turn]. rewrite T2. cbn -[push_turn]. rewrite T3. cbn -[push_turn]. rewrite T4. cbn -[push_turn].
    unfold push_turn. rewrite L4, G5. cbn [bindR]. by rewrite S5.
  - done.
Qed.

(** A pop that reads a fresh sequence finds the front value when it is published. *)
Lemma mpsc_pop_fresh q : mpsc_ok q -> bounded q -> consumer q = c_idle -> 0 < queued q -> ~ held q (D q) ->
  exists q', pop_turn 0 q = Ok q' /\ consumer q' = c_take.
Proof.
  intros Hq Hb Hc Hne Hn. destruct (pop_tested q Hq Hb 0) as (c & G & Hcell & _). unfold queued, zlen in Hne.
  destruct (front_cell q Hq ltac:(lia) Hn) as (j & v & _ & c' & Hc' & Hs & _). rewrite Hcell in Hc'. injection Hc' as <-.
  unfold pop_turn. rewrite G. cbn [bindR]. rewrite Hc, load_fresh, Hs, (mo_dequeue q Hq), wrap_small.
  - rewrite Nat2Z.inj_succ, <- Z.add_1_r, Z.eqb_refl. cbn. eauto.
  - pose proof (mpsc_capacity_wide q Hq). unfold bounded, is_uint in *. pose proof (mo_window q Hq). lia.
Qed.

(** Two threads are about to access the value of one cell. *)
Definition mpsc_race (q : Mpsc) : Prop := exists j v p, producers q !! j = Some (p_emplace v p) /\
  ((exists i w p', i <> j /\ producers q !! i = Some (p_emplace w p') /\ Z.land p (mask_ q) = Z.land p' (mask_ q)) \/
   consumer q = c_take /\ Z.land p (mask_ q) = Z.land (dequeue_position_ q) (mask_ q)).

Lemma mpsc_no_race q : mpsc_ok q -> bounded q -> ~ mpsc_race q.
Proof.
  intros Hq Hb (j & v & p & Hj & Hrace). pose proof (mpsc_capacity_wide q Hq) as Hw. pose proof (mo_window q Hq) as Hwin.
  assert (Hinj : forall a b, (D q <= a < E q)%nat -> (D q <= b < E q)%nat ->
    Z.land (Z.of_nat a) (mask_ q) = Z.land (Z.of_nat b) (mask_ q) -> a = b).
  { intros a b Ha Hb' He. rewrite !(cell_index_of q Hq Hb) in He by lia.
    apply (cell_index_inj (capacity_ q)); [lia..|by rewrite He]. }
  destruct (mo_producers q Hq j _ Hj) as (a & -> & Ha & Ho & _). destruct Hrace as [(i & w & p' & Hne & Hi & He)|[Hc He]].
  - destruct (mo_producers q Hq i _ Hi) as (b & -> & Hb' & Ho' & _). apply Hinj in He as ->; [congruence|done..].
  - pose proof (mo_consumer q Hq) as Hf. rewrite Hc in Hf. destruct Hf as [Hlt Hn]. rewrite (mo_dequeue q Hq) in He.
    apply Hinj in He as ->; [|done|lia]. apply Hn. by eexists j, _, v.
Qed.
End mpsc.
Arguments Mpsc : clear implicits.
Arguments mpsc_turn : clear implicits.

(** C6. The ring is a bounded queue from any number of producers to one consumer, for
    every interleaving of fewer than [2 ^ 63] accesses, every stale value a load may
    return and every spurious failure of the exchange: the values popped are the
    first ones in the order in which cells were reserved; of each producer exactly
    the values of its successful calls have a cell, in the order of the calls, the
    one it is writing last; never more than [capacity] cells are taken; no access
    leaves the ring and no two threads access the value of a cell at the same time;
    an undisturbed push with fresh loads succeeds in five accesses when there is room
    and is refused in two when the ring is full; and an undisturbed pop finds the
    front value once it is published. *)
Theorem mpsc_fifo {T} requested threads (schedule : list (mpsc_turn T)) q0 :
  0 <= requested -> new_mpsc requested threads = Ok q0 -> zlen schedule < 2 ^ 63 ->
  exists q, mpsc_run schedule q0 = Ok q /\ requested <= capacity_ q /\
    received (answers q) = (Some ∘ snd) <$> take (length (received (answers q))) (order q) /\
    (forall j, own j (order q) = pushed_by j (answers q) ++
       match producers q !! j with Some pc => match holding pc with Some (v, _) => [v] | None => [] end | None => [] end) /\
    0 <= queued q <= capacity_ q /\ ~ mpsc_race q /\
    (forall j v, producers q !! j = Some p_idle ->
       (queued q < capacity_ q -> exists q', mpsc_run (replicate 5 (turn_push j v 0 false)) q = Ok q' /\
          answers q' = answers q ++ [pushed j v]) /\
       (queued q = capacity_ q -> exists q', mpsc_run (replicate 2 (turn_push j v 0 false)) q = Ok q' /\
          answers q' = answers q ++ [refused j v])) /\
    (consumer q = c_idle -> 0 < queued q -> ~ held q (length (received (answers q))) ->
       exists q', pop_turn 0 q = Ok q' /\ consumer q' = c_take).
Proof.
  intros Hr Hn Hl. destruct (new_mpsc_ok requested threads q0 Hr Hn) as (H0 & Hcap & He).
  pose proof (capacity_bounds _ (mo_capacity _ H0)) as Hw. assert (2 ^ 62 + 2 ^ 63 <= 2 ^ 64) by (vm_compute; discriminate).
  destruct (mpsc_run_ok schedule q0 H0) as (q & Hrun & Hq & Hc & Hlen); [rewrite He; cbn; lia|].
  rewrite He in Hlen. cbn in Hlen. assert (Hb : bounded q) by (unfold bounded, zlen in *; lia).
  exists q. split; [done|]. split; [lia|]. split_and!.
  - apply (mo_received q Hq).
  - apply (mo_own q Hq).
  - pose proof (mo_window q Hq). unfold queued, zlen. lia.
  - pose proof (mo_window q Hq). unfold queued, zlen. lia.
  - by apply mpsc_no_race.
  - intros j v Hj. split; intros Hroom; [apply push_alone; try done; unfold zlen in *; lia|by apply push_full].
  - by apply mpsc_pop_fresh.
Qed.

(** Two producers race for the cells of a ring of two; the first one to reserve
    publishes last. *)
Definition sample_race : list (mpsc_turn Z) :=
  [turn_push 0 7 0 false; turn_push 1 8 0 false; turn_push 0 7 0 false; turn_push 1 8 0 false; turn_push 0 7 0 false;
   turn_push 1 8 0 false; turn_push 1 8 0 false; turn_push 1 8 0 false; turn_push 1 8 0 false; turn_push 1 8 0 false;
   turn_pop 0; turn_push 0 7 0 false; turn_push 0 7 0 false; turn_pop 1; turn_pop 0; turn_pop 0; turn_pop 0].

Lemma mpsc_fifo_witness : exists q0 q, new_mpsc 2 2 = Ok q0 /\ mpsc_run sample_race q0 = Ok q /\
  answers q = [pushed 1 8; nothing; pushed 0 7; nothing; popped (Some 7)] /\ order q = [(0%nat, 7); (1%nat, 8)] /\ 0 <= queued q <= capacity_ q.
Proof.
  eexists _, _. split; [reflexivity|]. split; [vm_compute; reflexivity|]. split; [reflexivity|]. split; [reflexivity|].
  destruct (mpsc_fifo 2 2 sample_race _ ltac:(lia) eq_refl ltac:(reflexivity)) as (q & Hq & _ & _ & _ & Hb & _).
  vm_compute in Hq. injection Hq as <-. exact Hb.
Defined.
