(* ===== verification/SlotPool.v ===== *)
(** * The payload arena of a mutation lane

    Models MutationSlotPool of include/glifistore/store/paired/mutation_slot_pool.hpp
    and src/store/paired/mutation_slot_pool.cpp: the reader of a shard pair copies the
    key and the value of a mutation into a byte ring and hands the number of a slot to
    the writer, which views the payload in place; slots are released in the order of
    completion.  A payload is contiguous: one that starts before the end of the ring
    runs on into the [maximum_payload_bytes_] bytes behind it. *)

From S2P Require Import Prelude Core.

Inductive AcquireFailure := slot_exhausted | byte_exhausted | payload_too_large.

Record Lease := mkLease { lease_slot : Z; lease_admission : Z }.
Record PayloadView := mkPayloadView { view_key : list Z; view_value : list Z; view_admission : Z }.

Record Slot := mkSlot {
  sequence : Z;
  begin_cursor : Z;
  end_cursor : Z;
  data_offset : Z;
  key_size : Z;
  value_size : Z;
  admission_bytes : Z;
  occupied : bool
}.
Definition empty_slot : Slot := mkSlot 0 0 0 0 0 0 0 false.

Record MutationSlotPool := mkSlotPool {
  slot_capacity_ : Z;
  byte_capacity_ : Z;
  maximum_payload_bytes_ : Z;
  storage_ : list Z;
  slots_ : list Slot;
  (** The back of the vector first. *)
  free_slots_ : list Z;
  head_cursor_ : Z;
  tail_cursor_ : Z;
  next_sequence_ : Z;
  release_sequence_ : Z;
  admission_bytes_in_use_ : Z
}.

(** The constructor; [garbage] is what the memory holds, which is not overwritten. *)
Definition new_slot_pool (slot_capacity byte_capacity maximum_payload_bytes : Z) (garbage : list Z) : Result MutationSlotPool :=
  if (slot_capacity =? 0) || (slot_capacity >? umax 32) || (byte_capacity =? 0) || (maximum_payload_bytes >? byte_capacity) ||
     (byte_capacity >? umax 64 / 2) || (maximum_payload_bytes >? size_max - byte_capacity)
  then Err invalid_argument
  else Ok (mkSlotPool slot_capacity byte_capacity maximum_payload_bytes garbage
             (replicate (Z.to_nat slot_capacity) empty_slot) (Z.of_nat <$> seq 0 (Z.to_nat slot_capacity)) 0 0 0 0 0).

Definition payload_bytes_in_use (p : MutationSlotPool) : Z := u64 (head_cursor_ p - tail_cursor_ p).
Definition slots_in_use (p : MutationSlotPool) : Z := slot_capacity_ p - zlen (free_slots_ p).

Definition set_cursors (head tail next release : Z) (p : MutationSlotPool) : MutationSlotPool :=
  mkSlotPool (slot_capacity_ p) (byte_capacity_ p) (maximum_payload_bytes_ p) (storage_ p) (slots_ p) (free_slots_ p)
    head tail next release (admission_bytes_in_use_ p).
Definition set_slots (storage : list Z) (slots : list Slot) (free : list Z) (in_use : Z) (p : MutationSlotPool) : MutationSlotPool :=
  mkSlotPool (slot_capacity_ p) (byte_capacity_ p) (maximum_payload_bytes_ p) storage slots free
    (head_cursor_ p) (tail_cursor_ p) (next_sequence_ p) (release_sequence_ p) in_use.

(** The reset of the cursors while nothing is leased; [std::terminate] where they
    disagree. *)
Definition quiescent_reset : Method MutationSlotPool unit :=
  let! p := getM in
  if zlen (free_slots_ p) =? slot_capacity_ p then
    if negb (head_cursor_ p =? tail_cursor_ p) || negb (next_sequence_ p =? release_sequence_ p) ||
       negb (admission_bytes_in_use_ p =? 0)
    then liftM (Stuck uncaught_exception)
    else modifyM (set_cursors 0 0 0 0)
  else retM tt.

(** What forbids to acquire a slot. *)
Definition acquire_failure (key value : list Z) (admission : Z) (p : MutationSlotPool) : option AcquireFailure :=
  if zlen key >? size_max - zlen value then Some payload_too_large
  else
    let payload_bytes := zlen key + zlen value in
    if (payload_bytes >? maximum_payload_bytes_ p) || (admission <? payload_bytes) || (admission >? byte_capacity_ p)
    then Some payload_too_large
    else if zlen (free_slots_ p) =? 0 then Some slot_exhausted
    else if (admission >? byte_capacity_ p - admission_bytes_in_use_ p) ||
            (payload_bytes >? byte_capacity_ p - payload_bytes_in_use p) then Some byte_exhausted
    else if (payload_bytes >? umax 64 - head_cursor_ p) || (next_sequence_ p =? umax 64) then Some byte_exhausted
    else None.

Definition try_acquire (key value : list Z) (admission : Z) : Method MutationSlotPool (Lease + AcquireFailure) :=
  quiescent_reset ;;!
  let! p := getM in
  match acquire_failure key value admission p, free_slots_ p with
  | Some failure, _ => retM (inr failure)
  | None, [] => liftM (Stuck out_of_bounds)
  | None, slot_id :: free =>
      let! slot := liftM (vec_get (slots_ p) slot_id) in
      if occupied slot then retM (inr slot_exhausted)
      else
        let offset := head_cursor_ p mod byte_capacity_ p in
        let! storage := liftM (memcpy (storage_ p) offset key) in
        let! storage := liftM (memcpy storage (offset + zlen key) value) in
        let finish := head_cursor_ p + (zlen key + zlen value) in
        let! slots := liftM (vec_set (slots_ p) slot_id
          (mkSlot (next_sequence_ p) (head_cursor_ p) finish offset (zlen key) (zlen value) admission true)) in
        modifyM (fun p => set_cursors finish (tail_cursor_ p) (u64 (next_sequence_ p + 1)) (release_sequence_ p)
          (set_slots storage slots free (admission_bytes_in_use_ p + admission) p)) ;;!
        retM (inl (mkLease slot_id admission))
  end.

(** [free_slots_.push_back(slot_id)], within the reserved capacity. *)
Definition give_back (slot_id in_use : Z) (slots : list Slot) : Method MutationSlotPool unit :=
  let! p := getM in
  if zlen (free_slots_ p) >=? slot_capacity_ p then liftM (Stuck uncaught_exception)
  else modifyM (set_slots (storage_ p) slots (slot_id :: free_slots_ p) in_use).

Definition rollback (lease : Lease) : Method MutationSlotPool bool :=
  let! p := getM in
  if lease_slot lease >=? slot_capacity_ p then retM false
  else
    let! slot := liftM (vec_get (slots_ p) (lease_slot lease)) in
    if negb (occupied slot) || negb (admission_bytes slot =? lease_admission lease) ||
       negb (u64 (sequence slot + 1) =? next_sequence_ p) || negb (end_cursor slot =? head_cursor_ p)
    then retM false
    else
      modifyM (set_cursors (begin_cursor slot) (tail_cursor_ p) (u64 (next_sequence_ p - 1)) (release_sequence_ p)) ;;!
      let! slots := liftM (vec_set (slots_ p) (lease_slot lease) empty_slot) in
      give_back (lease_slot lease) (u64 (admission_bytes_in_use_ p - admission_bytes slot)) slots ;;!
      retM true.

Definition release (slot_id : Z) : Method MutationSlotPool bool :=
  let! p := getM in
  if slot_id >=? slot_capacity_ p then retM false
  else
    let! slot := liftM (vec_get (slots_ p) slot_id) in
    if negb (occupied slot) || negb (sequence slot =? release_sequence_ p) || negb (begin_cursor slot =? tail_cursor_ p) ||
       (admission_bytes slot >? admission_bytes_in_use_ p)
    then retM false
    else
      modifyM (set_cursors (head_cursor_ p) (end_cursor slot) (next_sequence_ p) (u64 (release_sequence_ p + 1))) ;;!
      let! slots := liftM (vec_set (slots_ p) slot_id empty_slot) in
      give_back slot_id (u64 (admission_bytes_in_use_ p - admission_bytes slot)) slots ;;!
      retM true.

Definition view (slot_id : Z) (p : MutationSlotPool) : Result (option PayloadView) :=
  if slot_id >=? slot_capacity_ p then Ok None
  else
    let? slot := vec_get (slots_ p) slot_id in
    if negb (occupied slot) || (key_size slot >? maximum_payload_bytes_ p) ||
       (value_size slot >? maximum_payload_bytes_ p - key_size slot) || (data_offset slot >=? byte_capacity_ p) ||
       (key_size slot + value_size slot >? byte_capacity_ p + maximum_payload_bytes_ p - data_offset slot)
    then Ok None
    else
      let? key := subspan (storage_ p) (data_offset slot) (key_size slot) in
      let? value := subspan (storage_ p) (data_offset slot + key_size slot) (value_size slot) in
      Ok (Some (mkPayloadView key value (admission_bytes slot))).

(** ** What the pool promises

    The leases that are out, oldest first, and the bytes and the leases given since
    the pool was last asked with none out, which are counted in 64 bits.  A call
    answers and changes the queue as a bounded queue of payloads does. *)
Record Live := mkLive { l_slot : Z; l_key : list Z; l_value : list Z; l_admission : Z }.
Definition payload (l : Live) : list Z := l_key l ++ l_value l.
Record Queue := mkQueue { q_live : list Live; q_bytes : Z; q_leases : Z }.
(** The counts start again with the first request to an empty queue. *)
Definition settled (q : Queue) : Queue := match q_live q with [] => mkQueue [] 0 0 | _ => q end.
Definition countable (q : Queue) (key value : list Z) : Prop :=
  q_bytes q + (zlen key + zlen value) <= umax 64 /\ q_leases q < umax 64.
Definition admitted (live : list Live) : Z := foldr (fun l n => l_admission l + n) 0 live.

Inductive call := call_acquire (key value : list Z) (admission : Z) | call_rollback (lease : Lease) | call_release (slot : Z).
Inductive reply := reply_lease (r : Lease + AcquireFailure) | reply_done (b : bool).

Definition pool_call (c : call) : Method MutationSlotPool reply :=
  match c with
  | call_acquire key value admission => let! r := try_acquire key value admission in retM (reply_lease r)
  | call_rollback lease => let! b := rollback lease in retM (reply_done b)
  | call_release slot => let! b := release slot in retM (reply_done b)
  end.

Fixpoint pool_calls (calls : list call) : Method MutationSlotPool (list reply) :=
  match calls with
  | [] => retM []
  | c :: calls => let! r := pool_call c in let! rs := pool_calls calls in retM (r :: rs)
  end.

Section spec.
Context (slot_capacity byte_capacity maximum_payload : Z).

Definition fits (key value : list Z) (admission : Z) : Prop :=
  zlen key + zlen value <= maximum_payload /\ zlen key + zlen value <= admission <= byte_capacity.

Inductive serves : Queue -> call -> reply -> Queue -> Prop :=
  | serve_lease q slot key value admission :
      fits key value admission -> admitted (q_live q) + admission <= byte_capacity -> zlen (q_live q) < slot_capacity ->
      0 <= slot < slot_capacity -> slot ∉ (l_slot <$> q_live q) -> countable (settled q) key value ->
      serves q (call_acquire key value admission) (reply_lease (inl (mkLease slot admission)))
        (mkQueue (q_live q ++ [mkLive slot key value admission])
           (q_bytes (settled q) + (zlen key + zlen value)) (q_leases (settled q) + 1))
  | serve_too_large q key value admission :
      ~ fits key value admission ->
      serves q (call_acquire key value admission) (reply_lease (inr payload_too_large)) (settled q)
  | serve_no_slot q key value admission :
      fits key value admission -> zlen (q_live q) = slot_capacity ->
      serves q (call_acquire key value admission) (reply_lease (inr slot_exhausted)) (settled q)
  | serve_no_bytes q key value admission :
      fits key value admission -> byte_capacity < admitted (q_live q) + admission ->
      serves q (call_acquire key value admission) (reply_lease (inr byte_exhausted)) (settled q)
  | serve_no_cursor q key value admission :
      fits key value admission -> ~ countable (settled q) key value ->
      serves q (call_acquire key value admission) (reply_lease (inr byte_exhausted)) (settled q)
  | serve_rollback live l bytes leases :
      serves (mkQueue (live ++ [l]) bytes leases) (call_rollback (mkLease (l_slot l) (l_admission l))) (reply_done true)
        (mkQueue live (bytes - zlen (payload l)) (leases - 1))
  | serve_no_rollback q lease :
      (forall l, last (q_live q) = Some l -> lease <> mkLease (l_slot l) (l_admission l)) ->
      serves q (call_rollback lease) (reply_done false) q
  | serve_release live l bytes leases :
      serves (mkQueue (l :: live) bytes leases) (call_release (l_slot l)) (reply_done true) (mkQueue live bytes leases)
  | serve_no_release q slot :
      (forall l, head (q_live q) = Some l -> slot <> l_slot l) -> serves q (call_release slot) (reply_done false) q.

Inductive serves_all : Queue -> list call -> list reply -> Queue -> Prop :=
  | serves_none q : serves_all q [] [] q
  | serves_one q q1 q2 c r calls replies : serves q c r q1 -> serves_all q1 calls replies q2 ->
      serves_all q (c :: calls) (r :: replies) q2.
End spec.

(** What [view] shows of the leases that are out. *)
Definition viewed (live : list Live) (slot : Z) : option PayloadView :=
  (fun l => mkPayloadView (l_key l) (l_value l) (l_admission l)) <$> List.find (fun l => l_slot l =? slot) live.

(** ** The invariant *)

(** A lease with its sequence and the cursor it begins at. *)
Record entry (p : MutationSlotPool) (l : Live) (s c : Z) : Prop := {
  en_slot : 0 <= l_slot l /\ slots_ p !! Z.to_nat (l_slot l) =
    Some (mkSlot s c (c + zlen (payload l)) (c mod byte_capacity_ p) (zlen (l_key l)) (zlen (l_value l)) (l_admission l) true);
  en_bytes : slice (c mod byte_capacity_ p) (zlen (payload l)) (storage_ p) = payload l;
  en_size : zlen (payload l) <= maximum_payload_bytes_ p /\ zlen (payload l) <= l_admission l
}.

(** The leases occupy slots and bytes one after the other between two cursors. *)
Fixpoint laid (p : MutationSlotPool) (live : list Live) (s c s' c' : Z) : Prop :=
  match live with
  | [] => s = s' /\ c = c'
  | l :: live => entry p l s c /\ laid p live (s + 1) (c + zlen (payload l)) s' c'
  end.

Record pool_ok (p : MutationSlotPool) (live : list Live) : Prop := {
  po_slots : 0 < slot_capacity_ p <= umax 32 /\ zlen (slots_ p) = slot_capacity_ p;
  po_bytes : 0 <= maximum_payload_bytes_ p <= byte_capacity_ p /\ 0 < byte_capacity_ p <= umax 64 / 2 /\
    zlen (storage_ p) = byte_capacity_ p + maximum_payload_bytes_ p;
  po_free : free_slots_ p ++ (l_slot <$> live) ≡ₚ Z.of_nat <$> seq 0 (Z.to_nat (slot_capacity_ p));
  po_empty : forall i, i ∈ free_slots_ p -> exists slot, slots_ p !! Z.to_nat i = Some slot /\ occupied slot = false;
  po_laid : laid p live (release_sequence_ p) (tail_cursor_ p) (next_sequence_ p) (head_cursor_ p);
  po_cursors : 0 <= tail_cursor_ p /\ head_cursor_ p <= umax 64 /\ 0 <= release_sequence_ p /\ next_sequence_ p <= umax 64;
  po_admitted : admission_bytes_in_use_ p = admitted live /\ admitted live <= byte_capacity_ p
}.

(** ** Leases between cursors *)

Lemma laid_ends p live s c s' c' : laid p live s c s' c' ->
  s' = s + zlen live /\ c <= c' /\ c' - c <= admitted live.
Proof.
  revert s c. induction live as [|l live IH]; intros s c; cbn [laid admitted foldr].
  - intros [-> ->]. rewrite zlen_nil. lia.
  - intros [He H]. apply IH in H. pose proof (en_size _ _ _ _ He). pose proof (zlen_nonneg (payload l)).
    rewrite zlen_cons. unfold admitted in *. lia.
Qed.

Lemma laid_app p live live' s c s' c' : laid p (live ++ live') s c s' c' <->
  exists s1 c1, laid p live s c s1 c1 /\ laid p live' s1 c1 s' c'.
Proof.
  revert s c. induction live as [|l live IH]; intros s c; cbn.
  - split; [eauto|]. by intros (s1 & c1 & [-> ->] & H).
  - rewrite IH. split; [intros (He & s1 & c1 & H1 & H2)|intros (s1 & c1 & [He H1] & H2)]; eauto 6.
Qed.

Lemma laid_entry p live s c s' c' l : laid p live s c s' c' -> l ∈ live ->
  exists s1 c1, entry p l s1 c1 /\ s <= s1 < s' /\ c <= c1 /\ c1 + zlen (payload l) <= c'.
Proof.
  intros H (l1 & l2 & ->)%list_elem_of_split. apply laid_app in H as (s1 & c1 & H1 & [He H2]).
  apply laid_ends in H1 as (? & ? & _). apply laid_ends in H2 as (? & ? & _). exists s1, c1.
  pose proof (zlen_nonneg l1). pose proof (zlen_nonneg l2). split; [done|]. lia.
Qed.

(** Entries that a change of the pool keeps. *)
Lemma laid_keep p p' live s c s' c' : laid p live s c s' c' ->
  (forall l s1 c1, l ∈ live -> c <= c1 -> c1 + zlen (payload l) <= c' -> entry p l s1 c1 -> entry p' l s1 c1) ->
  laid p' live s c s' c'.
Proof.
  revert s c. induction live as [|l live IH]; intros s c; [done|]. cbn [laid]. intros [He H] Hk.
  pose proof (laid_ends _ _ _ _ _ _ H) as (_ & Hc & _). pose proof (zlen_nonneg (payload l)). split.
  - apply Hk; [by left|lia|lia|done].
  - apply IH; [done|]. intros l0 s1 c1 Hl Hc1 Hc2. apply Hk; [by right|lia|done].
Qed.

(** A payload written behind the others does not touch them. *)
Lemma ring_disjoint cap a n b m : 0 < cap -> 0 <= n -> 0 <= m -> a + n <= b -> b + m - a <= cap ->
  a mod cap + n <= b mod cap \/ b mod cap + m <= a mod cap.
Proof.
  intros Hc Hn Hm Hab Hlap. pose proof (Z.mod_pos_bound a cap Hc). pose proof (Z.mod_pos_bound b cap Hc).
  pose proof (Z.div_mod a cap). pose proof (Z.div_mod b cap).
  assert (a / cap = b / cap \/ b / cap = a / cap + 1 \/ b / cap >= a / cap + 2 \/ b / cap < a / cap) as [E|[E|[E|E]]] by lia; nia.
Qed.

Lemma memcpy_elsewhere (st src : list Z) at_ a n : 0 <= at_ -> at_ + zlen src <= zlen st -> 0 <= a -> 0 <= n -> a + n <= zlen st ->
  a + n <= at_ \/ at_ + zlen src <= a -> slice a n (ztake at_ st ++ src ++ zdrop (at_ + zlen src) st) = slice a n st.
Proof.
  intros Hat Hl Ha Hn Han [H|H]; pose proof (zlen_nonneg src).
  - rewrite slice_app_l by (rewrite ?zlen_ztake; lia). by apply slice_ztake.
  - rewrite slice_app_r, slice_app_r by (rewrite ?zlen_ztake; lia). rewrite zlen_ztake by lia.
    unfold slice. rewrite zdrop_zdrop by lia. do 2 f_equal. lia.
Qed.
Lemma memcpy_there (st src : list Z) at_ : 0 <= at_ -> at_ + zlen src <= zlen st ->
  slice at_ (zlen src) (ztake at_ st ++ src ++ zdrop (at_ + zlen src) st) = src.
Proof.
  intros Hat Hl. pose proof (zlen_nonneg src). rewrite slice_app_r by (rewrite zlen_ztake; lia). rewrite zlen_ztake, Z.sub_diag by lia.
  rewrite slice_app_l by lia. by apply slice_whole.
Qed.

(** ** The operations *)

Lemma elem_of_slots n (i : Z) : i ∈ Z.of_nat <$> seq 0 n <-> 0 <= i < Z.of_nat n.
Proof.
  rewrite list_elem_of_fmap. split.
  - intros (k & -> & H%elem_of_seq). lia.
  - intros H. exists (Z.to_nat i). rewrite elem_of_seq. lia.
Qed.

Lemma slots_split p live : pool_ok p live -> zlen (free_slots_ p) + zlen live = slot_capacity_ p /\
  NoDup (free_slots_ p) /\ NoDup (l_slot <$> live) /\
  (forall i, i ∈ free_slots_ p -> i ∈ l_slot <$> live -> False) /\
  (forall i, i ∈ free_slots_ p \/ i ∈ l_slot <$> live <-> 0 <= i < slot_capacity_ p).
Proof.
  intros Hok. pose proof (po_free p live Hok) as H. pose proof (po_slots p live Hok) as [Hs _].
  assert (HN : NoDup (free_slots_ p ++ (l_slot <$> live))).
  { rewrite H. apply NoDup_fmap; [apply _|apply NoDup_seq]. }
  apply NoDup_app in HN as (H1 & H2 & H3). split_and!; [|done|done|done|].
  - pose proof (Permutation_length H) as Hl. rewrite length_app, !length_fmap, length_seq in Hl. unfold zlen. lia.
  - intros i. rewrite <- elem_of_app, H, elem_of_slots. lia.
Qed.

Lemma byte_bounds p live : pool_ok p live ->
  0 <= maximum_payload_bytes_ p <= byte_capacity_ p /\ 0 < byte_capacity_ p <= 9223372036854775807.
Proof. intros Hok. by destruct (po_bytes p live Hok) as (? & ? & _). Qed.

(** The bytes in use. *)
Lemma bytes_used p live : pool_ok p live -> payload_bytes_in_use p = head_cursor_ p - tail_cursor_ p /\
  0 <= head_cursor_ p - tail_cursor_ p <= admitted live /\ next_sequence_ p = release_sequence_ p + zlen live.
Proof.
  intros Hok. pose proof (byte_bounds p live Hok). destruct Hok. apply laid_ends in po_laid0 as (Hs & Hc & Ha). split_and!; [|lia..].
  unfold payload_bytes_in_use. apply wrap_small. width. lia.
Qed.

Definition same_limits (p p' : MutationSlotPool) : Prop :=
  slot_capacity_ p' = slot_capacity_ p /\ byte_capacity_ p' = byte_capacity_ p /\
  maximum_payload_bytes_ p' = maximum_payload_bytes_ p.

Definition queue_of (p : MutationSlotPool) (live : list Live) : Queue :=
  mkQueue live (head_cursor_ p) (next_sequence_ p).

Lemma quiescent_reset_spec p live : pool_ok p live -> exists p', quiescent_reset p = (Ok tt, p') /\ pool_ok p' live /\
  same_limits p p' /\ settled (queue_of p live) = queue_of p' live.
Proof.
  intros Hok. destruct (slots_split p live Hok) as (Hl & _). unfold quiescent_reset. steps.
  destruct (Z.eqb_spec (zlen (free_slots_ p)) (slot_capacity_ p)) as [E|E].
  - assert (live = []) as ->.
    { destruct live; [done|]. rewrite zlen_cons in Hl. pose proof (zlen_nonneg live). lia. }
    destruct Hok. cbn in po_laid0. destruct po_laid0 as [Er Et]. destruct po_admitted0 as [Ea Hb].
    rewrite Et, Er, Ea, !Z.eqb_refl. cbn. eexists. split_and!; [done| |done|done].
    by constructor.
  - exists p. split_and!; [done..|]. destruct live; [|done]. rewrite zlen_nil in Hl. lia.
Qed.

Lemma acquire_failure_spec p live q key value admission : pool_ok p live -> settled q = queue_of p live -> q_live q = live ->
  match acquire_failure key value admission p with
  | Some failure => serves (slot_capacity_ p) (byte_capacity_ p) (maximum_payload_bytes_ p) q
      (call_acquire key value admission) (reply_lease (inr failure)) (queue_of p live)
  | None => fits (byte_capacity_ p) (maximum_payload_bytes_ p) key value admission /\
      admitted live + admission <= byte_capacity_ p /\ free_slots_ p <> [] /\
      head_cursor_ p + (zlen key + zlen value) <= umax 64 /\ next_sequence_ p < umax 64
  end.
Proof.
  intros Hok Hz Hlive. rewrite <- Hz. destruct (slots_split p live Hok) as (Hl & _). destruct (bytes_used p live Hok) as (Hu & Hb & Hn).
  pose proof (zlen_nonneg key). pose proof (zlen_nonneg value). pose proof (zlen_nonneg live).
  pose proof (po_admitted p live Hok) as [Ha Hcap]. pose proof (po_cursors p live Hok). pose proof (byte_bounds p live Hok) as [? ?].
  unfold acquire_failure. rewrite Hu, Ha. unfold size_max.
  destruct (Z.gtb_spec (zlen key) (umax 64 - zlen value)); [apply serve_too_large; unfold fits; width; lia|].
  destruct (_ || _) eqn:E1; [apply serve_too_large; unfold fits; width; lia|]. apply orb_false_iff in E1 as [[E1 E2]%orb_false_iff E3].
  rewrite ?Z.gtb_ltb in *. b2p. assert (Hfit : fits (byte_capacity_ p) (maximum_payload_bytes_ p) key value admission) by (unfold fits; lia).
  destruct (Z.eqb_spec (zlen (free_slots_ p)) 0); [apply serve_no_slot; [done|rewrite Hlive; lia]|].
  destruct (_ || _) eqn:E4; [apply serve_no_bytes; [done|]; rewrite Hlive; lia|]. apply orb_false_iff in E4 as [E4 E5]. rewrite ?Z.gtb_ltb in *. b2p.
  destruct (_ || _) eqn:E6.
  - apply serve_no_cursor; [done|]. rewrite Hz. unfold countable. cbn. lia.
  - apply orb_false_iff in E6 as [E6 E7]. rewrite ?Z.gtb_ltb in *. b2p. split_and!; [done|lia| |lia|lia].
    intros Ef. assert (zlen (free_slots_ p) = 0) by (by rewrite Ef). done.
Qed.

(** The pool after a payload has been copied in. *)
Definition leased (p : MutationSlotPool) (storage : list Z) (l : Live) (free : list Z) : MutationSlotPool :=
  set_cursors (head_cursor_ p + zlen (payload l)) (tail_cursor_ p) (next_sequence_ p + 1) (release_sequence_ p)
    (set_slots storage
       (<[Z.to_nat (l_slot l) := mkSlot (next_sequence_ p) (head_cursor_ p) (head_cursor_ p + zlen (payload l))
            (head_cursor_ p mod byte_capacity_ p) (zlen (l_key l)) (zlen (l_value l)) (l_admission l) true]> (slots_ p))
       free (admission_bytes_in_use_ p + l_admission l) p).

Lemma admitted_app live live' : admitted (live ++ live') = admitted live + admitted live'.
Proof. induction live as [|l live IH]; [done|]. cbn in *. unfold admitted in *. rewrite IH. lia. Qed.

Lemma leased_ok p live free l : pool_ok p live -> free_slots_ p = l_slot l :: free ->
  zlen (payload l) <= maximum_payload_bytes_ p -> zlen (payload l) <= l_admission l -> admitted live + l_admission l <= byte_capacity_ p ->
  head_cursor_ p + zlen (payload l) <= umax 64 -> next_sequence_ p < umax 64 ->
  exists storage, memcpy (storage_ p) (head_cursor_ p mod byte_capacity_ p) (payload l) = Ok storage /\
    pool_ok (leased p storage l free) (live ++ [l]).
Proof.
  intros Hok Hf Hm Ha Hadm Hh Hn. destruct (slots_split p live Hok) as (Hl & HN & _ & Hdis & Hin).
  destruct (bytes_used p live Hok) as (_ & Hb & Hs). destruct (byte_bounds p live Hok) as [Hmax Hcap].
  pose proof (po_bytes p live Hok) as (_ & _ & Hst). set (o := head_cursor_ p mod byte_capacity_ p).
  assert (Ho : 0 <= o < byte_capacity_ p) by (apply Z.mod_pos_bound; lia). pose proof (zlen_nonneg (payload l)).
  rewrite memcpy_in by lia. eexists. split; [done|]. set (p' := leased _ _ _ _).
  assert (Hslot : l_slot l ∈ free_slots_ p) by (rewrite Hf; by left).
  assert (Hrange : 0 <= l_slot l < slot_capacity_ p) by (apply Hin; by left).
  pose proof (po_slots p live Hok) as [Hsc Hsl].
  assert (Hkeep : forall i, i <> l_slot l -> 0 <= i -> slots_ p' !! Z.to_nat i = slots_ p !! Z.to_nat i).
  { intros i Hne Hi. cbn. rewrite list_lookup_insert_ne; [done|lia]. }
  constructor; cbn; try done.
  - unfold zlen in *. by rewrite length_insert.
  - pose proof (po_bytes p live Hok) as (? & ? & _). split; [done|]. split; [done|]. rewrite !zlen_app, zlen_ztake, zlen_zdrop by lia. lia.
  - rewrite fmap_app. cbn. rewrite <- (po_free p live Hok), Hf. by rewrite app_assoc, Permutation_app_comm.
  - intros i Hi. destruct (po_empty p live Hok i) as (slot & Hslot' & Hocc); [rewrite Hf; by right|].
    exists slot. split; [|done]. rewrite <- Hslot'. apply Hkeep.
    + intros ->. rewrite Hf in HN. by apply NoDup_cons in HN as [HN _].
    + assert (0 <= i < slot_capacity_ p); [|lia]. apply Hin. left. rewrite Hf. by right.
  - apply laid_app. exists (next_sequence_ p), (head_cursor_ p). split; [|split; [|done]].
    + apply (laid_keep p); [apply Hok|]. intros l0 s1 c1 Hl0 Hc1 Hc2 [[Hi Hen] Hby Hsz]. constructor; [|cbn|done].
      * split; [done|]. rewrite Hkeep; [done| |done]. intros E. apply (Hdis (l_slot l0)); [by rewrite E|]. by apply list_elem_of_fmap_2.
      * pose proof (zlen_nonneg (payload l0)). assert (0 <= c1 mod byte_capacity_ p < byte_capacity_ p) by (apply Z.mod_pos_bound; lia).
        pose proof (ring_disjoint (byte_capacity_ p) c1 (zlen (payload l0)) (head_cursor_ p) (zlen (payload l))).
        rewrite memcpy_elsewhere; [done|lia..].
    + constructor; [|cbn|done]; [|apply memcpy_there; lia]. split; [lia|]. cbn. apply list_lookup_insert_eq. unfold zlen in *. lia.
  - pose proof (po_cursors p live Hok). lia.
  - rewrite admitted_app. cbn. pose proof (po_admitted p live Hok). lia.
Qed.

Abbreviation serves_of p live c r p' live' :=
  (serves (slot_capacity_ p) (byte_capacity_ p) (maximum_payload_bytes_ p) (queue_of p live) c r (queue_of p' live')).

Lemma free_slot p live i : pool_ok p live -> i ∈ free_slots_ p ->
  exists slot, vec_get (slots_ p) i = Ok slot /\ occupied slot = false.
Proof.
  intros Hok Hi. destruct (po_empty p live Hok i Hi) as (slot & Hs & Ho). exists slot. split; [|done].
  assert (0 <= i) by (apply (slots_split p live Hok); by left). rewrite <- (Z2Nat.id i) by done. by apply vec_get_Some.
Qed.

Lemma try_acquire_spec p live key value admission : pool_ok p live -> exists r p' live',
  try_acquire key value admission p = (Ok r, p') /\ pool_ok p' live' /\ same_limits p p' /\
  serves_of p live (call_acquire key value admission) (reply_lease r) p' live'.
Proof.
  intros Hok. destruct (quiescent_reset_spec p live Hok) as (p1 & Hreset & Hok1 & (L1 & L2 & L3) & Hz).
  rewrite <- L1, <- L2, <- L3. unfold same_limits. rewrite <- L1, <- L2, <- L3. clear Hok L1 L2 L3.
  pose proof (acquire_failure_spec p1 live (queue_of p live) key value admission Hok1 Hz eq_refl) as Hf. unfold try_acquire.
  rewrite (bindM_Ok _ _ _ _ _ Hreset). steps. destruct (acquire_failure key value admission p1) as [failure|].
  - by exists (inr failure), p1, live.
  - destruct Hf as (Hfit & Hadm & Hne & Hh & Hn). destruct (free_slots_ p1) as [|slot free] eqn:Ef; [done|].
    destruct (free_slot p1 live slot Hok1) as (sl & Hsl & Hocc); [rewrite Ef; by left|]. rewrite Hsl. steps. rewrite Hocc.
    set (l := mkLive slot key value admission). assert (Hpay : zlen (payload l) = zlen key + zlen value) by apply zlen_app.
    destruct (leased_ok p1 live free l Hok1 Ef) as (storage & Hcopy & Hok2); rewrite ?Hpay; try apply Hfit; try done.
    unfold payload in Hcopy. cbn in Hcopy. rewrite memcpy_app in Hcopy. apply bindR_Ok in Hcopy as (storage1 & -> & Hcopy).
    steps. rewrite Hcopy. steps. destruct (slots_split p1 live Hok1) as (Hl & _ & _ & _ & Hin).
    assert (Hrange : 0 <= slot < slot_capacity_ p1) by (apply Hin; left; rewrite Ef; by left).
    unfold vec_set. pose proof (po_slots p1 live Hok1) as [_ Hlen].
    destruct (Z.leb_spec 0 slot); [|lia]. destruct (Z.ltb_spec slot (zlen (slots_ p1))); [|lia]. cbn [andb]. steps.
    eexists (inl (mkLease slot admission)), _, (live ++ [l]). split; [reflexivity|].
    assert (Hu : u64 (next_sequence_ p1 + 1) = next_sequence_ p1 + 1).
    { apply wrap_small. pose proof (po_cursors p1 live Hok1). pose proof (bytes_used p1 live Hok1). pose proof (zlen_nonneg live). width. lia. }
    split; [|split; [done|]].
    + unfold leased in Hok2. rewrite Hpay in Hok2. rewrite Hu. exact Hok2.
    + unfold queue_of at 2. cbn [head_cursor_ next_sequence_ set_cursors]. rewrite Hu.
      change (head_cursor_ p1) with (q_bytes (queue_of p1 live)). change (next_sequence_ p1) with (q_leases (queue_of p1 live)).
      rewrite <- Hz. apply (serve_lease _ _ _ (queue_of p live)); try done.
      * cbn [queue_of q_live]. rewrite Ef, zlen_cons in Hl. pose proof (zlen_nonneg free). lia.
      * destruct (slots_split p1 live Hok1) as (_ & _ & _ & Hdis & _). intros Hx. apply (Hdis slot); [rewrite Ef; by left|done].
      * by rewrite Hz.
Qed.

(** The pool after a lease has been given back. *)
Definition returned (p : MutationSlotPool) (l : Live) (head tail next release_ : Z) : MutationSlotPool :=
  set_slots (storage_ p) (<[Z.to_nat (l_slot l) := empty_slot]> (slots_ p)) (l_slot l :: free_slots_ p)
    (admission_bytes_in_use_ p - l_admission l) (set_cursors head tail next release_ p).

Lemma admitted_perm live live' : live ≡ₚ live' -> admitted live = admitted live'.
Proof. intros H. unfold admitted. induction H; cbn in *; lia. Qed.

Lemma returned_ok p live live' l h t n r : pool_ok p live -> live ≡ₚ l :: live' -> laid p live' r t n h ->
  0 <= t /\ h <= umax 64 /\ 0 <= r /\ n <= umax 64 -> 0 <= l_admission l -> pool_ok (returned p l h t n r) live'.
Proof.
  intros Hok Hp Hlaid Hb Hadm. destruct (slots_split p live Hok) as (Hl & HN & HNl & Hdis & Hin).
  rewrite Hp in HNl. cbn in HNl. apply NoDup_cons in HNl as [Hnot _].
  assert (Hl_in : l_slot l ∈ l_slot <$> live) by (rewrite Hp; by left).
  assert (Hrange : 0 <= l_slot l < slot_capacity_ p) by (apply Hin; by right).
  pose proof (po_slots p live Hok) as [Hsc Hsl].
  constructor; cbn; try apply Hok; try done.
  - unfold zlen in *. by rewrite length_insert.
  - rewrite <- (po_free p live Hok), Hp. cbn. by rewrite Permutation_middle.
  - intros i [->|Hi]%elem_of_cons.
    + exists empty_slot. split; [|done]. apply list_lookup_insert_eq. unfold zlen in *. lia.
    + destruct (po_empty p live Hok i Hi) as (slot & Hs & Ho). exists slot. split; [|done].
      assert (0 <= i) by (apply Hin; by left). rewrite list_lookup_insert_ne; [done|]. intros E.
      assert (i = l_slot l) as -> by lia. by apply (Hdis (l_slot l)).
  - apply (laid_keep p); [done|]. intros l0 s1 c1 Hl0 _ _ [[Hi Hen] Hby Hsz]. constructor; [|done|done].
    split; [done|]. cbn. rewrite list_lookup_insert_ne; [done|]. intros E. apply Hnot.
    assert (l_slot l = l_slot l0) as -> by lia. by apply list_elem_of_fmap_2.
  - pose proof (po_admitted p live Hok) as [-> Hc]. pose proof (admitted_perm _ _ Hp) as E. cbn in E. unfold admitted in *. lia.
Qed.

Lemma live_slot p l1 l l2 : pool_ok p (l1 ++ l :: l2) -> exists c,
  vec_get (slots_ p) (l_slot l) = Ok (mkSlot (release_sequence_ p + zlen l1) c (c + zlen (payload l)) (c mod byte_capacity_ p)
    (zlen (l_key l)) (zlen (l_value l)) (l_admission l) true) /\
  0 <= l_slot l < slot_capacity_ p /\
  laid p l1 (release_sequence_ p) (tail_cursor_ p) (release_sequence_ p + zlen l1) c /\
  laid p l2 (release_sequence_ p + zlen l1 + 1) (c + zlen (payload l)) (next_sequence_ p) (head_cursor_ p) /\
  entry p l (release_sequence_ p + zlen l1) c.
Proof.
  intros Hok. pose proof (po_laid _ _ Hok) as (s1 & c & H1 & [He H2])%laid_app. pose proof (laid_ends _ _ _ _ _ _ H1) as (-> & _ & _).
  exists c. split_and!; try done; [|apply (slots_split p _ Hok); right; rewrite fmap_app; apply elem_of_app; right; by left..].
  destruct (en_slot _ _ _ _ He) as [Hi Hs]. rewrite <- (Z2Nat.id (l_slot l)) by done. by apply vec_get_Some.
Qed.

(** A slot is free or leased. *)
Lemma slot_cases p live i : pool_ok p live -> 0 <= i < slot_capacity_ p ->
  i ∈ free_slots_ p \/ exists l1 l l2, live = l1 ++ l :: l2 /\ l_slot l = i.
Proof.
  intros Hok Hi. apply (slots_split p live Hok) in Hi as [Hi|Hi]; [by left|right].
  apply list_elem_of_fmap in Hi as (l & -> & (l1 & l2 & ->)%list_elem_of_split). by exists l1, l, l2.
Qed.

Lemma give_back_spec p p1 live l : pool_ok p live -> l ∈ live ->
  slot_capacity_ p1 = slot_capacity_ p -> free_slots_ p1 = free_slots_ p ->
  give_back (l_slot l) (u64 (admission_bytes_in_use_ p - l_admission l)) (<[Z.to_nat (l_slot l) := empty_slot]> (slots_ p)) p1 =
  (Ok tt, set_slots (storage_ p1) (<[Z.to_nat (l_slot l) := empty_slot]> (slots_ p)) (l_slot l :: free_slots_ p)
            (admission_bytes_in_use_ p - l_admission l) p1).
Proof.
  intros Hok Hin Ec Ef. destruct (slots_split p live Hok) as (Hl & _). unfold give_back. steps. rewrite Ec, Ef.
  pose proof (byte_bounds p live Hok) as [_ Hb]. destruct (po_admitted p live Hok) as [-> Ha].
  pose proof (laid_entry _ _ _ _ _ _ _ (po_laid p live Hok) Hin) as (s1 & c1 & He & _). pose proof (en_size _ _ _ _ He) as [_ Hsz].
  apply list_elem_of_split in Hin as (l1 & l2 & ->). pose proof (zlen_nonneg l1). pose proof (zlen_nonneg l2). pose proof (zlen_nonneg (payload l)).
  rewrite zlen_app, zlen_cons in Hl. rewrite Z.geb_leb. destruct (Z.leb_spec (slot_capacity_ p) (zlen (free_slots_ p))); [lia|].
  unfold modifyM. rewrite wrap_small; [done|]. pose proof (po_laid p _ Hok) as (s2 & c2 & Hl1 & [_ Hl2])%laid_app.
  apply laid_ends in Hl1 as (_ & ? & ?). apply laid_ends in Hl2 as (_ & ? & ?).
  rewrite admitted_app in *. cbn in Ha. unfold admitted in *. cbn. width. lia.
Qed.

Lemma rollback_spec p live lease : pool_ok p live -> 0 <= lease_slot lease -> exists b p' live',
  rollback lease p = (Ok b, p') /\ pool_ok p' live' /\ same_limits p p' /\ serves_of p live (call_rollback lease) (reply_done b) p' live'.
Proof.
  intros Hok H0. unfold rollback. steps. destruct (slots_split p live Hok) as (Hl & _ & HN & Hdis & Hin).
  assert (Hno : (forall l, last live = Some l -> lease <> mkLease (l_slot l) (l_admission l)) -> exists b p' live',
    (Ok false, p) = (Ok b, p') /\ pool_ok p' live' /\ same_limits p p' /\ serves_of p live (call_rollback lease) (reply_done b) p' live').
  { intros H. exists false, p, live. split_and!; try done. by apply serve_no_rollback. }
  assert (Hlast : forall l, last live = Some l -> l_slot l ∈ l_slot <$> live).
  { intros l H. apply list_elem_of_fmap_2. apply last_Some in H as [l' ->]. apply elem_of_app. right. by left. }
  rewrite Z.geb_leb. destruct (Z.leb_spec (slot_capacity_ p) (lease_slot lease)).
  { apply Hno. intros l Hll ->. cbn in *. assert (0 <= l_slot l < slot_capacity_ p); [|lia]. apply Hin. right. by apply Hlast. }
  destruct (slot_cases p live (lease_slot lease) Hok) as [Hfree|(l1 & l & l2 & -> & Hs)]; [lia|..].
  { destruct (free_slot p live _ Hok Hfree) as (slot & -> & Hocc). steps. rewrite Hocc. cbn. apply Hno.
    intros l Hll ->. apply (Hdis (l_slot l)); [done|by apply Hlast]. }
  destruct (live_slot p l1 l l2 Hok) as (c & Hg & Hr & H1 & H2 & He). rewrite <- Hs, Hg. steps. cbn.
  pose proof (laid_ends _ _ _ _ _ _ H2) as (Hn & Hc & _). pose proof (po_cursors p _ Hok) as Hcur. pose proof (zlen_nonneg l1). pose proof (zlen_nonneg l2).
  pose proof (laid_ends _ _ _ _ _ _ H1) as (_ & Hc1 & _). pose proof (en_size _ _ _ _ He) as [_ Hsz]. pose proof (zlen_nonneg (payload l)).
  rewrite wrap_small by (width; lia). destruct (_ || _) eqn:E.
  - apply Hno. intros l' Hll ->. cbn in Hs. destruct l2 as [|x l2] using rev_ind.
    + rewrite last_snoc in Hll. injection Hll as <-. destruct H2 as [H2 H2']. cbn in E. rewrite zlen_nil in *. lia.
    + rewrite app_comm_cons, app_assoc, last_snoc in Hll. injection Hll as <-. rewrite fmap_app, fmap_cons, fmap_app in HN.
      apply NoDup_app in HN as (_ & _ & HN). apply NoDup_cons in HN as [HN _]. apply HN, elem_of_app. right. rewrite Hs. by left.
  - repeat (apply orb_false_iff in E as [E ?]). b2p. assert (l2 = []) as ->.
    { destruct l2; [done|]. rewrite zlen_cons in Hn. pose proof (zlen_nonneg l2). lia. }
    unfold vec_set. pose proof (po_slots p _ Hok) as [_ Hsl]. destruct (Z.leb_spec 0 (l_slot l)); [|lia].
    destruct (Z.ltb_spec (l_slot l) (zlen (slots_ p))); [|lia]. cbn [andb]. steps.
    erewrite bindM_Ok by (apply (give_back_spec p _ (l1 ++ [l]) l Hok); [apply elem_of_app; right; by left|done|done]).
    rewrite wrap_small by (width; lia). eexists true, _, l1. split_and!; [reflexivity| |done|].
    + apply (returned_ok p (l1 ++ [l])); [done|by rewrite Permutation_app_comm| |lia|lia].
      replace (next_sequence_ p - 1) with (release_sequence_ p + zlen l1) by (rewrite zlen_nil in Hn; lia). done.
    + destruct lease as [ls la]. cbn in *. subst ls la. unfold queue_of. cbn.
      replace c with (head_cursor_ p - zlen (payload l)) by lia. apply serve_rollback.
Qed.

Lemma release_spec p live slot : pool_ok p live -> 0 <= slot -> exists b p' live',
  release slot p = (Ok b, p') /\ pool_ok p' live' /\ same_limits p p' /\ serves_of p live (call_release slot) (reply_done b) p' live'.
Proof.
  intros Hok H0. unfold release. steps. destruct (slots_split p live Hok) as (Hl & _ & HN & Hdis & Hin).
  assert (Hno : (forall l, head live = Some l -> slot <> l_slot l) -> exists b p' live',
    (Ok false, p) = (Ok b, p') /\ pool_ok p' live' /\ same_limits p p' /\ serves_of p live (call_release slot) (reply_done b) p' live').
  { intros H. exists false, p, live. split_and!; try done. by apply serve_no_release. }
  assert (Hhead : forall l, head live = Some l -> l_slot l ∈ l_slot <$> live).
  { intros l H. destruct live; [done|]. injection H as ->. by left. }
  rewrite Z.geb_leb. destruct (Z.leb_spec (slot_capacity_ p) slot).
  { apply Hno. intros l Hll ->. assert (0 <= l_slot l < slot_capacity_ p); [|lia]. apply Hin. right. by apply Hhead. }
  destruct (slot_cases p live slot Hok) as [Hfree|(l1 & l & l2 & -> & <-)]; [lia|..].
  { destruct (free_slot p live _ Hok Hfree) as (sl & -> & Hocc). steps. rewrite Hocc. cbn. apply Hno.
    intros l Hll ->. apply (Hdis (l_slot l)); [done|by apply Hhead]. }
  destruct (live_slot p l1 l l2 Hok) as (c & Hg & Hr & H1 & H2 & He). rewrite Hg. steps. cbn.
  pose proof (laid_ends _ _ _ _ _ _ H2) as (Hn & Hc & Ha2). pose proof (po_cursors p _ Hok) as Hcur. pose proof (zlen_nonneg l1). pose proof (zlen_nonneg l2).
  pose proof (laid_ends _ _ _ _ _ _ H1) as (_ & Hc1 & Ha1). pose proof (en_size _ _ _ _ He) as [_ Hsz]. pose proof (zlen_nonneg (payload l)).
  destruct (_ || _) eqn:E.
  - apply Hno. intros l' Hll. destruct l1 as [|x l1].
    + destruct H1 as [_ H1]. pose proof (po_admitted p _ Hok) as [Ha _]. cbn in Ha, E. unfold admitted in *. rewrite zlen_nil in *. lia.
    + injection Hll as <-. intros E'. cbn in HN. apply NoDup_cons in HN as [HN _]. apply HN. rewrite <- E', fmap_app.
      apply elem_of_app. right. by left.
  - repeat (apply orb_false_iff in E as [E ?]). b2p. assert (l1 = []) as ->.
    { destruct l1; [done|]. rewrite zlen_cons in *. pose proof (zlen_nonneg l1). lia. }
    unfold vec_set. pose proof (po_slots p _ Hok) as [_ Hsl]. destruct (Z.leb_spec 0 (l_slot l)); [|lia].
    destruct (Z.ltb_spec (l_slot l) (zlen (slots_ p))); [|lia]. cbn [andb]. steps.
    erewrite bindM_Ok by (apply (give_back_spec p _ (l :: l2) l Hok); [by left|done|done]). rewrite zlen_nil in *.
    rewrite wrap_small by (width; lia). eexists true, _, l2. split_and!; [reflexivity| |done|].
    + apply (returned_ok p (l :: l2)); [done|done| |lia|lia]. rewrite Z.add_0_r in H2. done.
    + constructor.
Qed.

(** ** Viewing *)

Lemma find_slot l1 l l2 : NoDup (l_slot <$> l1 ++ l :: l2) -> List.find (fun x => l_slot x =? l_slot l) (l1 ++ l :: l2) = Some l.
Proof.
  induction l1 as [|x l1 IH]; cbn; intros HN.
  - by rewrite Z.eqb_refl.
  - apply NoDup_cons in HN as [Hx HN]. destruct (Z.eqb_spec (l_slot x) (l_slot l)) as [E|E]; [|by apply IH].
    exfalso. apply Hx. rewrite E. apply list_elem_of_fmap_2, elem_of_app. right. by left.
Qed.

Lemma view_spec p live slot : pool_ok p live -> 0 <= slot -> view slot p = Ok (viewed live slot).
Proof.
  intros Hok H0. destruct (slots_split p live Hok) as (_ & _ & HN & Hdis & Hin).
  assert (Hnone : (slot ∈ l_slot <$> live -> False) -> viewed live slot = None).
  { intros H. unfold viewed. destruct (List.find _ live) as [l|] eqn:E; [|done]. apply List.find_some in E as [Hl E].
    apply Z.eqb_eq in E. exfalso. apply H. rewrite <- E. by apply list_elem_of_fmap_2, list_elem_of_In. }
  unfold view. rewrite Z.geb_leb. destruct (Z.leb_spec (slot_capacity_ p) slot).
  { rewrite Hnone; [done|]. intros Hx. assert (0 <= slot < slot_capacity_ p) by (apply Hin; by right). lia. }
  destruct (slot_cases p live slot Hok) as [Hfree|(l1 & l & l2 & -> & <-)]; [lia|..].
  { destruct (free_slot p live _ Hok Hfree) as (sl & -> & Hocc). cbn. rewrite Hocc. cbn. rewrite Hnone; [done|]. by apply Hdis. }
  unfold viewed. rewrite find_slot by done. destruct (live_slot p l1 l l2 Hok) as (c & -> & _ & _ & _ & He). cbn.
  destruct He as [_ Hby [Hm _]]. destruct (byte_bounds p _ Hok) as [_ Hcap]. pose proof (po_bytes p _ Hok) as (_ & _ & Hst).
  pose proof (Z.mod_pos_bound c (byte_capacity_ p) ltac:(lia)) as Hmod. unfold payload in *. rewrite zlen_app in *.
  pose proof (zlen_nonneg (l_key l)). pose proof (zlen_nonneg (l_value l)).
  destruct (_ || _) eqn:E; [lia|]. rewrite slice_split in Hby by lia.
  pose proof (zlen_slice (c mod byte_capacity_ p) (zlen (l_key l)) (storage_ p) ltac:(lia) ltac:(lia) ltac:(lia)) as Hk.
  apply app_inj_1 in Hby as [Hkey Hval]; [|unfold zlen in *; lia].
  rewrite !subspan_in by lia. cbn. by rewrite Hkey, Hval.
Qed.

(** ** Histories *)

Definition call_ok (c : call) : Prop :=
  match c with call_acquire _ _ _ => True | call_rollback lease => 0 <= lease_slot lease | call_release slot => 0 <= slot end.

Lemma pool_call_spec p live c : pool_ok p live -> call_ok c -> exists r p' live',
  pool_call c p = (Ok r, p') /\ pool_ok p' live' /\ same_limits p p' /\ serves_of p live c r p' live'.
Proof.
  intros Hok Hc. destruct c as [key value admission|lease|slot]; cbn [pool_call].
  - destruct (try_acquire_spec p live key value admission Hok) as (r & p' & live' & Hr & ?). rewrite (bindM_Ok _ _ _ _ _ Hr). by eexists _, _, _.
  - destruct (rollback_spec p live lease Hok Hc) as (b & p' & live' & Hr & ?). rewrite (bindM_Ok _ _ _ _ _ Hr). by eexists _, _, _.
  - destruct (release_spec p live slot Hok Hc) as (b & p' & live' & Hr & ?). rewrite (bindM_Ok _ _ _ _ _ Hr). by eexists _, _, _.
Qed.

Lemma pool_calls_spec calls p live : pool_ok p live -> Forall call_ok calls -> exists rs p' live',
  pool_calls calls p = (Ok rs, p') /\ pool_ok p' live' /\ same_limits p p' /\
  serves_all (slot_capacity_ p) (byte_capacity_ p) (maximum_payload_bytes_ p) (queue_of p live) calls rs (queue_of p' live').
Proof.
  revert p live. induction calls as [|c calls IH]; intros p live Hok Hc; [by eexists _, _, _; split_and!; [done..|constructor]|].
  apply Forall_cons in Hc as [Hc Hcs]. destruct (pool_call_spec p live c Hok Hc) as (r & p1 & live1 & Hr & Hok1 & (L1 & L2 & L3) & Hs).
  destruct (IH p1 live1 Hok1 Hcs) as (rs & p2 & live2 & Hrs & Hok2 & Hlim & Hall). unfold same_limits in Hlim. rewrite L1, L2, L3 in Hall, Hlim.
  exists (r :: rs), p2, live2. cbn [pool_calls]. rewrite (bindM_Ok _ _ _ _ _ Hr), (bindM_Ok _ _ _ _ _ Hrs).
  split_and!; [done|done|done|by econstructor].
Qed.

Lemma new_slot_pool_ok slots bytes maximum garbage p : 0 <= slots -> 0 <= bytes -> 0 <= maximum ->
  zlen garbage = bytes + maximum -> new_slot_pool slots bytes maximum garbage = Ok p -> pool_ok p [].
Proof.
  intros Hs Hb Hm Hg H. unfold new_slot_pool in H. destruct (_ || _) eqn:E; [done|]. injection H as <-.
  repeat (apply orb_false_iff in E as [E ?]). rewrite ?Z.gtb_ltb in *. b2p. constructor; cbn; try (width; lia); try done.
  - unfold zlen. rewrite length_replicate. lia.
  - by rewrite app_nil_r.
  - intros i Hi%elem_of_slots. exists empty_slot. split; [|done]. apply lookup_replicate_2. lia.
Qed.

(** C9. The pool is a bounded queue of payloads.  Whatever the memory held and
    whatever calls are made, none of them leaves the arena or terminates the program,
    every reply and every change is one of a bounded queue of leases ([serves]), a
    lease is refused only for a stated reason (too large, no slot, no bytes, or 64-bit
    counts that run out before the pool was next asked with nothing out), and at the end the payload of every
    lease that is out is seen as it was copied in, key and value, although payloads
    run past the end of the ring; other slots show nothing.  Slot numbers are
    unsigned. *)
Theorem slot_pool_history slots bytes maximum garbage p calls :
  0 <= slots -> 0 <= bytes -> 0 <= maximum -> zlen garbage = bytes + maximum ->
  new_slot_pool slots bytes maximum garbage = Ok p -> Forall call_ok calls ->
  exists replies p' q, pool_calls calls p = (Ok replies, p') /\
    serves_all slots bytes maximum (mkQueue [] 0 0) calls replies q /\
    (forall slot, 0 <= slot -> view slot p' = Ok (viewed (q_live q) slot)) /\
    slots_in_use p' = zlen (q_live q) /\ payload_bytes_in_use p' <= admission_bytes_in_use_ p' <= bytes.
Proof.
  intros Hs Hb Hm Hg Hn Hc. pose proof (new_slot_pool_ok _ _ _ _ _ Hs Hb Hm Hg Hn) as Hok.
  destruct (pool_calls_spec calls p [] Hok Hc) as (rs & p' & live & Hr & Hok' & (L1' & L2' & _) & Hall).
  assert (Hlim : slot_capacity_ p = slots /\ byte_capacity_ p = bytes /\ maximum_payload_bytes_ p = maximum /\
    queue_of p [] = mkQueue [] 0 0).
  { unfold new_slot_pool in Hn. destruct (_ || _); [done|]. by injection Hn as <-. }
  destruct Hlim as (L1 & L2 & L3 & L4). rewrite L1, L2, L3, L4 in Hall. exists rs, p', (queue_of p' live). split_and!; [done|done|..].
  - intros slot H0. by apply view_spec.
  - unfold slots_in_use. destruct (slots_split p' live Hok') as [Hl _]. cbn [queue_of q_live]; lia.
  - destruct (bytes_used p' live Hok') as (-> & ? & _). pose proof (po_admitted p' live Hok'). lia.
  - pose proof (po_admitted p' live Hok'). lia.
Qed.

(** The third payload starts at byte 6 of a ring of 8 and runs on behind it. *)
Definition sample_calls : list call :=
  [call_acquire [1; 2] [3] 3; call_acquire [4] [5; 6] 3; call_release 1; call_release 0; call_acquire [7; 8] [9; 10] 4;
   call_acquire [] [11] 2; call_rollback (mkLease 2 1)].

Lemma slot_pool_history_witness : exists p replies p', new_slot_pool 3 8 4 (replicate 12 255) = Ok p /\
  pool_calls sample_calls p = (Ok replies, p') /\
  replies = [reply_lease (inl (mkLease 0 3)); reply_lease (inl (mkLease 1 3)); reply_done false; reply_done true;
             reply_lease (inl (mkLease 0 4)); reply_lease (inr byte_exhausted); reply_done false] /\
  view 0 p' = Ok (Some (mkPayloadView [7; 8] [9; 10] 4)) /\ slots_in_use p' = 2 /\
  exists q, serves_all 3 8 4 (mkQueue [] 0 0) sample_calls replies q.
Proof.
  eexists _, _, _. split; [reflexivity|]. split; [vm_compute; reflexivity|]. split; [reflexivity|]. split; [reflexivity|].
  split; [reflexivity|].
  destruct (slot_pool_history 3 8 4 (replicate 12 255) _ sample_calls ltac:(lia) ltac:(lia) ltac:(lia) eq_refl eq_refl)
    as (rs & p' & q & Hr & Hall & _); [repeat constructor; cbn; lia|].
  vm_compute in Hr. injection Hr as <- _. exists q. exact Hall.
Defined.
