(* ===== verification/GenerationPool.v ===== *)
(** * Publication and reclamation of read generations

    Models the pool that holds the read generations of a shard pair and how a
    generation reaches the readers and is destroyed: GenerationSlotPool of
    include/glifistore/store/paired/generation_slot_pool.hpp and
    src/store/paired/generation_slot_pool.cpp, reclaim_quiescent_generations,
    mirror_slot_pool_publication and load_published_generation of
    src/store/paired/lane_publication.cpp and its header, and adopt_read_generation
    and ReadLease of src/store/paired/shard_pair_runtime.cpp.

    The writer publishes and reclaims while readers adopt, in any order; a turn is one
    access to memory that other threads can see.  The atomics of the epoch protocol
    may be read late, as in [Atomic]; the counted leases rely on the two sequentially
    consistent fences of the code, so there a load returns the last value.  The
    statistics of the pool are left out, a generation is its epoch. *)

From S2P Require Import Prelude Atomic.

(** ** The publication token *)

Definition kSlotBits : Z := 16.
Definition kSlotMask : Z := Z.shiftl 1 kSlotBits - 1.
Definition kMaximumEpoch : Z := Z.shiftr (umax 64) kSlotBits.

Definition encode_token (epoch slot : Z) : Z := Z.lor (u64 (Z.shiftl epoch kSlotBits)) (u64 (slot + 1)).
Definition token_empty (raw : Z) : bool := raw =? 0.
Definition token_epoch (raw : Z) : Z := Z.shiftr raw kSlotBits.
Definition token_slot_index (raw : Z) : Z := u64 (Z.land raw kSlotMask - 1).

(** ** The pool *)

Definition kCapacity : nat := 65.

Inductive SlotState := slot_free | slot_building | slot_published | slot_retired.
#[export] Instance SlotState_eq_dec : EqDecision SlotState.
Proof. solve_decision. Defined.

Record GenSlot := mkGenSlot {
  gs_generation : option Z;
  gs_epoch : Z;
  gs_pins : Z;
  gs_state : SlotState
}.
Definition new_gen_slot : GenSlot := mkGenSlot None 0 0 slot_free.

Record GenerationSlotPool := mkGenPool {
  gp_slots : list GenSlot;
  gp_publication : Z;
  gp_writer_slot : nat;
  gp_writer_epoch : Z;
  gp_live_slots : Z;
  gp_reserved_slots : Z;
  gp_accepting : bool;
  gp_reader_quiescent : bool;
  gp_reader_safe_epoch : Z;
  gp_shutdown_complete : bool
}.

(** [create] with an initial generation of the given epoch. *)
Definition create_pool (epoch : Z) : GenerationSlotPool :=
  mkGenPool (mkGenSlot (Some epoch) epoch 0 slot_published :: replicate (kCapacity - 1) new_gen_slot)
    (encode_token epoch 0) 0 epoch 1 0 true false 0 false.

Definition set_gen_slots (slots : list GenSlot) (live reserved : Z) (p : GenerationSlotPool) : GenerationSlotPool :=
  mkGenPool slots (gp_publication p) (gp_writer_slot p) (gp_writer_epoch p) live reserved (gp_accepting p)
    (gp_reader_quiescent p) (gp_reader_safe_epoch p) (gp_shutdown_complete p).

Definition set_state (state : SlotState) (s : GenSlot) : GenSlot := mkGenSlot (gs_generation s) (gs_epoch s) (gs_pins s) state.

(** The first slot that is free. *)
Fixpoint find_free (slots : list GenSlot) (index : nat) : option nat :=
  match slots with
  | [] => None
  | s :: slots => if decide (gs_state s = slot_free) then Some index else find_free slots (S index)
  end.

Definition try_reserve (p : GenerationSlotPool) : option nat * GenerationSlotPool :=
  if negb (gp_accepting p) then (None, p)
  else match find_free (gp_slots p) 0 with
       | Some index => (Some index, set_gen_slots (alter (set_state slot_building) index (gp_slots p)) (gp_live_slots p)
                                      (u64 (gp_reserved_slots p + 1)) p)
       | None => (None, p)
       end.

(** The hook that fails the store closed runs when the reservation had been linearized. *)
Definition cancel_reservation (index : nat) (p : GenerationSlotPool) : GenerationSlotPool :=
  match gp_slots p !! index with
  | Some s => if decide (gs_state s = slot_building)
              then set_gen_slots (<[index := set_state slot_free s]> (gp_slots p)) (gp_live_slots p) (u64 (gp_reserved_slots p - 1)) p
              else p
  | None => p
  end.

Inductive GenerationSlotPublishStatus := gen_published | invalid_generation | epoch_exhausted.

(** [publish_direct] and the end of [publish_incremental]: a generation built in the
    storage of the reserved slot becomes the current one. *)
Definition commit_published (index : nat) (generation : Z) (p : GenerationSlotPool) :
    GenerationSlotPublishStatus * GenerationSlotPool :=
  match gp_slots p !! index with
  | Some s =>
      if negb (bool_decide (gs_state s = slot_building)) then (invalid_generation, p)
      else if generation <=? gp_writer_epoch p then (invalid_generation, cancel_reservation index p)
      else if generation >? kMaximumEpoch then (epoch_exhausted, cancel_reservation index p)
      else
        let filled := mkGenSlot (Some generation) generation (gs_pins s) slot_published in
        let slots := alter (set_state slot_retired) (gp_writer_slot p) (<[index := filled]> (gp_slots p)) in
        (gen_published, mkGenPool slots (encode_token generation (Z.of_nat index)) index generation (u64 (gp_live_slots p + 1))
           (u64 (gp_reserved_slots p - 1)) (gp_accepting p) (gp_reader_quiescent p) (gp_reader_safe_epoch p) (gp_shutdown_complete p))
  | None => (invalid_generation, p)
  end.

Definition add_pins (n : Z) (s : GenSlot) : GenSlot := mkGenSlot (gs_generation s) (gs_epoch s) (u32 (gs_pins s + n)) (gs_state s).

Definition pin (index : nat) (p : GenerationSlotPool) : GenerationSlotPool :=
  set_gen_slots (alter (add_pins 1) index (gp_slots p)) (gp_live_slots p) (gp_reserved_slots p) p.

Definition unpin (index : nat) (p : GenerationSlotPool) : Result GenerationSlotPool :=
  match gp_slots p !! index with
  | Some s => if gs_pins s =? 0 then Stuck uncaught_exception
              else Ok (set_gen_slots (<[index := add_pins (-1) s]> (gp_slots p)) (gp_live_slots p) (gp_reserved_slots p) p)
  | None => Ok p
  end.

Definition decode_published (raw : Z) (p : GenerationSlotPool) : option Z :=
  if token_empty raw then None
  else match gp_slots p !! Z.to_nat (token_slot_index raw) with
       | Some s => if gs_epoch s =? token_epoch raw then gs_generation s else None
       | None => None
       end.

(** The body of the loop of [reclaim]: a retired slot below the safe epoch that is not
    pinned is destroyed and becomes free. *)
Definition reclaimable (safe_epoch : Z) (s : GenSlot) : bool :=
  bool_decide (gs_state s = slot_retired) && (gs_epoch s <? safe_epoch) && (gs_pins s =? 0).
Definition reclaim_slot (safe_epoch : Z) (index : nat) (p : GenerationSlotPool) : GenerationSlotPool :=
  match gp_slots p !! index with
  | Some s => if reclaimable safe_epoch s
              then set_gen_slots (<[index := new_gen_slot]> (gp_slots p)) (u64 (gp_live_slots p - 1)) (gp_reserved_slots p) p
              else p
  | None => p
  end.
Definition reclaim (safe_epoch : Z) (p : GenerationSlotPool) : GenerationSlotPool :=
  if safe_epoch =? 0 then p else foldl (fun p index => reclaim_slot safe_epoch index p) p (seq 0 kCapacity).

Definition with_shutdown (accepting quiescent : bool) (safe publication : Z) (complete : bool) (p : GenerationSlotPool) :
    GenerationSlotPool :=
  mkGenPool (gp_slots p) publication (gp_writer_slot p) (gp_writer_epoch p) (gp_live_slots p) (gp_reserved_slots p)
    accepting quiescent safe complete.

Definition stop_admission (p : GenerationSlotPool) : GenerationSlotPool :=
  with_shutdown false (gp_reader_quiescent p) (gp_reader_safe_epoch p) (gp_publication p) (gp_shutdown_complete p) p.
Definition revoke_publication (p : GenerationSlotPool) : GenerationSlotPool :=
  with_shutdown (gp_accepting p) (gp_reader_quiescent p) (gp_reader_safe_epoch p) 0 (gp_shutdown_complete p) p.
Definition mark_reader_quiescent (p : GenerationSlotPool) : bool * GenerationSlotPool :=
  if gp_accepting p || negb (gp_reserved_slots p =? 0) then (false, p)
  else if gp_reader_quiescent p then (true, p)
  else (true, with_shutdown (gp_accepting p) true (u64 (gp_writer_epoch p + 1)) (gp_publication p) (gp_shutdown_complete p) p).
Definition try_finish_shutdown (p : GenerationSlotPool) : bool * GenerationSlotPool :=
  if gp_accepting p || negb (gp_reserved_slots p =? 0) || negb (gp_reader_quiescent p) then (false, p)
  else let p := reclaim (gp_reader_safe_epoch p) p in
       let complete := gp_live_slots p =? 1 in
       (complete, with_shutdown (gp_accepting p) (gp_reader_quiescent p) (gp_reader_safe_epoch p) (gp_publication p) complete p).

(** The slot-pool branch of [finalize_generation_reader_shutdown]. *)
Definition finalize_shutdown (p : GenerationSlotPool) : Status * GenerationSlotPool :=
  let p := revoke_publication (stop_admission p) in
  match mark_reader_quiescent p with
  | (true, p) => match try_finish_shutdown p with (true, p) => (Ok tt, p) | (false, p) => (Err unavailable, p) end
  | (false, p) => (Err unavailable, p)
  end.

(** ** A lane *)

(** What the writer is about to do: nothing, store the token of a generation it has
    installed, or go on with [reclaim]. *)
Inductive writer_pc := w_idle | w_token (raw : Z) | w_sweep (safe : Z) (index : nat).
(** The reader of [adopt_read_generation]: about to load the token, to decode it, to
    publish its safe epoch. *)
Inductive reader_pc := r_idle | r_token (raw : Z) | r_adopted (generation : Z).
(** A [ReadLease]: about to count itself, to load the token, to decode it; in use. *)
Inductive lease_pc := l_idle | l_counted | l_token (raw : Z) | l_using (generation : Z).

Record Lane := mkLane {
  pool : GenerationSlotPool;
  published_generation : option Z;
  published_token : Atomic;
  reader_safe_epoch : Atomic;
  active_read_leases : Z;
  writer : writer_pc;
  reader : reader_pc;
  (** The place of the last token the reader has seen, the generation of its turn and
      the older ones its asynchronous reads still use. *)
  reader_seen : nat;
  reader_current : option Z;
  reader_borrowed : list Z;
  leases : list lease_pc
}.

Definition start_lane (epoch : Z) (n : nat) : Lane :=
  mkLane (create_pool epoch) (Some epoch) [encode_token epoch 0] [0] 0 w_idle r_idle 0 None [] (replicate n l_idle).

Definition set_writer (p : GenerationSlotPool) (pc : writer_pc) (l : Lane) : Lane :=
  mkLane p (published_generation l) (published_token l) (reader_safe_epoch l) (active_read_leases l) pc (reader l)
    (reader_seen l) (reader_current l) (reader_borrowed l) (leases l).
Definition set_reader (pc : reader_pc) (seen : nat) (l : Lane) : Lane :=
  mkLane (pool l) (published_generation l) (published_token l) (reader_safe_epoch l) (active_read_leases l) (writer l) pc
    seen (reader_current l) (reader_borrowed l) (leases l).
Definition set_lease (j : nat) (pc : lease_pc) (count : Z) (l : Lane) : Lane :=
  mkLane (pool l) (published_generation l) (published_token l) (reader_safe_epoch l) count (writer l) (reader l)
    (reader_seen l) (reader_current l) (reader_borrowed l) (<[j := pc]> (leases l)).

(** A use of a generation: undefined once its slot has been destroyed. *)
Definition dereference (generation : Z) (p : GenerationSlotPool) : Status :=
  if existsb (fun s => bool_decide (gs_generation s = Some generation)) (gp_slots p) then Ok tt else Stuck out_of_bounds.

(** The end of [load_published_generation]. *)
Definition decode_generation (raw : Z) (l : Lane) : option Z :=
  match decode_published raw (pool l) with Some g => Some g | None => published_generation l end.

(** [reclaim_quiescent_generations]: the safe epoch of the configured protocol. *)
Definition quiescent_epoch (reader_epoch_lease : bool) (lag : nat) (l : Lane) : Z :=
  if reader_epoch_lease then (load 0 lag (reader_safe_epoch l)).1
  else if active_read_leases l =? 0 then gp_writer_epoch (pool l) else 0.

Inductive writer_act := act_publish (generation : Z) | act_reclaim (lag : nat) | act_pin | act_unpin (index : nat).

(** A turn of the writer.  A publication reserves a slot, installs the generation in it
    and then stores the token; a merge pins the current slot and drops the pin. *)
Definition writer_turn (reader_epoch_lease : bool) (act : writer_act) (l : Lane) : Result Lane :=
  match writer l with
  | w_token raw =>
      Ok (mkLane (pool l) (Some (gp_writer_epoch (pool l))) (store raw (published_token l)) (reader_safe_epoch l)
            (active_read_leases l) w_idle (reader l) (reader_seen l) (reader_current l) (reader_borrowed l) (leases l))
  | w_sweep safe index =>
      Ok (set_writer (reclaim_slot safe index (pool l)) (if (S index =? kCapacity)%nat then w_idle else w_sweep safe (S index)) l)
  | w_idle =>
      match act with
      | act_publish generation =>
          match try_reserve (pool l) with
          | (None, p) => Ok (set_writer p w_idle l)
          | (Some index, p) =>
              match commit_published index generation p with
              | (gen_published, p) => Ok (set_writer p (w_token (gp_publication p)) l)
              | (_, p) => Ok (set_writer p w_idle l)
              end
          end
      | act_reclaim lag =>
          let safe := quiescent_epoch reader_epoch_lease lag l in
          if safe =? 0 then Ok l else Ok (set_writer (pool l) (w_sweep safe 0) l)
      | act_pin => Ok (set_writer (pin (gp_writer_slot (pool l)) (pool l)) w_idle l)
      | act_unpin index =>
          match gp_slots (pool l) !! index with
          | Some s => if gs_pins s =? 0 then Ok l else let? p := unpin index (pool l) in Ok (set_writer p w_idle l)
          | None => Ok l
          end
      end
  end.

(** The least epoch still used by asynchronous reads. *)
Definition minimum_leased_epoch (kept : list Z) : Z := foldr Z.min (umax 64) kept.

(** A turn of the reader of the epoch protocol; [keep] are the older generations that
    its asynchronous reads go on using. *)
Definition reader_turn (lag : nat) (keep : list Z) (l : Lane) : Result Lane :=
  match reader l with
  | r_idle => let '(raw, seen) := load (reader_seen l) lag (published_token l) in Ok (set_reader (r_token raw) seen l)
  | r_token raw =>
      match decode_generation raw l with
      | Some g => Ok (set_reader (r_adopted g) (reader_seen l) l)
      | None => Ok (set_reader r_idle (reader_seen l) l)
      end
  | r_adopted g =>
      dereference g (pool l) ;;?
      let kept := filter (fun e => e ∈ keep) (option_list (reader_current l) ++ reader_borrowed l) in
      let safe := Z.min g (minimum_leased_epoch kept) in
      let safes := if newest (reader_safe_epoch l) =? safe then reader_safe_epoch l else store safe (reader_safe_epoch l) in
      Ok (mkLane (pool l) (published_generation l) (published_token l) safes (active_read_leases l) (writer l) r_idle
            (reader_seen l) (Some g) kept (leases l))
  end.

(** A turn of a counted lease; one that is in use reads, or is dropped. *)
Definition lease_turn (j : nat) (drop_ : bool) (l : Lane) : Result Lane :=
  match leases l !! j with
  | None => Ok l
  | Some l_idle => Ok (set_lease j l_counted (u64 (active_read_leases l + 1)) l)
  | Some l_counted => Ok (set_lease j (l_token (newest (published_token l))) (active_read_leases l) l)
  | Some (l_token raw) =>
      match decode_generation raw l with
      | Some g => Ok (set_lease j (l_using g) (active_read_leases l) l)
      | None => Ok (set_lease j l_idle (u64 (active_read_leases l - 1)) l)
      end
  | Some (l_using g) =>
      if drop_ then Ok (set_lease j l_idle (u64 (active_read_leases l - 1)) l)
      else dereference g (pool l) ;;? Ok l
  end.

Inductive lane_turn :=
  | turn_writer (act : writer_act)
  | turn_reader (lag : nat) (keep : list Z)
  (** The reader uses one of the generations it holds. *)
  | turn_read (generation : Z)
  | turn_lease (j : nat) (drop_ : bool).

(** The readers of a lane follow the protocol it is configured for. *)
Definition lane_step (reader_epoch_lease : bool) (turn : lane_turn) (l : Lane) : Result Lane :=
  match turn with
  | turn_writer act => writer_turn reader_epoch_lease act l
  | turn_reader lag keep => if reader_epoch_lease then reader_turn lag keep l else Ok l
  | turn_read g =>
      if bool_decide (g ∈ option_list (reader_current l) ++ reader_borrowed l)
      then dereference g (pool l) ;;? Ok l else Ok l
  | turn_lease j drop_ => if reader_epoch_lease then Ok l else lease_turn j drop_ l
  end.

Fixpoint lane_run (reader_epoch_lease : bool) (schedule : list lane_turn) (l : Lane) : Result Lane :=
  match schedule with
  | [] => Ok l
  | turn :: schedule => let? l' := lane_step reader_epoch_lease turn l in lane_run reader_epoch_lease schedule l'
  end.

(** ** The invariant *)

Abbreviation token e s := (encode_token e (Z.of_nat s)).

Lemma token_parts e s : 0 <= e <= kMaximumEpoch -> (s < kCapacity)%nat ->
  token_epoch (token e s) = e /\ token_slot_index (token e s) = Z.of_nat s /\ token_empty (token e s) = false.
Proof.
  intros He Hs. unfold kMaximumEpoch, kCapacity in *. change (Z.shiftr (umax 64) kSlotBits) with 281474976710655 in He.
  assert (E : token e s = Z.of_nat s + 1 + e * 2 ^ 16).
  { unfold encode_token, kSlotBits. rewrite !wrap_small; [|width; lia|rewrite Z.shiftl_mul_pow2 by lia; width; change (2 ^ 16) with 65536; lia].
    rewrite Z.lor_comm. apply lor_shiftl_add; [lia|]. change (2 ^ 16) with 65536. lia. }
  unfold token_epoch, token_slot_index, token_empty. rewrite E. change (2 ^ 16) with 65536. split_and!.
  - unfold kSlotBits. rewrite Z.shiftr_div_pow2 by lia. change (2 ^ 16) with 65536. symmetry. apply (Z.div_unique_pos _ _ _ (Z.of_nat s + 1)); lia.
  - unfold kSlotMask, kSlotBits. change (Z.shiftl 1 16 - 1) with (Z.ones 16). rewrite Z.land_ones by lia. change (2 ^ 16) with 65536.
    rewrite Z.mod_add, Z.mod_small by lia. rewrite wrap_small by (width; lia). lia.
  - apply Z.eqb_neq. lia.
Qed.

(** The generation of epoch [e] is in slot [s] and can be used. *)
Definition holds (p : GenerationSlotPool) (s : nat) (e : Z) : Prop :=
  exists pins st, gp_slots p !! s = Some (mkGenSlot (Some e) e pins st) /\ (st = slot_published \/ st = slot_retired).

(** The current generation of the writer. *)
Definition writer_holds (p : GenerationSlotPool) : Prop :=
  0 < gp_writer_epoch p <= kMaximumEpoch /\ (gp_writer_slot p < kCapacity)%nat /\ length (gp_slots p) = kCapacity /\
  exists pins, gp_slots p !! gp_writer_slot p = Some (mkGenSlot (Some (gp_writer_epoch p)) (gp_writer_epoch p) pins slot_published).

Definition in_use (pc : lease_pc) : bool := match pc with l_idle => false | _ => true end.
Definition held_by_reader (l : Lane) : list Z := option_list (reader_current l) ++ reader_borrowed l.

(** Everything published at epoch [f] or later is still there. *)
Record lane_ok (mode : bool) (f : Z) (l : Lane) : Prop := {
  lk_pool : writer_holds (pool l);
  lk_tokens : published_token l <> [] /\ forall raw, raw ∈ published_token l -> exists e s, raw = token e s /\
    0 < e <= gp_writer_epoch (pool l) /\ (s < kCapacity)%nat /\ (f <= e -> holds (pool l) s e);
  lk_sorted : forall i j a b, (i < j)%nat -> published_token l !! i = Some a -> published_token l !! j = Some b -> token_epoch a < token_epoch b;
  lk_writer : match writer l with
    | w_idle => newest (published_token l) = token (gp_writer_epoch (pool l)) (gp_writer_slot (pool l))
    | w_sweep safe _ => newest (published_token l) = token (gp_writer_epoch (pool l)) (gp_writer_slot (pool l)) /\ safe <= f
    | w_token raw => raw = token (gp_writer_epoch (pool l)) (gp_writer_slot (pool l)) /\
        token_epoch (newest (published_token l)) < gp_writer_epoch (pool l)
    end;
  lk_frontier : f <= token_epoch (newest (published_token l));
  lk_reader : mode = true ->
    f <= newest (reader_safe_epoch l) /\ (forall v, v ∈ reader_safe_epoch l -> v <= newest (reader_safe_epoch l)) /\
    reader_safe_epoch l <> [] /\
    (exists raw, published_token l !! reader_seen l = Some raw /\ newest (reader_safe_epoch l) <= token_epoch raw /\
       match reader l with r_idle => True | r_token raw' => raw' = raw | r_adopted g => g = token_epoch raw end) /\
    forall e, e ∈ held_by_reader l -> newest (reader_safe_epoch l) <= e /\ exists raw, raw ∈ published_token l /\ token_epoch raw = e;
  lk_leases : mode = false -> held_by_reader l = [] /\
    active_read_leases l = Z.of_nat (length (filter (fun pc => in_use pc = true) (leases l))) /\ Z.of_nat (length (leases l)) < 2 ^ 64 /\
    forall j pc, leases l !! j = Some pc -> match pc with
      | l_idle | l_counted => True
      | l_token raw => raw ∈ published_token l /\ f <= token_epoch raw
      | l_using g => f <= g /\ exists raw, raw ∈ published_token l /\ token_epoch raw = g
      end
}.

(** ** What a change of the pool keeps *)

(** A change that keeps the current generation and those of epoch [f] or later. *)
Record keeps (f : Z) (p p' : GenerationSlotPool) : Prop := {
  kp_writer : writer_holds p';
  kp_same : gp_writer_epoch p' = gp_writer_epoch p /\ gp_writer_slot p' = gp_writer_slot p;
  kp_holds : forall s e, f <= e -> holds p s e -> holds p' s e
}.

Lemma keeps_lane mode f p pc l : lane_ok mode f l -> keeps f (pool l) p ->
  match pc with
  | w_idle => newest (published_token l) = token (gp_writer_epoch (pool l)) (gp_writer_slot (pool l))
  | w_sweep safe _ => newest (published_token l) = token (gp_writer_epoch (pool l)) (gp_writer_slot (pool l)) /\ safe <= f
  | w_token raw => False
  end -> lane_ok mode f (set_writer p pc l).
Proof.
  intros Hl [Hw [He Hs] Hk] Hpc. destruct Hl. constructor; cbn; try done.
  - split; [apply lk_tokens0|]. intros raw Hraw. apply lk_tokens0 in Hraw as (e & s & -> & ? & ? & ?).
    exists e, s. rewrite He. split_and!; try done; try lia. auto.
  - rewrite He, Hs. by destruct pc.
Qed.

(** Slots that are replaced were not in use. *)
Lemma keeps_slots f p slots live reserved : writer_holds p -> length slots = kCapacity ->
  (forall s x, gp_slots p !! s = Some x -> gs_state x = slot_published \/ gs_state x = slot_retired /\ f <= gs_epoch x ->
     exists pins, slots !! s = Some (mkGenSlot (gs_generation x) (gs_epoch x) pins (gs_state x))) ->
  keeps f p (set_gen_slots slots live reserved p).
Proof.
  intros (He & Hs & Hl & pins & Hw) Hlen Hk. constructor; [|done|].
  - split_and!; try done; try apply He. destruct (Hk _ _ Hw) as [pins' Hx]; [by left|]. by exists pins'.
  - intros s e Hf (pins' & st & Hx & Hst). destruct (Hk _ _ Hx) as [pins'' Hx']; [cbn; destruct Hst; auto|]. by exists pins'', st.
Qed.

Lemma keeps_refl f p : writer_holds p -> keeps f p p.
Proof. by constructor. Qed.

Lemma reclaim_slot_keeps f safe index p : writer_holds p -> safe <= f -> keeps f p (reclaim_slot safe index p).
Proof.
  intros Hw Hs. unfold reclaim_slot. destruct (gp_slots p !! index) as [x|] eqn:Hx; [|by apply keeps_refl].
  destruct (reclaimable safe x) eqn:Er; [|by apply keeps_refl]. unfold reclaimable in Er. b2p.
  apply keeps_slots; [done|rewrite length_insert; apply Hw|]. intros s y Hy Hst. exists (gs_pins y).
  rewrite list_lookup_insert_ne; [by destruct y|]. intros ->. rewrite Hx in Hy. injection Hy as <-. destruct Hst as [Hst|[_ Hst]]; [congruence|lia].
Qed.

Lemma pins_keep f p index n : writer_holds p ->
  keeps f p (set_gen_slots (alter (add_pins n) index (gp_slots p)) (gp_live_slots p) (gp_reserved_slots p) p).
Proof.
  intros Hw. apply keeps_slots; [done|rewrite length_alter; apply Hw|]. intros s y Hy _. destruct (decide (s = index)) as [->|Hne].
  - exists (u32 (gs_pins y + n)). by rewrite list_lookup_alter_eq, Hy.
  - rewrite list_lookup_alter_ne, Hy by done. exists (gs_pins y). by destruct y.
Qed.

Lemma find_free_spec slots n index : find_free slots n = Some index ->
  exists s, (n <= index)%nat /\ slots !! (index - n)%nat = Some s /\ gs_state s = slot_free.
Proof.
  revert n. induction slots as [|s slots IH]; intros n; cbn; [done|]. destruct (decide (gs_state s = slot_free)) as [E|E].
  - intros [= <-]. exists s. rewrite Nat.sub_diag. split_and!; [lia|done|done].
  - intros (x & Hn & Hx & Hst)%IH. exists x. split_and!; [lia| |done]. by replace (index - n)%nat with (S (index - S n)) by lia.
Qed.

Lemma try_reserve_spec p : writer_holds p -> match try_reserve p with
  | (None, p') => p' = p
  | (Some index, p') => exists x, gp_slots p !! index = Some x /\ gs_state x = slot_free /\ index <> gp_writer_slot p /\
      p' = set_gen_slots (<[index := set_state slot_building x]> (gp_slots p)) (gp_live_slots p) (u64 (gp_reserved_slots p + 1)) p
  end.
Proof.
  intros (_ & _ & _ & pins & Hw). unfold try_reserve. destruct (gp_accepting p); cbn; [|done].
  destruct (find_free (gp_slots p) 0) as [index|] eqn:Hf; [|done]. apply find_free_spec in Hf as (x & _ & Hx & Hst).
  rewrite Nat.sub_0_r in Hx. exists x. split_and!; [done|done|intros ->; rewrite Hw in Hx; by injection Hx as <-|].
  f_equal. apply list_eq. intros i. destruct (decide (i = index)) as [->|Hne].
  - rewrite list_lookup_alter_eq, Hx, list_lookup_insert_eq; [done|by eapply lookup_lt_Some].
  - by rewrite list_lookup_alter_ne, list_lookup_insert_ne.
Qed.

(** A publication that is refused gives its slot back. *)
Lemma publish_refused f p index x : writer_holds p -> gp_slots p !! index = Some x -> gs_state x = slot_free -> forall live reserved live' reserved',
  keeps f p (set_gen_slots (<[index := set_state slot_free (set_state slot_building x)]> (<[index := set_state slot_building x]> (gp_slots p))) live' reserved'
    (set_gen_slots (<[index := set_state slot_building x]> (gp_slots p)) live reserved p)).
Proof.
  intros Hw Hx Hst live reserved live' reserved'. rewrite list_insert_insert_eq.
  apply (keeps_slots f p _ live' reserved'); [done|rewrite length_insert; apply Hw|].
  intros s y Hy Hs. exists (gs_pins y). rewrite list_lookup_insert_ne; [by destruct y|]. intros ->. rewrite Hx in Hy. injection Hy as <-.
  rewrite Hst in Hs. destruct Hs as [Hs|[Hs _]]; done.
Qed.

(** The pool after a publication. *)
Lemma commit_spec f p index x generation : writer_holds p -> gp_slots p !! index = Some x -> gs_state x = slot_free ->
  index <> gp_writer_slot p ->
  let p1 := set_gen_slots (<[index := set_state slot_building x]> (gp_slots p)) (gp_live_slots p) (u64 (gp_reserved_slots p + 1)) p in
  match commit_published index generation p1 with
  | (gen_published, p') => writer_holds p' /\ gp_writer_epoch p' = generation /\ gp_writer_slot p' = index /\
      gp_publication p' = token generation index /\ gp_writer_epoch p < generation /\ (forall s e, holds p s e -> holds p' s e)
  | (_, p') => keeps f p p'
  end.
Proof.
  intros Hw Hx Hst Hne p1. pose proof (lookup_lt_Some _ _ _ Hx) as Hlt. destruct Hw as (He & Hs & Hl & pins & Hws).
  assert (H1 : gp_slots p1 !! index = Some (set_state slot_building x)) by by apply list_lookup_insert_eq.
  unfold commit_published. rewrite H1. cbn -[cancel_reservation p1]. rewrite bool_decide_true by done. cbn -[cancel_reservation p1].
  assert (Hc : keeps f p (cancel_reservation index p1)).
  { unfold cancel_reservation. rewrite H1. cbn -[p1]. apply publish_refused; try done. by split_and!; [lia..|exists pins]. }
  destruct (Z.leb_spec generation (gp_writer_epoch p1)) as [Hle|Hgt]; [done|].
  destruct (Z.gtb_spec generation kMaximumEpoch) as [Hmax|Hmax]; [done|]. cbn in Hgt.
  set (filled := mkGenSlot _ _ _ _). cbn -[filled]. rewrite list_insert_insert_eq. split_and!; try done; try lia.
  - unfold writer_holds. cbn -[filled kMaximumEpoch kCapacity]. rewrite length_alter, length_insert. split_and!; try lia.
    exists (gs_pins x). rewrite list_lookup_alter_ne by done. by apply list_lookup_insert_eq.
  - intros s e (pins' & st & Hy & Hst'). unfold holds. cbn -[filled]. destruct (decide (s = gp_writer_slot p)) as [->|Hs'].
    + rewrite list_lookup_alter_eq, list_lookup_insert_ne, Hy by done. exists pins', slot_retired. cbn. auto.
    + exists pins', st. split; [|done]. rewrite list_lookup_alter_ne, list_lookup_insert_ne; try done.
      intros <-. rewrite Hx in Hy. injection Hy as ->. cbn in Hst. destruct Hst' as [Hst'|Hst']; congruence.
Qed.

Lemma newest_in (a : Atomic) : a <> [] -> newest a ∈ a.
Proof.
  intros H. destruct a as [|x a] using rev_ind; [done|]. change (a ++ [x]) with (store x a) at 1. rewrite newest_store.
  apply elem_of_app. right. by apply list_elem_of_singleton.
Qed.

Lemma writer_token_epoch p : writer_holds p -> token_epoch (token (gp_writer_epoch p) (gp_writer_slot p)) = gp_writer_epoch p.
Proof. intros (? & ? & _). apply token_parts; lia. Qed.

Lemma publish_ok mode f generation l : lane_ok mode f l -> writer l = w_idle ->
  exists l', writer_turn mode (act_publish generation) l = Ok l' /\ lane_ok mode f l'.
Proof.
  intros Hl Hi. unfold writer_turn. rewrite Hi. pose proof (try_reserve_spec (pool l) (lk_pool _ _ _ Hl)) as Hr.
  pose proof (lk_writer _ _ _ Hl) as Hn. rewrite Hi in Hn.
  destruct (try_reserve (pool l)) as [[index|] p1].
  - destruct Hr as (x & Hx & Hst & Hne & ->).
    pose proof (commit_spec f (pool l) index x generation (lk_pool _ _ _ Hl) Hx Hst Hne) as Hc. cbn zeta in Hc.
    destruct (commit_published index generation _) as [[] p'].
    + destruct Hc as (Hw & He & Hs & Hp & Hlt & Hk). eexists. split; [done|]. destruct Hl. constructor; cbn; try done.
      * split; [apply lk_tokens0|]. intros raw Hraw. apply lk_tokens0 in Hraw as (e & s & -> & ? & ? & ?).
        exists e, s. rewrite He. split_and!; try done; try lia. auto.
      * rewrite He, Hs, Hp. split; [done|]. rewrite Hn, writer_token_epoch; done.
    + eexists. split; [done|]. by apply keeps_lane.
    + eexists. split; [done|]. by apply keeps_lane.
  - subst p1. eexists. split; [done|]. apply keeps_lane; [done|apply keeps_refl, Hl|done].
Qed.

(** The token of the installed generation becomes visible. *)
Lemma token_stored mode f raw l act : lane_ok mode f l -> writer l = w_token raw ->
  exists l', writer_turn mode act l = Ok l' /\ lane_ok mode f l'.
Proof.
  intros Hl Hi. unfold writer_turn. rewrite Hi. eexists. split; [done|]. destruct Hl. rewrite Hi in lk_writer0. destruct lk_writer0 as [-> Hlt].
  pose proof (writer_token_epoch _ lk_pool0) as Et. destruct lk_tokens0 as [Hne Htok].
  assert (Hin : forall raw, raw ∈ published_token l -> raw ∈ store (token (gp_writer_epoch (pool l)) (gp_writer_slot (pool l))) (published_token l)).
  { intros raw H. apply elem_of_app. by left. }
  constructor; cbn; try done.
  - split; [by destruct (published_token l)|]. intros raw. unfold store. rewrite elem_of_app, list_elem_of_singleton. intros [H| ->]; [by apply Htok|].
    destruct lk_pool0 as (? & ? & ? & pins & ?). exists (gp_writer_epoch (pool l)), (gp_writer_slot (pool l)). split_and!; [done|lia|lia|done|].
    intros _. exists pins, slot_published. auto.
  - intros i j a b Hij. unfold store. intros [Ha|[Hi' Ha]]%lookup_app_Some [Hb|[Hj Hb]]%lookup_app_Some.
    + by eapply lk_sorted0.
    + apply list_lookup_singleton_Some in Hb as [_ <-]. rewrite Et. pose proof (lookup_lt_Some _ _ _ Ha).
      destruct (decide (i = length (published_token l) - 1)%nat) as [->|Hi'].
      * assert (newest (published_token l) = a) as <-; [|done]. unfold newest. by apply nth_lookup_Some.
      * destruct (lookup_lt_is_Some_2 (published_token l) (length (published_token l) - 1)) as [n Hn]; [lia|].
        assert (newest (published_token l) = n) as En by (unfold newest; by apply nth_lookup_Some). rewrite En in Hlt.
        enough (token_epoch a < token_epoch n) by lia. eapply lk_sorted0; [|done..]. lia.
    + apply lookup_lt_Some in Hb. lia.
    + apply lookup_lt_Some in Ha, Hb. cbn in Ha, Hb. lia.
  - by rewrite newest_store.
  - rewrite newest_store, Et. lia.
  - intros Hm. destruct (lk_reader0 Hm) as (H1 & H2 & H3 & (r & Hr & H4) & H5). split_and!; [done..|exists r; split; [by apply lookup_app_l_Some|done]|].
    intros e He. destruct (H5 e He) as (? & r' & ? & ?). split; [done|]. exists r'. auto.
  - intros Hm. destruct (lk_leases0 Hm) as (H1 & H2 & H3 & H4). split_and!; [done..|]. intros j pc Hj. specialize (H4 j pc Hj).
    destruct pc; try done; [destruct H4; auto|]. destruct H4 as (? & r & ? & ?). split; [done|]. exists r. auto.
Qed.

Lemma sweep_ok mode f safe index l act : lane_ok mode f l -> writer l = w_sweep safe index ->
  exists l', writer_turn mode act l = Ok l' /\ lane_ok mode f l'.
Proof.
  intros Hl Hi. unfold writer_turn. rewrite Hi. eexists. split; [done|]. pose proof (lk_writer _ _ _ Hl) as Hn. rewrite Hi in Hn.
  destruct Hn as [Hn Hs]. apply keeps_lane; [done|by apply reclaim_slot_keeps; [apply Hl|]|]. by destruct (_ =? _)%nat.
Qed.

(** Raising the frontier to an epoch that nobody reads below. *)
Lemma raise_frontier mode f safe l : lane_ok mode f l -> safe <= token_epoch (newest (published_token l)) ->
  (mode = true -> safe <= newest (reader_safe_epoch l)) -> (mode = false -> active_read_leases l = 0) ->
  lane_ok mode (Z.max f safe) l.
Proof.
  intros Hl Hn Hr Hz. destruct Hl. constructor; try done.
  - split; [apply lk_tokens0|]. intros raw Hraw. apply lk_tokens0 in Hraw as (e & s & -> & ? & ? & H). exists e, s. split_and!; [done|lia|lia|done|].
    intros Hf. apply H. lia.
  - destruct (writer l); try done. destruct lk_writer0. split; [done|lia].
  - lia.
  - intros Hm. destruct (lk_reader0 Hm) as (H1 & H2 & H3 & H4 & H5). specialize (Hr Hm). split_and!; [lia|done..].
  - intros Hm. destruct (lk_leases0 Hm) as (H1 & H2 & H3 & H4). split_and!; [done..|]. intros j pc Hj.
    rewrite (Hz Hm) in H2. assert (Hnil : filter (fun pc => in_use pc = true) (leases l) = []) by (apply length_zero_iff_nil; lia).
    destruct (in_use pc) eqn:E; [|by destruct pc]. apply list_elem_of_lookup_2 in Hj.
    assert (Hin : pc ∈ filter (fun pc => in_use pc = true) (leases l)) by by apply list_elem_of_filter.
    rewrite Hnil in Hin. by apply not_elem_of_nil in Hin.
Qed.

Lemma lookup_newest (a : Atomic) i v : a !! i = Some v -> (i <= length a - 1)%nat /\ a !! (length a - 1)%nat = Some (newest a).
Proof.
  intros H. apply lookup_lt_Some in H. split; [lia|]. destruct (lookup_lt_is_Some_2 a (length a - 1)) as [n Hn]; [lia|].
  rewrite Hn. f_equal. symmetry. unfold newest. by apply nth_lookup_Some.
Qed.

(** Tokens grow towards the newest one. *)
Lemma token_le_newest mode f l i raw : lane_ok mode f l -> published_token l !! i = Some raw ->
  token_epoch raw <= token_epoch (newest (published_token l)).
Proof.
  intros Hl Hi. destruct (lookup_newest _ _ _ Hi) as [Hle Hn]. destruct (decide (i = length (published_token l) - 1)%nat) as [->|Hne].
  - rewrite Hi in Hn. injection Hn as <-. lia.
  - apply Z.lt_le_incl. eapply (lk_sorted _ _ _ Hl i); [|done..]. lia.
Qed.

Lemma reclaim_ok mode f lag l : lane_ok mode f l -> writer l = w_idle ->
  exists l' f', writer_turn mode (act_reclaim lag) l = Ok l' /\ lane_ok mode f' l'.
Proof.
  intros Hl Hi. unfold writer_turn. rewrite Hi. set (safe := quiescent_epoch mode lag l).
  destruct (Z.eqb_spec safe 0) as [E|E]; [by exists l, f|]. eexists _, (Z.max f safe). split; [done|].
  assert (Hl' : lane_ok mode (Z.max f safe) l).
  { pose proof (lk_writer _ _ _ Hl) as Hn. rewrite Hi in Hn. apply raise_frontier; [done|..]; unfold safe, quiescent_epoch in *; destruct mode.
    - destruct (lk_reader _ _ _ Hl eq_refl) as (_ & Hmax & Hne & (raw & Hraw & Hle & _) & _).
      pose proof (load_index 0 lag (reader_safe_epoch l)) as Hi'. destruct (load 0 lag (reader_safe_epoch l)) as [v i]. cbn.
      destruct Hi' as [Hv _]; [destruct (reader_safe_epoch l); [done|cbn; lia]|].
      pose proof (Hmax v (list_elem_of_lookup_2 _ _ _ Hv)). pose proof (token_le_newest _ _ _ _ _ Hl Hraw). lia.
    - destruct (_ =? 0); [|done]. by rewrite Hn, writer_token_epoch by apply Hl.
    - intros _. destruct (lk_reader _ _ _ Hl eq_refl) as (_ & Hmax & Hne & _).
      pose proof (load_index 0 lag (reader_safe_epoch l)) as Hi'. destruct (load 0 lag (reader_safe_epoch l)) as [v i]. cbn.
      destruct Hi' as [Hv _]; [destruct (reader_safe_epoch l); [done|cbn; lia]|]. apply Hmax. by eapply list_elem_of_lookup_2.
    - done.
    - done.
    - intros _. destruct (Z.eqb_spec (active_read_leases l) 0); [done|]. done. }
  apply keeps_lane; [done|apply keeps_refl, Hl|]. pose proof (lk_writer _ _ _ Hl) as Hn. rewrite Hi in Hn. split; [done|lia].
Qed.

Lemma writer_turn_ok mode f act l : lane_ok mode f l -> exists l' f', writer_turn mode act l = Ok l' /\ lane_ok mode f' l'.
Proof.
  intros Hl. destruct (writer l) as [|raw|safe index] eqn:Hi.
  - destruct act as [generation|lag| |index].
    + destruct (publish_ok mode f generation l Hl Hi) as (l' & ? & ?). eauto.
    + by apply (reclaim_ok mode f).
    + unfold writer_turn. rewrite Hi. pose proof (lk_writer _ _ _ Hl) as Hn. rewrite Hi in Hn.
      eexists _, f. split; [done|]. apply keeps_lane; [done|apply pins_keep, Hl|done].
    + unfold writer_turn. rewrite Hi. pose proof (lk_writer _ _ _ Hl) as Hn. rewrite Hi in Hn.
      destruct (gp_slots (pool l) !! index) as [x|] eqn:Hx; [|eauto]. destruct (gs_pins x =? 0) eqn:E; [eauto|].
      unfold unpin. rewrite Hx, E. cbn. eexists _, f. split; [done|]. apply keeps_lane; [done| |done].
      replace (<[index := add_pins (-1) x]> (gp_slots (pool l))) with (alter (add_pins (-1)) index (gp_slots (pool l))); [apply pins_keep, Hl|].
      apply list_eq. intros i. destruct (decide (i = index)) as [->|Hne].
      * rewrite list_lookup_alter_eq, Hx, list_lookup_insert_eq; [done|by eapply lookup_lt_Some].
      * by rewrite list_lookup_alter_ne, list_lookup_insert_ne.
  - destruct (token_stored mode f raw l act Hl Hi) as (l' & ? & ?). eauto.
  - destruct (sweep_ok mode f safe index l act Hl Hi) as (l' & ? & ?). eauto.
Qed.

(** ** Readers *)

Lemma decode_ok mode f l raw : lane_ok mode f l -> raw ∈ published_token l -> f <= token_epoch raw ->
  decode_generation raw l = Some (token_epoch raw) /\ dereference (token_epoch raw) (pool l) = Ok tt.
Proof.
  intros Hl Hraw Hf. pose proof (lk_pool _ _ _ Hl) as (Hwe & _). apply (lk_tokens _ _ _ Hl) in Hraw as (e & s & -> & He & Hs & Hh).
  destruct (token_parts e s) as (E1 & E2 & E3); [lia|done|]. rewrite E1 in *. destruct (Hh Hf) as (pins & st & Hx & _). split.
  - unfold decode_generation, decode_published. rewrite E3, E2, Nat2Z.id, Hx. cbn. by rewrite E1, Z.eqb_refl.
  - unfold dereference. rewrite (proj2 (existsb_exists _ _)); [done|]. eexists. split; [apply list_elem_of_In; by eapply list_elem_of_lookup_2|].
    by apply bool_decide_true.
Qed.

Lemma minimum_leased_spec kept : (forall e, e ∈ kept -> minimum_leased_epoch kept <= e) /\ minimum_leased_epoch kept <= umax 64 /\
  forall b, b <= umax 64 -> (forall e, e ∈ kept -> b <= e) -> b <= minimum_leased_epoch kept.
Proof.
  induction kept as [|x kept (IH1 & IH2 & IH3)]; cbn.
  - split_and!; [by intros e H%not_elem_of_nil|done|done].
  - split_and!; [|unfold minimum_leased_epoch in IH2; lia|].
    + intros e [->|H]%elem_of_cons; [lia|]. specialize (IH1 e H). unfold minimum_leased_epoch in *. lia.
    + intros b Hb H. pose proof (H x ltac:(by left)). assert (b <= minimum_leased_epoch kept) by (apply IH3; [done|]; intros e He; apply H; by right).
      unfold minimum_leased_epoch in *. lia.
Qed.

Lemma reader_turn_ok f lag keep l : lane_ok true f l -> exists l', reader_turn lag keep l = Ok l' /\ lane_ok true f l'.
Proof.
  intros Hl. destruct (lk_reader _ _ _ Hl eq_refl) as (Hf & Hmax & Hne & (raw & Hraw & Hle & Hpc) & Hheld). unfold reader_turn.
  destruct (reader l) as [|raw'|g] eqn:Hr.
  - pose proof (load_index (reader_seen l) lag (published_token l) (lookup_lt_Some _ _ _ Hraw)) as Hi.
    destruct (load _ _ _) as [v i]. destruct Hi as [Hv Hi]. eexists. split; [done|]. assert (token_epoch raw <= token_epoch v).
    { destruct (decide (i = reader_seen l)) as [->|Hn]; [rewrite Hraw in Hv; injection Hv as <-; lia|].
      apply Z.lt_le_incl. eapply (lk_sorted _ _ _ Hl (reader_seen l) i); [lia|done..]. }
    destruct Hl. constructor; try done. intros _. split_and!; [done..| |done]. exists v. split_and!; [done|cbn; lia|done].
  - subst raw'. destruct (decode_ok true f l raw Hl) as [-> _]; [by eapply list_elem_of_lookup_2|lia|]. eexists. split; [done|].
    destruct Hl. constructor; try done. intros _. split_and!; [done..| |done]. by exists raw.
  - subst g. destruct (decode_ok true f l raw Hl) as [_ ->]; [by eapply list_elem_of_lookup_2|lia|]. cbn [bindR].
    set (kept := filter _ _). set (safe := Z.min _ _). set (safes := if newest (reader_safe_epoch l) =? safe then reader_safe_epoch l else store safe (reader_safe_epoch l)). eexists. split; [done|].
    destruct (minimum_leased_spec kept) as (Hk1 & Hk2 & Hk3).
    assert (Hin : forall e, e ∈ kept -> e ∈ held_by_reader l) by (intros e [_ He]%list_elem_of_filter; done).
    assert (Hsafe : newest (reader_safe_epoch l) <= safe).
    { unfold safe. apply Z.min_glb; [done|]. apply Hk3; [|intros e He; by apply Hheld, Hin].
      destruct (lk_tokens _ _ _ Hl) as [_ Ht]. destruct (Ht raw) as (e & s & -> & ? & ? & _); [by eapply list_elem_of_lookup_2|].
      destruct (lk_pool _ _ _ Hl) as (Hwe & _). destruct (token_parts e s) as (E1 & _); [lia|done|]. rewrite E1 in Hle.
      unfold kMaximumEpoch, kSlotBits in Hwe. change (Z.shiftr (umax 64) 16) with 281474976710655 in Hwe. width. lia. }
    assert (Hnew : newest safes = safe /\ safes <> [] /\ forall v, v ∈ safes -> v <= safe).
    { unfold safes. destruct (Z.eqb_spec (newest (reader_safe_epoch l)) safe) as [Es|Hd];
        [split_and!; [done|done|intros v Hv; apply Hmax in Hv; lia]|]. rewrite newest_store. split_and!; [done|by destruct (reader_safe_epoch l)|].
      intros v. unfold store. rewrite elem_of_app, list_elem_of_singleton. intros [H| ->]; [apply Hmax in H|]; lia. }
    destruct Hnew as (Hn & Hn1 & Hn2). destruct Hl. constructor; try done. intros _. cbn. rewrite Hn. split_and!; [lia|done|done| |].
    + exists raw. split_and!; [done|unfold safe; lia|done].
    + unfold held_by_reader. cbn. intros e [->|He]%elem_of_cons.
      * split; [unfold safe; lia|]. exists raw. split; [by eapply list_elem_of_lookup_2|done].
      * split; [specialize (Hk1 e He); unfold safe; lia|]. by apply Hheld, Hin.
Qed.

Lemma in_use_insert {A} (f : A -> bool) (ls : list A) j x y : ls !! j = Some x ->
  Z.of_nat (length (filter (fun x => f x = true) (<[j := y]> ls))) =
  Z.of_nat (length (filter (fun x => f x = true) ls)) - Z.b2z (f x) + Z.b2z (f y).
Proof.
  revert j. induction ls as [|z ls IH]; intros [|j]; [done..| |].
  - intros [= ->]. change (<[0%nat := y]> (x :: ls)) with (y :: ls). rewrite !filter_cons.
    repeat case_decide; destruct (f x), (f y); try congruence; cbn; lia.
  - intros H. change (<[S j := y]> (z :: ls)) with (z :: <[j := y]> ls). rewrite !filter_cons. specialize (IH j H).
    case_decide; cbn; lia.
Qed.

Lemma count_bound {A} (f : A -> bool) (ls : list A) j x : ls !! j = Some x -> f x = true ->
  (0 < length (filter (fun x => f x = true) ls) <= length ls)%nat.
Proof.
  intros Hj Hu. split; [|apply length_filter]. destruct (filter _ ls) eqn:E; [|cbn; lia]. exfalso.
  assert (Hin : x ∈ filter (fun x => f x = true) ls) by (apply list_elem_of_filter; split; [done|by eapply list_elem_of_lookup_2]).
  rewrite E in Hin. by apply not_elem_of_nil in Hin.
Qed.

(** A lease moves on while the token it reads stays as good as it was. *)
Lemma set_lease_ok f j pc pc' count l : lane_ok false f l -> leases l !! j = Some pc ->
  count = active_read_leases l - Z.b2z (in_use pc) + Z.b2z (in_use pc') ->
  match pc' with
  | l_idle | l_counted => True
  | l_token raw => raw ∈ published_token l /\ f <= token_epoch raw
  | l_using g => f <= g /\ exists raw, raw ∈ published_token l /\ token_epoch raw = g
  end -> lane_ok false f (set_lease j pc' count l).
Proof.
  intros Hl Hj Hc Hpc. destruct Hl. constructor; try done. intros _. destruct (lk_leases0 eq_refl) as (H1 & H2 & H3 & H4). cbn.
  rewrite length_insert, (in_use_insert in_use _ _ _ _ Hj). split_and!; [done|lia|done|]. intros i x Hi.
  apply list_lookup_insert_Some in Hi as [(-> & <- & _)|[Hne Hi]]; [done|by apply (H4 i)].
Qed.

Lemma lease_turn_ok f j drop_ l : lane_ok false f l -> exists l', lease_turn j drop_ l = Ok l' /\ lane_ok false f l'.
Proof.
  intros Hl. destruct (lk_leases _ _ _ Hl eq_refl) as (H1 & H2 & H3 & H4). unfold lease_turn.
  destruct (leases l !! j) as [pc|] eqn:Hj; [|eauto]. pose proof (length_filter (fun pc => in_use pc = true) (leases l)) as Hle.
  assert (Hdown : in_use pc = true -> u64 (active_read_leases l - 1) = active_read_leases l - 1).
  { intros Hu. pose proof (count_bound in_use _ _ _ Hj Hu). apply wrap_small. unfold is_uint. lia. }
  destruct pc as [| |raw|g].
  - eexists. split; [done|]. eapply set_lease_ok; [done|done| |done]. cbn. rewrite wrap_small; [lia|].
    pose proof (in_use_insert in_use _ _ _ l_counted Hj) as Hi. cbn in Hi. pose proof (length_filter (fun pc => in_use pc = true) (<[j:=l_counted]> (leases l))) as Hle'.
    rewrite length_insert in Hle'. unfold is_uint. lia.
  - eexists. split; [done|]. eapply set_lease_ok; [done|done|cbn; lia|]. split; [apply newest_in, Hl|apply Hl].
  - destruct (H4 j _ Hj) as [Hraw Hf]. destruct (decode_ok false f l raw Hl Hraw Hf) as [-> _]. eexists. split; [done|].
    eapply set_lease_ok; [done|done|cbn; lia|]. split; [done|]. by exists raw.
  - destruct (H4 j _ Hj) as (Hf & raw & Hraw & <-). destruct drop_.
    + eexists. split; [done|]. eapply set_lease_ok; [done|done|cbn; rewrite Hdown by done; lia|done].
    + destruct (decode_ok false f l raw Hl Hraw Hf) as [_ ->]. cbn. eauto.
Qed.

Lemma lane_step_ok mode f turn l : lane_ok mode f l -> exists l' f', lane_step mode turn l = Ok l' /\ lane_ok mode f' l'.
Proof.
  intros Hl. destruct turn as [act|lag keep|g|j drop_]; cbn.
  - by apply (writer_turn_ok mode f).
  - destruct mode; [|eauto]. destruct (reader_turn_ok f lag keep l Hl) as (l' & ? & ?). eauto.
  - destruct (bool_decide _) eqn:E; [|eauto]. apply bool_decide_eq_true in E. destruct mode.
    + destruct (lk_reader _ _ _ Hl eq_refl) as (Hf & _ & _ & _ & Hheld). destruct (Hheld g E) as (Hg & raw & Hraw & <-).
      destruct (decode_ok true f l raw Hl Hraw) as [_ ->]; [lia|]. cbn. eauto.
    + destruct (lk_leases _ _ _ Hl eq_refl) as (Hnil & _). unfold held_by_reader in Hnil. rewrite Hnil in E. by apply not_elem_of_nil in E.
  - destruct mode; [eauto|]. destruct (lease_turn_ok f j drop_ l Hl) as (l' & ? & ?). eauto.
Qed.

Lemma lane_run_ok mode schedule l f : lane_ok mode f l -> exists l' f', lane_run mode schedule l = Ok l' /\ lane_ok mode f' l'.
Proof.
  revert l f. induction schedule as [|turn schedule IH]; intros l f Hl; [by exists l, f|]. cbn.
  destruct (lane_step_ok mode f turn l Hl) as (l1 & f1 & -> & H1). by apply (IH l1 f1).
Qed.

Lemma start_lane_ok mode epoch n : 0 < epoch <= kMaximumEpoch -> Z.of_nat n < 2 ^ 64 -> lane_ok mode 0 (start_lane epoch n).
Proof.
  intros He Hn. destruct (token_parts epoch 0) as (E1 & _); [lia|unfold kCapacity; lia|].
  constructor; try done.
  - unfold writer_holds. cbn -[kMaximumEpoch]. split_and!; [lia|lia|unfold kCapacity; lia|done|by exists 0].
  - split; [done|]. intros raw ->%list_elem_of_singleton. exists epoch, 0%nat. split_and!; [done|lia|cbn; lia|unfold kCapacity; lia|].
    intros _. exists 0, slot_published. auto.
  - intros [|i] [|j] a b Hij Ha Hb; try lia; cbn in Ha, Hb; try done; try (destruct j; done).
  - unfold newest. cbn -[encode_token token_epoch]. change 0 with (Z.of_nat 0) at 2. rewrite E1. lia.
  - intros _. unfold newest. cbn -[encode_token token_epoch]. split_and!; [lia| |done| |].
    + intros v ->%list_elem_of_singleton. lia.
    + exists (token epoch 0). split_and!; [done|rewrite E1; lia|done].
    + intros e H. by apply not_elem_of_nil in H.
  - intros _. cbn. rewrite length_replicate. split_and!; [done| |done|].
    + assert (H : forall m, filter (fun pc => in_use pc = true) (replicate m l_idle) = []) by (induction m; [done|]; cbn; done). by rewrite H.
    + intros j pc Hj. by apply lookup_replicate in Hj as [-> _].
Qed.

(** ** Reclamation is complete *)

Definition swept (safe : Z) (x : GenSlot) : GenSlot := if reclaimable safe x then new_gen_slot else x.

Lemma reclaim_slot_lookup safe index p s : gp_slots (reclaim_slot safe index p) !! s =
  if decide (s = index) then swept safe <$> gp_slots p !! s else gp_slots p !! s.
Proof.
  unfold reclaim_slot, swept. destruct (decide (s = index)) as [->|Hne].
  - destruct (gp_slots p !! index) as [x|] eqn:Hx; cbn; [|by rewrite Hx]. destruct (reclaimable safe x); [|done].
    apply list_lookup_insert_eq. by eapply lookup_lt_Some.
  - destruct (gp_slots p !! index); [|done]. destruct (reclaimable safe _); [|done]. by apply list_lookup_insert_ne.
Qed.

Lemma sweep_lookup safe k i p s : gp_slots (foldl (fun p index => reclaim_slot safe index p) p (seq i k)) !! s =
  if decide (i <= s < i + k)%nat then swept safe <$> gp_slots p !! s else gp_slots p !! s.
Proof.
  revert i p. induction k as [|k IH]; intros i p; cbn [seq foldl]; [by rewrite decide_False by lia|].
  rewrite IH, reclaim_slot_lookup. destruct (decide (s = i)) as [->|Hne].
  - by rewrite decide_False, decide_True by lia.
  - destruct (decide (S i <= s < S i + k)%nat); [by rewrite decide_True by lia|by rewrite decide_False by lia].
Qed.

(** Every retired generation below the safe epoch that is not pinned is gone. *)
Lemma reclaim_complete safe p s x : length (gp_slots p) = kCapacity -> safe <> 0 ->
  gp_slots (reclaim safe p) !! s = Some x -> gs_state x = slot_retired -> safe <= gs_epoch x \/ gs_pins x <> 0.
Proof.
  intros Hl H0 Hx Hst. unfold reclaim in Hx. apply Z.eqb_neq in H0. rewrite H0, sweep_lookup in Hx.
  assert (Hs : swept safe <$> gp_slots p !! s = Some x).
  { destruct (decide _) as [_|Hd]; [done|]. apply lookup_lt_Some in Hx. lia. }
  apply fmap_Some in Hs as (y & _ & ->). unfold swept in *. destruct (reclaimable safe y) eqn:E; [done|].
  unfold reclaimable in E. rewrite bool_decide_true in E by done. cbn in E. lia.
Qed.

Lemma sweep_run mode safe act k i p l : (i + k = kCapacity)%nat -> (0 < k)%nat ->
  lane_run mode (replicate k (turn_writer act)) (set_writer p (w_sweep safe i) l) =
  Ok (set_writer (foldl (fun p index => reclaim_slot safe index p) p (seq i k)) w_idle l).
Proof.
  revert i p. induction k as [|k IH]; intros i p Hi Hk; [lia|]. cbn [replicate lane_run lane_step]. unfold writer_turn. cbn [writer set_writer bindR].
  destruct k as [|k].
  - by rewrite (proj2 (Nat.eqb_eq (S i) kCapacity)) by lia.
  - rewrite (proj2 (Nat.eqb_neq (S i) kCapacity)) by lia. apply (IH (S i)); lia.
Qed.

Lemma reclaim_run mode l : writer l = w_idle ->
  exists l', lane_run mode (replicate (S kCapacity) (turn_writer (act_reclaim 0))) l = Ok l' /\
    pool l' = reclaim (quiescent_epoch mode 0 l) (pool l).
Proof.
  intros Hi. unfold reclaim. destruct (Z.eqb_spec (quiescent_epoch mode 0 l) 0) as [E|E].
  - exists l. split; [|done]. generalize (S kCapacity) as k. induction k as [|k IH]; [done|]. cbn [replicate lane_run lane_step].
    unfold writer_turn. rewrite Hi, E. cbn. apply IH.
  - change (S kCapacity) with (1 + kCapacity)%nat. cbn [replicate Nat.add lane_run lane_step]. unfold writer_turn at 1. rewrite Hi.
    apply Z.eqb_neq in E. rewrite E. cbn [bindR]. rewrite sweep_run by (done || unfold kCapacity; lia). by eexists.
Qed.

(** ** Shutdown *)

Definition slot_live (x : GenSlot) : bool := bool_decide (gs_state x = slot_published) || bool_decide (gs_state x = slot_retired).
Definition counted (p : GenerationSlotPool) : Prop :=
  gp_live_slots p = Z.of_nat (length (filter (fun x => slot_live x = true) (gp_slots p))) /\ length (gp_slots p) = kCapacity.

Lemma reclaim_slot_counted safe index p : counted p -> counted (reclaim_slot safe index p).
Proof.
  intros [Hc Hl]. unfold reclaim_slot. destruct (gp_slots p !! index) as [x|] eqn:Hx; [|done].
  destruct (reclaimable safe x) eqn:Er; [|done]. unfold reclaimable in Er. b2p.
  assert (Hlive : slot_live x = true) by (unfold slot_live; apply orb_true_iff; right; by apply bool_decide_true).
  unfold counted. cbn. rewrite (in_use_insert slot_live _ _ _ _ Hx), Hlive, length_insert. cbn.
  pose proof (count_bound slot_live _ _ _ Hx Hlive). rewrite Hl in *. unfold kCapacity in *. rewrite wrap_small by (width; lia). change (slot_live new_gen_slot) with false. cbn [Z.b2z]. split; [lia|done].
Qed.

Lemma sweep_counted safe k i p : counted p -> counted (foldl (fun p index => reclaim_slot safe index p) p (seq i k)).
Proof. revert i p. induction k as [|k IH]; intros i p H; [done|]. cbn. apply IH. by apply reclaim_slot_counted. Qed.

(** The shutdown of a lane whose writer has stopped succeeds: without a reservation or
    a pin everything but the current generation is destroyed. *)
Lemma finalize_shutdown_ok p : counted p -> writer_holds p -> gp_reserved_slots p = 0 -> gp_reader_quiescent p = false ->
  (forall s x, gp_slots p !! s = Some x -> s <> gp_writer_slot p ->
     gs_state x = slot_free \/ gs_state x = slot_retired /\ gs_epoch x <= gp_writer_epoch p /\ gs_pins x = 0) ->
  exists p', finalize_shutdown p = (Ok tt, p') /\ holds p' (gp_writer_slot p) (gp_writer_epoch p) /\
    forall s x, gp_slots p' !! s = Some x -> s <> gp_writer_slot p -> gs_state x = slot_free.
Proof.
  intros Hc (He & Hs & Hl & pins & Hw) Hr Hq Hall. unfold finalize_shutdown, mark_reader_quiescent. cbn -[try_finish_shutdown].
  rewrite Hr, Hq. cbn -[try_finish_shutdown]. unfold try_finish_shutdown. cbn -[reclaim]. rewrite Hr. cbn -[reclaim].
  unfold kMaximumEpoch, kSlotBits in He. change (Z.shiftr (umax 64) 16) with 281474976710655 in He.
  rewrite wrap_small by (width; lia). unfold reclaim. rewrite (proj2 (Z.eqb_neq (gp_writer_epoch p + 1) 0)) by lia.
  match goal with |- context [foldl ?g ?a ?i] => set (p0 := a); set (q := foldl g p0 i) end.
  assert (Hslot : forall s, gp_slots q !! s = swept (gp_writer_epoch p + 1) <$> gp_slots p !! s).
  { intros s. unfold q. rewrite sweep_lookup. destruct (decide _) as [_|Hd]; [done|].
    assert (gp_slots p0 !! s = None) as Hnone by (apply lookup_ge_None; cbn; lia). change (gp_slots p) with (gp_slots p0). by rewrite Hnone. }
  assert (Hws : gp_slots q !! gp_writer_slot p = Some (mkGenSlot (Some (gp_writer_epoch p)) (gp_writer_epoch p) pins slot_published)).
  { by rewrite Hslot, Hw. }
  assert (Hfree : forall s x, gp_slots q !! s = Some x -> s <> gp_writer_slot p -> gs_state x = slot_free).
  { intros s x Hx Hne. rewrite Hslot in Hx. apply fmap_Some in Hx as (y & Hy & ->). unfold swept, reclaimable.
    destruct (Hall s y Hy Hne) as [Hf|(Hf & Hf1 & Hf2)]; rewrite Hf; [done|]. rewrite Hf2.
    destruct (Z.ltb_spec (gs_epoch y) (gp_writer_epoch p + 1)); [done|lia]. }
  destruct (sweep_counted (gp_writer_epoch p + 1) kCapacity 0 p0 Hc : counted q) as [Hlive _].
  assert (H1 : gp_live_slots q = 1).
  { pose proof (in_use_insert slot_live _ _ _ new_gen_slot Hws) as Hi. rewrite <- Hlive in Hi.
    change (slot_live new_gen_slot) with false in Hi.
    change (slot_live (mkGenSlot (Some (gp_writer_epoch p)) (gp_writer_epoch p) pins slot_published)) with true in Hi. cbn [Z.b2z] in Hi.
    enough (length (filter (fun x => slot_live x = true) (<[gp_writer_slot p := new_gen_slot]> (gp_slots q))) = 0%nat) by lia.
    apply length_zero_iff_nil. match goal with |- ?a = [] => destruct a as [|x l] eqn:Ef; [done|] end. exfalso.
    assert (Hin : x ∈ x :: l) by by left. rewrite <- Ef in Hin. apply list_elem_of_filter in Hin as [Hlx (s & Hsx)%list_elem_of_lookup].
    apply list_lookup_insert_Some in Hsx as [(_ & <- & _)|[Hne Hsx]]; [done|]. unfold slot_live in Hlx.
    by rewrite (Hfree s x Hsx) in Hlx by done. }
  clearbody q. rewrite H1. eexists. split; [reflexivity|]. split; [|exact Hfree]. exists pins, slot_published. split; [exact Hws|by left].
Qed.

(** C7. No reader uses a generation that has been destroyed, and generations do not
    pile up.  For every interleaving of the writer with the reader of the epoch
    protocol, whose loads may return old values, or with any number of counted
    leases: every use finds its generation in place, so the run never gets stuck; at
    any moment what the readers hold can be used; the last published token leads to
    its generation, which is the current one of the writer; and a reclamation started
    by the writer destroys exactly as [reclaim] does, after which no retired
    generation below the safe epoch is left but the pinned ones. *)
Theorem generations_safe mode epoch n schedule : 0 < epoch <= kMaximumEpoch -> Z.of_nat n < 2 ^ 64 ->
  exists l, lane_run mode schedule (start_lane epoch n) = Ok l /\
    (forall g, g ∈ held_by_reader l -> dereference g (pool l) = Ok tt) /\
    (forall j g, leases l !! j = Some (l_using g) -> mode = false -> dereference g (pool l) = Ok tt) /\
    decode_generation (newest (published_token l)) l = Some (token_epoch (newest (published_token l))) /\
    (writer l = w_idle -> token_epoch (newest (published_token l)) = gp_writer_epoch (pool l) /\
       exists l', lane_run mode (replicate (S kCapacity) (turn_writer (act_reclaim 0))) l = Ok l' /\
         forall s x, gp_slots (pool l') !! s = Some x -> gs_state x = slot_retired -> quiescent_epoch mode 0 l <> 0 ->
           quiescent_epoch mode 0 l <= gs_epoch x \/ gs_pins x <> 0).
Proof.
  intros He Hn. destruct (lane_run_ok mode schedule _ 0 (start_lane_ok mode epoch n He Hn)) as (l & f & Hr & Hl).
  exists l. split; [done|]. split_and!.
  - intros g Hg. destruct mode.
    + destruct (lk_reader _ _ _ Hl eq_refl) as (Hf & _ & _ & _ & Hheld). destruct (Hheld g Hg) as (Hle & raw & Hraw & <-).
      apply (decode_ok true f); [done|done|lia].
    + destruct (lk_leases _ _ _ Hl eq_refl) as (Hnil & _). rewrite Hnil in Hg. by apply not_elem_of_nil in Hg.
  - intros j g Hj ->. destruct (lk_leases _ _ _ Hl eq_refl) as (_ & _ & _ & H). destruct (H j _ Hj) as (Hf & raw & Hraw & <-).
    by apply (decode_ok false f).
  - apply (decode_ok mode f); [done|apply newest_in, Hl|apply Hl].
  - pose proof (lk_writer _ _ _ Hl) as Hw. intros Hi. rewrite Hi in Hw. split; [rewrite Hw; by apply writer_token_epoch, Hl|].
    destruct (reclaim_run mode l Hi) as (l' & Hl' & Hp). exists l'. split; [done|]. intros s x Hx Hst H0. rewrite Hp in Hx.
    eapply reclaim_complete; try done. apply Hl.
Qed.

(** The reader keeps generation 2 while 3 is published; 1 is destroyed, 2 is not. *)
Definition sample_turns : list lane_turn :=
  [turn_writer (act_publish 2); turn_reader 0 []; turn_writer act_pin; turn_reader 0 []; turn_reader 0 [];
   turn_reader 0 []; turn_writer (act_publish 3); turn_reader 0 []; turn_writer act_pin; turn_reader 0 []] ++
  replicate 3 (turn_reader 0 [2]) ++ replicate 66 (turn_writer (act_reclaim 0)) ++ [turn_read 2; turn_read 3].

Lemma generations_safe_witness : exists l, lane_run true sample_turns (start_lane 1 0) = Ok l /\
  held_by_reader l = [3; 2] /\ (gs_generation <$> take 3 (gp_slots (pool l))) = [None; Some 2; Some 3] /\
  dereference 2 (pool l) = Ok tt.
Proof.
  destruct (generations_safe true 1 0 sample_turns) as (l & Hl & Hheld & _); [split; [reflexivity|vm_compute; discriminate]|reflexivity|].
  exists l. split; [exact Hl|]. specialize (Hheld 2). vm_compute in Hl. injection Hl as <-. split; [reflexivity|]. split; [reflexivity|].
  apply Hheld. vm_compute. right. left.
Defined.
