(* ===== verification/Lifecycle.v ===== *)
(** * The lifecycle of a mutation in a shard pair

    Models the state machine that records what is known of a mutation between its
    admission and its answer, and the decisions taken from it:
    include/glifistore/store/paired/mutation_state.hpp and
    src/store/paired/mutation_state.cpp (stages, [decide_completion],
    MutationLifecycle), completion_policy, mutation_recovery and the error
    classification of mutation_execution, of the same directories.

    An [std::optional<Error>] is an option of its code; messages are left out.  A
    method returns whether it was legal and the lifecycle it leaves. *)

From S2P Require Import Prelude.

Inductive DurableMutationOutcome := outcome_committed | outcome_not_committed | outcome_indeterminate.
Inductive CommitKnowledge := known_not_committed | committed | indeterminate.
Inductive PublicationState := not_required | required | staged | published | failed.
Inductive MutationStage :=
  | stage_not_admitted | stage_admitted | stage_staged | stage_expired_pre_store | stage_durable_started
  | stage_authority_committed | stage_publication_required | stage_published | stage_completion_decided
  | stage_completed | stage_rejected | stage_indeterminate.
Inductive CompletionKind := undecided | success | kind_known_not_committed | kind_indeterminate.

#[export] Instance CommitKnowledge_eq_dec : EqDecision CommitKnowledge.
Proof. solve_decision. Defined.
#[export] Instance PublicationState_eq_dec : EqDecision PublicationState.
Proof. solve_decision. Defined.
#[export] Instance MutationStage_eq_dec : EqDecision MutationStage.
Proof. solve_decision. Defined.
#[export] Instance CompletionKind_eq_dec : EqDecision CompletionKind.
Proof. solve_decision. Defined.

Definition commit_knowledge_from (outcome : DurableMutationOutcome) : CommitKnowledge :=
  match outcome with
  | outcome_committed => committed
  | outcome_indeterminate => indeterminate
  | outcome_not_committed => known_not_committed
  end.
Definition durable_outcome_from (knowledge : CommitKnowledge) : DurableMutationOutcome :=
  match knowledge with
  | committed => outcome_committed
  | indeterminate => outcome_indeterminate
  | known_not_committed => outcome_not_committed
  end.

Record DurableMutationResult := mkMutationResult { result_outcome : DurableMutationOutcome; result_error : option ErrorCode }.
Record DurableDecision := mkDurable { knowledge : CommitKnowledge; durable_error : option ErrorCode; mutate_entered : bool }.
Record CompletionDecision := mkCompletion { kind : CompletionKind; fail_closed_required : bool; drain_required : bool }.

Definition is_committed (d : DurableDecision) : bool := bool_decide (knowledge d = committed).
Definition clean_commit (d : DurableDecision) : bool := is_committed d && bool_decide (durable_error d = None).

(** [decide_completion]; a PublicationDecision is its state. *)
Definition decide_completion (durable : DurableDecision) (publication : PublicationState) : CompletionDecision :=
  let is_published := bool_decide (publication = published) in
  if negb (mutate_entered durable) && bool_decide (knowledge durable = known_not_committed) &&
     bool_decide (durable_error durable = None) && bool_decide (publication = not_required)
  then mkCompletion kind_known_not_committed false false
  else match knowledge durable with
       | known_not_committed => mkCompletion kind_known_not_committed false false
       | indeterminate => mkCompletion kind_indeterminate true true
       | committed =>
           if clean_commit durable then
             if is_published then mkCompletion success false false
             else mkCompletion kind_indeterminate true (negb is_published)
           else mkCompletion (if is_published then success else kind_indeterminate) true (negb is_published)
       end.

Record MutationLifecycle := mkLife {
  stage : MutationStage;
  durable : DurableDecision;
  publication : PublicationState;
  completion : CompletionDecision
}.

Definition no_decision : DurableDecision := mkDurable known_not_committed None false.
Definition new_lifecycle : MutationLifecycle :=
  mkLife stage_not_admitted no_decision not_required (mkCompletion undecided false false).

Definition transition_allowed (from to : MutationStage) : bool :=
  bool_decide (from = to) ||
  match from, to with
  | stage_not_admitted, stage_admitted => true
  | stage_admitted, (stage_staged | stage_rejected | stage_expired_pre_store) => true
  | stage_staged, (stage_durable_started | stage_expired_pre_store | stage_rejected) => true
  | stage_expired_pre_store, (stage_completion_decided | stage_rejected | stage_completed) => true
  | stage_durable_started,
      (stage_authority_committed | stage_rejected | stage_indeterminate | stage_publication_required) => true
  | stage_authority_committed, stage_publication_required => true
  | stage_publication_required, (stage_published | stage_indeterminate) => true
  | stage_published, stage_completion_decided => true
  | stage_indeterminate, (stage_completion_decided | stage_publication_required) => true
  | stage_rejected, (stage_completion_decided | stage_completed) => true
  | stage_completion_decided, stage_completed => true
  | _, _ => false
  end.

Section methods.
Context (l : MutationLifecycle).

Definition go (to : MutationStage) : bool * MutationLifecycle := (true, mkLife to (durable l) (publication l) (completion l)).
Definition illegal : bool * MutationLifecycle := (false, l).
Definition at_stage (s : MutationStage) : bool := bool_decide (stage l = s).
Definition publishing (s : PublicationState) : bool := bool_decide (publication l = s).

Definition admit_mutation : bool * MutationLifecycle := if negb (at_stage stage_not_admitted) then illegal else go stage_admitted.

Definition stage_for_writer : bool * MutationLifecycle := if negb (at_stage stage_admitted) then illegal else go stage_staged.

Definition expire_pre_store : bool * MutationLifecycle :=
  if negb (at_stage stage_admitted) && negb (at_stage stage_staged) then illegal
  else (true, mkLife stage_completion_decided no_decision not_required (decide_completion no_decision not_required)).

Definition can_enter_durable : bool := at_stage stage_staged || at_stage stage_admitted.

Definition mark_durable_started : bool * MutationLifecycle :=
  if negb can_enter_durable then illegal
  else (true, mkLife stage_durable_started (mkDurable (knowledge (durable l)) (durable_error (durable l)) true)
                (publication l) (completion l)).

Definition apply_durable_result (result : DurableMutationResult) : bool * MutationLifecycle :=
  if negb (at_stage stage_durable_started) then illegal
  else
    let d := mkDurable (commit_knowledge_from (result_outcome result)) (result_error result) true in
    match knowledge d with
    | committed => (true, mkLife stage_publication_required d required (completion l))
    | indeterminate => (true, mkLife stage_indeterminate d required (completion l))
    | known_not_committed => (true, mkLife stage_completion_decided d not_required (decide_completion d not_required))
    end.

Definition require_publication : bool * MutationLifecycle :=
  if negb (at_stage stage_authority_committed) && negb (at_stage stage_indeterminate) &&
     negb (at_stage stage_publication_required)
  then illegal else (true, mkLife stage_publication_required (durable l) required (completion l)).

Definition mark_publication_staged : bool * MutationLifecycle :=
  if negb (at_stage stage_publication_required) then illegal
  else (true, mkLife (stage l) (durable l) staged (completion l)).

Definition not_publishing : bool :=
  negb (at_stage stage_publication_required) && negb (publishing staged) && negb (publishing required).

Definition mark_published : bool * MutationLifecycle :=
  if not_publishing then illegal
  else if bool_decide (knowledge (durable l) = known_not_committed) then illegal
  else (true, mkLife stage_published (durable l) published (completion l)).

Definition mark_publication_failed : bool * MutationLifecycle :=
  if not_publishing then illegal
  else (true, mkLife stage_indeterminate (durable l) failed (completion l)).

Definition mark_exception_after_durable_start : bool * MutationLifecycle :=
  if negb (at_stage stage_durable_started) then illegal
  else (true, mkLife stage_indeterminate (mkDurable indeterminate (Some unavailable) true) required (completion l)).

Definition decide_with (decision : CompletionDecision) : bool * MutationLifecycle :=
  if at_stage stage_completion_decided || at_stage stage_completed then illegal
  else if bool_decide (kind decision = undecided) then illegal
  else if bool_decide (knowledge (durable l) = committed) && bool_decide (kind decision = kind_known_not_committed) then illegal
  else match stage l with
       | stage_published | stage_indeterminate | stage_rejected | stage_expired_pre_store =>
           (true, mkLife stage_completion_decided (durable l) (publication l) decision)
       | _ => illegal
       end.

Definition mark_completed : bool * MutationLifecycle :=
  if negb (at_stage stage_completion_decided) then illegal else go stage_completed.
End methods.

(** ** The decisions taken from it *)

(** [wire_error_code_for] and [status_from_completion]. *)
Definition wire_error_code_for (k : CompletionKind) : ErrorCode :=
  match k with
  | kind_known_not_committed => resource_exhausted
  | kind_indeterminate => unavailable
  | success | undecided => internal_error
  end.
Definition status_from_completion (decision : CompletionDecision) : Status :=
  match kind decision with
  | success => Ok tt
  | kind_known_not_committed => Err resource_exhausted
  | kind_indeterminate => Err unavailable
  | undecided => Err internal_error
  end.

(** An exception while a durable mutation was under way. *)
Record SyncDurableExceptionContext := mkExceptionContext {
  durable_committed : bool;
  durable_mutate_entered : bool;
  generation_published : bool;
  status_resolved : bool
}.
Record SyncDurableRecoveryActions := mkRecoveryActions {
  drain_if_unpublished : bool;
  fail_closed : bool;
  mark_exception_lifecycle : bool
}.
Inductive SyncDurableExceptionStatusKind :=
  keep_resolved | success_after_visibility | unavailable_store_entered | resource_exhausted_never_entered.

Definition plan_sync_durable_exception_recovery (ctx : SyncDurableExceptionContext) : SyncDurableRecoveryActions :=
  let store_entered := durable_committed ctx || durable_mutate_entered ctx in
  if negb store_entered then mkRecoveryActions false false false
  else mkRecoveryActions (negb (generation_published ctx)) true true.

Definition plan_sync_durable_exception_status (ctx : SyncDurableExceptionContext) : SyncDurableExceptionStatusKind :=
  if status_resolved ctx then keep_resolved
  else if generation_published ctx && durable_committed ctx then success_after_visibility
  else if durable_committed ctx || durable_mutate_entered ctx then unavailable_store_entered
  else resource_exhausted_never_entered.

(** The codes a client may see for a mutation that is known not to be committed. *)
Definition rewrite_known_not_committed_wire_error (code : ErrorCode) : ErrorCode :=
  match code with
  | not_found | invalid_argument | record_too_large | resource_exhausted | storage_exhausted | file_too_large
  | descriptor_exhausted | read_only_filesystem | sequence_conflict | segment_full | segment_sealed
  | arithmetic_overflow => code
  | _ => resource_exhausted
  end.
(** The code and whether the pair must fail closed. *)
Definition classify_volatile_mutation_error (code : ErrorCode) (sticky : bool) : ErrorCode * bool :=
  match code with
  | unavailable => (code, true)
  | _ => (rewrite_known_not_committed_wire_error code, sticky)
  end.

(** [should_retry_durable_mutation] of the store and the loop of [execute_durable_single],
    given what each attempt on the store answers. *)
Definition should_retry_durable_mutation (result : DurableMutationResult) (attempt : nat) : bool :=
  (attempt =? 0)%nat && match result_outcome result with outcome_not_committed => true | _ => false end &&
  bool_decide (result_error result = Some sequence_conflict).
Fixpoint retry_loop (mutate : nat -> DurableMutationResult) (attempt remaining : nat) (result : DurableMutationResult) :
    DurableMutationResult :=
  match remaining with
  | 0%nat => result
  | S remaining =>
      let result := mutate attempt in
      if negb (should_retry_durable_mutation result attempt) then result else retry_loop mutate (S attempt) remaining result
  end.
Definition execute_durable_single (mutate : nat -> DurableMutationResult) : DurableMutationResult :=
  retry_loop mutate 0 2 (mkMutationResult outcome_not_committed None).

(** ** Histories *)

Inductive life_call :=
  | call_admit | call_stage_for_writer | call_expire_pre_store | call_mark_durable_started
  | call_apply_durable_result (result : DurableMutationResult) | call_require_publication | call_mark_publication_staged
  | call_mark_published | call_mark_publication_failed | call_mark_exception | call_decide (decision : CompletionDecision)
  | call_mark_completed.

Definition life_step (c : life_call) (l : MutationLifecycle) : bool * MutationLifecycle :=
  match c with
  | call_admit => admit_mutation l
  | call_stage_for_writer => stage_for_writer l
  | call_expire_pre_store => expire_pre_store l
  | call_mark_durable_started => mark_durable_started l
  | call_apply_durable_result result => apply_durable_result l result
  | call_require_publication => require_publication l
  | call_mark_publication_staged => mark_publication_staged l
  | call_mark_published => mark_published l
  | call_mark_publication_failed => mark_publication_failed l
  | call_mark_exception => mark_exception_after_durable_start l
  | call_decide decision => decide_with l decision
  | call_mark_completed => mark_completed l
  end.
Definition life_run (calls : list life_call) (l : MutationLifecycle) : MutationLifecycle :=
  foldl (fun l c => (life_step c l).2) l calls.

(** A stage that the table reaches from another one. *)
Definition reaches : MutationStage -> MutationStage -> Prop := rtc (fun from to => transition_allowed from to = true).

(** What each stage says of the rest of the lifecycle. *)
Definition life_ok (l : MutationLifecycle) : Prop :=
  (knowledge (durable l) = committed -> kind (completion l) <> kind_known_not_committed) /\
  (knowledge (durable l) <> known_not_committed -> mutate_entered (durable l) = true) /\
  match stage l with
  | stage_not_admitted | stage_admitted | stage_staged =>
      knowledge (durable l) = known_not_committed /\ mutate_entered (durable l) = false /\ publication l = not_required /\
      kind (completion l) = undecided
  | stage_durable_started =>
      knowledge (durable l) = known_not_committed /\ mutate_entered (durable l) = true /\ publication l = not_required /\ kind (completion l) = undecided
  | stage_publication_required => knowledge (durable l) <> known_not_committed /\ (publication l = required \/ publication l = staged)
  | stage_published => knowledge (durable l) <> known_not_committed /\ publication l = published
  | stage_indeterminate => knowledge (durable l) <> known_not_committed /\ (publication l = required \/ publication l = failed)
  | stage_completion_decided | stage_completed =>
      kind (completion l) <> undecided /\
      (knowledge (durable l) = known_not_committed /\ publication l = not_required /\ kind (completion l) = kind_known_not_committed \/
       knowledge (durable l) <> known_not_committed /\ (publication l = published \/ publication l = required \/ publication l = failed))
  | stage_rejected | stage_expired_pre_store | stage_authority_committed => False
  end.

(** Case analysis on the fields a call looks at; the step is then evaluated. *)
Ltac life_cases :=
  let s := fresh "s" in let k := fresh "k" in let p := fresh "p" in let H1 := fresh "H1" in let H2 := fresh "H2" in let Hm := fresh "Hm" in
  match goal with H : life_ok ?l |- _ => destruct l as [s [k ? ?] p [? ? ?]]; destruct H as (H1 & Hm & H2) end;
  destruct s; cbn in H2; try done; destruct p; try (exfalso; intuition congruence); destruct k; try (exfalso; intuition congruence);
  match goal with c : life_call |- _ => destruct c as [| | | |[[] ?]| | | | | |[[] ? ?]|] end;
  match goal with |- context [life_step ?c ?l] =>
    let r := eval vm_compute in (life_step c l) in change (life_step c l) with r end;
  cbn [fst snd stage].

Lemma life_step_ok c l : life_ok l -> life_ok (life_step c l).2.
Proof. intros H. life_cases; unfold life_ok; cbn in *; intuition congruence. Qed.

(** The stages a call moves between. *)
Lemma life_step_stages c l : life_ok l -> (life_step c l).1 = true ->
  reaches (stage l) (stage (life_step c l).2) \/
  (stage l = stage_completion_decided \/ stage l = stage_completed) /\ (c = call_mark_published \/ c = call_mark_publication_failed).
Proof.
  intros H. life_cases; try done; intros _; auto; left;
    first [by apply rtc_refl|by apply rtc_once|by apply (rtc_l _ _ stage_staged); [|apply rtc_once]
          |by apply (rtc_l _ _ stage_expired_pre_store); [|apply rtc_once]
          |by apply (rtc_l _ _ stage_rejected); [|apply rtc_once]
          |by apply (rtc_l _ _ stage_publication_required); [|apply rtc_once]].
Qed.

Lemma life_run_ok calls l : life_ok l -> life_ok (life_run calls l).
Proof. revert l. induction calls as [|c calls IH]; intros l H; [done|]. apply IH. by apply life_step_ok. Qed.

(** [decide_completion] as a table. *)
Lemma decide_completion_table d p : let c := decide_completion d p in
  (kind c = success <-> knowledge d = committed /\ p = published) /\
  (kind c = kind_known_not_committed <-> knowledge d = known_not_committed) /\ kind c <> undecided /\
  (fail_closed_required c = true <-> knowledge d <> known_not_committed /\ ~ (clean_commit d = true /\ p = published)) /\
  (drain_required c = true <-> knowledge d = indeterminate \/ knowledge d = committed /\ p <> published).
Proof. destruct d as [[] [e|] []], p; vm_compute; intuition congruence. Qed.

(** The plan after an exception is the decision for what was then known. *)
Definition exception_decision (ctx : SyncDurableExceptionContext) : DurableDecision :=
  if durable_committed ctx then mkDurable committed (Some unavailable) true
  else if durable_mutate_entered ctx then mkDurable indeterminate (Some unavailable) true
  else no_decision.
Definition exception_publication (ctx : SyncDurableExceptionContext) : PublicationState :=
  if negb (durable_committed ctx || durable_mutate_entered ctx) then not_required
  else if generation_published ctx then published else required.

Lemma exception_plan_agrees ctx : status_resolved ctx = false ->
  let c := decide_completion (exception_decision ctx) (exception_publication ctx) in
  kind c = match plan_sync_durable_exception_status ctx with
           | success_after_visibility => success
           | unavailable_store_entered => kind_indeterminate
           | _ => kind_known_not_committed
           end /\
  fail_closed_required c = fail_closed (plan_sync_durable_exception_recovery ctx) /\
  (generation_published ctx = false -> drain_required c = drain_if_unpublished (plan_sync_durable_exception_recovery ctx)).
Proof. destruct ctx as [[] [] [] []]; vm_compute; intuition congruence. Qed.

(** A mutation is tried again once, and only when the store said it is not committed. *)
Lemma execute_durable_single_spec mutate :
  execute_durable_single mutate = mutate 0%nat \/
  execute_durable_single mutate = mutate 1%nat /\ result_outcome (mutate 0%nat) = outcome_not_committed /\
  result_error (mutate 0%nat) = Some sequence_conflict.
Proof.
  unfold execute_durable_single, retry_loop. destruct (should_retry_durable_mutation (mutate 0%nat) 0) eqn:E; [|by left].
  right. unfold should_retry_durable_mutation in E. cbn in E. apply andb_true_iff in E as [E1 E2]. apply bool_decide_eq_true in E2.
  cbn. split_and!; [done|by destruct (result_outcome (mutate 0%nat))|done].
Qed.

(** C15. After any calls, legal or not, a mutation that is known to be committed is not
    completed as not committed, one that readers can see is not known to be
    uncommitted, and a mutation that never entered the store has neither; a legal call
    moves along the transition table, but for a publication reported after the
    completion was decided; and when the completion is the one [decide_completion]
    gives, it is accepted, the client sees success exactly when the mutation is
    committed and published, and never an overload after the store may have
    committed. *)
Theorem lifecycle_sound calls : let l := life_run calls new_lifecycle in
  (knowledge (durable l) = committed -> kind (completion l) <> kind_known_not_committed) /\
  (publication l = published -> knowledge (durable l) <> known_not_committed) /\
  (mutate_entered (durable l) = false -> knowledge (durable l) = known_not_committed /\ publication l <> published) /\
  (forall c, (life_step c l).1 = true -> reaches (stage l) (stage (life_step c l).2) \/
     (stage l = stage_completion_decided \/ stage l = stage_completed) /\
     (c = call_mark_published \/ c = call_mark_publication_failed)) /\
  (stage l = stage_published \/ stage l = stage_indeterminate ->
     exists l', decide_with l (decide_completion (durable l) (publication l)) = (true, l') /\
       (status_from_completion (completion l') = Ok tt <-> knowledge (durable l) = committed /\ publication l = published) /\
       status_from_completion (completion l') <> Err resource_exhausted).
Proof.
  intros l. assert (Hok : life_ok l) by (apply life_run_ok; vm_compute; intuition congruence). clearbody l.
  pose proof (fun c => life_step_stages c l Hok) as Hst. destruct Hok as (H1 & Hm & H2). split_and!; [done| | |done|].
  - destruct (stage l); try done; intuition congruence.
  - intros He. destruct (knowledge (durable l)); [|specialize (Hm ltac:(done)); congruence..]. split; [done|].
    destruct (stage l); try done; intuition congruence.
  - intros Hs. set (c := decide_completion _ _). pose proof (decide_completion_table (durable l) (publication l)) as (T1 & T2 & T3 & _). fold c in T1, T2, T3.
    assert (Hk : knowledge (durable l) <> known_not_committed) by (destruct Hs as [Hs|Hs]; rewrite Hs in H2; apply H2).
    exists (mkLife stage_completion_decided (durable l) (publication l) c). split_and!.
    + unfold decide_with, at_stage. rewrite (bool_decide_eq_false_2 (kind c = undecided)) by done.
      rewrite (bool_decide_eq_false_2 (kind c = kind_known_not_committed)) by (rewrite T2; done). rewrite andb_false_r. by destruct Hs as [-> | ->].
    + cbn [completion]. rewrite <- T1. unfold status_from_completion. by destruct (kind c).
    + cbn [completion]. unfold status_from_completion. destruct (kind c); try done. exfalso. by apply Hk, T2.
Qed.

(** A decided completion can change, and a published mutation can be completed as
    not committed, although both are said to be impossible: after an indeterminate
    result is decided and completed, [mark_published] is accepted, because the
    publication is still required, and opens the lifecycle for another decision. *)
Theorem lifecycle_reopens :
  let unknown := mkCompletion kind_indeterminate true true in
  let calls := [call_admit; call_stage_for_writer; call_mark_durable_started;
                call_apply_durable_result (mkMutationResult outcome_indeterminate None); call_decide unknown; call_mark_completed] in
  let l := life_run calls new_lifecycle in
  stage l = stage_completed /\ completion l = unknown /\
  (life_step call_mark_published l).1 = true /\ transition_allowed (stage l) stage_published = false /\
  completion (life_run [call_mark_published; call_decide (mkCompletion success false false)] l) = mkCompletion success false false /\
  completion (life_run [call_mark_published; call_decide (mkCompletion kind_known_not_committed false false)] l) =
    mkCompletion kind_known_not_committed false false.
Proof. vm_compute. split_and!; reflexivity. Qed.
